(* ===== verification/_CoqProject ===== *)
-Q . S2P
Prelude.v
ByteOrder.v
Checksum.v
StdString.v
RingBuffer.v
TcpServer.v
Message.v
Float.v
Dtoa.v
Grisu.v
DtoaText.v
Json.v
Utf8.v
JsonText.v
JsonRead.v
JsonLexer.v
JsonParser.v
JsonGrammar.v
JsonLexerSpec.v
JsonTokenSpec.v
JsonBuild.v
JsonParserSpec.v
JsonParserComplete.v
JsonParse.v
JsonRoundTrip.v
Sender.v
Http.v
Regex.v
HttpText.v
HttpMessage.v
HttpTextSpec.v
HttpStream.v
HttpStreamSpec.v
HttpMultipart.v
HttpServer.v
HttpServerSpec.v
HttpAnswers.v
HttpFraming.v
HttpSafety.v
HttpPool.v
HttpListen.v
HttpForm.v
DBConnection.v
DBPool.v
DBOperator.v
Config.v
Logger.v
Main.v
Model.v
ProtoWire.v
ProtoMessages.v
