(* ===== verification/Prelude.v ===== *)
(** * Lite Monitor: a verification development

    ** The program

    Lite Monitor is a C++ server for monitoring data.  Its parts, under [src/]:

    - [main] ([src/lite_monitor.cpp]) loads the configuration, sets up the logger and
      runs the HTTP server.
    - The trapper ([src/core/trapper/tcp_server.cpp]) is an epoll server that cuts
      the bytes of each connection into frames between two delimiter bytes and hands
      every payload to a callback; [src/common/protocol/message.h] is the envelope
      meant to travel in them, with the byte order of
      [src/common/utils/byteorder_utils.h] and the checksum of
      [src/common/utils/checksum_utils.h].
    - The sender library ([src/sender/sender.cpp], [include/sender/sender.h]), used by
      agents, queues items and sends them in batches from a worker thread as
      length-prefixed JSON text, written by the JSON library.
    - The database side ([src/core/db]): connections of the MySQL client library, a
      pool that threads share, and an operator in front of it.
    - The HTTP side ([src/core/http]): answer bodies and the wrapper of the server of
      [thirdpart/include/http/httplib.h], a library of headers only, so that its code
      is part of the program.
    - Support: configuration ([src/common/config]), logging ([src/common/logger.h]),
      paths, a blocking ring buffer ([src/common/utils/ring_buffer.h]), data records
      ([include/model]) and generated protobuf messages ([include/proto]).

    The parts meet in a few places only, and the development follows them: [Main]
    composes [Config], [Logger] and [Http]; the actions of [Http] on the library's
    server are carried out by [HttpServer], whose connections [HttpListen] accepts
    ([HttpAnswers.configured], [HttpListen.serve]); [Sender] and [Http] call the
    serializer of [Json]; [Sender] and [Message] call [ByteOrder]; [DBOperator] owns a pool of
    [DBPool], which owns connections of [DBConnection].  Nothing in the program
    connects the trapper to the database, and the generated messages have no caller.

    ** The files

    - [Prelude]: bytes as values of [byte]; machine integers as [Z] with the wrap
      written out ([u8] ... [u64], [i32], [i64]); [outcome], the result of code that
      may throw ([Throw]) or have no meaning in C++ ([Undefined]); tactics and the
      lemmas the files share.  [StdString]: the [std::string] operations.
    - [ByteOrder], [Checksum]: [ByteOrderUtils] and [ChecksumUtils].  The host's byte
      order is a parameter.
    - [RingBuffer]: [Ring], the object; [Monitor], the threads around it, as a step
      relation in which threads sleep on the two condition variables.
    - [TcpServer]: [Frames], the deframing loop of [processBuffer] and the
      byte-at-a-time automaton it is compared with; [TcpServer], the object with
      [init], [handleAccept], [handleRead], [closeConnection] and [run].
    - [Message]: the class template [Message<MT>]; what a subclass supplies is the
      class [MessageBody], what a correct one guarantees [MessageBodyLaws].
    - [Dtoa], [Json]: the part of [include/nlohmann/json.hpp] behind [json::dump]:
      Grisu2, the UTF-8 automaton, escaping, integers and layout.  [Float]: what a
      double and a decimal number mean, which double is nearest to a number, and a
      reader of numbers; [Grisu], [DtoaText]: digit generation and formatting held to
      it.  [Utf8], [JsonText], [JsonRead]: UTF-8 by its definition, the text without
      the buffers, and an independent reader of JSON, which is the specification.
    - [JsonLexer], [JsonParser]: [json::parse] and [json::accept]: the scanner, the
      builder of values, whose pointers into the tree are paths, and the parser's
      loop.  [JsonGrammar]: the texts of RFC 8259 and what they denote.
      [JsonLexerSpec], [JsonTokenSpec]: the scanner finds the tokens of the grammar;
      [JsonBuild]: the class [Builder] of the parser's handlers and its instances;
      [JsonParserSpec], [JsonParserComplete]: the loop, for every [Builder], sound
      and complete; [JsonParse], [JsonRoundTrip]: the theorems about whole inputs.
    - [Sender]: the object, the worker with its program counter and the system of
      callers and worker.
    - [Http]: [HttpResponse] and [HTTPServer].
    - cpp-httplib, from the bytes of a connection up: [Regex], the regular expressions
      of the C++ library by backtracking; [HttpText], URLs, query strings, paths,
      multimaps, and files, whose names are C strings ([Files]); [HttpMessage], headers, requests, responses and ranges; [HttpStream],
      a socket as the list of what arrives on it, the buffered stream, lines, heads and
      contents; [HttpMultipart], the parser of forms; [HttpServer], the server with its
      routes and hooks, [process_request] and the loop of a connection; [HttpPool] and
      [HttpListen], the thread pool, the accepting loop and [stop] as step relations.
      Their proofs: [HttpTextSpec], [HttpStreamSpec] (what a stream will give, however
      it is cut), [HttpServerSpec], [HttpAnswers] (the program's own server),
      [HttpFraming] (responses read back), [HttpSafety] (no failure) and [HttpForm]
      (forms, with the client's writing of them).
    - [DBConnection], [DBPool], [DBOperator]: the three layers of
      [src/core/db/db_operator.cpp], and the result cursors of [db_result.hpp].
      [DBPool.step] interleaves the threads, which sleep on one condition variable,
      and the destructor, which sleeps on the other.
    - [Config]: the YAML tree as far as the loader reads it, [Parameters] and
      [ConfigsLoader].  [Logger]: [initLogger] and spdlog's rotating file sink on a
      file system of paths and contents.  [Main]: [PathUtils] and [main].
    - [Model]: [Host], [Item] and [History] as instances of one class of fields.
    - [ProtoWire], [ProtoMessages]: the wire format in the protobuf headers, and one
      Module per generated message, all of which meet the contract of the class
      [MessageLaws].

    In a Module that models a C++ class the record [t] holds its members and each
    function keeps its name.  A constant part of the environment is a parameter or a
    [Record] of functions; a changing part is an argument that lists what the system
    calls, the clock, the network or the database answer, so every theorem that
    quantifies over it speaks about all behaviours of that environment.

    ** What the theorems show

    - C1, C2: deframing does not depend on how the stream was cut, loses no frame and
      always ends.  C6 to C8: what the server around it does: it never reaches its
      callback, because the -1 of [read] is kept in a [size_t], and which
      descriptors it keeps open.
    - C3 to C5: the ring buffer refines a closable bounded queue, also between
      threads, and no wakeup is lost.
    - C9: the checksum is CRC16-Modbus and detects every burst of two bytes.  C10: the
      round trip of the envelope.
    - C11 to C15: the sender: nothing is lost or reordered, the stream stays a
      sequence of whole packets which a receiver can take apart, and stopping ends.
    - C16 to C18: the parser: it returns a value exactly for the documents of the
      grammar, and that value; it reads back what the serializer writes; the type of
      what it returns.  C19: the text of a double is nearer to that double than to any
      other.
    - C20 to C30: the HTTP server: what the program's server answers to every request
      line, byte for byte, and on a connection with several requests; that answers do
      not depend on how the network cuts the request; that a response is framed so that
      its reader finds its end; that no client can make the server fail; that every
      connection is served once and that [stop] ends the server; forms and queries are
      read back as they were written; files are served from below their directory
      only; and what is lost when a client does not wait for the answers.
    - C31 to C35: the database: the pool's accounting between threads, whatever they do
      with their connections; that its destructor, which waits for a notification, is
      notified and ends; what a session, a statement and a query do on every answer of
      the library, a server that is down included.
    - C36 to C39: configuration, rotating logs and the whole program.
    - C40: the generated protobuf messages.

    Theorems that describe a flaw (C6, C7, C15, C28, C31, C34, C37, C39) say exactly when it
    shows and what holds besides.  Other flaws have lemmas of their own:
    [deserialize_reads_past_buffer], [sender_memory_bound], [backoff_schedule],
    [stop_hangs_offline], [pool_use_after_destroy], [operator_ends_library_first],
    [initLogger_spec], [stop_before_listen], [stop_twice] and [form_cut].

    ** Fuel and bounds

    Loops that are not structural have fuel, always enough:
    - [Frames.process_loop]: one more than the bytes of the buffer, as every round
      removes one (C2 says that it ends by itself);
    - [Serializer.escape_loop]: twice the bytes of the string, as a byte may be looked
      at once more after an error; an end without fuel would be [Undefined], which
      [JsonRead.dump_escaped_utf8] excludes.  [count_digits_loop] and [fill_digits]: 5 and 10 rounds for the
      20 digits of a 64-bit integer ([JsonRead.dump_integer_decimal]);
    - [Dtoa.normalize_loop]: 64, the bits of a significand; [round_loop]: 10, as it
      lowers a digit; [fractional_digits]: 17.  An end without fuel would be
      [Undefined], which C19 excludes.  [Float.bisect]: 63 halvings;
    - [ProtoWire.write_varint]: 10 bytes of seven bits hold 64 bits;
      [ProtoWire.parse_loop]: one more than the bytes left, and more changes nothing
      (C40);
    - the readers of [JsonRead]: the length of the text;
    - [Lexer.scan_string_loop], [number_loop] and the loops of comments: one more
      than the bytes the input has left, as a round reads one; [skip_whitespace_loop]
      one more, as a character may wait to be read again; [Parser.sax_loop]: four
      more than the bytes left, as an iteration that goes on has read a token.  An
      end without fuel would be [Undefined], which C16 and C18 exclude.
    - the loops of [HttpStream] that read: one or two more than [SocketStream.avail],
      the bytes that can still arrive, as a round that goes on has read one;
      [write_loop]: one more than the answers of [send] that are left, without which a
      call takes everything; [Multipart.parse]: one more than twice the bytes of its
      buffer, as only one state in two removes none; the repetitions of [Regex.go]: the
      length of the text, as a round reads a byte ([regex_match_lang]);
      [valid_path_loop] and [decode_loop]: the length of the text.
    Everything else is structural recursion, on the list of events, of answers or of
    rows.

    ** What is not modelled

    - Code that is not there: the housekeeper and [db_init.h] are empty or
      declarations; nothing uses [send_buffers_] of the trapper.
    - Effects without a result the code uses: console and log output, formatting of
      log lines, flushing, non-blocking mode and socket options.
    - Third-party code the program does not run through: the rest of the JSON header
      (the parser's callback, iterators, binary formats, adapters of wide strings and
      files, [JSON_DIAGNOSTICS] and [JSON_DIAGNOSTIC_POSITIONS]), the client of
      cpp-httplib but for forms, its content readers and providers, its logger,
      compression and TLS, the MySQL client, YAML parsing, spdlog beyond the rotating
      sink, protobuf's reflection, arenas and compiled parts.  Where the program
      depends on it, it is a parameter with stated laws ([ProtoLibraryLaws],
      [MessageBodyLaws]) or an input.
    - Memory: allocation succeeds, and strings stay below [max_size] unless a
      theorem is about that bound.  The depth of the stack: [std::regex] recurses on
      long texts.  Data races outside the mutexes: the worker's
      unlocked read of the queue's emptiness is one atomic read.
    - The [shared_ptr] of a pooled connection has one owner; the pointer that
      [DBConnection::raw] gives out is not followed.  Symbolic links: where a name leads
      is up to the file system.
    - Floating-point text: that the digits are the fewest possible is not claimed
      (Grisu2 does not always find them); that they read back is (C19). *)

From stdpp Require Export base tactics list gmap strings option numbers relations.
From Stdlib Require Export ZArith Lia.
From Stdlib Require Import Strings.Byte.


(** ** Bytes: [std::string], [char *] buffers and packets are lists of bytes *)

Abbreviation byte := Corelib.Init.Byte.byte.
Abbreviation bytes := (list byte).

#[export] Instance byte_eq_dec : EqDecision byte := Byte.byte_eq_dec.

#[export] Instance byte_countable : Countable byte.
Proof.
  refine (inj_countable' Byte.to_N (λ n, default Byte.x00 (Byte.of_N n)) _).
  intros b. by rewrite Byte.of_to_N.
Qed.

(** The value of a byte read as [uint8_t]. *)
Definition b2z (b : byte) : Z := Z.of_N (Byte.to_N b).

(** The byte holding an integer truncated to 8 bits. *)
Definition z2b (z : Z) : byte := default Byte.x00 (Byte.of_N (Z.to_N (z mod 256))).

Lemma b2z_range b : (0 ≤ b2z b < 256)%Z.
Proof. unfold b2z. pose proof (Byte.to_N_bounded b). lia. Qed.

Lemma z2b_b2z b : z2b (b2z b) = b.
Proof.
  unfold z2b. pose proof (b2z_range b). rewrite Z.mod_small by done.
  unfold b2z. by rewrite N2Z.id, Byte.of_to_N.
Qed.

Lemma b2z_z2b z : b2z (z2b z) = (z mod 256)%Z.
Proof.
  unfold z2b. pose proof (Z.mod_pos_bound z 256 eq_refl) as Hz.
  destruct (Byte.of_N (Z.to_N (z mod 256))) as [b|] eqn:E; simpl.
  - unfold b2z. apply Byte.to_of_N in E. rewrite E. lia.
  - apply Byte.of_N_None_iff in E. lia.
Qed.

Lemma b2z_inj a b : b2z a = b2z b → a = b.
Proof. intros H. by rewrite <- (z2b_b2z a), <- (z2b_b2z b), H. Qed.

Lemma z2b_mod z : z2b (z mod 256) = z2b z.
Proof. unfold z2b. by rewrite Z.mod_mod. Qed.

(** Character literals of the sources, written in the model as strings. *)
Definition str (s : string) : bytes := String.list_byte_of_string s.

(** ** Machine integers

    A [w]-bit unsigned value is a [Z] in [[0, 2^w)]; a conversion to it keeps
    the low [w] bits.  A signed value is a [Z] in [[-2^(w-1), 2^(w-1))]. *)

Definition wrap (w z : Z) : Z := (z mod 2 ^ w)%Z.
Definition swrap (w z : Z) : Z := ((z + 2 ^ (w - 1)) mod 2 ^ w - 2 ^ (w - 1))%Z.

Abbreviation u8 := (wrap 8).
Abbreviation u16 := (wrap 16).
Abbreviation u32 := (wrap 32).
Abbreviation u64 := (wrap 64).
Abbreviation i8 := (swrap 8).
Abbreviation i32 := (swrap 32).
Abbreviation i64 := (swrap 64).

Definition in_unsigned (w z : Z) : Prop := (0 ≤ z < 2 ^ w)%Z.
Definition in_signed (w z : Z) : Prop := (- 2 ^ (w - 1) ≤ z < 2 ^ (w - 1))%Z.

#[export] Instance in_unsigned_dec w z : Decision (in_unsigned w z).
Proof. unfold in_unsigned. apply _. Defined.
#[export] Instance in_signed_dec w z : Decision (in_signed w z).
Proof. unfold in_signed. apply _. Defined.

Lemma wrap_range w z : (0 ≤ w)%Z → in_unsigned w (wrap w z).
Proof. intros Hw. apply Z.mod_pos_bound. lia. Qed.

Lemma wrap_small w z : in_unsigned w z → wrap w z = z.
Proof. apply Z.mod_small. Qed.

Lemma u64_small z : (0 ≤ z < 2 ^ 64)%Z → u64 z = z.
Proof. apply wrap_small. Qed.

Lemma wrap_idem w z : wrap w (wrap w z) = wrap w z.
Proof. unfold wrap. by rewrite Zmod_mod. Qed.

Lemma pow2_half w : (0 < w)%Z → (2 ^ w = 2 * 2 ^ (w - 1))%Z.
Proof. intros Hw. rewrite <- Z.pow_succ_r by lia. f_equal. lia. Qed.

Lemma swrap_range w z : (0 < w)%Z → in_signed w (swrap w z).
Proof.
  intros Hw. unfold swrap, in_signed. pose proof (pow2_half w Hw).
  pose proof (Z.mod_pos_bound (z + 2 ^ (w - 1)) (2 ^ w)). lia.
Qed.

Lemma swrap_small w z : (0 < w)%Z → in_signed w z → swrap w z = z.
Proof.
  intros Hw Hz. unfold swrap. pose proof (pow2_half w Hw). unfold in_signed in Hz.
  rewrite Z.mod_small; lia.
Qed.

(** A signed value survives the trip through the unsigned type of its width
    (two's complement). *)
Lemma swrap_wrap w z : (0 < w)%Z → in_signed w z → swrap w (wrap w z) = z.
Proof.
  intros Hw Hz. rewrite <- (swrap_small w z) at 2 by done.
  unfold swrap, wrap. f_equal. by rewrite Zplus_mod_idemp_l.
Qed.

(** Bits below [n] and bits from [n] up do not meet, so [or] adds them. *)
Lemma lor_shiftl_add a c n :
  (0 ≤ n)%Z → (0 ≤ a < 2 ^ n)%Z → Z.lor a (Z.shiftl c n) = (a + c * 2 ^ n)%Z.
Proof.
  intros Hn Ha.
  assert (Hl : Z.land a (Z.shiftl c n) = 0%Z).
  { apply Z.bits_inj'. intros i Hi. rewrite Z.land_spec, Z.bits_0.
    destruct (Z.lt_ge_cases i n) as [Hin|Hin].
    - rewrite Z.shiftl_spec_low by done. apply andb_false_r.
    - rewrite <- (Z.mod_small a (2 ^ n)), Z.mod_pow2_bits_high by lia. done. }
  rewrite <- Z.shiftl_mul_pow2 by done. pose proof (Z.add_lor_land a (Z.shiftl c n)). lia.
Qed.

(** ** Byte sequences of integers *)

Fixpoint le_bytes (n : nat) (z : Z) : bytes :=
  match n with
  | 0 => []
  | S n' => z2b z :: le_bytes n' (z / 256)
  end.

Fixpoint le_val (bs : bytes) : Z :=
  match bs with
  | [] => 0
  | b :: bs' => b2z b + 256 * le_val bs'
  end%Z.

Definition be_bytes (n : nat) (z : Z) : bytes := reverse (le_bytes n z).
Definition be_val (bs : bytes) : Z := le_val (reverse bs).

Lemma length_le_bytes n z : length (le_bytes n z) = n.
Proof. revert z. induction n as [|n IH]; intros z; simpl; auto. Qed.

Lemma length_be_bytes n z : length (be_bytes n z) = n.
Proof. unfold be_bytes. by rewrite length_reverse, length_le_bytes. Qed.

Lemma pow256_S n : (256 ^ Z.of_nat (S n) = 256 * 256 ^ Z.of_nat n)%Z.
Proof. rewrite Nat2Z.inj_succ, Z.pow_succ_r by lia. done. Qed.

Lemma le_val_bytes n z : le_val (le_bytes n z) = (z mod 256 ^ Z.of_nat n)%Z.
Proof.
  revert z. induction n as [|n IH]; intros z; simpl le_bytes; simpl le_val.
  - by rewrite Z.mod_1_r.
  - rewrite IH, b2z_z2b, pow256_S, Z.rem_mul_r by lia. done.
Qed.

Lemma le_bytes_val bs : le_bytes (length bs) (le_val bs) = bs.
Proof.
  induction bs as [|b bs IH]; simpl; [done|].
  pose proof (b2z_range b). f_equal.
  - rewrite <- z2b_mod, Z.mul_comm, Z_mod_plus_full, z2b_mod. apply z2b_b2z.
  - rewrite Z.mul_comm, Z.div_add by lia. by rewrite Z.div_small, Z.add_0_l.
Qed.

Lemma le_val_range bs : (0 ≤ le_val bs < 256 ^ Z.of_nat (length bs))%Z.
Proof.
  induction bs as [|b bs IH]; simpl length; simpl le_val; [simpl; lia|].
  rewrite pow256_S. pose proof (b2z_range b). nia.
Qed.

Lemma be_val_bytes n z : be_val (be_bytes n z) = (z mod 256 ^ Z.of_nat n)%Z.
Proof. unfold be_val, be_bytes. by rewrite reverse_involutive, le_val_bytes. Qed.

Lemma be_bytes_val bs : be_bytes (length bs) (be_val bs) = bs.
Proof.
  unfold be_val, be_bytes.
  rewrite <- (length_reverse bs), le_bytes_val. apply reverse_involutive.
Qed.

Lemma be_val_range bs : (0 ≤ be_val bs < 256 ^ Z.of_nat (length bs))%Z.
Proof. unfold be_val. rewrite <- length_reverse. apply le_val_range. Qed.

(** ** Outcomes of C++ code

    A computation returns a value, throws an exception, or reaches an operation
    to which the language gives no meaning. *)

Inductive outcome (A : Type) : Type :=
| Val (a : A)
| Throw (what : string)
| Undefined.
Arguments Val {A} a.
Arguments Throw {A} what.
Arguments Undefined {A}.

#[export] Instance outcome_ret : MRet outcome := @Val.
#[export] Instance outcome_bind : MBind outcome := λ A B f m,
  match m with
  | Val a => f a
  | Throw e => Throw e
  | Undefined => Undefined
  end.
#[export] Instance outcome_fmap : FMap outcome := λ A B f m,
  match m with
  | Val a => Val (f a)
  | Throw e => Throw e
  | Undefined => Undefined
  end.

#[export] Instance outcome_eq_dec {A} `{EqDecision A} : EqDecision (outcome A).
Proof. solve_decision. Defined.

Lemma bind_Val_inv {A B} (f : A → outcome B) m b :
  m ≫= f = Val b → ∃ a, m = Val a ∧ f a = Val b.
Proof. destruct m; simpl; naive_solver. Qed.

(** ** Transition systems *)

(** [preserved R I]: every step of [R] from a state of [I] ends in [I]. *)
Definition preserved {S} (R : relation S) (I : S → Prop) : Prop :=
  ∀ s s', R s s' → I s → I s'.

Lemma preserved_rtc {S} (R : relation S) (I : S → Prop) s s' :
  preserved R I → rtc R s s' → I s → I s'.
Proof. intros HR. induction 1; eauto. Qed.

Lemma preserved_and {S} (R : relation S) (I J : S → Prop) :
  preserved R I → (∀ s s', R s s' → I s → J s → J s') →
  preserved R (λ s, I s ∧ J s).
Proof. intros HI HJ s s' Hs [??]. split; eauto. Qed.

(** ** Counting the elements of a list that satisfy a test *)

Definition countb {A} (p : A → bool) (l : list A) : nat :=
  length (filter (λ x, p x = true) l).

Lemma countb_cons {A} (p : A → bool) x l :
  countb p (x :: l) = Nat.b2n (p x) + countb p l.
Proof. unfold countb. rewrite filter_cons. by destruct (p x). Qed.

Lemma countb_app {A} (p : A → bool) l k : countb p (l ++ k) = countb p l + countb p k.
Proof. unfold countb. by rewrite filter_app, length_app. Qed.

(** Replacing one element moves the count by the difference of the tests. *)
Lemma countb_insert {A} (p : A → bool) (l : list A) i x y :
  l !! i = Some x →
  countb p (<[i:=y]> l) + Nat.b2n (p x) = countb p l + Nat.b2n (p y).
Proof.
  intros Hi. pose proof (lookup_lt_Some _ _ _ Hi).
  rewrite insert_take_drop by done.
  rewrite <- (take_drop_middle l i x Hi) at 3.
  rewrite !countb_app, !countb_cons. lia.
Qed.

Lemma countb_zero {A} (p : A → bool) l :
  countb p l = 0 ↔ Forall (λ x, p x = false) l.
Proof.
  induction l as [|x l IH]; [naive_solver|].
  rewrite countb_cons, Forall_cons, <- IH. destruct (p x); simpl; intuition (done || lia).
Qed.

Lemma countb_pos {A} (p : A → bool) (l : list A) i x :
  l !! i = Some x → p x = true → 0 < countb p l.
Proof.
  intros Hi Hp. rewrite <- (take_drop_middle l i x Hi), countb_app, countb_cons, Hp.
  simpl. lia.
Qed.

Lemma countb_pos_inv {A} (p : A → bool) (l : list A) :
  0 < countb p l → ∃ i x, l !! i = Some x ∧ p x = true.
Proof.
  unfold countb. intros H.
  destruct (filter _ l) as [|x k] eqn:E; [simpl in H; lia|].
  assert (Hx : x ∈ filter (λ x, p x = true) l) by (rewrite E; left).
  apply list_elem_of_filter in Hx as [Hp [i Hi]%list_elem_of_lookup]. eauto.
Qed.

(** ** Automation *)

Create HintDb lm.
Create Rewrite HintDb lm.
#[export] Hint Resolve b2z_range wrap_range swrap_range le_val_range be_val_range : lm.
#[export] Hint Rewrite z2b_b2z b2z_z2b wrap_idem length_le_bytes length_be_bytes
  le_val_bytes be_val_bytes : lm.

(** Arithmetic with division and remainder by constants. *)
Ltac zarith := Z.div_mod_to_equations; nia.

(** Split every [if] and [match] of the goal, closing the easy branches. *)
Ltac split_cases := repeat (case_match || case_decide); simplify_eq/=; try done; try lia.
