(* ===== verification/ByteOrder.v ===== *)
(** * Byte order conversion ([src/common/utils/byteorder_utils.h])

    The six functions of [ByteOrderUtils].  Each forwards to a C library macro
    whose effect depends on the byte order of the host, so the host order is a
    parameter of the model.  [repr] and [load] are the object representation of
    an integer, which [std::memcpy] copies to and from a packet. *)

From S2P Require Import Prelude.

(** Byte order of the machine the program runs on. *)
Inductive endian := LittleEndian | BigEndian.

#[export] Instance endian_eq_dec : EqDecision endian.
Proof. solve_decision. Defined.

Module ByteOrderUtils.
(** The bytes of an [n]-byte unsigned integer in memory, and back. *)
Definition repr (e : endian) (n : nat) (z : Z) : bytes :=
  match e with LittleEndian => le_bytes n z | BigEndian => be_bytes n z end.
Definition load (e : endian) (bs : bytes) : Z :=
  match e with LittleEndian => le_val bs | BigEndian => be_val bs end.

(** The value whose bytes are those of [z] in the opposite order. *)
Definition bswap (n : nat) (z : Z) : Z := le_val (reverse (le_bytes n z)).

(** [htons], [htonl], [htobe64] (and [ntohs], [ntohl], [be64toh]): the
    identity on a big-endian host, a byte swap on a little-endian one. *)
Definition host_be (e : endian) (n : nat) (z : Z) : Z :=
  match e with LittleEndian => bswap n z | BigEndian => z end.

Definition hostToNet16 (e : endian) (val : Z) : Z := host_be e 2 val.
Definition hostToNet32 (e : endian) (val : Z) : Z := host_be e 4 val.
Definition hostToNet64 (e : endian) (val : Z) : Z := host_be e 8 val.
Definition netToHost16 (e : endian) (val : Z) : Z := host_be e 2 val.
Definition netToHost32 (e : endian) (val : Z) : Z := host_be e 4 val.
Definition netToHost64 (e : endian) (val : Z) : Z := host_be e 8 val.

Lemma bswap_range n z : (0 ≤ bswap n z < 256 ^ Z.of_nat n)%Z.
Proof.
  unfold bswap. pose proof (le_val_range (reverse (le_bytes n z))) as H.
  by rewrite length_reverse, length_le_bytes in H.
Qed.

Lemma le_bytes_bswap n z : le_bytes n (bswap n z) = be_bytes n z.
Proof.
  unfold bswap. rewrite <- (le_bytes_val (be_bytes n z)).
  by rewrite length_be_bytes.
Qed.

Lemma bswap_involutive n z : bswap n (bswap n z) = (z mod 256 ^ Z.of_nat n)%Z.
Proof.
  unfold bswap at 1. rewrite le_bytes_bswap. unfold be_bytes.
  by rewrite reverse_involutive, le_val_bytes.
Qed.

Lemma host_be_range e n z :
  (0 ≤ z < 256 ^ Z.of_nat n)%Z → (0 ≤ host_be e n z < 256 ^ Z.of_nat n)%Z.
Proof. destruct e; [intros _; apply bswap_range | done]. Qed.

Lemma host_be_involutive e n z :
  (0 ≤ z < 256 ^ Z.of_nat n)%Z → host_be e n (host_be e n z) = z.
Proof.
  intros Hz. destruct e; simpl; [|done]. rewrite bswap_involutive. by apply Z.mod_small.
Qed.

(** The memory image of a converted value is big-endian on every host. *)
Lemma repr_host_be e n z : repr e n (host_be e n z) = be_bytes n z.
Proof. destruct e; simpl; [apply le_bytes_bswap | done]. Qed.

(** Reading network bytes into an integer and converting it gives their
    big-endian value on every host. *)
Lemma host_be_load e bs : host_be e (length bs) (load e bs) = be_val bs.
Proof.
  destruct e; simpl; [|done]. unfold bswap, be_val. by rewrite le_bytes_val.
Qed.
End ByteOrderUtils.

(** ** Properties *)

Section Properties.
Import ByteOrderUtils.

(**  Conversion to network order is portable: for each width and on every
    host, the value stays in range, its memory image is the big-endian encoding
    of the argument, and [netToHost] undoes it, also when it starts from the
    bytes of a received packet. *)
Theorem net_order_portable (e : endian) (v16 v32 v64 : Z)
    (H16 : in_unsigned 16 v16) (H32 : in_unsigned 32 v32) (H64 : in_unsigned 64 v64) :
  (in_unsigned 16 (hostToNet16 e v16) ∧ repr e 2 (hostToNet16 e v16) = be_bytes 2 v16 ∧
   netToHost16 e (hostToNet16 e v16) = v16 ∧
   netToHost16 e (load e (be_bytes 2 v16)) = v16) ∧
  (in_unsigned 32 (hostToNet32 e v32) ∧ repr e 4 (hostToNet32 e v32) = be_bytes 4 v32 ∧
   netToHost32 e (hostToNet32 e v32) = v32 ∧
   netToHost32 e (load e (be_bytes 4 v32)) = v32) ∧
  (in_unsigned 64 (hostToNet64 e v64) ∧ repr e 8 (hostToNet64 e v64) = be_bytes 8 v64 ∧
   netToHost64 e (hostToNet64 e v64) = v64 ∧
   netToHost64 e (load e (be_bytes 8 v64)) = v64).
Proof.
  assert (Hload : ∀ n v, (0 ≤ v < 256 ^ Z.of_nat n)%Z →
    host_be e n (load e (be_bytes n v)) = v).
  { intros n v Hv. rewrite <- (length_be_bytes n v) at 1.
    rewrite host_be_load, be_val_bytes. by apply Z.mod_small. }
  repeat split;
    first [apply repr_host_be | by apply host_be_involutive | by apply Hload
          | by apply (host_be_range e 2) | by apply (host_be_range e 4)
          | by apply (host_be_range e 8)].
Qed.

Lemma net_order_portable_witness :
  netToHost32 LittleEndian (hostToNet32 LittleEndian 21210) = 21210%Z ∧
  hostToNet16 LittleEndian 258 = 513%Z.
Proof.
  split; [|reflexivity].
  apply (net_order_portable LittleEndian 258 21210 1); by vm_compute.
Defined.
End Properties.
