(* ===== verification/Checksum.v ===== *)
(** * CRC16-Modbus ([src/common/utils/checksum_utils.h])

    [ChecksumUtils.crc16] with its overloads and [verifyCRC], on the 16-bit
    register as a [Z].  The second half proves what the checksum is for: the
    register update is invertible, so two messages that differ inside a window
    of two consecutive bytes never share a checksum. *)

From S2P Require Import Prelude.
Local Open Scope Z_scope.

Module ChecksumUtils.
(** Reversed polynomial of CRC16-Modbus. *)
Definition POLY : Z := 0xA001.

(** Body of the inner loop: one shift of the register. *)
Definition crc16_bit (crc : Z) : Z :=
  if decide (Z.land crc 1 ≠ 0)
  then Z.lxor (Z.shiftr crc 1) POLY
  else Z.shiftr crc 1.

(** Inner loop: eight shifts. *)
Definition crc16_shift8 (crc : Z) : Z := Nat.iter 8 crc16_bit crc.

(** Body of the outer loop. *)
Definition crc16_byte (crc : Z) (b : byte) : Z := crc16_shift8 (Z.lxor crc (b2z b)).

(** [crc16(const uint8_t *data, size_t len)]; the overloads on [std::string]
    and [char *] pass the same bytes. *)
Definition crc16 (data : bytes) : Z := foldl crc16_byte 0xFFFF data.

Definition verifyCRC (data : bytes) (expected_crc : Z) : bool :=
  bool_decide (crc16 data = expected_crc).

(** ** Bits of the register *)

Lemma land1_odd z : Z.land z 1 ≠ 0 ↔ Z.odd z = true.
Proof.
  replace (Z.land z 1) with (Z.land z (Z.ones 1)) by done.
  rewrite Z.land_ones by lia. change (2 ^ 1) with 2. rewrite Zmod_odd.
  by destruct (Z.odd z).
Qed.

Lemma crc16_bit_div crc :
  crc16_bit crc = if Z.odd crc then Z.lxor (crc / 2) POLY else crc / 2.
Proof.
  unfold crc16_bit. rewrite Z.shiftr_div_pow2 by lia. change (2 ^ 1) with 2.
  pose proof (land1_odd crc). case_decide; destruct (Z.odd crc); intuition congruence.
Qed.

Lemma in16_testbit z n : in_unsigned 16 z → 16 ≤ n → Z.testbit z n = false.
Proof.
  intros Hz Hn. rewrite <- (Z.mod_small z (2 ^ 16)) by done.
  by rewrite Z.mod_pow2_bits_high by lia.
Qed.

Lemma lxor_range a b :
  in_unsigned 16 a → in_unsigned 16 b → in_unsigned 16 (Z.lxor a b).
Proof.
  intros Ha Hb.
  assert (H : wrap 16 (Z.lxor a b) = Z.lxor a b).
  { apply Z.bits_inj'. intros n Hn. unfold wrap. rewrite Z.lxor_spec.
    destruct (decide (n < 16)).
    - by rewrite Z.mod_pow2_bits_low, Z.lxor_spec by lia.
    - rewrite Z.mod_pow2_bits_high by lia. by rewrite !in16_testbit by (done || lia). }
  rewrite <- H. by apply wrap_range.
Qed.

Lemma byte_in16 b : in_unsigned 16 (b2z b).
Proof. pose proof (b2z_range b). unfold in_unsigned. lia. Qed.

Lemma crc16_bit_range crc : in_unsigned 16 crc → in_unsigned 16 (crc16_bit crc).
Proof.
  intros H. rewrite crc16_bit_div.
  assert (in_unsigned 16 (crc / 2)) by (unfold in_unsigned in *; zarith).
  destruct (Z.odd crc); [by apply lxor_range|done].
Qed.

Lemma crc16_byte_range crc b : in_unsigned 16 crc → in_unsigned 16 (crc16_byte crc b).
Proof.
  intros H. unfold crc16_byte, crc16_shift8.
  assert (Hx := lxor_range _ _ H (byte_in16 b)).
  generalize 8%nat. intros n. induction n; simpl; auto using crc16_bit_range.
Qed.

Lemma foldl_crc16_byte_range data crc :
  in_unsigned 16 crc → in_unsigned 16 (foldl crc16_byte crc data).
Proof. revert crc. induction data; simpl; auto using crc16_byte_range. Qed.

Lemma crc16_range data : in_unsigned 16 (crc16 data).
Proof. by apply foldl_crc16_byte_range. Qed.

(** ** The shift is invertible *)

(** Bit 15 of the shifted register tells which branch was taken. *)
Definition crc16_unbit (crc : Z) : Z :=
  if Z.testbit crc 15 then 2 * Z.lxor crc POLY + 1 else 2 * crc.

Lemma testbit15_small z : 0 ≤ z < 2 ^ 15 → Z.testbit z 15 = false.
Proof.
  intros Hz. rewrite <- (Z.mod_small z (2 ^ 15)) by done.
  by rewrite Z.mod_pow2_bits_high by lia.
Qed.

Lemma crc16_unbit_bit crc : in_unsigned 16 crc → crc16_unbit (crc16_bit crc) = crc.
Proof.
  intros H. rewrite crc16_bit_div. unfold crc16_unbit.
  assert (Hq : 0 ≤ crc / 2 < 2 ^ 15) by (unfold in_unsigned in *; zarith).
  pose proof (Zdiv2_odd_eqn crc) as Hc. rewrite Z.div2_div in Hc.
  destruct (Z.odd crc).
  - rewrite Z.lxor_spec, (testbit15_small _ Hq). simpl.
    rewrite Z.lxor_assoc, Z.lxor_nilpotent, Z.lxor_0_r. lia.
  - rewrite (testbit15_small _ Hq). lia.
Qed.

Lemma crc16_bit_inj a b :
  in_unsigned 16 a → in_unsigned 16 b → crc16_bit a = crc16_bit b → a = b.
Proof. intros Ha Hb E. by rewrite <- (crc16_unbit_bit a), <- (crc16_unbit_bit b), E. Qed.

Lemma crc16_bit_iter_inj n a b :
  in_unsigned 16 a → in_unsigned 16 b →
  Nat.iter n crc16_bit a = Nat.iter n crc16_bit b → a = b.
Proof.
  intros Ha Hb. revert a b Ha Hb. induction n as [|n IH]; intros a b Ha Hb; [done|].
  rewrite !Nat.iter_succ_r. intros E.
  apply crc16_bit_inj; auto. apply IH; auto using crc16_bit_range.
Qed.

Lemma lxor_cancel_r a b c : Z.lxor a c = Z.lxor b c → a = b.
Proof.
  intros E. apply (f_equal (λ z, Z.lxor z c)) in E.
  by rewrite !Z.lxor_assoc, Z.lxor_nilpotent, !Z.lxor_0_r in E.
Qed.

Lemma crc16_byte_inj a b x :
  in_unsigned 16 a → in_unsigned 16 b → crc16_byte a x = crc16_byte b x → a = b.
Proof.
  intros Ha Hb. unfold crc16_byte, crc16_shift8. generalize 8%nat. intros n E.
  apply (lxor_cancel_r _ _ (b2z x)).
  eapply crc16_bit_iter_inj; [..|exact E]; auto using lxor_range, byte_in16.
Qed.

(** Feeding the same suffix to different registers keeps them different. *)
Lemma foldl_crc16_byte_inj data a b :
  in_unsigned 16 a → in_unsigned 16 b →
  foldl crc16_byte a data = foldl crc16_byte b data → a = b.
Proof.
  revert a b. induction data as [|x data IH]; intros a b Ha Hb E; [done|].
  simpl in E. apply IH in E; auto using crc16_byte_range.
  by apply crc16_byte_inj in E.
Qed.

(** ** Linearity: two bytes enter the register as one 16-bit word *)

Lemma crc16_bit_lxor a b : crc16_bit (Z.lxor a b) = Z.lxor (crc16_bit a) (crc16_bit b).
Proof.
  rewrite !crc16_bit_div, <- !Z.div2_div, !Z.div2_spec, Z.shiftr_lxor.
  rewrite <- !Z.bit0_odd, Z.lxor_spec.
  destruct (Z.testbit a 0), (Z.testbit b 0); simpl;
    apply Z.bits_inj'; intros n _; rewrite !Z.lxor_spec;
    repeat match goal with |- context [Z.testbit ?x n] => destruct (Z.testbit x n) end;
    done.
Qed.

Lemma crc16_bit_iter_lxor n a b :
  Nat.iter n crc16_bit (Z.lxor a b) =
  Z.lxor (Nat.iter n crc16_bit a) (Nat.iter n crc16_bit b).
Proof. induction n as [|n IH]; simpl; [done|]. by rewrite IH, crc16_bit_lxor. Qed.

(** A byte in the high half of the register is only shifted down by eight
    steps. *)
Lemma crc16_shift8_high z : 0 ≤ z < 256 → crc16_shift8 (256 * z) = z.
Proof.
  intros Hz.
  assert (H : ∀ k, (k ≤ 8)%nat →
    Nat.iter k crc16_bit (256 * z) = 2 ^ (8 - Z.of_nat k) * z).
  { intros k. induction k as [|k IH]; intros Hk; [simpl; lia|].
    simpl Nat.iter. rewrite IH by lia. rewrite crc16_bit_div.
    replace (8 - Z.of_nat k) with (Z.succ (8 - Z.of_nat (S k))) by lia.
    rewrite Z.pow_succ_r, <- Z.mul_assoc, Z.odd_mul by lia. simpl.
    rewrite Z.mul_comm, Z.div_mul by lia. done. }
  unfold crc16_shift8. rewrite H by lia. change (2 ^ (8 - Z.of_nat 8)) with 1. lia.
Qed.

Lemma crc16_two_bytes crc a b :
  crc16_byte (crc16_byte crc a) b =
  Nat.iter 16 crc16_bit (Z.lxor crc (Z.lxor (b2z a) (256 * b2z b))).
Proof.
  assert (Hiter : ∀ (f : Z → Z) z, Nat.iter 16 f z = Nat.iter 8 f (Nat.iter 8 f z))
    by (intros f z; apply (Nat.iter_add 8 8)).
  rewrite Hiter. unfold crc16_byte, crc16_shift8.
  rewrite <- (crc16_shift8_high (b2z b)) at 1 by apply b2z_range.
  unfold crc16_shift8. by rewrite <- crc16_bit_iter_lxor, Z.lxor_assoc.
Qed.

Lemma crc16_window crc a b data :
  foldl crc16_byte crc (a :: b :: data) =
  foldl crc16_byte (Nat.iter 16 crc16_bit (Z.lxor crc (Z.lxor (b2z a) (256 * b2z b)))) data.
Proof. cbn [foldl]. by rewrite crc16_two_bytes. Qed.

Lemma crc16_bit_iter_range n crc :
  in_unsigned 16 crc → in_unsigned 16 (Nat.iter n crc16_bit crc).
Proof. intros H. induction n; simpl; auto using crc16_bit_range. Qed.

(** Two message bytes form the word they spell in little-endian order. *)
Lemma word_value a b : Z.lxor (b2z a) (256 * b2z b) = b2z a + 256 * b2z b.
Proof.
  symmetry. apply Z.add_nocarry_lxor, Z.bits_inj'. intros n Hn.
  rewrite Z.land_spec, Z.bits_0. change 256 with (2 ^ 8). pose proof (b2z_range a).
  destruct (decide (n < 8)).
  - by rewrite Z.mul_comm, Z.mul_pow2_bits_low, andb_false_r by lia.
  - rewrite <- (Z.mod_small (b2z a) (2 ^ 8)) by done.
    by rewrite Z.mod_pow2_bits_high by lia.
Qed.

Lemma word_bytes_inj a b a' b' :
  Z.lxor (b2z a) (256 * b2z b) = Z.lxor (b2z a') (256 * b2z b') → a = a' ∧ b = b'.
Proof.
  rewrite !word_value. pose proof (b2z_range a). pose proof (b2z_range a').
  intros E. split; apply b2z_inj; lia.
Qed.

Lemma word_range a b : in_unsigned 16 (Z.lxor (b2z a) (256 * b2z b)).
Proof.
  apply lxor_range; [apply byte_in16|].
  pose proof (b2z_range b). unfold in_unsigned. lia.
Qed.
Lemma crc16_iter_lxor_inj n c x y :
  in_unsigned 16 c → in_unsigned 16 x → in_unsigned 16 y →
  Nat.iter n crc16_bit (Z.lxor c x) = Nat.iter n crc16_bit (Z.lxor c y) → x = y.
Proof.
  intros Hc Hx Hy E. apply crc16_bit_iter_inj in E; [|by apply lxor_range..].
  rewrite !(Z.lxor_comm c) in E. by apply lxor_cancel_r in E.
Qed.

Lemma crc16_window_inj c a b a' b' suf :
  in_unsigned 16 c →
  foldl crc16_byte c ([a; b] ++ suf) = foldl crc16_byte c ([a'; b'] ++ suf) →
  a = a' ∧ b = b'.
Proof.
  intros Hc E. cbn [app] in E. rewrite !crc16_window in E.
  apply word_bytes_inj. generalize dependent 16%nat. intros n E.
  apply (crc16_iter_lxor_inj n c); [done|apply word_range..|].
  eapply foldl_crc16_byte_inj; [..|exact E];
    by apply crc16_bit_iter_range, lxor_range, word_range.
Qed.
End ChecksumUtils.

(** ** Properties *)

Section Properties.
Import ChecksumUtils.

(** C9.  Corruption inside a window of two consecutive bytes is always
    detected: a message that passes [verifyCRC] with the checksum of another
    message of the same length, equal to it outside the window, is that
    message.  Single-byte errors are the instance where one of the two bytes is
    unchanged. *)
Theorem verifyCRC_detects_burst (pre suf : bytes) (a b a' b' : byte)
    (Hok : verifyCRC (pre ++ [a'; b'] ++ suf) (crc16 (pre ++ [a; b] ++ suf)) = true) :
  pre ++ [a'; b'] ++ suf = pre ++ [a; b] ++ suf.
Proof.
  unfold verifyCRC, crc16 in Hok. apply bool_decide_eq_true in Hok.
  rewrite (foldl_app _ pre ([a'; b'] ++ suf)), (foldl_app _ pre ([a; b] ++ suf)) in Hok.
  apply crc16_window_inj in Hok as [-> ->]; [done|]. by apply foldl_crc16_byte_range.
Qed.

Lemma verifyCRC_detects_burst_witness :
  str "a" ++ [z2b 1; z2b 2] ++ str "z" = str "a" ++ [z2b 1; z2b 2] ++ str "z" ∧
  verifyCRC (str "a" ++ [z2b 1; z2b 3] ++ str "z")
    (crc16 (str "a" ++ [z2b 1; z2b 2] ++ str "z")) = false.
Proof.
  split; [|by vm_compute].
  apply (verifyCRC_detects_burst (str "a") (str "z") (z2b 1) (z2b 2)). by vm_compute.
Defined.

(**  The checksum is the standard CRC16-Modbus in transmission form: it
    fits in [uint16_t], a message followed by its checksum (low byte first) has
    checksum 0, and the only value [verifyCRC] accepts for a message is its own
    checksum. *)
Theorem crc16_residue (data : bytes) (c : Z) :
  in_unsigned 16 (crc16 data) ∧
  crc16 (data ++ le_bytes 2 (crc16 data)) = 0 ∧
  (verifyCRC data c = true ↔ c = crc16 data).
Proof.
  split_and!; [apply crc16_range| |unfold verifyCRC; rewrite bool_decide_eq_true; naive_solver].
  pose proof (crc16_range data) as Hr. unfold crc16 at 1. rewrite foldl_app.
  fold (crc16 data). revert Hr. generalize (crc16 data). intros r Hr.
  cbn [le_bytes]. rewrite crc16_window. cbn [foldl].
  assert (E : Z.lxor (b2z (z2b r)) (256 * b2z (z2b (r / 256))) = r).
  { rewrite word_value, !b2z_z2b. unfold in_unsigned in Hr.
    change (2 ^ 16) with 65536 in Hr. rewrite (Z.mod_small (r / 256)) by zarith. zarith. }
  by rewrite E, Z.lxor_nilpotent.
Qed.
End Properties.

(** The check value of CRC16-Modbus. *)
Example crc16_check_value : ChecksumUtils.crc16 (str "123456789") = 0x4B37.
Proof. by vm_compute. Qed.
