(* ===== verification/StdString.v ===== *)
(** * The [std::string] operations the sources use

    Strings are lists of bytes.  Positions and lengths are [nat]; the cases in
    which the C++ library throws are values of [outcome]. *)

From S2P Require Import Prelude.

(** Index of the first byte equal to [c]. *)
Fixpoint index_of (c : byte) (s : bytes) : option nat :=
  match s with
  | [] => None
  | x :: s' => if decide (x = c) then Some 0 else S <$> index_of c s'
  end.

(** Index of the last byte equal to [c]. *)
Fixpoint last_index_of (c : byte) (s : bytes) : option nat :=
  match s with
  | [] => None
  | x :: s' =>
      match last_index_of c s' with
      | Some i => Some (S i)
      | None => if decide (x = c) then Some 0 else None
      end
  end.

(** Subtraction on [size_t], which wraps around below zero. *)
Definition size_sub (a b : nat) : nat :=
  if decide (b ≤ a) then a - b else Z.to_nat (Z.of_nat a - Z.of_nat b + 2 ^ 64).

(** [s.find(c, pos)]; [None] is [std::string::npos]. *)
Definition find (c : byte) (pos : nat) (s : bytes) : option nat :=
  Nat.add pos <$> index_of c (drop pos s).

(** [s.find_last_of(c)] for a single character. *)
Definition find_last_of (c : byte) (s : bytes) : option nat := last_index_of c s.

(** [s.substr(pos, n)] and [s.erase(pos, n)] throw when [pos] is past the end. *)
Definition substr (pos n : nat) (s : bytes) : outcome bytes :=
  if decide (pos ≤ length s) then Val (take n (drop pos s)) else Throw "out_of_range".
Definition erase (pos n : nat) (s : bytes) : outcome bytes :=
  if decide (pos ≤ length s) then Val (take pos s ++ drop (pos + n) s)
  else Throw "out_of_range".

(** [s.append(buf, n)], for a string type whose [max_size()] is given: it throws
    when the result would be longer than that; otherwise it reads [n] bytes from
    [buf], which has no meaning past the end of the array. *)
Definition append (max_size : Z) (s buf : bytes) (n : Z) : outcome bytes :=
  if decide (max_size - Z.of_nat (length s) < n)%Z then Throw "length_error" else
  if decide (n ≤ Z.of_nat (length buf))%Z then Val (s ++ take (Z.to_nat n) buf)
  else Undefined.

(** [std::string(s.c_str())]: a C string ends at the first zero. *)
Fixpoint c_str (s : bytes) : bytes :=
  match s with
  | [] => []
  | b :: s => if decide (b = Byte.x00) then [] else b :: c_str s
  end.

Arguments find : simpl never.
Arguments substr : simpl never.
Arguments erase : simpl never.
Arguments append : simpl never.

(** ** Laws *)

Lemma index_of_Some c s i :
  index_of c s = Some i → s = take i s ++ c :: drop (S i) s ∧ c ∉ take i s ∧ i < length s.
Proof.
  revert i. induction s as [|x s IH]; intros i; simpl; [done|].
  case_decide as Hx.
  - intros [= <-]. subst. split_and!; [done|apply not_elem_of_nil|lia].
  - intros (j & Hj & ->)%fmap_Some. destruct (IH j Hj) as (E & Hn & Hl). simpl.
    split_and!; [by rewrite E at 1| |lia]. rewrite not_elem_of_cons. done.
Qed.

Lemma index_of_None c s : index_of c s = None ↔ c ∉ s.
Proof.
  induction s as [|x s IH]; simpl; [by split; [intros _; apply not_elem_of_nil|]|].
  rewrite not_elem_of_cons. case_decide as Hx; [naive_solver|].
  rewrite fmap_None, IH. naive_solver.
Qed.

Lemma index_of_app c s t : c ∉ s → index_of c (s ++ c :: t) = Some (length s).
Proof.
  induction s as [|x s IH]; simpl; intros Hs; [by rewrite decide_True by done|].
  apply not_elem_of_cons in Hs as [? ?]. rewrite decide_False by done. by rewrite IH.
Qed.

Lemma index_of_app_l c s t i : index_of c s = Some i → index_of c (s ++ t) = Some i.
Proof.
  intros H. apply index_of_Some in H as (E & Hn & Hl).
  rewrite E, <- app_assoc. simpl. rewrite index_of_app by done.
  by rewrite length_take_le by lia.
Qed.

Lemma last_index_of_None c s : last_index_of c s = None ↔ c ∉ s.
Proof.
  induction s as [|x s IH]; simpl; [by split; [intros _; apply not_elem_of_nil|]|].
  rewrite not_elem_of_cons. destruct (last_index_of c s); [naive_solver|].
  case_decide; naive_solver.
Qed.

Lemma last_index_of_Some c s i :
  last_index_of c s = Some i →
  s = take i s ++ c :: drop (S i) s ∧ c ∉ drop (S i) s ∧ i < length s.
Proof.
  revert i. induction s as [|x s IH]; intros i; simpl; [done|].
  destruct (last_index_of c s) as [j|] eqn:Hj.
  - intros [= <-]. destruct (IH j eq_refl) as (E & Hn & Hl). simpl.
    split_and!; [by rewrite E at 1|done|lia].
  - case_decide; [|done]. intros [= <-]. subst. split_and!; [done| |lia].
    by apply last_index_of_None.
Qed.

Lemma substr_prefix n s : substr 0 n s = Val (take n s).
Proof. unfold substr. rewrite decide_True by lia. by rewrite drop_0. Qed.

Lemma erase_prefix n s : erase 0 n s = Val (drop n s).
Proof. unfold erase. by rewrite decide_True by lia. Qed.

(** Appending a whole buffer to a string with room for it. *)
Lemma append_whole max_size s buf :
  (Z.of_nat (length s + length buf) ≤ max_size)%Z →
  append max_size s buf (Z.of_nat (length buf)) = Val (s ++ buf).
Proof.
  intros H. unfold append. rewrite decide_False, decide_True by lia.
  by rewrite Nat2Z.id, take_ge by lia.
Qed.

Lemma c_str_id s : Byte.x00 ∉ s → c_str s = s.
Proof.
  induction s as [|b s IH]; [done|]. cbn. intros H. apply not_elem_of_cons in H as [H1 H2].
  rewrite decide_False by done. by rewrite IH.
Qed.

Lemma c_str_app a b :
  c_str (a ++ b) = if decide (Byte.x00 ∈ a) then c_str a else a ++ c_str b.
Proof.
  induction a as [|x a IH]; [by rewrite decide_False by apply not_elem_of_nil|].
  cbn [c_str app]. destruct (decide (x = Byte.x00)) as [->|Hx].
  - by rewrite decide_True by left.
  - rewrite IH. destruct (decide (Byte.x00 ∈ a)) as [Ha|Ha].
    + by rewrite decide_True by by right.
    + rewrite decide_False; [done|]. by intros [?|?]%elem_of_cons.
Qed.

(** What a C string leaves out. *)
Lemma c_str_prefix s : ∃ rest, s = c_str s ++ rest.
Proof.
  induction s as [|b s [rest IH]]; [by exists []|]. cbn [c_str]. case_decide; [by eexists|].
  exists rest. cbn [app]. by rewrite <- IH.
Qed.

#[export] Hint Rewrite substr_prefix erase_prefix : lm.
