(* ===== verification/RingBuffer.v ===== *)
(** * Blocking ring buffer ([src/common/utils/ring_buffer.h])

    [Ring] is the object: its fields, the constructor and the critical sections
    of [push], [pop] and [stop] with the predicates they wait for.  [Monitor] is
    the multi-threaded behaviour: a step relation in which threads call the three
    operations, sleep on the two condition variables and are woken by the
    notifications the code sends after it released the mutex. *)

From S2P Require Import Prelude.

(** ** The specification: a bounded queue that can be closed *)

Module BoundedQueue.
Section BoundedQueue.
Context {T : Type}.

Record t := mk { items : list T; bound : Z; closed : bool }.

Definition empty (n : Z) : t := mk [] n false.

(** [None]: the caller waits. *)
Definition push (x : T) (q : t) : option (t * bool) :=
  if closed q then Some (q, false) else
  if decide (Z.of_nat (length (items q)) < bound q)%Z
  then Some (mk (items q ++ [x]) (bound q) false, true) else None.

Definition pop (q : t) : option (t * option T) :=
  match items q with
  | x :: rest => Some (mk rest (bound q) (closed q), Some x)
  | [] => if closed q then Some (q, None) else None
  end.

Definition close (q : t) : t := mk (items q) (bound q) true.
End BoundedQueue.
Arguments t : clear implicits.
End BoundedQueue.

(** ** The implementation *)

Module Ring.
Section Ring.
Context {T : Type}.
(** [T()], the element the vector constructor fills the buffer with; the value
    left in a slot after [std::move] took its contents; and the largest size
    [std::vector<T>] accepts. *)
Context (dflt : T) (moved : T → T) (vec_max_size : Z).

Record t := mk {
  buffer_ : list T;
  capacity_ : Z;
  head_ : Z;
  tail_ : Z;
  size_ : Z;
  stop_ : bool;
}.

(** The constructor: members are initialised before the body tests the
    capacity. *)
Definition make (capacity : Z) : outcome t :=
  if decide (vec_max_size < capacity)%Z then Throw "length_error" else
  if decide (capacity = 0)%Z then Throw "Capacity must be greater than 0" else
  Val (mk (replicate (Z.to_nat capacity) dflt) capacity 0 0 0 false).

(** [size_ < capacity_ || stop_] and [size_ > 0 || stop_]. *)
Definition push_ready (r : t) : bool := (size_ r <? capacity_ r)%Z || stop_ r.
Definition pop_ready (r : t) : bool := (0 <? size_ r)%Z || stop_ r.

(** [push] from the end of the wait to [lock.unlock()]; an index outside the
    vector has no meaning in C++. *)
Definition push_locked (item : T) (r : t) : outcome (t * bool) :=
  if stop_ r then Val (r, false) else
  if decide (Z.to_nat (tail_ r) < length (buffer_ r)) then
    Val (mk (<[Z.to_nat (tail_ r) := item]> (buffer_ r)) (capacity_ r) (head_ r)
           (u64 (tail_ r + 1) mod capacity_ r)%Z (u64 (size_ r + 1)) (stop_ r), true)
  else Undefined.

(** [pop] from the end of the wait to [lock.unlock()]. *)
Definition pop_locked (r : t) : outcome (t * option T) :=
  if stop_ r && (size_ r =? 0)%Z then Val (r, None) else
  match buffer_ r !! Z.to_nat (head_ r) with
  | Some item =>
      Val (mk (<[Z.to_nat (head_ r) := moved item]> (buffer_ r)) (capacity_ r)
             (u64 (head_ r + 1) mod capacity_ r)%Z (tail_ r) (u64 (size_ r - 1)) (stop_ r),
           Some item)
  | None => Undefined
  end.

(** [stop]: the part under the lock. *)
Definition stop_locked (r : t) : t :=
  mk (buffer_ r) (capacity_ r) (head_ r) (tail_ r) (size_ r) true.

(** Whole calls, seen by a single thread: [None] when the call blocks. *)
Definition push (item : T) (r : t) : outcome (option (t * bool)) :=
  if push_ready r then Some <$> push_locked item r else Val None.
Definition pop (r : t) : outcome (option (t * option T)) :=
  if pop_ready r then Some <$> pop_locked r else Val None.

(** ** Well-formedness and the queue a buffer stands for *)

Definition wf (r : t) : Prop :=
  (0 < capacity_ r < 2 ^ 64)%Z ∧
  Z.of_nat (length (buffer_ r)) = capacity_ r ∧
  (0 ≤ head_ r < capacity_ r)%Z ∧
  (0 ≤ size_ r ≤ capacity_ r)%Z ∧
  tail_ r = ((head_ r + size_ r) mod capacity_ r)%Z.

(** The elements in the order [pop] returns them. *)
Definition contents (r : t) : list T :=
  take (Z.to_nat (size_ r)) (rotate (Z.to_nat (head_ r)) (buffer_ r)).

Lemma length_contents r : wf r → Z.of_nat (length (contents r)) = size_ r.
Proof.
  intros (? & ? & ? & ? & ?). unfold contents.
  rewrite length_take, length_rotate. lia.
Qed.

(** [tail_] is the slot that comes [size_] places after [head_]. *)
Lemma tail_index r :
  wf r → (size_ r < capacity_ r)%Z →
  Z.to_nat (tail_ r) =
    rotate_nat_add (Z.to_nat (head_ r)) (Z.to_nat (size_ r)) (length (buffer_ r)).
Proof.
  intros (? & Hlen & ? & ? & ->) Hs. unfold rotate_nat_add.
  by rewrite Hlen, !Z2Nat.id by lia.
Qed.

(** Writing one slot past the queue appends to it. *)
Lemma rotate_push (l : list T) h s x :
  s < length l →
  take (S s) (rotate h (<[rotate_nat_add h s (length l) := x]> l)) =
  take s (rotate h l) ++ [x].
Proof.
  intros Hs. rewrite rotate_insert_l by done.
  rewrite (take_S_r _ s x).
  - by rewrite take_insert_ge by lia.
  - apply list_lookup_insert_eq. by rewrite length_rotate.
Qed.

Lemma mod_succ (h n : nat) : h < n → S h mod n = if decide (S h = n) then 0 else S h.
Proof.
  intros. case_decide; [subst; apply Nat.Div0.mod_same|apply Nat.mod_small; lia].
Qed.

(** Advancing the head past slot [h] drops the first element, whatever is
    written into the slot. *)
Lemma rotate_pop (l : list T) h s x y :
  l !! h = Some x → s < length l →
  take (S s) (rotate h l) = x :: take s (rotate (S h mod length l) (<[h := y]> l)).
Proof.
  intros Hx Hs. pose proof (lookup_lt_Some _ _ _ Hx) as Hh. unfold rotate.
  rewrite (Nat.mod_small h) by done. rewrite (drop_S _ _ _ Hx). simpl. f_equal.
  rewrite length_insert, Nat.Div0.mod_mod, mod_succ by done. case_decide as HS.
  - rewrite drop_0. simpl. rewrite app_nil_r, (drop_ge l) by lia. simpl.
    rewrite (insert_take_drop _ _ _ Hh), take_app_le by (rewrite length_take; lia).
    done.
  - rewrite drop_insert_lt by lia. rewrite (take_S_r _ h y) by by apply list_lookup_insert_eq.
    rewrite take_insert_ge, app_assoc by lia.
    rewrite (take_app_le _ [y]); [done|].
    rewrite length_app, length_drop, length_take. lia.
Qed.

(** ** What the operations do to the queue *)

Lemma make_ok n :
  (0 < n ≤ vec_max_size)%Z → (vec_max_size < 2 ^ 64)%Z →
  ∃ r, make n = Val r ∧ wf r ∧ capacity_ r = n ∧ contents r = [] ∧ stop_ r = false.
Proof.
  intros Hn Hv. unfold make. rewrite !decide_False by lia. eexists. split; [done|].
  unfold wf; simpl. rewrite length_replicate, Z.mod_0_l by lia. split_and!; lia || done.
Qed.

Lemma push_locked_stopped item r : stop_ r = true → push_locked item r = Val (r, false).
Proof. unfold push_locked. by intros ->. Qed.

Lemma push_locked_ok item r :
  wf r → stop_ r = false → (size_ r < capacity_ r)%Z →
  ∃ r', push_locked item r = Val (r', true) ∧ wf r' ∧
    contents r' = contents r ++ [item] ∧
    size_ r' = (size_ r + 1)%Z ∧ capacity_ r' = capacity_ r ∧ stop_ r' = false.
Proof.
  intros Hwf Hst Hs. pose proof (tail_index r Hwf Hs) as Htail.
  destruct Hwf as (Hc & Hlen & Hh & Hsz & Ht).
  pose proof (Z.mod_pos_bound (head_ r + size_ r) (capacity_ r)) as Hb.
  unfold push_locked. rewrite Hst, decide_True by lia.
  eexists. split; [done|]. simpl. rewrite (u64_small (size_ r + 1)) by lia.
  split_and!; [|unfold contents; simpl|done..].
  - unfold wf; simpl. rewrite length_insert. split_and!; try lia.
    rewrite u64_small, Ht, Zplus_mod_idemp_l by lia. f_equal. lia.
  - rewrite Z2Nat.inj_add, Nat.add_1_r, Htail by lia. apply rotate_push. lia.
Qed.

Lemma pop_locked_empty r :
  stop_ r = true → size_ r = 0%Z → pop_locked r = Val (r, None).
Proof. unfold pop_locked. by intros -> ->. Qed.

Lemma pop_locked_ok r :
  wf r → (0 < size_ r)%Z →
  ∃ r' item, pop_locked r = Val (r', Some item) ∧ wf r' ∧
    contents r = item :: contents r' ∧
    size_ r' = (size_ r - 1)%Z ∧ capacity_ r' = capacity_ r ∧ stop_ r' = stop_ r.
Proof.
  intros (Hc & Hlen & Hh & Hsz & Ht) Hs.
  unfold pop_locked. rewrite (proj2 (Z.eqb_neq (size_ r) 0)), andb_false_r by lia.
  destruct (lookup_lt_is_Some_2 (buffer_ r) (Z.to_nat (head_ r))) as [item Hi]; [lia|].
  rewrite Hi. eexists _, item. split; [done|]. simpl.
  rewrite (u64_small (size_ r - 1)), (u64_small (head_ r + 1)) by lia.
  pose proof (Z.mod_pos_bound (head_ r + 1) (capacity_ r)) as Hb.
  split_and!; [|unfold contents; simpl|done..].
  - unfold wf; simpl. rewrite length_insert. split_and!; try lia.
    rewrite Ht, Zplus_mod_idemp_l. f_equal. lia.
  - replace (Z.to_nat (size_ r)) with (S (Z.to_nat (size_ r - 1))) by lia.
    rewrite (rotate_pop _ _ _ item (moved item)) by (done || lia).
    do 3 f_equal. rewrite Z2Nat.inj_mod, <- Hlen, Nat2Z.id by lia. f_equal. lia.
Qed.

Lemma stop_locked_ok r :
  wf r → wf (stop_locked r) ∧ contents (stop_locked r) = contents r.
Proof. done. Qed.
End Ring.
Arguments t : clear implicits.
End Ring.

(** * Threads sharing one ring buffer

    The mutex makes each critical section one step.  [wait(lock, pred)] is the
    loop [while (!pred()) wait(lock)]: a thread that finds the predicate false
    releases the mutex and sleeps in one step, and a woken thread goes back to
    the test.  The notifications are separate steps because the code sends them
    after [lock.unlock()]. *)

Module Monitor.
Section Monitor.
Context {T : Type} (moved : T → T).

(** What a thread is about to do. *)
Inductive thread :=
| Idle
| PushCall (item : T)     (* acquire the mutex, test the predicate *)
| PushWait (item : T)     (* asleep on not_full_cv_ *)
| PushNotify              (* mutex released, not_empty_cv_.notify_one() next *)
| PopCall
| PopWait                 (* asleep on not_empty_cv_ *)
| PopNotify               (* mutex released, not_full_cv_.notify_one() next *)
| StopCall
| StopNotifyEmpty         (* stop_ set, not_empty_cv_.notify_all() next *)
| StopNotifyFull.         (* not_full_cv_.notify_all() next *)

(** The object, the threads, and two records of the past that the code does not
    keep: the items accepted by [push] and the items returned by [pop]. *)
Record state := mk {
  ring : Ring.t T;
  threads : list thread;
  pushed : list T;
  popped : list T;
}.

Definition set_thread (i : nat) (th : thread) (s : state) : state :=
  mk (ring s) (<[i := th]> (threads s)) (pushed s) (popped s).

Definition wake_pop (th : thread) : thread :=
  match th with PopWait => PopCall | _ => th end.
Definition wake_push (th : thread) : thread :=
  match th with PushWait item => PushCall item | _ => th end.

Definition is_pop_wait (th : thread) : bool :=
  match th with PopWait => true | _ => false end.
Definition is_push_wait (th : thread) : bool :=
  match th with PushWait _ => true | _ => false end.

Inductive step : relation state :=
| call_push s i item :
    threads s !! i = Some Idle → step s (set_thread i (PushCall item) s)
| call_pop s i :
    threads s !! i = Some Idle → step s (set_thread i PopCall s)
| call_stop s i :
    threads s !! i = Some Idle → step s (set_thread i StopCall s)
| push_sleep s i item :
    threads s !! i = Some (PushCall item) → Ring.push_ready (ring s) = false →
    step s (set_thread i (PushWait item) s)
| push_done s i item r' :
    threads s !! i = Some (PushCall item) → Ring.push_ready (ring s) = true →
    Ring.push_locked item (ring s) = Val (r', true) →
    step s (mk r' (<[i := PushNotify]> (threads s)) (pushed s ++ [item]) (popped s))
| push_refused s i item r' :
    threads s !! i = Some (PushCall item) → Ring.push_ready (ring s) = true →
    Ring.push_locked item (ring s) = Val (r', false) →
    step s (mk r' (<[i := Idle]> (threads s)) (pushed s) (popped s))
| push_notify_one s i j :
    threads s !! i = Some PushNotify → threads s !! j = Some PopWait →
    step s (set_thread j PopCall (set_thread i Idle s))
| push_notify_none s i :
    threads s !! i = Some PushNotify → countb is_pop_wait (threads s) = 0 →
    step s (set_thread i Idle s)
| pop_sleep s i :
    threads s !! i = Some PopCall → Ring.pop_ready (ring s) = false →
    step s (set_thread i PopWait s)
| pop_done s i r' item :
    threads s !! i = Some PopCall → Ring.pop_ready (ring s) = true →
    Ring.pop_locked moved (ring s) = Val (r', Some item) →
    step s (mk r' (<[i := PopNotify]> (threads s)) (pushed s) (popped s ++ [item]))
| pop_refused s i r' :
    threads s !! i = Some PopCall → Ring.pop_ready (ring s) = true →
    Ring.pop_locked moved (ring s) = Val (r', None) →
    step s (mk r' (<[i := Idle]> (threads s)) (pushed s) (popped s))
| pop_notify_one s i j item :
    threads s !! i = Some PopNotify → threads s !! j = Some (PushWait item) →
    step s (set_thread j (PushCall item) (set_thread i Idle s))
| pop_notify_none s i :
    threads s !! i = Some PopNotify → countb is_push_wait (threads s) = 0 →
    step s (set_thread i Idle s)
| stop_set s i :
    threads s !! i = Some StopCall →
    step s (mk (Ring.stop_locked (ring s)) (<[i := StopNotifyEmpty]> (threads s))
              (pushed s) (popped s))
| stop_notify_empty s i :
    threads s !! i = Some StopNotifyEmpty →
    step s (mk (ring s) (<[i := StopNotifyFull]> (wake_pop <$> threads s))
              (pushed s) (popped s))
| stop_notify_full s i :
    threads s !! i = Some StopNotifyFull →
    step s (mk (ring s) (<[i := Idle]> (wake_push <$> threads s)) (pushed s) (popped s))
| spurious_push s i item :
    threads s !! i = Some (PushWait item) → step s (set_thread i (PushCall item) s)
| spurious_pop s i :
    threads s !! i = Some PopWait → step s (set_thread i PopCall s).

(** [n] threads and a freshly constructed buffer. *)
Definition initial (n : nat) (r : Ring.t T) : state := mk r (replicate n Idle) [] [].

(** ** Invariant *)

(** Threads that will test the [pop] (resp. [push]) predicate, or make another
    thread test it. *)
Definition pop_token (th : thread) : bool :=
  match th with PopCall | PushNotify => true | _ => false end.
Definition push_token (th : thread) : bool :=
  match th with PushCall _ | PopNotify => true | _ => false end.
Definition will_wake_pop (th : thread) : bool :=
  match th with StopNotifyEmpty => true | _ => false end.
Definition will_wake_push (th : thread) : bool :=
  match th with StopNotifyEmpty | StopNotifyFull => true | _ => false end.

Definition fifo (s : state) : Prop :=
  Ring.wf (ring s) ∧ pushed s = popped s ++ Ring.contents (ring s).

(** No wakeup is lost: while a consumer sleeps there are at least as many
    threads under way to the [pop] test as there are items, and after a stop
    the thread that called it has not sent its notification yet; the same for
    sleeping producers and free slots. *)
Definition wakeups (s : state) : Prop :=
  (0 < countb is_pop_wait (threads s) →
     if Ring.stop_ (ring s) then 0 < countb will_wake_pop (threads s)
     else (Ring.size_ (ring s) ≤ Z.of_nat (countb pop_token (threads s)))%Z) ∧
  (0 < countb is_push_wait (threads s) →
     if Ring.stop_ (ring s) then 0 < countb will_wake_push (threads s)
     else (Ring.capacity_ (ring s) - Ring.size_ (ring s)
            ≤ Z.of_nat (countb push_token (threads s)))%Z).

Lemma push_locked_inv (item : T) (r r' : Ring.t T) b :
  Ring.wf r → Ring.push_ready r = true → Ring.push_locked item r = Val (r', b) →
  (Ring.stop_ r = true ∧ b = false ∧ r' = r) ∨
  (Ring.stop_ r = false ∧ b = true ∧ Ring.wf r' ∧
   Ring.contents r' = Ring.contents r ++ [item] ∧
   Ring.size_ r' = (Ring.size_ r + 1)%Z ∧ Ring.capacity_ r' = Ring.capacity_ r ∧
   Ring.stop_ r' = false).
Proof.
  intros Hwf Hready Hpush. unfold Ring.push_ready in Hready.
  destruct (Ring.stop_ r) eqn:Hst.
  - rewrite Ring.push_locked_stopped in Hpush by done. naive_solver.
  - rewrite orb_false_r, Z.ltb_lt in Hready.
    destruct (Ring.push_locked_ok item r Hwf Hst Hready) as (r'' & E & Hrest).
    rewrite E in Hpush. simplify_eq. right. tauto.
Qed.

Lemma pop_locked_inv (r r' : Ring.t T) o :
  Ring.wf r → Ring.pop_ready r = true → Ring.pop_locked moved r = Val (r', o) →
  (Ring.stop_ r = true ∧ Ring.size_ r = 0%Z ∧ o = None ∧ r' = r) ∨
  (∃ item, (0 < Ring.size_ r)%Z ∧ o = Some item ∧ Ring.wf r' ∧
   Ring.contents r = item :: Ring.contents r' ∧
   Ring.size_ r' = (Ring.size_ r - 1)%Z ∧ Ring.capacity_ r' = Ring.capacity_ r ∧
   Ring.stop_ r' = Ring.stop_ r).
Proof.
  intros Hwf Hready Hpop. unfold Ring.pop_ready in Hready.
  apply orb_true_iff in Hready. rewrite Z.ltb_lt in Hready.
  destruct (decide (0 < Ring.size_ r)%Z) as [Hs|Hs].
  - destruct (Ring.pop_locked_ok moved r Hwf Hs) as (r'' & item & E & Hrest).
    rewrite E in Hpop. simplify_eq. right. exists item. tauto.
  - destruct Hready as [?|Hst]; [done|].
    assert (Hz : Ring.size_ r = 0%Z) by (destruct Hwf as (?&?&?&?&?); lia).
    rewrite (Ring.pop_locked_empty moved r Hst Hz) in Hpop. simplify_eq. by left.
Qed.

(** Replace the outcome of a critical section by what it does to the queue. *)
Ltac invert_locked :=
  match goal with
  | H : Ring.push_locked _ _ = Val _ |- _ =>
      apply push_locked_inv in H as [(?&?&->)|(?&?&?&?&?&?&?)]; [..|done|done]
  | H : Ring.pop_locked _ _ = Val _ |- _ =>
      apply pop_locked_inv in H as [(?&?&?&->)|(?&?&?&?&?&?&?&?)]; [..|done|done]
  end; simplify_eq/=.

Lemma fifo_step s s' : step s s' → fifo s → fifo s'.
Proof.
  unfold fifo. destruct 1; simpl; intros [Hwf Hfifo]; try done; invert_locked; try done.
  - split; [done|]. match goal with H : Ring.contents _ = _ |- _ => rewrite H end.
    by rewrite Hfifo, app_assoc.
  - split; [done|]. rewrite Hfifo.
    match goal with H : Ring.contents _ = _ |- _ => rewrite H end. by rewrite <- app_assoc.
Qed.

Lemma countb_fmap_id (p : thread → bool) f l :
  (∀ th, p (f th) = p th) → countb p (f <$> l) = countb p l.
Proof.
  intros Hf. induction l as [|x l IH]; [done|].
  by rewrite fmap_cons, !countb_cons, Hf, IH.
Qed.

Lemma countb_fmap_none (p : thread → bool) f (l : list thread) :
  (∀ th, p (f th) = false) → countb p (f <$> l) = 0.
Proof.
  intros Hf. apply countb_zero. apply Forall_fmap, Forall_true. intros; apply Hf.
Qed.

(** Replace each counter of the updated thread list by its old value plus the
    change. *)
Ltac count_changes :=
  repeat match goal with
  | H : ?l !! ?i = Some ?x |- context [countb ?p (<[?i := ?y]> ?l)] =>
      pose proof (countb_insert p l i x y H); simpl Nat.b2n in *;
      generalize dependent (countb p (<[i := y]> l)); intros
  | H : ?l !! ?i = Some ?x, _ : _ = countb ?p (<[?i := ?y]> ?l) + _ |- _ =>
      pose proof (countb_insert p l i x y H); simpl Nat.b2n in *;
      generalize dependent (countb p (<[i := y]> l)); intros
  end.

Lemma lookup_insert_other (l : list thread) i j x y z :
  l !! i = Some x → l !! j = Some y → x ≠ y → <[i := z]> l !! j = Some y.
Proof. intros Hi Hj Hne. rewrite list_lookup_insert_ne; [done|]. intros ->. congruence. Qed.

Lemma lookup_fmap_same (f : thread → thread) (l : list thread) i x :
  l !! i = Some x → f x = x → (f <$> l) !! i = Some x.
Proof. intros Hi Hf. rewrite list_lookup_fmap, Hi. simpl. by rewrite Hf. Qed.

Lemma counts_wake_pop l :
  countb is_pop_wait (wake_pop <$> l) = 0 ∧
  countb is_push_wait (wake_pop <$> l) = countb is_push_wait l ∧
  countb push_token (wake_pop <$> l) = countb push_token l ∧
  countb will_wake_push (wake_pop <$> l) = countb will_wake_push l.
Proof.
  split_and!; [by apply countb_fmap_none; intros []|by apply countb_fmap_id; intros []..].
Qed.

Lemma counts_wake_push l :
  countb is_push_wait (wake_push <$> l) = 0 ∧
  countb is_pop_wait (wake_push <$> l) = countb is_pop_wait l ∧
  countb pop_token (wake_push <$> l) = countb pop_token l ∧
  countb will_wake_pop (wake_push <$> l) = countb will_wake_pop l.
Proof.
  split_and!; [by apply countb_fmap_none; intros []|by apply countb_fmap_id; intros []..].
Qed.

(** The thread a notification finds, and what it does to the counters. *)
Ltac locate_threads :=
  match goal with
  | Hi : ?l !! ?i = Some PushNotify, Hj : ?l !! ?j = Some PopWait |- _ =>
      pose proof (lookup_insert_other l i j _ _ Idle Hi Hj ltac:(done))
  | Hi : ?l !! ?i = Some PopNotify, Hj : ?l !! ?j = Some (PushWait _) |- _ =>
      pose proof (lookup_insert_other l i j _ _ Idle Hi Hj ltac:(done))
  | Hi : ?l !! ?i = Some StopNotifyEmpty |- _ =>
      pose proof (lookup_fmap_same wake_pop l i _ Hi eq_refl);
      destruct (counts_wake_pop l) as (?&?&?&?)
  | Hi : ?l !! ?i = Some StopNotifyFull |- _ =>
      pose proof (lookup_fmap_same wake_push l i _ Hi eq_refl);
      destruct (counts_wake_push l) as (?&?&?&?)
  | _ => idtac
  end.

Lemma wakeups_step s s' : step s s' → fifo s → wakeups s → wakeups s'.
Proof.
  unfold wakeups, fifo. destruct 1; intros [Hwf Hfifo] [Hpop Hpush]; cbn [ring threads set_thread].
  all: try invert_locked; locate_threads; count_changes.
  all: unfold Ring.wf, Ring.push_ready, Ring.pop_ready in *.
  all: repeat match goal with
    | H : orb _ _ = false |- _ => apply orb_false_iff in H as [?%Z.ltb_ge ?]
    | H : Ring.stop_ _ = _ |- _ => rewrite H in *; clear H
    end.
  all: cbn [Ring.stop_locked Ring.stop_ Ring.size_ Ring.capacity_].
  all: try (destruct (Ring.stop_ (ring s))); lia.
Qed.

(** ** Reachable states *)

Definition reachable (n : nat) (r : Ring.t T) (s : state) : Prop :=
  rtc step (initial n r) s.

Definition inv (s : state) : Prop := fifo s ∧ wakeups s.

Lemma inv_preserved : preserved step inv.
Proof. intros s s' Hs [Hf Hw]. split; eauto using fifo_step, wakeups_step. Qed.

Lemma countb_replicate_none (p : thread → bool) n x :
  p x = false → countb p (replicate n x) = 0.
Proof. intros Hx. apply countb_zero, Forall_replicate, Hx. Qed.

Lemma inv_initial n r : Ring.wf r → Ring.contents r = [] → inv (initial n r).
Proof.
  intros Hwf Hc. split; [by split|].
  unfold wakeups; simpl. rewrite !countb_replicate_none by done. lia.
Qed.

Lemma inv_reachable n r s :
  Ring.wf r → Ring.contents r = [] → reachable n r s → inv s.
Proof. intros Hwf Hc Hs. eapply preserved_rtc; eauto using inv_preserved, inv_initial. Qed.

Lemma capacity_step s s' :
  step s s' → fifo s → Ring.capacity_ (ring s') = Ring.capacity_ (ring s).
Proof. destruct 1; intros [Hwf Hfifo]; simpl; try done; by invert_locked. Qed.

Lemma capacity_reachable n r s :
  Ring.wf r → Ring.contents r = [] → reachable n r s →
  Ring.capacity_ (ring s) = Ring.capacity_ r.
Proof.
  intros Hwf Hc Hs.
  assert (H : inv s ∧ Ring.capacity_ (ring s) = Ring.capacity_ r); [|apply H].
  refine (preserved_rtc step (λ s, inv s ∧ Ring.capacity_ (ring s) = _) _ _ _ Hs _).
  - apply preserved_and; [apply inv_preserved|].
    intros s1 s2 Hstep [Hfifo _] <-. by apply capacity_step.
  - split; [by apply inv_initial|done].
Qed.

(** A thread that makes progress without the help of another thread. *)
Definition running (th : thread) : bool :=
  match th with Idle | PushWait _ | PopWait => false | _ => true end.

Lemma running_token th : running th = false →
  pop_token th = false ∧ push_token th = false ∧
  will_wake_pop th = false ∧ will_wake_push th = false.
Proof. by destruct th. Qed.

Lemma quiescent_counts s :
  Forall (λ th, running th = false) (threads s) →
  countb pop_token (threads s) = 0 ∧ countb push_token (threads s) = 0 ∧
  countb will_wake_pop (threads s) = 0 ∧ countb will_wake_push (threads s) = 0.
Proof.
  intros H. rewrite !countb_zero, <- !Forall_and.
  eapply Forall_impl; [exact H|]. intros th Hth. by apply running_token.
Qed.

Lemma push_can_run (item : T) (r : Ring.t T) :
  Ring.wf r → Ring.push_ready r = true → ∃ r' b, Ring.push_locked item r = Val (r', b).
Proof.
  intros Hwf Hready. destruct (Ring.stop_ r) eqn:Hst.
  - exists r, false. by apply Ring.push_locked_stopped.
  - unfold Ring.push_ready in Hready. rewrite Hst, orb_false_r, Z.ltb_lt in Hready.
    destruct (Ring.push_locked_ok item r Hwf Hst Hready) as (r' & ? & ?). eauto.
Qed.

Lemma pop_can_run (r : Ring.t T) :
  Ring.wf r → Ring.pop_ready r = true → ∃ r' o, Ring.pop_locked moved r = Val (r', o).
Proof.
  intros Hwf Hready. destruct (decide (0 < Ring.size_ r)%Z) as [Hs|Hs].
  - destruct (Ring.pop_locked_ok moved r Hwf Hs) as (r' & x & ? & ?). eauto.
  - unfold Ring.pop_ready in Hready.
    rewrite (proj2 (Z.ltb_nlt _ _) Hs) in Hready. simpl in Hready.
    exists r, None. apply Ring.pop_locked_empty; [done|].
    destruct Hwf as (?&?&?&?&?). lia.
Qed.

(** The thread that a step changes has a new state afterwards. *)
Lemma set_thread_changes (l : list thread) i x y :
  l !! i = Some x → x ≠ y → <[i := y]> l !! i ≠ l !! i.
Proof.
  intros Hi Hne. rewrite list_lookup_insert_eq by by eapply lookup_lt_Some. congruence.
Qed.

Lemma running_steps s i th :
  Ring.wf (ring s) → threads s !! i = Some th → running th = true →
  ∃ s', step s s' ∧ threads s' !! i ≠ threads s !! i.
Proof.
  intros Hwf Hi Hrun. destruct th as [|item|item| | | | | | | ]; try discriminate Hrun.
  - destruct (Ring.push_ready (ring s)) eqn:Hr.
    + destruct (push_can_run item _ Hwf Hr) as (r' & [] & E);
        eexists; (split; [eauto using step|]); by eapply set_thread_changes.
    + eexists. split; [eauto using step|]. by eapply set_thread_changes.
  - destruct (decide (countb is_pop_wait (threads s) = 0)).
    + eexists. split; [eauto using step|]. by eapply set_thread_changes.
    + destruct (countb_pos_inv is_pop_wait (threads s)) as (j & [] & Hj & ?); try done; [lia|].
      eexists. split; [by eapply push_notify_one|]. simpl.
      rewrite list_lookup_insert_ne by congruence. by eapply set_thread_changes.
  - destruct (Ring.pop_ready (ring s)) eqn:Hr.
    + destruct (pop_can_run _ Hwf Hr) as (r' & [] & E);
        eexists; (split; [eauto using step|]); by eapply set_thread_changes.
    + eexists. split; [eauto using step|]. by eapply set_thread_changes.
  - destruct (decide (countb is_push_wait (threads s) = 0)).
    + eexists. split; [eauto using step|]. by eapply set_thread_changes.
    + destruct (countb_pos_inv is_push_wait (threads s)) as (j & [] & Hj & ?); try done; [lia|].
      eexists. split; [by eapply pop_notify_one|]. simpl.
      rewrite list_lookup_insert_ne by congruence. by eapply set_thread_changes.
  - eexists. split; [eauto using step|]. by eapply set_thread_changes.
  - eexists. split; [eauto using step|]. simpl. rewrite Hi.
    rewrite list_lookup_insert_eq; [done|]. rewrite length_fmap. by eapply lookup_lt_Some.
  - eexists. split; [eauto using step|]. simpl. rewrite Hi.
    rewrite list_lookup_insert_eq; [done|]. rewrite length_fmap. by eapply lookup_lt_Some.
Qed.
End Monitor.
End Monitor.

(** * Properties *)

Section Properties.
Context {T : Type}.
Implicit Types (r : Ring.t T) (item : T) (moved : T → T).

(** The queue a ring buffer implements. *)
Definition abstraction (r : Ring.t T) : BoundedQueue.t T :=
  BoundedQueue.mk (Ring.contents r) (Ring.capacity_ r) (Ring.stop_ r).

Lemma refine_push item r :
  Ring.wf r →
  ∃ o, Ring.push item r = Val o ∧ (∀ r' b, o = Some (r', b) → Ring.wf r') ∧
    prod_map abstraction id <$> o = BoundedQueue.push item (abstraction r).
Proof.
  intros Hwf. pose proof (Ring.length_contents r Hwf) as Hlen.
  unfold Ring.push, Ring.push_ready, BoundedQueue.push, abstraction; simpl.
  destruct (Ring.stop_ r) eqn:Hst.
  { rewrite orb_true_r, Ring.push_locked_stopped by done. eexists. split; [done|].
    split; [congruence|]. simpl. by rewrite Hst. }
  rewrite orb_false_r, Hlen. case_decide as Hs.
  - rewrite (proj2 (Z.ltb_lt _ _) Hs).
    destruct (Ring.push_locked_ok item r Hwf Hst Hs) as (r' & -> & ? & E & _ & Hc & Hs').
    eexists. split; [done|]. split; [congruence|]. simpl. by rewrite E, Hc, Hs'.
  - rewrite (proj2 (Z.ltb_nlt _ _) Hs). by eexists.
Qed.

Lemma refine_pop moved r :
  Ring.wf r →
  ∃ o, Ring.pop moved r = Val o ∧ (∀ r' x, o = Some (r', x) → Ring.wf r') ∧
    prod_map abstraction id <$> o = BoundedQueue.pop (abstraction r).
Proof.
  intros Hwf. pose proof (Ring.length_contents r Hwf) as Hlen.
  unfold Ring.pop, Ring.pop_ready, BoundedQueue.pop, abstraction; simpl.
  destruct (Z.ltb_spec 0 (Ring.size_ r)) as [Hs|Hs]; simpl.
  - destruct (Ring.pop_locked_ok moved r Hwf Hs) as (r' & x & -> & ? & E & _ & Hc & Hs').
    eexists. split; [done|]. split; [congruence|]. simpl. by rewrite E, Hc, Hs'.
  - assert (Hz : Ring.size_ r = 0%Z) by (destruct Hwf as (?&?&?&?&?); lia).
    destruct (Ring.contents r) eqn:Hc; [|simpl in Hlen; lia].
    destruct (Ring.stop_ r) eqn:Hst; [|by eexists].
    rewrite Ring.pop_locked_empty by done. eexists. split; [done|].
    split; [congruence|]. simpl. by rewrite Hc, Hst.
Qed.

(** C3.  The ring buffer refines the closable bounded queue.  The constructor
    yields a well-formed empty buffer; from any well-formed buffer [push], [pop]
    and [stop] never leave the vector's bounds, keep the buffer well-formed,
    block exactly when the specification makes the caller wait, and otherwise
    return what the specification returns and change the queue the same way. *)
Theorem ring_refines_bounded_queue (dflt : T) (moved : T → T) (vec_max_size n : Z)
    (item : T) (Hn : (0 < n ≤ vec_max_size)%Z) (Hmax : (vec_max_size < 2 ^ 64)%Z) :
  (∃ r, Ring.make dflt vec_max_size n = Val r ∧ Ring.wf r ∧
     abstraction r = BoundedQueue.empty n) ∧
  (∀ r, Ring.wf r →
     ∃ o, Ring.push item r = Val o ∧ (∀ r' b, o = Some (r', b) → Ring.wf r') ∧
       prod_map abstraction id <$> o = BoundedQueue.push item (abstraction r)) ∧
  (∀ r, Ring.wf r →
     ∃ o, Ring.pop moved r = Val o ∧ (∀ r' x, o = Some (r', x) → Ring.wf r') ∧
       prod_map abstraction id <$> o = BoundedQueue.pop (abstraction r)) ∧
  (∀ r, Ring.wf r → Ring.wf (Ring.stop_locked r) ∧
     abstraction (Ring.stop_locked r) = BoundedQueue.close (abstraction r)).
Proof.
  split; [|split_and!; [intros; by apply refine_push|intros; by apply refine_pop|done]].
  destruct (Ring.make_ok dflt _ n Hn Hmax) as (r & ? & ? & Hc & Hi & Hs).
  exists r. unfold abstraction. by rewrite Hc, Hi, Hs.
Qed.

(** C4.  Whatever the interleaving of any number of threads calling [push],
    [pop] and [stop], the items popped so far followed by the items in the
    buffer are the items pushed so far, in order; the buffer never holds more
    than the capacity it was built with; and a call whose wait predicate holds
    completes within the bounds of the vector. *)
Theorem ring_fifo_concurrent (moved : T → T) (threads : nat) (r : Ring.t T)
    (s : Monitor.state) (Hwf : Ring.wf r) (Hempty : Ring.contents r = [])
    (Hs : Monitor.reachable moved threads r s) :
  Monitor.pushed s = Monitor.popped s ++ Ring.contents (Monitor.ring s) ∧
  (Z.of_nat (length (Ring.contents (Monitor.ring s))) ≤ Ring.capacity_ r)%Z ∧
  (∀ item, Ring.push item (Monitor.ring s) ≠ Undefined) ∧
  Ring.pop moved (Monitor.ring s) ≠ Undefined.
Proof.
  destruct (Monitor.inv_reachable moved _ _ _ Hwf Hempty Hs) as [[Hwf' Hfifo] _].
  split; [done|]. split.
  - rewrite (Ring.length_contents _ Hwf').
    rewrite <- (Monitor.capacity_reachable moved _ _ _ Hwf Hempty Hs).
    destruct Hwf' as (?&?&?&?&?). lia.
  - split; [intros item; destruct (refine_push item _ Hwf') as (?&->&?)
           |destruct (refine_pop moved _ Hwf') as (?&->&?)]; done.
Qed.

(** C5.  No wakeup is lost.  In every reachable state in which no thread can
    make progress by itself, each sleeping producer faces a full buffer and each
    sleeping consumer an empty one, and nobody sleeps once [stop] was called: a
    stopped buffer never keeps a thread blocked. *)
Theorem ring_no_lost_wakeup (moved : T → T) (threads : nat) (r : Ring.t T)
    (s : Monitor.state) (Hwf : Ring.wf r) (Hempty : Ring.contents r = [])
    (Hs : Monitor.reachable moved threads r s)
    (Hquiet : Forall (λ th, Monitor.running th = false) (Monitor.threads s)) :
  (∀ i, Monitor.threads s !! i = Some Monitor.PopWait →
     Ring.contents (Monitor.ring s) = [] ∧ Ring.stop_ (Monitor.ring s) = false) ∧
  (∀ i item, Monitor.threads s !! i = Some (Monitor.PushWait item) →
     Z.of_nat (length (Ring.contents (Monitor.ring s))) = Ring.capacity_ r ∧
     Ring.stop_ (Monitor.ring s) = false).
Proof.
  destruct (Monitor.inv_reachable moved _ _ _ Hwf Hempty Hs) as [[Hwf' _] [Hpop Hpush]].
  destruct (Monitor.quiescent_counts s Hquiet) as (E1 & E2 & E3 & E4).
  pose proof (Ring.length_contents _ Hwf') as Hlen.
  rewrite E1, E3 in Hpop. rewrite E2, E4 in Hpush.
  rewrite <- (Monitor.capacity_reachable moved _ _ _ Hwf Hempty Hs).
  destruct Hwf' as (_ & _ & _ & Hsize & _).
  split; intros i; [intros Hi|intros item Hi].
  - pose proof (countb_pos Monitor.is_pop_wait _ _ _ Hi eq_refl) as Hc.
    specialize (Hpop Hc). destruct (Ring.stop_ _); [lia|].
    split; [|done]. apply length_zero_iff_nil. lia.
  - pose proof (countb_pos Monitor.is_push_wait _ _ _ Hi eq_refl) as Hc.
    specialize (Hpush Hc). destruct (Ring.stop_ _); [lia|]. split; [lia|done].
Qed.

(**  No thread under way is ever stuck: in every reachable state each
    running thread has a step of its own (one that changes its state), so a
    call only stops making progress by sleeping on a condition variable. *)
Theorem ring_progress (moved : T → T) (threads : nat) (r : Ring.t T)
    (s : Monitor.state) (Hwf : Ring.wf r) (Hempty : Ring.contents r = [])
    (Hs : Monitor.reachable moved threads r s)
    (i : nat) (th : Monitor.thread)
    (Hi : Monitor.threads s !! i = Some th) (Hrun : Monitor.running th = true) :
  ∃ s', Monitor.step moved s s' ∧ Monitor.threads s' !! i ≠ Monitor.threads s !! i.
Proof.
  destruct (Monitor.inv_reachable moved _ _ _ Hwf Hempty Hs) as [[Hwf' _] _].
  by eapply Monitor.running_steps.
Qed.
End Properties.

(** ** Witnesses: a buffer of two integers shared by two threads *)

Module Examples.
Definition r0 : Ring.t Z := Ring.mk [0; 0]%Z 2 0 0 0 false.

Lemma r0_wf : Ring.wf r0.
Proof. by vm_compute. Qed.

(** Thread 0 pushed 7 and is about to notify; thread 1 sleeps in [pop]. *)
Definition after_push : Monitor.state :=
  Monitor.mk (Ring.mk [7; 0]%Z 2 0 1 1 false) [Monitor.PushNotify; Monitor.PopWait] [7%Z] [].

(** Thread 1 sleeps in [pop], thread 0 does nothing. *)
Definition sleeping : Monitor.state :=
  Monitor.mk r0 [Monitor.Idle; Monitor.PopWait] [] [].

Lemma reach_sleeping : Monitor.reachable id 2 r0 sleeping.
Proof.
  eapply rtc_l; [by apply (Monitor.call_pop _ _ 1)|].
  eapply rtc_l; [by apply (Monitor.pop_sleep _ _ 1)|]. apply rtc_refl.
Qed.

Lemma reach_after_push : Monitor.reachable id 2 r0 after_push.
Proof.
  unfold Monitor.reachable; etrans; [apply reach_sleeping|].
  eapply rtc_l; [by apply (Monitor.call_push _ _ 0 7%Z)|].
  eapply rtc_l; [by eapply (Monitor.push_done _ _ 0 7%Z)|]. apply rtc_refl.
Qed.

Lemma ring_refines_bounded_queue_witness :
  ∃ r, Ring.make 0%Z 100 2 = Val r ∧ Ring.wf r ∧ abstraction r = BoundedQueue.empty 2.
Proof. by apply (ring_refines_bounded_queue 0%Z id 100 2 5%Z). Defined.

Lemma ring_fifo_concurrent_witness :
  Monitor.pushed after_push = [] ++ [7%Z] ∧ Ring.pop id (Ring.mk [7; 0]%Z 2 0 1 1 false) ≠ Undefined.
Proof.
  pose proof (ring_fifo_concurrent id 2 r0 after_push r0_wf eq_refl reach_after_push) as H.
  split; apply H.
Defined.

Lemma ring_no_lost_wakeup_witness :
  Ring.contents r0 = [] ∧ Ring.stop_ r0 = false.
Proof.
  by apply (ring_no_lost_wakeup id 2 r0 sleeping r0_wf eq_refl reach_sleeping
              ltac:(by repeat constructor) ) with (i := 1).
Defined.

Lemma ring_progress_witness :
  ∃ s', Monitor.step id after_push s' ∧ Monitor.threads s' !! 0 ≠ Some Monitor.PushNotify.
Proof.
  by apply (ring_progress id 2 r0 after_push r0_wf eq_refl reach_after_push 0 Monitor.PushNotify).
Defined.
End Examples.
