(* ===== verification/TcpServer.v ===== *)
(** * The trapper's TCP server ([src/core/trapper/tcp_server.cpp])

    [Frames] is the deframing loop [processBuffer] with its reference automaton.
    [TcpServer] is the server object: its fields, [init], [handleAccept],
    [handleRead], [closeConnection] and the event loop [run].  The results of
    the system calls are inputs of the model; what the server does to the kernel's
    epoll interest list and descriptor table is part of the state. *)

From S2P Require Import Prelude StdString.

(** ** Deframing *)

Module Frames.
(** Frame head and tail markers. *)
Definition HEAD : byte := z2b 0xAA.
Definition TAIL : byte := z2b 0xFF.

(** One iteration of the [while (true)] loop of [processBuffer]: the new buffer,
    and the payload to hand to the callback or [None] when the loop returns. *)
Definition process_step (buffer : bytes) : outcome (bytes * option bytes) :=
  match find HEAD 0 buffer with
  | None => Val ([], None)
  | Some head =>
      buffer ← (if decide (0 < head) then erase 0 head buffer else Val buffer);
      match find TAIL 1 buffer with
      | None => Val (buffer, None)
      | Some tail =>
          frame ← substr 0 (tail + 1) buffer;
          buffer ← erase 0 (tail + 1) buffer;
          data ← substr 1 (size_sub (length frame) 2) frame;
          Val (buffer, Some data)
      end
  end.

(** How a call of [processBuffer] ends. *)
Inductive ending :=
| Returned
| Escaped (what : string)   (* an exception leaves the function *)
| Meaningless               (* undefined behaviour *)
| OutOfFuel.

(** [message_cb_] for one connection: unset, or a function that returns or
    throws. *)
Definition callback : Type := option (bytes → option string).

(** The loop: the buffer it leaves, the payloads handed to the callback, and how
    it ended.  [fuel] bounds the iterations. *)
Fixpoint process_loop (fuel : nat) (cb : callback) (buffer : bytes)
    : bytes * list bytes * ending :=
  match fuel with
  | 0 => (buffer, [], OutOfFuel)
  | S fuel' =>
      match process_step buffer with
      | Throw e => (buffer, [], Escaped e)
      | Undefined => (buffer, [], Meaningless)
      | Val (buffer', None) => (buffer', [], Returned)
      | Val (buffer', Some data) =>
          match cb with
          | None => process_loop fuel' cb buffer'
          | Some f =>
              match f data with
              | Some e => (buffer', [data], Escaped e)
              | None =>
                  let '(b, calls, e) := process_loop fuel' cb buffer' in
                  (b, data :: calls, e)
              end
          end
      end
  end.

(** [processBuffer]: every iteration that does not return shortens the buffer, so
    its length plus one is enough fuel. *)
Definition processBuffer (cb : callback) (buffer : bytes) : bytes * list bytes * ending :=
  process_loop (S (length buffer)) cb buffer.

(** *** One iteration *)

Lemma process_step_nohead buffer :
  HEAD ∉ buffer → process_step buffer = Val ([], None).
Proof.
  intros H. unfold process_step, find. rewrite drop_0.
  by rewrite (proj2 (index_of_None _ _) H).
Qed.

Lemma erase_garbage junk rest :
  (if decide (0 < length junk) then erase 0 (length junk) (junk ++ rest)
   else Val (junk ++ rest)) = Val rest.
Proof.
  case_decide.
  - by rewrite erase_prefix, drop_app_length.
  - by destruct junk; [|simpl in *; lia].
Qed.

Lemma process_step_head junk rest :
  HEAD ∉ junk →
  process_step (junk ++ HEAD :: rest) =
    match index_of TAIL rest with
    | None => Val (HEAD :: rest, None)
    | Some i => Val (drop (S i) rest, Some (take i rest))
    end.
Proof.
  intros Hj. unfold process_step.
  assert (Hf : find HEAD 0 (junk ++ HEAD :: rest) = Some (length junk)).
  { unfold find. rewrite drop_0. by rewrite index_of_app. }
  rewrite Hf, erase_garbage. simpl. unfold find. simpl. rewrite drop_0.
  destruct (index_of TAIL rest) as [i|] eqn:Hi; [|done].
  apply index_of_Some in Hi as (_ & _ & Hi). simpl.
  replace (i + 1) with (S i) by lia. do 3 f_equal.
  rewrite drop_0, length_take. unfold size_sub. rewrite decide_True by lia.
  rewrite take_take. f_equal. lia.
Qed.
(** *** Reference automaton

    The stream format, one byte at a time: outside a frame everything but the
    head marker is skipped; inside, bytes are collected up to the tail marker. *)
Inductive mode := Hunting | InFrame (payload : bytes).

Definition feed (st : mode * list bytes) (b : byte) : mode * list bytes :=
  match st with
  | (Hunting, out) => if decide (b = HEAD) then (InFrame [], out) else (Hunting, out)
  | (InFrame p, out) =>
      if decide (b = TAIL) then (Hunting, out ++ [p]) else (InFrame (p ++ [b]), out)
  end.

Definition run_automaton (m : mode) (s : bytes) : mode * list bytes :=
  foldl feed (m, []) s.

(** The buffer that holds a state of the automaton. *)
Definition buffer_of (m : mode) : bytes :=
  match m with Hunting => [] | InFrame p => HEAD :: p end.

(** The states [processBuffer] leaves behind: no complete frame is pending. *)
Definition settled (m : mode) : Prop :=
  match m with Hunting => True | InFrame p => TAIL ∉ p end.

Lemma feed_out m out b :
  feed (m, out) b = ((feed (m, []) b).1, out ++ (feed (m, []) b).2).
Proof.
  destruct m; simpl; case_decide; simpl; by rewrite ?app_nil_r.
Qed.

Lemma foldl_feed_out s m out :
  foldl feed (m, out) s = ((run_automaton m s).1, out ++ (run_automaton m s).2).
Proof.
  unfold run_automaton. revert m out. induction s as [|b s IH]; intros m out; cbn [foldl].
  - by rewrite app_nil_r.
  - rewrite (feed_out m out), IH. destruct (feed (m, []) b) as [m' o]; cbn [fst snd].
    rewrite (IH m' o). cbn [fst snd]. by rewrite app_assoc.
Qed.

(** Feeding a stream in two pieces. *)
Lemma run_automaton_app m s t :
  run_automaton m (s ++ t) =
    let '(m1, out1) := run_automaton m s in
    let '(m2, out2) := run_automaton m1 t in (m2, out1 ++ out2).
Proof.
  unfold run_automaton at 1. rewrite foldl_app. fold (run_automaton m s).
  destruct (run_automaton m s) as [m1 out1]. rewrite foldl_feed_out.
  by destruct (run_automaton m1 t).
Qed.

Lemma run_hunting junk : HEAD ∉ junk → run_automaton Hunting junk = (Hunting, []).
Proof.
  unfold run_automaton. induction junk as [|b junk IH]; intros H; [done|].
  apply not_elem_of_cons in H as [??]. simpl. rewrite decide_False by done. auto.
Qed.

Lemma run_inframe p s : TAIL ∉ s → run_automaton (InFrame p) s = (InFrame (p ++ s), []).
Proof.
  unfold run_automaton. revert p.
  induction s as [|b s IH]; intros p H; simpl; [by rewrite app_nil_r|].
  apply not_elem_of_cons in H as [??]. rewrite decide_False by done.
  rewrite IH by done. by rewrite <- app_assoc.
Qed.

Lemma run_buffer_of m : settled m → run_automaton Hunting (buffer_of m) = (m, []).
Proof.
  destruct m as [|p]; [done|]. intros H. simpl buffer_of.
  change (HEAD :: p) with ([HEAD] ++ p). rewrite run_automaton_app. simpl.
  by rewrite run_inframe.
Qed.

(** A frame at the front of the stream. *)
Lemma run_frame p s :
  TAIL ∉ p →
  run_automaton Hunting (HEAD :: p ++ TAIL :: s) =
    ((run_automaton Hunting s).1, p :: (run_automaton Hunting s).2).
Proof.
  intros Hp. change (HEAD :: p ++ TAIL :: s) with ([HEAD] ++ p ++ [TAIL] ++ s).
  rewrite run_automaton_app. simpl. rewrite run_automaton_app, (run_inframe [] p Hp).
  change (TAIL :: s) with ([TAIL] ++ s). rewrite run_automaton_app. simpl.
  by destruct (run_automaton Hunting s).
Qed.

(** *** The loop implements the automaton *)

(** The three shapes of a buffer. *)
Lemma buffer_cases buffer :
  (HEAD ∉ buffer) ∨
  (∃ junk p, HEAD ∉ junk ∧ TAIL ∉ p ∧ buffer = junk ++ HEAD :: p) ∨
  (∃ junk p rest, HEAD ∉ junk ∧ TAIL ∉ p ∧ buffer = junk ++ HEAD :: p ++ TAIL :: rest).
Proof.
  destruct (index_of HEAD buffer) as [h|] eqn:Hh; [|left; by apply index_of_None].
  apply index_of_Some in Hh as (E & Hj & _). right.
  destruct (index_of TAIL (drop (S h) buffer)) as [t|] eqn:Ht.
  - apply index_of_Some in Ht as (E' & Hp & _). right.
    eexists _, _, _. rewrite <- E'. eauto.
  - left. eexists _, _. rewrite index_of_None in Ht. eauto.
Qed.

Lemma run_junk junk s :
  HEAD ∉ junk → run_automaton Hunting (junk ++ s) = run_automaton Hunting s.
Proof.
  intros Hj. rewrite run_automaton_app, run_hunting by done.
  by destruct (run_automaton Hunting s).
Qed.

Lemma process_step_cases buffer :
  (∃ m, process_step buffer = Val (buffer_of m, None) ∧ settled m ∧
     run_automaton Hunting buffer = (m, [])) ∨
  (∃ p rest, process_step buffer = Val (rest, Some p) ∧ length rest < length buffer ∧
     run_automaton Hunting buffer =
       ((run_automaton Hunting rest).1, p :: (run_automaton Hunting rest).2)).
Proof.
  destruct (buffer_cases buffer) as [H|[(junk&p&Hj&Hp&->)|(junk&p&rest&Hj&Hp&->)]].
  - left. exists Hunting. rewrite process_step_nohead by done. by rewrite run_hunting.
  - left. exists (InFrame p). rewrite process_step_head, (proj2 (index_of_None _ _) Hp) by done.
    rewrite run_junk by done. split_and!; [done..|]. by apply (run_buffer_of (InFrame p)).
  - right. exists p, rest. rewrite process_step_head, index_of_app, run_junk, run_frame by done.
    split_and!; [|rewrite !length_app; simpl; rewrite length_app; simpl; lia|done].
    rewrite take_app_length. change (p ++ TAIL :: rest) with (p ++ [TAIL] ++ rest).
    rewrite app_assoc, drop_app_length' by (rewrite length_app; simpl; lia). done.
Qed.

(** What a run of the loop guarantees: [frames] are the frames of the buffer and
    [m] the state after it. *)
Definition loop_result (f : bytes → option string) (m : mode) (frames : list bytes)
    (res : bytes * list bytes * ending) : Prop :=
  let '(b, calls, e) := res in
  (e = Returned ∧ calls = frames ∧ b = buffer_of m ∧ settled m ∧
     Forall (λ d, f d = None) calls) ∨
  (∃ what done d rest, e = Escaped what ∧ calls = done ++ [d] ∧ f d = Some what ∧
     Forall (λ d, f d = None) done ∧ frames = calls ++ rest ∧
     run_automaton Hunting b = (m, rest)).

Lemma process_loop_spec fuel f buffer :
  length buffer < fuel →
  loop_result f (run_automaton Hunting buffer).1 (run_automaton Hunting buffer).2
    (process_loop fuel (Some f) buffer).
Proof.
  revert buffer. induction fuel as [|fuel IH]; intros buffer Hfuel; [lia|]. simpl.
  destruct (process_step_cases buffer)
    as [(m & -> & Hm & ->)|(p & rest & -> & Hlt & ->)]; simpl.
  - left. split_and!; by try constructor.
  - destruct (f p) as [what|] eqn:Hp; simpl.
    + right. exists what, [], p, (run_automaton Hunting rest).2.
      split_and!; try done. by destruct (run_automaton Hunting rest).
    + specialize (IH rest ltac:(lia)).
      destruct (process_loop fuel (Some f) rest) as [[b calls] e]; simpl in IH |- *.
      destruct IH as [(-> & -> & -> & Hm & Hall)|(w & dn & d & r & -> & -> & Hd & Hall & E & Hr)].
      * left. split_and!; try done. by constructor.
      * right. exists w, (p :: dn), d, r. rewrite E. split_and!; try done. by constructor.
Qed.

Lemma process_loop_nocb fuel buffer :
  length buffer < fuel →
  process_loop fuel None buffer = (buffer_of (run_automaton Hunting buffer).1, [], Returned)
  ∧ settled (run_automaton Hunting buffer).1.
Proof.
  revert buffer. induction fuel as [|fuel IH]; intros buffer Hfuel; [lia|]. simpl.
  destruct (process_step_cases buffer)
    as [(m & -> & Hm & ->)|(p & rest & -> & Hlt & ->)]; simpl; [done|].
  apply IH. lia.
Qed.






End Frames.

(** ** The server object *)

Module TcpServer.
Section TcpServer.
(** [std::string::max_size()], and the server's [message_cb_]: unset, or a
    function of the descriptor and the payload that returns or throws. *)
Context (max_size : Z) (message_cb_ : option (Z → bytes → option string)).

(** Error numbers (Linux); [EWOULDBLOCK] is [EAGAIN]. *)
Definition EINTR : Z := 4.
Definition EAGAIN : Z := 11.

(** The fields, the kernel objects the server changes through system calls (the
    epoll interest list and the open descriptors), and the calls made to the
    callback so far. *)
Record t := mk {
  port_ : Z;
  listen_fd_ : Z;
  epfd_ : Z;
  recv_buffers_ : gmap Z bytes;
  send_buffers_ : gmap Z bytes;
  interest : gset Z;
  opened : gset Z;
  calls : list (Z * bytes);
}.

Definition make (port : Z) : t := mk port (-1) (-1) ∅ ∅ ∅ ∅ [].

Definition set_fds (l e : Z) (s : t) : t :=
  mk (port_ s) l e (recv_buffers_ s) (send_buffers_ s) (interest s) (opened s) (calls s).
Definition set_recv (m : gmap Z bytes) (s : t) : t :=
  mk (port_ s) (listen_fd_ s) (epfd_ s) m (send_buffers_ s) (interest s) (opened s) (calls s).
Definition set_kernel (i o : gset Z) (s : t) : t :=
  mk (port_ s) (listen_fd_ s) (epfd_ s) (recv_buffers_ s) (send_buffers_ s) i o (calls s).
Definition add_calls (c : list (Z * bytes)) (s : t) : t :=
  mk (port_ s) (listen_fd_ s) (epfd_ s) (recv_buffers_ s) (send_buffers_ s)
    (interest s) (opened s) (calls s ++ c).

(** [recv_buffers_[fd]]: the entry, created empty if there is none. *)
Definition buffer (fd : Z) (s : t) : bytes := default [] (recv_buffers_ s !! fd).

(** [~TcpServer] closes the two descriptors; the map of connections dies with the
    object, their descriptors stay open. *)
Definition close_if (fd : Z) (s : t) : t :=
  if decide (0 ≤ fd)%Z then set_kernel (interest s) (opened s ∖ {[fd]}) s else s.
Definition destroy (s : t) : t := close_if (epfd_ s) (close_if (listen_fd_ s) s).

(** Results of the system calls of [init]. *)
Record init_calls := {
  ic_socket : Z;          (* socket *)
  ic_bind : Z;            (* bind *)
  ic_listen : Z;          (* listen *)
  ic_epoll : Z;           (* epoll_create1 *)
  ic_ctl : bool;          (* epoll_ctl succeeds; its result is not tested *)
}.

Definition open_fd (fd : Z) (s : t) : t := set_kernel (interest s) ({[fd]} ∪ opened s) s.
Definition watch (ok : bool) (fd : Z) (s : t) : t :=
  if ok then set_kernel ({[fd]} ∪ interest s) (opened s) s else s.

Definition init (ic : init_calls) (s : t) : t * bool :=
  let s := set_fds (ic_socket ic) (epfd_ s) s in
  if decide (ic_socket ic < 0)%Z then (s, false) else
  let s := open_fd (ic_socket ic) s in
  if decide (ic_bind ic < 0)%Z then (s, false) else
  if decide (ic_listen ic < 0)%Z then (s, false) else
  let s := set_fds (ic_socket ic) (ic_epoll ic) s in
  if decide (ic_epoll ic < 0)%Z then (s, false) else
  let s := open_fd (ic_epoll ic) s in
  (watch (ic_ctl ic) (ic_socket ic) s, true).

(** One result of [accept], with the result of [epoll_ctl] for the connection. *)
Inductive accept_result :=
| Accepted (conn_fd : Z) (ctl_ok : bool)
| AcceptError (errno : Z).

Definition accept_one (conn_fd : Z) (ctl_ok : bool) (s : t) : t :=
  let s := watch ctl_ok conn_fd (open_fd conn_fd s) in
  set_recv (<[conn_fd := []]> (recv_buffers_ s)) s.

(** [handleAccept]: both error branches leave the loop.  [None]: the listed
    results run out before the loop ends. *)
Fixpoint handleAccept (results : list accept_result) (s : t) : option t :=
  match results with
  | [] => None
  | Accepted fd ok :: rest => handleAccept rest (accept_one fd ok s)
  | AcceptError _ :: _ => Some s
  end.

Definition closeConnection (fd : Z) (s : t) : t :=
  set_recv (delete fd (recv_buffers_ s))
    (set_kernel (interest s ∖ {[fd]}) (opened s ∖ {[fd]}) s).

(** How a handler ends: it returns, or an exception leaves it. *)
Inductive ending := Returned | Escaped (what : string) | Meaningless.

(** [processBuffer(fd)]. *)
Definition processBuffer (fd : Z) (s : t) : t * ending :=
  let cb := (λ f, f fd) <$> message_cb_ in
  let '(b, payloads, e) := Frames.processBuffer cb (buffer fd s) in
  (add_calls ((λ d, (fd, d)) <$> payloads) (set_recv (<[fd := b]> (recv_buffers_ s)) s),
   match e with
   | Frames.Returned => Returned
   | Frames.Escaped w => Escaped w
   | Frames.Meaningless | Frames.OutOfFuel => Meaningless
   end).

(** One result of [read]: at most 1024 bytes, the end of the stream, or an
    error. *)
Inductive read_result :=
| ReadData (data : bytes)
| ReadEof
| ReadError (errno : Z).

Definition read_return (r : read_result) : Z :=
  match r with
  | ReadData d => Z.of_nat (length d)
  | ReadEof => 0
  | ReadError _ => -1
  end.
Definition read_bytes (r : read_result) : bytes :=
  match r with ReadData d => d | _ => [] end.
Definition read_errno (r : read_result) : Z :=
  match r with ReadError e => e | _ => 0 end.

(** [handleRead]: [n] is declared [size_t], so the result of [read] is converted
    to 64 unsigned bits before both comparisons. *)
Fixpoint handleRead (fd : Z) (results : list read_result) (s : t) : option (t * ending) :=
  match results with
  | [] => None
  | r :: rest =>
      let n := u64 (read_return r) in
      if decide (0 < n)%Z then
        match append max_size (buffer fd s) (read_bytes r) n with
        | Val b => handleRead fd rest (set_recv (<[fd := b]> (recv_buffers_ s)) s)
        | Throw w => Some (set_recv (<[fd := buffer fd s]> (recv_buffers_ s)) s, Escaped w)
        | Undefined => Some (s, Meaningless)
        end
      else if decide (n < 0)%Z then
        if decide (read_errno r = EAGAIN) then Some (s, Returned)
        else Some (closeConnection fd s, Returned)
      else if decide (n = 0)%Z then Some (closeConnection fd s, Returned)
      else Some (processBuffer fd s)
  end.

(** One readable descriptor reported by [epoll_wait], with the results of the
    system calls its handler makes. *)
Record event := {
  ev_fd : Z;
  ev_accepts : list accept_result;
  ev_reads : list read_result;
}.

(** One result of [epoll_wait]. *)
Inductive wait_result :=
| Ready (events : list event)
| WaitError (errno : Z).

Definition dispatch (ev : event) (s : t) : option (t * ending) :=
  if decide (ev_fd ev = listen_fd_ s) then
    (λ s', (s', Returned)) <$> handleAccept (ev_accepts ev) s
  else handleRead (ev_fd ev) (ev_reads ev) s.

Fixpoint dispatch_all (evs : list event) (s : t) : option (t * ending) :=
  match evs with
  | [] => Some (s, Returned)
  | ev :: rest =>
      match dispatch ev s with
      | Some (s', Returned) => dispatch_all rest s'
      | r => r
      end
  end.

(** How far the event loop got: it waits for more events, left the loop on an
    error of [epoll_wait], or was left by an exception; [Incomplete] when the
    listed results do not cover the calls made. *)
Inductive status := Waiting | LoopExit | Aborted (e : ending) | Incomplete.

Fixpoint event_loop (waits : list wait_result) (s : t) : t * status :=
  match waits with
  | [] => (s, Waiting)
  | WaitError errno :: rest =>
      if decide (errno = EINTR) then event_loop rest s else (s, LoopExit)
  | Ready evs :: rest =>
      match dispatch_all evs s with
      | Some (s', Returned) => event_loop rest s'
      | Some (s', e) => (s', Aborted e)
      | None => (s, Incomplete)
      end
  end.

(** [run]: it returns at once when [init] fails. *)
Definition run (ic : init_calls) (waits : list wait_result) (s : t) : t * status :=
  match init ic s with
  | (s', true) => event_loop waits s'
  | (s', false) => (s', LoopExit)
  end.

(** *** [handleRead] never reaches its last branch *)

Lemma u64_nonneg z : (0 ≤ u64 z)%Z.
Proof. apply (wrap_range 64). lia. Qed.

(** A result of [read] either has a positive [n] or closes the connection. *)
Lemma handleRead_cons fd r rest s :
  handleRead fd (r :: rest) s =
    if decide (0 < u64 (read_return r))%Z then
      match append max_size (buffer fd s) (read_bytes r) (u64 (read_return r)) with
      | Val b => handleRead fd rest (set_recv (<[fd := b]> (recv_buffers_ s)) s)
      | Throw w => Some (set_recv (<[fd := buffer fd s]> (recv_buffers_ s)) s, Escaped w)
      | Undefined => Some (s, Meaningless)
      end
    else Some (closeConnection fd s, Returned).
Proof.
  simpl. case_decide as Hpos; [done|]. pose proof (u64_nonneg (read_return r)).
  rewrite decide_False, decide_True by lia. done.
Qed.

(** What a handler leaves alone. *)
Definition frame (s s' : t) : Prop :=
  port_ s' = port_ s ∧ listen_fd_ s' = listen_fd_ s ∧ epfd_ s' = epfd_ s ∧
  send_buffers_ s' = send_buffers_ s ∧ calls s' = calls s.

Lemma frame_trans s1 s2 s3 : frame s1 s2 → frame s2 s3 → frame s1 s3.
Proof. unfold frame. intuition congruence. Qed.

(** The two ways a call ends: the connection is closed, or an exception (or
    worse) leaves the function and only this connection's buffer changed. *)
Lemma handleRead_result fd rs s s' e :
  handleRead fd rs s = Some (s', e) →
  frame s s' ∧
  ((e = Returned ∧ recv_buffers_ s' = delete fd (recv_buffers_ s) ∧
    interest s' = interest s ∖ {[fd]} ∧ opened s' = opened s ∖ {[fd]}) ∨
   (e ≠ Returned ∧ interest s' = interest s ∧ opened s' = opened s ∧
    (recv_buffers_ s' = recv_buffers_ s ∨ ∃ b, recv_buffers_ s' = <[fd := b]> (recv_buffers_ s)))).
Proof.
  revert s. induction rs as [|r rest IH]; intros s; [done|]. rewrite handleRead_cons.
  case_decide as Hpos.
  - destruct (append _ _ _ _) as [b|w|].
    + intros [Hf Hr]%IH. split; [done|].
      destruct Hr as [(?&Hd&?&?)|(?&?&?&Hb)]; [left|right].
      * split_and!; try done. by rewrite Hd; simpl; rewrite delete_insert_eq.
      * split_and!; try done. right.
        destruct Hb as [->|[b' ->]]; [by exists b|exists b'; simpl; apply insert_insert_eq].
    + intros [= <- <-]. split; [done|]. right. split_and!; try done. right. by eexists.
    + intros [= <- <-]. split; [done|]. right. split_and!; try done. by left.
  - intros [= <- <-]. split; [done|]. by left.
Qed.

Lemma handleAccept_frame rs s s' : handleAccept rs s = Some s' → frame s s'.
Proof.
  revert s. induction rs as [|[fd ok|e] rest IH]; intros s; simpl; [done| |by intros [= <-]].
  intros H%IH. eapply frame_trans; [|exact H]. by destruct ok.
Qed.

Lemma dispatch_frame ev s s' e : dispatch ev s = Some (s', e) → frame s s'.
Proof.
  unfold dispatch. case_decide.
  - intros (s1 & H1 & [= -> ->])%fmap_Some. by eapply handleAccept_frame.
  - intros Hr%handleRead_result. apply Hr.
Qed.

Lemma dispatch_all_frame evs s s' e : dispatch_all evs s = Some (s', e) → frame s s'.
Proof.
  revert s. induction evs as [|ev rest IH]; intros s; simpl; [by intros [= <- <-]|].
  destruct (dispatch ev s) as [[s1 e1]|] eqn:Hd; [|done].
  apply dispatch_frame in Hd. destruct e1; [|by intros [= <- <-]..].
  intros H%IH. by eapply frame_trans.
Qed.

Lemma event_loop_frame waits s : frame s (event_loop waits s).1.
Proof.
  revert s. induction waits as [|[evs|errno] rest IH]; intros s; simpl; [done| |].
  - destruct (dispatch_all evs s) as [[s1 e1]|] eqn:Hd; [|done].
    apply dispatch_all_frame in Hd. destruct e1; [|done..].
    eapply frame_trans; [exact Hd|apply IH].
  - case_decide; [apply IH|done].
Qed.

Lemma init_calls_unchanged ic s : calls (init ic s).1 = calls s.
Proof. unfold init. repeat case_decide; try done. by destruct (ic_ctl ic). Qed.

(** *** Connections and descriptors *)

(** The open descriptors are the listening socket, the epoll instance and one
    per connection, and a connection is a key of [recv_buffers_]; everything
    watched is the listening socket or a connection. *)
Definition conn_inv (s : t) : Prop :=
  opened s = {[listen_fd_ s; epfd_ s]} ∪ dom (recv_buffers_ s) ∧
  listen_fd_ s ∉ dom (recv_buffers_ s) ∧ epfd_ s ∉ dom (recv_buffers_ s) ∧
  interest s ⊆ {[listen_fd_ s]} ∪ dom (recv_buffers_ s) ∧
  listen_fd_ s ≠ epfd_ s.

(** The kernel's side: [accept] returns descriptors that are not open, and
    [epoll_wait] reports watched descriptors. *)
Fixpoint accepts_ok (rs : list accept_result) (s : t) : Prop :=
  match rs with
  | Accepted fd ok :: rest => fd ∉ opened s ∧ accepts_ok rest (accept_one fd ok s)
  | _ => True
  end.

Fixpoint events_ok (evs : list event) (s : t) : Prop :=
  match evs with
  | [] => True
  | ev :: rest =>
      ev_fd ev ∈ interest s ∧ accepts_ok (ev_accepts ev) s ∧
      match dispatch ev s with
      | Some (s', Returned) => events_ok rest s'
      | _ => True
      end
  end.

Fixpoint waits_ok (waits : list wait_result) (s : t) : Prop :=
  match waits with
  | [] => True
  | WaitError errno :: rest => errno = EINTR → waits_ok rest s
  | Ready evs :: rest =>
      events_ok evs s ∧
      match dispatch_all evs s with
      | Some (s', Returned) => waits_ok rest s'
      | _ => True
      end
  end.

#[global] Instance accepts_ok_dec rs s : Decision (accepts_ok rs s).
Proof.
  revert s. induction rs as [|[fd ok|e] rest IH]; intros s; simpl; apply _.
Defined.

#[global] Instance events_ok_dec evs s : Decision (events_ok evs s).
Proof.
  revert s. induction evs as [|ev rest IH]; intros s; simpl; [apply _|].
  destruct (dispatch ev s) as [[s' []]|]; apply _.
Defined.

#[global] Instance waits_ok_dec waits s : Decision (waits_ok waits s).
Proof.
  revert s. induction waits as [|[evs|errno] rest IH]; intros s; simpl; [apply _| |apply _].
  destruct (dispatch_all evs s) as [[s' []]|]; apply _.
Defined.

Lemma accept_one_inv fd ok s : fd ∉ opened s → conn_inv s → conn_inv (accept_one fd ok s).
Proof.
  intros Hfd (Ho & Hl & He & Hi & Hne). unfold conn_inv, accept_one.
  rewrite Ho in Hfd. destruct ok; simpl; rewrite dom_insert_L, Ho; set_solver.
Qed.

Lemma handleAccept_inv rs s s' :
  accepts_ok rs s → handleAccept rs s = Some s' → conn_inv s → conn_inv s'.
Proof.
  revert s. induction rs as [|[fd ok|e] rest IH]; intros s; simpl; [done| |by intros _ [= <-]].
  intros [Hfd Hok] H Hs. eapply IH; eauto using accept_one_inv.
Qed.

Lemma handleRead_inv fd rs s s' e :
  fd ∈ interest s → fd ≠ listen_fd_ s → handleRead fd rs s = Some (s', e) →
  conn_inv s → conn_inv s'.
Proof.
  intros Hfd Hnl H (Ho & Hl & He & Hi & Hne). unfold conn_inv.
  apply handleRead_result in H as [(_ & -> & -> & _ & _) [(_&->&->&->)|(_&->&->&Hb)]].
  - rewrite dom_delete_L, Ho. assert (epfd_ s ≠ fd) by set_solver.
    split_and!; try done; set_solver.
  - assert (fd ∈ dom (recv_buffers_ s)) by set_solver.
    destruct Hb as [->|[b ->]]; [done|].
    rewrite dom_insert_L, (subseteq_union_1_L {[fd]}) by set_solver. done.
Qed.

Lemma dispatch_inv ev s s' e :
  ev_fd ev ∈ interest s → accepts_ok (ev_accepts ev) s →
  dispatch ev s = Some (s', e) → conn_inv s → conn_inv s'.
Proof.
  unfold dispatch. intros Hfd Hok. case_decide.
  - intros (s1 & H1 & [= -> ->])%fmap_Some. by eapply handleAccept_inv.
  - by apply handleRead_inv.
Qed.

Lemma dispatch_all_inv evs s s' e :
  events_ok evs s → dispatch_all evs s = Some (s', e) → conn_inv s → conn_inv s'.
Proof.
  revert s. induction evs as [|ev rest IH]; intros s; simpl; [by intros _ [= <- <-]|].
  intros (Hfd & Hok & Hrest).
  destruct (dispatch ev s) as [[s1 e1]|] eqn:Hd; [|done]. intros H Hs.
  pose proof (dispatch_inv _ _ _ _ Hfd Hok Hd Hs). destruct e1; simplify_eq; eauto.
Qed.

Lemma event_loop_inv waits s :
  waits_ok waits s → conn_inv s → conn_inv (event_loop waits s).1.
Proof.
  revert s. induction waits as [|[evs|errno] rest IH]; intros s; simpl; [done| |].
  - intros [He Hrest] Hs. destruct (dispatch_all evs s) as [[s1 e1]|] eqn:Hd; [|done].
    pose proof (dispatch_all_inv _ _ _ _ He Hd Hs). destruct e1; simpl; eauto.
  - case_decide; auto.
Qed.

(** [init] on a new server. *)
Lemma init_inv ic port s' :
  ic_epoll ic ≠ ic_socket ic → init ic (make port) = (s', true) → conn_inv s'.
Proof.
  unfold init, conn_inv. intros Hne. repeat case_decide; try discriminate.
  intros [= <-]. destruct (ic_ctl ic); simpl; rewrite dom_empty_L; set_solver.
Qed.

Lemma init_fds ic port s' :
  init ic (make port) = (s', true) → (0 ≤ listen_fd_ s' ∧ 0 ≤ epfd_ s')%Z.
Proof.
  unfold init. repeat case_decide; try discriminate.
  intros [= <-]. destruct (ic_ctl ic); simpl; lia.
Qed.

Lemma opened_close_if fd s : (0 ≤ fd)%Z → opened (close_if fd s) = opened s ∖ {[fd]}.
Proof. intros. unfold close_if. by rewrite decide_True. Qed.

Lemma recv_close_if fd s : recv_buffers_ (close_if fd s) = recv_buffers_ s.
Proof. unfold close_if. by case_decide. Qed.

Lemma fds_close_if fd s :
  listen_fd_ (close_if fd s) = listen_fd_ s ∧ epfd_ (close_if fd s) = epfd_ s.
Proof. unfold close_if. by case_decide. Qed.

Lemma destroy_opened s :
  (0 ≤ listen_fd_ s)%Z → (0 ≤ epfd_ s)%Z → conn_inv s →
  opened (destroy s) = dom (recv_buffers_ s).
Proof.
  intros Hl He (Ho & Hnl & Hne & _). unfold destroy.
  rewrite !opened_close_if, Ho by done. set_solver.
Qed.

Lemma init_fails_clean ic port s' :
  init ic (make port) = (s', false) → opened (destroy s') = ∅.
Proof.
  unfold init, destroy, close_if. intros H.
  repeat (case_decide; simplify_eq/=; try done); try set_solver; lia.
Qed.

(** *** Reading one connection *)

Lemma buffer_set_recv fd b s : buffer fd (set_recv (<[fd := b]> (recv_buffers_ s)) s) = b.
Proof. unfold buffer. simpl. by rewrite lookup_insert_eq. Qed.

Lemma handleRead_data fd (chunks : list bytes) rest s :
  Forall (λ c, 0 < length c ≤ 1024) chunks →
  (Z.of_nat (length (buffer fd s) + length (concat chunks)) ≤ max_size)%Z →
  (max_size < 2 ^ 63)%Z → chunks ≠ [] →
  handleRead fd ((ReadData <$> chunks) ++ rest) s =
    handleRead fd rest
      (set_recv (<[fd := buffer fd s ++ concat chunks]> (recv_buffers_ s)) s).
Proof.
  intros Hc. revert s. induction Hc as [|c chunks Hc Hall IH]; intros s Hlen Hmax Hne; [done|].
  rewrite fmap_cons, <- app_comm_cons, handleRead_cons. simpl read_return. simpl read_bytes.
  simpl concat in *. rewrite length_app in Hlen.
  rewrite u64_small, decide_True by lia. rewrite append_whole by lia.
  destruct chunks as [|c' chunks'].
  - simpl. by rewrite app_nil_r.
  - rewrite IH; [|rewrite buffer_set_recv, length_app; lia|done..].
    rewrite buffer_set_recv, <- app_assoc. simpl recv_buffers_.
    by rewrite insert_insert_eq.
Qed.

Lemma handleRead_error fd errno rest s :
  (0 ≤ max_size < 2 ^ 63)%Z →
  handleRead fd (ReadError errno :: rest) s =
    Some (set_recv (<[fd := buffer fd s]> (recv_buffers_ s)) s, Escaped "length_error").
Proof.
  intros Hmax. rewrite handleRead_cons. simpl read_return.
  change (u64 (-1)) with (2 ^ 64 - 1)%Z. rewrite decide_True by lia.
  unfold append. by rewrite decide_True by lia.
Qed.
End TcpServer.
End TcpServer.

(** ** Properties *)

Section Properties.
Import Frames.



(** C2.  A call of [processBuffer] terminates without undefined behaviour or
    library exception whatever the buffer and the callback do, and neither loses
    nor repeats a frame: either the callback returned normally for every frame
    of the buffer and no complete frame is left, or it threw on the last payload
    it was given and the buffer left still holds the frames after that one. *)
Theorem processBuffer_spec (f : bytes → option string) (buffer : bytes) :
  loop_result f (run_automaton Hunting buffer).1 (run_automaton Hunting buffer).2
    (processBuffer (Some f) buffer) ∧
  processBuffer None buffer = (buffer_of (run_automaton Hunting buffer).1, [], Returned).
Proof.
  split; [apply process_loop_spec; lia|]. apply process_loop_nocb. lia.
Qed.

(** C6.  As written, the server never delivers a frame: [handleRead] stores the
    result of [read] in a [size_t], so neither [n < 0] nor the call of
    [processBuffer] after the loop is ever reached, and no run of the event loop
    calls the message callback, whatever the clients send. *)
Theorem run_never_calls_callback (max_size : Z)
    (message_cb_ : option (Z → bytes → option string)) (port : Z)
    (ic : TcpServer.init_calls) (waits : list TcpServer.wait_result) :
  TcpServer.calls (TcpServer.run max_size message_cb_ ic waits (TcpServer.make port)).1 = [].
Proof.
  unfold TcpServer.run.
  pose proof (TcpServer.init_calls_unchanged ic (TcpServer.make port)) as Hi.
  destruct (TcpServer.init ic _) as [s' [|]]; [|done].
  destruct (TcpServer.event_loop_frame max_size message_cb_ waits s') as (_&_&_&_&->).
  done.
Qed.

(** C7.  What [handleRead] does instead.  After any non-empty chunks that fit in
    a string, the end of the stream closes the connection; an error of [read] —
    [EAGAIN] included, which is how every edge-triggered read of a live
    connection ends — is read as 2^64 - 1 bytes, and an exception leaves the
    handler with the received bytes appended to the connection's buffer. *)
Theorem handleRead_behaviour (max_size : Z)
    (message_cb_ : option (Z → bytes → option string)) (fd errno : Z)
    (chunks : list bytes) (s : TcpServer.t)
    (Hmax : (0 ≤ max_size < 2 ^ 63)%Z) (Hne : chunks ≠ [])
    (Hchunks : Forall (λ c, 0 < length c ≤ 1024) chunks)
    (Hfit : (Z.of_nat (length (TcpServer.buffer fd s) + length (concat chunks)) ≤ max_size)%Z) :
  let b := TcpServer.buffer fd s ++ concat chunks in
  let s' := TcpServer.set_recv (<[fd := b]> (TcpServer.recv_buffers_ s)) s in
  TcpServer.handleRead max_size message_cb_ fd
    ((TcpServer.ReadData <$> chunks) ++ [TcpServer.ReadEof]) s =
    Some (TcpServer.closeConnection fd s', TcpServer.Returned) ∧
  TcpServer.handleRead max_size message_cb_ fd
    ((TcpServer.ReadData <$> chunks) ++ [TcpServer.ReadError errno]) s =
    Some (s', TcpServer.Escaped "length_error").
Proof.
  intros b s'. rewrite !TcpServer.handleRead_data by (done || lia). split; [done|].
  rewrite TcpServer.handleRead_error by done. do 2 f_equal.
  unfold s', b. rewrite TcpServer.buffer_set_recv. unfold TcpServer.set_recv; simpl.
  by rewrite insert_insert_eq.
Qed.

Lemma handleRead_behaviour_witness :
  TcpServer.handleRead 4611686018427387903 None 7
    [TcpServer.ReadData [HEAD]; TcpServer.ReadError TcpServer.EAGAIN]
    (TcpServer.accept_one 7 true (TcpServer.make 21210)) =
  Some (TcpServer.set_recv {[7%Z := [HEAD]]}
          (TcpServer.accept_one 7 true (TcpServer.make 21210)),
        TcpServer.Escaped "length_error").
Proof.
  etrans; [apply (handleRead_behaviour 4611686018427387903 None 7 TcpServer.EAGAIN [[HEAD]]
    (TcpServer.accept_one 7 true (TcpServer.make 21210)))|reflexivity].
  - done.
  - done.
  - by repeat constructor; vm_compute; lia.
  - by vm_compute.
Defined.

(** C8.  Descriptor accounting.  When [init] succeeds and the kernel behaves
    ([accept] returns a descriptor that is not open, [epoll_wait] reports
    watched ones), then at any point of the run the open descriptors are the
    listening socket, the epoll instance and one per entry of [recv_buffers_],
    and only those are watched; the destructor then closes the first two and
    leaves the connections open.  When [init] fails the destructor leaves
    nothing open. *)
Theorem descriptor_accounting (max_size : Z)
    (message_cb_ : option (Z → bytes → option string)) (port : Z)
    (ic : TcpServer.init_calls) (waits : list TcpServer.wait_result)
    (Hne : TcpServer.ic_epoll ic ≠ TcpServer.ic_socket ic)
    (Hok : ∀ s, TcpServer.init ic (TcpServer.make port) = (s, true) →
       TcpServer.waits_ok max_size message_cb_ waits s) :
  let s := (TcpServer.run max_size message_cb_ ic waits (TcpServer.make port)).1 in
  ((TcpServer.init ic (TcpServer.make port)).2 = true →
   TcpServer.conn_inv s ∧
   TcpServer.opened (TcpServer.destroy s) = dom (TcpServer.recv_buffers_ s)) ∧
  ((TcpServer.init ic (TcpServer.make port)).2 = false →
   TcpServer.opened (TcpServer.destroy s) = ∅).
Proof.
  unfold TcpServer.run.
  destruct (TcpServer.init ic _) as [s0 [|]] eqn:Hi; simpl; split; try done; intros _.
  - pose proof (TcpServer.init_inv _ _ _ Hne Hi) as H0.
    pose proof (TcpServer.event_loop_inv _ _ _ _ (Hok _ eq_refl) H0) as Hinv.
    split; [done|].
    destruct (TcpServer.event_loop_frame max_size message_cb_ waits s0) as (_&El&Ee&_).
    destruct (TcpServer.init_fds _ _ _ Hi) as [??].
    apply TcpServer.destroy_opened; [lia..|done].
  - by eapply TcpServer.init_fails_clean.
Qed.

(** One client connects and leaves, a second one connects. *)
Definition example_init : TcpServer.init_calls :=
  {| TcpServer.ic_socket := 3; TcpServer.ic_bind := 0; TcpServer.ic_listen := 0;
     TcpServer.ic_epoll := 4; TcpServer.ic_ctl := true |}.
Definition example_waits : list TcpServer.wait_result :=
  let accept fd := TcpServer.Build_event 3
    [TcpServer.Accepted fd true; TcpServer.AcceptError TcpServer.EAGAIN] [] in
  [TcpServer.Ready [accept 5%Z]; TcpServer.WaitError TcpServer.EINTR;
   TcpServer.Ready [TcpServer.Build_event 5 [] [TcpServer.ReadData [HEAD]; TcpServer.ReadEof];
                    accept 5%Z; accept 6%Z]].

Lemma descriptor_accounting_witness :
  TcpServer.opened (TcpServer.destroy
    (TcpServer.run 1000 None example_init example_waits (TcpServer.make 21210)).1) =
  {[5%Z; 6%Z]}.
Proof.
  assert (Hne : TcpServer.ic_epoll example_init ≠ TcpServer.ic_socket example_init) by done.
  assert (Hok : ∀ s, TcpServer.init example_init (TcpServer.make 21210) = (s, true) →
    TcpServer.waits_ok 1000 None example_waits s).
  { intros s Hs. apply (f_equal fst) in Hs. cbn [fst] in Hs. rewrite <- Hs. compute_done. }
  assert (Hinit : (TcpServer.init example_init (TcpServer.make 21210)).2 = true)
    by by vm_compute.
  etrans; [exact (proj2 (proj1 (descriptor_accounting 1000 None 21210 example_init
    example_waits Hne Hok) Hinit))|]. by vm_compute.
Defined.
End Properties.
