(* ===== verification/Message.v ===== *)
(** * The TCP message envelope ([src/common/protocol/message.h])

    The class template [Message<MT>]: type byte, 16-bit length in network order
    and body, in a buffer of [HEADER_LENGTH] bytes plus the body.  The two
    functions a subclass supplies, [bodySerialize] and [bodyDeserialize], are the
    operations of the class [MessageBody]; what a correct subclass guarantees is
    [MessageBodyLaws], against which the round trip is proved.

    Members the constructors leave uninitialised are [None]; reading one has no
    meaning in C++. *)

From S2P Require Import Prelude ByteOrder.

Module Message.

(** [enum MessageType : uint8_t]. *)
Inductive MessageType := C0 | C1 | D1 | D2.

Definition MessageType_value (t : MessageType) : Z :=
  match t with C0 => 0xc0 | C1 => 0xc1 | D1 => 0xd1 | D2 => 0xd2 end.

Definition HEADER_LENGTH : nat := 38.

Section Message.
Context {MT : Type} (mt_default : MT).

Record t := mk {
  _message_type : option Z;   (* uint8_t *)
  _message_len : option Z;    (* uint16_t *)
  mt_ : MT;
  body_ : bytes;
  payload_ : bytes;
}.

(** Constructors: only the payload is copied or moved; [mt_] and [body_] are
    default-constructed. *)
Definition make : t := mk None None mt_default [] [].
Definition make_from (data : bytes) : t := mk None None mt_default [] data.
Definition make_copy (other : t) : t := mk None None mt_default [] (payload_ other).

Definition setPayload (data : bytes) (m : t) : t :=
  mk (_message_type m) (_message_len m) (mt_ m) (body_ m) data.
Definition getPayload (m : t) : bytes := payload_ m.
Definition setMessageType (message_type : Z) (m : t) : t :=
  mk (Some (u8 message_type)) (_message_len m) (mt_ m) (body_ m) (payload_ m).
Definition getMessageType (m : t) : outcome Z :=
  match _message_type m with Some z => Val z | None => Undefined end.
(** The parameter is 32 bits wide, the member 16. *)
Definition setMessageLen (message_len : Z) (m : t) : t :=
  mk (_message_type m) (Some (u16 message_len)) (mt_ m) (body_ m) (payload_ m).
Definition getMessageLen (m : t) : outcome Z :=
  match _message_len m with Some z => Val z | None => Undefined end.

Definition set_body (body : bytes) (m : t) : t :=
  mk (_message_type m) (_message_len m) (mt_ m) body (payload_ m).
Definition set_mt (x : MT) (m : t) : t :=
  mk (_message_type m) (_message_len m) x (body_ m) (payload_ m).

(** What a subclass supplies. *)
Class MessageBody := {
  bodySerialize : t → outcome t;
  bodyDeserialize : t → outcome t;
}.

(** [std::memcpy(ptr, src.data(), n)] of the first [n] bytes of a string: the
    terminating zero may be read, nothing after it. *)
Definition read_chars (src : bytes) (n : nat) : outcome bytes :=
  if decide (n ≤ S (length src)) then Val (take n (src ++ [Byte.x00])) else Undefined.

(** [memcpy] over part of the buffer. *)
Definition overwrite (pos : nat) (data buffer : bytes) : bytes :=
  take pos buffer ++ data ++ drop (pos + length data) buffer.

Context `{MessageBody}.

(** The effect of [serialize] on the object. *)
Definition serialize_object (e : endian) (m : t) : outcome t :=
  m ← bodySerialize m;
  type ← getMessageType m;
  len ← getMessageLen m;
  let payload := replicate (HEADER_LENGTH + Z.to_nat len) Byte.x00 in
  let payload := overwrite 0 [z2b type] payload in
  let net_len := ByteOrderUtils.hostToNet16 e len in
  let payload := overwrite 1 (ByteOrderUtils.repr e 2 net_len) payload in
  chars ← read_chars (body_ m) (Z.to_nat len);
  Val (setPayload (overwrite 3 chars payload) m).

(** [serialize] itself is declared to return a [std::string] and has no return
    statement: when control reaches its end the behaviour is undefined. *)
Definition serialize (e : endian) (m : t) : outcome (t * bytes) :=
  match serialize_object e m with
  | Val _ | Undefined => Undefined
  | Throw what => Throw what
  end.

(** The part of [deserialize] that reads the buffer. *)
Definition deserialize_header (e : endian) (m : t) : outcome t :=
  let p := payload_ m in
  if decide (length p < HEADER_LENGTH) then Throw "Invalid message data" else
  match p with
  | b0 :: b1 :: b2 :: rest =>
      let type := b2z b0 in
      let len := ByteOrderUtils.netToHost16 e (ByteOrderUtils.load e [b1; b2]) in
      body ← read_chars rest (Z.to_nat len);
      let m := mk (Some type) (Some len) (mt_ m) body p in
      if decide (len = Z.of_nat (length (body_ m))) then Val m
      else Throw "Invalid message data"
  | _ => Undefined
  end.

Definition deserialize (e : endian) (m : t) : outcome t :=
  m ← deserialize_header e m; bodyDeserialize m.

(** [ParseFromString] of the payload type is a library function: it overwrites
    [mt_] and tells whether it succeeded. *)
Definition parseBody (ParseFromString : bytes → MT * bool) (m : t) : t * bool :=
  let '(x, ok) := ParseFromString (body_ m) in (set_mt x m, ok).

(** What the envelope needs of a subclass: serialising fills the body and sets a
    length that is the body's, and deserialising the same body restores the
    message it came from. *)
Class MessageBodyLaws := {
  bodySerialize_spec m m' :
    bodySerialize m = Val m' →
    mt_ m' = mt_ m ∧ _message_type m' = _message_type m ∧
    _message_len m' = Some (Z.of_nat (length (body_ m'))) ∧
    (Z.of_nat (length (body_ m')) < 2 ^ 16)%Z;
  bodyDeserialize_serialize m m' m0 :
    bodySerialize m = Val m' →
    body_ m0 = body_ m' → _message_len m0 = _message_len m' →
    bodyDeserialize m0 = Val (set_mt (mt_ m) m0);
}.

(** ** Lemmas *)

Lemma overwrite_replicate pos data n :
  pos + length data ≤ n →
  overwrite pos data (replicate n Byte.x00) =
    replicate pos Byte.x00 ++ data ++ replicate (n - (pos + length data)) Byte.x00.
Proof.
  intros Hn. unfold overwrite. rewrite take_replicate, drop_replicate.
  by rewrite Nat.min_l by lia.
Qed.

(** Writing past what a prefix occupies. *)
Lemma overwrite_app pos data pre buffer :
  length pre = pos → overwrite pos data (pre ++ buffer) = pre ++ overwrite 0 data buffer.
Proof.
  intros <-. unfold overwrite. rewrite take_app_length, take_0. simpl.
  by rewrite drop_app_add.
Qed.

Lemma read_chars_whole src : read_chars src (length src) = Val src.
Proof.
  unfold read_chars. rewrite decide_True by lia. by rewrite take_app_length.
Qed.

Lemma read_chars_prefix src rest : read_chars (src ++ rest) (length src) = Val src.
Proof.
  unfold read_chars. rewrite decide_True by (rewrite length_app; lia).
  rewrite <- app_assoc. by rewrite take_app_length.
Qed.

Lemma length_read_chars src n body : read_chars src n = Val body → length body = n.
Proof.
  unfold read_chars. case_decide; [|done]. intros [= <-].
  rewrite length_take, length_app. simpl. lia.
Qed.

(** The wire image of a message. *)
Definition wire (type : Z) (body : bytes) : bytes :=
  z2b type :: be_bytes 2 (Z.of_nat (length body)) ++ body ++ replicate 35 Byte.x00.

Lemma wire_built_gen e type body n :
  3 + length body ≤ n →
  overwrite 3 body
    (overwrite 1 (ByteOrderUtils.repr e 2 (ByteOrderUtils.hostToNet16 e (Z.of_nat (length body))))
      (overwrite 0 [z2b type] (replicate n Byte.x00))) =
  z2b type :: be_bytes 2 (Z.of_nat (length body)) ++ body ++
    replicate (n - (3 + length body)) Byte.x00.
Proof.
  intros Hn.
  unfold ByteOrderUtils.hostToNet16. rewrite ByteOrderUtils.repr_host_be.
  rewrite (overwrite_replicate 0) by (simpl; lia).
  change (replicate 0 Byte.x00 ++ [z2b type] ++ ?l) with ([z2b type] ++ l).
  rewrite (overwrite_app 1) by done.
  assert (Hb : length (be_bytes 2 (Z.of_nat (length body))) = 2) by apply length_be_bytes.
  rewrite (overwrite_replicate 0) by (change (length [z2b type]) with 1; lia).
  rewrite Hb.
  change ([z2b type] ++ replicate 0 Byte.x00 ++ ?a ++ ?l) with ((z2b type :: a) ++ l).
  rewrite (overwrite_app 3) by (cbn [length]; lia).
  rewrite (overwrite_replicate 0) by (simpl; lia).
  change (replicate 0 Byte.x00 ++ ?l) with l.
  change ((?x :: ?a) ++ ?l) with (x :: (a ++ l)).
  do 4 f_equal. simpl. lia.
Qed.

Lemma wire_built e type body :
  overwrite 3 body
    (overwrite 1 (ByteOrderUtils.repr e 2 (ByteOrderUtils.hostToNet16 e (Z.of_nat (length body))))
      (overwrite 0 [z2b type] (replicate (HEADER_LENGTH + length body) Byte.x00))) =
  wire type body.
Proof.
  rewrite wire_built_gen by (unfold HEADER_LENGTH; lia).
  unfold wire. do 4 f_equal. unfold HEADER_LENGTH. lia.
Qed.

Lemma serialize_object_inv e m m2 :
  serialize_object e m = Val m2 →
  ∃ m1 type len chars,
    bodySerialize m = Val m1 ∧ _message_type m1 = Some type ∧ _message_len m1 = Some len ∧
    read_chars (body_ m1) (Z.to_nat len) = Val chars ∧
    m2 = setPayload (overwrite 3 chars
           (overwrite 1 (ByteOrderUtils.repr e 2 (ByteOrderUtils.hostToNet16 e len))
             (overwrite 0 [z2b type] (replicate (HEADER_LENGTH + Z.to_nat len) Byte.x00)))) m1.
Proof.
  unfold serialize_object, getMessageType, getMessageLen.
  intros (m1 & H1 & H2)%bind_Val_inv. exists m1.
  destruct (_message_type m1) as [type|]; [|done]. simpl in H2.
  destruct (_message_len m1) as [len|]; [|done]. simpl in H2.
  apply bind_Val_inv in H2 as (chars & H2 & [= <-]). by exists type, len, chars.
Qed.

Context `{!MessageBodyLaws}.

(** A serialised object holds the wire image of its body. *)
Lemma serialize_object_wire e m m2 type :
  serialize_object e m = Val m2 → _message_type m = Some type →
  ∃ m1, bodySerialize m = Val m1 ∧ body_ m2 = body_ m1 ∧ payload_ m2 = wire type (body_ m1).
Proof.
  intros (m1 & ty & len & chars & Hs & Ht & Hl & Hc & ->)%serialize_object_inv Htype.
  exists m1. destruct (bodySerialize_spec _ _ Hs) as (_ & Ht' & Hl' & _).
  rewrite Hl in Hl'. injection Hl' as ->. rewrite Nat2Z.id, read_chars_whole in *.
  injection Hc as <-. rewrite Ht, Htype in Ht'. injection Ht' as <-.
  simpl. split_and!; [done..|]. apply wire_built.
Qed.

Lemma deserialize_header_wire e m type body :
  (0 ≤ type < 256)%Z → (Z.of_nat (length body) < 2 ^ 16)%Z → payload_ m = wire type body →
  deserialize_header e m =
    Val (mk (Some type) (Some (Z.of_nat (length body))) (mt_ m) body (wire type body)).
Proof.
  intros Htype Hlen Hp. unfold deserialize_header. rewrite Hp.
  rewrite decide_False.
  2: { unfold wire. cbn [length]. rewrite !length_app, length_be_bytes, length_replicate.
       unfold HEADER_LENGTH. lia. }
  unfold wire at 1.
  destruct (be_bytes 2 (Z.of_nat (length body))) as [|b1 [|b2 [|]]] eqn:Hb;
    try (apply (f_equal length) in Hb; by rewrite length_be_bytes in Hb).
  cbn [app].
  assert (Hl : ByteOrderUtils.netToHost16 e (ByteOrderUtils.load e [b1; b2]) =
               Z.of_nat (length body)).
  { rewrite <- Hb. unfold ByteOrderUtils.netToHost16.
    rewrite <- (length_be_bytes 2 (Z.of_nat (length body))) at 1.
    rewrite ByteOrderUtils.host_be_load, be_val_bytes. apply Z.mod_small.
    change (256 ^ Z.of_nat 2)%Z with (2 ^ 16)%Z. lia. }
  rewrite Hl, Nat2Z.id, read_chars_prefix. simpl. rewrite decide_True by done.
  rewrite b2z_z2b, Z.mod_small by lia. done.
Qed.

(** What [deserialize] reads of a long enough buffer is decided by its length
    field alone: the body is what the field says, and a field that reaches past
    the terminating zero reads outside the string. *)
Lemma deserialize_header_long e m b0 b1 b2 rest :
  payload_ m = b0 :: b1 :: b2 :: rest → HEADER_LENGTH ≤ length (payload_ m) →
  let len := Z.to_nat (be_val [b1; b2]) in
  deserialize_header e m =
    if decide (len ≤ S (length rest))
    then Val (mk (Some (b2z b0)) (Some (Z.of_nat len)) (mt_ m)
                (take len (rest ++ [Byte.x00])) (payload_ m))
    else Undefined.
Proof.
  intros Hp Hl len. unfold deserialize_header.
  rewrite decide_False by lia. rewrite Hp.
  unfold ByteOrderUtils.netToHost16.
  assert (Hv : ByteOrderUtils.host_be e 2 (ByteOrderUtils.load e [b1; b2]) = be_val [b1; b2])
    by apply (ByteOrderUtils.host_be_load e [b1; b2]).
  rewrite !Hv.
  fold len. pose proof (be_val_range [b1; b2]) as Hr.
  destruct (read_chars rest len) as [body| |] eqn:Hc; unfold read_chars in Hc;
    case_decide; try done.
  injection Hc as <-. cbn [mbind outcome_bind body_].
  rewrite decide_True; [|rewrite length_take, length_app; simpl; lia].
  do 3 f_equal. lia.
Qed.
End Message.
Arguments t : clear implicits.
Arguments MessageBody : clear implicits.
Arguments MessageBodyLaws MT {_}.

(** ** A subclass whose body is a string *)

Module Plain.

#[global] Instance plain : MessageBody bytes := {|
  bodySerialize m :=
    Val (setMessageLen (Z.of_nat (length (mt_ m))) (set_body (mt_ m) m));
  bodyDeserialize m := Val (set_mt (body_ m) m);
|}.

(** The laws hold of bodies of fewer than 2^16 bytes, so the subclass that
    refuses longer ones satisfies them. *)
#[global] Instance checked : MessageBody bytes := {|
  bodySerialize m :=
    if decide (Z.of_nat (length (mt_ m)) < 65536)%Z
    then Val (setMessageLen (Z.of_nat (length (mt_ m))) (set_body (mt_ m) m))
    else Throw "body too long";
  bodyDeserialize m := Val (set_mt (body_ m) m);
|}.

#[global] Instance checked_laws : MessageBodyLaws bytes.
Proof.
  split.
  - simpl. intros m m'. case_decide; [|done]. intros [= <-]. simpl.
    rewrite wrap_small by (unfold in_unsigned; lia). split_and!; [done..|lia].
  - simpl. intros m m' m0. case_decide; [|done]. intros [= <-]. simpl.
    intros -> _. done.
Qed.
End Plain.

End Message.

Import Message.

(** C10. Round trip of the envelope: for every subclass that keeps the laws, the
    bytes a sending object leaves in its payload are read back, by an object of
    any host byte order that receives them, as the same message type, the same
    body, the body's length and the same contents. *)
Theorem message_roundtrip {MT} `{!MessageBody MT} `{!MessageBodyLaws MT}
    (sender_order receiver_order : endian) (m m' received : t MT) type :
  serialize_object sender_order m = Val m' →
  _message_type m = Some type → in_unsigned 8 type →
  payload_ received = payload_ m' →
  deserialize receiver_order received =
    Val (mk (Some type) (Some (Z.of_nat (length (body_ m')))) (mt_ m) (body_ m') (payload_ m')).
Proof.
  intros Hs Ht Hr Hp.
  destruct (serialize_object_wire _ _ _ _ Hs Ht) as (m1 & Hm1 & Hb & Hw).
  destruct (bodySerialize_spec _ _ Hm1) as (_ & _ & Hlen & Hlt).
  unfold deserialize. rewrite Hw in Hp.
  rewrite (deserialize_header_wire _ _ type (body_ m1)); [|done..].
  cbn [mbind outcome_bind].
  rewrite (bodyDeserialize_serialize m m1); [|done| |by rewrite Hlen].
  - unfold set_mt. simpl. by rewrite Hb, Hw.
  - done.
Qed.

Definition plain_message : t bytes := mk (Some 0xd1%Z) None (str "cpu=7") [] [].

Lemma message_roundtrip_witness :
  ∃ m', serialize_object (H := Plain.checked) LittleEndian plain_message = Val m' ∧
    deserialize (H := Plain.checked) BigEndian
      (make_from [] (payload_ m')) =
    Val (mk (Some 0xd1%Z) (Some 5%Z) (str "cpu=7") (str "cpu=7") (payload_ m')).
Proof.
  eexists. split; [vm_compute; reflexivity|].
  match goal with |- context [payload_ ?m'] =>
    apply (@message_roundtrip bytes Plain.checked Plain.checked_laws LittleEndian BigEndian
      plain_message m' _ 0xd1) end.
  - vm_compute. reflexivity.
  - reflexivity.
  - compute_done.
  - reflexivity.
Defined.

(** [deserialize] checks only that the buffer holds [HEADER_LENGTH] bytes: a
    shorter one throws, and for any other the second check never fires: a length
    field of at most the bytes after the header's first three plus the
    terminating zero is obeyed, and a larger one reads outside the string,
    whatever the subclass does.  The length it reports is always the length
    field, in the byte order of the network. *)
Theorem deserialize_reads_past_buffer {MT} `{!MessageBody MT} (e : endian) (m : t MT) :
  (length (payload_ m) < HEADER_LENGTH →
     deserialize e m = Throw "Invalid message data") ∧
  (∀ b0 b1 b2 rest, payload_ m = b0 :: b1 :: b2 :: rest →
     HEADER_LENGTH ≤ length (payload_ m) →
     let len := Z.to_nat (be_val [b1; b2]) in
     (len ≤ S (length rest) →
        deserialize e m =
          bodyDeserialize (mk (Some (b2z b0)) (Some (Z.of_nat len)) (mt_ m)
                             (take len (rest ++ [Byte.x00])) (payload_ m))) ∧
     (S (length rest) < len → deserialize e m = Undefined)).
Proof.
  split.
  - intros Hl. unfold deserialize, deserialize_header. by rewrite decide_True.
  - intros b0 b1 b2 rest Hp Hl len. unfold deserialize.
    rewrite (deserialize_header_long e m b0 b1 b2 rest) by done. fold len.
    split; intros Hlen; [by rewrite decide_True|by rewrite decide_False by lia].
Qed.

Lemma deserialize_reads_past_buffer_witness :
  deserialize (H := Plain.plain) LittleEndian (make_from [] (str "abc")) =
    Throw "Invalid message data" ∧
  deserialize (H := Plain.plain) LittleEndian
    (make_from [] ([Byte.xd1; Byte.x01; Byte.x00] ++ replicate 35 Byte.x41)) = Undefined.
Proof.
  split.
  - apply (@deserialize_reads_past_buffer bytes Plain.plain LittleEndian (make_from [] (str "abc"))).
    vm_compute. lia.
  - eapply (@deserialize_reads_past_buffer bytes Plain.plain LittleEndian
      (make_from [] ([Byte.xd1; Byte.x01; Byte.x00] ++ replicate 35 Byte.x41)));
      [reflexivity|vm_compute; lia..].
Defined.
