(* ===== verification/Float.v ===== *)
(** * What a double and a decimal number mean

    The rational number a finite double stands for, when a double is the one that is
    nearest to a number, and the numbers that JSON text denotes.  This is the
    specification the conversion of [Dtoa] is held to, and refers to none of it. *)

From S2P Require Import Prelude.
From Stdlib Require Import Strings.Byte QArith Qpower Qabs Lqa.

Open Scope Z_scope.

(** ** Powers *)

Definition pow2 (z : Z) : Q := Qpower 2 z.
Definition pow10 (z : Z) : Q := Qpower 10 z.

Lemma pow2_pos z : (0 < pow2 z)%Q.
Proof. by apply Qpower_0_lt. Qed.
Lemma pow10_pos z : (0 < pow10 z)%Q.
Proof. by apply Qpower_0_lt. Qed.
Lemma pow2_add a b : (pow2 (a + b) == pow2 a * pow2 b)%Q.
Proof. by apply Qpower_plus. Qed.
Lemma pow10_add a b : (pow10 (a + b) == pow10 a * pow10 b)%Q.
Proof. by apply Qpower_plus. Qed.
Lemma pow2_Z z : 0 ≤ z → (pow2 z == inject_Z (2 ^ z))%Q.
Proof. intros H. unfold pow2. by rewrite (Zpower_Qpower 2 z H). Qed.
Lemma pow10_Z z : 0 ≤ z → (pow10 z == inject_Z (10 ^ z))%Q.
Proof. intros H. unfold pow10. by rewrite (Zpower_Qpower 10 z H). Qed.

(** A power as a quotient of integers. *)
Lemma pow2_parts z : (pow2 z * inject_Z (2 ^ (Z.max (- z) 0)) == inject_Z (2 ^ (Z.max z 0)))%Q.
Proof.
  rewrite <- !pow2_Z, <- pow2_add by lia. by replace (z + Z.max (- z) 0) with (Z.max z 0) by lia.
Qed.
Lemma pow10_parts z : (pow10 z * inject_Z (10 ^ (Z.max (- z) 0)) == inject_Z (10 ^ (Z.max z 0)))%Q.
Proof.
  rewrite <- !pow10_Z, <- pow10_add by lia. by replace (z + Z.max (- z) 0) with (Z.max z 0) by lia.
Qed.

(** ** Doubles *)

(** The patterns of the finite doubles that are not negative, in increasing order. *)
Definition infinity : Z := 2047 * 2 ^ 52.

(** IEEE 754 binary64: exponent field, fraction, unit in the last place. *)
Definition significand (b : Z) : Z :=
  if b `div` 2 ^ 52 =? 0 then b `mod` 2 ^ 52 else 2 ^ 52 + b `mod` 2 ^ 52.
Definition exponent (b : Z) : Z := Z.max (b `div` 2 ^ 52) 1 - 1075.
(** At [infinity] this is the number that would follow the largest double. *)
Definition double_value (b : Z) : Q := inject_Z (significand b) * pow2 (exponent b).

(** The double [b] is the only one nearest to [q], the number that would follow the
    largest double included: what reading [q] in round-to-nearest gives, without
    overflow. *)
Definition nearest (q : Q) (b : Z) : Prop :=
  0 ≤ b < infinity ∧
  ∀ b', 0 ≤ b' ≤ infinity → b' ≠ b → (Qabs (q - double_value b) < Qabs (q - double_value b'))%Q.

(** Neighbouring doubles are one unit in the last place apart. *)
Lemma double_value_succ b : 0 ≤ b →
  (double_value (b + 1) == double_value b + pow2 (exponent b))%Q.
Proof.
  intros Hb. unfold double_value, significand, exponent.
  assert (Hdiv : b = 2 ^ 52 * (b `div` 2 ^ 52) + b `mod` 2 ^ 52) by (apply Z.div_mod; lia).
  assert (Hmod : 0 ≤ b `mod` 2 ^ 52 < 2 ^ 52) by (apply Z.mod_pos_bound; lia).
  set (E := b `div` 2 ^ 52) in *. set (F := b `mod` 2 ^ 52) in *.
  assert (0 ≤ E) by lia.
  destruct (Z.lt_ge_cases (F + 1) (2 ^ 52)) as [Hlt|Hge].
  - assert (HE : (b + 1) `div` 2 ^ 52 = E) by (symmetry; apply (Z.div_unique_pos _ _ _ (F + 1)); lia).
    assert (HF : (b + 1) `mod` 2 ^ 52 = F + 1) by (symmetry; apply (Z.mod_unique_pos _ _ E (F + 1)); lia).
    rewrite HE, HF. destruct (E =? 0); rewrite ?inject_Z_plus; change (inject_Z 1) with 1%Q; ring.
  - assert (HE : (b + 1) `div` 2 ^ 52 = E + 1) by (symmetry; apply (Z.div_unique_pos _ _ _ 0); lia).
    assert (HF : (b + 1) `mod` 2 ^ 52 = 0) by (symmetry; apply (Z.mod_unique_pos _ _ (E + 1) 0); lia).
    rewrite HE, HF. rewrite (proj2 (Z.eqb_neq (E + 1) 0)) by lia.
    destruct (Z.eqb_spec E 0) as [->|HE0].
    + replace F with (2 ^ 52 - 1) by lia. change (Z.max (0 + 1) 1 - 1075) with (Z.max 0 1 - 1075).
      unfold Z.sub at 2. rewrite !inject_Z_plus. change (inject_Z 0) with 0%Q. change (inject_Z (- (1))) with (-1)%Q. ring.
    + replace F with (2 ^ 52 - 1) by lia. rewrite !Z.max_l by lia.
      replace (E + 1 - 1075) with (1 + (E - 1075)) by lia. rewrite pow2_add.
      change (pow2 1) with (2#1)%Q.
      unfold Z.sub at 2. rewrite !inject_Z_plus. change (inject_Z 0) with 0%Q. change (inject_Z (- (1))) with (-1)%Q. ring.
Qed.

Lemma double_value_lt a b : 0 ≤ a → a < b → (double_value a < double_value b)%Q.
Proof.
  intros Ha Hab.
  assert (Hn : ∀ n, (double_value a < double_value (a + Z.of_nat (S n)))%Q).
  { induction n as [|n IH].
    - pose proof (double_value_succ a Ha). pose proof (pow2_pos (exponent a)).
      change (Z.of_nat 1) with 1. lra.
    - rewrite (Nat2Z.inj_succ (S n)), <- Z.add_1_r, Z.add_assoc.
      pose proof (double_value_succ (a + Z.of_nat (S n)) ltac:(lia)).
      pose proof (pow2_pos (exponent (a + Z.of_nat (S n)))). lra. }
  specialize (Hn (Z.to_nat (b - a - 1))). by replace (a + _) with b in Hn by lia.
Qed.

Lemma double_value_le a b : 0 ≤ a → a ≤ b → (double_value a <= double_value b)%Q.
Proof.
  intros Ha Hab. destruct (decide (a = b)) as [->|]; [lra|].
  apply Qlt_le_weak, double_value_lt; lia.
Qed.

(** Numbers between the middles of the gaps around [b] are nearest to [b]. *)
Lemma nearest_between q b : 0 < b < infinity →
  (double_value (b - 1) + double_value b < 2 * q)%Q →
  (2 * q < double_value b + double_value (b + 1))%Q → nearest q b.
Proof.
  intros Hb Hlo Hhi. split; [lia|]. intros b' Hb' Hne.
  assert (Hcase : b' ≤ b - 1 ∨ b + 1 ≤ b') by lia.
  pose proof (double_value_lt (b - 1) b ltac:(lia) ltac:(lia)).
  pose proof (double_value_lt b (b + 1) ltac:(lia) ltac:(lia)).
  destruct Hcase as [Hlt|Hgt].
  - pose proof (double_value_le b' (b - 1) ltac:(lia) Hlt).
    rewrite (Qabs_pos (q - double_value b')) by lra. apply Qabs_case; lra.
  - pose proof (double_value_le (b + 1) b' ltac:(lia) Hgt).
    rewrite (Qabs_neg (q - double_value b')) by lra. apply Qabs_case; lra.
Qed.

(** *** Finding the nearest double

    Bisection on the patterns, that of the infinity included: 63 halvings are enough
    for [2^63] of them. *)

(** [q] rounds to [b] or more: it is above the middle of the gap under [b], or at the
    middle when [b] is even. *)
Definition above (q : Q) (b : Z) : bool :=
  let middle := (double_value (b - 1) + double_value b)%Q in
  if Z.even b then Qle_bool middle (2 * q) else negb (Qle_bool (2 * q) middle).
Fixpoint bisect (fuel : nat) (q : Q) (lo hi : Z) : Z :=
  match fuel with
  | O => lo
  | S fuel =>
      if hi - lo <=? 1 then lo
      else let mid := (lo + hi) `div` 2 in
           if above q mid then bisect fuel q mid hi else bisect fuel q lo mid
  end.
Definition nearest_double (q : Q) : Z := bisect 63 q 0 (infinity + 1).

Lemma nearest_above q b mid : nearest q b → 0 < mid ≤ infinity → above q mid = true ↔ mid ≤ b.
Proof.
  intros [Hb Hn] Hmid.
  assert (Hgap : ∀ a c, (double_value a < double_value c)%Q →
    (Qabs (q - double_value c) < Qabs (q - double_value a))%Q → (double_value a + double_value c < 2 * q)%Q)
    by (intros a c Hac; do 2 apply Qabs_case; intros; lra).
  assert (Hgap' : ∀ a c, (double_value a < double_value c)%Q →
    (Qabs (q - double_value a) < Qabs (q - double_value c))%Q → (2 * q < double_value a + double_value c)%Q)
    by (intros a c Hac; do 2 apply Qabs_case; intros; lra).
  assert (Hlo : mid ≤ b → (double_value (mid - 1) + double_value mid < 2 * q)%Q).
  { intros H.
    pose proof (double_value_lt (b - 1) b ltac:(lia) ltac:(lia)) as Hlt.
    pose proof (Hgap (b - 1) b Hlt (Hn (b - 1) ltac:(lia) ltac:(lia))).
    pose proof (double_value_le (mid - 1) (b - 1) ltac:(lia) ltac:(lia)).
    pose proof (double_value_le mid b ltac:(lia) ltac:(lia)). lra. }
  assert (Hhi : b < mid → (2 * q < double_value (mid - 1) + double_value mid)%Q).
  { intros Hgt.
    pose proof (double_value_lt b (b + 1) ltac:(lia) ltac:(lia)) as Hlt.
    pose proof (Hgap' b (b + 1) Hlt (Hn (b + 1) ltac:(lia) ltac:(lia))).
    pose proof (double_value_le b (mid - 1) ltac:(lia) ltac:(lia)).
    pose proof (double_value_le (b + 1) mid ltac:(lia) ltac:(lia)). lra. }
  unfold above. set (m := (double_value (mid - 1) + double_value mid)%Q) in *.
  destruct (Z.le_gt_cases mid b) as [Hle|Hgt].
  - specialize (Hlo Hle). split; [done|intros _].
    destruct (Z.even mid); [by apply Qle_bool_iff, Qlt_le_weak|].
    apply negb_true_iff, not_true_iff_false. rewrite Qle_bool_iff. lra.
  - assert (Hq : (2 * q < m)%Q) by (apply Hhi; lia). split; [intros H|lia]. exfalso.
    destruct (Z.even mid); [apply Qle_bool_iff in H; lra|].
    apply negb_true_iff, not_true_iff_false in H. apply H, Qle_bool_iff. lra.
Qed.

Lemma bisect_nearest q b fuel : nearest q b → ∀ lo hi,
  0 ≤ lo ≤ b → b < hi ≤ infinity + 1 → hi - lo ≤ 2 ^ Z.of_nat fuel → bisect fuel q lo hi = b.
Proof.
  intros Hn. induction fuel as [|fuel IH]; intros lo hi Hlo Hhi Hf.
  { change (2 ^ Z.of_nat 0) with 1 in Hf. simpl. lia. }
  cbn [bisect]. rewrite Nat2Z.inj_succ, Z.pow_succ_r in Hf by lia.
  destruct (Z.leb_spec (hi - lo) 1); [lia|].
  assert (Hmid : lo < (lo + hi) `div` 2 < hi) by (Z.div_mod_to_equations; lia).
  pose proof (nearest_above q b ((lo + hi) `div` 2) Hn ltac:(lia)) as Ha.
  destruct (above q _).
  - apply IH; [split; [lia|by apply Ha]|lia|Z.div_mod_to_equations; lia].
  - assert (b < (lo + hi) `div` 2) by (destruct (Z.lt_ge_cases b ((lo + hi) `div` 2)) as [|H']; [done|by apply Ha in H']).
    apply IH; [lia|lia|Z.div_mod_to_equations; lia].
Qed.

Lemma nearest_double_spec q b : nearest q b → nearest_double q = b.
Proof.
  intros Hn. apply (bisect_nearest q b); [done|destruct Hn; lia..|by vm_compute].
Qed.

(** ** Decimal numbers in text *)

(** The value of a list of decimal digits. *)
Definition digits_value (ds : list Z) : Z := foldl (λ v d, 10 * v + d) 0 ds.
Definition is_digit (d : Z) : Prop := 0 ≤ d ≤ 9.

Lemma digits_value_snoc ds d : digits_value (ds ++ [d]) = 10 * digits_value ds + d.
Proof. unfold digits_value. by rewrite foldl_app. Qed.

Lemma digits_value_app ds ds' :
  digits_value (ds ++ ds') = digits_value ds * 10 ^ Z.of_nat (length ds') + digits_value ds'.
Proof.
  induction ds' as [|d ds' IH] using rev_ind; [rewrite app_nil_r; change (digits_value []) with 0; simpl; lia|].
  rewrite app_assoc, !digits_value_snoc, IH, length_app, Nat2Z.inj_add, Z.pow_add_r by lia.
  change (10 ^ Z.of_nat (length [d])) with 10. ring.
Qed.

Lemma digits_value_zeros n : digits_value (replicate n 0) = 0.
Proof. induction n as [|n IH]; [done|]. by rewrite replicate_S_end, digits_value_snoc, IH. Qed.

(** The digits at the start of a text. *)
Fixpoint span_digits (s : bytes) : list Z * bytes :=
  match s with
  | b :: s' =>
      if decide (48 ≤ b2z b ≤ 57) then let '(ds, rest) := span_digits s' in (b2z b - 48 :: ds, rest)
      else ([], s)
  | [] => ([], [])
  end.

Definition read_digits1 (s : bytes) : option (list Z * bytes) :=
  match span_digits s with ([], _) => None | r => Some r end.

(** [number = [ "-" ] int [ frac ] [ exp ]] of RFC 8259: the integer part has no
    leading zero, and every part at least one digit.  The result is
    [(negative, mantissa, exponent)]. *)
Definition read_int (s : bytes) : option (list Z * bytes) :=
  '(ds, rest) ← read_digits1 s;
  match ds with 0 :: _ :: _ => None | _ => Some (ds, rest) end.
Definition read_fraction (s : bytes) : option (list Z * bytes) :=
  match s with
  | b :: s' => if decide (b = "."%byte) then read_digits1 s' else Some ([], s)
  | [] => Some ([], [])
  end.
Definition read_exponent (s : bytes) : option (Z * bytes) :=
  match s with
  | b :: s' =>
      if decide (b = "e"%byte ∨ b = "E"%byte) then
        match s' with
        | b :: s' =>
            if decide (b = "-"%byte) then '(ds, rest) ← read_digits1 s'; Some (- digits_value ds, rest)
            else '(ds, rest) ← read_digits1 (if decide (b = "+"%byte) then s' else b :: s');
                 Some (digits_value ds, rest)
        | [] => None
        end
      else Some (0, s)
  | [] => Some (0, [])
  end.
Definition read_unsigned (s : bytes) : option (Z * Z * bytes) :=
  '(int, s) ← read_int s;
  '(frac, s) ← read_fraction s;
  '(exp, s) ← read_exponent s;
  Some (digits_value (int ++ frac), exp - Z.of_nat (length frac), s).
Definition read_number (s : bytes) : option (bool * Z * Z * bytes) :=
  match s with
  | b :: s' => if decide (b = "-"%byte) then '(m, x, rest) ← read_unsigned s'; Some (true, m, x, rest)
               else '(m, x, rest) ← read_unsigned s; Some (false, m, x, rest)
  | [] => None
  end.

(** The number that mantissa and exponent stand for, and the double a reader makes
    of it; the sign is the top bit. *)
Definition decimal_value (m x : Z) : Q := inject_Z m * pow10 x.
Definition read_double (neg : bool) (m x : Z) : Z :=
  nearest_double (decimal_value m x) + (if neg then 2 ^ 63 else 0).

(** A character that a number could go on with. *)
Definition in_number (b : byte) : bool :=
  bool_decide (48 ≤ b2z b ≤ 57) || bool_decide (b = "."%byte ∨ b = "e"%byte ∨ b = "E"%byte).
Definition ends_number (s : bytes) : Prop := match s with b :: _ => in_number b = false | [] => True end.

Lemma ends_number_cons b s : ends_number (b :: s) →
  ¬ 48 ≤ b2z b ≤ 57 ∧ b ≠ "."%byte ∧ b ≠ "e"%byte ∧ b ≠ "E"%byte.
Proof.
  simpl. unfold in_number. intros [H1%bool_decide_eq_false H2%bool_decide_eq_false]%orb_false_iff. tauto.
Qed.

(** *** Reading digits back *)

(** ['0' + d]. *)
Definition digit_char (d : Z) : byte := z2b (48 + d).

Definition no_digit (s : bytes) : Prop :=
  match s with b :: _ => ¬ 48 ≤ b2z b ≤ 57 | [] => True end.

Lemma digit_char_value d : is_digit d → b2z (digit_char d) = 48 + d.
Proof. intros Hd. unfold digit_char. rewrite b2z_z2b, Z.mod_small by (unfold is_digit in Hd; lia). done. Qed.

Lemma span_digits_chars ds rest : Forall is_digit ds → no_digit rest →
  span_digits ((digit_char <$> ds) ++ rest) = (ds, rest).
Proof.
  intros Hds Hrest. induction Hds as [|d ds Hd _ IH].
  - destruct rest as [|b rest]; [done|]. simpl in *. by rewrite decide_False.
  - rewrite fmap_cons. cbn [app span_digits]. rewrite digit_char_value by done.
    unfold is_digit in Hd. rewrite decide_True by lia. rewrite IH. f_equal. f_equal. lia.
Qed.

Lemma read_digits1_chars ds rest : Forall is_digit ds → ds ≠ [] → no_digit rest →
  read_digits1 ((digit_char <$> ds) ++ rest) = Some (ds, rest).
Proof. intros Hds Hne Hrest. unfold read_digits1. rewrite span_digits_chars by done. by destruct ds. Qed.

(** A first digit that is not 0. *)
Definition leading (ds : list Z) : Prop := match ds with [] => True | d :: _ => 0 < d end.
Definition digits_ok (ds : list Z) : Prop := Forall is_digit ds ∧ leading ds.

Lemma read_int_chars ds rest : digits_ok ds ∨ ds = [0] → ds ≠ [] → no_digit rest →
  read_int ((digit_char <$> ds) ++ rest) = Some (ds, rest).
Proof.
  intros Hds Hne Hrest. unfold read_int.
  assert (Forall is_digit ds) by (destruct Hds as [[H _]| ->]; [done|repeat constructor; done]).
  rewrite read_digits1_chars by done. simpl.
  destruct ds as [|[|p|p] [|d' ds]]; try done. destruct Hds as [[_ Hl]|Heq]; [by simpl in Hl; lia|done].
Qed.

Lemma read_fraction_chars ds rest : Forall is_digit ds → ds ≠ [] → no_digit rest →
  read_fraction (str "." ++ (digit_char <$> ds) ++ rest) = Some (ds, rest).
Proof. intros. simpl. by apply read_digits1_chars. Qed.
