(* ===== verification/Dtoa.v ===== *)
(** * Floating-point numbers as text ([nlohmann/json.hpp], [detail::to_chars])

    The Grisu2 conversion of the JSON library: [diyfp] arithmetic on 64-bit
    significands, the cached powers of ten, the digit generation and the
    printf-like formatting.  A [double] is its 64-bit pattern.

    [JSON_ASSERT] is [assert]: the functions have no meaning past one that
    fails, so a failing assertion is [Undefined] here. *)

From S2P Require Import Prelude.

Open Scope Z_scope.

(** [JSON_ASSERT]. *)
Definition JSON_ASSERT (b : bool) : outcome () := if b then Val () else Undefined.

Module Dtoa.

(** [struct diyfp]: [f * 2^e]. *)
Record diyfp := Diyfp { f : Z; e : Z }.

Definition sub (x y : diyfp) : outcome diyfp :=
  JSON_ASSERT (e x =? e y);;
  JSON_ASSERT (f y <=? f x);;
  Val (Diyfp (u64 (f x - f y)) (e x)).

Definition mul (x y : diyfp) : diyfp :=
  let u_lo := Z.land (f x) 0xFFFFFFFF in
  let u_hi := Z.shiftr (f x) 32 in
  let v_lo := Z.land (f y) 0xFFFFFFFF in
  let v_hi := Z.shiftr (f y) 32 in
  let p0 := u64 (u_lo * v_lo) in
  let p1 := u64 (u_lo * v_hi) in
  let p2 := u64 (u_hi * v_lo) in
  let p3 := u64 (u_hi * v_hi) in
  let p0_hi := Z.shiftr p0 32 in
  let p1_lo := Z.land p1 0xFFFFFFFF in
  let p1_hi := Z.shiftr p1 32 in
  let p2_lo := Z.land p2 0xFFFFFFFF in
  let p2_hi := Z.shiftr p2 32 in
  let Q := u64 (p0_hi + p1_lo + p2_lo) in
  let Q := u64 (Q + Z.shiftl 1 (64 - 32 - 1)) in
  let h := u64 (p3 + p2_hi + p1_hi + Z.shiftr Q 32) in
  Diyfp h (e x + e y + 64).

(** [while ((x.f >> 63) == 0)]: at most 63 shifts reach the top bit of a
    significand that is not zero. *)
Fixpoint normalize_loop (fuel : nat) (x : diyfp) : diyfp :=
  match fuel with
  | O => x
  | S fuel =>
      if Z.shiftr (f x) 63 =? 0
      then normalize_loop fuel (Diyfp (u64 (Z.shiftl (f x) 1)) (e x - 1))
      else x
  end.

Definition normalize (x : diyfp) : outcome diyfp :=
  JSON_ASSERT (negb (f x =? 0));; Val (normalize_loop 64 x).

Definition normalize_to (x : diyfp) (target_exponent : Z) : outcome diyfp :=
  let delta := e x - target_exponent in
  JSON_ASSERT ((0 <=? delta) && (delta <? 64));;
  JSON_ASSERT (Z.shiftr (u64 (Z.shiftl (f x) delta)) delta =? f x);;
  Val (Diyfp (u64 (Z.shiftl (f x) delta)) target_exponent).

(** ** Doubles *)

Definition kPrecision : Z := 53.
Definition kBias : Z := 1024 - 1 + (kPrecision - 1).
Definition kMinExp : Z := 1 - kBias.
Definition kHiddenBit : Z := Z.shiftl 1 (kPrecision - 1).

Definition signbit (bits : Z) : bool := Z.testbit bits 63.
(** The exponent field, without the sign. *)
Definition exponent_bits (bits : Z) : Z := Z.land (Z.shiftr bits 52) 0x7FF.
Definition isfinite (bits : Z) : bool := negb (exponent_bits bits =? 0x7FF).
(** [value == 0] holds of both zeros. *)
Definition is_zero (bits : Z) : bool := Z.land bits (2 ^ 63 - 1) =? 0.
(** [-value] flips the sign. *)
Definition negate (bits : Z) : Z := Z.lxor bits (2 ^ 63).

Record boundaries := Boundaries { w : diyfp; minus : diyfp; plus : diyfp }.

Definition compute_boundaries (bits : Z) : outcome boundaries :=
  JSON_ASSERT (isfinite bits);;
  JSON_ASSERT (negb (signbit bits) && negb (is_zero bits));;
  let E := Z.shiftr bits (kPrecision - 1) in
  let F := Z.land bits (kHiddenBit - 1) in
  let v := if E =? 0 then Diyfp F kMinExp else Diyfp (u64 (F + kHiddenBit)) (E - kBias) in
  let lower_boundary_is_closer := (F =? 0) && (1 <? E) in
  let m_plus := Diyfp (u64 (2 * f v + 1)) (e v - 1) in
  let m_minus :=
    if lower_boundary_is_closer then Diyfp (u64 (4 * f v - 1)) (e v - 2)
    else Diyfp (u64 (2 * f v - 1)) (e v - 1) in
  w_plus ← normalize m_plus;
  w_minus ← normalize_to m_minus (e w_plus);
  v ← normalize v;
  Val (Boundaries v w_minus w_plus).

(** ** Cached powers of ten *)

Definition kAlpha : Z := -60.
Definition kGamma : Z := -32.

(** [struct cached_power]: [f * 2^e] is close to [10^k]. *)
Record cached_power := Cached_power { cf : Z; ce : Z; ck : Z }.

Definition kCachedPowersMinDecExp : Z := -300.
Definition kCachedPowersDecStep : Z := 8.

Definition kCachedPowers : list cached_power := [
  Cached_power 0xAB70FE17C79AC6CA (-1060) (-300);
  Cached_power 0xFF77B1FCBEBCDC4F (-1034) (-292);
  Cached_power 0xBE5691EF416BD60C (-1007) (-284);
  Cached_power 0x8DD01FAD907FFC3C (-980) (-276);
  Cached_power 0xD3515C2831559A83 (-954) (-268);
  Cached_power 0x9D71AC8FADA6C9B5 (-927) (-260);
  Cached_power 0xEA9C227723EE8BCB (-901) (-252);
  Cached_power 0xAECC49914078536D (-874) (-244);
  Cached_power 0x823C12795DB6CE57 (-847) (-236);
  Cached_power 0xC21094364DFB5637 (-821) (-228);
  Cached_power 0x9096EA6F3848984F (-794) (-220);
  Cached_power 0xD77485CB25823AC7 (-768) (-212);
  Cached_power 0xA086CFCD97BF97F4 (-741) (-204);
  Cached_power 0xEF340A98172AACE5 (-715) (-196);
  Cached_power 0xB23867FB2A35B28E (-688) (-188);
  Cached_power 0x84C8D4DFD2C63F3B (-661) (-180);
  Cached_power 0xC5DD44271AD3CDBA (-635) (-172);
  Cached_power 0x936B9FCEBB25C996 (-608) (-164);
  Cached_power 0xDBAC6C247D62A584 (-582) (-156);
  Cached_power 0xA3AB66580D5FDAF6 (-555) (-148);
  Cached_power 0xF3E2F893DEC3F126 (-529) (-140);
  Cached_power 0xB5B5ADA8AAFF80B8 (-502) (-132);
  Cached_power 0x87625F056C7C4A8B (-475) (-124);
  Cached_power 0xC9BCFF6034C13053 (-449) (-116);
  Cached_power 0x964E858C91BA2655 (-422) (-108);
  Cached_power 0xDFF9772470297EBD (-396) (-100);
  Cached_power 0xA6DFBD9FB8E5B88F (-369) (-92);
  Cached_power 0xF8A95FCF88747D94 (-343) (-84);
  Cached_power 0xB94470938FA89BCF (-316) (-76);
  Cached_power 0x8A08F0F8BF0F156B (-289) (-68);
  Cached_power 0xCDB02555653131B6 (-263) (-60);
  Cached_power 0x993FE2C6D07B7FAC (-236) (-52);
  Cached_power 0xE45C10C42A2B3B06 (-210) (-44);
  Cached_power 0xAA242499697392D3 (-183) (-36);
  Cached_power 0xFD87B5F28300CA0E (-157) (-28);
  Cached_power 0xBCE5086492111AEB (-130) (-20);
  Cached_power 0x8CBCCC096F5088CC (-103) (-12);
  Cached_power 0xD1B71758E219652C (-77) (-4);
  Cached_power 0x9C40000000000000 (-50) (4);
  Cached_power 0xE8D4A51000000000 (-24) (12);
  Cached_power 0xAD78EBC5AC620000 (3) (20);
  Cached_power 0x813F3978F8940984 (30) (28);
  Cached_power 0xC097CE7BC90715B3 (56) (36);
  Cached_power 0x8F7E32CE7BEA5C70 (83) (44);
  Cached_power 0xD5D238A4ABE98068 (109) (52);
  Cached_power 0x9F4F2726179A2245 (136) (60);
  Cached_power 0xED63A231D4C4FB27 (162) (68);
  Cached_power 0xB0DE65388CC8ADA8 (189) (76);
  Cached_power 0x83C7088E1AAB65DB (216) (84);
  Cached_power 0xC45D1DF942711D9A (242) (92);
  Cached_power 0x924D692CA61BE758 (269) (100);
  Cached_power 0xDA01EE641A708DEA (295) (108);
  Cached_power 0xA26DA3999AEF774A (322) (116);
  Cached_power 0xF209787BB47D6B85 (348) (124);
  Cached_power 0xB454E4A179DD1877 (375) (132);
  Cached_power 0x865B86925B9BC5C2 (402) (140);
  Cached_power 0xC83553C5C8965D3D (428) (148);
  Cached_power 0x952AB45CFA97A0B3 (455) (156);
  Cached_power 0xDE469FBD99A05FE3 (481) (164);
  Cached_power 0xA59BC234DB398C25 (508) (172);
  Cached_power 0xF6C69A72A3989F5C (534) (180);
  Cached_power 0xB7DCBF5354E9BECE (561) (188);
  Cached_power 0x88FCF317F22241E2 (588) (196);
  Cached_power 0xCC20CE9BD35C78A5 (614) (204);
  Cached_power 0x98165AF37B2153DF (641) (212);
  Cached_power 0xE2A0B5DC971F303A (667) (220);
  Cached_power 0xA8D9D1535CE3B396 (694) (228);
  Cached_power 0xFB9B7CD9A4A7443C (720) (236);
  Cached_power 0xBB764C4CA7A44410 (747) (244);
  Cached_power 0x8BAB8EEFB6409C1A (774) (252);
  Cached_power 0xD01FEF10A657842C (800) (260);
  Cached_power 0x9B10A4E5E9913129 (827) (268);
  Cached_power 0xE7109BFBA19C0C9D (853) (276);
  Cached_power 0xAC2820D9623BF429 (880) (284);
  Cached_power 0x80444B5E7AA7CF85 (907) (292);
  Cached_power 0xBF21E44003ACDD2D (933) (300);
  Cached_power 0x8E679C2F5E44FF8F (960) (308);
  Cached_power 0xD433179D9C8CB841 (986) (316);
  Cached_power 0x9E19DB92B4E31BA9 (1013) (324)
].

(** [int] division truncates. *)
Definition get_cached_power_for_binary_exponent (e : Z) : outcome cached_power :=
  JSON_ASSERT ((-1500 <=? e) && (e <=? 1500));;
  let f := kAlpha - e - 1 in
  let k := Z.quot (f * 78913) (Z.shiftl 1 18) + Z.b2z (0 <? f) in
  let index :=
    Z.quot (- kCachedPowersMinDecExp + k + (kCachedPowersDecStep - 1)) kCachedPowersDecStep in
  JSON_ASSERT (0 <=? index);;
  match kCachedPowers !! Z.to_nat index with
  | Some cached =>
      JSON_ASSERT (kAlpha <=? ce cached + e + 64);;
      JSON_ASSERT (ce cached + e + 64 <=? kGamma);;
      Val cached
  | None => Undefined
  end.

(** ** Digit generation *)

(** Returns [k] and [pow10]. *)
Definition find_largest_pow10 (n : Z) : nat * Z :=
  if 1000000000 <=? n then (10%nat, 1000000000)
  else if 100000000 <=? n then (9%nat, 100000000)
  else if 10000000 <=? n then (8%nat, 10000000)
  else if 1000000 <=? n then (7%nat, 1000000)
  else if 100000 <=? n then (6%nat, 100000)
  else if 10000 <=? n then (5%nat, 10000)
  else if 1000 <=? n then (4%nat, 1000)
  else if 100 <=? n then (3%nat, 100)
  else if 10 <=? n then (2%nat, 10)
  else (1%nat, 1).

(** The loop of [grisu2_round] on the last digit of the buffer.  Each round
    lowers a digit that is not 0, so ten rounds are more than any digit has. *)
Fixpoint round_loop (fuel : nat) (last dist delta rest ten_k : Z) : outcome Z :=
  if (rest <? dist) && (ten_k <=? u64 (delta - rest)) &&
     ((u64 (rest + ten_k) <? dist) || (u64 (u64 (rest + ten_k) - dist) <? u64 (dist - rest)))
  then match fuel with
       | O => Undefined
       | S fuel =>
           JSON_ASSERT (negb (last =? 0));;
           round_loop fuel (last - 1) dist delta (u64 (rest + ten_k)) ten_k
       end
  else Val last.

(** The buffer is the list of the digits' values. *)
Definition grisu2_round (buf : list Z) (dist delta rest ten_k : Z) : outcome (list Z) :=
  JSON_ASSERT (1 <=? Z.of_nat (length buf));;
  JSON_ASSERT (dist <=? delta);;
  JSON_ASSERT (rest <=? delta);;
  JSON_ASSERT (0 <? ten_k);;
  match last buf with
  | Some d =>
      d ← round_loop 10 d dist delta rest ten_k;
      Val (take (length buf - 1) buf ++ [d])
  | None => Undefined
  end.

(** The digits of the integral part: either the digits are enough, and the
    result is final, or they are used up. *)
Fixpoint integral_digits (n : nat) (buffer : list Z) (p1 pow10 p2 delta dist shift : Z)
    : outcome (list Z * Z + list Z) :=
  match n with
  | O => Val (inr buffer)
  | S n =>
      let d := p1 `div` pow10 in
      let r := p1 `mod` pow10 in
      JSON_ASSERT (d <=? 9);;
      let buffer := buffer ++ [d] in
      let p1 := r in
      let rest := u64 (u64 (Z.shiftl p1 shift) + p2) in
      if rest <=? delta then
        let ten_n := u64 (Z.shiftl pow10 shift) in
        buffer ← grisu2_round buffer dist delta rest ten_n;
        Val (inl (buffer, Z.of_nat n))
      else integral_digits n buffer p1 (pow10 `div` 10) p2 delta dist shift
  end.

(** The digits of the fractional part; [m] of them have been generated. *)
Fixpoint fractional_digits (fuel : nat) (buffer : list Z) (p2 delta dist m : Z) (one : diyfp)
    : outcome (list Z * Z) :=
  match fuel with
  | O => Undefined
  | S fuel =>
      JSON_ASSERT (p2 <=? (2 ^ 64 - 1) `div` 10);;
      let p2 := u64 (p2 * 10) in
      let d := Z.shiftr p2 (- e one) in
      let r := Z.land p2 (f one - 1) in
      JSON_ASSERT (d <=? 9);;
      let buffer := buffer ++ [d] in
      let p2 := r in
      let m := m + 1 in
      let delta := u64 (delta * 10) in
      let dist := u64 (dist * 10) in
      if p2 <=? delta then
        buffer ← grisu2_round buffer dist delta p2 (f one);
        Val (buffer, m)
      else fractional_digits fuel buffer p2 delta dist m one
  end.

(** Rounds of the fractional loop: a double never takes more than seventeen
    digits. *)
Definition max_digits10 : nat := 17.

Definition grisu2_digit_gen (decimal_exponent : Z) (M_minus w M_plus : diyfp)
    : outcome (list Z * Z) :=
  JSON_ASSERT (kAlpha <=? e M_plus);;
  JSON_ASSERT (e M_plus <=? kGamma);;
  delta ← f <$> sub M_plus M_minus;
  dist ← f <$> sub M_plus w;
  let one := Diyfp (Z.shiftl 1 (- e M_plus)) (e M_plus) in
  let p1 := u32 (Z.shiftr (f M_plus) (- e one)) in
  let p2 := Z.land (f M_plus) (f one - 1) in
  JSON_ASSERT (0 <? p1);;
  let '(k, pow10) := find_largest_pow10 p1 in
  res ← integral_digits k [] p1 pow10 p2 delta dist (- e one);
  match res with
  | inl (buffer, n) => Val (buffer, decimal_exponent + n)
  | inr buffer =>
      JSON_ASSERT (delta <? p2);;
      '(buffer, m) ← fractional_digits max_digits10 buffer p2 delta dist 0 one;
      Val (buffer, decimal_exponent - m)
  end.

Definition grisu2_scaled (m_minus v m_plus : diyfp) : outcome (list Z * Z) :=
  JSON_ASSERT (e m_plus =? e m_minus);;
  JSON_ASSERT (e m_plus =? e v);;
  cached ← get_cached_power_for_binary_exponent (e m_plus);
  let c_minus_k := Diyfp (cf cached) (ce cached) in
  let w := mul v c_minus_k in
  let w_minus := mul m_minus c_minus_k in
  let w_plus := mul m_plus c_minus_k in
  let M_minus := Diyfp (u64 (f w_minus + 1)) (e w_minus) in
  let M_plus := Diyfp (u64 (f w_plus - 1)) (e w_plus) in
  grisu2_digit_gen (- ck cached) M_minus w M_plus.

(** The digits of [value] and the decimal exponent of the last one. *)
Definition grisu2 (bits : Z) : outcome (list Z * Z) :=
  b ← compute_boundaries bits; grisu2_scaled (minus b) (w b) (plus b).

(** ** Formatting *)

(** ['0' + d]. *)
Definition digit (d : Z) : byte := z2b (48 + d).

Definition append_exponent (e : Z) : outcome bytes :=
  JSON_ASSERT (-1000 <? e);;
  JSON_ASSERT (e <? 1000);;
  let '(sign, e) := if e <? 0 then (str "-", - e) else (str "+", e) in
  let k := e in
  Val (sign ++
    if k <? 10 then [digit 0; digit k]
    else if k <? 100 then [digit (k `div` 10); digit (k `mod` 10)]
    else [digit (k `div` 100); digit (k `mod` 100 `div` 10); digit (k `mod` 100 `mod` 10)]).

Definition format_buffer (buf : bytes) (decimal_exponent min_exp max_exp : Z) : outcome bytes :=
  JSON_ASSERT (min_exp <? 0);;
  JSON_ASSERT (0 <? max_exp);;
  let k := Z.of_nat (length buf) in
  let n := k + decimal_exponent in
  if (k <=? n) && (n <=? max_exp) then
    Val (buf ++ replicate (Z.to_nat (n - k)) (digit 0) ++ str ".0")
  else if (0 <? n) && (n <=? max_exp) then
    JSON_ASSERT (n <? k);;
    Val (take (Z.to_nat n) buf ++ str "." ++ drop (Z.to_nat n) buf)
  else if (min_exp <? n) && (n <=? 0) then
    Val (str "0." ++ replicate (Z.to_nat (- n)) (digit 0) ++ buf)
  else
    exponent ← append_exponent (n - 1);
    Val ((if k =? 1 then buf else take 1 buf ++ str "." ++ drop 1 buf) ++ str "e" ++ exponent).

Definition to_chars (bits : Z) : outcome bytes :=
  JSON_ASSERT (isfinite bits);;
  let '(sign, value) := if signbit bits then (str "-", negate bits) else ([], bits) in
  if is_zero value then Val (sign ++ str "0.0")
  else
    '(digits, decimal_exponent) ← grisu2 value;
    JSON_ASSERT (Z.of_nat (length digits) <=? Z.of_nat max_digits10);;
    text ← format_buffer (digit <$> digits) decimal_exponent (-4) 15;
    Val (sign ++ text).

End Dtoa.

(** Known conversions: 1.0, 0.1, -2.5, 1e22, 5e-324 and the largest double. *)
Example to_chars_one : Dtoa.to_chars 0x3FF0000000000000 = Val (str "1.0").
Proof. vm_compute. reflexivity. Qed.
Example to_chars_tenth : Dtoa.to_chars 0x3FB999999999999A = Val (str "0.1").
Proof. vm_compute. reflexivity. Qed.
Example to_chars_negative : Dtoa.to_chars 0xC004000000000000 = Val (str "-2.5").
Proof. vm_compute. reflexivity. Qed.
Example to_chars_denormal : Dtoa.to_chars 1 = Val (str "5e-324").
Proof. vm_compute. reflexivity. Qed.
Example to_chars_max : Dtoa.to_chars 0x7FEFFFFFFFFFFFFF = Val (str "1.7976931348623157e+308").
Proof. vm_compute. reflexivity. Qed.
