(* ===== verification/Grisu.v ===== *)
(** * The digits of a double ([nlohmann/json.hpp], [detail::dtoa_impl])

    What the functions of [Dtoa] compute: no assertion fails on a finite double,
    and the decimal number they write lies strictly inside the interval of numbers
    that are nearer to the double than to any other. *)

From S2P Require Import Prelude Float Dtoa.
From Stdlib Require Import Strings.Byte.

Open Scope Z_scope.

Import Dtoa.

(** ** Generating digits

    All of this is about integers: [M] is the upper bound in units of [2^-s] of the
    scaled interval, [delta] its width. *)

Lemma round_loop_spec fuel : ∀ last dist delta rest ten_k,
  0 ≤ last < Z.of_nat fuel → 0 ≤ dist ≤ delta → delta < 2 ^ 64 → 0 ≤ rest ≤ delta →
  0 < ten_k → delta < rest + last * ten_k →
  ∃ t, 0 ≤ t ≤ last ∧ rest + t * ten_k ≤ delta ∧
    round_loop fuel last dist delta rest ten_k = Val (last - t).
Proof.
  induction fuel as [|fuel IH]; intros last dist delta rest ten_k Hl Hd Hdelta Hr Hk Hlast; [lia|].
  cbn [round_loop]. rewrite (u64_small (delta - rest)) by lia.
  destruct (_ && _ && _) eqn:E; [|exists 0; split_and!; [lia..|f_equal; lia]].
  apply andb_prop in E as [E _]. apply andb_prop in E as [E1 E2].
  apply Z.ltb_lt in E1. apply Z.leb_le in E2.
  assert (last ≠ 0) as Hne by (intros ->; lia).
  rewrite (proj2 (Z.eqb_neq last 0) Hne). simpl.
  rewrite u64_small by lia.
  destruct (IH (last - 1) dist delta (rest + ten_k) ten_k) as (t & Ht & Hrest & ->); [lia..|].
  exists (t + 1). split_and!; [lia|lia|lia|f_equal; lia].
Qed.

Lemma JSON_ASSERT_true b : b = true → JSON_ASSERT b = Val ().
Proof. by intros ->. Qed.

Lemma grisu2_round_spec buf d dist delta rest ten_k :
  is_digit d → 0 ≤ dist ≤ delta → delta < 2 ^ 64 → 0 ≤ rest ≤ delta →
  0 < ten_k → delta < rest + d * ten_k →
  ∃ t, 0 ≤ t ≤ d ∧ rest + t * ten_k ≤ delta ∧
    grisu2_round (buf ++ [d]) dist delta rest ten_k = Val (buf ++ [d - t]).
Proof.
  intros Hd Hdist Hdelta Hrest Hk Hprev. unfold grisu2_round. rewrite length_app, last_snoc.
  rewrite !JSON_ASSERT_true by (apply Z.leb_le || apply Z.ltb_lt; simpl; lia). cbn [mbind outcome_bind].
  unfold is_digit in Hd.
  destruct (round_loop_spec 10 d dist delta rest ten_k) as (t & Ht & Hr & ->); [lia..|].
  exists t. split_and!; [lia..|]. cbn [mbind outcome_bind]. f_equal. f_equal.
  apply take_app_length'. simpl. lia.
Qed.

Lemma digits_ok_snoc ds d : digits_ok ds → is_digit d → (ds = [] → 0 < d) → digits_ok (ds ++ [d]).
Proof.
  intros [H1 H2] Hd Hnil. split; [by apply Forall_app_2; [|apply Forall_singleton]|].
  destruct ds; [by apply Hnil|done].
Qed.

(** What digit generation returns: [ds] and the exponent [n] of its last digit, with
    [ds * 10^n] in [[M - delta, M]] when counted in units of [2^-s]. *)
Definition within (M delta s : Z) (ds : list Z) (n : Z) : Prop :=
  let v := digits_value ds * 10 ^ (Z.max n 0) * 2 ^ s in
  (M - delta) * 10 ^ (Z.max (- n) 0) ≤ v ≤ M * 10 ^ (Z.max (- n) 0).

(** Taking off the first of the digits left: [v] are the digits before it, [P] its
    unit. *)
Lemma first_digit M X p2 delta v P p1 : 0 < X → 0 < P → 0 ≤ p1 < 10 * P → 0 ≤ v → 0 ≤ p2 →
  M = (v * (10 * P) + p1) * X + p2 → delta < p1 * X + p2 →
  let d := p1 `div` P in
  let r := p1 `mod` P in
  p1 = P * d + r ∧ 0 ≤ r < P ∧ is_digit d ∧ 0 ≤ r * X ∧ r * X + p2 ≤ M ∧
  M = ((10 * v + d) * P + r) * X + p2 ∧ delta < (r * X + p2) + d * (P * X).
Proof.
  intros HX HP Hp1 Hv Hp2 HM Hprev. cbv zeta.
  assert (Hdiv : p1 = P * (p1 `div` P) + p1 `mod` P) by (apply Z.div_mod; lia).
  assert (Hr : 0 ≤ p1 `mod` P < P) by (apply Z.mod_pos_bound; lia).
  set (d := p1 `div` P) in *. set (r := p1 `mod` P) in *. clearbody d r.
  assert (Hd : is_digit d) by (unfold is_digit; nia). unfold is_digit in Hd.
  assert (Hr2 : 0 ≤ r * X) by (apply Z.mul_nonneg_nonneg; lia).
  assert (HMd : M = ((10 * v + d) * P + r) * X + p2) by (rewrite HM, Hdiv; ring).
  split_and!; [done|lia|lia|done|done| |done|].
  - rewrite HMd. replace (((10 * v + d) * P + r) * X + p2) with ((10 * v + d) * P * X + (r * X + p2)) by ring.
    assert (0 ≤ (10 * v + d) * P * X) by (apply Z.mul_nonneg_nonneg; [apply Z.mul_nonneg_nonneg|]; lia). lia.
  - replace (r * X + p2 + d * (P * X)) with ((P * d + r) * X + p2) by ring. by rewrite <- Hdiv.
Qed.

Section integral.
Context (M s p2 delta dist : Z).
Hypothesis (Hs : 0 ≤ s) (HM : M < 2 ^ 64) (Hp2 : 0 ≤ p2 < 2 ^ s).
Hypothesis (Hdist : 0 ≤ dist ≤ delta) (Hdelta : delta < M).

Lemma integral_digits_spec n : ∀ buffer p1,
  0 ≤ p1 < 10 ^ Z.of_nat n → M = (digits_value buffer * 10 ^ Z.of_nat n + p1) * 2 ^ s + p2 →
  delta < p1 * 2 ^ s + p2 → (n ≠ 0%nat → 10 ^ (Z.of_nat n - 1) * 2 ^ s < 2 ^ 64) →
  0 ≤ digits_value buffer → digits_ok buffer →
  (buffer = [] → n ≠ 0%nat → 10 ^ (Z.of_nat n - 1) ≤ p1) →
  (∃ ds m, (m < n)%nat ∧
     integral_digits n buffer p1 (10 ^ (Z.of_nat n - 1)) p2 delta dist s = Val (inl (ds, Z.of_nat m)) ∧
     length ds = (length buffer + (n - m))%nat ∧ digits_ok ds ∧ delta < 10 ^ (Z.of_nat m + 1) * 2 ^ s ∧
     M - delta ≤ digits_value ds * 10 ^ Z.of_nat m * 2 ^ s ≤ M) ∨
  (∃ ds, integral_digits n buffer p1 (10 ^ (Z.of_nat n - 1)) p2 delta dist s = Val (inr ds) ∧
     length ds = (length buffer + n)%nat ∧ digits_ok ds ∧ delta < p2 ∧
     M = digits_value ds * 2 ^ s + p2).
Proof.
  assert (H2 : 0 < 2 ^ s) by (apply Z.pow_pos_nonneg; lia).
  induction n as [|n IH]; intros buffer p1 Hp1 HMeq Hprev Hov Hval Hok Hfirst.
  { right. exists buffer. change (10 ^ Z.of_nat 0) with 1 in *. replace p1 with 0 in * by lia.
    cbn [integral_digits]. split_and!; [done|lia|done|lia|]. rewrite HMeq. f_equal. f_equal. lia. }
  cbn [integral_digits]. replace (Z.of_nat (S n) - 1) with (Z.of_nat n) in * by lia.
  specialize (Hov ltac:(done)).
  assert (H10 : 0 < 10 ^ Z.of_nat n) by (apply Z.pow_pos_nonneg; lia).
  assert (Hpow : 10 ^ Z.of_nat (S n) = 10 * 10 ^ Z.of_nat n)
    by (rewrite Nat2Z.inj_succ, Z.pow_succ_r by lia; done).
  rewrite Hpow in Hp1, HMeq.
  set (P := 10 ^ Z.of_nat n) in *.
  destruct (first_digit M (2 ^ s) p2 delta (digits_value buffer) P p1)
    as (Hdiv & Hr & Hd & Hr2 & Hrest & HMnew & Hprev'); [done|done|lia|done|lia|done|done|].
  set (d := p1 `div` P) in *. set (r := p1 `mod` P) in *. rewrite <- digits_value_snoc in HMnew.
  assert (Hd0 : buffer = [] → 0 < d) by (intros Hb; specialize (Hfirst Hb ltac:(done)); nia).
  rewrite JSON_ASSERT_true by (apply Z.leb_le; unfold is_digit in Hd; lia). cbn [mbind outcome_bind].
  rewrite !Z.shiftl_mul_pow2 by lia.
  rewrite (u64_small (r * 2 ^ s)) by lia. rewrite (u64_small (r * 2 ^ s + p2)) by lia.
  destruct (Z.leb_spec (r * 2 ^ s + p2) delta) as [Hle|Hgt].
  - left. rewrite (u64_small (P * 2 ^ s)) by nia.
    destruct (grisu2_round_spec buffer d dist delta (r * 2 ^ s + p2) (P * 2 ^ s))
      as (t & Ht & Hr' & ->); [done|done|lia|lia|nia|done|].
    cbn [mbind outcome_bind]. exists (buffer ++ [d - t]), n. rewrite digits_value_snoc.
    rewrite digits_value_snoc in HMnew. fold P.
    assert (Hd1 : delta < 10 ^ (Z.of_nat n + 1) * 2 ^ s).
    { rewrite Z.pow_add_r by lia. fold P. change (10 ^ 1) with 10. nia. }
    split_and!; [lia|done|rewrite length_app; simpl; lia| |done|nia|nia].
    apply digits_ok_snoc; [done|unfold is_digit in *; lia|].
    intros ->. change (digits_value []) with 0 in *. nia.
  - replace (P `div` 10) with (10 ^ (Z.of_nat n - 1)).
    2: { subst P. destruct n as [|n]; [done|].
         rewrite Nat2Z.inj_succ, Z.pow_succ_r, Z.mul_comm, Z.div_mul by lia. f_equal. lia. }
    assert (Hov' : n ≠ 0%nat → 10 ^ (Z.of_nat n - 1) * 2 ^ s < 2 ^ 64).
    { intros Hn. assert (10 ^ (Z.of_nat n - 1) ≤ P) by (apply Z.pow_le_mono_r; lia). nia. }
    assert (Hv' : 0 ≤ digits_value (buffer ++ [d]))
      by (rewrite digits_value_snoc; unfold is_digit in Hd; lia).
    destruct (IH (buffer ++ [d]) r) as [(ds & m & Hm & -> & Hlen & Hds)|(ds & -> & Hlen & Hds)];
      [done|done|done|done|done|by apply digits_ok_snoc|by destruct buffer| |].
    + left. exists ds, m. rewrite length_app in Hlen. simpl in Hlen. split_and!; [lia|done|lia|apply Hds..].
    + right. exists ds. rewrite length_app in Hlen. simpl in Hlen. split_and!; [done|lia|apply Hds..].
Qed.
End integral.

Section fractional.
Context (s : Z).
Hypothesis (Hs : 0 ≤ s ≤ 60).

Lemma low_bits z : Z.land z (2 ^ s - 1) = z mod 2 ^ s.
Proof. rewrite <- Z.land_ones by lia. by rewrite Z.ones_equiv, Z.sub_1_r. Qed.

Lemma fractional_digits_spec fuel : ∀ buffer p2 delta dist m,
  0 ≤ p2 < 2 ^ s → 0 ≤ dist ≤ delta → 0 < delta < p2 → 2 ^ s ≤ delta * 10 ^ Z.of_nat fuel →
  digits_ok buffer → buffer ≠ [] →
  ∃ j ds, 0 < j ∧
    fractional_digits fuel buffer p2 delta dist m (Diyfp (2 ^ s) (- s)) = Val (ds, m + j) ∧
    Z.of_nat (length ds) = Z.of_nat (length buffer) + j ∧ digits_ok ds ∧
    delta * 10 ^ (j - 1) < 2 ^ s ∧
    (digits_value buffer * 2 ^ s + p2 - delta) * 10 ^ j ≤ digits_value ds * 2 ^ s ≤
      (digits_value buffer * 2 ^ s + p2) * 10 ^ j.
Proof.
  assert (H2 : 0 < 2 ^ s ≤ 2 ^ 60) by (split; [apply Z.pow_pos_nonneg|apply Z.pow_le_mono_r]; lia).
  induction fuel as [|fuel IH]; intros buffer p2 delta dist m Hp2 Hdist Hdelta Hfuel Hok Hne.
  { change (10 ^ Z.of_nat 0) with 1 in Hfuel. lia. }
  cbn [fractional_digits f e].
  assert (Hmax : (2 ^ 64 - 1) `div` 10 = 1844674407370955161) by reflexivity.
  rewrite Hmax, (JSON_ASSERT_true (p2 <=? _)) by (apply Z.leb_le; lia).
  cbn [mbind outcome_bind]. rewrite !(u64_small (_ * 10)) by lia.
  rewrite low_bits, Z.opp_involutive, Z.shiftr_div_pow2 by lia.
  set (X := 2 ^ s) in *.
  assert (Hdiv : p2 * 10 = X * ((p2 * 10) `div` X) + (p2 * 10) `mod` X) by (apply Z.div_mod; lia).
  assert (Hr : 0 ≤ (p2 * 10) `mod` X < X) by (apply Z.mod_pos_bound; lia).
  set (d := (p2 * 10) `div` X) in *. set (r := (p2 * 10) `mod` X) in *.
  assert (Hd : is_digit d) by (unfold is_digit; nia).
  rewrite JSON_ASSERT_true by (apply Z.leb_le; unfold is_digit in Hd; lia). cbn [mbind outcome_bind].
  destruct (Z.leb_spec r (delta * 10)) as [Hle|Hgt].
  - destruct (grisu2_round_spec buffer d (dist * 10) (delta * 10) r X) as (t & Ht & Hr' & ->);
      [done|lia|lia|lia|lia|lia|].
    cbn [mbind outcome_bind]. exists 1, (buffer ++ [d - t]). rewrite digits_value_snoc.
    change (10 ^ (1 - 1)) with 1. change (10 ^ 1) with 10.
    split_and!; [lia|done|rewrite length_app; simpl; lia| |lia| |].
    + apply digits_ok_snoc; [done|unfold is_digit in *; lia|done].
    + replace ((10 * digits_value buffer + (d - t)) * X) with (10 * (digits_value buffer * X) + X * d - t * X) by ring.
      lia.
    + replace ((10 * digits_value buffer + (d - t)) * X) with (10 * (digits_value buffer * X) + X * d - t * X) by ring.
      assert (0 ≤ t * X) by (apply Z.mul_nonneg_nonneg; lia). lia.
  - destruct (IH (buffer ++ [d]) r (delta * 10) (dist * 10) (m + 1))
      as (j & ds & Hj & -> & Hlen & Hds & Hcount & Hlo & Hhi); [done|lia|lia| | |by destruct buffer|].
    { rewrite Nat2Z.inj_succ, Z.pow_succ_r in Hfuel by lia. lia. }
    { apply digits_ok_snoc; done. }
    exists (j + 1), ds. rewrite digits_value_snoc in Hlo, Hhi. rewrite length_app in Hlen. simpl in Hlen.
    replace (j + 1 - 1) with (1 + (j - 1)) by lia. rewrite (Z.add_comm j 1), !Z.pow_add_r by lia.
    change (10 ^ 1) with 10. split_and!; [lia|by rewrite (Z.add_comm 1 j), Z.add_assoc, (Z.add_comm (m + j) 1), Z.add_assoc, (Z.add_comm 1 m)|lia|done|lia| |].
    + replace ((digits_value buffer * X + p2 - delta) * (10 * 10 ^ j)) with
        (((10 * (digits_value buffer * X) + p2 * 10 - delta * 10)) * 10 ^ j) by ring.
      rewrite Hdiv. replace (10 * (digits_value buffer * X) + (X * d + r) - delta * 10) with
        ((10 * digits_value buffer + d) * X + r - delta * 10) by ring. done.
    + replace ((digits_value buffer * X + p2) * (10 * 10 ^ j)) with
        (((10 * (digits_value buffer * X) + p2 * 10)) * 10 ^ j) by ring.
      rewrite Hdiv. replace (10 * (digits_value buffer * X) + (X * d + r)) with
        ((10 * digits_value buffer + d) * X + r) by ring. done.
Qed.
End fractional.

Lemma find_largest_pow10_spec n : 1 ≤ n < 2 ^ 32 → ∃ k,
  find_largest_pow10 n = (k, 10 ^ (Z.of_nat k - 1)) ∧ (1 ≤ k ≤ 10)%nat ∧
  10 ^ (Z.of_nat k - 1) ≤ n < 10 ^ Z.of_nat k.
Proof.
  intros Hn. unfold find_largest_pow10.
  repeat match goal with |- context [if ?c <=? n then _ else _] => destruct (Z.leb_spec c n) end;
    match goal with |- ∃ k, (?a, _) = _ ∧ _ => exists a end; (split; [reflexivity|]); split; lia.
Qed.

(** The interval is not too narrow for seventeen digits, and its lower end is
    positive. *)
Record interval_ok (M_minus w M_plus s : Z) : Prop := {
  io_s : 32 ≤ s ≤ 60;
  io_order : 0 < M_minus ≤ w ∧ w ≤ M_plus ∧ M_minus < M_plus;
  io_range : 2 ^ 60 ≤ M_plus < 2 ^ 64;
  io_width : M_plus < 10 ^ 16 * (M_plus - M_minus);
}.

Lemma within_integral M delta s ds m :
  M - delta ≤ digits_value ds * 10 ^ Z.of_nat m * 2 ^ s ≤ M → within M delta s ds (Z.of_nat m).
Proof.
  intros H. unfold within. rewrite (Z.max_l (Z.of_nat m) 0), (Z.max_r (- _) 0) by lia.
  change (10 ^ 0) with 1. lia.
Qed.

Lemma within_fractional M delta s ds j : 0 < j →
  (M - delta) * 10 ^ j ≤ digits_value ds * 2 ^ s ≤ M * 10 ^ j → within M delta s ds (- j).
Proof.
  intros Hj H. unfold within. rewrite Z.opp_involutive, (Z.max_r (- j) 0), (Z.max_l j 0) by lia.
  change (10 ^ 0) with 1. lia.
Qed.

(** The power of ten is bounded by comparing units: [10^a] times a width stays below
    [10^16] times the same width. *)
Lemma digits_bound a delta : 0 < delta → 10 ^ a * delta < 10 ^ 16 * delta → a < 16.
Proof.
  intros Hd H. destruct (Z.lt_ge_cases a 16) as [|Hge]; [done|exfalso].
  assert (10 ^ 16 ≤ 10 ^ a) by (apply Z.pow_le_mono_r; lia). nia.
Qed.

(** The number of digits, when digit generation ends in the integral part. *)
Lemma integral_count k m M delta X : 0 < X → 0 ≤ m → 1 ≤ k →
  10 ^ (k - 1) * X ≤ M → M < 10 ^ 16 * delta → delta < 10 ^ (m + 1) * X → k - m < 18.
Proof.
  intros HX Hm Hk Hfirst Hwidth Hcount.
  assert (Hu : 0 < 10 ^ (m + 1) * X) by (apply Z.mul_pos_pos; [apply Z.pow_pos_nonneg|]; lia).
  assert (k - 1 - (m + 1) < 16); [|lia]. apply (digits_bound _ (10 ^ (m + 1) * X)); [done|].
  destruct (Z.lt_ge_cases (k - 1) (m + 1)) as [Hneg|Hge].
  - rewrite Z.pow_neg_r by lia. lia.
  - rewrite Z.mul_assoc, <- Z.pow_add_r by lia.
    replace (k - 1 - (m + 1) + (m + 1)) with (k - 1) by lia. lia.
Qed.

(** The same for the fractional part. *)
Lemma fractional_count k j M delta X : 0 < delta → 1 ≤ k → 0 < j →
  10 ^ (k - 1) * X ≤ M → M < 10 ^ 16 * delta → delta * 10 ^ (j - 1) < X → k + j < 18.
Proof.
  intros Hd Hk Hj Hfirst Hwidth Hcount.
  assert (0 < 10 ^ (k - 1)) by (apply Z.pow_pos_nonneg; lia).
  assert (k - 1 + (j - 1) < 16); [|lia]. apply (digits_bound _ delta); [lia|].
  rewrite Z.pow_add_r, <- Z.mul_assoc, (Z.mul_comm (10 ^ (j - 1))) by lia.
  apply Z.le_lt_trans with (10 ^ (k - 1) * X); [apply Z.mul_le_mono_nonneg_l; lia|lia].
Qed.

Lemma grisu2_digit_gen_spec K M_minus w M_plus s : interval_ok M_minus w M_plus s →
  ∃ ds n, grisu2_digit_gen K (Diyfp M_minus (- s)) (Diyfp w (- s)) (Diyfp M_plus (- s)) = Val (ds, K + n) ∧
    (1 ≤ length ds ≤ 17)%nat ∧ digits_ok ds ∧ -17 ≤ n ≤ 9 ∧ within M_plus (M_plus - M_minus) s ds n.
Proof.
  intros [Hs Horder Hrange Hwidth].
  assert (H2 : 2 ^ 32 ≤ 2 ^ s ≤ 2 ^ 60) by (split; apply Z.pow_le_mono_r; lia).
  unfold grisu2_digit_gen. cbn [f e]. unfold kAlpha, kGamma.
  rewrite (JSON_ASSERT_true (-60 <=? _)), (JSON_ASSERT_true (_ <=? -32)) by (apply Z.leb_le; lia).
  unfold sub. cbn [f e]. rewrite Z.eqb_refl.
  rewrite (JSON_ASSERT_true (M_minus <=? _)), (JSON_ASSERT_true (w <=? _)), (JSON_ASSERT_true true)
    by (done || apply Z.leb_le; lia).
  cbn [mbind outcome_bind fmap outcome_fmap f e]. rewrite Z.opp_involutive, Z.shiftl_1_l, low_bits by lia.
  rewrite !(u64_small (M_plus - _)) by lia. rewrite Z.shiftr_div_pow2 by lia.
  set (delta := M_plus - M_minus) in *. set (X := 2 ^ s) in *.
  assert (Hdiv : M_plus = X * (M_plus `div` X) + M_plus `mod` X) by (apply Z.div_mod; lia).
  assert (Hp2 : 0 ≤ M_plus `mod` X < X) by (apply Z.mod_pos_bound; lia).
  set (p1 := M_plus `div` X) in *. set (p2 := M_plus `mod` X) in *.
  assert (Hp1 : 1 ≤ p1 < 2 ^ 32) by nia.
  assert (Hw32 : u32 p1 = p1) by (apply wrap_small; unfold in_unsigned; lia).
  rewrite Hw32, (JSON_ASSERT_true (0 <? p1)) by (apply Z.ltb_lt; lia). cbn [mbind outcome_bind].
  destruct (find_largest_pow10_spec p1 Hp1) as (k & -> & Hk & Hpow).
  assert (Hpk : 0 < 10 ^ (Z.of_nat k - 1)) by (apply Z.pow_pos_nonneg; lia).
  assert (Hfirst : 10 ^ (Z.of_nat k - 1) * X ≤ M_plus) by nia.
  destruct (integral_digits_spec M_plus s p2 delta (M_plus - w)) with (n := k) (buffer := @nil Z) (p1 := p1)
    as [(ds & m & Hm & -> & Hlen & Hds & Hcount & Hval)|(ds & -> & Hlen & Hds & Hlt & Hval)]; fold X.
  1-11: try done; try lia.
  - change (digits_value []) with 0. rewrite Hdiv at 1. ring.
  - intros _ _. apply Hpow.
  - cbn [mbind outcome_bind]. exists ds, (Z.of_nat m). simpl in Hlen.
    pose proof (integral_count (Z.of_nat k) (Z.of_nat m) M_plus delta X).
    split_and!; [done|lia|lia|done|lia|lia|by apply within_integral].
  - cbn [mbind outcome_bind]. rewrite (JSON_ASSERT_true (delta <? p2)) by (by apply Z.ltb_lt). cbn [mbind outcome_bind].
    pose proof (fractional_digits_spec s ltac:(lia) max_digits10 ds p2 delta (M_plus - w) 0) as Hf. fold X in Hf.
    destruct Hf as (j & ds' & Hj & -> & Hlen' & Hds' & Hcount & Hval');
      [done|lia|lia| |done|destruct ds; simpl in Hlen; [lia|done]|].
    { change (10 ^ Z.of_nat max_digits10) with (10 * 10 ^ 16). nia. }
    fold X in Hval. rewrite <- Hval in Hval'.
    cbn [mbind outcome_bind]. exists ds', (- j). rewrite Z.add_0_l, Z.add_opp_r.
    pose proof (fractional_count (Z.of_nat k) j M_plus delta X).
    simpl in Hlen. split_and!; [done|lia|lia|done|lia|lia|by apply within_fractional].
Qed.

(** ** Scaling by a cached power *)

Lemma mul_f x y : 0 ≤ f x < 2 ^ 64 → 0 ≤ f y < 2 ^ 64 →
  f (mul x y) = (f x * f y + 2 ^ 63) `div` 2 ^ 64.
Proof.
  destruct x as [u eu], y as [v ev]. unfold mul. cbn [f e]. intros Hu Hv.
  change 0xFFFFFFFF with (Z.ones 32). rewrite !Z.land_ones, !Z.shiftr_div_pow2 by lia.
  change (Z.shiftl 1 (64 - 32 - 1)) with (2 ^ 31).
  assert (Hu' : u = 2 ^ 32 * (u `div` 2 ^ 32) + u `mod` 2 ^ 32) by (apply Z.div_mod; lia).
  assert (Hv' : v = 2 ^ 32 * (v `div` 2 ^ 32) + v `mod` 2 ^ 32) by (apply Z.div_mod; lia).
  assert (Hul := Z.mod_pos_bound u (2 ^ 32) ltac:(lia)). assert (Hvl := Z.mod_pos_bound v (2 ^ 32) ltac:(lia)).
  set (ul := u `mod` 2 ^ 32) in *. set (uh := u `div` 2 ^ 32) in *.
  set (vl := v `mod` 2 ^ 32) in *. set (vh := v `div` 2 ^ 32) in *.
  assert (0 ≤ uh < 2 ^ 32) by lia. assert (0 ≤ vh < 2 ^ 32) by lia.
  assert (Hp : ∀ a b, 0 ≤ a < 2 ^ 32 → 0 ≤ b < 2 ^ 32 → 0 ≤ a * b ≤ (2 ^ 32 - 1) * (2 ^ 32 - 1))
    by (intros a b Ha Hb; split; [apply Z.mul_nonneg_nonneg|apply Z.mul_le_mono_nonneg]; lia).
  pose proof (Hp ul vl ltac:(lia) ltac:(lia)). pose proof (Hp ul vh ltac:(lia) ltac:(lia)).
  pose proof (Hp uh vl ltac:(lia) ltac:(lia)). pose proof (Hp uh vh ltac:(lia) ltac:(lia)).
  replace (u * v) with (ul * vl + 2 ^ 32 * (ul * vh + uh * vl) + 2 ^ 64 * (uh * vh))
    by (rewrite Hu', Hv'; change (2 ^ 64) with (2 ^ 32 * 2 ^ 32); ring).
  rewrite !(u64_small (_ * _)) by lia.
  set (p0 := ul * vl) in *. set (p1 := ul * vh) in *. set (p2 := uh * vl) in *. set (p3 := uh * vh) in *.
  clearbody p0 p1 p2 p3. clear Hp Hu' Hv' Hu Hv. change (2 ^ 64) with (2 ^ 32 * 2 ^ 32) in *.
  change (2 ^ 63) with (2 ^ 32 * 2 ^ 31). unfold u64, wrap. change (2 ^ 64) with (2 ^ 32 * 2 ^ 32).
  rewrite (Z.mod_small (p0 `div` 2 ^ 32 + _ + _)) by (Z.div_mod_to_equations; lia).
  rewrite (Z.mod_small (_ + 2 ^ 31)) by (Z.div_mod_to_equations; lia).
  rewrite <- Z.div_div by lia.
  replace (p0 + 2 ^ 32 * (p1 + p2) + 2 ^ 32 * 2 ^ 32 * p3 + 2 ^ 32 * 2 ^ 31) with
    (p0 + (p1 + p2 + 2 ^ 32 * p3 + 2 ^ 31) * 2 ^ 32) by ring.
  rewrite Z.div_add by lia.
  rewrite Z.mod_small by (Z.div_mod_to_equations; lia).
  Z.div_mod_to_equations; lia.
Qed.

(** [10^ck / 2^ce] as a fraction. *)
Definition power_num (c : cached_power) : Z := 10 ^ (Z.max (ck c) 0) * 2 ^ (Z.max (- ce c) 0).
Definition power_den (c : cached_power) : Z := 10 ^ (Z.max (- ck c) 0) * 2 ^ (Z.max (ce c) 0).

(** A cached power is normalised, and the nearest significand there is. *)
Definition power_ok (c : cached_power) : Prop :=
  2 ^ 63 ≤ cf c < 2 ^ 64 ∧ 2 * Z.abs (cf c * power_den c - power_num c) ≤ power_den c ∧ -300 ≤ ck c ≤ 324.
#[global] Instance power_ok_dec c : Decision (power_ok c).
Proof. unfold power_ok. apply _. Defined.

Lemma cached_powers_ok : Forall power_ok kCachedPowers.
Proof. apply (bool_decide_unpack _). vm_compute. exact I. Qed.

(** Every exponent a normalised double has is served by the table. *)
Lemma cached_power_spec e : -1137 ≤ e ≤ 960 → ∃ c,
  get_cached_power_for_binary_exponent e = Val c ∧ power_ok c ∧ -60 ≤ ce c + e + 64 ≤ -32.
Proof.
  intros He.
  assert (Hall : Forall (λ e, match get_cached_power_for_binary_exponent e with Val _ => true | _ => false end = true)
    (seqZ (-1137) 2098)) by (apply (bool_decide_unpack _); vm_compute; exact I).
  rewrite Forall_forall in Hall. specialize (Hall e ltac:(apply elem_of_seqZ; lia)).
  destruct (get_cached_power_for_binary_exponent e) as [c| |] eqn:E; [clear Hall|done..].
  exists c. split; [done|]. unfold get_cached_power_for_binary_exponent in E.
  do 2 (apply bind_Val_inv in E as (? & _ & E)).
  destruct (kCachedPowers !! _) as [c'|] eqn:Hl; [|done].
  apply bind_Val_inv in E as (? & E1 & E). apply bind_Val_inv in E as (? & E2 & E). injection E as ->.
  unfold JSON_ASSERT, kAlpha, kGamma in *.
  split; [by apply (proj1 (Forall_lookup _ _) cached_powers_ok _ _ Hl)|].
  destruct (Z.leb_spec (-60) (ce c + e + 64)); [|done]. destruct (Z.leb_spec (ce c + e + 64) (-32)); [lia|done].
Qed.

(** The product with a cached power is off by less than one. *)
Lemma mul_error u eu c : power_ok c → 0 ≤ u < 2 ^ 64 →
  let h := f (mul (Diyfp u eu) (Diyfp (cf c) (ce c))) in
  (h - 1) * (2 ^ 64 * power_den c) < u * power_num c < (h + 1) * (2 ^ 64 * power_den c).
Proof.
  intros (Hc & Hacc & _) Hu. cbv zeta. rewrite mul_f by (simpl; lia). cbn [f].
  assert (Hd : 0 < power_den c)
    by (unfold power_den; apply Z.mul_pos_pos; apply Z.pow_pos_nonneg; lia).
  set (D := power_den c) in *. set (N := power_num c) in *.
  assert (Hdiv : u * cf c + 2 ^ 63 = 2 ^ 64 * ((u * cf c + 2 ^ 63) `div` 2 ^ 64) + (u * cf c + 2 ^ 63) `mod` 2 ^ 64)
    by (apply Z.div_mod; lia).
  pose proof (Z.mod_pos_bound (u * cf c + 2 ^ 63) (2 ^ 64) ltac:(lia)) as Hm.
  set (h := (u * cf c + 2 ^ 63) `div` 2 ^ 64) in *. set (r := (u * cf c + 2 ^ 63) `mod` 2 ^ 64) in *.
  assert (Hu2 : u * (2 * N) - u * D ≤ 2 * (u * cf c * D) ≤ u * (2 * N) + u * D) by nia.
  assert (Hh : u * cf c * D = (2 ^ 64 * h + r - 2 ^ 63) * D) by (f_equal; lia).
  assert (0 ≤ u * D < 2 ^ 64 * D) by nia. assert (0 ≤ r * D < 2 ^ 64 * D) by nia.
  rewrite Hh in Hu2. lia.
Qed.

(** The three bounds after scaling. *)
Lemma scaled_interval m v p c s eu : power_ok c → 32 ≤ s ≤ 60 →
  0 < m → m + 2 ^ 9 ≤ v → 2 ^ 63 ≤ v → v + 2 ^ 9 ≤ p → p < 2 ^ 64 → p ≤ 10 ^ 16 * (p - m - 6) →
  let scaled u := f (mul (Diyfp u eu) (Diyfp (cf c) (ce c))) in
  interval_ok (scaled m + 1) (scaled v) (scaled p - 1) s ∧ 0 < scaled m + 1 < 2 ^ 64.
Proof.
  intros (Hc & _) Hs Hm Hmv Hv Hvp Hp Hwidth. cbv beta zeta.
  rewrite !mul_f by (simpl; lia). cbn [f].
  assert (Hdiv : ∀ u, u * cf c + 2 ^ 63 = 2 ^ 64 * ((u * cf c + 2 ^ 63) `div` 2 ^ 64) + (u * cf c + 2 ^ 63) `mod` 2 ^ 64)
    by (intros u; apply Z.div_mod; lia).
  assert (Hmod : ∀ u, 0 ≤ (u * cf c + 2 ^ 63) `mod` 2 ^ 64 < 2 ^ 64) by (intros u; apply Z.mod_pos_bound; lia).
  pose proof (Hdiv m). pose proof (Hdiv v). pose proof (Hdiv p).
  pose proof (Hmod m). pose proof (Hmod v). pose proof (Hmod p).
  set (hm := (m * cf c + 2 ^ 63) `div` 2 ^ 64) in *. set (hv := (v * cf c + 2 ^ 63) `div` 2 ^ 64) in *.
  set (hp := (p * cf c + 2 ^ 63) `div` 2 ^ 64) in *.
  set (rm := (m * cf c + 2 ^ 63) `mod` 2 ^ 64) in *. set (rv := (v * cf c + 2 ^ 63) `mod` 2 ^ 64) in *.
  set (rp := (p * cf c + 2 ^ 63) `mod` 2 ^ 64) in *. clearbody hm hv hp rm rv rp. clear Hdiv Hmod.
  assert (0 ≤ m * cf c) by (apply Z.mul_nonneg_nonneg; lia).
  assert (2 ^ 63 * 2 ^ 63 ≤ v * cf c) by (apply Z.mul_le_mono_nonneg; lia).
  assert (p * cf c ≤ (2 ^ 64 - 1) * (2 ^ 64 - 1)) by (apply Z.mul_le_mono_nonneg; lia).
  assert (2 ^ 9 * 2 ^ 63 ≤ (v - m) * cf c) by (apply Z.mul_le_mono_nonneg; lia).
  assert (2 ^ 9 * 2 ^ 63 ≤ (p - v) * cf c) by (apply Z.mul_le_mono_nonneg; lia).
  assert (p * cf c ≤ 10 ^ 16 * (p - m - 6) * cf c) by (apply Z.mul_le_mono_nonneg_r; lia).
  split; [|lia]. split; [done|lia|lia|].
  assert (2 ^ 64 * (hp - 1) < 2 ^ 64 * (10 ^ 16 * (hp - 1 - (hm + 1)))); [|lia]. lia.
Qed.

(** The decimal [ds * 10^n] in units of the scaled interval is strictly between the
    scaled bounds, exactly. *)
Lemma grisu2_scaled_spec m v p eu :
  -1137 ≤ eu ≤ 960 → 0 < m → m + 2 ^ 9 ≤ v → 2 ^ 63 ≤ v → v + 2 ^ 9 ≤ p → p < 2 ^ 64 →
  p ≤ 10 ^ 16 * (p - m - 6) →
  ∃ c ds n, power_ok c ∧ grisu2_scaled (Diyfp m eu) (Diyfp v eu) (Diyfp p eu) = Val (ds, - ck c + n) ∧
    (1 ≤ length ds ≤ 17)%nat ∧ digits_ok ds ∧ -17 ≤ n ≤ 9 ∧ -60 ≤ ce c + eu + 64 ≤ -32 ∧
    let v := digits_value ds * 10 ^ (Z.max n 0) * 2 ^ (- (ce c + eu + 64)) * (2 ^ 64 * power_den c) in
    let unit := power_num c * 10 ^ (Z.max (- n) 0) in
    m * unit < v < p * unit.
Proof.
  intros He Hm Hmv Hv Hvp Hp Hwidth.
  destruct (cached_power_spec eu He) as (c & Hcached & Hc & Hce).
  unfold grisu2_scaled. cbn [f e]. rewrite !Z.eqb_refl, Hcached. cbn [JSON_ASSERT mbind outcome_bind].
  destruct (scaled_interval m v p c (- (ce c + eu + 64)) eu) as [Hio Hm64]; [done|lia|done..|].
  pose proof (mul_error m eu c Hc ltac:(lia)) as [_ Hmerr].
  pose proof (mul_error p eu c Hc ltac:(lia)) as [Hperr _].
  pose proof (io_order _ _ _ _ Hio). pose proof (io_range _ _ _ _ Hio).
  set (Mm := f (mul (Diyfp m eu) (Diyfp (cf c) (ce c)))) in *.
  set (Mp := f (mul (Diyfp p eu) (Diyfp (cf c) (ce c)))) in *.
  rewrite (u64_small (Mm + 1)), (u64_small (Mp - 1)) by lia.
  assert (Hmul : ∀ u, mul (Diyfp u eu) (Diyfp (cf c) (ce c)) =
    Diyfp (f (mul (Diyfp u eu) (Diyfp (cf c) (ce c)))) (- (- (ce c + eu + 64))))
    by (intros u; unfold mul; cbn [f e]; f_equal; lia).
  assert (Hexp : ∀ u, e (mul (Diyfp u eu) (Diyfp (cf c) (ce c))) = - (- (ce c + eu + 64)))
    by (intros u; by rewrite Hmul).
  rewrite !Hexp, (Hmul v).
  destruct (grisu2_digit_gen_spec (- ck c) _ _ _ _ Hio) as (ds & n & -> & Hlen & Hds & Hn & Hin).
  exists c, ds, n. split_and!; [done|done|lia|lia|done|lia|lia|lia|lia|..]; cbv zeta.
  all: unfold within in Hin; cbv zeta in Hin; set (V := digits_value ds * 10 ^ (Z.max n 0) * 2 ^ (- (ce c + eu + 64))) in *.
  all: assert (Hd : 0 < 2 ^ 64 * power_den c)
    by (unfold power_den; apply Z.mul_pos_pos; [lia|apply Z.mul_pos_pos; apply Z.pow_pos_nonneg; lia]).
  all: assert (Ht : 0 < 10 ^ (Z.max (- n) 0)) by (apply Z.pow_pos_nonneg; lia).
  all: set (D := 2 ^ 64 * power_den c) in *; set (T := 10 ^ (Z.max (- n) 0)) in *; clearbody V D T.
  - apply Z.lt_le_trans with ((Mm + 1) * D * T); [rewrite Z.mul_assoc; apply Z.mul_lt_mono_pos_r; lia|].
    replace ((Mm + 1) * D * T) with ((Mm + 1) * T * D) by ring. apply Z.mul_le_mono_nonneg_r; [lia|].
    replace (Mm + 1) with (Mp - 1 - (Mp - 1 - (Mm + 1))) by lia. lia.
  - apply Z.le_lt_trans with ((Mp - 1) * D * T); [|rewrite (Z.mul_assoc p); apply Z.mul_lt_mono_pos_r; lia].
    replace ((Mp - 1) * D * T) with ((Mp - 1) * T * D) by ring. apply Z.mul_le_mono_nonneg_r; lia.
Qed.
