(* ===== verification/DtoaText.v ===== *)
(** * Doubles as text: the conversion read back

    The interval [compute_boundaries] gives, the printf-like formatting, and the
    theorem that the text [to_chars] writes for a finite double denotes a number to
    which that double is nearer than any other. *)

From S2P Require Import Prelude Float Dtoa Grisu.
From Stdlib Require Import Strings.Byte QArith Qpower Qabs Lqa.

Open Scope Z_scope.

Import Dtoa.

(** ** The rounding interval *)

Lemma normalize_loop_spec fuel : ∀ x, 0 < f x < 2 ^ 64 → 2 ^ 63 ≤ f x * 2 ^ Z.of_nat fuel →
  ∃ j, 0 ≤ j ∧ normalize_loop fuel x = Diyfp (f x * 2 ^ j) (e x - j) ∧ 2 ^ 63 ≤ f x * 2 ^ j < 2 ^ 64.
Proof.
  induction fuel as [|fuel IH]; intros x Hx Hfuel.
  { change (2 ^ Z.of_nat 0) with 1 in Hfuel. exists 0. change (2 ^ 0) with 1.
    rewrite Z.mul_1_r, Z.sub_0_r. destruct x; simpl in *. split_and!; [lia|done|lia..]. }
  cbn [normalize_loop]. rewrite Z.shiftr_div_pow2 by lia.
  destruct (Z.eqb_spec (f x `div` 2 ^ 63) 0) as [H0|H0].
  - assert (f x < 2 ^ 63) by (apply Z.div_small_iff in H0; lia).
    rewrite Z.shiftl_mul_pow2, u64_small by lia. change (2 ^ 1) with 2.
    destruct (IH (Diyfp (f x * 2) (e x - 1))) as (j & Hj & -> & Hr); cbn [f e] in *.
    + lia.
    + rewrite Nat2Z.inj_succ, Z.pow_succ_r in Hfuel by lia. lia.
    + exists (j + 1). rewrite Z.pow_add_r by lia. change (2 ^ 1) with 2.
      split_and!; [lia|f_equal; lia|lia|lia].
  - exists 0. change (2 ^ 0) with 1. rewrite Z.mul_1_r, Z.sub_0_r.
    assert (2 ^ 63 ≤ f x) by (destruct (Z.lt_ge_cases (f x) (2 ^ 63)); [rewrite Z.div_small in H0; lia|done]).
    destruct x; simpl in *. split_and!; [lia|done|lia..].
Qed.

Lemma normalize_spec x : 0 < f x < 2 ^ 64 → ∃ j, 0 ≤ j ∧
  normalize x = Val (Diyfp (f x * 2 ^ j) (e x - j)) ∧ 2 ^ 63 ≤ f x * 2 ^ j < 2 ^ 64.
Proof.
  intros Hx. unfold normalize. rewrite JSON_ASSERT_true by (apply negb_true_iff, Z.eqb_neq; lia).
  cbn [mbind outcome_bind]. destruct (normalize_loop_spec 64 x Hx) as (j & Hj & -> & Hr); [|by exists j].
  change (2 ^ Z.of_nat 64) with (2 * 2 ^ 63). lia.
Qed.

(** The top bit fixes the shift. *)
Lemma top_bit_unique z a b : 0 < z → 0 ≤ a → 0 ≤ b →
  2 ^ 63 ≤ z * 2 ^ a < 2 ^ 64 → 2 ^ 63 ≤ z * 2 ^ b < 2 ^ 64 → a = b.
Proof.
  assert (Hlt : ∀ a b, 0 < z → 0 ≤ a → 2 ^ 63 ≤ z * 2 ^ a → z * 2 ^ b < 2 ^ 64 → a < b → False).
  { intros a' b' Hz Ha H1 H2 Hab. assert (2 ^ (a' + 1) ≤ 2 ^ b') by (apply Z.pow_le_mono_r; lia).
    rewrite Z.pow_add_r in * by lia. change (2 ^ 1) with 2 in *. nia. }
  intros Hz Ha Hb [H1 H2] [H3 H4]. destruct (Z.lt_trichotomy a b) as [H|[H|H]]; [exfalso; eauto|done|exfalso; eauto].
Qed.

Lemma normalize_to_spec x j : 0 < f x → 0 ≤ j < 64 → f x * 2 ^ j < 2 ^ 64 →
  normalize_to x (e x - j) = Val (Diyfp (f x * 2 ^ j) (e x - j)).
Proof.
  intros Hx Hj Hr. unfold normalize_to. replace (e x - (e x - j)) with j by lia.
  assert (0 < 2 ^ j) by (apply Z.pow_pos_nonneg; lia).
  rewrite Z.shiftl_mul_pow2, (u64_small (f x * 2 ^ j)), Z.shiftr_div_pow2, Z.div_mul by nia.
  rewrite (JSON_ASSERT_true (_ && _)) by (apply andb_true_iff; split; [apply Z.leb_le|apply Z.ltb_lt]; lia).
  by rewrite Z.eqb_refl.
Qed.

Lemma significand_range b : 0 < b < infinity → 0 < significand b < 2 ^ 53.
Proof.
  unfold infinity, significand. intros Hb.
  assert (Hdiv : b = 2 ^ 52 * (b `div` 2 ^ 52) + b `mod` 2 ^ 52) by (apply Z.div_mod; lia).
  pose proof (Z.mod_pos_bound b (2 ^ 52) ltac:(lia)). destruct (Z.eqb_spec (b `div` 2 ^ 52) 0); lia.
Qed.

Lemma exponent_range b : 0 < b < infinity → -1074 ≤ exponent b ≤ 971.
Proof.
  unfold infinity, exponent. intros Hb.
  assert (b `div` 2 ^ 52 < 2047) by (apply Z.div_lt_upper_bound; lia). lia.
Qed.

(** The gap below [b] is half as wide as the gap above it at a power of two. *)
Definition closer (b : Z) : bool := (b `mod` 2 ^ 52 =? 0) && (1 <? b `div` 2 ^ 52).

Lemma double_value_pred b : 0 < b →
  (double_value b == double_value (b - 1) + pow2 (if closer b then exponent b - 1 else exponent b))%Q.
Proof.
  intros Hb. pose proof (double_value_succ (b - 1) ltac:(lia)) as H.
  replace (b - 1 + 1) with b in H by lia. rewrite H. clear H.
  assert (Hx : exponent (b - 1) = if closer b then exponent b - 1 else exponent b); [|by rewrite Hx].
  unfold exponent, closer.
  assert (Hdiv : b = 2 ^ 52 * (b `div` 2 ^ 52) + b `mod` 2 ^ 52) by (apply Z.div_mod; lia).
  assert (Hmod : 0 ≤ b `mod` 2 ^ 52 < 2 ^ 52) by (apply Z.mod_pos_bound; lia).
  set (E := b `div` 2 ^ 52) in *. set (F := b `mod` 2 ^ 52) in *.
  destruct (Z.eqb_spec F 0) as [HF|HF]; simpl.
  - assert (HE : (b - 1) `div` 2 ^ 52 = E - 1) by (symmetry; apply (Z.div_unique_pos _ _ _ (2 ^ 52 - 1)); lia).
    rewrite HE. destruct (Z.ltb_spec 1 E); lia.
  - assert (HE : (b - 1) `div` 2 ^ 52 = E) by (symmetry; apply (Z.div_unique_pos _ _ _ (F - 1)); lia).
    by rewrite HE.
Qed.

Lemma closer_significand b : 0 < b → closer b = true → significand b = 2 ^ 52.
Proof.
  unfold closer, significand. intros Hb H. apply andb_prop in H as [HF HE].
  apply Z.eqb_eq in HF. apply Z.ltb_lt in HE. rewrite HF, (proj2 (Z.eqb_neq _ 0)) by lia. lia.
Qed.

(** The fields the code takes out of the bits. *)
Lemma finite_positive b : 0 < b < infinity → isfinite b = true ∧ negb (signbit b) && negb (is_zero b) = true.
Proof.
  unfold infinity. intros Hb. split.
  - assert (Hl : exponent_bits b = b `div` 2 ^ 52 `mod` 2 ^ 11).
    { unfold exponent_bits. rewrite Z.shiftr_div_pow2 by lia. exact (Z.land_ones _ 11 ltac:(lia)). }
    unfold isfinite. rewrite Hl. assert (b `div` 2 ^ 52 < 2047) by (apply Z.div_lt_upper_bound; lia).
    assert (0 ≤ b `div` 2 ^ 52) by (apply Z.div_pos; lia).
    rewrite Z.mod_small by lia. apply negb_true_iff, Z.eqb_neq. lia.
  - assert (Hl : Z.land b (2 ^ 63 - 1) = b `mod` 2 ^ 63) by exact (Z.land_ones b 63 ltac:(lia)).
    unfold signbit, is_zero. rewrite Hl, Z.mod_small, Z.testbit_eqb by lia.
    rewrite (Z.div_small b (2 ^ 63)) by lia. simpl. apply negb_true_iff, Z.eqb_neq. lia.
Qed.

Lemma value_fields b : 0 < b < infinity →
  (if Z.shiftr b (kPrecision - 1) =? 0 then Diyfp (Z.land b (kHiddenBit - 1)) kMinExp
   else Diyfp (u64 (Z.land b (kHiddenBit - 1) + kHiddenBit)) (Z.shiftr b (kPrecision - 1) - kBias)) =
  Diyfp (significand b) (exponent b) ∧
  (Z.land b (kHiddenBit - 1) =? 0) && (1 <? Z.shiftr b (kPrecision - 1)) = closer b.
Proof.
  intros Hb.
  assert (HE : Z.shiftr b (kPrecision - 1) = b `div` 2 ^ 52) by (by rewrite Z.shiftr_div_pow2).
  assert (HF : Z.land b (kHiddenBit - 1) = b `mod` 2 ^ 52) by exact (Z.land_ones b 52 ltac:(lia)).
  rewrite HE, HF. split; [|done].
  pose proof (Z.mod_pos_bound b (2 ^ 52) ltac:(lia)). assert (0 ≤ b `div` 2 ^ 52) by (apply Z.div_pos; lia).
  unfold significand, exponent. change kHiddenBit with (2 ^ 52).
  destruct (Z.eqb_spec (b `div` 2 ^ 52) 0) as [->|]; [done|].
  rewrite u64_small by lia. f_equal; [lia|]. change kBias with 1075. lia.
Qed.

(** The shift of a significand, and that of the middle of the gap above it. *)
Lemma shift_range s j : 0 < s < 2 ^ 53 → 0 ≤ j → 2 ^ 63 ≤ s * 2 ^ j < 2 ^ 64 →
  11 ≤ j ≤ 63 ∧ 2 ^ j = 2 * 2 ^ (j - 1) ∧ 2 ^ (j - 1) = 2 * 2 ^ (j - 2) ∧ 2 ^ 9 ≤ 2 ^ (j - 2) ∧
  (2 * s + 1) * 2 ^ (j - 1) < 2 ^ 64.
Proof.
  intros Hs Hj Hr.
  assert (Hj11 : 11 ≤ j).
  { destruct (Z.lt_ge_cases j 11); [|done]. assert (2 ^ j ≤ 2 ^ 10) by (apply Z.pow_le_mono_r; lia). nia. }
  assert (Hj63 : j ≤ 63).
  { destruct (Z.lt_ge_cases 63 j); [|done]. assert (2 ^ 64 ≤ 2 ^ j) by (apply Z.pow_le_mono_r; lia). nia. }
  assert (H1 : 2 ^ j = 2 * 2 ^ (j - 1)) by (rewrite <- Z.pow_succ_r by lia; f_equal; lia).
  assert (H2 : 2 ^ (j - 1) = 2 * 2 ^ (j - 2)) by (rewrite <- Z.pow_succ_r by lia; f_equal; lia).
  split_and!; [done|done|done|done|apply Z.pow_le_mono_r; lia|].
  assert (H64 : 2 ^ 64 = 2 ^ j * 2 ^ (64 - j)) by (rewrite <- Z.pow_add_r by lia; f_equal; lia).
  assert (0 < 2 ^ j) by (apply Z.pow_pos_nonneg; lia).
  assert (s + 1 ≤ 2 ^ (64 - j)) by nia. nia.
Qed.

(** The middles of the gaps around [b], in units of [2^(exponent b - j)]. *)
Definition upper_bound (b j : Z) : Z := (2 * significand b + 1) * 2 ^ (j - 1).
Definition lower_bound (b j : Z) : Z :=
  if closer b then (4 * significand b - 1) * 2 ^ (j - 2) else (2 * significand b - 1) * 2 ^ (j - 1).

(** What [compute_boundaries] gives: the double and these bounds, shifted to a
    common exponent. *)
Lemma compute_boundaries_spec b : 0 < b < infinity → ∃ j, 0 ≤ j ∧
  2 ^ 63 ≤ significand b * 2 ^ j < 2 ^ 64 ∧
  compute_boundaries b = Val (Boundaries (Diyfp (significand b * 2 ^ j) (exponent b - j))
    (Diyfp (lower_bound b j) (exponent b - j)) (Diyfp (upper_bound b j) (exponent b - j))).
Proof.
  intros Hb. pose proof (significand_range b Hb) as Hsig. pose proof (closer_significand b ltac:(lia)) as Hclose.
  destruct (finite_positive b Hb) as [Hfin Hpos]. destruct (value_fields b Hb) as [Hv Hcl].
  unfold compute_boundaries. cbv zeta. rewrite Hfin, Hpos, Hv, Hcl. cbn [JSON_ASSERT mbind outcome_bind f e].
  rewrite (u64_small (2 * significand b + 1)), (u64_small (2 * significand b - 1)) by lia.
  destruct (normalize_spec (Diyfp (significand b) (exponent b))) as (j & Hj & Hnv & Hr); [simpl; lia|].
  destruct (normalize_spec (Diyfp (2 * significand b + 1) (exponent b - 1))) as (i & Hi & Hnp & Hri); [simpl; lia|].
  cbn [f e] in *. destruct (shift_range _ _ Hsig Hj Hr) as (Hj' & H1 & H2 & H9 & Hp).
  assert (i = j - 1) as -> by (apply (top_bit_unique (2 * significand b + 1)); [lia..|nia]).
  exists j. split; [done|]. split; [done|]. unfold lower_bound, upper_bound.
  rewrite Hnp. cbn [mbind outcome_bind e]. replace (exponent b - 1 - (j - 1)) with (exponent b - j) by lia.
  destruct (closer b).
  - specialize (Hclose eq_refl). rewrite (u64_small (4 * significand b - 1)) by lia.
    pose proof (normalize_to_spec (Diyfp (4 * significand b - 1) (exponent b - 2)) (j - 2)) as Hnm. cbn [f e] in Hnm.
    replace (exponent b - 2 - (j - 2)) with (exponent b - j) in Hnm by lia.
    rewrite Hnm by nia. cbn [mbind outcome_bind]. by rewrite Hnv.
  - pose proof (normalize_to_spec (Diyfp (2 * significand b - 1) (exponent b - 1)) (j - 1)) as Hnm. cbn [f e] in Hnm.
    replace (exponent b - 1 - (j - 1)) with (exponent b - j) in Hnm by lia.
    rewrite Hnm by nia. cbn [mbind outcome_bind]. by rewrite Hnv.
Qed.

(** ** The decimal lies in the interval *)

(** Both sides of the integer comparison are multiples of one positive number. *)
Definition common (c : cached_power) (n eu : Z) : Q :=
  pow10 (ck c) * pow2 (- eu) * inject_Z (10 ^ (Z.max (- ck c) 0)) * inject_Z (2 ^ (Z.max (- ce c) 0)) *
  inject_Z (10 ^ (Z.max (- n) 0)).

Lemma inject_pow_pos a z : 0 < a → (0 < inject_Z (a ^ (Z.max z 0)))%Q.
Proof. intros Ha. change 0%Q with (inject_Z 0). rewrite <- Zlt_Qlt. apply Z.pow_pos_nonneg; lia. Qed.

Lemma common_pos c n eu : (0 < common c n eu)%Q.
Proof.
  unfold common. pose proof (pow10_pos (ck c)). pose proof (pow2_pos (- eu)).
  repeat apply Qmult_lt_0_compat; try done; by apply inject_pow_pos.
Qed.

Lemma bound_in_units c n eu u :
  (inject_Z (u * (power_num c * 10 ^ (Z.max (- n) 0))) == (inject_Z u * pow2 eu) * common c n eu)%Q.
Proof.
  unfold power_num, common. rewrite !inject_Z_mult, <- (pow10_parts (ck c)).
  assert (H : (pow2 eu * pow2 (- eu) == 1)%Q) by (rewrite <- pow2_add; by rewrite Z.add_opp_diag_r).
  transitivity ((inject_Z u * (pow10 (ck c) * inject_Z (10 ^ Z.max (- ck c) 0) *
    inject_Z (2 ^ Z.max (- ce c) 0) * inject_Z (10 ^ Z.max (- n) 0))) * (pow2 eu * pow2 (- eu)))%Q; [|ring].
  rewrite H. ring.
Qed.

Lemma decimal_in_units c n eu V : ce c + eu + 64 ≤ 0 →
  (inject_Z (V * 10 ^ (Z.max n 0) * 2 ^ (- (ce c + eu + 64)) * (2 ^ 64 * power_den c)) ==
   decimal_value V (- ck c + n) * common c n eu)%Q.
Proof.
  intros Hs. unfold power_den, common, decimal_value.
  rewrite !inject_Z_mult, <- (pow10_parts n), <- (pow2_parts (ce c)).
  rewrite <- (pow2_Z (- (ce c + eu + 64))), <- (pow2_Z 64), pow10_add by lia.
  assert (H1 : (pow10 (- ck c) * pow10 (ck c) == 1)%Q)
    by (rewrite <- pow10_add; by rewrite Z.add_opp_diag_l).
  assert (H2 : (pow2 (- (ce c + eu + 64)) * pow2 64 * pow2 (ce c) == pow2 (- eu))%Q)
    by (rewrite <- !pow2_add; by replace (- (ce c + eu + 64) + 64 + ce c) with (- eu) by lia).
  rewrite <- H2.
  transitivity ((inject_Z V * pow10 n * inject_Z (10 ^ Z.max (- n) 0) * inject_Z (10 ^ Z.max (- ck c) 0) *
    inject_Z (2 ^ Z.max (- ce c) 0) * (pow2 (- (ce c + eu + 64)) * pow2 64 * pow2 (ce c))) *
    (pow10 (- ck c) * pow10 (ck c)))%Q; [rewrite H1; ring|ring].
Qed.

(** The bounds are the middles of the gaps. *)
Lemma upper_bound_value b j : 0 < b → 1 ≤ j →
  (2 * (inject_Z (upper_bound b j) * pow2 (exponent b - j)) == double_value b + double_value (b + 1))%Q.
Proof.
  intros Hb Hj. rewrite double_value_succ by lia. unfold upper_bound, double_value.
  rewrite inject_Z_mult, <- (pow2_Z (j - 1)) by lia.
  assert (H : (pow2 (exponent b) == 2 * (pow2 (j - 1) * pow2 (exponent b - j)))%Q).
  { change 2%Q with (pow2 1). rewrite <- !pow2_add. by replace (1 + (j - 1 + (exponent b - j))) with (exponent b) by lia. }
  rewrite H, inject_Z_plus, inject_Z_mult. change (inject_Z 2) with 2%Q. change (inject_Z 1) with 1%Q. ring.
Qed.

Lemma lower_bound_value b j : 0 < b → 2 ≤ j →
  (2 * (inject_Z (lower_bound b j) * pow2 (exponent b - j)) == double_value (b - 1) + double_value b)%Q.
Proof.
  intros Hb Hj. pose proof (double_value_pred b Hb) as Hpred. unfold lower_bound.
  assert (H1 : (pow2 (exponent b) == 2 * (pow2 (j - 1) * pow2 (exponent b - j)))%Q).
  { change 2%Q with (pow2 1). rewrite <- !pow2_add. by replace (1 + (j - 1 + (exponent b - j))) with (exponent b) by lia. }
  assert (H2 : (pow2 (exponent b - 1) == 2 * (pow2 (j - 2) * pow2 (exponent b - j)))%Q).
  { change 2%Q with (pow2 1). rewrite <- !pow2_add. by replace (1 + (j - 2 + (exponent b - j))) with (exponent b - 1) by lia. }
  assert (H3 : (pow2 (exponent b) == 2 * pow2 (exponent b - 1))%Q).
  { change 2%Q with (pow2 1). rewrite <- pow2_add. by replace (1 + (exponent b - 1)) with (exponent b) by lia. }
  destruct (closer b).
  - rewrite inject_Z_mult, <- (pow2_Z (j - 2)) by lia.
    unfold Z.sub at 1. rewrite inject_Z_plus, inject_Z_mult.
    change (inject_Z 4) with 4%Q. change (inject_Z (- (1))) with (-1)%Q.
    assert (Hv : (double_value b == inject_Z (significand b) * (2 * pow2 (exponent b - 1)))%Q)
      by (unfold double_value; by rewrite H3).
    rewrite H2 in Hv, Hpred. lra.
  - rewrite inject_Z_mult, <- (pow2_Z (j - 1)) by lia.
    unfold Z.sub at 1. rewrite inject_Z_plus, inject_Z_mult.
    change (inject_Z 2) with 2%Q. change (inject_Z (- (1))) with (-1)%Q.
    assert (Hv : (double_value b == inject_Z (significand b) * pow2 (exponent b))%Q) by done.
    rewrite H1 in Hv, Hpred. lra.
Qed.

(** What scaling needs to know about the bounds. *)
Lemma bounds_apart b j : 0 < b < infinity → 0 ≤ j → 2 ^ 63 ≤ significand b * 2 ^ j < 2 ^ 64 →
  0 < lower_bound b j ∧ lower_bound b j + 2 ^ 9 ≤ significand b * 2 ^ j ∧
  2 ^ 63 ≤ significand b * 2 ^ j ∧ significand b * 2 ^ j + 2 ^ 9 ≤ upper_bound b j ∧
  upper_bound b j < 2 ^ 64 ∧ upper_bound b j ≤ 10 ^ 16 * (upper_bound b j - lower_bound b j - 6).
Proof.
  intros Hb Hj Hr. pose proof (significand_range b Hb) as Hsig.
  pose proof (closer_significand b ltac:(lia)) as Hclose.
  destruct (shift_range _ _ Hsig Hj Hr) as (Hj' & H1 & H2 & H9 & Hp).
  unfold lower_bound, upper_bound. rewrite H2 in *. rewrite H1 in *.
  set (Y := 2 ^ (j - 2)) in *. set (S := significand b) in *. clearbody Y S.
  assert (HSY : Y ≤ S * Y ∧ S * Y ≤ (2 ^ 53 - 1) * Y)
    by (split; [rewrite <- (Z.mul_1_l Y) at 1|]; apply Z.mul_le_mono_nonneg_r; lia).
  destruct (closer b); [rewrite (Hclose eq_refl) in *|]; lia.
Qed.

(** [grisu2] on a positive finite double: at most seventeen digits, without a leading
    zero, of a number to which no other double is as near. *)
Lemma grisu2_spec b : 0 < b < infinity → ∃ ds x, grisu2 b = Val (ds, x) ∧
  (1 ≤ length ds ≤ 17)%nat ∧ digits_ok ds ∧ -341 ≤ x ≤ 309 ∧ nearest (decimal_value (digits_value ds) x) b.
Proof.
  intros Hb. pose proof (significand_range b Hb) as Hsig. pose proof (exponent_range b Hb) as Hex.
  destruct (compute_boundaries_spec b Hb) as (j & Hj & Hr & Hcb).
  destruct (shift_range _ _ Hsig Hj Hr) as (Hj' & H1 & H2 & H9 & Hp).
  unfold grisu2. rewrite Hcb. cbn [mbind outcome_bind minus w plus].
  destruct (grisu2_scaled_spec (lower_bound b j) (significand b * 2 ^ j) (upper_bound b j) (exponent b - j))
    as (c & ds & n & Hc & -> & Hlen & Hds & Hn & Hce & Hlo & Hhi).
  1-7: destruct (bounds_apart b j Hb Hj Hr) as (?&?&?&?&?&?); lia.
  exists ds, (- ck c + n). split_and!; [done|lia|lia|done|destruct Hc as (_ & _ & Hck); lia..|].
  rewrite Zlt_Qlt, bound_in_units, decimal_in_units, Qmult_lt_r in Hlo by (apply common_pos || lia).
  rewrite Zlt_Qlt, bound_in_units, decimal_in_units, Qmult_lt_r in Hhi by (apply common_pos || lia).
  pose proof (upper_bound_value b j ltac:(lia) ltac:(lia)).
  pose proof (lower_bound_value b j ltac:(lia) ltac:(lia)).
  apply nearest_between; [done|lra|lra].
Qed.

(** ** Formatting *)

(** What can follow the digits of a number. *)
Definition reads_exponent (s : bytes) (x : Z) (rest : bytes) : Prop :=
  no_digit s ∧ read_fraction s = Some ([], s) ∧ read_exponent s = Some (x, rest).

Lemma reads_no_exponent rest : ends_number rest → reads_exponent rest 0 rest.
Proof.
  unfold reads_exponent. destruct rest as [|b rest]; [done|]. intros (Hd & Hdot & He & HE)%ends_number_cons.
  simpl. rewrite !decide_False by naive_solver. done.
Qed.

Lemma read_unsigned_chars int frac s x rest :
  digits_ok int ∨ int = [0] → int ≠ [] → Forall is_digit frac → reads_exponent s x rest →
  read_unsigned ((digit_char <$> int) ++ match frac with [] => [] | _ => str "." ++ (digit_char <$> frac) end ++ s) =
    Some (digits_value (int ++ frac), x - Z.of_nat (length frac), rest).
Proof.
  intros Hint Hne Hfrac (Hs & Hf & Hx). unfold read_unsigned. destruct frac as [|d frac].
  - rewrite app_nil_l, read_int_chars by done. cbn [mbind option_bind]. rewrite Hf.
    cbn [mbind option_bind]. by rewrite Hx.
  - assert (Hdot : no_digit (str "." ++ (digit_char <$> d :: frac) ++ s)) by (intros [H _]; by vm_compute in H).
    rewrite <- app_assoc, read_int_chars by done. cbn [mbind option_bind].
    rewrite read_fraction_chars by done. cbn [mbind option_bind]. by rewrite Hx.
Qed.

(** The exponent has at least two digits. *)
Lemma append_exponent_spec x : -1000 < x < 1000 → ∃ s, append_exponent x = Val s ∧
  ∀ rest, ends_number rest → reads_exponent (str "e" ++ s ++ rest) x rest.
Proof.
  intros Hx. unfold append_exponent.
  rewrite (JSON_ASSERT_true (-1000 <? x)), (JSON_ASSERT_true (x <? 1000)) by (apply Z.ltb_lt; lia).
  cbn [mbind outcome_bind]. set (k := if x <? 0 then - x else x).
  set (sign := if x <? 0 then str "-" else str "+").
  replace (if x <? 0 then (str "-", - x) else (str "+", x)) with (sign, k)
    by (subst sign k; by destruct (x <? 0)).
  assert (Hk : 0 ≤ k < 1000) by (subst k; destruct (Z.ltb_spec x 0); lia).
  set (text := if k <? 10 then _ else _).
  assert (Htext : ∃ ds, text = digit_char <$> ds ∧ Forall is_digit ds ∧ ds ≠ [] ∧ digits_value ds = k).
  { subst text. clearbody k. clear x sign Hx.
    destruct (Z.ltb_spec k 10); [exists [0; k]|destruct (Z.ltb_spec k 100);
      [exists [k `div` 10; k `mod` 10]|exists [k `div` 100; k `mod` 100 `div` 10; k `mod` 100 `mod` 10]]].
    all: split; [done|]; split; [repeat constructor; unfold is_digit; zarith|]; split; [done|].
    all: unfold digits_value; cbn [foldl]; zarith. }
  destruct Htext as (ds & -> & Hds & Hne & Hval). exists (sign ++ (digit_char <$> ds)). split; [done|].
  intros rest Hrest. assert (Hn : no_digit rest) by (destruct rest; [done|by apply ends_number_cons in Hrest as [? _]]).
  split; [intros [_ H]; by vm_compute in H|]. split; [done|].
  rewrite <- app_assoc. subst sign k. destruct (x <? 0); simpl; rewrite read_digits1_chars by done;
    simpl; rewrite Hval; repeat f_equal; lia.
Qed.

Lemma decimal_value_shift m n x : 0 ≤ n → (decimal_value (m * 10 ^ n) x == decimal_value m (n + x))%Q.
Proof.
  intros Hn. unfold decimal_value. rewrite inject_Z_mult, <- pow10_Z, pow10_add by done. ring.
Qed.

Lemma zeros_are_digits i : Forall is_digit (replicate i 0).
Proof. apply Forall_replicate. unfold is_digit. lia. Qed.

(** The text has digits and then a point or an exponent: it is not that of an
    integer. *)
Definition not_integer (text : bytes) : Prop := ∃ int c t,
  text = (digit_char <$> int) ++ c :: t ∧ Forall is_digit int ∧ int ≠ [] ∧ (c = "."%byte ∨ c = "e"%byte).

(** The text of a number: it is read in front of whatever may follow a number. *)
Definition text_denotes (text : bytes) (q : Q) : Prop := not_integer text ∧ ∃ m x, (decimal_value m x == q)%Q ∧
  ∀ rest, ends_number rest → read_unsigned (text ++ rest) = Some (m, x, rest).

Lemma digits_denote int frac : digits_ok int ∨ int = [0] → int ≠ [] → Forall is_digit frac → frac ≠ [] →
  text_denotes ((digit_char <$> int) ++ str "." ++ (digit_char <$> frac))
    (decimal_value (digits_value (int ++ frac)) (- Z.of_nat (length frac))).
Proof.
  intros Hint Hne Hfrac Hf. split.
  { exists int, "."%byte, (digit_char <$> frac). split; [done|]. split; [|by auto].
    destruct Hint as [[H _]| ->]; [done|by apply (zeros_are_digits 1)]. }
  exists (digits_value (int ++ frac)), (- Z.of_nat (length frac)). split; [done|].
  intros rest Hrest. pose proof (read_unsigned_chars int frac rest 0 rest Hint Hne Hfrac (reads_no_exponent rest Hrest)) as H.
  rewrite <- app_assoc. destruct frac; [done|]. exact H.
Qed.

Lemma text_denotes_eq text q q' : (q == q')%Q → text_denotes text q → text_denotes text q'.
Proof. intros Hq (Hi & m & x & Hm & Hr). split; [done|]. exists m, x. split; [by rewrite Hm|done]. Qed.

(** The four layouts of [format_buffer]. *)
Section layouts.
Context (ds : list Z).
Hypothesis (Hok : digits_ok ds) (Hne : ds ≠ []).

Lemma digits_ok_app ds' : Forall is_digit ds' → digits_ok (ds ++ ds').
Proof. destruct Hok as [H1 H2]. intros H. split; [by apply Forall_app_2|]. by destruct ds. Qed.

Lemma integer_layout z :
  text_denotes ((digit_char <$> ds) ++ replicate z (digit_char 0) ++ str ".0")
    (decimal_value (digits_value ds) (Z.of_nat z)).
Proof.
  eapply text_denotes_eq; [|replace (replicate z (digit_char 0)) with (digit_char <$> replicate z 0) by apply fmap_replicate;
    rewrite app_assoc, <- fmap_app; change (str ".0") with (str "." ++ (digit_char <$> [0])); apply digits_denote].
  - rewrite digits_value_snoc, digits_value_app, digits_value_zeros, length_replicate.
    replace (10 * (digits_value ds * 10 ^ Z.of_nat z + 0) + 0) with (digits_value ds * 10 ^ (Z.of_nat z + 1))
      by (rewrite Z.pow_add_r by lia; ring).
    rewrite decimal_value_shift by lia. by replace (Z.of_nat z + 1 + - Z.of_nat (length [0])) with (Z.of_nat z) by (simpl; lia).
  - left. apply digits_ok_app, zeros_are_digits.
  - by destruct ds.
  - by apply (zeros_are_digits 1).
  - done.
Qed.

Lemma point_layout n : (0 < n < length ds)%nat →
  text_denotes (take n (digit_char <$> ds) ++ str "." ++ drop n (digit_char <$> ds))
    (decimal_value (digits_value ds) (Z.of_nat n - Z.of_nat (length ds))).
Proof.
  intros Hn. destruct Hok as [H1 H2]. rewrite <- fmap_take, <- fmap_drop.
  eapply text_denotes_eq; [|apply digits_denote].
  - rewrite take_drop, length_drop. by replace (- Z.of_nat (length ds - n)) with (Z.of_nat n - Z.of_nat (length ds)) by lia.
  - left. split; [by apply Forall_take|]. destruct ds; [done|]. by destruct n; [lia|].
  - destruct ds; [done|]. by destruct n; [lia|].
  - by apply Forall_drop.
  - intros H%(f_equal length). rewrite length_drop in H. simpl in H. lia.
Qed.

Lemma small_layout z :
  text_denotes (str "0." ++ replicate z (digit_char 0) ++ (digit_char <$> ds))
    (decimal_value (digits_value ds) (- Z.of_nat z - Z.of_nat (length ds))).
Proof.
  destruct Hok as [H1 H2]. change (str "0.") with ((digit_char <$> [0]) ++ str "."). rewrite <- app_assoc.
  replace (replicate z (digit_char 0)) with (digit_char <$> replicate z 0) by apply fmap_replicate.
  rewrite <- fmap_app. eapply text_denotes_eq; [|apply digits_denote].
  - rewrite app_assoc. change ([0] ++ replicate z 0) with (replicate (S z) 0).
    rewrite digits_value_app, digits_value_zeros, length_app, length_replicate.
    by replace (- Z.of_nat (z + length ds)) with (- Z.of_nat z - Z.of_nat (length ds)) by lia.
  - by right.
  - done.
  - apply Forall_app_2; [apply zeros_are_digits|done].
  - by destruct z, ds.
Qed.

Lemma exponent_layout x : -1000 < x < 1000 → ∃ s, append_exponent x = Val s ∧
  text_denotes ((if Z.of_nat (length ds) =? 1 then digit_char <$> ds
                 else take 1 (digit_char <$> ds) ++ str "." ++ drop 1 (digit_char <$> ds)) ++ str "e" ++ s)
    (decimal_value (digits_value ds) (x + 1 - Z.of_nat (length ds))).
Proof.
  intros Hx. destruct (append_exponent_spec x Hx) as (s & Hs & Hread). exists s. split; [done|].
  destruct Hok as [H1 H2]. destruct ds as [|d ds'] eqn:E; [done|]. apply Forall_cons in H1 as [Hd H1].
  split.
  { exists [d]. destruct ds' as [|d' ds']; [exists "e"%byte, s|exists "."%byte, ((digit_char <$> d' :: ds') ++ str "e" ++ s)].
    all: split; [|split; [by apply Forall_singleton|by auto]].
    - done.
    - rewrite (proj2 (Z.eqb_neq _ 1)) by (cbn [length]; lia). by rewrite <- !app_assoc. }
  exists (digits_value (d :: ds')), (x - Z.of_nat (length ds')). split.
  { by replace (x + 1 - Z.of_nat (length (d :: ds'))) with (x - Z.of_nat (length ds')) by (cbn [length]; lia). }
  intros rest Hrest.
  assert (H : read_unsigned ((digit_char <$> [d]) ++ match ds' with [] => [] | _ => str "." ++ (digit_char <$> ds') end ++ str "e" ++ s ++ rest)
    = Some (digits_value ([d] ++ ds'), x - Z.of_nat (length ds'), rest)).
  { apply read_unsigned_chars; [left; split; [by apply Forall_singleton|done]|done|done|by apply Hread]. }
  destruct ds' as [|d' ds'].
  - exact H.
  - rewrite (proj2 (Z.eqb_neq _ 1)) by (cbn [length]; lia).
    rewrite <- !app_assoc. exact H.
Qed.
End layouts.

Lemma format_buffer_spec ds dec : digits_ok ds → (1 ≤ length ds ≤ 17)%nat → -341 ≤ dec ≤ 309 →
  ∃ text, format_buffer (digit <$> ds) dec (-4) 15 = Val text ∧
    text_denotes text (decimal_value (digits_value ds) dec).
Proof.
  intros Hok Hlen Hdec. assert (Hne : ds ≠ []) by (destruct ds; simpl in Hlen; [lia|done]).
  unfold format_buffer. cbn [JSON_ASSERT mbind outcome_bind Z.ltb Z.compare]. rewrite length_fmap.
  change digit with digit_char.
  set (k := Z.of_nat (length ds)). set (n := k + dec).
  destruct ((k <=? n) && (n <=? 15)) eqn:E1; [|destruct ((0 <? n) && (n <=? 15)) eqn:E2;
    [|destruct ((-4 <? n) && (n <=? 0)) eqn:E3]].
  - apply andb_prop in E1 as [E1%Z.leb_le _]. eexists. split; [done|].
    pose proof (integer_layout ds Hok Hne (Z.to_nat (n - k))) as H. by replace (Z.of_nat _) with dec in H by lia.
  - apply andb_prop in E2 as [Hn%Z.ltb_lt Hn15]. rewrite Hn15, andb_true_r in E1. apply Z.leb_gt in E1.
    rewrite JSON_ASSERT_true by (by apply Z.ltb_lt). cbn [mbind outcome_bind]. eexists. split; [done|].
    pose proof (point_layout ds Hok Hne (Z.to_nat n) ltac:(lia)) as H. by replace (_ - _) with dec in H by lia.
  - apply andb_prop in E3 as [_ Hn%Z.leb_le]. eexists. split; [done|].
    pose proof (small_layout ds Hok Hne (Z.to_nat (- n))) as H. by replace (_ - _) with dec in H by lia.
  - destruct (exponent_layout ds Hok Hne (n - 1) ltac:(lia)) as (s & -> & H). cbn [mbind outcome_bind].
    eexists. split; [done|]. by replace (_ - _) with dec in H by lia.
Qed.

Lemma append_exponent_length x s : append_exponent x = Val s → (length s ≤ 4)%nat.
Proof.
  unfold append_exponent. intros H. apply bind_Val_inv in H as (_ & _ & H). apply bind_Val_inv in H as (_ & _ & H).
  destruct (x <? 0); injection H as <-; simpl; repeat case_match; simpl; lia.
Qed.

Ltac solve_length :=
  repeat (rewrite ?length_app, ?length_take, ?length_drop, ?length_replicate; simpl length); lia.

(** The text fits the buffer of 64 characters with room to spare. *)
Lemma format_buffer_length buf dec text : (1 ≤ length buf ≤ 17)%nat →
  format_buffer buf dec (-4) 15 = Val text → (length text ≤ 23)%nat.
Proof.
  intros Hlen. unfold format_buffer. cbn [JSON_ASSERT mbind outcome_bind Z.ltb Z.compare].
  set (k := Z.of_nat (length buf)). set (n := k + dec).
  destruct ((k <=? n) && (n <=? 15)) eqn:E1; [|destruct ((0 <? n) && (n <=? 15)) eqn:E2;
    [|destruct ((-4 <? n) && (n <=? 0)) eqn:E3]]; intros H.
  - injection H as <-. apply andb_prop in E1 as [?%Z.leb_le ?%Z.leb_le].
    solve_length.
  - apply bind_Val_inv in H as (_ & _ & H). injection H as <-.
    solve_length.
  - injection H as <-. apply andb_prop in E3 as [?%Z.ltb_lt ?%Z.leb_le].
    solve_length.
  - apply bind_Val_inv in H as (s & Hs & H). apply append_exponent_length in Hs. injection H as <-.
    destruct (k =? 1); solve_length.
Qed.

(** ** The sign *)

Definition magnitude (bits : Z) : Z := bits `mod` 2 ^ 63.

Lemma magnitude_sign bits : 0 ≤ bits < 2 ^ 64 →
  magnitude bits = if signbit bits then negate bits else bits.
Proof.
  intros Hb. unfold magnitude, signbit, negate. apply Z.bits_inj'. intros i Hi.
  destruct (Z.lt_ge_cases i 63) as [Hlt|Hge].
  - rewrite Z.mod_pow2_bits_low by lia.
    destruct (Z.testbit bits 63); [|done]. rewrite Z.lxor_spec, Z.pow2_bits_false by lia.
    by rewrite xorb_false_r.
  - rewrite Z.mod_pow2_bits_high by lia.
    assert (Hhigh : 64 ≤ i → Z.testbit bits i = false).
    { intros H. rewrite <- (Z.mod_small bits (2 ^ 64)) by lia. by apply Z.mod_pow2_bits_high. }
    destruct (decide (i = 63)) as [->|].
    + destruct (Z.testbit bits 63) eqn:E; [|done]. by rewrite Z.lxor_spec, E, Z.pow2_bits_true by lia.
    + destruct (Z.testbit bits 63); [rewrite Z.lxor_spec, Z.pow2_bits_false by lia|]; by rewrite Hhigh by lia.
Qed.

Lemma magnitude_finite bits : 0 ≤ bits < 2 ^ 64 → isfinite bits = true → 0 ≤ magnitude bits < infinity.
Proof.
  unfold isfinite, exponent_bits, magnitude, infinity. intros Hb Hf.
  apply negb_true_iff, Z.eqb_neq in Hf. rewrite Z.shiftr_div_pow2 in Hf by lia.
  assert (Hl : Z.land (bits `div` 2 ^ 52) 0x7FF = bits `div` 2 ^ 52 `mod` 2 ^ 11)
    by exact (Z.land_ones _ 11 ltac:(lia)).
  rewrite Hl in Hf. clear Hl.
  pose proof (Z.mod_pos_bound bits (2 ^ 63) ltac:(lia)).
  assert (Hd : bits `div` 2 ^ 52 `mod` 2 ^ 11 = bits `mod` 2 ^ 63 `div` 2 ^ 52)
    by (Z.div_mod_to_equations; lia).
  rewrite Hd in Hf. split; [lia|].
  assert (bits `mod` 2 ^ 63 `div` 2 ^ 52 < 2048) by (apply Z.div_lt_upper_bound; lia).
  Z.div_mod_to_equations; lia.
Qed.

Lemma nearest_zero x : nearest (decimal_value 0 x) 0.
Proof.
  assert (H0 : (decimal_value 0 x == 0)%Q) by (unfold decimal_value; change (inject_Z 0) with 0%Q; ring).
  assert (Hd : (double_value 0 == 0)%Q) by done.
  split; [done|]. intros b Hb Hne. pose proof (double_value_lt 0 b ltac:(lia) ltac:(lia)).
  rewrite H0, Hd. rewrite (Qabs_neg (0 - double_value b)) by lra. rewrite Qabs_pos by lra. lra.
Qed.

Lemma read_signed (neg : bool) text m x rest : read_unsigned text = Some (m, x, rest) →
  read_number ((if neg then str "-" else []) ++ text) = Some (neg, m, x, rest).
Proof.
  intros H. destruct neg; simpl; [by rewrite H|]. destruct text as [|b text]; [done|].
  simpl. destruct (decide (b = "-"%byte)) as [->|]; [done|by rewrite H].
Qed.

Lemma to_chars_spec bits : 0 ≤ bits < 2 ^ 64 → isfinite bits = true → ∃ text m x,
  to_chars bits = Val ((if signbit bits then str "-" else []) ++ text) ∧ (length text ≤ 23)%nat ∧ not_integer text ∧
  (∀ rest, ends_number rest → read_unsigned (text ++ rest) = Some (m, x, rest)) ∧
  nearest (decimal_value m x) (magnitude bits).
Proof.
  intros Hb Hf. pose proof (magnitude_finite bits Hb Hf) as Hm. pose proof (magnitude_sign bits Hb) as Hs.
  unfold to_chars. rewrite Hf. cbn [JSON_ASSERT mbind outcome_bind].
  set (sign := if signbit bits then str "-" else []).
  replace (if signbit bits then (str "-", negate bits) else ([], bits)) with (sign, magnitude bits)
    by (rewrite Hs; subst sign; by destruct (signbit bits)).
  assert (Hl : Z.land (magnitude bits) (2 ^ 63 - 1) = magnitude bits).
  { transitivity (magnitude bits `mod` 2 ^ 63); [exact (Z.land_ones _ 63 ltac:(lia))|].
    apply Z.mod_mod. lia. }
  unfold is_zero. rewrite Hl. clear Hl Hs.
  destruct (Z.eqb_spec (magnitude bits) 0) as [H0|H0].
  - exists (str "0.0"), 0, (-1). split; [done|]. split; [simpl; lia|].
    split; [by exists [0], "."%byte, (str "0"); split_and!; [|apply (zeros_are_digits 1)| |left]|].
    rewrite H0. split; [|apply nearest_zero]. intros rest Hrest.
    exact (read_unsigned_chars [0] [0] rest 0 rest (or_intror eq_refl) ltac:(done)
      (zeros_are_digits 1) (reads_no_exponent rest Hrest)).
  - destruct (grisu2_spec (magnitude bits) ltac:(lia)) as (ds & x & -> & Hlen & Hds & Hx & Hnear).
    cbn [mbind outcome_bind].
    rewrite JSON_ASSERT_true by (apply Z.leb_le; change (Z.of_nat max_digits10) with 17; lia). cbn [mbind outcome_bind].
    destruct (format_buffer_spec ds x Hds Hlen Hx) as (text & Htext & Hi & m & x' & Hq & Hread).
    rewrite Htext. cbn [mbind outcome_bind].
    apply format_buffer_length in Htext; [|by rewrite length_fmap].
    exists text, m, x'. split_and!; [done|done|done|done|].
    destruct Hnear as [Hr Hnear]. split; [done|]. intros b' Hb' Hne. rewrite Hq. by apply Hnear.
Qed.

Lemma magnitude_value bits : 0 ≤ bits < 2 ^ 64 →
  bits = magnitude bits + (if signbit bits then 2 ^ 63 else 0).
Proof.
  intros Hb. unfold magnitude, signbit. rewrite Z.testbit_eqb by lia.
  assert (Hq : bits `div` 2 ^ 63 = 0 ∨ bits `div` 2 ^ 63 = 1) by (Z.div_mod_to_equations; lia).
  pose proof (Z.div_mod bits (2 ^ 63) ltac:(lia)). destruct Hq as [Hq|Hq]; rewrite Hq in *; simpl; lia.
Qed.

Lemma read_double_spec bits m x : 0 ≤ bits < 2 ^ 64 → nearest (decimal_value m x) (magnitude bits) →
  read_double (signbit bits) m x = bits.
Proof.
  intros Hb Hn. unfold read_double. rewrite (nearest_double_spec _ _ Hn).
  symmetry. by apply magnitude_value.
Qed.

(** C19. Floating-point numbers as text: for every finite double, [to_chars] returns a
    text of at most 24 characters without any of its assertions failing; in front of
    whatever may follow a number a reader of RFC 8259 finds sign, mantissa and
    exponent of a decimal number to which this double is strictly nearer than any
    other finite one, so that reading it in round-to-nearest gives the same bits. *)
Theorem to_chars_reads_back (bits : Z) (rest : bytes) :
  0 ≤ bits < 2 ^ 64 → isfinite bits = true → ends_number rest → ∃ text m x,
  to_chars bits = Val text ∧ (length text ≤ 24)%nat ∧
  read_number (text ++ rest) = Some (signbit bits, m, x, rest) ∧
  nearest (decimal_value m x) (magnitude bits) ∧ read_double (signbit bits) m x = bits.
Proof.
  intros Hb Hf Hrest. destruct (to_chars_spec bits Hb Hf) as (text & m & x & Ht & Hlen & _ & Hread & Hn).
  eexists _, m, x. split; [exact Ht|]. split.
  { rewrite length_app. destruct (signbit bits); simpl; lia. }
  split; [|split; [done|by apply read_double_spec]].
  rewrite <- app_assoc. by apply read_signed, Hread.
Qed.

Lemma to_chars_reads_back_witness : ∃ text m x,
  to_chars 0xBFB999999999999A = Val text ∧ (length text ≤ 24)%nat ∧
  read_number (text ++ str ",") = Some (true, m, x, str ",") ∧
  nearest (decimal_value m x) (magnitude 0xBFB999999999999A) ∧ read_double true m x = 0xBFB999999999999A.
Proof. apply (to_chars_reads_back 0xBFB999999999999A (str ",")); [lia|reflexivity|reflexivity]. Defined.
