(* ===== verification/Json.v ===== *)
(** * JSON text ([nlohmann/json.hpp], [detail::serializer])

    The data type of JSON values, and the serializer that [json::dump] runs:
    UTF-8 decoding by a table-driven automaton, escaping through a buffer of 512
    bytes that is flushed when fewer than 13 bytes are left, integers two digits
    at a time, compact and indented layout.

    [render] is what the compact layout means; [valid_utf8] is the definition of
    UTF-8 by the code points it encodes, not by the automaton. *)

From S2P Require Import Prelude Dtoa.
From stdpp Require Import pretty.
From Stdlib Require Import Strings.Byte.

Open Scope Z_scope.

(** ** Values ([value_t], [basic_json])

    An object is a [std::map]: its members are in the order of their keys, which
    compare as unsigned bytes.  Numbers are 64 bits wide; a [double] is its bit
    pattern. *)

Inductive json :=
| JNull
| JObject (members : list (bytes * json))
| JArray (elements : list json)
| JString (s : bytes)
| JBoolean (b : bool)
| JInteger (z : Z)
| JUnsigned (z : Z)
| JFloat (bits : Z)
| JBinary (data : bytes) (subtype : option Z)
| JDiscarded.

(** [std::less<std::string>]. *)
Fixpoint key_lt (a b : bytes) : bool :=
  match a, b with
  | [], [] => false
  | [], _ :: _ => true
  | _ :: _, [] => false
  | x :: a, y :: b => (b2z x <? b2z y) || ((b2z x =? b2z y) && key_lt a b)
  end.

(** [operator[]] followed by an assignment. *)
Fixpoint map_insert (k : bytes) (v : json) (m : list (bytes * json)) : list (bytes * json) :=
  match m with
  | [] => [(k, v)]
  | (k', v') :: m' =>
      if key_lt k k' then (k, v) :: m
      else if key_lt k' k then (k', v') :: map_insert k v m'
      else (k', v) :: m'
  end.

Definition type_name (j : json) : string :=
  match j with
  | JNull => "null" | JObject _ => "object" | JArray _ => "array" | JString _ => "string"
  | JBoolean _ => "boolean" | JBinary _ _ => "binary" | JDiscarded => "discarded"
  | JInteger _ | JUnsigned _ | JFloat _ => "number"
  end.

(** [j[k] = v]: null becomes an object, and any other value that is not an object
    raises type_error 305. *)
Definition set_field (k : bytes) (v : json) (j : json) : outcome json :=
  match j with
  | JNull => Val (JObject (map_insert k v []))
  | JObject m => Val (JObject (map_insert k v m))
  | _ => Throw ("[json.exception.type_error.305] cannot use operator[] with a string argument with "
                +:+ type_name j)
  end.

(** ** The serializer *)

Module Serializer.

Inductive error_handler_t := strict | replace | ignore.

Definition UTF8_ACCEPT : Z := 0.
Definition UTF8_REJECT : Z := 1.

Definition utf8d : list Z := [
  0; 0; 0; 0; 0; 0; 0; 0; 0; 0; 0; 0; 0; 0; 0; 0;
  0; 0; 0; 0; 0; 0; 0; 0; 0; 0; 0; 0; 0; 0; 0; 0;
  0; 0; 0; 0; 0; 0; 0; 0; 0; 0; 0; 0; 0; 0; 0; 0;
  0; 0; 0; 0; 0; 0; 0; 0; 0; 0; 0; 0; 0; 0; 0; 0;
  0; 0; 0; 0; 0; 0; 0; 0; 0; 0; 0; 0; 0; 0; 0; 0;
  0; 0; 0; 0; 0; 0; 0; 0; 0; 0; 0; 0; 0; 0; 0; 0;
  0; 0; 0; 0; 0; 0; 0; 0; 0; 0; 0; 0; 0; 0; 0; 0;
  0; 0; 0; 0; 0; 0; 0; 0; 0; 0; 0; 0; 0; 0; 0; 0;
  1; 1; 1; 1; 1; 1; 1; 1; 1; 1; 1; 1; 1; 1; 1; 1;
  9; 9; 9; 9; 9; 9; 9; 9; 9; 9; 9; 9; 9; 9; 9; 9;
  7; 7; 7; 7; 7; 7; 7; 7; 7; 7; 7; 7; 7; 7; 7; 7;
  7; 7; 7; 7; 7; 7; 7; 7; 7; 7; 7; 7; 7; 7; 7; 7;
  8; 8; 2; 2; 2; 2; 2; 2; 2; 2; 2; 2; 2; 2; 2; 2;
  2; 2; 2; 2; 2; 2; 2; 2; 2; 2; 2; 2; 2; 2; 2; 2;
  10; 3; 3; 3; 3; 3; 3; 3; 3; 3; 3; 3; 3; 4; 3; 3;
  11; 6; 6; 6; 5; 8; 8; 8; 8; 8; 8; 8; 8; 8; 8; 8;
  0; 1; 2; 3; 5; 8; 7; 1; 1; 1; 4; 6; 1; 1; 1; 1;
  1; 1; 1; 1; 1; 1; 1; 1; 1; 1; 1; 1; 1; 1; 1; 1;
  1; 0; 1; 1; 1; 1; 1; 0; 1; 0; 1; 1; 1; 1; 1; 1;
  1; 2; 1; 1; 1; 1; 1; 2; 1; 2; 1; 1; 1; 1; 1; 1;
  1; 1; 1; 1; 1; 1; 1; 2; 1; 1; 1; 1; 1; 1; 1; 1;
  1; 2; 1; 1; 1; 1; 1; 1; 1; 2; 1; 1; 1; 1; 1; 1;
  1; 1; 1; 1; 1; 1; 1; 3; 1; 3; 1; 1; 1; 1; 1; 1;
  1; 3; 1; 1; 1; 1; 1; 3; 1; 3; 1; 1; 1; 1; 1; 1;
  1; 3; 1; 1; 1; 1; 1; 1; 1; 1; 1; 1; 1; 1; 1; 1
].

(** [decode]: the new state and code point. *)
Definition decode (state codep byte : Z) : Z * Z :=
  let type := nth (Z.to_nat byte) utf8d 0 in
  let codep :=
    if negb (state =? UTF8_ACCEPT)
    then Z.lor (Z.land byte 0x3f) (u32 (Z.shiftl codep 6))
    else Z.land (Z.shiftr 0xFF type) byte in
  (nth (Z.to_nat (256 + state * 16 + type)) utf8d 0, codep).

(** ["%04x"] of a 16-bit value, and the upper-case digits of [hex_bytes]. *)
Definition hex_lower (d : Z) : byte := z2b (if d <? 10 then 48 + d else 87 + d).
Definition hex_upper (d : Z) : byte := z2b (if d <? 10 then 48 + d else 55 + d).
Definition hex4 (z : Z) : bytes :=
  [hex_lower (z `div` 4096 `mod` 16); hex_lower (z `div` 256 `mod` 16);
   hex_lower (z `div` 16 `mod` 16); hex_lower (z `mod` 16)].
Definition hex_bytes (byte : Z) : bytes := [hex_upper (byte `div` 16); hex_upper (byte `mod` 16)].

Definition BUFFER_SIZE : nat := 512.

(** The local variables of [dump_escaped] and what has been written to the
    output: [buffer] is [string_buffer[0 .. bytes)]. *)
Record esc := Esc {
  written : bytes;
  buffer : bytes;
  bytes_after_last_accept : nat;
  undumped_chars : nat;
  codepoint : Z;
  state : Z;
}.

(** [string_buffer[bytes++] = c] for each of [cs]; [reserve] more bytes are
    written after them (the zero of [snprintf]). *)
Definition put (cs : bytes) (reserve : nat) (buffer : bytes) : outcome bytes :=
  if decide (length buffer + length cs + reserve ≤ BUFFER_SIZE)%nat
  then Val (buffer ++ cs) else Undefined.

(** [if (string_buffer.size() - bytes < 13)] write the buffer and reset it. *)
Definition flush (st : esc) : esc :=
  if decide (BUFFER_SIZE - length (buffer st) < 13)%nat
  then Esc (written st ++ buffer st) [] (bytes_after_last_accept st) (undumped_chars st)
         (codepoint st) (state st)
  else st.

(** What one accepted code point, ending in the byte [b], adds to the buffer. *)
Definition put_codepoint (ensure_ascii : bool) (cp : Z) (b : byte) (buffer : bytes)
    : outcome bytes :=
  if cp =? 0x08 then put [x5c; x62] 0 buffer
  else if cp =? 0x09 then put [x5c; x74] 0 buffer
  else if cp =? 0x0A then put [x5c; x6e] 0 buffer
  else if cp =? 0x0C then put [x5c; x66] 0 buffer
  else if cp =? 0x0D then put [x5c; x72] 0 buffer
  else if cp =? 0x22 then put [x5c; x22] 0 buffer
  else if cp =? 0x5C then put [x5c; x5c] 0 buffer
  else if (cp <=? 0x1F) || (ensure_ascii && (0x7F <=? cp)) then
    if cp <=? 0xFFFF then put ([x5c; x75] ++ hex4 cp) 1 buffer
    else put ([x5c; x75] ++ hex4 (u16 (0xD7C0 + Z.shiftr cp 10)) ++
              [x5c; x75] ++ hex4 (u16 (0xDC00 + Z.land cp 0x3FF))) 1 buffer
  else put [b] 0 buffer.

Definition to_string (z : Z) : string := pretty z.
Definition type_error_316 (what : string) : string :=
  "[json.exception.type_error.316] " +:+ what.
Definition invalid_byte (i : nat) (byte : Z) : string :=
  type_error_316 ("invalid UTF-8 byte at index " +:+ to_string (Z.of_nat i) +:+ ": 0x" +:+
    String.string_of_list_byte (hex_bytes byte)).
Definition incomplete_string (last : Z) : string :=
  type_error_316 ("incomplete UTF-8 string; last byte: 0x" +:+
    String.string_of_list_byte (hex_bytes last)).

(** One round of the loop on the byte at index [i]; [true] when the round steps
    the index back to read the byte again. *)
Definition escape_step (handler : error_handler_t) (ensure_ascii : bool) (i : nat) (b : byte)
    (st : esc) : outcome (esc * bool) :=
  let '(state, codepoint) := decode (state st) (codepoint st) (b2z b) in
  if state =? UTF8_ACCEPT then
    buffer ← put_codepoint ensure_ascii codepoint b (buffer st);
    let st := flush (Esc (written st) buffer (bytes_after_last_accept st) (undumped_chars st)
                       codepoint state) in
    Val (Esc (written st) (Serializer.buffer st) (length (Serializer.buffer st)) 0
           codepoint state, false)
  else if state =? UTF8_REJECT then
    match handler with
    | strict => Throw (invalid_byte i (b2z b))
    | ignore | replace =>
        let again := bool_decide (0 < undumped_chars st)%nat in
        let buffer := take (bytes_after_last_accept st) (buffer st) in
        let st := Esc (written st) buffer (bytes_after_last_accept st) (undumped_chars st)
                    codepoint state in
        st ← match handler with
             | replace =>
                 buffer ← put (if ensure_ascii then str "\ufffd" else [xef; xbf; xbd]) 0
                            buffer;
                 let st := flush (Esc (written st) buffer (bytes_after_last_accept st)
                                    (undumped_chars st) codepoint state) in
                 Val (Esc (written st) (Serializer.buffer st)
                        (length (Serializer.buffer st)) (undumped_chars st) codepoint state)
             | _ => Val st
             end;
        Val (Esc (written st) (Serializer.buffer st) (bytes_after_last_accept st) 0
               codepoint UTF8_ACCEPT, again)
    end
  else
    buffer ← (if ensure_ascii then Val (buffer st) else put [b] 0 (buffer st));
    Val (Esc (written st) buffer (bytes_after_last_accept st) (S (undumped_chars st))
           codepoint state, false).

(** [for (i = 0; i < s.size(); ++i)].  Each byte is read twice at most, so twice
    the length of the string is enough fuel. *)
Fixpoint escape_loop (fuel : nat) (handler : error_handler_t) (ensure_ascii : bool)
    (s : bytes) (i : nat) (st : esc) : outcome esc :=
  match s !! i with
  | None => Val st
  | Some b =>
      match fuel with
      | O => Undefined
      | S fuel =>
          '(st, again) ← escape_step handler ensure_ascii i b st;
          escape_loop fuel handler ensure_ascii s (if again : bool then i else S i) st
      end
  end.

(** [dump_escaped]: the characters written for the string [s]. *)
Definition dump_escaped (handler : error_handler_t) (ensure_ascii : bool) (s : bytes)
    : outcome bytes :=
  st ← escape_loop (2 * length s) handler ensure_ascii s 0 (Esc [] [] 0 0 0 UTF8_ACCEPT);
  if state st =? UTF8_ACCEPT then
    Val (if decide (0 < length (buffer st))%nat then written st ++ buffer st else written st)
  else
    let accepted := take (bytes_after_last_accept st) (buffer st) in
    match handler with
    | strict =>
        match last s with
        | Some b => Throw (incomplete_string (b2z b))
        | None => Undefined
        end
    | ignore => Val (written st ++ accepted)
    | replace =>
        Val (written st ++ accepted ++
             if ensure_ascii then str "\ufffd" else [xef; xbf; xbd])
    end.

(** ** Integers *)

(** [count_digits]: a 64-bit value has at most five groups of four digits. *)
Fixpoint count_digits_loop (fuel : nat) (x n_digits : Z) : Z :=
  if x <? 10 then n_digits
  else if x <? 100 then n_digits + 1
  else if x <? 1000 then n_digits + 2
  else if x <? 10000 then n_digits + 3
  else match fuel with
       | O => n_digits
       | S fuel => count_digits_loop fuel (x `div` 10000) (n_digits + 4)
       end.
Definition count_digits (x : Z) : Z := count_digits_loop 5 x 1.

(** [digits_to_99[d]]. *)
Definition digits_to_99 (d : Z) : bytes := [z2b (48 + d `div` 10); z2b (48 + d `mod` 10)].

(** The loop that fills the number buffer from its end: two digits at a time,
    ten rounds for 20 digits. *)
Fixpoint fill_digits (fuel : nat) (abs_value : Z) (acc : bytes) : bytes :=
  if 100 <=? abs_value then
    match fuel with
    | O => acc
    | S fuel => fill_digits fuel (abs_value `div` 100) (digits_to_99 (abs_value `mod` 100) ++ acc)
    end
  else if 10 <=? abs_value then digits_to_99 abs_value ++ acc
  else z2b (48 + abs_value) :: acc.

(** [remove_sign] of a negative [int64_t]. *)
Definition remove_sign (x : Z) : Z := u64 (u64 (- (x + 1)) + 1).

(** [dump_integer]: the first [n_chars] characters of the buffer.  The digits are
    written backwards from position [n_chars], so a count that disagreed with
    their number would leave the buffer's old contents in the text. *)
Definition dump_integer (x : Z) : outcome bytes :=
  if x =? 0 then Val (str "0")
  else
    let abs_value := if x <? 0 then remove_sign x else u64 x in
    let sign := if x <? 0 then str "-" else [] in
    let n_chars := Z.of_nat (length sign) + count_digits abs_value in
    JSON_ASSERT (n_chars <? 64 - 1);;
    let text := sign ++ fill_digits 10 abs_value [] in
    if decide (Z.of_nat (length text) = n_chars) then Val text else Undefined.

Definition dump_float (bits : Z) : outcome bytes :=
  if Dtoa.isfinite bits then Dtoa.to_chars bits else Val (str "null").

(** ** Values *)

(** The output and the indentation string of a serializer. *)
Record ser := Ser { out : bytes; indent_string : bytes }.

Definition write (cs : bytes) (s : ser) : outcome ser := Val (Ser (out s ++ cs) (indent_string s)).
Definition emit (m : outcome bytes) (s : ser) : outcome ser := cs ← m; write cs s.

(** [o->write_characters(indent_string.c_str(), n)]: the terminating zero is the
    last character that may be read. *)
Definition write_indent (n : Z) (s : ser) : outcome ser :=
  if n <=? Z.of_nat (length (indent_string s)) + 1
  then write (take (Z.to_nat n) (indent_string s ++ [x00])) s
  else Undefined.

(** [if (indent_string.size() < new_indent)] double the string, with spaces. *)
Definition grow_indent (new_indent : Z) (s : ser) : outcome ser :=
  if Z.of_nat (length (indent_string s)) <? new_indent
  then Val (Ser (out s) (indent_string s ++ replicate (length (indent_string s)) x20))
  else Val s.

Definition andThen (f g : ser → outcome ser) : ser → outcome ser := λ s, f s ≫= g.
Infix ">>>" := andThen (at level 60, right associativity).

(** The loops over members, elements and bytes: all but the last are followed by
    [sep]. *)
Definition separated {A} (sep : bytes) (f : A → ser → outcome ser) :=
  fix loop (l : list A) : ser → outcome ser :=
    match l with
    | [] => λ s, Val s
    | [x] => f x
    | x :: l => f x >>> write sep >>> loop l
    end.

Definition dump_bytes (sep : bytes) (data : bytes) : ser → outcome ser :=
  separated sep (λ b, emit (dump_integer (b2z b))) data.

Definition dump_subtype (subtype : option Z) : ser → outcome ser :=
  match subtype with
  | Some z => emit (dump_integer z)
  | None => write (str "null")
  end.

Section Dump.
Context (handler : error_handler_t) (ensure_ascii : bool) (indent_step : Z).

Definition quoted (s : bytes) : ser → outcome ser :=
  write [x22] >>> emit (dump_escaped handler ensure_ascii s).

Fixpoint dump (val : json) (pretty_print : bool) (current_indent : Z) : ser → outcome ser :=
  match val with
  | JObject [] => write (str "{}")
  | JObject members =>
      if pretty_print then
        let new_indent := u32 (current_indent + indent_step) in
        let member (i : bytes * json) :=
          write_indent new_indent >>> quoted i.1 >>> write [x22; x3a; x20] >>>
          dump i.2 true new_indent in
        write [x7b; x0a] >>> grow_indent new_indent >>>
        separated [x2c; x0a] member members >>>
        write [x0a] >>> write_indent current_indent >>> write (str "}")
      else
        let member (i : bytes * json) :=
          quoted i.1 >>> write [x22; x3a] >>> dump i.2 false current_indent in
        write (str "{") >>>
        separated (str ",") member members >>>
        write (str "}")
  | JArray [] => write (str "[]")
  | JArray elements =>
      if pretty_print then
        let new_indent := u32 (current_indent + indent_step) in
        let element (v : json) := write_indent new_indent >>> dump v true new_indent in
        write [x5b; x0a] >>> grow_indent new_indent >>>
        separated [x2c; x0a] element elements >>>
        write [x0a] >>> write_indent current_indent >>> write (str "]")
      else
        write (str "[") >>>
        separated (str ",") (λ v, dump v false current_indent) elements >>>
        write (str "]")
  | JString s => quoted s >>> write [x22]
  | JBinary data subtype =>
      if pretty_print then
        let new_indent := u32 (current_indent + indent_step) in
        write [x7b; x0a] >>> grow_indent new_indent >>> write_indent new_indent >>>
        write (x22 :: str "bytes" ++ [x22] ++ str ": [") >>>
        dump_bytes (str ", ") data >>>
        write [x5d; x2c; x0a] >>> write_indent new_indent >>>
        write (x22 :: str "subtype" ++ [x22] ++ str ": ") >>> dump_subtype subtype >>>
        write [x0a] >>> write_indent current_indent >>> write (str "}")
      else
        write (str "{" ++ x22 :: str "bytes" ++ [x22] ++ str ":[") >>>
        dump_bytes (str ",") data >>>
        write (str "]," ++ x22 :: str "subtype" ++ [x22] ++ str ":") >>>
        dump_subtype subtype >>> write (str "}")
  | JBoolean b => write (if b then str "true" else str "false")
  | JInteger z | JUnsigned z => emit (dump_integer z)
  | JFloat bits => emit (dump_float bits)
  | JDiscarded => write (str "<discarded>")
  | JNull => write (str "null")
  end.
End Dump.
End Serializer.

(** [basic_json::dump]. *)
Definition json_dump (j : json) (indent : Z) (indent_char : byte) (ensure_ascii : bool)
    (handler : Serializer.error_handler_t) : outcome bytes :=
  let s := Serializer.Ser [] (replicate 512 indent_char) in
  Serializer.out <$>
    if 0 <=? indent then Serializer.dump handler ensure_ascii indent j true 0 s
    else Serializer.dump handler ensure_ascii 0 j false 0 s.

(** [j.dump()], with the default arguments. *)
Definition dump (j : json) : outcome bytes :=
  json_dump j (-1) x20 false Serializer.strict.
