(* ===== verification/Utf8.v ===== *)
(** * UTF-8, by code points, and the decoder's automaton

    [utf8_encode] is the encoding of a Unicode scalar value, and a string is
    valid when it is the concatenation of such encodings.  The lemmas relate it to
    [Serializer.decode]: the state of the automaton after the first bytes of a
    character tells exactly which bytes may follow. *)

From S2P Require Import Prelude Dtoa Json.

Open Scope Z_scope.

(** Code points that are not surrogates. *)
Definition scalar (cp : Z) : Prop := 0 ≤ cp < 0xD800 ∨ 0xE000 ≤ cp < 0x110000.

#[global] Instance scalar_dec cp : Decision (scalar cp).
Proof. unfold scalar. apply _. Defined.

Definition utf8_ints (cp : Z) : list Z :=
  if cp <? 0x80 then [cp]
  else if cp <? 0x800 then [0xC0 + cp `div` 64; 0x80 + cp `mod` 64]
  else if cp <? 0x10000 then
    [0xE0 + cp `div` 4096; 0x80 + cp `div` 64 `mod` 64; 0x80 + cp `mod` 64]
  else
    [0xF0 + cp `div` 262144; 0x80 + cp `div` 4096 `mod` 64; 0x80 + cp `div` 64 `mod` 64;
     0x80 + cp `mod` 64].

Definition utf8_encode (cp : Z) : bytes := z2b <$> utf8_ints cp.

Definition utf8_text (cps : list Z) : bytes := concat (utf8_encode <$> cps).

Definition valid_utf8 (s : bytes) : Prop := ∃ cps, Forall scalar cps ∧ s = utf8_text cps.

(** ** The automaton *)

(** The bytes that may follow in each state, as ranges. *)
Definition completions (state : Z) : list (Z * Z) :=
  match state with
  | 2 => [(0x80, 0xBF)]
  | 3 => [(0x80, 0xBF); (0x80, 0xBF)]
  | 4 => [(0xA0, 0xBF); (0x80, 0xBF)]
  | 5 => [(0x80, 0x9F); (0x80, 0xBF)]
  | 6 => [(0x90, 0xBF); (0x80, 0xBF); (0x80, 0xBF)]
  | 7 => [(0x80, 0xBF); (0x80, 0xBF); (0x80, 0xBF)]
  | 8 => [(0x80, 0x8F); (0x80, 0xBF); (0x80, 0xBF)]
  | _ => []
  end.

Definition inside (z : Z) (r : Z * Z) : Prop := r.1 ≤ z ≤ r.2.

#[global] Instance inside_dec z r : Decision (inside z r).
Proof. unfold inside. apply _. Defined.

(** State and code point after a first byte. *)
Definition start (b : Z) : Z * Z :=
  if b <? 0x80 then (0, b)
  else if b <? 0xC2 then (1, (Serializer.decode 0 0 b).2)
  else if b <? 0xE0 then (2, b - 0xC0)
  else if b =? 0xE0 then (4, b - 0xE0)
  else if b =? 0xED then (5, b - 0xE0)
  else if b <? 0xF0 then (3, b - 0xE0)
  else if b =? 0xF0 then (6, b - 0xF0)
  else if b <? 0xF4 then (7, b - 0xF0)
  else if b =? 0xF4 then (8, b - 0xF0)
  else (1, (Serializer.decode 0 0 b).2).

Lemma decode_start c b : Serializer.decode 0 c (b2z b) = start (b2z b).
Proof. destruct b; reflexivity. Qed.

(** The state after one more byte. *)
Definition follow (state b : Z) : Z :=
  match completions state with
  | r :: rs => if decide (inside b r) then
      match rs with [] => 0 | [_] => 2 | _ => 3 end else 1
  | [] => 1
  end.

Lemma decode_follow state c b :
  2 ≤ state ≤ 8 →
  Serializer.decode state c (b2z b) =
    (follow state (b2z b), Z.lor (Z.land (b2z b) 0x3f) (u32 (Z.shiftl c 6))).
Proof.
  intros Hs. unfold Serializer.decode.
  assert (negb (state =? Serializer.UTF8_ACCEPT) = true) as ->
    by (unfold Serializer.UTF8_ACCEPT; destruct (Z.eqb_spec state 0); [lia|done]).
  f_equal.
  assert (Hcases : state = 2 ∨ state = 3 ∨ state = 4 ∨ state = 5 ∨ state = 6 ∨ state = 7 ∨ state = 8)
    by lia.
  destruct Hcases as [->|[->|[->|[->|[->|[->| ->]]]]]]; destruct b; reflexivity.
Qed.

(** The code point after the remaining bytes [xs]. *)
Definition cpval (c : Z) (xs : list Z) : Z := foldl (λ c x, c * 64 + (x - 0x80)) c xs.

(** In [state] with code point [c] after the bytes [pre]: every completion the
    automaton admits ends a scalar value whose encoding is [pre] and the
    completion. *)
Definition awaits (state c : Z) (pre : list Z) : Prop :=
  2 ≤ state ≤ 8 ∧
  0 ≤ c < 2 ^ (21 - 6 * Z.of_nat (length (completions state))) ∧
  ∀ xs, Forall2 inside xs (completions state) →
    scalar (cpval c xs) ∧ utf8_ints (cpval c xs) = pre ++ xs.

Lemma state_cases state :
  2 ≤ state ≤ 8 →
  state = 2 ∨ state = 3 ∨ state = 4 ∨ state = 5 ∨ state = 6 ∨ state = 7 ∨ state = 8.
Proof. lia. Qed.

Lemma completions_cons state :
  2 ≤ state ≤ 8 →
  ∃ lo hi rs, completions state = (lo, hi) :: rs ∧ 0x80 ≤ lo ∧ hi ≤ 0xBF ∧ lo ≤ hi ∧
    (length rs ≤ 2)%nat ∧ Forall (eq (0x80, 0xBF)) rs.
Proof.
  intros [->|[->|[->|[->|[->|[->| ->]]]]]]%state_cases;
    (eexists _, _, _; split; [reflexivity|];
     split_and!; [lia..|simpl; lia|repeat constructor]).
Qed.

Lemma continuation_value c b :
  0 ≤ c < 2 ^ 21 → 0x80 ≤ b ≤ 0xBF →
  Z.lor (Z.land b 0x3f) (u32 (Z.shiftl c 6)) = c * 64 + (b - 0x80).
Proof.
  intros Hc Hb. rewrite wrap_small by (unfold in_unsigned; rewrite Z.shiftl_mul_pow2; lia).
  change 0x3f with (Z.ones 6). rewrite Z.land_ones by lia.
  rewrite lor_shiftl_add by zarith. zarith.
Qed.

Lemma awaits_step state c pre b :
  awaits state c pre →
  let '(state', c') := Serializer.decode state c (b2z b) in
  state' = 1 ∨
  (state' = 0 ∧ scalar c' ∧ utf8_ints c' = pre ++ [b2z b]) ∨
  awaits state' c' (pre ++ [b2z b]).
Proof.
  intros (Hs & Hc & Hall). rewrite decode_follow by done.
  destruct (completions_cons state Hs) as (lo & hi & rs & Hcomp & Hlo & Hhi & Hle & Hn & Hrs).
  unfold follow. rewrite Hcomp in *.
  case_decide as Hin; [right|by left]. unfold inside in Hin. simpl in Hin.
  cbn [length] in Hc.
  rewrite continuation_value; [| |lia].
  2: { split; [lia|]. eapply Z.lt_le_trans; [apply Hc|]. apply Z.pow_le_mono_r; lia. }
  assert (Hrest : ∀ xs, Forall2 inside xs rs →
      scalar (cpval (c * 64 + (b2z b - 0x80)) xs) ∧
      utf8_ints (cpval (c * 64 + (b2z b - 0x80)) xs) = (pre ++ [b2z b]) ++ xs).
  { intros xs Hxs. rewrite <- app_assoc. apply (Hall (b2z b :: xs)). by constructor. }
  destruct rs as [|r1 [|r2 [|r3 rs]]]; [left| right..|simpl in Hn; lia].
  - destruct (Hrest [] ltac:(constructor)) as [Hsc Hu]. rewrite app_nil_r in Hu. done.
  - apply Forall_singleton in Hrs as <-. split_and!; [lia..|simpl in *; lia|done].
  - apply Forall_cons in Hrs as [<- Hrs]. apply Forall_singleton in Hrs as <-.
    split_and!; [lia..|simpl in *; lia|done].
Qed.

(** Two, three and four bytes. *)
Lemma encode2 c x :
  2 ≤ c < 32 → 0x80 ≤ x ≤ 0xBF →
  scalar (c * 64 + (x - 0x80)) ∧ utf8_ints (c * 64 + (x - 0x80)) = [0xC0 + c; x].
Proof.
  intros Hc Hx. split; [unfold scalar; lia|]. unfold utf8_ints.
  repeat (match goal with |- context [?a <? ?b] => destruct (Z.ltb_spec a b) end; try lia).
  repeat f_equal; zarith.
Qed.

Lemma encode3 c x y :
  0 ≤ c < 16 → 0x80 ≤ x ≤ 0xBF → 0x80 ≤ y ≤ 0xBF →
  (c = 0 → 0xA0 ≤ x) → (c = 13 → x < 0xA0) →
  let cp := (c * 64 + (x - 0x80)) * 64 + (y - 0x80) in
  scalar cp ∧ utf8_ints cp = [0xE0 + c; x; y].
Proof.
  intros Hc Hx Hy H0 H13 cp.
  assert (Hcp : 0x800 ≤ cp < 0x10000) by (subst cp; lia).
  split; [unfold scalar; subst cp; lia|]. unfold utf8_ints.
  repeat (match goal with |- context [?a <? ?b] => destruct (Z.ltb_spec a b) end; try lia).
  subst cp. repeat f_equal; zarith.
Qed.

Lemma encode4 c x y z :
  0 ≤ c ≤ 4 → 0x80 ≤ x ≤ 0xBF → 0x80 ≤ y ≤ 0xBF → 0x80 ≤ z ≤ 0xBF →
  (c = 0 → 0x90 ≤ x) → (c = 4 → x < 0x90) →
  let cp := ((c * 64 + (x - 0x80)) * 64 + (y - 0x80)) * 64 + (z - 0x80) in
  scalar cp ∧ utf8_ints cp = [0xF0 + c; x; y; z].
Proof.
  intros Hc Hx Hy Hz H0 H4 cp.
  assert (Hcp : 0x10000 ≤ cp < 0x110000) by (subst cp; lia).
  split; [unfold scalar; subst cp; lia|]. unfold utf8_ints.
  repeat (match goal with |- context [?a <? ?b] => destruct (Z.ltb_spec a b) end; try lia).
  subst cp. repeat f_equal; zarith.
Qed.

(** The completions of a state, byte by byte. *)
Lemma completion1 xs r : Forall2 inside xs [r] → ∃ x, xs = [x] ∧ inside x r.
Proof.
  intros (x & k & Hx & Hk & ->)%Forall2_cons_inv_r. apply Forall2_nil_inv_r in Hk as ->. eauto.
Qed.
Lemma completion2 xs r1 r2 :
  Forall2 inside xs [r1; r2] → ∃ x y, xs = [x; y] ∧ inside x r1 ∧ inside y r2.
Proof.
  intros (x & k & Hx & Hk & ->)%Forall2_cons_inv_r. apply completion1 in Hk as (y & -> & ?). eauto 6.
Qed.
Lemma completion3 xs r1 r2 r3 :
  Forall2 inside xs [r1; r2; r3] →
  ∃ x y z, xs = [x; y; z] ∧ inside x r1 ∧ inside y r2 ∧ inside z r3.
Proof.
  intros (x & k & Hx & Hk & ->)%Forall2_cons_inv_r. apply completion2 in Hk as (y & z & -> & ? & ?).
  eauto 9.
Qed.

Ltac open_completion :=
  let Hxs := fresh in
  intros xs Hxs; cbn [completions] in Hxs;
  (apply completion1 in Hxs as (x & -> & Hx) ||
   apply completion2 in Hxs as (x & y & -> & Hx & Hy) ||
   apply completion3 in Hxs as (x & y & z & -> & Hx & Hy & Hz));
  unfold inside in *; cbn [fst snd] in *; cbn [cpval foldl app].

Lemma start_step b :
  0 ≤ b < 256 →
  let '(state, c) := start b in
  state = 1 ∨ (state = 0 ∧ scalar c ∧ utf8_ints c = [b]) ∨ awaits state c [b].
Proof.
  intros Hb. unfold start.
  destruct (Z.ltb_spec b 0x80).
  { right; left. split_and!; [done|left; lia|]. unfold utf8_ints.
    destruct (Z.ltb_spec b 0x80); [done|lia]. }
  destruct (Z.ltb_spec b 0xC2); [by left|].
  destruct (Z.ltb_spec b 0xE0).
  { right; right. split_and!; [lia..|simpl; lia|]. open_completion.
    destruct (encode2 (b - 0xC0) x) as [? ->]; [lia..|]. split; [done|]. f_equal; lia. }
  destruct (Z.eqb_spec b 0xE0);
    [|destruct (Z.eqb_spec b 0xED); [|destruct (Z.ltb_spec b 0xF0)]].
  1-3: right; right; split_and!; [lia..|simpl; lia|]; open_completion;
    destruct (encode3 (b - 0xE0) x y) as [? ->]; [lia..|]; split; [done|]; f_equal; lia.
  destruct (Z.eqb_spec b 0xF0);
    [|destruct (Z.ltb_spec b 0xF4); [|destruct (Z.eqb_spec b 0xF4)]]; [..|by left].
  1-3: right; right; split_and!; [lia..|simpl; lia|]; open_completion;
    destruct (encode4 (b - 0xF0) x y z) as [? ->]; [lia..|]; split; [done|]; f_equal; lia.
Qed.

Lemma utf8_ints_inj cp cp' :
  scalar cp → scalar cp' → utf8_ints cp = utf8_ints cp' → cp = cp'.
Proof.
  unfold scalar, utf8_ints. intros H H' Heq.
  repeat (match type of Heq with context [?a <? ?b] => destruct (Z.ltb_spec a b) end; try done);
    simplify_eq; zarith.
Qed.

Lemma utf8_ints_bytes cp : scalar cp → Forall (λ z, 0 ≤ z < 256) (utf8_ints cp).
Proof.
  unfold scalar, utf8_ints. intros H.
  repeat (match goal with |- context [?a <? ?b] => destruct (Z.ltb_spec a b) end);
    repeat constructor; zarith.
Qed.

Lemma utf8_encode_ints cp : scalar cp → b2z <$> utf8_encode cp = utf8_ints cp.
Proof.
  intros H. unfold utf8_encode.
  pose proof (utf8_ints_bytes cp H) as Hb. induction Hb as [|z l Hz Hb IH]; [done|].
  cbn [fmap list_fmap] in *. rewrite IH, b2z_z2b, Z.mod_small by lia. done.
Qed.

Lemma utf8_encode_of_ints cp pre :
  utf8_ints cp = b2z <$> pre → utf8_encode cp = pre.
Proof.
  intros H. unfold utf8_encode. rewrite H. clear H.
  induction pre as [|b pre IH]; [done|]. cbn [fmap list_fmap] in *. by rewrite IH, z2b_b2z.
Qed.

Lemma utf8_encode_ascii cp : 0 ≤ cp < 0x80 → utf8_encode cp = [z2b cp].
Proof.
  intros H. unfold utf8_encode, utf8_ints. by destruct (Z.ltb_spec cp 0x80); [|lia].
Qed.

Lemma length_utf8_encode cp : (1 ≤ length (utf8_encode cp) ≤ 4)%nat.
Proof.
  unfold utf8_encode, utf8_ints. rewrite length_fmap. repeat case_match; simpl; lia.
Qed.

Lemma awaits_length state c pre : awaits state c pre → (length pre ≤ 3)%nat.
Proof.
  intros (Hs & _ & Hall).
  destruct (completions_cons state Hs) as (lo & hi & rs & Hc & ? & ? & ? & _ & Hrs).
  assert (Hxs : Forall2 inside (fst <$> completions state) (completions state)).
  { rewrite Hc. simpl. constructor; [unfold inside; simpl; lia|].
    clear Hc. induction Hrs as [|r rs <- Hrs IH]; simpl; constructor; [|done].
    unfold inside; simpl; lia. }
  destruct (Hall _ Hxs) as [_ Hu]. apply (f_equal length) in Hu.
  pose proof (length_utf8_encode (cpval c (fst <$> completions state))) as Hl.
  unfold utf8_encode in Hl. rewrite length_fmap in Hl.
  rewrite length_app, length_fmap in Hu. rewrite Hc in Hu at 2. simpl in Hu. lia.
Qed.

(** The first byte of an encoding leads to a state that admits the others. *)
Lemma encode_admitted cp :
  scalar cp →
  ∃ b xs, utf8_ints cp = b :: xs ∧
    ((xs = [] ∧ (start b).1 = 0) ∨
     (2 ≤ (start b).1 ≤ 8 ∧ Forall2 inside xs (completions (start b).1))).
Proof.
  unfold scalar. intros Hcp. unfold utf8_ints.
  destruct (Z.ltb_spec cp 0x80).
  { eexists _, _. split; [done|]. left. unfold start. by destruct (Z.ltb_spec cp 0x80); [|lia]. }
  destruct (Z.ltb_spec cp 0x800); [|destruct (Z.ltb_spec cp 0x10000)];
    (eexists _, _; split; [done|]; right).
  - set (b := 0xC0 + cp `div` 64).
    assert (0xC2 ≤ b < 0xE0) by (subst b; zarith).
    unfold start.
    repeat (match goal with |- context [?a <? ?b] => destruct (Z.ltb_spec a b) end; try lia).
    split; [simpl; lia|]. repeat constructor; unfold inside; simpl; zarith.
  - set (b := 0xE0 + cp `div` 4096).
    assert (0xE0 ≤ b < 0xF0) by (subst b; zarith).
    unfold start.
    repeat (match goal with
      | |- context [?a <? ?b] => destruct (Z.ltb_spec a b)
      | |- context [?a =? ?b] => destruct (Z.eqb_spec a b) end; try lia);
    (split; [simpl; lia|]); repeat constructor; unfold inside; simpl; subst b; zarith.
  - set (b := 0xF0 + cp `div` 262144).
    assert (0xF0 ≤ b ≤ 0xF4) by (subst b; zarith).
    unfold start.
    repeat (match goal with
      | |- context [?a <? ?b] => destruct (Z.ltb_spec a b)
      | |- context [?a =? ?b] => destruct (Z.eqb_spec a b) end; try lia);
    (split; [simpl; lia|]); repeat constructor; unfold inside; simpl; subst b; zarith.
Qed.

(** ** Strings the automaton accepts *)

Fixpoint accepts (state c : Z) (s : bytes) : bool :=
  match s with
  | [] => state =? 0
  | b :: s =>
      let '(state, c) := Serializer.decode state c (b2z b) in
      negb (state =? 1) && accepts state c s
  end.

Lemma follow_range state b : follow state b ∈ [0; 1; 2; 3].
Proof.
  unfold follow. rewrite !list_elem_of_In. repeat case_match; simpl; auto.
Qed.

Lemma accepts_completion p : ∀ state c s,
  2 ≤ state ≤ 8 → Forall2 inside (b2z <$> p) (completions state) →
  ∃ c', accepts state c (p ++ s) = accepts 0 c' s.
Proof.
  induction p as [|b p IH]; intros state c s Hs Hf.
  { destruct (completions_cons state Hs) as (lo & hi & rs & Hc & _).
    rewrite Hc in Hf. inversion Hf. }
  cbn [app accepts]. rewrite decode_follow by done.
  destruct (completions_cons state Hs) as (lo & hi & rs & Hc & _ & _ & _ & Hn & Hrs).
  unfold follow. rewrite Hc in *. cbn [fmap list_fmap] in Hf.
  apply Forall2_cons in Hf as [Hb Hf]. rewrite decide_True by done.
  destruct rs as [|r1 [|r2 [|]]]; [| | |simpl in Hn; lia].
  - apply Forall2_nil_inv_r in Hf. apply fmap_nil_inv in Hf as ->. eauto.
  - apply Forall_singleton in Hrs as <-. apply (IH 2); [lia|done].
  - apply Forall_cons in Hrs as [<- Hrs]. apply Forall_singleton in Hrs as <-.
    apply (IH 3); [lia|done].
Qed.

Lemma accepts_encode cp c s :
  scalar cp → ∃ c', accepts 0 c (utf8_encode cp ++ s) = accepts 0 c' s.
Proof.
  intros Hcp. destruct (encode_admitted cp Hcp) as (b & xs & Hu & Hcases).
  pose proof (utf8_encode_ints cp Hcp) as He. rewrite Hu in He.
  destruct (utf8_encode cp) as [|b' p]; [done|]. simpl in He. injection He as <- <-.
  cbn [app accepts]. rewrite decode_start.
  destruct (start (b2z b')) as [st c1] eqn:Hst. simpl in Hcases.
  destruct Hcases as [[Hnil ->]|[Hr Hf]].
  - apply fmap_nil_inv in Hnil as ->. simpl. eauto.
  - destruct (Z.eqb_spec st 1); [lia|]. simpl. by apply accepts_completion.
Qed.

Lemma accepts_valid s c : valid_utf8 s → accepts 0 c s = true.
Proof.
  intros (cps & Hcps & ->). revert c. unfold utf8_text.
  induction Hcps as [|cp cps Hcp Hcps IH]; intros c; [done|].
  change (accepts 0 c (utf8_encode cp ++ concat (utf8_encode <$> cps)) = true).
  destruct (accepts_encode cp c (concat (utf8_encode <$> cps)) Hcp) as [c' ->]. apply IH.
Qed.

(** ** Closure of validity *)

Lemma utf8_text_app cps cps' : utf8_text (cps ++ cps') = utf8_text cps ++ utf8_text cps'.
Proof. unfold utf8_text. by rewrite fmap_app, concat_app. Qed.

Lemma utf8_text_snoc cps cp : utf8_text (cps ++ [cp]) = utf8_text cps ++ utf8_encode cp.
Proof. rewrite utf8_text_app. unfold utf8_text at 2. simpl. by rewrite app_nil_r. Qed.

Lemma valid_utf8_app s s' : valid_utf8 s → valid_utf8 s' → valid_utf8 (s ++ s').
Proof.
  intros (cps & ? & ->) (cps' & ? & ->). exists (cps ++ cps').
  split; [by apply Forall_app|by rewrite utf8_text_app].
Qed.

Lemma valid_utf8_ascii s : Forall (λ b, b2z b < 0x80) s → valid_utf8 s.
Proof.
  intros Hs. exists (b2z <$> s). induction Hs as [|b s Hb Hs (Hf & IH)]; [done|].
  pose proof (b2z_range b). split.
  - simpl. constructor; [left; lia|done].
  - unfold utf8_text. simpl. rewrite utf8_encode_ascii, z2b_b2z by lia. simpl. f_equal. done.
Qed.
