(* ===== verification/JsonText.v ===== *)
(** * What [json::dump] writes

    The characters [dump_escaped] and [dump_integer] produce, stated without the
    buffers they fill, and [render], the compact layout of a whole value.  The
    theorems hold the serializer to them. *)

From S2P Require Import Prelude Dtoa DtoaText Json Utf8.
From Stdlib Require Import Strings.Byte.
Import Serializer.

Open Scope Z_scope.

(** ** Escaping *)

(** One code point in a JSON string: the short escapes, the four-digit escapes
    of the control characters and, when ASCII is asked for, of everything from
    delete up, with surrogate pairs above the basic plane. *)
Definition u_escape (z : Z) : bytes := [x5c; x75] ++ hex4 z.

Definition escape_codepoint (ensure_ascii : bool) (cp : Z) : bytes :=
  match cp with
  | 0x08 => str "\b" | 0x09 => str "\t" | 0x0A => str "\n" | 0x0C => str "\f"
  | 0x0D => str "\r" | 0x22 => [x5c; x22] | 0x5C => str "\\"
  | _ =>
      if (cp <? 0x20) || (ensure_ascii && (0x7F <=? cp)) then
        if cp <? 0x10000 then u_escape cp
        else u_escape (0xD800 + (cp - 0x10000) `div` 1024) ++
             u_escape (0xDC00 + (cp - 0x10000) `mod` 1024)
      else utf8_encode cp
  end.

Definition escape_text (ensure_ascii : bool) (cps : list Z) : bytes :=
  concat (escape_codepoint ensure_ascii <$> cps).

Lemma escape_text_snoc e cps cp :
  escape_text e (cps ++ [cp]) = escape_text e cps ++ escape_codepoint e cp.
Proof.
  unfold escape_text. rewrite fmap_app, concat_app. simpl. by rewrite app_nil_r.
Qed.

(** The code point is none of those with a short escape. *)
Definition plain_cp (cp : Z) : bool :=
  negb ((cp =? 8) || (cp =? 9) || (cp =? 10) || (cp =? 12) || (cp =? 13) || (cp =? 0x22) ||
        (cp =? 0x5C)).

Lemma escape_codepoint_plain e cp :
  plain_cp cp = true →
  escape_codepoint e cp =
    if (cp <? 0x20) || (e && (0x7F <=? cp)) then
      if cp <? 0x10000 then u_escape cp
      else u_escape (0xD800 + (cp - 0x10000) `div` 1024) ++
           u_escape (0xDC00 + (cp - 0x10000) `mod` 1024)
    else utf8_encode cp.
Proof.
  unfold plain_cp. intros H. unfold escape_codepoint.
  destruct cp as [|p|p]; [reflexivity| |reflexivity].
  repeat (destruct p as [p|p|]; try reflexivity; try discriminate H).
Qed.

Lemma put_small cs r buf :
  (length buf + length cs + r ≤ BUFFER_SIZE)%nat → put cs r buf = Val (buf ++ cs).
Proof. intros H. unfold put. by rewrite decide_True. Qed.

(** The bytes of the character already in the buffer. *)
Definition pending (ensure_ascii : bool) (pre : bytes) : bytes :=
  if ensure_ascii then [] else pre.

Lemma single_byte cp pre b :
  scalar cp → cp < 0x80 → utf8_encode cp = pre ++ [b] → pre = [] ∧ b = z2b cp.
Proof.
  intros Hs Hcp Hu. rewrite utf8_encode_ascii in Hu by (unfold scalar in Hs; lia).
  by destruct pre as [|? [|]]; simplify_eq/=.
Qed.

Lemma length_hex4 z : length (hex4 z) = 4%nat.
Proof. done. Qed.

Lemma surrogates cp :
  0x10000 ≤ cp < 0x110000 →
  u16 (0xD7C0 + Z.shiftr cp 10) = 0xD800 + (cp - 0x10000) `div` 1024 ∧
  u16 (0xDC00 + Z.land cp 0x3FF) = 0xDC00 + (cp - 0x10000) `mod` 1024.
Proof.
  intros H. rewrite Z.shiftr_div_pow2 by lia. change 0x3FF with (Z.ones 10).
  rewrite Z.land_ones by lia. unfold wrap. split; zarith.
Qed.

(** Accepting a character extends the buffer by what is missing of its escape,
    and never past the end of the buffer. *)
Lemma put_codepoint_ok e cp pre b buf :
  scalar cp → utf8_encode cp = pre ++ [b] →
  (length buf ≤ 499 + length (pending e pre))%nat →
  ∃ cs, put_codepoint e cp b buf = Val (buf ++ cs) ∧
    pending e pre ++ cs = escape_codepoint e cp ∧
    (length (buf ++ cs) ≤ 511)%nat.
Proof.
  intros Hs Hu Hl. pose proof (length_utf8_encode cp) as Hlen.
  rewrite Hu, length_app in Hlen. simpl in Hlen.
  assert (Hpl : (length (pending e pre) ≤ 3)%nat) by (destruct e; simpl; lia).
  assert (Hsingle : cp < 0x80 → pending e pre = [])
    by (intros Hc; destruct (single_byte cp pre b Hs Hc Hu) as [-> _]; by destruct e).
  assert (Hshort : ∀ x y, cp < 0x80 → escape_codepoint e cp = [x; y] →
    ∃ cs, put [x; y] 0 buf = Val (buf ++ cs) ∧ pending e pre ++ cs = escape_codepoint e cp ∧
      (length (buf ++ cs) ≤ 511)%nat).
  { intros x y Hc He. exists [x; y]. rewrite put_small by (unfold BUFFER_SIZE; simpl; lia).
    rewrite He, Hsingle by done. split_and!; [done..|]. rewrite length_app. simpl. lia. }
  unfold put_codepoint.
  do 7 match goal with |- context [cp =? ?k] =>
    destruct (Z.eqb_spec cp k) as [Hk|]; [subst cp; apply Hshort; done|] end.
  assert (Hplain : plain_cp cp = true)
    by (unfold plain_cp; repeat (rewrite (proj2 (Z.eqb_neq _ _)) by done); done).
  rewrite (escape_codepoint_plain e cp Hplain).
  replace (cp <=? 0x1F) with (cp <? 0x20)
    by (destruct (Z.ltb_spec cp 0x20), (Z.leb_spec cp 0x1F); lia).
  destruct ((cp <? 0x20) || (e && (0x7F <=? cp))) eqn:Hesc.
  - assert (Hp : pending e pre = []).
    { apply orb_true_iff in Hesc as [H|H]; [apply Hsingle; lia|].
      apply andb_true_iff in H as [-> _]. done. }
    rewrite Hp in Hl |- *. simpl in Hl.
    destruct (Z.leb_spec cp 0xFFFF), (Z.ltb_spec cp 0x10000); try lia.
    + exists (u_escape cp). unfold u_escape.
      rewrite put_small by (unfold BUFFER_SIZE; rewrite length_app, length_hex4; simpl; lia).
      split_and!; [done..|]. rewrite length_app, length_app, length_hex4. simpl. lia.
    + unfold scalar in Hs. destruct (surrogates cp) as [-> ->]; [lia|].
      eexists. rewrite put_small by (unfold BUFFER_SIZE; rewrite !length_app, !length_hex4; simpl; lia).
      split_and!; [done..|]. rewrite !length_app, !length_hex4. simpl. lia.
  - exists [b]. rewrite put_small by (unfold BUFFER_SIZE; simpl; lia).
    split_and!; [done| |rewrite length_app; simpl; lia].
    rewrite Hu. destruct e; [|done]. simpl. apply orb_false_iff in Hesc as [_ Hesc].
    simpl in Hesc. destruct (single_byte cp pre b Hs) as [-> _]; [lia|done|done].
Qed.

(** ** The loop of [dump_escaped] under the strict handler *)

(** What has been read is a list of whole characters and the beginning of one;
    what has been written is their escape. *)
Definition escaped (e : bool) (done : bytes) (st : esc) : Prop :=
  ∃ cps pre,
    Forall scalar cps ∧ done = utf8_text cps ++ pre ∧
    written st ++ buffer st = escape_text e cps ++ pending e pre ∧
    (length (buffer st) ≤ 499 + length (pending e pre))%nat ∧
    ((state st = 0 ∧ pre = []) ∨ awaits (state st) (codepoint st) (b2z <$> pre)).

Lemma flush_spec st :
  (length (buffer st) ≤ 511)%nat →
  let st' := flush st in
  written st' ++ buffer st' = written st ++ buffer st ∧ (length (buffer st') ≤ 499)%nat ∧
  state st' = state st ∧ codepoint st' = codepoint st.
Proof.
  intros H. unfold flush. unfold BUFFER_SIZE. case_decide; simpl.
  - rewrite app_nil_r. split_and!; [done|lia|done..].
  - split_and!; [done|lia|done..].
Qed.

(** One byte: a rejected one throws, any other keeps the invariant. *)
Lemma strict_step e i b done st :
  escaped e done st →
  let '(state', _) := decode (state st) (codepoint st) (b2z b) in
  (state' = 1 ∧ escape_step strict e i b st = Throw (invalid_byte i (b2z b))) ∨
  (state' ≠ 1 ∧ ∃ st', escape_step strict e i b st = Val (st', false) ∧
     escaped e (done ++ [b]) st' ∧ state st' = state' ∧
     codepoint st' = (decode (state st) (codepoint st) (b2z b)).2).
Proof.
  intros (cps & pre & Hcps & -> & Hw & Hl & Hst).
  destruct (decode (state st) (codepoint st) (b2z b)) as [s' c'] eqn:Hd.
  assert (Hcases : s' = 1 ∨ (s' = 0 ∧ scalar c' ∧ utf8_ints c' = (b2z <$> pre) ++ [b2z b]) ∨
                   awaits s' c' ((b2z <$> pre) ++ [b2z b])).
  { destruct Hst as [[H0 ->]|Ha].
    - rewrite H0, decode_start in Hd. pose proof (start_step (b2z b) (b2z_range b)) as Hs.
      by rewrite Hd in Hs.
    - pose proof (awaits_step _ _ _ b Ha) as Hs. by rewrite Hd in Hs. }
  change ((b2z <$> pre) ++ [b2z b]) with ((b2z <$> pre) ++ (b2z <$> [b])) in Hcases.
  rewrite <- fmap_app in Hcases.
  unfold escape_step. rewrite Hd. unfold UTF8_ACCEPT, UTF8_REJECT.
  destruct Hcases as [->|[(-> & Hsc & Hu)|Ha]]; [by left|right|right].
  - split; [done|]. apply utf8_encode_of_ints in Hu as Henc.
    destruct (put_codepoint_ok e c' pre b (buffer st)) as (cs & Hput & Hpre & Hlen); [done..|].
    simpl. rewrite Hput. simpl. eexists. split; [reflexivity|]. simpl.
    split; [|done].
    match goal with |- context [flush ?x] =>
      destruct (flush_spec x Hlen) as (Hfw & Hfl & _ & _) end.
    exists (cps ++ [c']), []. simpl. split_and!.
    + apply Forall_app. by split; [|constructor].
    + rewrite app_nil_r, utf8_text_snoc, Henc, app_assoc. done.
    + etransitivity; [apply Hfw|]. simpl.
      rewrite app_assoc, Hw, escape_text_snoc, <- Hpre, <- !app_assoc.
      destruct e; simpl; by rewrite ?app_nil_r.
    + destruct e; simpl; lia.
    + by left.
  - assert (Hs' : s' ≠ 0 ∧ s' ≠ 1) by (destruct Ha as [? _]; lia).
    rewrite (proj2 (Z.eqb_neq s' 0)), (proj2 (Z.eqb_neq s' 1)) by apply Hs'.
    split; [apply Hs'|].
    pose proof (awaits_length _ _ _ Ha) as Hn. rewrite length_fmap, length_app in Hn.
    simpl in Hn.
    assert (Hb : ∃ buf', (if e then Val (buffer st) else put [b] 0 (buffer st)) = Val buf' ∧
        buf' = buffer st ++ pending e [b]).
    { destruct e; simpl.
      - eexists. by rewrite app_nil_r.
      - eexists. rewrite put_small; [done|]. simpl in *. unfold BUFFER_SIZE. lia. }
    destruct Hb as (buf' & -> & ->). simpl. eexists. split; [reflexivity|].
    split; [|done]. exists cps, (pre ++ [b]). simpl. split_and!.
    + done.
    + by rewrite app_assoc.
    + rewrite app_assoc, Hw, <- app_assoc. by destruct e.
    + destruct e; simpl in *; rewrite !length_app in *; simpl in *; lia.
    + by right.
Qed.

Lemma strict_loop e fuel s : ∀ i st,
  (length s - i ≤ fuel)%nat → (i ≤ length s)%nat →
  escaped e (take i s) st →
  (accepts (state st) (codepoint st) (drop i s) = false ∧
     ∃ what, escape_loop fuel strict e s i st = Throw what) ∨
  (∃ st', escape_loop fuel strict e s i st = Val st' ∧ escaped e s st' ∧
     (state st' =? 0) = accepts (state st) (codepoint st) (drop i s)).
Proof.
  induction fuel as [|fuel IH]; intros i st Hf Hi Hinv; simpl.
  - assert (s !! i = None) as -> by (apply lookup_ge_None; lia).
    right. exists st. rewrite take_ge in Hinv by lia. rewrite drop_ge by lia. done.
  - destruct (s !! i) as [b|] eqn:Hb.
    2: { right. exists st. apply lookup_ge_None in Hb.
         rewrite take_ge in Hinv by lia. rewrite drop_ge by lia. done. }
    pose proof (lookup_lt_Some _ _ _ Hb) as Hlt.
    rewrite (drop_S s b i Hb). cbn [accepts].
    pose proof (strict_step e i b _ _ Hinv) as Hstep.
    destruct (decode (state st) (codepoint st) (b2z b)) as [s' c'] eqn:Hd.
    destruct Hstep as [[-> ->]|(Hne & st' & -> & Hinv' & <- & Hc)].
    + left. split; [done|]. eexists. reflexivity.
    + simpl in Hc. subst c'. rewrite <- take_S_r in Hinv' by done.
      rewrite (proj2 (Z.eqb_neq _ 1)) by done. simpl.
      apply IH; [lia|lia|done].
Qed.

(** Strict escaping, on every string. *)
Lemma dump_escaped_strict e s :
  (accepts 0 0 s = true ∧ ∃ cps, Forall scalar cps ∧ s = utf8_text cps ∧
     dump_escaped strict e s = Val (escape_text e cps)) ∨
  (accepts 0 0 s = false ∧ ∃ what, dump_escaped strict e s = Throw what).
Proof.
  assert (Hinit : escaped e (take 0 s) (Esc [] [] 0 0 0 UTF8_ACCEPT)).
  { exists [], []. simpl. split_and!; [constructor|done|by destruct e|lia|by left]. }
  unfold dump_escaped.
  destruct (strict_loop e (2 * length s) s 0 _ ltac:(lia) ltac:(lia) Hinit)
    as [[Ha [what ->]]|(st & -> & Hinv & Ha)]; [right; simpl in *; eauto|].
  rewrite drop_0 in Ha. cbn [Serializer.state Serializer.codepoint] in Ha.
  unfold UTF8_ACCEPT in *. cbn [mbind outcome_bind]. rewrite Ha.
  destruct (accepts 0 0 s) eqn:Hacc; [left|right]; (split; [done|]).
  - destruct Hinv as (cps & pre & Hcps & Hs & Hw & _ & [[H0 ->]|[Haw _]]); [|lia].
    rewrite app_nil_r in Hs. exists cps. split_and!; [done..|].
    assert (Hw' : written st ++ buffer st = escape_text e cps)
      by (rewrite Hw; destruct e; simpl; by rewrite app_nil_r).
    case_decide; [by rewrite Hw'|]. rewrite <- Hw'.
    destruct (buffer st); [by rewrite app_nil_r|simpl in *; lia].
  - destruct (last s) as [b|] eqn:Hl; [eauto|].
    apply last_None in Hl as ->. done.
Qed.

(** ** Characters are told apart by their first byte *)

Definition first_length (b : Z) : nat :=
  if b <? 0x80 then 1 else if b <? 0xE0 then 2 else if b <? 0xF0 then 3 else 4.

Lemma utf8_first_length cp :
  scalar cp → ∃ b xs, utf8_ints cp = b :: xs ∧ length (b :: xs) = first_length b.
Proof.
  unfold scalar, utf8_ints. intros H.
  destruct (Z.ltb_spec cp 0x80); [|destruct (Z.ltb_spec cp 0x800);
    [|destruct (Z.ltb_spec cp 0x10000)]];
    (eexists _, _; split; [done|]); unfold first_length;
    repeat (match goal with |- context [?a <? ?b] => destruct (Z.ltb_spec a b) end; try done);
    zarith.
Qed.

Lemma utf8_encode_inj_app cp cp' s s' :
  scalar cp → scalar cp' → utf8_encode cp ++ s = utf8_encode cp' ++ s' → cp = cp' ∧ s = s'.
Proof.
  intros Hc Hc' Heq.
  destruct (utf8_first_length cp Hc) as (b & xs & Hu & Hl).
  destruct (utf8_first_length cp' Hc') as (b' & xs' & Hu' & Hl').
  assert (b = b') as <-.
  { pose proof (f_equal (fmap b2z) Heq) as Hz. rewrite !fmap_app, !utf8_encode_ints in Hz by done.
    rewrite Hu, Hu' in Hz. by simplify_eq/=. }
  apply app_inj_1 in Heq as [He ->].
  - split; [|done]. apply (f_equal (fmap b2z)) in He. rewrite !utf8_encode_ints in He by done.
    by apply utf8_ints_inj.
  - unfold utf8_encode. rewrite !length_fmap, Hu, Hu'. congruence.
Qed.

Lemma utf8_text_inj cps : ∀ cps',
  Forall scalar cps → Forall scalar cps' → utf8_text cps = utf8_text cps' → cps = cps'.
Proof.
  assert (Hne : ∀ cp s, utf8_encode cp ++ s ≠ []).
  { intros cp s H. apply app_eq_nil in H as [H _]. pose proof (length_utf8_encode cp).
    rewrite H in *. simpl in *. lia. }
  unfold utf8_text. induction cps as [|cp cps IH]; intros [|cp' cps'] H H' Heq; simpl in Heq.
  - done.
  - by destruct (Hne cp' (concat (utf8_encode <$> cps'))).
  - by destruct (Hne cp (concat (utf8_encode <$> cps))).
  - apply Forall_cons in H as [Hc H]. apply Forall_cons in H' as [Hc' H'].
    apply utf8_encode_inj_app in Heq as [-> Heq]; [|done..]. f_equal. by apply IH.
Qed.

Lemma dump_escaped_text e cps :
  Forall scalar cps → dump_escaped strict e (utf8_text cps) = Val (escape_text e cps).
Proof.
  intros H. destruct (dump_escaped_strict e (utf8_text cps)) as [[_ (cps' & H' & Ht & ->)]|[Ha _]].
  - apply utf8_text_inj in Ht as ->; done.
  - by rewrite accepts_valid in Ha by (by exists cps).
Qed.

Lemma dump_escaped_invalid e s :
  ¬ valid_utf8 s → ∃ what, dump_escaped strict e s = Throw what.
Proof.
  intros Hv. destruct (dump_escaped_strict e s) as [[_ (cps & H & -> & _)]|[_ Hw]]; [|done].
  destruct Hv. by exists cps.
Qed.

(** ** Integers *)

(** Decimal digits, most significant first. *)
Fixpoint decimal (fuel : nat) (z : Z) : bytes :=
  match fuel with
  | O => []
  | S fuel => (if z <? 10 then [] else decimal fuel (z `div` 10)) ++ [z2b (48 + z `mod` 10)]
  end.

(** The text of an integer. *)
Definition integer_text (z : Z) : bytes :=
  if z <? 0 then x2d :: decimal 20 (- z) else decimal 20 z.

Lemma decimal_small fuel z : 0 ≤ z < 10 → decimal (S fuel) z = [z2b (48 + z)].
Proof.
  intros H. simpl. destruct (Z.ltb_spec z 10); [|lia]. by rewrite Z.mod_small.
Qed.

(** Fuel beyond the number of digits changes nothing. *)
Lemma decimal_fuel n : ∀ m z,
  0 ≤ z < 10 ^ Z.of_nat n → (1 ≤ n ≤ m)%nat → decimal m z = decimal n z.
Proof.
  induction n as [|n IH]; intros m z Hz Hn; [lia|].
  destruct m as [|m]; [lia|]. simpl. destruct (Z.ltb_spec z 10); [done|].
  destruct n as [|n]; [simpl in Hz; lia|].
  rewrite (IH m); [done| |lia].
  rewrite Nat2Z.inj_succ, Z.pow_succ_r in Hz by lia. zarith.
Qed.

Lemma decimal_step n z :
  10 ≤ z → decimal (S n) z = decimal n (z `div` 10) ++ [z2b (48 + z `mod` 10)].
Proof. intros H. simpl. by destruct (Z.ltb_spec z 10); [lia|]. Qed.

Lemma div_pow10 n z :
  0 ≤ z < 10 ^ Z.of_nat (S n) → 0 ≤ z `div` 10 < 10 ^ Z.of_nat n.
Proof. rewrite Nat2Z.inj_succ, Z.pow_succ_r by lia. intros H. zarith. Qed.

(** The digits of the loop, two at a time. *)
Lemma fill_digits_decimal fuel : ∀ z acc,
  0 ≤ z < 10 ^ Z.of_nat (2 * fuel) → (1 ≤ fuel)%nat →
  fill_digits fuel z acc = decimal (2 * fuel) z ++ acc.
Proof.
  induction fuel as [|fuel IH]; intros z acc Hz Hf; [lia|].
  replace (2 * S fuel)%nat with (S (S (2 * fuel))) in * by lia.
  cbn [fill_digits]. destruct (Z.leb_spec 100 z).
  - destruct (decide (1 ≤ fuel)%nat) as [Hge|Hge].
    2: { assert (fuel = 0%nat) as -> by lia. simpl in Hz. lia. }
    rewrite IH; [|apply div_pow10 in Hz; apply div_pow10 in Hz; zarith|done].
    rewrite decimal_step, decimal_step by zarith.
    unfold digits_to_99. rewrite <- !app_assoc. cbn [app].
    rewrite Z.div_div by lia. do 3 f_equal; [f_equal; zarith|].
    do 2 f_equal. zarith.
  - destruct (Z.leb_spec 10 z).
    + rewrite decimal_step by lia. rewrite decimal_small by zarith. done.
    + rewrite decimal_small by lia. done.
Qed.

Lemma length_decimal_small n z : 0 ≤ z < 10 → length (decimal (S n) z) = 1%nat.
Proof. intros H. by rewrite decimal_small. Qed.

Lemma length_decimal_step n z :
  10 ≤ z → length (decimal (S n) z) = S (length (decimal n (z `div` 10))).
Proof. intros H. rewrite decimal_step, length_app by done. simpl. lia. Qed.

(** [count_digits] counts them. *)
Lemma count_digits_loop_spec fuel : ∀ z n,
  0 ≤ z < 10 ^ Z.of_nat (4 * S fuel) →
  count_digits_loop fuel z n = n - 1 + Z.of_nat (length (decimal (4 * S fuel) z)).
Proof.
  assert (Hshort : ∀ m z n, 0 ≤ z → z < 10000 →
    (if z <? 10 then n else if z <? 100 then n + 1 else if z <? 1000 then n + 2
     else n + 3) = n - 1 + Z.of_nat (length (decimal (S (S (S (S m)))) z))).
  { intros m z n Hz Hlt.
    destruct (Z.ltb_spec z 10); [rewrite length_decimal_small by lia; lia|].
    rewrite length_decimal_step by lia.
    destruct (Z.ltb_spec z 100); [rewrite length_decimal_small by zarith; lia|].
    rewrite length_decimal_step by zarith.
    destruct (Z.ltb_spec z 1000); [rewrite length_decimal_small by zarith; lia|].
    rewrite length_decimal_step by zarith. rewrite length_decimal_small by zarith. lia. }
  induction fuel as [|fuel IH]; intros z n Hz.
  - change (4 * 1)%nat with 4%nat in *. simpl in Hz.
    rewrite <- (Hshort 0%nat z n) by lia. cbn [count_digits_loop].
    by rewrite (proj2 (Z.ltb_lt z 10000)) by lia.
  - replace (4 * S (S fuel))%nat with (S (S (S (S (4 * S fuel))))) in * by lia.
    cbn [count_digits_loop]. destruct (Z.ltb_spec z 10000).
    + by rewrite <- Hshort by lia.
    + rewrite (proj2 (Z.ltb_ge z 10)), (proj2 (Z.ltb_ge z 100)), (proj2 (Z.ltb_ge z 1000)) by lia.
      rewrite IH by (do 4 apply div_pow10 in Hz; zarith).
      rewrite 4 length_decimal_step by zarith. rewrite !Z.div_div by lia.
      change (10 * (10 * (10 * 10))) with 10000. lia.
Qed.

Lemma length_decimal n : ∀ z, (length (decimal n z) ≤ n)%nat.
Proof.
  induction n as [|n IH]; intros z; simpl; [lia|].
  rewrite length_app. simpl. specialize (IH (z `div` 10)). destruct (z <? 10); simpl; lia.
Qed.

Lemma dump_integer_text z :
  - 2 ^ 63 ≤ z < 2 ^ 64 → dump_integer z = Val (integer_text z).
Proof.
  intros Hz. unfold dump_integer. destruct (Z.eqb_spec z 0) as [->|Hnz]; [done|].
  set (a := if z <? 0 then - z else z).
  assert (Ha : (if z <? 0 then remove_sign z else u64 z) = a).
  { unfold a, remove_sign. destruct (Z.ltb_spec z 0).
    - rewrite (u64_small (- (z + 1))) by lia. rewrite u64_small by lia. lia.
    - apply u64_small. lia. }
  rewrite Ha. assert (Hr : 0 ≤ a < 10 ^ Z.of_nat 20)
    by (unfold a; destruct (Z.ltb_spec z 0); change (10 ^ Z.of_nat 20) with 100000000000000000000; lia).
  rewrite (fill_digits_decimal 10) by (done || lia). rewrite app_nil_r.
  change (2 * 10)%nat with 20%nat.
  assert (Hc : count_digits a = Z.of_nat (length (decimal 20 a))).
  { unfold count_digits. rewrite (count_digits_loop_spec 5).
    - rewrite (decimal_fuel 20) by (done || lia). lia.
    - split; [lia|]. eapply Z.lt_trans; [apply Hr|]. by vm_compute. }
  rewrite Hc, length_app, Nat2Z.inj_add. rewrite (decide_True (P := _ = _)) by done.
  pose proof (length_decimal 20 a) as Hlen.
  change (str "-") with [x2d].
  match goal with |- context [?n <? 64 - 1] => assert (n <? 64 - 1 = true) as ->
    by (apply Z.ltb_lt; destruct (z <? 0); cbn [length]; lia) end.
  cbn [mbind outcome_bind JSON_ASSERT]. unfold integer_text. subst a. by destruct (z <? 0).
Qed.

(** ** Values *)

Section deep_induction.
Context (P : json → Prop)
  (Hobject : ∀ m, Forall (λ i, P i.2) m → P (JObject m))
  (Harray : ∀ l, Forall P l → P (JArray l))
  (Hleaf : ∀ j, match j with JObject _ | JArray _ => True | _ => P j end).

(** Induction over the elements and members as well. *)
Fixpoint json_deep_ind (j : json) : P j :=
  match j with
  | JObject m =>
      Hobject m ((fix go m : Forall (λ i, P i.2) m :=
        match m with
        | [] => Forall_nil_2 _
        | i :: m => Forall_cons_2 _ i m (json_deep_ind i.2) (go m)
        end) m)
  | JArray l =>
      Harray l ((fix go l : Forall P l :=
        match l with
        | [] => Forall_nil_2 _
        | v :: l => Forall_cons_2 _ v l (json_deep_ind v) (go l)
        end) l)
  | j => Hleaf j
  end.
End deep_induction.

(** [P] of every element, as a function so that recursion may pass through it. *)
Definition every {A} (P : A → Prop) := fix go (l : list A) : Prop :=
  match l with [] => True | x :: l => P x ∧ go l end.

Lemma every_Forall {A} (P : A → Prop) l : every P l ↔ Forall P l.
Proof. induction l as [|x l IH]; simpl; [done|]. by rewrite Forall_cons, IH. Qed.

(** [P] of a value and of all the values in it. *)
Fixpoint everywhere (P : json → Prop) (j : json) : Prop :=
  P j ∧
  match j with
  | JArray l => every (everywhere P) l
  | JObject m => every (λ i, everywhere P i.2) m
  | _ => True
  end.

(** Integers have the width of their type. *)
Definition typed_node (j : json) : Prop :=
  match j with
  | JInteger z => in_signed 64 z
  | JUnsigned z | JBinary _ (Some z) => in_unsigned 64 z
  | JFloat bits => in_unsigned 64 bits
  | _ => True
  end.
Definition well_typed : json → Prop := everywhere typed_node.

(** Strings and keys are UTF-8. *)
Definition utf8_node (j : json) : Prop :=
  match j with
  | JString s => valid_utf8 s
  | JObject m => Forall (λ i, valid_utf8 i.1) m
  | _ => True
  end.
Definition utf8_value : json → Prop := everywhere utf8_node.

(** *** Reading UTF-8 *)

(** The code point of a character's bytes. *)
Definition chunk_value (chunk : list Z) : Z :=
  match chunk with
  | [a] => a
  | [a; b] => (a - 0xC0) * 64 + (b - 0x80)
  | [a; b; c] => ((a - 0xE0) * 64 + (b - 0x80)) * 64 + (c - 0x80)
  | [a; b; c; d] => (((a - 0xF0) * 64 + (b - 0x80)) * 64 + (c - 0x80)) * 64 + (d - 0x80)
  | _ => -1
  end.

Fixpoint codepoints (fuel : nat) (s : bytes) : option (list Z) :=
  match s, fuel with
  | [], _ => Some []
  | _ :: _, O => None
  | b :: _, S fuel =>
      let n := first_length (b2z b) in
      let cp := chunk_value (b2z <$> take n s) in
      if decide (scalar cp ∧ utf8_encode cp = take n s) then cons cp <$> codepoints fuel (drop n s)
      else None
  end.

Lemma chunk_value_encode cp : scalar cp → chunk_value (utf8_ints cp) = cp.
Proof.
  unfold scalar, utf8_ints. intros H.
  repeat (match goal with |- context [?a <? ?b] => destruct (Z.ltb_spec a b) end);
    unfold chunk_value; zarith.
Qed.

Lemma codepoints_text cps fuel :
  Forall scalar cps → (length (utf8_text cps) ≤ fuel)%nat →
  codepoints fuel (utf8_text cps) = Some cps.
Proof.
  intros H. revert fuel. induction H as [|cp cps Hcp H IH]; intros fuel Hf; [by destruct fuel|].
  change (utf8_text (cp :: cps)) with (utf8_encode cp ++ utf8_text cps) in *.
  destruct (utf8_first_length cp Hcp) as (b & xs & Hu & Hl).
  pose proof (utf8_encode_ints cp Hcp) as He. rewrite Hu in He.
  destruct (utf8_encode cp) as [|b' p] eqn:Hp; [done|]. injection He as <- <-.
  destruct fuel as [|fuel]; [simpl in Hf; lia|].
  cbn [app codepoints].
  assert (Hn : first_length (b2z b') = length (b' :: p))
    by (rewrite <- Hl; simpl; by rewrite length_fmap).
  rewrite Hn, app_comm_cons, take_app_length, drop_app_length.
  assert (Hv : chunk_value (b2z <$> b' :: p) = cp)
    by (pose proof (chunk_value_encode cp Hcp) as Hv; rewrite Hu in Hv; exact Hv).
  rewrite Hv, decide_True by done.
  rewrite IH; [done|]. simpl in Hf. rewrite length_app in Hf. lia.
Qed.

Lemma codepoints_sound fuel : ∀ s cps,
  codepoints fuel s = Some cps → Forall scalar cps ∧ s = utf8_text cps.
Proof.
  induction fuel as [|fuel IH]; intros [|b s] cps H; simplify_eq/=; [by split..|].
  case_decide as Hd; [|done].
  apply fmap_Some in H as (cps' & H & ->). apply IH in H as [Hf Hs]. destruct Hd as [Hc He].
  split; [by constructor|].
  change (utf8_text (?x :: ?y)) with (utf8_encode x ++ utf8_text y).
  by rewrite <- Hs, He, take_drop.
Qed.

#[global] Instance valid_utf8_dec s : Decision (valid_utf8 s).
Proof.
  refine (match codepoints (length s) s as o return codepoints (length s) s = o → _ with
          | Some cps => λ H, left _
          | None => λ H, right _
          end eq_refl).
  - by apply codepoints_sound in H as [??]; exists cps.
  - intros (cps & Hc & ->). by rewrite codepoints_text in H.
Defined.

(** *** The compact layout *)

Definition join (sep : bytes) : list bytes → bytes := fix go l :=
  match l with
  | [] => []
  | [t] => t
  | t :: l => t ++ sep ++ go l
  end.

(** The text of a UTF-8 string between its quotes. *)
Definition quote (s : bytes) : bytes :=
  [x22] ++ escape_text false (default [] (codepoints (length s) s)) ++ [x22].

Fixpoint render (j : json) : bytes :=
  match j with
  | JNull => str "null"
  | JObject m => str "{" ++ join (str ",") ((λ i, quote i.1 ++ str ":" ++ render i.2) <$> m) ++ str "}"
  | JArray l => str "[" ++ join (str ",") (render <$> l) ++ str "]"
  | JString s => quote s
  | JBoolean b => if b then str "true" else str "false"
  | JInteger z | JUnsigned z => integer_text z
  | JFloat bits => match dump_float bits with Val t => t | _ => [] end
  | JBinary data subtype =>
      str "{" ++ quote (str "bytes") ++ str ":[" ++
      join (str ",") ((λ b, integer_text (b2z b)) <$> data) ++ str "]," ++
      quote (str "subtype") ++ str ":" ++
      (match subtype with Some z => integer_text z | None => str "null" end) ++ str "}"
  | JDiscarded => str "<discarded>"
  end.

(** ** The serializer prints the compact layout *)

(** [m] writes [t] when [ok] holds, and throws when it does not. *)
Definition prints (m : ser → outcome ser) (ok : Prop) (t : bytes) : Prop :=
  ∀ s, (ok ∧ m s = Val (Ser (out s ++ t) (indent_string s))) ∨ (¬ ok ∧ ∃ what, m s = Throw what).

Lemma prints_iff m P Q t u : prints m P t → (P ↔ Q) → t = u → prints m Q u.
Proof. intros H HPQ <- s. destruct (H s) as [[? ?]|[? ?]]; [left|right]; tauto. Qed.

Lemma prints_write t : prints (write t) True t.
Proof. intros s. by left. Qed.

Lemma prints_emit t : prints (emit (Val t)) True t.
Proof. intros s. by left. Qed.

Lemma prints_seq f g P Q t u : prints f P t → prints g Q u → prints (f >>> g) (P ∧ Q) (t ++ u).
Proof.
  intros Hf Hg s. unfold andThen. destruct (Hf s) as [[HP ->]|[HP [what ->]]].
  - cbn [mbind outcome_bind].
    destruct (Hg (Ser (out s ++ t) (indent_string s))) as [[HQ ->]|[HQ [what ->]]].
    + left. split; [done|]. simpl. by rewrite app_assoc.
    + right. split; [tauto|eauto].
  - right. split; [tauto|]. by exists what.
Qed.

Lemma prints_quote s :
  prints (quoted strict false s >>> write [x22]) (valid_utf8 s) (quote s).
Proof.
  unfold quoted, quote. intros st.
  destruct (decide (valid_utf8 s)) as [(cps & Hc & ->)|Hv].
  - left. split; [by exists cps|]. unfold andThen, emit, write.
    rewrite codepoints_text, dump_escaped_text by done. simpl. by rewrite <- !app_assoc.
  - right. split; [done|]. destruct (dump_escaped_invalid false s Hv) as [what Hw].
    exists what. unfold andThen, emit, write. by rewrite Hw.
Qed.

Lemma andThen_assoc f g h s : ((f >>> g) >>> h) s = (f >>> (g >>> h)) s.
Proof. unfold andThen. destruct (f s); done. Qed.

Lemma prints_ext f g P t : (∀ s, f s = g s) → prints f P t → prints g P t.
Proof. intros He H s. rewrite <- He. apply H. Qed.

Lemma prints_separated {A} sep (f : A → ser → outcome ser) (P : A → Prop) (t : A → bytes) l :
  Forall (λ x, prints (f x) (P x) (t x)) l →
  prints (separated sep f l) (Forall P l) (join sep (t <$> l)).
Proof.
  induction 1 as [|x [|y l] Hx Hl IH].
  - intros s. left. split; [constructor|]. simpl. rewrite app_nil_r. by destruct s.
  - eapply prints_iff; [exact Hx| |done]. by rewrite Forall_singleton.
  - eapply prints_iff; [exact (prints_seq _ _ _ _ _ _ Hx (prints_seq _ _ _ _ _ _ (prints_write sep) IH))| |].
    + rewrite (Forall_cons P x). tauto.
    + done.
Qed.

Lemma prints_integer z : - 2 ^ 63 ≤ z < 2 ^ 64 → prints (emit (dump_integer z)) True (integer_text z).
Proof. intros Hz. rewrite dump_integer_text by done. apply prints_emit. Qed.

Lemma utf8_value_object m :
  utf8_value (JObject m) ↔ Forall (λ i, valid_utf8 i.1 ∧ utf8_value i.2) m.
Proof. unfold utf8_value. simpl. rewrite every_Forall, <- Forall_and. done. Qed.

Lemma everywhere_object P m :
  everywhere P (JObject m) ↔ P (JObject m) ∧ Forall (λ i, everywhere P i.2) m.
Proof. simpl. by rewrite every_Forall. Qed.

Lemma everywhere_array P l :
  everywhere P (JArray l) ↔ P (JArray l) ∧ Forall (everywhere P) l.
Proof. simpl. by rewrite every_Forall. Qed.

(** A member or an element as the compact layout writes it. *)
Lemma prints_member (i : bytes * json) cur :
  prints (dump strict false 0 i.2 false cur) (utf8_value i.2) (render i.2) →
  prints (quoted strict false i.1 >>> write [x22; x3a] >>> dump strict false 0 i.2 false cur)
    (valid_utf8 i.1 ∧ utf8_value i.2) (quote i.1 ++ str ":" ++ render i.2).
Proof.
  intros H.
  pose proof (prints_seq _ _ _ _ _ _ (prints_quote i.1)
    (prints_seq _ _ _ _ _ _ (prints_write (str ":")) H)) as Hp.
  eapply prints_iff; [eapply prints_ext, Hp|tauto|]. 2: done.
  intros s. rewrite andThen_assoc. unfold andThen, write.
  destruct (quoted strict false i.1 s) as [st| |]; simpl; [|done..].
  by rewrite <- app_assoc.
Qed.

Lemma prints_typed_bytes data :
  prints (dump_bytes (str ",") data) True (join (str ",") ((λ b, integer_text (b2z b)) <$> data)).
Proof.
  eapply prints_iff; [apply (prints_separated _ _ (λ _, True))| |done].
  - apply Forall_forall. intros b _. pose proof (b2z_range b). apply prints_integer. lia.
  - split; [done|]. intros _. by apply Forall_forall.
Qed.

(** Every number has a text. *)
Lemma dump_float_text bits : in_unsigned 64 bits → ∃ t, dump_float bits = Val t.
Proof.
  intros Hb. unfold dump_float. destruct (Dtoa.isfinite bits) eqn:E; [|eauto].
  destruct (to_chars_spec bits Hb E) as (t & m & x & Ht & _). eauto.
Qed.

Lemma prints_dump j : ∀ cur,
  well_typed j →
  prints (dump strict false 0 j false cur) (utf8_value j) (render j).
Proof.
  apply (json_deep_ind (λ j, ∀ cur, well_typed j →
    prints (dump strict false 0 j false cur) (utf8_value j) (render j))); clear j.
  - intros m IH cur Hty.
    apply everywhere_object in Hty as [_ Hty].
    destruct m as [|i m].
    { eapply prints_iff; [apply prints_write| |done].
      by rewrite utf8_value_object, Forall_nil. }
    rewrite Forall_forall in IH, Hty.
    assert (Hm : Forall (λ i, prints (quoted strict false i.1 >>> write [x22; x3a] >>>
        dump strict false 0 i.2 false cur) (valid_utf8 i.1 ∧ utf8_value i.2)
        (quote i.1 ++ str ":" ++ render i.2)) (i :: m)).
    { apply Forall_forall. intros k Hk. apply prints_member.
      by apply (IH k Hk), (Hty k). }
    eapply prints_iff; [exact (prints_seq _ _ _ _ _ _ (prints_write (str "{"))
      (prints_seq _ _ _ _ _ _ (prints_separated (str ",") _ _ _ _ Hm)
        (prints_write (str "}"))))| |done].
    rewrite utf8_value_object. tauto.
  - intros l IH cur Hty.
    apply everywhere_array in Hty as [_ Hty].
    destruct l as [|v l].
    { eapply prints_iff; [apply prints_write| |done].
      unfold utf8_value. by rewrite everywhere_array, Forall_nil. }
    rewrite Forall_forall in IH, Hty.
    assert (Hm : Forall (λ v, prints (dump strict false 0 v false cur) (utf8_value v) (render v))
        (v :: l)).
    { apply Forall_forall. intros k Hk. by apply (IH k Hk), Hty. }
    eapply prints_iff; [exact (prints_seq _ _ _ _ _ _ (prints_write (str "["))
      (prints_seq _ _ _ _ _ _ (prints_separated (str ",") _ _ _ _ Hm)
        (prints_write (str "]"))))| |done].
    unfold utf8_value. rewrite everywhere_array. simpl. tauto.
  - intros [ | | |s|b|z|z|bits|data sub| ]; try exact I; intros cur [Hty _];
      cbn [typed_node] in Hty; unfold utf8_value;
      cbn [dump render everywhere utf8_node]; unfold in_signed, in_unsigned in *.
    + eapply prints_iff; [apply prints_write|done..].
    + eapply prints_iff; [exact (prints_quote s)|tauto|done].
    + eapply prints_iff; [apply prints_write|tauto|done].
    + eapply prints_iff; [apply prints_integer; lia|tauto|done].
    + eapply prints_iff; [apply prints_integer; lia|tauto|done].
    + destruct (dump_float_text bits) as [t Ht]; [unfold in_unsigned; lia|]. unfold emit. rewrite Ht.
      eapply prints_iff; [apply prints_emit|tauto|done].
    + assert (Hs : prints (dump_subtype sub) True
          (match sub with Some z => integer_text z | None => str "null" end)).
      { destruct sub as [z|]; simpl; [apply prints_integer; lia|apply prints_write]. }
      eapply prints_iff; [exact (prints_seq _ _ _ _ _ _ (prints_write _)
        (prints_seq _ _ _ _ _ _ (prints_typed_bytes data)
        (prints_seq _ _ _ _ _ _ (prints_write _)
        (prints_seq _ _ _ _ _ _ Hs (prints_write (str "}"))))))|tauto|].
      unfold quote. simpl. by rewrite <- ?app_assoc.
    + eapply prints_iff; [apply prints_write|tauto|done].
Qed.

(** [j.dump()] of a well-typed value. *)
Lemma dump_spec j :
  well_typed j →
  (utf8_value j ∧ Json.dump j = Val (render j)) ∨
  (¬ utf8_value j ∧ ∃ what, Json.dump j = Throw what).
Proof.
  intros Hty. unfold Json.dump, json_dump. cbn [Z.leb].
  destruct (prints_dump j 0 Hty (Ser [] (replicate 512 x20))) as [[H ->]|[H [what ->]]];
    [by left|right; split; [done|by exists what]].
Qed.
