(* ===== verification/JsonRead.v ===== *)
(** * Reading JSON text back

    A reader for the compact JSON of RFC 8259 (no insignificant white space; a number
    with a fraction or an exponent is the nearest double), independent of the
    serializer, and the theorems that it recovers what [json::dump] was given. *)

From S2P Require Import Prelude Float Dtoa DtoaText Json Utf8 JsonText.
From Stdlib Require Import Strings.Byte.
Import Serializer.

Open Scope Z_scope.

(** ** Strings *)

Definition hex_value (b : byte) : option Z :=
  let z := b2z b in
  if (48 <=? z) && (z <? 58) then Some (z - 48)
  else if (97 <=? z) && (z <? 103) then Some (z - 87)
  else if (65 <=? z) && (z <? 71) then Some (z - 55)
  else None.

Definition read_hex4 (s : bytes) : option (Z * bytes) :=
  match s with
  | a :: b :: c :: d :: s =>
      a ← hex_value a; b ← hex_value b; c ← hex_value c; d ← hex_value d;
      Some (a * 4096 + b * 256 + c * 16 + d, s)
  | _ => None
  end.

(** A backslash-u escape, or a surrogate pair of them, after the first [\u]. *)
Definition read_unicode (s : bytes) : option (Z * bytes) :=
  '(u, s) ← read_hex4 s;
  if (0xD800 <=? u) && (u <? 0xDC00) then
    match s with
    | a :: b :: s =>
        if decide (a = x5c ∧ b = x75) then
          '(v, s) ← read_hex4 s;
          Some (0x10000 + (u - 0xD800) * 1024 + (v - 0xDC00), s)
        else None
    | _ => None
    end
  else Some (u, s).

Definition short_escape (c : byte) : option Z :=
  match c with
  | x62 => Some 0x08 | x74 => Some 0x09 | x6e => Some 0x0A | x66 => Some 0x0C | x72 => Some 0x0D
  | x22 => Some 0x22 | x5c => Some 0x5C | x2f => Some 0x2F
  | _ => None
  end.

(** The contents of a string up to its closing quote. *)
Fixpoint read_chars (fuel : nat) (s : bytes) : option (bytes * bytes) :=
  match fuel with
  | O => None
  | S fuel =>
      match s with
      | [] => None
      | b :: s =>
          if decide (b = x22) then Some ([], s)
          else if decide (b = x5c) then
            match s with
            | [] => None
            | c :: s =>
                '(cp, s) ← if decide (c = x75) then read_unicode s else
                            (λ cp, (cp, s)) <$> short_escape c;
                '(t, s) ← read_chars fuel s;
                Some (utf8_encode cp ++ t, s)
            end
          else if b2z b <? 0x20 then None
          else '(t, s) ← read_chars fuel s; Some (b :: t, s)
      end
  end.

Definition read_string (s : bytes) : option (bytes * bytes) :=
  match s with
  | b :: s => if decide (b = x22) then read_chars (S (length s)) s else None
  | [] => None
  end.

Lemma hex_value_lower d : 0 ≤ d < 16 → hex_value (hex_lower d) = Some d.
Proof.
  intros H. rewrite <- (Z2Nat.id d) by lia.
  assert (Hd : (Z.to_nat d < 16)%nat) by lia. revert Hd. generalize (Z.to_nat d). clear.
  intros n Hn. do 16 (destruct n as [|n]; [reflexivity|]). lia.
Qed.

Lemma read_hex4_spec z s : 0 ≤ z < 0x10000 → read_hex4 (hex4 z ++ s) = Some (z, s).
Proof.
  intros H. unfold hex4. cbn [app read_hex4].
  rewrite !hex_value_lower by zarith. cbn [mbind option_bind]. do 2 f_equal. zarith.
Qed.

(** The first byte of a character above ASCII is neither a quote, a backslash nor
    a control character. *)
Definition ordinary (b : byte) : Prop := b ≠ x22 ∧ b ≠ x5c ∧ 0x20 ≤ b2z b.

Lemma read_chars_ordinary b fuel s :
  ordinary b →
  read_chars (S fuel) (b :: s) = '(t, s) ← read_chars fuel s; Some (b :: t, s).
Proof.
  intros (H1 & H2 & H3). cbn [read_chars].
  rewrite decide_False, decide_False by done. by destruct (Z.ltb_spec (b2z b) 0x20); [lia|].
Qed.

Lemma read_chars_run p : ∀ fuel s,
  Forall ordinary p →
  read_chars (length p + fuel) (p ++ s) = '(t, s) ← read_chars fuel s; Some (p ++ t, s).
Proof.
  induction p as [|b p IH]; intros fuel s Hp; simpl.
  - by destruct (read_chars fuel s) as [[]|].
  - apply Forall_cons in Hp as [Hb Hp].
    transitivity ('(t, s) ← read_chars (length p + fuel) (p ++ s); Some (b :: t, s)).
    { by apply read_chars_ordinary. }
    rewrite IH by done. by destruct (read_chars fuel s) as [[]|].
Qed.

Lemma ordinary_high b : 0x80 ≤ b2z b → ordinary b.
Proof.
  intros H. split_and!; [intros ->|intros ->|]; [by vm_compute in H..|lia].
Qed.

Lemma utf8_encode_ordinary cp :
  scalar cp → 0x20 ≤ cp → cp ≠ 0x22 → cp ≠ 0x5C → Forall ordinary (utf8_encode cp).
Proof.
  intros Hs H1 H2 H3. destruct (Z.ltb_spec cp 0x80).
  - rewrite utf8_encode_ascii by lia. apply Forall_singleton.
    assert (Hv : b2z (z2b cp) = cp) by (rewrite b2z_z2b; apply Z.mod_small; lia).
    split_and!; [intros Hb; rewrite Hb in Hv; by vm_compute in Hv; subst..|lia].
  - unfold utf8_encode. apply Forall_fmap, (Forall_impl (λ z, 0x80 ≤ z < 256)).
    + unfold scalar, utf8_ints in *.
      repeat (match goal with |- context [?a <? ?b] => destruct (Z.ltb_spec a b) end);
        [lia|repeat constructor; zarith..].
    + intros z Hz. apply ordinary_high. rewrite b2z_z2b, Z.mod_small; lia.
Qed.

Lemma read_u_escape z s :
  0 ≤ z < 0x10000 → ¬ (0xD800 ≤ z < 0xDC00) → read_unicode (hex4 z ++ s) = Some (z, s).
Proof.
  intros H Hz. unfold read_unicode. rewrite read_hex4_spec by done. cbn [mbind option_bind].
  destruct (Z.leb_spec 0xD800 z), (Z.ltb_spec z 0xDC00); simpl; first [done|lia].
Qed.

Lemma read_surrogates u v s :
  0xD800 ≤ u < 0xDC00 → 0 ≤ v < 0x10000 →
  read_unicode (hex4 u ++ u_escape v ++ s) =
    Some (0x10000 + (u - 0xD800) * 1024 + (v - 0xDC00), s).
Proof.
  intros Hu Hv. unfold read_unicode, u_escape. rewrite read_hex4_spec by lia.
  cbn [mbind option_bind].
  destruct (Z.leb_spec 0xD800 u), (Z.ltb_spec u 0xDC00); try lia. cbn [andb app].
  rewrite decide_True by done. by rewrite read_hex4_spec.
Qed.

Lemma read_chars_escape fuel c s cp s' :
  (if decide (c = x75) then read_unicode s else (λ cp, (cp, s)) <$> short_escape c) =
    Some (cp, s') →
  read_chars (S fuel) (x5c :: c :: s) =
    '(t, s) ← read_chars fuel s'; Some (utf8_encode cp ++ t, s).
Proof. intros H. cbn [read_chars]. by rewrite decide_False, decide_True, H by done. Qed.

(** One escaped code point. *)
Lemma read_codepoint e cp s :
  scalar cp →
  ∃ k, (k ≤ length (escape_codepoint e cp))%nat ∧ ∀ fuel,
    read_chars (k + fuel) (escape_codepoint e cp ++ s) =
      '(t, s) ← read_chars fuel s; Some (utf8_encode cp ++ t, s).
Proof.
  intros Hs. destruct (plain_cp cp) eqn:Hp.
  - rewrite (escape_codepoint_plain e cp Hp).
    destruct ((cp <? 0x20) || (e && (0x7F <=? cp))) eqn:Hesc.
    + exists 1%nat. unfold scalar in Hs. destruct (Z.ltb_spec cp 0x10000).
      * split; [simpl; lia|]. intros fuel. unfold u_escape. rewrite <- app_assoc.
        apply read_chars_escape. rewrite decide_True by done. apply read_u_escape; lia.
      * split; [rewrite length_app; unfold u_escape; simpl; lia|]. intros fuel.
        rewrite <- app_assoc. unfold u_escape at 1. rewrite <- app_assoc.
        apply read_chars_escape. rewrite decide_True by done.
        rewrite read_surrogates by zarith. do 2 f_equal. zarith.
    + exists (length (utf8_encode cp)). split; [done|]. intros fuel.
      apply read_chars_run. unfold plain_cp in Hp.
      apply orb_false_iff in Hesc as [Hc _]. apply utf8_encode_ordinary; [done|lia|..];
        intros ->; discriminate Hp.
  - assert (Hc : cp = 8 ∨ cp = 9 ∨ cp = 10 ∨ cp = 12 ∨ cp = 13 ∨ cp = 0x22 ∨ cp = 0x5C).
    { unfold plain_cp in Hp. apply negb_false_iff in Hp. rewrite !orb_true_iff, !Z.eqb_eq in Hp. tauto. }
    exists 1%nat.
    destruct Hc as [->|[->|[->|[->|[->|[->| ->]]]]]]; (split; [simpl; lia|]);
      intros fuel; by apply read_chars_escape.
Qed.

Lemma read_chars_mono fuel : ∀ fuel' s r,
  (fuel ≤ fuel')%nat → read_chars fuel s = Some r → read_chars fuel' s = Some r.
Proof.
  induction fuel as [|fuel IH]; intros [|fuel'] s r Hf H; try done; [lia|].
  cbn [read_chars] in *. destruct s as [|b s]; [done|].
  destruct (decide (b = x22)); [done|]. destruct (decide (b = x5c)).
  - destruct s as [|c s]; [done|].
    apply bind_Some in H as ((cp & s1) & H1 & H).
    apply bind_Some in H as ((t & s2) & H2 & H).
    rewrite H1. cbn [mbind option_bind]. by rewrite (IH fuel' s1 (t, s2)) by (done || lia).
  - destruct (b2z b <? 0x20); [done|].
    apply bind_Some in H as ((t & s2) & H2 & H).
    by rewrite (IH fuel' s (t, s2)) by (done || lia).
Qed.

Lemma read_chars_text e cps rest :
  Forall scalar cps →
  ∃ k, (k ≤ S (length (escape_text e cps)))%nat ∧
    read_chars k (escape_text e cps ++ x22 :: rest) = Some (utf8_text cps, rest).
Proof.
  induction 1 as [|cp cps Hcp _ (k & Hk & IH)].
  - exists 1%nat. split; [simpl; lia|]. done.
  - change (escape_text e (cp :: cps)) with (escape_codepoint e cp ++ escape_text e cps).
    rewrite <- app_assoc.
    destruct (read_codepoint e cp (escape_text e cps ++ x22 :: rest) Hcp) as (k' & Hk' & Hr).
    exists (k' + k)%nat. split; [rewrite length_app; lia|]. by rewrite Hr, IH.
Qed.

Lemma read_string_text e cps rest :
  Forall scalar cps →
  read_string ([x22] ++ escape_text e cps ++ [x22] ++ rest) = Some (utf8_text cps, rest).
Proof.
  intros H. destruct (read_chars_text e cps rest H) as (k & Hk & Hr).
  cbn [app read_string]. rewrite decide_True by done.
  eapply read_chars_mono, Hr. rewrite length_app. simpl. lia.
Qed.

(** ** Integers *)

Definition digit_value (b : byte) : option Z :=
  let z := b2z b in if (48 <=? z) && (z <? 58) then Some (z - 48) else None.

Fixpoint read_digits (acc : Z) (s : bytes) : Z * bytes :=
  match s with
  | b :: s' =>
      match digit_value b with
      | Some d => read_digits (acc * 10 + d) s'
      | None => (acc, s)
      end
  | [] => (acc, s)
  end.

(** A minus sign makes a signed integer, as the library's own parser does. *)
Definition read_integer (s : bytes) : option (json * bytes) :=
  match s with
  | b :: s' =>
      if decide (b = x2d) then
        match s' with
        | c :: _ => _ ← digit_value c; let '(z, s) := read_digits 0 s' in Some (JInteger (- z), s)
        | [] => None
        end
      else _ ← digit_value b; let '(z, s) := read_digits 0 s in Some (JUnsigned z, s)
  | [] => None
  end.

(** The text after a number does not go on with a digit, a point or an exponent. *)
Abbreviation boundary := ends_number.

Lemma in_number_digit b : in_number b = false → digit_value b = None.
Proof.
  intros [H _]%(ends_number_cons b []). unfold digit_value.
  destruct (Z.leb_spec 48 (b2z b)), (Z.ltb_spec (b2z b) 58); try done. lia.
Qed.

Lemma digit_value_digit d : 0 ≤ d < 10 → digit_value (z2b (48 + d)) = Some d.
Proof.
  intros H. unfold digit_value. rewrite b2z_z2b, Z.mod_small by lia.
  destruct (Z.leb_spec 48 (48 + d)), (Z.ltb_spec (48 + d) 58); try lia. simpl. f_equal. lia.
Qed.

Lemma read_digits_decimal n : ∀ z acc rest,
  0 ≤ z < 10 ^ Z.of_nat n →
  ∃ k, read_digits acc (decimal n z ++ rest) = read_digits (acc * k + z) rest.
Proof.
  induction n as [|n IH]; intros z acc rest Hz.
  - simpl in Hz. exists 1. simpl. f_equal. lia.
  - apply div_pow10 in Hz as Hd.
    assert (0 ≤ z) by lia. pose proof (Z.mod_pos_bound z 10 eq_refl).
    cbn [decimal]. destruct (Z.ltb_spec z 10).
    + exists 10. cbn [app read_digits]. rewrite digit_value_digit by lia. f_equal. zarith.
    + destruct (IH (z `div` 10) acc ([z2b (48 + z `mod` 10)] ++ rest)) as [k Hk]; [done|].
      exists (k * 10). rewrite <- app_assoc, Hk. cbn [app read_digits].
      rewrite digit_value_digit by lia. f_equal.
      rewrite (Z.div_mod z 10) at 3 by lia. ring.
Qed.

Lemma read_digits_boundary z rest : boundary rest → read_digits z rest = (z, rest).
Proof. destruct rest as [|b rest]; simpl; [done|]. by intros ->%in_number_digit. Qed.

(** A number's text begins with a digit. *)
Lemma decimal_head n z :
  0 ≤ z → (0 < n)%nat → ∃ b t, decimal n z = b :: t ∧ is_Some (digit_value b).
Proof.
  revert z. induction n as [|n IH]; intros z Hz Hn; [lia|].
  cbn [decimal]. pose proof (Z.mod_pos_bound z 10 eq_refl).
  destruct (Z.ltb_spec z 10).
  - eexists _, _. split; [reflexivity|]. rewrite digit_value_digit by lia. eauto.
  - destruct (decide (n = 0%nat)) as [->|Hne].
    { eexists _, _. split; [reflexivity|]. rewrite digit_value_digit by lia. eauto. }
    destruct (IH (z `div` 10)) as (b & t & -> & Hb); [zarith|lia|]. eauto.
Qed.

Lemma decimal_no_leading_zero n z :
  0 < z < 10 ^ Z.of_nat n → head (decimal n z) ≠ Some x30.
Proof.
  revert z. induction n as [|n IH]; intros z Hz; [simpl in Hz; lia|].
  assert (Hd : 0 ≤ z `div` 10 < 10 ^ Z.of_nat n) by (apply div_pow10; lia).
  cbn [decimal]. pose proof (Z.mod_pos_bound z 10 eq_refl).
  destruct (Z.ltb_spec z 10).
  - cbn [app head]. intros [= Hb]. apply (f_equal b2z) in Hb.
    rewrite b2z_z2b, !Z.mod_small in Hb by zarith. change (b2z x30) with 48 in Hb. lia.
  - assert (Hne : head (decimal n (z `div` 10)) ≠ Some x30) by (apply IH; zarith).
    destruct (decimal n (z `div` 10)) eqn:E; [|done].
    destruct n as [|n]; [simpl in Hd; zarith|].
    destruct (decimal_head (S n) (z `div` 10)) as (b & t & He & _); [lia..|]. congruence.
Qed.

(** Signed and unsigned integers that are not negative have the same text. *)
Definition integer_value (z : Z) : json := if z <? 0 then JInteger z else JUnsigned z.

Lemma integer_value_text z rest :
  - 2 ^ 63 ≤ z < 2 ^ 64 → boundary rest →
  read_integer (integer_text z ++ rest) = Some (integer_value z, rest).
Proof.
  intros Hz Hrest. unfold integer_text, integer_value.
  assert (Hbound : 10 ^ Z.of_nat 20 = 100000000000000000000) by done.
  destruct (Z.ltb_spec z 0).
  - destruct (decimal_head 20 (- z)) as (b & t & Hd & [v Hv]); [lia..|].
    destruct (read_digits_decimal 20 (- z) 0 rest) as [k Hk]; [lia|].
    rewrite Hd in *. cbn [app read_integer]. rewrite decide_True, Hv by done.
    cbn [mbind option_bind app] in *. rewrite Hk, read_digits_boundary by done.
    do 3 f_equal. lia.
  - destruct (decimal_head 20 z) as (b & t & Hd & [v Hv]); [lia..|].
    destruct (read_digits_decimal 20 z 0 rest) as [k Hk]; [lia|].
    rewrite Hd in *. cbn [app read_integer].
    rewrite decide_False by (intros ->; done). rewrite Hv.
    cbn [mbind option_bind app] in *. rewrite Hk, read_digits_boundary by done.
    do 3 f_equal. 
Qed.

(** ** Numbers *)

(** A number with a fraction or an exponent is a double, the one nearest to it. *)
Definition read_numeral (s : bytes) : option (json * bytes) :=
  '(j, rest) ← read_integer s;
  match rest with
  | c :: _ =>
      if decide (c = x2e ∨ c = x65 ∨ c = x45) then
        '(neg, m, x, rest) ← read_number s; Some (JFloat (read_double neg m x), rest)
      else Some (j, rest)
  | [] => Some (j, rest)
  end.

Lemma read_numeral_integer s j rest : read_integer s = Some (j, rest) → boundary rest →
  read_numeral s = Some (j, rest).
Proof.
  intros H Hr. unfold read_numeral. rewrite H. cbn [mbind option_bind].
  destruct rest as [|c rest]; [done|]. apply ends_number_cons in Hr as (_ & H1 & H2 & H3).
  by rewrite decide_False by naive_solver.
Qed.

Lemma digit_value_char d : is_digit d → digit_value (digit_char d) = Some d.
Proof. intros Hd. unfold is_digit in Hd. apply digit_value_digit. lia. Qed.

Lemma read_digits_chars int acc c t : Forall is_digit int → digit_value c = None →
  ∃ z, read_digits acc ((digit_char <$> int) ++ c :: t) = (z, c :: t).
Proof.
  intros Hint Hc. revert acc. induction Hint as [|d int Hd _ IH]; intros acc.
  - simpl. rewrite Hc. eauto.
  - rewrite fmap_cons. cbn [app read_digits]. rewrite digit_value_char by done. apply IH.
Qed.

(** A text that is not an integer's stops the reader of integers at its point or
    exponent. *)
Lemma read_integer_not_integer (neg : bool) text rest : not_integer text → ∃ j c t,
  read_integer ((if neg then str "-" else []) ++ text ++ rest) = Some (j, c :: t) ∧
  (c = x2e ∨ c = x65 ∨ c = x45).
Proof.
  intros (int & c & t & -> & Hint & Hne & Hc). rewrite <- app_assoc. cbn [app].
  assert (Hnd : digit_value c = None) by (by destruct Hc as [->| ->]).
  destruct (read_digits_chars int 0 c (t ++ rest) Hint Hnd) as [z Hz].
  destruct int as [|d int]; [done|]. apply Forall_cons in Hint as [Hd _].
  rewrite fmap_cons in *. cbn [app] in *.
  exists (if neg then JInteger (- z) else JUnsigned z), c, (t ++ rest). split; [|tauto].
  pose proof (digit_value_char d Hd) as Hdv.
  change (str "-") with [x2d]. destruct neg; cbn [app read_integer].
  - rewrite decide_True by done. rewrite Hdv. cbn [mbind option_bind]. by rewrite Hz.
  - rewrite decide_False by (intros Heq; by rewrite Heq in Hdv).
    rewrite Hdv. cbn [mbind option_bind]. by rewrite Hz.
Qed.

Lemma read_numeral_float bits rest : in_unsigned 64 bits → Dtoa.isfinite bits = true → boundary rest →
  ∃ text, dump_float bits = Val text ∧ text ≠ [] ∧ read_numeral (text ++ rest) = Some (JFloat bits, rest).
Proof.
  intros Hb Hf Hr. destruct (to_chars_spec bits Hb Hf) as (text & m & x & Ht & _ & Hi & Hread & Hn).
  unfold dump_float. rewrite Hf, Ht. eexists. split; [done|]. split.
  { destruct Hi as ([] & ? & ? & -> & _ & ? & _); [done|]. by destruct (Dtoa.signbit bits). }
  rewrite <- app_assoc. unfold read_numeral.
  destruct (read_integer_not_integer (Dtoa.signbit bits) text rest Hi) as (j & c & t & -> & Hc).
  cbn [mbind option_bind]. rewrite decide_True by done.
  rewrite (read_signed _ _ _ _ _ (Hread rest Hr)). cbn [mbind option_bind].
  by rewrite read_double_spec.
Qed.

(** ** Values *)

(** An item, then another after each comma, then the closing bracket. *)
Fixpoint read_list {A} (item : bytes → option (A * bytes)) (close : byte) (fuel : nat)
    (s : bytes) : option (list A * bytes) :=
  match fuel with
  | O => None
  | S fuel =>
      '(x, s) ← item s;
      match s with
      | c :: s =>
          if decide (c = close) then Some ([x], s)
          else if decide (c = x2c) then
            '(l, s) ← read_list item close fuel s; Some (x :: l, s)
          else None
      | [] => None
      end
  end.

(** A list, empty when the closing bracket comes at once. *)
Definition read_brackets {A} (item : bytes → option (A * bytes)) (close : byte) (fuel : nat)
    (s : bytes) : option (list A * bytes) :=
  match s with
  | c :: s' => if decide (c = close) then Some ([], s') else read_list item close fuel s
  | [] => None
  end.

Definition read_word (w : bytes) (v : json) (s : bytes) : option (json * bytes) :=
  if decide (take (length w) s = w) then Some (v, drop (length w) s) else None.

Fixpoint read_value (fuel : nat) (s : bytes) : option (json * bytes) :=
  match fuel with
  | O => None
  | S fuel =>
      match s with
      | [] => None
      | c :: s' =>
          if decide (c = x7b) then
            let member (s : bytes) :=
              '(k, s) ← read_string s;
              match s with
              | c :: s =>
                  if decide (c = x3a) then '(v, s) ← read_value fuel s; Some ((k, v), s) else None
              | [] => None
              end in
            '(m, s) ← read_brackets member x7d fuel s'; Some (JObject m, s)
          else if decide (c = x5b) then
            '(l, s) ← read_brackets (read_value fuel) x5d fuel s'; Some (JArray l, s)
          else if decide (c = x22) then '(t, s) ← read_string s; Some (JString t, s)
          else if decide (c = x6e) then read_word (str "null") JNull s
          else if decide (c = x74) then read_word (str "true") (JBoolean true) s
          else if decide (c = x66) then read_word (str "false") (JBoolean false) s
          else read_numeral s
      end
  end.

Definition read_json (s : bytes) : option json :=
  match read_value (S (length s)) s with
  | Some (j, []) => Some j
  | _ => None
  end.

(** What the text of a value still says about it: integers lose the type they
    were stored at, bytes become an object, and non-finite floats null. *)
Fixpoint readable (j : json) : json :=
  match j with
  | JInteger z | JUnsigned z => integer_value z
  | JArray l => JArray (readable <$> l)
  | JObject m => JObject ((λ i, (i.1, readable i.2)) <$> m)
  | JBinary data subtype =>
      JObject [(str "bytes", JArray ((λ b, JUnsigned (b2z b)) <$> data));
               (str "subtype", match subtype with Some z => JUnsigned z | None => JNull end)]
  | JFloat bits => if Dtoa.isfinite bits then JFloat bits else JNull
  | j => j
  end.

(** The reader covers every value but the marker of a discarded value, which is not
    JSON. *)
Definition readable_node (j : json) : Prop :=
  match j with
  | JDiscarded => False
  | _ => True
  end.
Definition readable_value : json → Prop := everywhere readable_node.

(** ** Reading what was rendered *)

Lemma length_join_elem {A} sep (t : A → bytes) l x :
  x ∈ l → (length (t x) ≤ length (join sep (t <$> l)))%nat.
Proof.
  induction l as [|y [|z l] IH]; intros Hx; [by apply elem_of_nil in Hx|..].
  - apply list_elem_of_singleton in Hx as ->. done.
  - change (join sep (t <$> y :: z :: l)) with (t y ++ sep ++ join sep (t <$> z :: l)).
    rewrite !length_app. apply elem_of_cons in Hx as [->|Hx]; [lia|]. specialize (IH Hx). lia.
Qed.

Lemma length_join_count {A} b (t : A → bytes) l :
  (length l ≤ S (length (join [b] (t <$> l))))%nat.
Proof.
  induction l as [|y [|z l] IH]; [simpl; lia..|].
  change (join [b] (t <$> y :: z :: l)) with (t y ++ [b] ++ join [b] (t <$> z :: l)).
  rewrite !length_app. simpl in *. lia.
Qed.

Lemma read_brackets_join {A B} (item : bytes → option (B * bytes)) close (t : A → bytes)
    (v : A → B) l fuel rest :
  Forall (λ x, ∀ rest, boundary rest → item (t x ++ rest) = Some (v x, rest)) l →
  (∀ s, item (close :: s) = None) → in_number close = false →
  close ≠ x2c → (length l ≤ fuel)%nat →
  read_brackets item close fuel (join (str ",") (t <$> l) ++ close :: rest) = Some (v <$> l, rest).
Proof.
  intros Hl Hclose Hdigit Hcomma Hf.
  assert (Hlist : ∀ x k, Forall (λ x, ∀ rest, boundary rest → item (t x ++ rest) = Some (v x, rest)) (x :: k) →
    ∀ fuel, (length (x :: k) ≤ fuel)%nat →
    read_list item close fuel (join (str ",") (t <$> x :: k) ++ close :: rest) =
      Some (v <$> x :: k, rest)).
  { clear l fuel Hl Hf. intros x k. revert x. induction k as [|y k IH]; intros x Hx [|fuel] Hf;
      try (simpl in Hf; lia); apply Forall_cons in Hx as [Hx Hk].
    - cbn [fmap list_fmap join read_list]. rewrite Hx by done. cbn [mbind option_bind].
      by rewrite decide_True.
    - change (join (str ",") (t <$> x :: y :: k))
        with (t x ++ x2c :: join (str ",") (t <$> y :: k)).
      rewrite <- app_assoc. cbn [app read_list]. rewrite Hx by done. cbn [mbind option_bind].
      rewrite decide_False, decide_True by done.
      by rewrite IH by (done || simpl in *; lia). }
  destruct l as [|x l].
  - cbn. by rewrite decide_True.
  - specialize (Hlist x l Hl fuel Hf). unfold read_brackets.
    destruct (join (str ",") (t <$> x :: l) ++ close :: rest) as [|c s] eqn:Hj.
    { by destruct (join (str ",") (t <$> x :: l)). }
    destruct (decide (c = close)) as [->|]; [|done].
    destruct fuel as [|fuel]; [simpl in Hf; lia|].
    cbn [read_list] in Hlist. by rewrite Hclose in Hlist.
Qed.

Lemma read_value_close fuel close s :
  close ∈ [x5d; x7d] → read_value fuel (close :: s) = None.
Proof.
  intros H. destruct fuel; [done|].
  apply elem_of_cons in H as [->|[->|H%elem_of_nil]%elem_of_cons]; done.
Qed.

Lemma read_value_numeral fuel s j rest :
  read_numeral s = Some (j, rest) → read_value (S fuel) s = Some (j, rest).
Proof.
  intros H. destruct s as [|b s]; [done|]. cbn [read_value].
  assert (Hb : b = x2d ∨ is_Some (digit_value b)).
  { unfold read_numeral in H. apply bind_Some in H as ([j1 rest1] & H & _).
    cbn [read_integer] in H. case_decide; [by left|]. right.
    apply bind_Some in H as (d & Hd & _). eauto. }
  rewrite !decide_False by (intros ->; destruct Hb as [Hb|[d Hd]]; discriminate).
  done.
Qed.

Lemma read_value_integer fuel z rest : - 2 ^ 63 ≤ z < 2 ^ 64 → boundary rest →
  read_value (S fuel) (integer_text z ++ rest) = Some (integer_value z, rest).
Proof. intros Hz Hr. by apply read_value_numeral, read_numeral_integer; [apply integer_value_text|]. Qed.

Lemma read_string_quote s rest :
  valid_utf8 s → read_string (quote s ++ rest) = Some (s, rest).
Proof.
  intros (cps & Hc & ->). unfold quote. rewrite codepoints_text by done.
  rewrite <- !app_assoc. by apply read_string_text.
Qed.

(** Fuel for a text of a given length. *)
Definition reads (j : json) : Prop := ∀ fuel rest,
  (length (render j) < fuel)%nat → boundary rest →
  read_value fuel (render j ++ rest) = Some (readable j, rest).

Lemma reads_array l : Forall reads l → reads (JArray l).
Proof.
  intros Hl [|fuel] rest Hf Hrest; [lia|].
  change (render (JArray l)) with (x5b :: join (str ",") (render <$> l) ++ [x5d]) in *.
  cbn [length] in Hf. rewrite length_app in Hf. cbn [length] in Hf.
  cbn [app]. rewrite <- app_assoc. cbn [app read_value].
  rewrite decide_False, decide_True by done.
  rewrite (read_brackets_join _ _ _ readable);
    [done| |intros; apply read_value_close; set_solver|done..|].
  - rewrite Forall_forall in Hl |- *. intros x Hx rest' Hr. apply Hl; [done| |done].
    pose proof (length_join_elem (str ",") render l x Hx). lia.
  - pose proof (length_join_count x2c render l). change [x2c] with (str ",") in *. lia.
Qed.

Definition member_text (i : bytes * json) : bytes := quote i.1 ++ str ":" ++ render i.2.

Lemma reads_object m :
  Forall (λ i, valid_utf8 i.1) m → Forall (λ i, reads i.2) m → reads (JObject m).
Proof.
  intros Hk Hm [|fuel] rest Hf Hrest; [lia|].
  change (render (JObject m)) with (x7b :: join (str ",") (member_text <$> m) ++ [x7d]) in *.
  cbn [length] in Hf. rewrite length_app in Hf. cbn [length] in Hf.
  cbn [app]. rewrite <- app_assoc. cbn [app read_value].
  rewrite decide_True by done.
  rewrite (read_brackets_join _ _ _ (λ i, (i.1, readable i.2))); [done| |done..|].
  - rewrite Forall_forall in Hk, Hm |- *. intros x Hx rest' Hr. unfold member_text.
    rewrite <- app_assoc, read_string_quote by auto. cbn [mbind option_bind].
    change ((str ":" ++ render x.2) ++ rest') with (x3a :: (render x.2 ++ rest')).
    cbv beta iota. rewrite decide_True by done. rewrite (Hm x Hx); [done| |done].
    pose proof (length_join_elem (str ",") member_text m x Hx) as Hlen.
    unfold member_text in Hlen at 1. rewrite !length_app in Hlen. lia.
  - pose proof (length_join_count x2c member_text m). change [x2c] with (str ",") in *. lia.
Qed.

Lemma reads_bytes data : reads (JArray ((λ b, JUnsigned (b2z b)) <$> data)).
Proof.
  apply reads_array, Forall_fmap, Forall_forall. intros b _ [|fuel] rest Hf Hr; [lia|].
  simpl. pose proof (b2z_range b). apply read_value_integer; [lia|done].
Qed.

Lemma valid_quote_ascii s : forallb (λ b, b2z b <? 0x80) s = true → valid_utf8 s.
Proof.
  intros H. apply valid_utf8_ascii. apply Forall_forall. intros b Hb.
  rewrite forallb_forall in H. apply list_elem_of_In, H in Hb. lia.
Qed.

Lemma integer_value_unsigned z : 0 ≤ z → integer_value z = JUnsigned z.
Proof. unfold integer_value. by destruct (Z.ltb_spec z 0); [lia|]. Qed.

(** Bytes are written as the object they look like, which is what is read. *)
Definition binary_object (data : bytes) (subtype : option Z) : json :=
  JObject [(str "bytes", JArray ((λ b, JUnsigned (b2z b)) <$> data));
           (str "subtype", match subtype with Some z => JUnsigned z | None => JNull end)].

Lemma render_binary data subtype : render (JBinary data subtype) = render (binary_object data subtype).
Proof.
  unfold binary_object. cbn [render fmap list_fmap join fst snd]. rewrite <- list_fmap_compose.
  rewrite <- !app_assoc. by destruct subtype.
Qed.

Lemma readable_binary data subtype :
  match subtype with Some z => 0 ≤ z | None => True end →
  readable (binary_object data subtype) = binary_object data subtype.
Proof.
  intros Hty. unfold binary_object. cbn [readable fmap list_fmap fst snd]. rewrite <- list_fmap_compose.
  do 2 f_equal; [|do 2 f_equal; destruct subtype; [by apply integer_value_unsigned|done]].
  do 2 f_equal. apply list_fmap_ext. intros i b _.
  apply (integer_value_unsigned (b2z b)). pose proof (b2z_range b). lia.
Qed.

Lemma reads_binary data subtype :
  match subtype with Some z => in_unsigned 64 z | None => True end →
  reads (JBinary data subtype).
Proof.
  intros Hty. unfold in_unsigned in Hty.
  assert (Hobj : reads (binary_object data subtype)).
  { apply reads_object.
    - repeat constructor; by apply valid_quote_ascii.
    - repeat constructor; [apply reads_bytes|]. intros [|fuel] rest Hf Hr; [lia|].
      destruct subtype as [z|]; [|done].
      simpl. apply read_value_integer; [lia|done]. }
  intros fuel rest Hf Hr. rewrite render_binary in *. rewrite (Hobj fuel rest Hf Hr), readable_binary; [done|].
  destruct subtype; [lia|done].
Qed.

Lemma reads_string s : valid_utf8 s → reads (JString s).
Proof.
  intros Hv [|fuel] rest Hf Hr; [lia|]. cbn [render readable].
  change (quote s) with (x22 :: escape_text false (default [] (codepoints (length s) s)) ++ [x22])
    in *.
  cbn [app read_value]. rewrite !decide_False, decide_True by done.
  change (x22 :: (escape_text false (default [] (codepoints (length s) s)) ++ [x22]) ++ rest)
    with (quote s ++ rest).
  by rewrite read_string_quote.
Qed.

Lemma reads_word w j :
  (∀ fuel s, read_value (S fuel) (w ++ s) = read_word w (readable j) (w ++ s)) →
  render j = w → reads j.
Proof.
  intros Hw Hr [|fuel] rest Hf _; [lia|]. rewrite Hr, Hw. unfold read_word.
  by rewrite take_app_length, drop_app_length, decide_True.
Qed.

(** Every value the reader covers. *)
Lemma reads_render j :
  well_typed j → utf8_value j → readable_value j → reads j.
Proof.
  apply (json_deep_ind (λ j, well_typed j → utf8_value j → readable_value j → reads j)); clear j.
  - intros m IH Hty Hu Hr.
    apply everywhere_object in Hty as [_ Hty]. apply everywhere_object in Hu as [Hk Hu].
    apply everywhere_object in Hr as [_ Hr]. rewrite Forall_forall in IH, Hty, Hu, Hr.
    apply reads_object; [done|]. apply Forall_forall. intros i Hi.
    apply (IH i Hi); [by apply (Hty i)|by apply (Hu i)|by apply (Hr i)].
  - intros l IH Hty Hu Hr.
    apply everywhere_array in Hty as [_ Hty]. apply everywhere_array in Hu as [_ Hu].
    apply everywhere_array in Hr as [_ Hr]. rewrite Forall_forall in IH, Hty, Hu, Hr.
    apply reads_array. apply Forall_forall. intros v Hv.
    apply (IH v Hv); [by apply Hty|by apply Hu|by apply Hr].
  - intros [ | | |s|b|z|z|bits|data sub| ]; try exact I; intros [Hty _] [Hu _] [Hr _];
      cbn [typed_node utf8_node readable_node] in Hty, Hu, Hr;
      unfold in_signed, in_unsigned in *.
    + by apply (reads_word (str "null")).
    + by apply reads_string.
    + destruct b; [by apply (reads_word (str "true"))|by apply (reads_word (str "false"))].
    + intros [|fuel] rest Hf Hrest; [lia|].
      cbn [render readable]. apply read_value_integer; [lia|done].
    + intros [|fuel] rest Hf Hrest; [lia|].
      cbn [render readable]. apply read_value_integer; [lia|done].
    + destruct (Dtoa.isfinite bits) eqn:Ef.
      * intros [|fuel] rest Hf Hrest; [lia|].
        destruct (read_numeral_float bits rest Hty Ef Hrest) as (t & Ht & _ & Hread).
        cbn [render readable]. rewrite Ht, Ef. by apply read_value_numeral.
      * apply (reads_word (str "null")); cbn [render readable]; unfold dump_float; by rewrite Ef.
    + by apply reads_binary.
    + done.
Qed.

Lemma read_json_render j :
  well_typed j → utf8_value j → readable_value j → read_json (render j) = Some (readable j).
Proof.
  intros Hty Hu Hr. unfold read_json.
  pose proof (reads_render j Hty Hu Hr (S (length (render j))) [] (Nat.lt_succ_diag_r _) I) as Hread.
  rewrite app_nil_r in Hread. by rewrite Hread.
Qed.

(** The strict escaper, on every string and in both modes, decides UTF-8: the
    encoding of any sequence of Unicode scalar values is written as the escapes of
    its code points, a reader of JSON strings finds the same string again, and on
    any other string the escaper throws.  The 512-byte buffer never overflows (an
    overflow would be [Undefined]). *)
Theorem dump_escaped_utf8 (ensure_ascii : bool) :
  (∀ cps rest, Forall scalar cps →
     dump_escaped strict ensure_ascii (utf8_text cps) = Val (escape_text ensure_ascii cps) ∧
     read_string ([x22] ++ escape_text ensure_ascii cps ++ [x22] ++ rest) =
       Some (utf8_text cps, rest)) ∧
  (∀ s, ¬ valid_utf8 s → ∃ what, dump_escaped strict ensure_ascii s = Throw what).
Proof.
  split.
  - intros cps rest H. split; [by apply dump_escaped_text|by apply read_string_text].
  - apply dump_escaped_invalid.
Qed.

Lemma dump_escaped_utf8_witness :
  dump_escaped strict true (utf8_text [0x1F600; 0x0A]) =
    Val (escape_text true [0x1F600; 0x0A]) ∧
  (∃ what, dump_escaped strict true [xc0; xaf] = Throw what).
Proof.
  split.
  - apply (proj1 (dump_escaped_utf8 true) _ []). repeat constructor; compute_done.
  - apply (proj2 (dump_escaped_utf8 true)). compute_done.
Defined.

(** Integers of 64 bits, signed or unsigned, are written in decimal: the text
    has no leading zero, and reading it gives the integer back. *)
Lemma dump_integer_decimal (z : Z) (rest : bytes) :
  - 2 ^ 63 ≤ z < 2 ^ 64 → boundary rest →
  ∃ t, dump_integer z = Val t ∧ (length t ≤ 21)%nat ∧
    read_integer (t ++ rest) = Some (integer_value z, rest) ∧
    (z ≠ 0 → head (if z <? 0 then tail t else t) ≠ Some x30).
Proof.
  intros Hz Hr. exists (integer_text z). split_and!.
  - by apply dump_integer_text.
  - unfold integer_text. pose proof (length_decimal 20 z). pose proof (length_decimal 20 (- z)).
    destruct (z <? 0); cbn [length]; lia.
  - by apply integer_value_text.
  - intros Hnz. unfold integer_text. destruct (Z.ltb_spec z 0); cbn [tail].
    + by apply decimal_no_leading_zero; lia.
    + by apply decimal_no_leading_zero; lia.
Qed.

(** [j.dump()] on every well-typed value: if all its strings and keys are UTF-8
    it returns the compact text, from which a JSON reader recovers the value, finite
    floats to the last bit (integers at the type their sign gives them, bytes as the
    object that stands for them, other floats as null); if not, it throws, whatever
    else the value contains.  The marker of a discarded value is left out. *)
Theorem dump_roundtrip (j : json) :
  well_typed j → readable_value j →
  (utf8_value j → Json.dump j = Val (render j) ∧ read_json (render j) = Some (readable j)) ∧
  (¬ utf8_value j → ∃ what, Json.dump j = Throw what).
Proof.
  intros Hty Hr.
  destruct (dump_spec j Hty) as [[Hu Hd]|[Hu Hd]]; [|tauto].
  split; [|tauto]. intros _. split; [done|]. by apply read_json_render.
Qed.

Definition sample_report : json :=
  JObject [(str "items", JArray [JObject [(str "cpu", JInteger (-5)); (str "load", JFloat 0x3FB999999999999A);
    (str "raw", JBinary [x00; xff] None)]]);
           (str "type", JString (str "data"))].

Lemma dump_roundtrip_witness :
  Json.dump sample_report = Val (render sample_report) ∧
  read_json (render sample_report) = Some (readable sample_report) ∧
  ∃ what, Json.dump (JArray [JString [xff]]) = Throw what.
Proof.
  split; [|split].
  - apply (dump_roundtrip sample_report); [by vm_compute|by vm_compute|].
    repeat (split; [|exact I] || split || constructor || compute_done).
  - apply (dump_roundtrip sample_report); [by vm_compute|by vm_compute|].
    repeat (split; [|exact I] || split || constructor || compute_done).
  - apply (dump_roundtrip (JArray [JString [xff]])); [by vm_compute|by vm_compute|].
    intros (_ & (Hv & _) & _). revert Hv. compute_done.
Defined.
