(* ===== verification/JsonLexer.v ===== *)
(** * Reading JSON: the lexer ([nlohmann/json.hpp], [detail::lexer])

    The scanner of the library's parser, character by character: the one-character
    unget, positions for error messages, strings with escapes and UTF-8 checking, the
    state machine of numbers, literals, comments and the byte order mark.
    [JSON_ASSERT] is [assert]; a loop that ran out of fuel would be [Undefined]. *)

From S2P Require Import Prelude Float Dtoa Json.
From Stdlib Require Import Strings.Byte QArith.

Open Scope Z_scope.

Module Lexer.

(** ** Conversions of the C library

    [strtoull], [strtoll] and [strtod] on the texts the lexer gives them, which begin
    with a digit or a minus sign: the value, whether [errno] is [ERANGE], and the
    text from [endptr] on. *)

Definition minus_sign (s : bytes) : bool * bytes :=
  match s with b :: s' => if decide (b = "-"%byte) then (true, s') else (false, s) | [] => (false, s) end.

Definition strtoull (s : bytes) : Z * bool * bytes :=
  let '(neg, s') := minus_sign s in
  let '(ds, rest) := span_digits s' in
  let v := digits_value ds in
  if decide (ds = []) then (0, false, s)
  else if v <? 2 ^ 64 then (u64 (if neg then - v else v), false, rest) else (2 ^ 64 - 1, true, rest).

Definition strtoll (s : bytes) : Z * bool * bytes :=
  let '(neg, s') := minus_sign s in
  let '(ds, rest) := span_digits s' in
  let v := if neg then - digits_value ds else digits_value ds in
  if decide (ds = []) then (0, false, s)
  else if v <? - 2 ^ 63 then (- 2 ^ 63, true, rest)
  else if 2 ^ 63 - 1 <? v then (2 ^ 63 - 1, true, rest)
  else (v, false, rest).

(** The exponent part, nothing of which is read when it has no digit. *)
Definition strtod_exponent (s : bytes) : Z * bytes :=
  match s with
  | b :: s' =>
      if decide (b = "e"%byte ∨ b = "E"%byte) then
        let '(neg, s'') := match s' with
                           | c :: t => if decide (c = "+"%byte) then (false, t) else minus_sign s'
                           | [] => (false, s')
                           end in
        let '(ds, rest) := span_digits s'' in
        if decide (ds = []) then (0, s)
        else (if neg then - digits_value ds else digits_value ds, rest)
      else (0, s)
  | [] => (0, s)
  end.

(** [point] is the decimal point of the locale; a number too large for a double
    becomes the infinity. *)
Definition strtod (point : byte) (s : bytes) : Z * bytes :=
  let '(neg, s1) := minus_sign s in
  let '(int, s2) := span_digits s1 in
  let '(frac, s3) :=
    match s2 with
    | b :: s' => if decide (b = point) then span_digits s' else ([], s2)
    | [] => ([], s2)
    end in
  let '(exp, s4) := strtod_exponent s3 in
  if decide (int ++ frac = []) then (0, s)
  else (read_double neg (digits_value (int ++ frac)) (exp - Z.of_nat (length frac)), s4).

(** ** Tokens *)

Inductive token_type :=
| uninitialized
| literal_true
| literal_false
| literal_null
| value_string
| value_unsigned
| value_integer
| value_float
| begin_array
| begin_object
| end_array
| end_object
| name_separator
| value_separator
| parse_error
| end_of_input
| literal_or_value.

#[global] Instance token_type_eq_dec : EqDecision token_type.
Proof. solve_decision. Defined.

Definition token_type_name (t : token_type) : string :=
  match t with
  | uninitialized => "<uninitialized>"
  | literal_true => "true literal"
  | literal_false => "false literal"
  | literal_null => "null literal"
  | value_string => "string literal"
  | value_unsigned | value_integer | value_float => "number literal"
  | begin_array => "'['"
  | begin_object => "'{'"
  | end_array => "']'"
  | end_object => "'}'"
  | name_separator => "':'"
  | value_separator => "','"
  | parse_error => "<parse error>"
  | end_of_input => "end of input"
  | literal_or_value => "'[', '{', or a literal"
  end.

(** ** State *)

(** The counters are [size_t]; they count characters of an input in memory and
    cannot wrap. *)
Record position_t := Position {
  chars_read_total : nat;
  chars_read_current_line : nat;
  lines_read : nat;
}.

(** [char_traits<char>::eof()]; other characters are 0 to 255. *)
Definition eof : Z := -1.

(** The members of the class.  [ia] is what the input adapter has left.  The options
    [ignore_comments] and [decimal_point_char] do not change and are arguments. *)
Record lexer := MkLexer {
  ia : bytes;
  current : Z;
  next_unget : bool;
  position : position_t;
  token_string : bytes;
  token_buffer : bytes;
  error_message : string;
  number_integer : Z;
  number_unsigned : Z;
  number_float : Z;
  decimal_point_position : option nat;
}.

(** [lexer(adapter)]. *)
Definition new_lexer (input : bytes) : lexer :=
  MkLexer input eof false (Position 0 0 0) [] [] "" 0 0 0 None.

Definition set_error (message : string) (l : lexer) : lexer :=
  MkLexer (ia l) (current l) (next_unget l) (position l) (token_string l) (token_buffer l) message
    (number_integer l) (number_unsigned l) (number_float l) (decimal_point_position l).

Definition set_buffer (buffer : bytes) (point : option nat) (l : lexer) : lexer :=
  MkLexer (ia l) (current l) (next_unget l) (position l) (token_string l) buffer (error_message l)
    (number_integer l) (number_unsigned l) (number_float l) point.

Definition set_integer (z : Z) (l : lexer) : lexer :=
  MkLexer (ia l) (current l) (next_unget l) (position l) (token_string l) (token_buffer l)
    (error_message l) z (number_unsigned l) (number_float l) (decimal_point_position l).

Definition set_unsigned (z : Z) (l : lexer) : lexer :=
  MkLexer (ia l) (current l) (next_unget l) (position l) (token_string l) (token_buffer l)
    (error_message l) (number_integer l) z (number_float l) (decimal_point_position l).

Definition set_float (bits : Z) (l : lexer) : lexer :=
  MkLexer (ia l) (current l) (next_unget l) (position l) (token_string l) (token_buffer l)
    (error_message l) (number_integer l) (number_unsigned l) bits (decimal_point_position l).

(** ** Input *)

(** [iterator_input_adapter::get_character]. *)
Definition get_character (s : bytes) : Z * bytes :=
  match s with
  | b :: s => (b2z b, s)
  | [] => (eof, [])
  end.

(** [char_traits::to_char_type]. *)
Definition to_char_type (c : Z) : byte := z2b c.

Definition advance (c : Z) (p : position_t) : position_t :=
  let total := S (chars_read_total p) in
  if c =? 0x0A then Position total 0 (S (lines_read p))
  else Position total (S (chars_read_current_line p)) (lines_read p).

Definition get (l : lexer) : lexer :=
  let '(c, input) := if next_unget l then (current l, ia l) else get_character (ia l) in
  MkLexer input c false (advance c (position l))
    (if c =? eof then token_string l else token_string l ++ [to_char_type c])
    (token_buffer l) (error_message l) (number_integer l) (number_unsigned l) (number_float l)
    (decimal_point_position l).

Definition retreat (p : position_t) : position_t :=
  let total := pred (chars_read_total p) in
  if decide (chars_read_current_line p = 0%nat) then Position total 0 (pred (lines_read p))
  else Position total (pred (chars_read_current_line p)) (lines_read p).

Definition unget (l : lexer) : outcome lexer :=
  token_string ←
    (if current l =? eof then Val (token_string l)
     else JSON_ASSERT (bool_decide (token_string l ≠ []));;
          Val (take (pred (length (token_string l))) (token_string l)));
  Val (MkLexer (ia l) (current l) true (retreat (position l)) token_string (token_buffer l)
         (error_message l) (number_integer l) (number_unsigned l) (number_float l)
         (decimal_point_position l)).

(** [token_buffer.push_back(c)]. *)
Definition add (c : Z) (l : lexer) : lexer :=
  set_buffer (token_buffer l ++ [z2b c]) (decimal_point_position l) l.

Definition reset (l : lexer) : lexer :=
  MkLexer (ia l) (current l) (next_unget l) (position l) [to_char_type (current l)] []
    (error_message l) (number_integer l) (number_unsigned l) (number_float l) None.

(** The code of an ASCII character. *)
Definition ch (b : byte) : Z := b2z b.

(** The range of the cases ['0'] to ['9']. *)
Definition digit (c : Z) : bool := (ch "0" <=? c) && (c <=? ch "9").

(** What one round of a scanner's loop does: go on, or return. *)
Inductive progress :=
| Continue (l : lexer)
| Return (t : token_type) (l : lexer).

Definition fail (message : string) (l : lexer) : progress := Return parse_error (set_error message l).

(** ** Strings *)

Definition hex_digit (c : Z) : option Z :=
  if (ch "0" <=? c) && (c <=? ch "9") then Some (c - 0x30)
  else if (ch "A" <=? c) && (c <=? ch "F") then Some (c - 0x37)
  else if (ch "a" <=? c) && (c <=? ch "f") then Some (c - 0x57)
  else None.

Fixpoint get_codepoint_loop (factors : list Z) (codepoint : Z) (l : lexer) : Z * lexer :=
  match factors with
  | [] => (codepoint, l)
  | factor :: factors =>
      let l := get l in
      match hex_digit (current l) with
      | Some d => get_codepoint_loop factors (codepoint + Z.shiftl d factor) l
      | None => (-1, l)
      end
  end.

Definition get_codepoint (l : lexer) : outcome (Z * lexer) :=
  JSON_ASSERT (current l =? ch "u");;
  let '(codepoint, l) := get_codepoint_loop [12; 8; 4; 0] 0 l in
  if codepoint =? -1 then Val (-1, l)
  else JSON_ASSERT ((0 <=? codepoint) && (codepoint <=? 0xFFFF));; Val (codepoint, l).

Fixpoint next_bytes (ranges : list (Z * Z)) (l : lexer) : bool * lexer :=
  match ranges with
  | [] => (true, l)
  | (lo, hi) :: ranges =>
      let l := get l in
      if (lo <=? current l) && (current l <=? hi) then next_bytes ranges (add (current l) l)
      else (false, set_error "invalid string: ill-formed UTF-8 byte" l)
  end.

Definition next_byte_in_range (ranges : list (Z * Z)) (l : lexer) : outcome (bool * lexer) :=
  JSON_ASSERT (bool_decide (length ranges ∈ [1; 2; 3]%nat));;
  Val (next_bytes ranges (add (current l) l)).

(** The code point of a [\u] escape and the low surrogate that must follow a high
    one: [inl] is the code point. *)
Definition scan_surrogate (codepoint1 : Z) (l : lexer)
    : outcome ((Z * lexer) + (string * lexer)) :=
  if (0xD800 <=? codepoint1) && (codepoint1 <=? 0xDBFF) then
    let error := "invalid string: surrogate U+D800..U+DBFF must be followed by U+DC00..U+DFFF" in
    let l := get l in
    if current l =? 0x5C then
      let l := get l in
      if current l =? ch "u" then
        '(codepoint2, l) ← get_codepoint l;
        if codepoint2 =? -1 then
          Val (inr ("invalid string: '\u' must be followed by 4 hex digits", l))
        else if (0xDC00 <=? codepoint2) && (codepoint2 <=? 0xDFFF) then
          Val (inl (u32 (u32 (Z.shiftl codepoint1 10) + codepoint2 - 0x35FDC00), l))
        else Val (inr (error, l))
      else Val (inr (error, l))
    else Val (inr (error, l))
  else if (0xDC00 <=? codepoint1) && (codepoint1 <=? 0xDFFF) then
    Val (inr ("invalid string: surrogate U+DC00..U+DFFF must follow U+D800..U+DBFF", l))
  else Val (inl (codepoint1, l)).

(** [translate codepoint into bytes]. *)
Definition add_codepoint (codepoint : Z) (l : lexer) : lexer :=
  if codepoint <? 0x80 then add codepoint l
  else if codepoint <=? 0x7FF then
    add (Z.lor 0x80 (Z.land codepoint 0x3F)) (add (Z.lor 0xC0 (Z.shiftr codepoint 6)) l)
  else if codepoint <=? 0xFFFF then
    add (Z.lor 0x80 (Z.land codepoint 0x3F))
      (add (Z.lor 0x80 (Z.land (Z.shiftr codepoint 6) 0x3F))
        (add (Z.lor 0xE0 (Z.shiftr codepoint 12)) l))
  else
    add (Z.lor 0x80 (Z.land codepoint 0x3F))
      (add (Z.lor 0x80 (Z.land (Z.shiftr codepoint 6) 0x3F))
        (add (Z.lor 0x80 (Z.land (Z.shiftr codepoint 12) 0x3F))
          (add (Z.lor 0xF0 (Z.shiftr codepoint 18)) l))).

(** [case 'u']. *)
Definition scan_unicode (l : lexer) : outcome progress :=
  '(codepoint1, l) ← get_codepoint l;
  if codepoint1 =? -1 then
    Val (fail "invalid string: '\u' must be followed by 4 hex digits" l)
  else
    r ← scan_surrogate codepoint1 l;
    match r with
    | inr (error, l) => Val (fail error l)
    | inl (codepoint, l) =>
        JSON_ASSERT ((0 <=? codepoint) && (codepoint <=? 0x10FFFF));;
        Val (Continue (add_codepoint codepoint l))
    end.

(** The character after a backslash. *)
Definition scan_escape (l : lexer) : outcome progress :=
  let l := get l in
  let c := current l in
  if c =? 0x22 then Val (Continue (add 0x22 l))
  else if c =? 0x5C then Val (Continue (add 0x5C l))
  else if c =? ch "/" then Val (Continue (add (ch "/") l))
  else if c =? ch "b" then Val (Continue (add 0x08 l))
  else if c =? ch "f" then Val (Continue (add 0x0C l))
  else if c =? ch "n" then Val (Continue (add 0x0A l))
  else if c =? ch "r" then Val (Continue (add 0x0D l))
  else if c =? ch "t" then Val (Continue (add 0x09 l))
  else if c =? ch "u" then scan_unicode l
  else Val (fail "invalid string: forbidden character after backslash" l).

(** The messages for the characters below 0x20. *)
Definition control_messages : list string := [
  "invalid string: control character U+0000 (NUL) must be escaped to \u0000";
  "invalid string: control character U+0001 (SOH) must be escaped to \u0001";
  "invalid string: control character U+0002 (STX) must be escaped to \u0002";
  "invalid string: control character U+0003 (ETX) must be escaped to \u0003";
  "invalid string: control character U+0004 (EOT) must be escaped to \u0004";
  "invalid string: control character U+0005 (ENQ) must be escaped to \u0005";
  "invalid string: control character U+0006 (ACK) must be escaped to \u0006";
  "invalid string: control character U+0007 (BEL) must be escaped to \u0007";
  "invalid string: control character U+0008 (BS) must be escaped to \u0008 or \b";
  "invalid string: control character U+0009 (HT) must be escaped to \u0009 or \t";
  "invalid string: control character U+000A (LF) must be escaped to \u000A or \n";
  "invalid string: control character U+000B (VT) must be escaped to \u000B";
  "invalid string: control character U+000C (FF) must be escaped to \u000C or \f";
  "invalid string: control character U+000D (CR) must be escaped to \u000D or \r";
  "invalid string: control character U+000E (SO) must be escaped to \u000E";
  "invalid string: control character U+000F (SI) must be escaped to \u000F";
  "invalid string: control character U+0010 (DLE) must be escaped to \u0010";
  "invalid string: control character U+0011 (DC1) must be escaped to \u0011";
  "invalid string: control character U+0012 (DC2) must be escaped to \u0012";
  "invalid string: control character U+0013 (DC3) must be escaped to \u0013";
  "invalid string: control character U+0014 (DC4) must be escaped to \u0014";
  "invalid string: control character U+0015 (NAK) must be escaped to \u0015";
  "invalid string: control character U+0016 (SYN) must be escaped to \u0016";
  "invalid string: control character U+0017 (ETB) must be escaped to \u0017";
  "invalid string: control character U+0018 (CAN) must be escaped to \u0018";
  "invalid string: control character U+0019 (EM) must be escaped to \u0019";
  "invalid string: control character U+001A (SUB) must be escaped to \u001A";
  "invalid string: control character U+001B (ESC) must be escaped to \u001B";
  "invalid string: control character U+001C (FS) must be escaped to \u001C";
  "invalid string: control character U+001D (GS) must be escaped to \u001D";
  "invalid string: control character U+001E (RS) must be escaped to \u001E";
  "invalid string: control character U+001F (US) must be escaped to \u001F"
].

(** The ranges of the bytes that follow a first byte of 0x80 or more; the bytes
    80..C1 and F5..FF are ill-formed. *)
Definition utf8_ranges (c : Z) : option (list (Z * Z)) :=
  if c <? 0xC2 then None
  else if c <=? 0xDF then Some [(0x80, 0xBF)]
  else if c =? 0xE0 then Some [(0xA0, 0xBF); (0x80, 0xBF)]
  else if c =? 0xED then Some [(0x80, 0x9F); (0x80, 0xBF)]
  else if c <=? 0xEF then Some [(0x80, 0xBF); (0x80, 0xBF)]
  else if c =? 0xF0 then Some [(0x90, 0xBF); (0x80, 0xBF); (0x80, 0xBF)]
  else if c <=? 0xF3 then Some [(0x80, 0xBF); (0x80, 0xBF); (0x80, 0xBF)]
  else if c =? 0xF4 then Some [(0x80, 0x8F); (0x80, 0xBF); (0x80, 0xBF)]
  else None.

Definition scan_utf8 (l : lexer) : outcome progress :=
  match utf8_ranges (current l) with
  | Some ranges =>
      '(ok, l) ← next_byte_in_range ranges l;
      Val (if ok : bool then Continue l else Return parse_error l)
  | None => Val (fail "invalid string: ill-formed UTF-8 byte" l)
  end.

(** [switch (get())] of [scan_string]. *)
Definition scan_string_char (l : lexer) : outcome progress :=
  let l := get l in
  let c := current l in
  if c =? eof then Val (fail "invalid string: missing closing quote" l)
  else if c =? 0x22 then Val (Return value_string l)
  else if c =? 0x5C then scan_escape l
  else if c <? 0x20 then Val (fail (nth (Z.to_nat c) control_messages EmptyString) l)
  else if c <=? 0x7F then Val (Continue (add c l))
  else scan_utf8 l.

Fixpoint scan_string_loop (fuel : nat) (l : lexer) : outcome (token_type * lexer) :=
  match fuel with
  | O => Undefined
  | S fuel =>
      p ← scan_string_char l;
      match p with
      | Continue l => scan_string_loop fuel l
      | Return t l => Val (t, l)
      end
  end.

(** A round reads a character of the input, or the end, and then returns. *)
Definition scan_string (l : lexer) : outcome (token_type * lexer) :=
  let l := reset l in
  JSON_ASSERT (current l =? 0x22);;
  scan_string_loop (S (length (ia l))) l.

(** ** Comments *)

Fixpoint line_comment_loop (fuel : nat) (l : lexer) : outcome (bool * lexer) :=
  match fuel with
  | O => Undefined
  | S fuel =>
      let l := get l in
      let c := current l in
      if (c =? 0x0A) || (c =? 0x0D) || (c =? eof) || (c =? 0) then Val (true, l)
      else line_comment_loop fuel l
  end.

Fixpoint block_comment_loop (fuel : nat) (l : lexer) : outcome (bool * lexer) :=
  match fuel with
  | O => Undefined
  | S fuel =>
      let l := get l in
      let c := current l in
      if (c =? eof) || (c =? 0) then
        Val (false, set_error "invalid comment; missing closing '*/'" l)
      else if c =? ch "*" then
        let l := get l in
        if current l =? ch "/" then Val (true, l)
        else l ← unget l; block_comment_loop fuel l
      else block_comment_loop fuel l
  end.

(** A round reads a character for good: after a star, the next may be read again. *)
Definition scan_comment (l : lexer) : outcome (bool * lexer) :=
  let l := get l in
  let fuel := S (length (ia l)) in
  if current l =? ch "/" then line_comment_loop fuel l
  else if current l =? ch "*" then block_comment_loop fuel l
  else Val (false, set_error "invalid comment; expecting '/' or '*' after '/'" l).

(** ** Numbers *)

(** The labels [scan_number_minus] to [scan_number_any2]. *)
Inductive number_state := minus | zero | any1 | decimal1 | decimal2 | exponent | sign | any2.

Inductive number_step :=
| Goto (st : number_state) (l : lexer)
| GotoDone (l : lexer)
| NumberError (message : string).

Section options.
Context (ignore_comments : bool) (decimal_point_char : byte).

(** [case '.']. *)
Definition add_point (l : lexer) : lexer :=
  let l := add (b2z decimal_point_char) l in
  set_buffer (token_buffer l) (Some (pred (length (token_buffer l)))) l.

(** The code after each label, [l] being the lexer after [get()]. *)
Definition number_switch (st : number_state) (l : lexer) : number_step :=
  let c := current l in
  match st with
  | minus =>
      if c =? ch "0" then Goto zero (add c l)
      else if digit c then Goto any1 (add c l)
      else NumberError "invalid number; expected digit after '-'"
  | zero =>
      if c =? ch "." then Goto decimal1 (add_point l)
      else if (c =? ch "e") || (c =? ch "E") then Goto exponent (add c l)
      else GotoDone l
  | any1 =>
      if digit c then Goto any1 (add c l)
      else if c =? ch "." then Goto decimal1 (add_point l)
      else if (c =? ch "e") || (c =? ch "E") then Goto exponent (add c l)
      else GotoDone l
  | decimal1 =>
      if digit c then Goto decimal2 (add c l)
      else NumberError "invalid number; expected digit after '.'"
  | decimal2 =>
      if digit c then Goto decimal2 (add c l)
      else if (c =? ch "e") || (c =? ch "E") then Goto exponent (add c l)
      else GotoDone l
  | exponent =>
      if (c =? ch "+") || (c =? ch "-") then Goto sign (add c l)
      else if digit c then Goto any2 (add c l)
      else NumberError "invalid number; expected '+', '-', or digit after exponent"
  | sign =>
      if digit c then Goto any2 (add c l)
      else NumberError "invalid number; expected digit after exponent sign"
  | any2 =>
      if digit c then Goto any2 (add c l) else GotoDone l
  end.

(** The assignment to [number_type] after a label. *)
Definition number_type_at (st : number_state) (number_type : token_type) : token_type :=
  match st with
  | minus => value_integer
  | decimal1 | exponent => value_float
  | _ => number_type
  end.

(** From the label [scan_number_done] on, past [unget]. *)
Definition convert_number (number_type : token_type) (l : lexer) : outcome (token_type * lexer) :=
  let buffer := token_buffer l in
  let to_float (l : lexer) :=
    let '(x, rest) := strtod decimal_point_char buffer in
    JSON_ASSERT (bool_decide (rest = []));; Val (value_float, set_float x l) in
  match number_type with
  | value_unsigned =>
      let '(x, range_error, rest) := strtoull buffer in
      JSON_ASSERT (bool_decide (rest = []));;
      if range_error : bool then to_float l
      else let l := set_unsigned x l in
           if number_unsigned l =? x then Val (value_unsigned, l) else to_float l
  | value_integer =>
      let '(x, range_error, rest) := strtoll buffer in
      JSON_ASSERT (bool_decide (rest = []));;
      if range_error : bool then to_float l
      else let l := set_integer x l in
           if number_integer l =? x then Val (value_integer, l) else to_float l
  | _ => to_float l
  end.

Fixpoint number_loop (fuel : nat) (st : number_state) (number_type : token_type) (l : lexer)
    : outcome (token_type * lexer) :=
  match fuel with
  | O => Undefined
  | S fuel =>
      let number_type := number_type_at st number_type in
      let l := get l in
      match number_switch st l with
      | Goto st l => number_loop fuel st number_type l
      | NumberError message => Val (parse_error, set_error message l)
      | GotoDone l => l ← unget l; convert_number number_type l
      end
  end.

(** Every label but the last reads a character of the number. *)
Definition scan_number (l : lexer) : outcome (token_type * lexer) :=
  let l := reset l in
  let c := current l in
  let fuel := S (length (ia l)) in
  if c =? ch "-" then number_loop fuel minus value_unsigned (add c l)
  else if c =? ch "0" then number_loop fuel zero value_unsigned (add c l)
  else if digit c then number_loop fuel any1 value_unsigned (add c l)
  else Undefined.

(** ** Tokens *)

(** The characters of a literal after its first. *)
Fixpoint scan_literal_loop (literal_text : bytes) (return_type : token_type) (l : lexer)
    : token_type * lexer :=
  match literal_text with
  | [] => (return_type, l)
  | c :: literal_text =>
      let l := get l in
      if decide (to_char_type (current l) = c) then scan_literal_loop literal_text return_type l
      else (parse_error, set_error "invalid literal" l)
  end.

Definition scan_literal (literal_text : bytes) (return_type : token_type) (l : lexer)
    : outcome (token_type * lexer) :=
  JSON_ASSERT (bool_decide (head literal_text = Some (to_char_type (current l))));;
  Val (scan_literal_loop (tail literal_text) return_type l).

Definition skip_bom (l : lexer) : outcome (bool * lexer) :=
  let l := get l in
  if current l =? 0xEF then
    let l := get l in
    if current l =? 0xBB then let l := get l in Val (current l =? 0xBF, l)
    else Val (false, l)
  else l ← unget l; Val (true, l).

Definition whitespace (c : Z) : bool :=
  (c =? ch " ") || (c =? 0x09) || (c =? 0x0A) || (c =? 0x0D).

Fixpoint skip_whitespace_loop (fuel : nat) (l : lexer) : outcome lexer :=
  match fuel with
  | O => Undefined
  | S fuel =>
      let l := get l in
      if whitespace (current l) then skip_whitespace_loop fuel l else Val l
  end.

(** A character may wait in [current], and the end of the input ends the loop. *)
Definition skip_whitespace (l : lexer) : outcome lexer :=
  skip_whitespace_loop (S (S (length (ia l)))) l.

(** [while (ignore_comments && current == '/')]; [false] when a comment is wrong. *)
Fixpoint skip_comments (fuel : nat) (l : lexer) : outcome (bool * lexer) :=
  if ignore_comments && (current l =? ch "/") then
    match fuel with
    | O => Undefined
    | S fuel =>
        '(ok, l) ← scan_comment l;
        if ok : bool then l ← skip_whitespace l; skip_comments fuel l else Val (false, l)
    end
  else Val (true, l).

(** [switch (current)] of [scan]. *)
Definition scan_token (l : lexer) : outcome (token_type * lexer) :=
  let c := current l in
  if c =? ch "[" then Val (begin_array, l)
  else if c =? ch "]" then Val (end_array, l)
  else if c =? ch "{" then Val (begin_object, l)
  else if c =? ch "}" then Val (end_object, l)
  else if c =? ch ":" then Val (name_separator, l)
  else if c =? ch "," then Val (value_separator, l)
  else if c =? ch "t" then scan_literal (str "true") literal_true l
  else if c =? ch "f" then scan_literal (str "false") literal_false l
  else if c =? ch "n" then scan_literal (str "null") literal_null l
  else if c =? 0x22 then scan_string l
  else if (c =? ch "-") || digit c then scan_number l
  else if (c =? 0) || (c =? eof) then Val (end_of_input, l)
  else Val (parse_error, set_error "invalid literal" l).

Definition scan (l : lexer) : outcome (token_type * lexer) :=
  '(ok, l) ← (if decide (chars_read_total (position l) = 0%nat) then skip_bom l else Val (true, l));
  if ok : bool then
    l ← skip_whitespace l;
    '(ok, l) ← skip_comments (S (length (ia l))) l;
    if ok : bool then scan_token l else Val (parse_error, l)
  else Val (parse_error, set_error "invalid BOM; must be 0xEF 0xBB 0xBF if given" l).

(** ** What the parser asks for *)

(** [get_string]: the point of the locale becomes a dot again. *)
Definition get_string (l : lexer) : bytes :=
  match decimal_point_position l with
  | Some i => if decide (decimal_point_char = "."%byte) then token_buffer l
              else <[i := "."%byte]> (token_buffer l)
  | None => token_buffer l
  end.

End options.

(** ["<U+%.4X>"]. *)
Definition escape_control (c : byte) : bytes :=
  if b2z c <=? 0x1F then
    str "<U+00" ++ [Serializer.hex_upper (b2z c `div` 16); Serializer.hex_upper (b2z c `mod` 16)]
      ++ str ">"
  else [c].
Definition get_token_string (l : lexer) : bytes := concat (escape_control <$> token_string l).

End Lexer.
