(* ===== verification/JsonParser.v ===== *)
(** * Reading JSON: the parser ([nlohmann/json.hpp], [detail::parser])

    The event interface between the parser and what it builds ([Sax]), its two
    implementations ([json_sax_dom_parser], [json_sax_acceptor]), and the parser's
    loop over a stack of open arrays and objects.  The value under construction is a
    shared tree: the stack of open containers and the slot of the next member are
    pointers into it, here paths from its root. *)

From S2P Require Import Prelude Float Dtoa Json JsonLexer.
From Stdlib Require Import Strings.Byte.

Open Scope Z_scope.

(** ** Exceptions *)

Module Exceptions.

(** [exception::name]. *)
Definition name (ename : string) (id : Z) : string :=
  "[json.exception." +:+ ename +:+ "." +:+ Serializer.to_string id +:+ "] ".

(** [parse_error::position_string]. *)
Definition position_string (pos : Lexer.position_t) : string :=
  " at line " +:+ Serializer.to_string (Z.of_nat (S (Lexer.lines_read pos))) +:+
  ", column " +:+ Serializer.to_string (Z.of_nat (Lexer.chars_read_current_line pos)).

(** [parse_error::create]; without diagnostics its context adds nothing. *)
Definition parse_error (id : Z) (pos : Lexer.position_t) (what_arg : string) : string :=
  name "parse_error" id +:+ "parse error" +:+ position_string pos +:+ ": " +:+ what_arg.

(** [out_of_range::create]. *)
Definition out_of_range (id : Z) (what_arg : string) : string := name "out_of_range" id +:+ what_arg.

End Exceptions.

(** ** Events *)

Module Sax.

(** What a handler answers: whether to go on. *)
Record t (S : Type) := Make {
  null : S → outcome (bool * S);
  boolean : bool → S → outcome (bool * S);
  number_integer : Z → S → outcome (bool * S);
  number_unsigned : Z → S → outcome (bool * S);
  number_float : Z → bytes → S → outcome (bool * S);
  string : bytes → S → outcome (bool * S);
  start_object : Z → S → outcome (bool * S);
  key : bytes → S → outcome (bool * S);
  end_object : S → outcome (bool * S);
  start_array : Z → S → outcome (bool * S);
  end_array : S → outcome (bool * S);
  parse_error : nat → bytes → String.string → S → outcome (bool * S);
}.
Arguments null {S}.
Arguments boolean {S}.
Arguments number_integer {S}.
Arguments number_unsigned {S}.
Arguments number_float {S}.
Arguments string {S}.
Arguments start_object {S}.
Arguments key {S}.
Arguments end_object {S}.
Arguments start_array {S}.
Arguments end_array {S}.
Arguments parse_error {S}.

(** [detail::unknown_size()]. *)
Definition unknown_size : Z := 2 ^ 64 - 1.

End Sax.

(** ** [json_sax_dom_parser] *)

Module DomParser.

(** A pointer to a value inside the tree. *)
Inductive step := Index (i : nat) | Key (k : bytes).
Definition pointer : Type := list step.

(** [std::map::find], and [operator[]] that adds null at a new key. *)
Fixpoint map_find (k : bytes) (m : list (bytes * json)) : option json :=
  match m with
  | [] => None
  | (k', v) :: m => if decide (k' = k) then Some v else map_find k m
  end.
Definition map_at (k : bytes) (m : list (bytes * json)) : list (bytes * json) :=
  match map_find k m with Some _ => m | None => map_insert k JNull m end.

Fixpoint map_alter (f : json → json) (k : bytes) (m : list (bytes * json)) : list (bytes * json) :=
  match m with
  | [] => []
  | (k', v) :: m => if decide (k' = k) then (k', f v) :: m else (k', v) :: map_alter f k m
  end.

(** The value at a pointer, and the tree after an assignment through it. *)
Fixpoint deref (p : pointer) (j : json) : option json :=
  match p, j with
  | [], j => Some j
  | Index i :: p, JArray l => v ← l !! i; deref p v
  | Key k :: p, JObject m => v ← map_find k m; deref p v
  | _, _ => None
  end.
Fixpoint assign (p : pointer) (v : json) (j : json) : json :=
  match p, j with
  | [], _ => v
  | Index i :: p, JArray l => JArray (alter (assign p v) i l)
  | Key k :: p, JObject m => JObject (map_alter (assign p v) k m)
  | _, j => j
  end.

(** The members; the back of [ref_stack] is the head of the list. *)
Record t := Dom {
  root : json;
  ref_stack : list pointer;
  object_element : option pointer;
  errored : bool;
}.

Definition new (r : json) : t := Dom r [] None false.

Definition back (d : t) : outcome (pointer * json) :=
  match ref_stack d with
  | p :: _ => match deref p (root d) with Some j => Val (p, j) | None => Undefined end
  | [] => Undefined
  end.

(** The pointer to the value put in place. *)
Definition handle_value (v : json) (d : t) : outcome (pointer * t) :=
  match ref_stack d with
  | [] => Val ([], Dom v [] (object_element d) (errored d))
  | _ :: _ =>
      '(p, j) ← back d;
      match j with
      | JArray l =>
          Val (p ++ [Index (length l)],
               Dom (assign p (JArray (l ++ [v])) (root d)) (ref_stack d) (object_element d) (errored d))
      | JObject _ =>
          match object_element d with
          | Some q =>
              JSON_ASSERT (bool_decide (is_Some (deref q (root d))));;
              Val (q, Dom (assign q v (root d)) (ref_stack d) (object_element d) (errored d))
          | None => Undefined
          end
      | _ => Undefined
      end
  end.

Definition handle_scalar (v : json) (d : t) : outcome (bool * t) :=
  '(_, d) ← handle_value v d; Val (true, d).

Definition push (p : pointer) (d : t) : t :=
  Dom (root d) (p :: ref_stack d) (object_element d) (errored d).

Definition pop (d : t) : t := Dom (root d) (tail (ref_stack d)) (object_element d) (errored d).

Section handlers.
Context (max_size : Z) (allow_exceptions : bool).

Definition null : t → outcome (bool * t) := handle_scalar JNull.
Definition boolean (val : bool) : t → outcome (bool * t) := handle_scalar (JBoolean val).
Definition number_integer (val : Z) : t → outcome (bool * t) := handle_scalar (JInteger val).
Definition number_unsigned (val : Z) : t → outcome (bool * t) := handle_scalar (JUnsigned val).
Definition number_float (val : Z) (_ : bytes) : t → outcome (bool * t) := handle_scalar (JFloat val).
Definition string (val : bytes) : t → outcome (bool * t) := handle_scalar (JString val).
Definition binary (data : bytes) (subtype : option Z) : t → outcome (bool * t) :=
  handle_scalar (JBinary data subtype).

Definition start_object (len : Z) (d : t) : outcome (bool * t) :=
  '(p, d) ← handle_value (JObject []) d;
  if negb (len =? Sax.unknown_size) && (max_size <? len) then
    Throw (Exceptions.out_of_range 408 ("excessive object size: " +:+ Serializer.to_string len))
  else Val (true, push p d).

Definition key (val : bytes) (d : t) : outcome (bool * t) :=
  '(p, j) ← back d;
  match j with
  | JObject m =>
      Val (true, Dom (assign p (JObject (map_at val m)) (root d)) (ref_stack d)
                   (Some (p ++ [Key val])) (errored d))
  | _ => Undefined
  end.

Definition end_object (d : t) : outcome (bool * t) :=
  '(_, j) ← back d;
  match j with JObject _ => Val (true, pop d) | _ => Undefined end.

Definition start_array (len : Z) (d : t) : outcome (bool * t) :=
  '(p, d) ← handle_value (JArray []) d;
  if negb (len =? Sax.unknown_size) && (max_size <? len) then
    Throw (Exceptions.out_of_range 408 ("excessive array size: " +:+ Serializer.to_string len))
  else Val (true, push p d).

Definition end_array (d : t) : outcome (bool * t) :=
  '(_, j) ← back d;
  match j with JArray _ => Val (true, pop d) | _ => Undefined end.

Definition parse_error (_ : nat) (_ : bytes) (ex : String.string) (d : t) : outcome (bool * t) :=
  if allow_exceptions then Throw ex
  else Val (false, Dom (root d) (ref_stack d) (object_element d) true).

Definition sax : Sax.t t :=
  Sax.Make t null boolean number_integer number_unsigned number_float string start_object key
    end_object start_array end_array parse_error.

End handlers.

Definition is_errored (d : t) : bool := errored d.

End DomParser.

(** ** [json_sax_acceptor] *)

Module Acceptor.

Definition ok (s : ()) : outcome (bool * ()) := Val (true, s).

Definition parse_error (_ : nat) (_ : bytes) (_ : String.string) (s : ()) : outcome (bool * ()) :=
  Val (false, s).

Definition sax : Sax.t () :=
  Sax.Make () ok (λ _, ok) (λ _, ok) (λ _, ok) (λ _ _, ok) (λ _, ok) (λ _, ok) (λ _, ok) ok
    (λ _, ok) ok parse_error.

End Acceptor.

(** ** The parser *)

Module Parser.
Import Lexer.

Record t := MkParser { last_token : token_type; m_lexer : lexer }.

Section options.
Context (ignore_comments ignore_trailing_commas : bool) (decimal_point_char : byte).

Definition get_token (p : t) : outcome t :=
  '(tok, l) ← scan ignore_comments decimal_point_char (m_lexer p);
  Val (MkParser tok l).

(** The constructor reads the first token. *)
Definition parser (input : bytes) : outcome t := get_token (MkParser uninitialized (new_lexer input)).

Definition exception_message (expected : token_type) (context : string) (p : t) : string :=
  "syntax error " +:+
  (if decide (context = EmptyString) then EmptyString else "while parsing " +:+ context +:+ " ") +:+
  "- " +:+
  (if decide (last_token p = parse_error) then
     error_message (m_lexer p) +:+ "; last read: '" +:+
       String.string_of_list_byte (get_token_string (m_lexer p)) +:+ "'"
   else "unexpected " +:+ token_type_name (last_token p)) +:+
  (if decide (expected = uninitialized) then EmptyString
   else "; expected " +:+ token_type_name expected).

Section sax.
Context {S : Type} (sax : Sax.t S).

(** Where an iteration of the loop, or its [switch], leads. *)
Inductive flow :=
| Break (states : list bool) (p : t) (s : S)
| ContinueLoop (skip_to_state_evaluation : bool) (states : list bool) (p : t) (s : S)
| Ret (result : bool) (p : t) (s : S).

(** [return sax->parse_error(..)]. *)
Definition report (ex : string) (p : t) (s : S) : outcome (bool * t * S) :=
  '(r, s) ← Sax.parse_error sax (chars_read_total (position (m_lexer p)))
              (get_token_string (m_lexer p)) ex s;
  Val (r, p, s).

Definition syntax_error (expected : token_type) (context : string) (p : t) (s : S)
    : outcome (bool * t * S) :=
  report (Exceptions.parse_error 101 (position (m_lexer p)) (exception_message expected context p)) p s.

Definition return_error (m : outcome (bool * t * S)) : outcome flow :=
  '(r, p, s) ← m; Val (Ret r p s).

(** [if (!sax->handler(..)) return false;] then [k]. *)
Definition event (m : outcome (bool * S)) (p : t) (k : S → outcome flow) : outcome flow :=
  '(ok, s) ← m; if ok : bool then k s else Val (Ret false p s).

(** A key, the colon after it, and the first token of the value. *)
Definition parse_member (states : list bool) (p : t) (s : S) : outcome flow :=
  if decide (last_token p = value_string) then
    event (Sax.key sax (get_string decimal_point_char (m_lexer p)) s) p (λ s,
      p ← get_token p;
      if decide (last_token p = name_separator) then
        p ← get_token p; Val (ContinueLoop false states p s)
      else return_error (syntax_error name_separator "object separator" p s))
  else return_error (syntax_error value_string "object key" p s).

(** [switch (last_token)]. *)
Definition parse_value (states : list bool) (p : t) (s : S) : outcome flow :=
  let l := m_lexer p in
  let scalar (m : outcome (bool * S)) := event m p (λ s, Val (Break states p s)) in
  match last_token p with
  | begin_object =>
      event (Sax.start_object sax Sax.unknown_size s) p (λ s,
        p ← get_token p;
        if decide (last_token p = end_object) then
          event (Sax.end_object sax s) p (λ s, Val (Break states p s))
        else parse_member (false :: states) p s)
  | begin_array =>
      event (Sax.start_array sax Sax.unknown_size s) p (λ s,
        p ← get_token p;
        if decide (last_token p = end_array) then
          event (Sax.end_array sax s) p (λ s, Val (Break states p s))
        else Val (ContinueLoop false (true :: states) p s))
  | value_float =>
      let res := number_float l in
      if Dtoa.isfinite res then
        scalar (Sax.number_float sax res (get_string decimal_point_char l) s)
      else return_error (report (Exceptions.out_of_range 406
             ("number overflow parsing '" +:+
              String.string_of_list_byte (get_token_string l) +:+ "'")) p s)
  | literal_false => scalar (Sax.boolean sax false s)
  | literal_null => scalar (Sax.null sax s)
  | literal_true => scalar (Sax.boolean sax true s)
  | value_integer => scalar (Sax.number_integer sax (number_integer l) s)
  | value_string => scalar (Sax.string sax (get_string decimal_point_char l) s)
  | value_unsigned => scalar (Sax.number_unsigned sax (number_unsigned l) s)
  | parse_error => return_error (syntax_error uninitialized "value" p s)
  | end_of_input =>
      if decide (chars_read_total (position l) = 1%nat) then
        return_error (report (Exceptions.parse_error 101 (position l)
          "attempting to parse an empty input; check that your input string or stream contains the expected JSON") p s)
      else return_error (syntax_error literal_or_value "value" p s)
  | _ => return_error (syntax_error literal_or_value "value" p s)
  end.

(** [closing ]] and [closing }]. *)
Definition close_container (array : bool) (states : list bool) (p : t) (s : S) : outcome flow :=
  let close := if array then end_array else end_object in
  if decide (last_token p = close) then
    event (if array then Sax.end_array sax s else Sax.end_object sax s) p (λ s,
      Val (ContinueLoop true (tail states) p s))
  else return_error (syntax_error close (if array then "array" else "object") p s).

(** After a value: the end, the next element or member, or the end of the innermost
    container. *)
Definition state_evaluation (states : list bool) (p : t) (s : S) : outcome flow :=
  match states with
  | [] => Val (Ret true p s)
  | array :: _ =>
      p ← get_token p;
      if decide (last_token p = value_separator) then
        p ← get_token p;
        if ignore_trailing_commas && bool_decide (last_token p = if array then end_array else end_object)
        then close_container array states p s
        else if array : bool then Val (ContinueLoop false states p s)
        else parse_member states p s
      else close_container array states p s
  end.

Definition iteration (skip_to_state_evaluation : bool) (states : list bool) (p : t) (s : S)
    : outcome flow :=
  f ← (if skip_to_state_evaluation then Val (Break states p s) else parse_value states p s);
  match f with
  | Break states p s => state_evaluation states p s
  | f => Val f
  end.

Fixpoint sax_loop (fuel : nat) (skip_to_state_evaluation : bool) (states : list bool) (p : t) (s : S)
    : outcome (bool * t * S) :=
  match fuel with
  | O => Undefined
  | Datatypes.S fuel =>
      f ← iteration skip_to_state_evaluation states p s;
      match f with
      | ContinueLoop skip states p s => sax_loop fuel skip states p s
      | Ret r p s => Val (r, p, s)
      | Break _ _ _ => Undefined
      end
  end.

(** An iteration that goes on has read a token of the input. *)
Definition sax_parse_internal (p : t) (s : S) : outcome (bool * t * S) :=
  sax_loop (4 + length (ia (m_lexer p))) false [] p s.

Definition sax_parse (strict : bool) (p : t) (s : S) : outcome (bool * S) :=
  '(result, p, s) ← sax_parse_internal p s;
  if (result : bool) && strict then
    p ← get_token p;
    if decide (last_token p = end_of_input) then Val (result, s)
    else '(r, _, s) ← syntax_error end_of_input "value" p s; Val (r, s)
  else Val (result, s).

End sax.

(** [parse] without a callback; the result is [JDiscarded] after an error that is not
    thrown. *)
Definition parse (max_size : Z) (allow_exceptions strict : bool) (p : t) : outcome json :=
  let sax := DomParser.sax max_size allow_exceptions in
  '(_, p, d) ← sax_parse_internal sax p (DomParser.new JNull);
  d ← (if strict then
         p ← get_token p;
         if decide (last_token p = end_of_input) then Val d
         else '(_, _, d) ← syntax_error sax end_of_input "value" p d; Val d
       else Val d);
  Val (if DomParser.is_errored d then JDiscarded else DomParser.root d).

Definition accept (strict : bool) (p : t) : outcome bool :=
  '(r, _) ← sax_parse Acceptor.sax strict p (); Val r.

End options.

End Parser.

(** [basic_json::parse] and [basic_json::accept]. *)
Definition json_parse (decimal_point_char : byte) (max_size : Z) (input : bytes)
    (allow_exceptions ignore_comments ignore_trailing_commas : bool) : outcome json :=
  p ← Parser.parser ignore_comments decimal_point_char input;
  Parser.parse ignore_comments ignore_trailing_commas decimal_point_char max_size allow_exceptions
    true p.

Definition json_accept (decimal_point_char : byte) (input : bytes)
    (ignore_comments ignore_trailing_commas : bool) : outcome bool :=
  p ← Parser.parser ignore_comments decimal_point_char input;
  Parser.accept ignore_comments ignore_trailing_commas decimal_point_char true p.
