(* ===== verification/JsonGrammar.v ===== *)
(** * JSON text by its grammar (RFC 8259)

    The texts of strings, numbers and values, each with what it denotes, as
    inductive relations that mention no scanner. *)

From S2P Require Import Prelude Float Dtoa Json Utf8 JsonText JsonRead.
From Stdlib Require Import Strings.Byte QArith.

Open Scope Z_scope.

(** ** White space *)

Definition is_ws (b : byte) : Prop := b = x20 ∨ b = x09 ∨ b = x0a ∨ b = x0d.

#[global] Instance is_ws_dec b : Decision (is_ws b).
Proof. unfold is_ws. apply _. Defined.

Abbreviation blank := (Forall is_ws).

(** ** Strings *)

(** One character: its text, and the UTF-8 it denotes. *)
Inductive string_char : bytes → bytes → Prop :=
| char_plain cp : scalar cp → 0x20 ≤ cp → cp ≠ 0x22 → cp ≠ 0x5C →
    string_char (utf8_encode cp) (utf8_encode cp)
| char_short c cp : short_escape c = Some cp → string_char [x5c; c] [z2b cp]
| char_unicode s cp : read_hex4 s = Some (cp, []) → scalar cp →
    string_char ([x5c; x75] ++ s) (utf8_encode cp)
| char_pair s s' hi lo : read_hex4 s = Some (hi, []) → read_hex4 s' = Some (lo, []) →
    0xD800 ≤ hi ≤ 0xDBFF → 0xDC00 ≤ lo ≤ 0xDFFF →
    string_char ([x5c; x75] ++ s ++ [x5c; x75] ++ s')
      (utf8_encode (0x10000 + (hi - 0xD800) * 1024 + (lo - 0xDC00))).

Inductive string_body : bytes → bytes → Prop :=
| body_nil : string_body [] []
| body_cons c v t w : string_char c v → string_body t w → string_body (c ++ t) (v ++ w).

Definition string_text (t v : bytes) : Prop := ∃ body, string_body body v ∧ t = [x22] ++ body ++ [x22].

(** ** Numbers *)

Record numeral := Numeral {
  negative : bool;
  int_digits : list Z;
  fraction : option (list Z);
  (** the letter, the sign and the digits *)
  exponent_part : option (byte * option byte * list Z);
}.

Definition some_digits (ds : list Z) : Prop := Forall is_digit ds ∧ ds ≠ [].

Definition numeral_ok (n : numeral) : Prop :=
  int_digits n ≠ [] ∧ (digits_ok (int_digits n) ∨ int_digits n = [0]) ∧
  match fraction n with Some ds => some_digits ds | None => True end ∧
  match exponent_part n with
  | Some (e, sgn, ds) =>
      (e = "e"%byte ∨ e = "E"%byte) ∧
      match sgn with Some b => b = "+"%byte ∨ b = "-"%byte | None => True end ∧ some_digits ds
  | None => True
  end.

Definition digits_text (ds : list Z) : bytes := digit_char <$> ds.
Definition exponent_text (x : option (byte * option byte * list Z)) : bytes :=
  match x with
  | Some (e, sgn, ds) => [e] ++ option_list sgn ++ digits_text ds
  | None => []
  end.
(** The text with [point] as its decimal point. *)
Definition numeral_chars (point : byte) (n : numeral) : bytes :=
  (if negative n then ["-"%byte] else []) ++ digits_text (int_digits n) ++
  match fraction n with Some ds => [point] ++ digits_text ds | None => [] end ++
  exponent_text (exponent_part n).
Definition numeral_text : numeral → bytes := numeral_chars "."%byte.

Definition exponent_value (x : option (byte * option byte * list Z)) : Z :=
  match x with
  | Some (_, sgn, ds) => if decide (sgn = Some "-"%byte) then - digits_value ds else digits_value ds
  | None => 0
  end.
Definition numeral_mantissa (n : numeral) : Z := digits_value (int_digits n ++ default [] (fraction n)).
Definition numeral_exponent (n : numeral) : Z :=
  exponent_value (exponent_part n) - Z.of_nat (length (default [] (fraction n))).

(** The double nearest to the number; the infinity when it is too large. *)
Definition numeral_double (n : numeral) : Z :=
  read_double (negative n) (numeral_mantissa n) (numeral_exponent n).

Definition is_integer (n : numeral) : bool :=
  match fraction n, exponent_part n with None, None => true | _, _ => false end.

(** An integer that fits keeps its value, anything else is a double. *)
Definition numeral_value (n : numeral) : json :=
  let v := digits_value (int_digits n) in
  if is_integer n && negative n && (v <=? 2 ^ 63) then JInteger (- v)
  else if is_integer n && negb (negative n) && (v <? 2 ^ 64) then JUnsigned v
  else JFloat (numeral_double n).

Definition representable (j : json) : Prop :=
  match j with JFloat bits => Dtoa.isfinite bits = true | _ => True end.

(** ** Values *)

Section values.
(** What may stand between tokens ([blank] in JSON), and whether a comma may come
    before a closing bracket. *)
Context (gap : bytes → Prop) (trailing : bool).

(** The elements, and the members, of a container with the white space around them;
    of two members with one key the later counts. *)
Inductive value_text : bytes → json → Prop :=
| text_null : value_text (str "null") JNull
| text_true : value_text (str "true") (JBoolean true)
| text_false : value_text (str "false") (JBoolean false)
| text_string t v : string_text t v → value_text t (JString v)
| text_number n : numeral_ok n → representable (numeral_value n) →
    value_text (numeral_text n) (numeral_value n)
| text_array_empty w : gap w → value_text ([x5b] ++ w ++ [x5d]) (JArray [])
| text_array t l : elements_text t l → value_text ([x5b] ++ t ++ [x5d]) (JArray l)
| text_array_trailing t l w : trailing = true → elements_text t l → gap w →
    value_text ([x5b] ++ t ++ [x2c] ++ w ++ [x5d]) (JArray l)
| text_object_empty w : gap w → value_text ([x7b] ++ w ++ [x7d]) (JObject [])
| text_object t m : members_text t m → value_text ([x7b] ++ t ++ [x7d]) (JObject m)
| text_object_trailing t m w : trailing = true → members_text t m → gap w →
    value_text ([x7b] ++ t ++ [x2c] ++ w ++ [x7d]) (JObject m)
with elements_text : bytes → list json → Prop :=
| elements_one w t j w' : gap w → value_text t j → gap w' →
    elements_text (w ++ t ++ w') [j]
| elements_snoc s l w t j w' : elements_text s l → gap w → value_text t j → gap w' →
    elements_text (s ++ [x2c] ++ w ++ t ++ w') (l ++ [j])
with members_text : bytes → list (bytes * json) → Prop :=
| members_one w1 k key w2 w3 t j w4 :
    gap w1 → string_text k key → gap w2 → gap w3 → value_text t j → gap w4 →
    members_text (w1 ++ k ++ w2 ++ [x3a] ++ w3 ++ t ++ w4) (map_insert key j [])
| members_snoc s m w1 k key w2 w3 t j w4 :
    members_text s m →
    gap w1 → string_text k key → gap w2 → gap w3 → value_text t j → gap w4 →
    members_text (s ++ [x2c] ++ w1 ++ k ++ w2 ++ [x3a] ++ w3 ++ t ++ w4) (map_insert key j m).

End values.

(** A whole input: the byte order mark, a value, and the end.  A zero byte ends the
    input, whatever comes after it. *)
Definition json_document (trailing : bool) (s : bytes) (j : json) : Prop :=
  ∃ bom w t w' e, (bom = [] ∨ bom = [xef; xbb; xbf]) ∧ blank w ∧ value_text blank trailing t j ∧
    blank w' ∧ (e = [] ∨ head e = Some x00) ∧ s = bom ++ w ++ t ++ w' ++ e.

Scheme value_text_mut := Induction for value_text Sort Prop
  with elements_text_mut := Induction for elements_text Sort Prop
  with members_text_mut := Induction for members_text Sort Prop.
Combined Scheme text_mutind from value_text_mut, elements_text_mut, members_text_mut.
