(* ===== verification/JsonLexerSpec.v ===== *)
(** * What the lexer reads

    Every scanner of [JsonLexer] always returns, its assertions hold, and the tokens it
    finds are exactly those of [JsonGrammar]: a token comes with the text that spells
    it, and a text that spells a token is found. *)

From S2P Require Import Prelude Float Dtoa DtoaText Json Utf8 JsonText JsonRead JsonLexer JsonGrammar.
From Stdlib Require Import Strings.Byte QArith.

Open Scope Z_scope.
Import Lexer.

#[local] Arguments advance : simpl never.
#[local] Arguments retreat : simpl never.
#[local] Arguments to_char_type : simpl never.
#[local] Arguments z2b : simpl never.

(** ** Reading *)

(** The characters still to come, the one that was put back included. *)
Definition pending (l : lexer) : bytes :=
  if next_unget l then if current l =? eof then [] else z2b (current l) :: ia l else ia l.
Definition wf (l : lexer) : Prop :=
  -1 ≤ current l < 256 ∧ (next_unget l = true → current l = eof → ia l = []).
Definition fresh (l : lexer) : Prop := next_unget l = false.
Definition total (l : lexer) : nat := chars_read_total (position l).

(** From [l] to [l'] the text [s] was read, and [v] added to the buffer. *)
Record reads (l : lexer) (s v : bytes) (l' : lexer) : Prop := {
  reads_wf : wf l';
  reads_fresh : fresh l';
  reads_text : pending l = s ++ pending l';
  reads_buffer : token_buffer l' = token_buffer l ++ v;
  reads_point : decimal_point_position l' = decimal_point_position l;
  reads_total : (total l ≤ total l')%nat;
}.

Lemma fresh_pending l : fresh l → pending l = ia l.
Proof. unfold fresh, pending. by intros ->. Qed.

Lemma reads_refl l : wf l → fresh l → reads l [] [] l.
Proof. intros Hw Hf. split; try done. by rewrite app_nil_r. Qed.

Lemma reads_trans l1 s1 v1 l2 s2 v2 l3 :
  reads l1 s1 v1 l2 → reads l2 s2 v2 l3 → reads l1 (s1 ++ s2) (v1 ++ v2) l3.
Proof.
  intros [_ _ T1 B1 P1 N1] [W2 F2 T2 B2 P2 N2]. split; try done; [..|lia].
  - by rewrite T1, T2, app_assoc.
  - by rewrite B2, B1, app_assoc.
  - by rewrite P2.
Qed.

Lemma reads_add c l : wf l → fresh l → reads l [] [z2b c] (add c l).
Proof. intros Hw Hf. split; try done. Qed.

Lemma b2z_not_eof b : b2z b ≠ eof.
Proof. pose proof (b2z_range b). unfold eof. lia. Qed.

Lemma advance_total c p : chars_read_total (advance c p) = S (chars_read_total p).
Proof. unfold advance. by destruct (c =? 10). Qed.

Lemma retreat_total p : chars_read_total (retreat p) = pred (chars_read_total p).
Proof. unfold retreat. by case_decide. Qed.

Lemma get_cases l : wf l →
  fresh (get l) ∧ wf (get l) ∧ token_buffer (get l) = token_buffer l ∧
  decimal_point_position (get l) = decimal_point_position l ∧ total (get l) = S (total l) ∧
  match pending l with
  | b :: s => current (get l) = b2z b ∧ ia (get l) = s
  | [] => current (get l) = eof ∧ ia (get l) = []
  end.
Proof.
  intros [Hc Hu]. unfold get, pending, fresh, wf, total in *.
  destruct (next_unget l) eqn:E; simpl.
  - rewrite advance_total. split_and!; try done; try lia.
    destruct (Z.eqb_spec (current l) eof) as [He|He]; [by rewrite Hu|].
    split; [|done]. rewrite b2z_z2b, Z.mod_small; [done|]. unfold eof in He. lia.
  - destruct (ia l) as [|b s]; simpl; rewrite ?advance_total; split_and!; try done; unfold eof; try lia;
      pose proof (b2z_range b); lia.
Qed.

(** A character, or the end. *)
Lemma get_spec l : wf l →
  match pending l with
  | b :: s => current (get l) = b2z b ∧ ia (get l) = s ∧ reads l [b] [] (get l)
  | [] => current (get l) = eof ∧ ia (get l) = [] ∧ reads l [] [] (get l)
  end.
Proof.
  intros Hw. destruct (get_cases l Hw) as (F & W & B & P & N & C).
  destruct (pending l) as [|b s] eqn:E; destruct C as [Hc Hi];
    (split; [done|]; split; [done|]; split; try done; [|by rewrite app_nil_r|lia]);
    by rewrite E, (fresh_pending _ F), Hi.
Qed.

Lemma get_nonempty l : wf l → token_string (get l) ≠ [] ∨ current (get l) = eof.
Proof.
  intros Hw. unfold get. destruct (if next_unget l then _ else _) as [c s]. simpl.
  destruct (Z.eqb_spec c eof); [by right|left]. by destruct (token_string l).
Qed.

(** The character read last can be put back. *)
Lemma unget_get l : wf l →
  ∃ l', unget (get l) = Val l' ∧ wf l' ∧ pending l' = pending l ∧
    token_buffer l' = token_buffer l ∧ decimal_point_position l' = decimal_point_position l ∧
    total l' = total l ∧ next_unget l' = true ∧ ia l' = ia (get l).
Proof.
  intros Hw. pose proof (get_nonempty l Hw) as Hne.
  destruct (get_cases l Hw) as (F & W & B & P & N & C).
  assert (Hu : ∃ ts, unget (get l) = Val (MkLexer (ia (get l)) (current (get l)) true
    (retreat (position (get l))) ts (token_buffer (get l)) (error_message (get l))
    (number_integer (get l)) (number_unsigned (get l)) (number_float (get l))
    (decimal_point_position (get l)))).
  { unfold unget. destruct (Z.eqb_spec (current (get l)) eof) as [He|He]; [by eexists|].
    rewrite bool_decide_eq_true_2 by (by destruct Hne). by eexists. }
  destruct Hu as [ts ->]. eexists. split; [reflexivity|].
  unfold wf, total in *. cbn [current next_unget ia position token_buffer decimal_point_position].
  rewrite retreat_total, N.
  split_and!; try done; try lia.
  - intros _ He. destruct (pending l) as [|b s]; destruct C as [Hc Hi]; [done|].
    rewrite Hc in He. by apply b2z_not_eof in He.
  - unfold pending at 1. simpl. destruct (pending l) as [|b s]; destruct C as [-> ->]; [done|].
    destruct (Z.eqb_spec (b2z b) eof) as [He|_]; [by apply b2z_not_eof in He|].
    by rewrite z2b_b2z.
Qed.

Lemma pending_length l : (length (pending l) ≤ S (length (ia l)))%nat.
Proof. unfold pending. repeat case_match; simpl; lia. Qed.

Lemma reads_length l s v l' : reads l s v l' → length (pending l) = (length s + length (pending l'))%nat.
Proof. intros R. by rewrite (reads_text _ _ _ _ R), length_app. Qed.

(** Some of the input was read, or none. *)
Record stays (l l' : lexer) : Prop := {
  stays_wf : wf l';
  stays_fresh : fresh l';
  stays_suffix : ∃ s, pending l = s ++ pending l';
  stays_total : (total l ≤ total l')%nat;
}.

Lemma reads_stays l s v l' : reads l s v l' → stays l l'.
Proof. intros R. destruct R. split; try done. by exists s. Qed.

Lemma stays_trans l1 l2 l3 : stays l1 l2 → stays l2 l3 → stays l1 l3.
Proof.
  intros [_ _ [s1 H1] N1] [W F [s2 H2] N2]. split; try done; [|lia].
  exists (s1 ++ s2). by rewrite H1, H2, app_assoc.
Qed.

Lemma stays_length l l' : stays l l' → (length (pending l') ≤ length (pending l))%nat.
Proof. intros [_ _ [s H] _]. rewrite H, length_app. lia. Qed.

Lemma get_stays l : wf l → stays l (get l).
Proof.
  intros Hw. pose proof (get_spec l Hw) as H.
  destruct (pending l) as [|b s] eqn:E; destruct H as (_ & _ & R); by eapply reads_stays.
Qed.

Lemma set_error_stays m l l' : stays l l' → stays l (set_error m l').
Proof. intros []. by split. Qed.

Lemma reads_pending l s v l' rest : reads l s v l' → pending l = s ++ rest → pending l' = rest.
Proof. intros R H. rewrite (reads_text _ _ _ _ R) in H. by apply app_inv_head in H. Qed.

(** Read and keep one character. *)
Lemma get_add_reads l b : wf l → reads l [b] [] (get l) → reads l [b] [b] (add (b2z b) (get l)).
Proof.
  intros Hw R. pose proof (reads_trans _ _ _ _ _ _ _ R (reads_add (b2z b) (get l) (reads_wf _ _ _ _ R) (reads_fresh _ _ _ _ R))) as H.
  by rewrite z2b_b2z in H.
Qed.

Ltac chars := repeat match goal with
  | |- context [ch ?b] => let v := eval vm_compute in (ch b) in change (ch b) with v
  | H : context [ch ?b] |- _ => let v := eval vm_compute in (ch b) in change (ch b) with v in H
  end.

(** ** Code points of escapes *)

Lemma hex_digit_value b : hex_digit (b2z b) = hex_value b.
Proof. by destruct b. Qed.
Lemma hex_digit_eof : hex_digit eof = None.
Proof. done. Qed.
Lemma hex_value_range b d : hex_value b = Some d → 0 ≤ d < 16.
Proof. intros H. destruct b; vm_compute in H; try discriminate H; injection H as <-; lia. Qed.

Lemma read_hex4_inv s cp : read_hex4 s = Some (cp, []) →
  ∃ a b c d x y z t, s = [a; b; c; d] ∧ hex_value a = Some x ∧ hex_value b = Some y ∧
    hex_value c = Some z ∧ hex_value d = Some t ∧ cp = x * 4096 + y * 256 + z * 16 + t.
Proof.
  destruct s as [|a [|b [|c [|d s]]]]; try done. simpl. intros H.
  destruct (hex_value a) as [x|] eqn:Ha; [|done]. destruct (hex_value b) as [y|] eqn:Hb; [|done].
  destruct (hex_value c) as [z|] eqn:Hc; [|done]. destruct (hex_value d) as [t|] eqn:Hd; [|done].
  simpl in H. injection H as <- ->. exists a, b, c, d, x, y, z, t. by rewrite Ha, Hb, Hc, Hd.
Qed.

Lemma read_hex4_range s cp : read_hex4 s = Some (cp, []) → 0 ≤ cp ≤ 0xFFFF.
Proof.
  intros (a & b & c & d & x & y & z & t & _ & Hx%hex_value_range & Hy%hex_value_range &
    Hz%hex_value_range & Ht%hex_value_range & ->)%read_hex4_inv. lia.
Qed.

Lemma hex_step factor factors l b d s : wf l → pending l = b :: s → hex_value b = Some d →
  (∀ acc, get_codepoint_loop (factor :: factors) acc l =
     get_codepoint_loop factors (acc + Z.shiftl d factor) (get l)) ∧
  reads l [b] [] (get l) ∧ pending (get l) = s.
Proof.
  intros Hw Hp Hd. pose proof (get_spec l Hw) as H. rewrite Hp in H. destruct H as (Hc & Hi & R).
  split_and!; [intros acc; cbn [get_codepoint_loop]; by rewrite Hc, hex_digit_value, Hd|done|].
  by apply (reads_pending _ _ _ _ _ R).
Qed.

(** Four hexadecimal digits, or -1. *)
Lemma get_codepoint_loop_total factors acc l : wf l → fresh l →
  (∃ l', get_codepoint_loop factors acc l = (-1, l') ∧ stays l l') ∨
  ∃ s ds l', Forall2 (λ b d, hex_value b = Some d) s ds ∧ length ds = length factors ∧
    get_codepoint_loop factors acc l =
      (foldl Z.add acc (zip_with Z.shiftl ds factors), l') ∧ reads l s [] l'.
Proof.
  revert acc l. induction factors as [|f factors IH]; intros acc l Hw Hf.
  { right. exists [], [], l. split_and!; try done. by apply reads_refl. }
  cbn [get_codepoint_loop]. pose proof (get_spec l Hw) as H.
  destruct (pending l) as [|b s] eqn:E; destruct H as (Hc & Hi & R); rewrite Hc.
  { rewrite hex_digit_eof. left. eexists. split; [done|]. by eapply reads_stays. }
  rewrite hex_digit_value. destruct (hex_value b) as [d|] eqn:Hd.
  2: { left. eexists. split; [done|]. by eapply reads_stays. }
  destruct (IH (acc + Z.shiftl d f) (get l) (reads_wf _ _ _ _ R) (reads_fresh _ _ _ _ R))
    as [(l' & -> & Hs)|(s' & ds & l' & HF & Hlen & -> & R')].
  - left. exists l'. split; [done|]. eapply stays_trans; [by eapply reads_stays|done].
  - right. exists (b :: s'), (d :: ds), l'. split_and!; [by constructor|simpl; lia|done|].
    apply (reads_trans _ _ _ _ _ _ _ R R').
Qed.

Lemma hex4_value x y z t : 0 ≤ x < 16 → 0 ≤ y < 16 → 0 ≤ z < 16 → 0 ≤ t < 16 →
  foldl Z.add 0 (zip_with Z.shiftl [x; y; z; t] [12; 8; 4; 0]) = x * 4096 + y * 256 + z * 16 + t.
Proof. intros. simpl. rewrite !Z.shiftl_mul_pow2 by lia. lia. Qed.

Lemma get_codepoint_total l : wf l → fresh l → current l = ch "u" →
  ∃ cp l', get_codepoint l = Val (cp, l') ∧
    ((cp = -1 ∧ stays l l') ∨ ∃ s, read_hex4 s = Some (cp, []) ∧ reads l s [] l').
Proof.
  intros Hw Hf Hu. unfold get_codepoint. rewrite Hu, Z.eqb_refl. cbn [JSON_ASSERT mbind outcome_bind].
  destruct (get_codepoint_loop_total [12; 8; 4; 0] 0 l Hw Hf)
    as [(l' & -> & Hs)|(s & ds & l' & HF & Hlen & -> & R)].
  { exists (-1), l'. split; [done|]. by left. }
  destruct ds as [|x [|y [|z [|t [|]]]]]; try done.
  apply Forall2_cons_inv_r in HF as (a & s1 & Ha & HF & ->).
  apply Forall2_cons_inv_r in HF as (b & s2 & Hb & HF & ->).
  apply Forall2_cons_inv_r in HF as (c & s3 & Hc & HF & ->).
  apply Forall2_cons_inv_r in HF as (d & s4 & Hd & HF & ->). apply Forall2_nil_inv_r in HF as ->.
  rewrite hex4_value by (by eapply hex_value_range).
  set (cp := x * 4096 + y * 256 + z * 16 + t).
  assert (Hh : read_hex4 [a; b; c; d] = Some (cp, [])) by (simpl; by rewrite Ha, Hb, Hc, Hd).
  pose proof (read_hex4_range _ _ Hh). exists cp, l'.
  destruct (Z.eqb_spec cp (-1)); [lia|].
  rewrite (proj2 (Z.leb_le 0 cp)), (proj2 (Z.leb_le cp 0xFFFF)) by lia.
  split; [done|]. right. by exists [a; b; c; d].
Qed.

Lemma get_codepoint_complete l s cp rest : wf l → fresh l → current l = ch "u" →
  read_hex4 s = Some (cp, []) → pending l = s ++ rest →
  ∃ l', get_codepoint l = Val (cp, l') ∧ reads l s [] l' ∧ pending l' = rest ∧ (cp =? -1) = false.
Proof.
  intros Hw Hf Hu Hh Hp. pose proof (read_hex4_range _ _ Hh) as Hr.
  apply read_hex4_inv in Hh as (a & b & c & d & x & y & z & t & -> & Ha & Hb & Hc & Hd & Hcp).
  unfold get_codepoint. rewrite Hu, Z.eqb_refl. cbn [JSON_ASSERT mbind outcome_bind].
  destruct (hex_step 12 [8; 4; 0] l a x _ Hw Hp Ha) as (E1 & R1 & P1).
  destruct (hex_step 8 [4; 0] _ b y _ (reads_wf _ _ _ _ R1) P1 Hb) as (E2 & R2 & P2).
  destruct (hex_step 4 [0] _ c z _ (reads_wf _ _ _ _ R2) P2 Hc) as (E3 & R3 & P3).
  destruct (hex_step 0 [] _ d t _ (reads_wf _ _ _ _ R3) P3 Hd) as (E4 & R4 & P4).
  rewrite E1, E2, E3, E4.
  cbn [get_codepoint_loop].
  apply hex_value_range in Ha, Hb, Hc, Hd.
  replace (0 + Z.shiftl x 12 + Z.shiftl y 8 + Z.shiftl z 4 + Z.shiftl t 0) with cp
    by (rewrite !Z.shiftl_mul_pow2 by lia; lia).
  destruct (Z.eqb_spec cp (-1)); [lia|].
  rewrite (proj2 (Z.leb_le 0 cp)), (proj2 (Z.leb_le cp 0xFFFF)) by lia.
  eexists. split_and!; [done| |done|done].
  pose proof (reads_trans _ _ _ _ _ _ _ R1 (reads_trans _ _ _ _ _ _ _ R2 (reads_trans _ _ _ _ _ _ _ R3 R4))). done.
Qed.

(** ** UTF-8 in strings *)

Lemma utf8_ranges_start b : 0x80 ≤ b2z b →
  utf8_ranges (b2z b) =
    if (start (b2z b)).1 =? 1 then None else Some (completions (start (b2z b)).1).
Proof. intros H. destruct b; try reflexivity; exfalso; revert H; vm_compute; tauto. Qed.

Lemma next_bytes_total rs l : wf l → fresh l → Forall (λ r, 0 ≤ r.1) rs →
  (∃ l', next_bytes rs l = (false, l') ∧ stays l l') ∨
  ∃ s l', Forall2 inside (b2z <$> s) rs ∧ next_bytes rs l = (true, l') ∧ reads l s s l'.
Proof.
  intros Hw Hf Hrs. revert l Hw Hf. induction Hrs as [|[lo hi] rs Hlo _ IH]; intros l Hw Hf.
  { right. exists [], l. split_and!; [constructor|done|by apply reads_refl]. }
  cbn [next_bytes]. pose proof (get_spec l Hw) as H. simpl in Hlo.
  destruct (pending l) as [|b s] eqn:E; destruct H as (Hc & _ & R); rewrite Hc.
  { left. eexists. destruct (Z.leb_spec lo eof); [unfold eof in *; lia|]. split; [done|].
    by eapply set_error_stays, reads_stays. }
  destruct (Z.leb_spec lo (b2z b)); [destruct (Z.leb_spec (b2z b) hi)|]; cbn [andb].
  2-3: left; eexists; split; [done|]; by eapply set_error_stays, reads_stays.
  pose proof (get_add_reads l b Hw R) as R'.
  destruct (IH _ (reads_wf _ _ _ _ R') (reads_fresh _ _ _ _ R')) as [(l' & -> & Hs)|(s' & l' & HF & -> & R2)].
  - left. exists l'. split; [done|]. eapply stays_trans; [by eapply reads_stays|done].
  - right. exists (b :: s'), l'. split_and!; [by constructor|done|].
    apply (reads_trans _ _ _ _ _ _ _ R' R2).
Qed.

Lemma next_bytes_complete rs s rest : Forall2 inside (b2z <$> s) rs → ∀ l, wf l → fresh l →
  pending l = s ++ rest → ∃ l', next_bytes rs l = (true, l') ∧ reads l s s l'.
Proof.
  revert rs. induction s as [|b s IH]; intros rs HF l Hw Hf Hp.
  { apply Forall2_nil_inv_l in HF as ->. exists l. split; [done|by apply reads_refl]. }
  apply Forall2_cons_inv_l in HF as ([lo hi] & rs' & Hin & HF & ->).
  cbn [next_bytes]. pose proof (get_spec l Hw) as H. rewrite Hp in H. destruct H as (Hc & _ & R).
  rewrite Hc. unfold inside in Hin. simpl in Hin.
  rewrite (proj2 (Z.leb_le lo _)), (proj2 (Z.leb_le _ hi)) by lia. cbn [andb].
  pose proof (get_add_reads l b Hw R) as R'.
  destruct (IH rs' HF _ (reads_wf _ _ _ _ R') (reads_fresh _ _ _ _ R')) as (l' & -> & R2).
  { by apply (reads_pending _ _ _ _ _ R'). }
  exists l'. split; [done|]. apply (reads_trans _ _ _ _ _ _ _ R' R2).
Qed.

Lemma completions_length state : 2 ≤ state ≤ 8 →
  bool_decide (length (completions state) ∈ [1; 2; 3]%nat) = true ∧
  Forall (λ r, 0 ≤ r.1) (completions state).
Proof.
  intros [->|[->|[->|[->|[->|[->| ->]]]]]]%state_cases; (split; [done|repeat constructor; simpl; lia]).
Qed.

Lemma start_state b : 0x80 ≤ b2z b → (start (b2z b)).1 = 1 ∨ awaits (start (b2z b)).1 (start (b2z b)).2 [b2z b].
Proof.
  intros Hb. pose proof (start_step (b2z b) (b2z_range b)) as H.
  destruct (start (b2z b)) as [st c]. simpl. destruct H as [->|[(-> & Hs & Hu)|H]]; auto.
  exfalso. unfold scalar, utf8_ints in *.
  repeat (match type of Hu with context [?a <? ?b] => destruct (Z.ltb_spec a b) end; try done).
  injection Hu as Hc. lia.
Qed.

Lemma scan_utf8_total l b : wf l → fresh l → current l = b2z b → 0x80 ≤ b2z b →
  ∃ p, scan_utf8 l = Val p ∧
    ((∃ l', p = Return parse_error l' ∧ stays l l') ∨
     ∃ s cp l', p = Continue l' ∧ scalar cp ∧ utf8_encode cp = b :: s ∧ 0x80 ≤ cp ∧ reads l s (b :: s) l').
Proof.
  intros Hw Hf Hc Hb. unfold scan_utf8. rewrite Hc, utf8_ranges_start by done.
  destruct (Z.eqb_spec (start (b2z b)).1 1) as [_|Hne].
  { eexists. split; [done|]. left. eexists. split; [done|]. apply set_error_stays.
    by eapply reads_stays, reads_refl. }
  destruct (start_state b Hb) as [H|(Hr & _ & Hall)]; [done|].
  destruct (completions_length _ Hr) as [Hlen Hpos].
  unfold next_byte_in_range. rewrite Hlen. cbn [JSON_ASSERT mbind outcome_bind].
  pose proof (reads_add (b2z b) l Hw Hf) as R. rewrite z2b_b2z in R. rewrite Hc.
  destruct (next_bytes_total _ _ (reads_wf _ _ _ _ R) (reads_fresh _ _ _ _ R) Hpos)
    as [(l' & -> & Hs)|(s & l' & HF & -> & R')].
  - eexists. split; [done|]. left. eexists. split; [done|]. eapply stays_trans; [by eapply reads_stays|done].
  - eexists. split; [done|]. right. destruct (Hall _ HF) as [Hsc Hu].
    eexists s, _, l'. split_and!; [done|exact Hsc|..].
    + apply utf8_encode_of_ints. by rewrite Hu.
    + set (cp := cpval _ _) in *. destruct (Z.lt_ge_cases cp 0x80); [|done]. exfalso.
      unfold utf8_ints in Hu. destruct (Z.ltb_spec cp 0x80); [|lia]. injection Hu as Hcp _. lia.
    + apply (reads_trans _ _ _ _ _ _ _ R R').
Qed.

Lemma encode_high cp b s : scalar cp → 0x80 ≤ cp → utf8_encode cp = b :: s → 0x80 ≤ b2z b.
Proof.
  intros Hs Hcp He. pose proof (utf8_encode_ints cp Hs) as Hi. rewrite He in Hi.
  unfold scalar, utf8_ints in *. destruct (Z.ltb_spec cp 0x80); [lia|].
  repeat (match type of Hi with context [?a <? ?b] => destruct (Z.ltb_spec a b) end);
    injection Hi as Hb _; zarith.
Qed.

Lemma scan_utf8_complete l cp b s rest : wf l → fresh l → current l = b2z b →
  scalar cp → 0x80 ≤ cp → utf8_encode cp = b :: s → pending l = s ++ rest →
  ∃ l', scan_utf8 l = Val (Continue l') ∧ reads l s (b :: s) l'.
Proof.
  intros Hw Hf Hc Hs Hcp He Hp. pose proof (encode_high cp b s Hs Hcp He) as Hb.
  unfold scan_utf8. rewrite Hc, utf8_ranges_start by done.
  destruct (encode_admitted cp Hs) as (b' & xs & Hu & Hcases).
  pose proof (utf8_encode_ints cp Hs) as Hi. rewrite He, Hu in Hi. injection Hi as <- <-.
  destruct Hcases as [[Hnil H0]|[Hr HF]].
  { exfalso. destruct (start_state b Hb) as [H1|(H1 & _)]; lia. }
  destruct (Z.eqb_spec (start (b2z b)).1 1); [lia|].
  destruct (completions_length _ Hr) as [Hlen _].
  unfold next_byte_in_range. rewrite Hlen. cbn [JSON_ASSERT mbind outcome_bind].
  pose proof (reads_add (b2z b) l Hw Hf) as R. rewrite z2b_b2z in R. rewrite Hc.
  destruct (next_bytes_complete _ _ rest HF _ (reads_wf _ _ _ _ R) (reads_fresh _ _ _ _ R)) as (l' & -> & R').
  { by apply (reads_pending _ _ _ _ _ R). }
  eexists. split; [done|]. apply (reads_trans _ _ _ _ _ _ _ R R').
Qed.

Lemma lor_high h n x : 0 ≤ x < 2 ^ n → 0 ≤ n → 0 ≤ h → Z.lor (h * 2 ^ n) x = h * 2 ^ n + x.
Proof.
  intros Hx Hn Hh. rewrite Z.lor_comm, <- Z.shiftl_mul_pow2 by done.
  rewrite lor_shiftl_add, Z.shiftl_mul_pow2 by lia. lia.
Qed.

Lemma land_3f x : Z.land x 0x3F = x `mod` 64.
Proof. change 0x3F with (Z.ones 6). by rewrite Z.land_ones by lia. Qed.

Lemma add_codepoint_reads cp l : wf l → fresh l → scalar cp →
  reads l [] (utf8_encode cp) (add_codepoint cp l).
Proof.
  intros Hw Hf Hs.
  assert (H80 : ∀ x, Z.lor 0x80 (x `mod` 64) = 0x80 + x `mod` 64)
    by (intros x; apply (lor_high 2 6); zarith).
  assert (Hb : token_buffer (add_codepoint cp l) = token_buffer l ++ utf8_encode cp).
  { unfold add_codepoint, utf8_encode, utf8_ints, scalar in *. unfold add, set_buffer.
    destruct (Z.ltb_spec cp 0x80); [done|].
    destruct (Z.leb_spec cp 0x7FF); [|destruct (Z.leb_spec cp 0xFFFF)];
      repeat (match goal with |- context [?a <? ?b] => destruct (Z.ltb_spec a b) end; try lia);
      cbn [token_buffer fmap list_fmap]; rewrite <- !app_assoc; cbn [app];
      rewrite !Z.shiftr_div_pow2, !land_3f, !H80 by lia.
    - by rewrite (lor_high 6 5) by zarith.
    - by rewrite (lor_high 14 4) by zarith.
    - by rewrite (lor_high 30 3) by zarith. }
  split; try done; unfold add_codepoint; repeat case_match; done.
Qed.

(** ** Escapes *)

Lemma pair_value hi lo : 0xD800 ≤ hi ≤ 0xDBFF → 0xDC00 ≤ lo ≤ 0xDFFF →
  u32 (u32 (Z.shiftl hi 10) + lo - 0x35FDC00) = 0x10000 + (hi - 0xD800) * 1024 + (lo - 0xDC00).
Proof.
  intros Hhi Hlo. rewrite Z.shiftl_mul_pow2 by lia.
  rewrite (wrap_small 32 (hi * 2 ^ 10)) by (unfold in_unsigned; lia).
  rewrite wrap_small by (unfold in_unsigned; lia). lia.
Qed.

Lemma pair_scalar hi lo : 0xD800 ≤ hi ≤ 0xDBFF → 0xDC00 ≤ lo ≤ 0xDFFF →
  scalar (0x10000 + (hi - 0xD800) * 1024 + (lo - 0xDC00)).
Proof. unfold scalar. lia. Qed.

(** What follows a code point of four digits. *)
Definition surrogate_tail (cp1 : Z) (s : bytes) (cp : Z) : Prop :=
  (s = [] ∧ cp = cp1 ∧ scalar cp1) ∨
  ∃ s' lo, s = [x5c; x75] ++ s' ∧ read_hex4 s' = Some (lo, []) ∧
    0xD800 ≤ cp1 ≤ 0xDBFF ∧ 0xDC00 ≤ lo ≤ 0xDFFF ∧ cp = 0x10000 + (cp1 - 0xD800) * 1024 + (lo - 0xDC00).

Lemma surrogate_tail_scalar cp1 s cp : surrogate_tail cp1 s cp → scalar cp.
Proof. intros [(_ & -> & H)|(s' & lo & _ & _ & H1 & H2 & ->)]; [done|by apply pair_scalar]. Qed.

Lemma string_char_unicode s1 cp1 s2 cp : read_hex4 s1 = Some (cp1, []) → surrogate_tail cp1 s2 cp →
  string_char ([x5c; x75] ++ s1 ++ s2) (utf8_encode cp).
Proof.
  intros H1 [(-> & -> & Hs)|(s' & lo & -> & Hlo & Hr1 & Hr2 & ->)].
  - rewrite app_nil_r. by apply char_unicode.
  - by apply char_pair.
Qed.

(** The next character, compared with a constant. *)
Lemma get_eqb l b : wf l →
  (current (get l) =? b2z b) = match pending l with c :: _ => bool_decide (c = b) | [] => false end.
Proof.
  intros Hw. pose proof (get_spec l Hw) as H. destruct (pending l) as [|c s]; destruct H as (-> & _).
  - apply Z.eqb_neq. intros He. by apply (b2z_not_eof b).
  - case_bool_decide as Hd; [subst; by rewrite Z.eqb_refl|].
    apply Z.eqb_neq. intros He. by apply b2z_inj in He.
Qed.

(** One more character that is [b], or not. *)
Lemma get_is l b : wf l →
  (∃ s, pending l = b :: s ∧ current (get l) = b2z b ∧ reads l [b] [] (get l)) ∨
  ((current (get l) =? b2z b) = false ∧ head (pending l) ≠ Some b).
Proof.
  intros Hw. rewrite get_eqb by done. pose proof (get_spec l Hw) as H.
  destruct (pending l) as [|c s]; [by right|]. case_bool_decide as Hd; [left|right; by split; [|intros [= ?]]].
  subst c. destruct H as (H & _ & R). by exists s.
Qed.

Lemma scan_surrogate_total cp1 l : wf l → fresh l → 0 ≤ cp1 ≤ 0xFFFF →
  ∃ r, scan_surrogate cp1 l = Val r ∧
    ((∃ m l', r = inr (m, l') ∧ stays l l') ∨
     ∃ s cp l', r = inl (cp, l') ∧ surrogate_tail cp1 s cp ∧ reads l s [] l').
Proof.
  intros Hw Hf Hr. unfold scan_surrogate.
  destruct (Z.leb_spec 0xD800 cp1), (Z.leb_spec cp1 0xDBFF); cbn [andb].
  2-4: destruct (Z.leb_spec 0xDC00 cp1), (Z.leb_spec cp1 0xDFFF); try lia; cbn [andb];
    (eexists; split; [done|]); try (right; exists [], cp1, l;
       split_and!; [done|left; unfold scalar; split_and!; [done..|lia]|by apply reads_refl]).
  2: left; eexists _, _; split; [done|]; by eapply reads_stays, reads_refl.
  change 0x5C with (b2z x5c).
  destruct (get_is l x5c Hw) as [(s & _ & -> & R1)|[Hn _]]; [rewrite Z.eqb_refl|rewrite Hn].
  2: eexists; split; [done|]; left; eexists _, _; split; [done|by apply get_stays].
  pose proof (reads_wf _ _ _ _ R1) as Hw1. pose proof (reads_stays _ _ _ _ R1) as S1.
  unfold ch. destruct (get_is (get l) "u"%byte Hw1) as [(s1 & _ & Hu & R2)|[Hn _]]; [rewrite Hu, Z.eqb_refl|rewrite Hn].
  2: eexists; split; [done|]; left; eexists _, _; split; [done|].
  2: eapply stays_trans; [exact S1|by apply get_stays].
  pose proof (reads_trans _ _ _ _ _ _ _ R1 R2) as R.
  pose proof (reads_stays _ _ _ _ R) as SR.
  destruct (get_codepoint_total _ (reads_wf _ _ _ _ R2) (reads_fresh _ _ _ _ R2) Hu)
    as (cp2 & l' & -> & [(-> & S2)|(s2 & H2 & R3)]); cbn [mbind outcome_bind].
  { eexists; split; [done|]; left; eexists _, _; split; [done|]. by eapply stays_trans. }
  pose proof (read_hex4_range _ _ H2). destruct (Z.eqb_spec cp2 (-1)); [lia|].
  pose proof (reads_trans _ _ _ _ _ _ _ R R3) as R'. pose proof (reads_stays _ _ _ _ R').
  destruct (Z.leb_spec 0xDC00 cp2), (Z.leb_spec cp2 0xDFFF); cbn [andb].
  2-4: eexists; split; [done|]; left; eexists _, _; by split.
  eexists; split; [done|]. right. eexists _, _, l'. split_and!; [done| |exact R'].
  right. exists s2, cp2. split_and!; try done; try lia. apply pair_value; lia.
Qed.

Lemma get_here l b s : wf l → pending l = b :: s →
  current (get l) = b2z b ∧ reads l [b] [] (get l) ∧ pending (get l) = s.
Proof.
  intros Hw Hp. pose proof (get_spec l Hw) as H. rewrite Hp in H. destruct H as (H1 & _ & R).
  split_and!; [done..|]. by apply (reads_pending _ _ _ _ _ R).
Qed.

Lemma scan_surrogate_complete cp1 l s cp rest : wf l → fresh l → 0 ≤ cp1 ≤ 0xFFFF →
  surrogate_tail cp1 s cp → pending l = s ++ rest →
  ∃ l', scan_surrogate cp1 l = Val (inl (cp, l')) ∧ reads l s [] l'.
Proof.
  intros Hw Hf Hr Ht Hp. unfold scan_surrogate.
  destruct Ht as [(-> & -> & Hs)|(s' & lo & -> & Hlo & H1 & H2 & ->)].
  - unfold scalar in Hs. exists l. split; [|by apply reads_refl].
    destruct (Z.leb_spec 0xD800 cp1), (Z.leb_spec cp1 0xDBFF); cbn [andb]; try lia;
    destruct (Z.leb_spec 0xDC00 cp1), (Z.leb_spec cp1 0xDFFF); cbn [andb]; try lia; done.
  - rewrite (proj2 (Z.leb_le _ cp1)), (proj2 (Z.leb_le cp1 _)) by lia. cbn [andb].
    destruct (get_here l x5c _ Hw Hp) as (-> & R1 & P1). change (b2z x5c =? 0x5C) with true. cbv beta iota.
    destruct (get_here (get l) x75 _ (reads_wf _ _ _ _ R1) P1) as (Hu & R2 & P2).
    rewrite Hu. change (b2z x75 =? ch "u") with true. cbv beta iota.
    pose proof (reads_trans _ _ _ _ _ _ _ R1 R2) as R.
    destruct (get_codepoint_complete _ s' lo rest (reads_wf _ _ _ _ R2) (reads_fresh _ _ _ _ R2) Hu Hlo P2)
      as (l' & -> & R3 & P3 & Hne). cbn [mbind outcome_bind]. rewrite Hne.
    rewrite (proj2 (Z.leb_le _ lo)), (proj2 (Z.leb_le lo _)) by lia. cbn [andb].
    exists l'. rewrite pair_value by done. split; [done|]. apply (reads_trans _ _ _ _ _ _ _ R R3).
Qed.

Lemma codepoint_assert cp : scalar cp → (0 <=? cp) && (cp <=? 0x10FFFF) = true.
Proof. unfold scalar. intros H. apply andb_true_iff. rewrite !Z.leb_le. lia. Qed.

Lemma scan_unicode_total l : wf l → fresh l → current l = ch "u" →
  ∃ p, scan_unicode l = Val p ∧
    ((∃ l', p = Return parse_error l' ∧ stays l l') ∨
     ∃ s v l', p = Continue l' ∧ string_char ([x5c; x75] ++ s) v ∧ reads l s v l').
Proof.
  intros Hw Hf Hu. unfold scan_unicode.
  destruct (get_codepoint_total l Hw Hf Hu) as (cp1 & l1 & -> & [(-> & S1)|(s1 & H1 & R1)]);
    cbn [mbind outcome_bind].
  { eexists. split; [done|]. left. eexists. split; [done|by apply set_error_stays]. }
  pose proof (read_hex4_range _ _ H1) as Hr. destruct (Z.eqb_spec cp1 (-1)); [lia|].
  destruct (scan_surrogate_total cp1 l1 (reads_wf _ _ _ _ R1) (reads_fresh _ _ _ _ R1) Hr)
    as (r & -> & [(m & l2 & -> & S2)|(s2 & cp & l2 & -> & Ht & R2)]); cbn [mbind outcome_bind].
  { eexists. split; [done|]. left. eexists. split; [done|]. apply set_error_stays.
    eapply stays_trans; [by eapply reads_stays|done]. }
  pose proof (surrogate_tail_scalar _ _ _ Ht) as Hs.
  rewrite codepoint_assert by done. cbn [JSON_ASSERT mbind outcome_bind].
  eexists. split; [done|]. right.
  exists (s1 ++ s2), (utf8_encode cp), (add_codepoint cp l2).
  split_and!; [done|by apply (string_char_unicode _ cp1)|].
  pose proof (reads_trans _ _ _ _ _ _ _ R1 R2) as R.
  pose proof (reads_trans _ _ _ _ _ _ _ R (add_codepoint_reads cp l2 (reads_wf _ _ _ _ R2) (reads_fresh _ _ _ _ R2) Hs)) as R3.
  by rewrite app_nil_r in R3.
Qed.

Lemma scan_unicode_complete l s1 cp1 s2 cp rest : wf l → fresh l → current l = ch "u" →
  read_hex4 s1 = Some (cp1, []) → surrogate_tail cp1 s2 cp → pending l = (s1 ++ s2) ++ rest →
  ∃ l', scan_unicode l = Val (Continue l') ∧ reads l (s1 ++ s2) (utf8_encode cp) l'.
Proof.
  intros Hw Hf Hu H1 Ht Hp. unfold scan_unicode. rewrite <- app_assoc in Hp.
  destruct (get_codepoint_complete l s1 cp1 _ Hw Hf Hu H1 Hp) as (l1 & -> & R1 & P1 & Hne).
  cbn [mbind outcome_bind]. rewrite Hne.
  destruct (scan_surrogate_complete cp1 l1 s2 cp rest (reads_wf _ _ _ _ R1) (reads_fresh _ _ _ _ R1)
    (read_hex4_range _ _ H1) Ht P1) as (l2 & -> & R2). cbn [mbind outcome_bind].
  pose proof (surrogate_tail_scalar _ _ _ Ht) as Hs.
  rewrite codepoint_assert by done. cbn [JSON_ASSERT mbind outcome_bind].
  eexists. split; [done|].
  pose proof (reads_trans _ _ _ _ _ _ _ R1 R2) as R.
  pose proof (reads_trans _ _ _ _ _ _ _ R (add_codepoint_reads cp l2 (reads_wf _ _ _ _ R2) (reads_fresh _ _ _ _ R2) Hs)) as R3.
  by rewrite app_nil_r in R3.
Qed.

Definition forbidden_escape : string := "invalid string: forbidden character after backslash".

Lemma escape_switch l c : current (get l) = b2z c →
  scan_escape l =
    match short_escape c with
    | Some cp => Val (Continue (add cp (get l)))
    | None => if decide (c = x75) then scan_unicode (get l) else Val (fail forbidden_escape (get l))
    end.
Proof. intros H. unfold scan_escape. rewrite H. destruct c; reflexivity. Qed.

Lemma escape_eof l : current (get l) = eof → scan_escape l = Val (fail forbidden_escape (get l)).
Proof. intros H. unfold scan_escape. by rewrite H. Qed.

Lemma scan_escape_total l : wf l → fresh l →
  ∃ p, scan_escape l = Val p ∧
    ((∃ l', p = Return parse_error l' ∧ stays l l') ∨
     ∃ s v l', p = Continue l' ∧ string_char (x5c :: s) v ∧ reads l s v l').
Proof.
  intros Hw Hf. pose proof (get_spec l Hw) as H.
  destruct (pending l) as [|c s] eqn:E; destruct H as (Hc & _ & R).
  { rewrite (escape_eof l Hc). eexists. split; [done|]. left. eexists. split; [done|].
    by eapply set_error_stays, reads_stays. }
  rewrite (escape_switch l c Hc). destruct (short_escape c) as [cp|] eqn:Hs.
  - eexists. split; [done|]. right. exists [c], [z2b cp], (add cp (get l)).
    split_and!; [done|by apply char_short|].
    apply (reads_trans _ _ _ _ _ _ _ R (reads_add cp _ (reads_wf _ _ _ _ R) (reads_fresh _ _ _ _ R))).
  - destruct (decide (c = x75)) as [->|Hne].
    + destruct (scan_unicode_total _ (reads_wf _ _ _ _ R) (reads_fresh _ _ _ _ R) Hc)
        as (p & -> & [(l' & -> & S)|(s' & v & l' & -> & Hch & R')]); (eexists; split; [done|]).
      * left. eexists. split; [done|]. eapply stays_trans; [by eapply reads_stays|done].
      * right. exists ([x75] ++ s'), v, l'. split_and!; [done..|]. apply (reads_trans _ _ _ _ _ _ _ R R').
    + eexists. split; [done|]. left. eexists. split; [done|]. by eapply set_error_stays, reads_stays.
Qed.

(** ** One character of a string *)

Lemma plain_ascii b : 0x20 ≤ b2z b ≤ 0x7F → b2z b ≠ 0x22 → b2z b ≠ 0x5C → string_char [b] [b].
Proof.
  intros Hb H1 H2.
  assert (He : utf8_encode (b2z b) = [b]) by (rewrite utf8_encode_ascii, z2b_b2z by lia; done).
  rewrite <- He. apply char_plain; [left; lia|lia|done|done].
Qed.

Lemma scan_string_char_total l : wf l → fresh l →
  ∃ p, scan_string_char l = Val p ∧
    ((∃ l', p = Return parse_error l' ∧ stays l l') ∨
     (∃ l', p = Return value_string l' ∧ reads l [x22] [] l') ∨
     ∃ t v l', p = Continue l' ∧ string_char t v ∧ t ≠ [] ∧ reads l t v l').
Proof.
  intros Hw Hf. unfold scan_string_char. pose proof (get_spec l Hw) as H.
  destruct (pending l) as [|b s] eqn:E; destruct H as (Hc & _ & R); rewrite Hc.
  { eexists. split; [done|]. left. eexists. split; [done|]. by eapply set_error_stays, reads_stays. }
  pose proof (b2z_range b) as Hb.
  destruct (Z.eqb_spec (b2z b) eof) as [He|_]; [by apply b2z_not_eof in He|].
  destruct (Z.eqb_spec (b2z b) 0x22) as [H22|H22].
  { eexists. split; [done|]. right; left. eexists. split; [done|].
    by rewrite <- (b2z_inj b x22) by done. }
  destruct (Z.eqb_spec (b2z b) 0x5C) as [H5c|H5c].
  { destruct (scan_escape_total _ (reads_wf _ _ _ _ R) (reads_fresh _ _ _ _ R))
      as (p & -> & [(l' & -> & S)|(s' & v & l' & -> & Hch & R')]); (eexists; split; [done|]).
    - left. eexists. split; [done|]. eapply stays_trans; [by eapply reads_stays|done].
    - right; right. exists ([b] ++ s'), v, l'. apply (b2z_inj b x5c) in H5c as Hbe. subst b.
      split_and!; [done..|]. apply (reads_trans _ _ _ _ _ _ _ R R'). }
  destruct (Z.ltb_spec (b2z b) 0x20).
  { eexists. split; [done|]. left. eexists. split; [done|]. by eapply set_error_stays, reads_stays. }
  destruct (Z.leb_spec (b2z b) 0x7F).
  { eexists. split; [done|]. right; right. exists [b], [b], (add (b2z b) (get l)).
    split_and!; [done|apply plain_ascii; lia|done|by apply get_add_reads]. }
  destruct (scan_utf8_total (get l) b (reads_wf _ _ _ _ R) (reads_fresh _ _ _ _ R) Hc)
    as (p & -> & [(l' & -> & S)|(s' & cp & l' & -> & Hs & He & Hcp & R')]); [lia|..];
    (eexists; split; [done|]).
  - left. eexists. split; [done|]. eapply stays_trans; [by eapply reads_stays|done].
  - right; right. exists (b :: s'), (b :: s'), l'.
    split_and!; [done|rewrite <- He; apply char_plain; [done|lia..]|done|].
    apply (reads_trans _ _ _ _ _ _ _ R R').
Qed.

Lemma scan_escape_complete l c s v rest l1 :
  wf l → pending l = x5c :: c :: s ++ rest → current (get (get l)) = b2z c →
  scan_escape (get l) = Val (Continue l1) → reads (get (get l)) s v l1 →
  scan_string_char l = Val (Continue l1) ∧ reads l (x5c :: c :: s) v l1.
Proof.
  intros Hw Hp Hc He R3. destruct (get_here l _ _ Hw Hp) as (H1 & R1 & P1).
  destruct (get_here (get l) _ _ (reads_wf _ _ _ _ R1) P1) as (H2 & R2 & P2).
  split.
  - unfold scan_string_char. rewrite H1. exact He.
  - apply (reads_trans _ _ _ _ _ _ _ R1 (reads_trans _ _ _ _ _ _ _ R2 R3)).
Qed.

Lemma scan_string_char_complete l t v rest : wf l → string_char t v → pending l = t ++ rest →
  ∃ l', scan_string_char l = Val (Continue l') ∧ reads l t v l'.
Proof.
  intros Hw Hch Hp.
  assert (Hesc : ∀ s, pending l = x5c :: x75 :: s →
    current (get (get l)) = b2z x75 ∧ wf (get (get l)) ∧ fresh (get (get l)) ∧ pending (get (get l)) = s).
  { intros s Hs. destruct (get_here l _ _ Hw Hs) as (H1 & R1 & P1).
    destruct (get_here (get l) _ _ (reads_wf _ _ _ _ R1) P1) as (H2 & R2 & P2). destruct R2. done. }
  assert (Huni : ∀ s1 cp1 s2 cp, read_hex4 s1 = Some (cp1, []) → surrogate_tail cp1 s2 cp →
    pending l = x5c :: x75 :: (s1 ++ s2) ++ rest →
    ∃ l', scan_string_char l = Val (Continue l') ∧ reads l (x5c :: x75 :: s1 ++ s2) (utf8_encode cp) l').
  { intros s1 cp1 s2 cp H1 Ht Hs. destruct (Hesc _ Hs) as (Hc & W & F & P).
    destruct (scan_unicode_complete _ s1 cp1 s2 cp rest W F Hc H1 Ht P) as (l' & He & R).
    exists l'. apply (scan_escape_complete l x75 _ _ rest); try done. by rewrite (escape_switch _ x75). }
  destruct Hch as [cp Hs H20 H22 H5c|c cp Hs|s cp Hh Hs|s s' hi lo Hh Hl Hhi Hlo].
  - destruct (utf8_encode cp) as [|b s] eqn:He.
    { pose proof (length_utf8_encode cp) as Hl. rewrite He in Hl. simpl in Hl. lia. }
    destruct (get_here l b _ Hw Hp) as (Hc & R & P).
    unfold scan_string_char. rewrite Hc.
    destruct (Z.eqb_spec (b2z b) eof) as [Heof|_]; [by apply b2z_not_eof in Heof|].
    destruct (Z.lt_ge_cases cp 0x80) as [Hlt|Hge].
    + rewrite utf8_encode_ascii in He by lia. injection He as <- <-.
      assert (Hb : b2z (z2b cp) = cp) by (rewrite b2z_z2b, Z.mod_small by lia; done).
      rewrite Hb in *. destruct (Z.eqb_spec cp 0x22), (Z.eqb_spec cp 0x5C); [done..|].
      destruct (Z.ltb_spec cp 0x20); [lia|]. rewrite (proj2 (Z.leb_le cp 0x7F)) by lia.
      eexists. split; [done|]. apply (get_add_reads l (z2b cp) Hw) in R. by rewrite Hb in R.
    + pose proof (encode_high cp b s Hs Hge He) as Hb.
      destruct (Z.eqb_spec (b2z b) 0x22), (Z.eqb_spec (b2z b) 0x5C); try lia.
      destruct (Z.ltb_spec (b2z b) 0x20); [lia|]. destruct (Z.leb_spec (b2z b) 0x7F); [lia|].
      destruct (scan_utf8_complete (get l) cp b s rest (reads_wf _ _ _ _ R) (reads_fresh _ _ _ _ R) Hc Hs Hge He P)
        as (l' & -> & R'). exists l'. split; [done|]. apply (reads_trans _ _ _ _ _ _ _ R R').
  - destruct (get_here l _ _ Hw Hp) as (H1 & R1 & P1).
    destruct (get_here (get l) _ _ (reads_wf _ _ _ _ R1) P1) as (H2 & R2 & P2).
    exists (add cp (get (get l))). apply (scan_escape_complete l c [] [z2b cp] rest); try done.
    + by rewrite (escape_switch _ c), Hs.
    + by apply reads_add; destruct R2.
  - destruct (Huni s cp [] cp) as (l' & He & R); [done|by left|by rewrite app_nil_r|].
    exists l'. by rewrite app_nil_r in R.
  - destruct (Huni s hi ([x5c; x75] ++ s') (0x10000 + (hi - 0xD800) * 1024 + (lo - 0xDC00)) Hh) as (l' & He & R); [right; by exists s', lo| |by exists l'].
    by rewrite Hp, <- !app_assoc.
Qed.

(** ** Strings *)

Lemma scan_string_loop_total fuel : ∀ l, wf l → fresh l → (length (pending l) < fuel)%nat →
  ∃ t l', scan_string_loop fuel l = Val (t, l') ∧
    ((t = parse_error ∧ stays l l') ∨
     (t = value_string ∧ ∃ body v, string_body body v ∧ reads l (body ++ [x22]) v l')).
Proof.
  induction fuel as [|fuel IH]; intros l Hw Hf Hfuel; [lia|].
  cbn [scan_string_loop].
  destruct (scan_string_char_total l Hw Hf)
    as (p & -> & [(l' & -> & S)|[(l' & -> & R)|(c & v & l1 & -> & Hch & Hne & R)]]);
    cbn [mbind outcome_bind].
  - exists parse_error, l'. split; [done|]. by left.
  - exists value_string, l'. split; [done|]. right. split; [done|].
    exists [], []. split; [constructor|done].
  - pose proof (reads_length _ _ _ _ R) as Hlen.
    assert (length c ≠ 0%nat) by (by destruct c).
    destruct (IH l1 (reads_wf _ _ _ _ R) (reads_fresh _ _ _ _ R)) as (t & l' & -> & [(-> & S)|(-> & body & w & Hb & R')]);
      [lia|..].
    + exists parse_error, l'. split; [done|]. left. split; [done|].
      eapply stays_trans; [by eapply reads_stays|done].
    + exists value_string, l'. split; [done|]. right. split; [done|].
      exists (c ++ body), (v ++ w). split; [by constructor|]. rewrite <- app_assoc.
      apply (reads_trans _ _ _ _ _ _ _ R R').
Qed.

Lemma scan_string_loop_complete body v rest : string_body body v → ∀ fuel l, wf l → fresh l →
  (length (pending l) < fuel)%nat → pending l = body ++ x22 :: rest →
  ∃ l', scan_string_loop fuel l = Val (value_string, l') ∧ reads l (body ++ [x22]) v l'.
Proof.
  induction 1 as [|c v t w Hch Hb IH]; intros [|fuel] l Hw Hf Hfuel Hp; try lia; cbn [scan_string_loop].
  - destruct (get_here l x22 rest Hw Hp) as (Hc & R & _). unfold scan_string_char. rewrite Hc.
    by exists (get l).
  - rewrite <- app_assoc in Hp.
    destruct (scan_string_char_complete l c v (t ++ x22 :: rest) Hw Hch Hp) as (l1 & -> & R).
    cbn [mbind outcome_bind].
    pose proof (reads_length _ _ _ _ R) as Hlen.
    assert (length c ≠ 0%nat).
    { destruct Hch as [cp| | |]; [pose proof (length_utf8_encode cp); lia|simpl; lia..]. }
    destruct (IH fuel l1 (reads_wf _ _ _ _ R) (reads_fresh _ _ _ _ R)) as (l' & -> & R'); [lia| |].
    { by apply (reads_pending _ _ _ _ _ R). }
    exists l'. split; [done|]. rewrite <- app_assoc. apply (reads_trans _ _ _ _ _ _ _ R R').
Qed.

Lemma reset_fields l : wf l → fresh l →
  wf (reset l) ∧ fresh (reset l) ∧ pending (reset l) = pending l ∧ token_buffer (reset l) = [] ∧
  decimal_point_position (reset l) = None ∧ total (reset l) = total l ∧ current (reset l) = current l.
Proof. intros Hw Hf. split_and!; try done; destruct Hw; lia. Qed.

Lemma stays_reset l l' : stays (reset l) l' → stays l l'.
Proof. intros []. by split. Qed.

Lemma scan_string_total l : wf l → fresh l → current l = 0x22 →
  ∃ t l', scan_string l = Val (t, l') ∧ stays l l' ∧
    (t = parse_error ∨
     (t = value_string ∧ ∃ body v, string_body body v ∧ pending l = (body ++ [x22]) ++ pending l' ∧
        token_buffer l' = v ∧ decimal_point_position l' = None)).
Proof.
  intros Hw Hf Hq. destruct (reset_fields l Hw Hf) as (W & F & P & B & D & N & C).
  unfold scan_string. rewrite C, Hq. cbn [JSON_ASSERT mbind outcome_bind Z.eqb Pos.eqb].
  destruct (scan_string_loop_total (S (length (ia (reset l)))) (reset l) W F) as (t & l' & -> & H).
  { rewrite fresh_pending by done. lia. }
  exists t, l'. split; [done|]. destruct H as [(-> & S)|(-> & body & v & Hb & R)].
  - split; [by apply stays_reset|by left].
  - split; [by eapply stays_reset, reads_stays|]. right. split; [done|]. exists body, v.
    rewrite <- P, (reads_text _ _ _ _ R), (reads_buffer _ _ _ _ R), (reads_point _ _ _ _ R), B, D. done.
Qed.

Lemma scan_string_complete l body v rest : wf l → fresh l → current l = 0x22 →
  string_body body v → pending l = body ++ x22 :: rest →
  ∃ l', scan_string l = Val (value_string, l') ∧ stays l l' ∧ pending l' = rest ∧
    token_buffer l' = v ∧ decimal_point_position l' = None.
Proof.
  intros Hw Hf Hq Hb Hp. destruct (reset_fields l Hw Hf) as (W & F & P & B & D & N & C).
  unfold scan_string. rewrite C, Hq. cbn [JSON_ASSERT mbind outcome_bind Z.eqb Pos.eqb].
  destruct (scan_string_loop_complete body v rest Hb (S (length (ia (reset l)))) (reset l) W F) as (l' & -> & R).
  { rewrite fresh_pending by done. lia. } { by rewrite P. }
  exists l'. split; [done|]. split; [by eapply stays_reset, reads_stays|].
  rewrite (reads_buffer _ _ _ _ R), (reads_point _ _ _ _ R), B, D.
  split_and!; [|done..]. apply (reads_pending _ _ _ _ _ R). by rewrite P, Hp, <- app_assoc.
Qed.
