(* ===== verification/JsonTokenSpec.v ===== *)
(** * The tokens the lexer finds

    Numbers: the state machine of [scan_number] recognises the numerals of the grammar,
    the longest at hand, and the conversions give their values in every locale.  Then
    literals, white space and [scan] as a whole. *)

From S2P Require Import Prelude Float Dtoa DtoaText Json Utf8 JsonText JsonRead JsonLexer.
From S2P Require Import JsonGrammar JsonLexerSpec.
From Stdlib Require Import Strings.Byte QArith.

Open Scope Z_scope.
Import Lexer.

(** ** The state machine on text *)

Inductive move := MoveTo (st : number_state) | MoveDone | MoveError.

Definition next_state (st : number_state) (b : byte) : move :=
  let c := b2z b in
  let e := (c =? ch "e") || (c =? ch "E") in
  match st with
  | minus => if c =? ch "0" then MoveTo zero else if digit c then MoveTo any1 else MoveError
  | zero => if c =? ch "." then MoveTo decimal1 else if e then MoveTo exponent else MoveDone
  | any1 => if digit c then MoveTo any1 else if c =? ch "." then MoveTo decimal1
            else if e then MoveTo exponent else MoveDone
  | decimal1 => if digit c then MoveTo decimal2 else MoveError
  | decimal2 => if digit c then MoveTo decimal2 else if e then MoveTo exponent else MoveDone
  | exponent => if (c =? ch "+") || (c =? ch "-") then MoveTo sign
                else if digit c then MoveTo any2 else MoveError
  | sign => if digit c then MoveTo any2 else MoveError
  | any2 => if digit c then MoveTo any2 else MoveDone
  end.

Definition accepting (st : number_state) : bool :=
  match st with zero | any1 | decimal2 | any2 => true | _ => false end.

(** What is read from a label on, what is left, and the type of the number. *)
Fixpoint run (st : number_state) (ty : token_type) (s : bytes) : option (bytes * bytes * token_type) :=
  let ty := number_type_at st ty in
  match s with
  | b :: s' =>
      match next_state st b with
      | MoveTo st => '(t, rest, ty) ← run st ty s'; Some (b :: t, rest, ty)
      | MoveDone => Some ([], s, ty)
      | MoveError => None
      end
  | [] => if accepting st then Some ([], [], ty) else None
  end.

Lemma run_cons st ty b s : run st ty (b :: s) =
  match next_state st b with
  | MoveTo st' => '(t, rest, ty) ← run st' (number_type_at st ty) s; Some (b :: t, rest, ty)
  | MoveDone => Some ([], b :: s, number_type_at st ty)
  | MoveError => None
  end.
Proof. done. Qed.

(** *** What it accepts is a numeral *)

Lemma digit_byte b : digit (b2z b) = true → ∃ d, is_digit d ∧ b = digit_char d.
Proof.
  unfold digit. chars. rewrite andb_true_iff, !Z.leb_le. intros H. exists (b2z b - 48).
  split; [unfold is_digit; lia|]. unfold digit_char. rewrite <- (z2b_b2z b) at 1. f_equal. lia.
Qed.

Lemma digit_cases d : is_digit d →
  d = 0 ∨ d = 1 ∨ d = 2 ∨ d = 3 ∨ d = 4 ∨ d = 5 ∨ d = 6 ∨ d = 7 ∨ d = 8 ∨ d = 9.
Proof. unfold is_digit. lia. Qed.

Lemma letter_e c : (b2z c =? ch "e") || (b2z c =? ch "E") = true → c = "e"%byte ∨ c = "E"%byte.
Proof.
  rewrite orb_true_iff, !Z.eqb_eq. intros [H|H]; [left|right]; by apply b2z_inj.
Qed.

(** Splits a run into its first move. *)
Ltac run_step H := match type of H with
  | run ?st ?ty (?b :: ?s) = _ =>
      rewrite run_cons in H; unfold next_state in H;
      repeat match type of H with
        | context [if ?c then _ else _] => let E := fresh "E" in destruct c eqn:E; try discriminate H
        end;
      try (let t := fresh "t" in let Hr := fresh "Hr" in
           apply bind_Some in H as ([[t ?] ?] & Hr & H); injection H as <- <- <-)
  end.

Lemma run_any2 s : ∀ ty t rest ty', run any2 ty s = Some (t, rest, ty') →
  ∃ ds, Forall is_digit ds ∧ t = digits_text ds ∧ ty' = ty.
Proof.
  induction s as [|b s IH]; intros ty t rest ty' H.
  { injection H as <- <- <-. by exists []. }
  run_step H.
  - apply IH in Hr as (ds & Hds & -> & ->). apply digit_byte in E as (d & Hd & ->).
    exists (d :: ds). split_and!; [by constructor|done..].
  - injection H as <- <- <-. by exists [].
Qed.

Lemma run_sign s ty t rest ty' : run sign ty s = Some (t, rest, ty') →
  ∃ ds, some_digits ds ∧ t = digits_text ds ∧ ty' = ty.
Proof.
  destruct s as [|b s]; intros H; [done|]. run_step H.
  apply run_any2 in Hr as (ds & Hds & -> & ->). apply digit_byte in E as (d & Hd & ->).
  exists (d :: ds). split_and!; [split; [by constructor|done]|done..].
Qed.

Definition sign_ok (sgn : option byte) : Prop :=
  match sgn with Some b => b = "+"%byte ∨ b = "-"%byte | None => True end.

Lemma run_exponent s ty t rest ty' : run exponent ty s = Some (t, rest, ty') →
  ∃ sgn ds, sign_ok sgn ∧ some_digits ds ∧ t = option_list sgn ++ digits_text ds ∧ ty' = value_float.
Proof.
  destruct s as [|b s]; intros H; [done|]. run_step H.
  - apply run_sign in Hr as (ds & Hds & -> & ->). exists (Some b), ds. split_and!; try done.
    apply orb_true_iff in E. rewrite !Z.eqb_eq in E.
    destruct E as [E|E]; [left|right]; by apply b2z_inj.
  - apply run_any2 in Hr as (ds & Hds & -> & ->). apply digit_byte in E0 as (d & Hd & ->).
    exists None, (d :: ds). split_and!; try done. split; [by constructor|done].
Qed.

Definition exponent_ok (x : option (byte * option byte * list Z)) : Prop :=
  match x with
  | Some (e, sgn, ds) => (e = "e"%byte ∨ e = "E"%byte) ∧ sign_ok sgn ∧ some_digits ds
  | None => True
  end.
Definition fraction_text (f : option (list Z)) : bytes :=
  match f with Some ds => ["."%byte] ++ digits_text ds | None => [] end.
Definition fraction_ok (f : option (list Z)) : Prop :=
  match f with Some ds => some_digits ds | None => True end.
Definition tail_type (f : option (list Z)) (x : option (byte * option byte * list Z)) (ty : token_type) :=
  match f, x with None, None => ty | _, _ => value_float end.

Lemma run_letter e s ty t rest ty' : (b2z e =? ch "e") || (b2z e =? ch "E") = true →
  run exponent ty s = Some (t, rest, ty') →
  ∃ x, exponent_ok x ∧ e :: t = exponent_text x ∧ x ≠ None ∧ ty' = value_float.
Proof.
  intros He%letter_e H. apply run_exponent in H as (sgn & ds & Hs & Hds & -> & ->).
  by exists (Some (e, sgn, ds)).
Qed.

Lemma run_decimal2 s : ∀ ty t rest ty', run decimal2 ty s = Some (t, rest, ty') →
  ∃ ds x, Forall is_digit ds ∧ exponent_ok x ∧ t = digits_text ds ++ exponent_text x ∧
    ty' = match x with None => ty | Some _ => value_float end.
Proof.
  induction s as [|b s IH]; intros ty t rest ty' H.
  { injection H as <- <- <-. by exists [], None. }
  run_step H.
  - apply IH in Hr as (ds & x & Hds & Hx & -> & ->). apply digit_byte in E as (d & Hd & ->).
    exists (d :: ds), x. split_and!; [by constructor|done..].
  - apply (run_letter b) in Hr as (x & Hx & He & Hne & ->); [|done].
    exists [], x. by destruct x.
  - injection H as <- <- <-. by exists [], None.
Qed.

Lemma run_decimal1 s ty t rest ty' : run decimal1 ty s = Some (t, rest, ty') →
  ∃ ds x, some_digits ds ∧ exponent_ok x ∧ t = digits_text ds ++ exponent_text x ∧ ty' = value_float.
Proof.
  destruct s as [|b s]; intros H; [done|]. run_step H.
  apply run_decimal2 in Hr as (ds & x & Hds & Hx & -> & ->). apply digit_byte in E as (d & Hd & ->).
  exists (d :: ds), x. split_and!; [split; [by constructor|done]|done..|by destruct x].
Qed.

Lemma run_point b s ty t rest ty' : b2z b =? ch "." = true → run decimal1 ty s = Some (t, rest, ty') →
  ∃ f x, fraction_ok f ∧ exponent_ok x ∧ b :: t = fraction_text f ++ exponent_text x ∧
    ty' = tail_type f x ty.
Proof.
  intros Hb%Z.eqb_eq%b2z_inj H. apply run_decimal1 in H as (ds & x & Hds & Hx & -> & ->).
  exists (Some ds), x. by subst b.
Qed.

Lemma run_zero s ty t rest ty' : run zero ty s = Some (t, rest, ty') →
  ∃ f x, fraction_ok f ∧ exponent_ok x ∧ t = fraction_text f ++ exponent_text x ∧ ty' = tail_type f x ty.
Proof.
  destruct s as [|b s]; intros H.
  { injection H as <- <- <-. by exists None, None. }
  run_step H.
  - by apply (run_point b) in Hr.
  - apply (run_letter b) in Hr as (x & Hx & He & Hne & ->); [|done]. exists None, x. by destruct x.
  - injection H as <- <- <-. by exists None, None.
Qed.

Lemma run_any1 s : ∀ ty t rest ty', run any1 ty s = Some (t, rest, ty') →
  ∃ ds f x, Forall is_digit ds ∧ fraction_ok f ∧ exponent_ok x ∧
    t = digits_text ds ++ fraction_text f ++ exponent_text x ∧ ty' = tail_type f x ty.
Proof.
  induction s as [|b s IH]; intros ty t rest ty' H.
  { injection H as <- <- <-. by exists [], None, None. }
  run_step H.
  - apply IH in Hr as (ds & f & x & Hds & Hf & Hx & -> & ->). apply digit_byte in E as (d & Hd & ->).
    exists (d :: ds), f, x. split_and!; [by constructor|done..].
  - apply (run_point b) in Hr as (f & x & Hf & Hx & -> & ->); [|done]. by exists [], f, x.
  - apply (run_letter b) in Hr as (x & Hx & He & Hne & ->); [|done]. exists [], None, x. by destruct x.
  - injection H as <- <- <-. by exists [], None, None.
Qed.

Lemma run_split s : ∀ st ty t rest ty', run st ty s = Some (t, rest, ty') → s = t ++ rest.
Proof.
  induction s as [|b s IH]; intros st ty t rest ty' H.
  { simpl in H. destruct (accepting st); [|done]. by injection H as <- <- _. }
  rewrite run_cons in H. destruct (next_state st b); [|by injection H as <- <- _|done].
  apply bind_Some in H as ([[t' r'] ty1] & Hr & H). injection H as <- <- _.
  by rewrite (IH _ _ _ _ _ Hr).
Qed.

(** *** It accepts every numeral, up to its end *)

Definition in_digits (st : number_state) : bool :=
  match st with any1 | decimal2 | any2 => true | _ => false end.

Lemma run_digits st ty ds s : in_digits st = true → Forall is_digit ds →
  run st ty (digits_text ds ++ s) = '(t, rest, ty') ← run st ty s; Some (digits_text ds ++ t, rest, ty').
Proof.
  intros Hst. induction 1 as [|d ds Hd _ IH].
  { change (run st ty s = '(t, rest, ty') ← run st ty s; Some (t, rest, ty')).
    by destruct (run st ty s) as [[[]]|]. }
  change (digits_text (d :: ds) ++ s) with (digit_char d :: digits_text ds ++ s). rewrite run_cons.
  assert (Hn : next_state st (digit_char d) = MoveTo st).
  { destruct (digit_cases d Hd) as [->|[->|[->|[->|[->|[->|[->|[->|[->| ->]]]]]]]]]; by destruct st. }
  assert (Hty : number_type_at st ty = ty) by by destruct st.
  rewrite Hn, Hty, IH. by destruct (run st ty s) as [[[]]|].
Qed.

Lemma run_first_digit st st' ty d s : is_digit d → (∀ d, is_digit d → next_state st (digit_char d) = MoveTo st') →
  run st ty (digit_char d :: s) =
    '(t, rest, ty') ← run st' (number_type_at st ty) s; Some (digit_char d :: t, rest, ty').
Proof. intros Hd H. by rewrite run_cons, H. Qed.

Lemma run_done st ty s : accepting st = true → ends_number s → run st ty s = Some ([], s, ty).
Proof.
  intros Hst Hs. destruct s as [|b s]; [destruct st; done|].
  apply ends_number_cons in Hs as (Hd & H1 & H2 & H3).
  assert (Hdig : digit (b2z b) = false).
  { unfold digit. chars. destruct (Z.leb_spec 48 (b2z b)), (Z.leb_spec (b2z b) 57); try done. lia. }
  assert (Hne : ∀ c, b ≠ c → (b2z b =? ch c) = false)
    by (intros c Hc; apply Z.eqb_neq; intros He; by apply b2z_inj in He).
  rewrite run_cons. destruct st; try done; unfold next_state; rewrite ?Hdig, ?Hne by done; done.
Qed.

Lemma run_exponent_complete ty sgn ds s : sign_ok sgn → some_digits ds → ends_number s →
  run exponent ty (option_list sgn ++ digits_text ds ++ s) =
    Some (option_list sgn ++ digits_text ds, s, value_float).
Proof.
  intros Hsgn [Hds Hne] Hs. destruct ds as [|d ds]; [done|]. apply Forall_cons in Hds as [Hd Hds].
  assert (Hrest : ∀ st, st = exponent ∨ st = sign →
    run st value_float (digits_text (d :: ds) ++ s) = Some (digits_text (d :: ds), s, value_float)).
  { intros st Hst. change (digits_text (d :: ds) ++ s) with (digit_char d :: digits_text ds ++ s).
    rewrite (run_first_digit st any2) by (done || (intros d' Hd';
      destruct (digit_cases d' Hd') as [->|[->|[->|[->|[->|[->|[->|[->|[->| ->]]]]]]]]]; by destruct Hst as [->| ->])).
    rewrite run_digits, run_done by done. simpl. rewrite app_nil_r. by destruct Hst as [->| ->]. }
  destruct sgn as [b|]; [|exact (Hrest exponent (or_introl eq_refl))].
  change (option_list (Some b) ++ digits_text (d :: ds) ++ s) with (b :: digits_text (d :: ds) ++ s).
  rewrite run_cons. assert (next_state exponent b = MoveTo sign) as -> by (by destruct Hsgn as [->| ->]).
  change (number_type_at exponent ty) with value_float. by rewrite Hrest by auto.
Qed.

Lemma run_exponent_part st ty x s : accepting st = true → st ≠ any2 → exponent_ok x → ends_number s →
  run st ty (exponent_text x ++ s) =
    Some (exponent_text x, s, match x with None => ty | Some _ => value_float end).
Proof.
  intros Hst Hne Hx Hs. destruct x as [[[e sgn] ds]|]; [|by apply run_done].
  destruct Hx as (He & Hsgn & Hds).
  change (exponent_text (Some (e, sgn, ds)) ++ s) with (e :: (option_list sgn ++ digits_text ds) ++ s).
  rewrite <- app_assoc, run_cons.
  assert (next_state st e = MoveTo exponent) as -> by (destruct He as [->| ->]; by destruct st).
  by rewrite run_exponent_complete.
Qed.

Lemma run_fraction st ty f x s : st = zero ∨ st = any1 → fraction_ok f → exponent_ok x → ends_number s →
  run st ty (fraction_text f ++ exponent_text x ++ s) =
    Some (fraction_text f ++ exponent_text x, s, tail_type f x ty).
Proof.
  intros Hst Hf Hx Hs. destruct f as [ds|].
  2: { simpl. rewrite run_exponent_part by (done || by destruct Hst as [->| ->]). by destruct x. }
  destruct Hf as [Hds Hne]. destruct ds as [|d ds]; [done|]. apply Forall_cons in Hds as [Hd Hds].
  change (fraction_text (Some (d :: ds)) ++ exponent_text x ++ s)
    with ("."%byte :: digit_char d :: digits_text ds ++ exponent_text x ++ s).
  rewrite run_cons. assert (next_state st "."%byte = MoveTo decimal1) as -> by (by destruct Hst as [->| ->]).
  rewrite (run_first_digit decimal1 decimal2) by (done || (intros d' Hd';
    destruct (digit_cases d' Hd') as [->|[->|[->|[->|[->|[->|[->|[->|[->| ->]]]]]]]]]; done)).
  rewrite run_digits by done. rewrite run_exponent_part by done. simpl. by destruct x.
Qed.

(** *** Whole numbers *)

Definition number_start (b : byte) : option number_state :=
  if decide (b = "-"%byte) then Some minus
  else if decide (b = "0"%byte) then Some zero
  else if digit (b2z b) then Some any1 else None.

Definition run_number (s : bytes) : option (bytes * bytes * token_type) :=
  match s with
  | b :: s =>
      st ← number_start b;
      '(t, rest, ty) ← run st value_unsigned s; Some (b :: t, rest, ty)
  | [] => None
  end.

Definition numeral_type (n : numeral) : token_type :=
  if is_integer n then if negative n then value_integer else value_unsigned else value_float.

Lemma numeral_text_parts n : numeral_text n =
  (if negative n then ["-"%byte] else []) ++ digits_text (int_digits n) ++
  fraction_text (fraction n) ++ exponent_text (exponent_part n).
Proof. done. Qed.

Lemma tail_type_numeral neg int f x :
  tail_type f x (if neg : bool then value_integer else value_unsigned) = numeral_type (Numeral neg int f x).
Proof. by destruct f, x. Qed.

Lemma run_unsigned ty s neg t rest ty' :
  (∃ b s', s = b :: s' ∧ ∃ st, (if decide (b = "0"%byte) then st = zero else digit (b2z b) = true ∧ st = any1) ∧
     ∃ t', run st ty s' = Some (t', rest, ty') ∧ t = b :: t') →
  ∃ int f x, int ≠ [] ∧ (digits_ok int ∨ int = [0]) ∧ fraction_ok f ∧ exponent_ok x ∧
    (if neg : bool then ["-"%byte] else []) ++ t =
      numeral_text (Numeral neg int f x) ∧ ty' = tail_type f x ty.
Proof.
  intros (b & s' & -> & st & Hst & t' & Hr & ->). case_decide as Hb.
  - subst st. apply run_zero in Hr as (f & x & Hf & Hx & -> & ->).
    exists [0], f, x. split_and!; try done; [by right|]. rewrite numeral_text_parts. by subst b.
  - destruct Hst as [Hd ->]. apply run_any1 in Hr as (ds & f & x & Hds & Hf & Hx & -> & ->).
    apply digit_byte in Hd as (d & Hd & ->). exists (d :: ds), f, x. split_and!; try done.
    left. split; [by constructor|]. simpl. unfold is_digit in Hd.
    destruct (decide (d = 0)) as [->|]; [by destruct Hb|lia].
Qed.

Lemma run_number_sound s t rest ty : run_number s = Some (t, rest, ty) →
  ∃ n, numeral_ok n ∧ t = numeral_text n ∧ ty = numeral_type n ∧ s = t ++ rest.
Proof.
  destruct s as [|b s]; [done|]. cbn [run_number]. intros H.
  apply bind_Some in H as (st & Hst & H). apply bind_Some in H as ([[t' r'] ty1] & Hr & H).
  injection H as <- <- <-. pose proof (run_split _ _ _ _ _ _ Hr) as Hs.
  unfold number_start in Hst. case_decide as Hm.
  - injection Hst as <-. subst b. destruct s as [|b s]; [done|].
    rewrite run_cons in Hr. unfold next_state in Hr.
    assert (Hn : ∃ st, (if decide (b = "0"%byte) then st = zero else digit (b2z b) = true ∧ st = any1) ∧
      ∃ t0, run st value_integer s = Some (t0, r', ty1) ∧ t' = b :: t0).
    { destruct (Z.eqb_spec (b2z b) (ch "0")) as [H0|H0]; [|destruct (digit (b2z b)) eqn:Hd; [|done]];
        apply bind_Some in Hr as ([[t0 r0] ty0] & Hr & H); injection H as <- <- <-.
      - apply b2z_inj in H0. exists zero. rewrite decide_True by done. eauto.
      - exists any1. rewrite decide_False by (by intros ->). eauto. }
    destruct (run_unsigned value_integer (b :: s) true t' r' ty1) as (int & f & x & H1 & H2 & H3 & H4 & H5 & ->);
      [by exists b, s|].
    exists (Numeral true int f x). split_and!; try done; [|by rewrite Hs].
    by rewrite <- tail_type_numeral with (int := int).
  - destruct (run_unsigned value_unsigned (b :: s) false (b :: t') r' ty1) as (int & f & x & H1 & H2 & H3 & H4 & H5 & ->).
    { exists b, s. split; [done|]. case_decide as H0; [injection Hst as <-|destruct (digit (b2z b)); [injection Hst as <-|done]];
        eexists; (split; [done|]); eauto. }
    exists (Numeral false int f x). split_and!; try done; [|by rewrite Hs].
    by rewrite <- tail_type_numeral with (int := int).
Qed.

Lemma run_number_complete n rest : numeral_ok n → ends_number rest →
  run_number (numeral_text n ++ rest) = Some (numeral_text n, rest, numeral_type n).
Proof.
  intros (Hne & Hint & Hf & Hx) Hr. destruct n as [neg int f x]. simpl in *.
  rewrite <- (tail_type_numeral neg int f x).
  assert (Hbody : ∀ ty, ∃ b t st, digits_text int ++ fraction_text f ++ exponent_text x = b :: t ∧
    (if decide (b = "0"%byte) then st = zero else st = any1) ∧ digit (b2z b) = true ∧ b ≠ "-"%byte ∧
    run st ty (t ++ rest) = Some (t, rest, tail_type f x ty)).
  { intros ty. destruct Hint as [[Hds Hl]| ->].
    - destruct int as [|d int]; [done|]. apply Forall_cons in Hds as [Hd Hds]. simpl in Hl.
      exists (digit_char d), (digits_text int ++ fraction_text f ++ exponent_text x), any1.
      split_and!; [done|..].
      1-3: destruct (digit_cases d Hd) as [->|[->|[->|[->|[->|[->|[->|[->|[->| ->]]]]]]]]]; (done || lia).
      rewrite <- !app_assoc, run_digits by done. by rewrite run_fraction by auto.
    - exists "0"%byte, (fraction_text f ++ exponent_text x), zero. split_and!; try done.
      rewrite <- app_assoc. by rewrite run_fraction by auto. }
  rewrite numeral_text_parts. cbn [negative int_digits fraction exponent_part].
  destruct (Hbody (if neg then value_integer else value_unsigned)) as (b & t & st & Hb & Hst & Hd & Hm & Hrun).
  rewrite Hb. destruct neg.
  - cbn [app run_number]. unfold number_start. rewrite decide_True by done. cbn [mbind option_bind].
    rewrite run_cons. unfold next_state. change (number_type_at minus value_unsigned) with value_integer.
    case_decide as H0.
    + subst b st. change (b2z "0" =? ch "0") with true. cbv beta iota. by rewrite Hrun.
    + subst st. destruct (Z.eqb_spec (b2z b) (ch "0")) as [He|_]; [by apply b2z_inj in He|].
      rewrite Hd. by rewrite Hrun.
  - cbn [app run_number]. unfold number_start. rewrite decide_False by done.
    case_decide as H0; [subst st|rewrite Hd; subst st]; cbn [mbind option_bind]; by rewrite Hrun.
Qed.

(** ** Conversions *)

(** A decimal point that no other character of a number is. *)
Definition point_ok (point : byte) : Prop :=
  digit (b2z point) = false ∧ point ≠ "e"%byte ∧ point ≠ "E"%byte.

Lemma digits_value_nonneg ds : Forall is_digit ds → 0 ≤ digits_value ds.
Proof.
  induction ds as [|d ds IH] using rev_ind; intros H; [done|].
  apply Forall_app in H as [H Hd]. rewrite Forall_singleton in Hd. rewrite digits_value_snoc.
  specialize (IH H). unfold is_digit in Hd. lia.
Qed.

Lemma span_digits_all ds : Forall is_digit ds → span_digits (digits_text ds) = (ds, []).
Proof. intros H. pose proof (span_digits_chars ds [] H I) as E. by rewrite app_nil_r in E. Qed.

Lemma not_minus d s : is_digit d → minus_sign (digit_char d :: s) = (false, digit_char d :: s).
Proof.
  intros H. destruct (digit_cases d H) as [->|[->|[->|[->|[->|[->|[->|[->|[->| ->]]]]]]]]]; done.
Qed.

Lemma not_minus_digits ds s : Forall is_digit ds → ds ≠ [] →
  minus_sign (digits_text ds ++ s) = (false, digits_text ds ++ s).
Proof. intros H Hne. destruct ds as [|d ds]; [done|]. apply Forall_cons in H as [H _]. by apply not_minus. Qed.

Lemma int_digits_ok n : numeral_ok n → Forall is_digit (int_digits n) ∧ int_digits n ≠ [].
Proof.
  intros (Hne & [[H _]|Hz] & _); [done|]. rewrite Hz. split; [by repeat constructor|done].
Qed.

Lemma strtoull_digits ds : Forall is_digit ds → ds ≠ [] →
  strtoull (digits_text ds) =
    if digits_value ds <? 2 ^ 64 then (digits_value ds, false, []) else (2 ^ 64 - 1, true, []).
Proof.
  intros Hds Hne. unfold strtoull. pose proof (not_minus_digits ds [] Hds Hne) as Hm.
  rewrite app_nil_r in Hm. rewrite Hm, span_digits_all by done. rewrite decide_False by done.
  pose proof (digits_value_nonneg ds Hds).
  destruct (Z.ltb_spec (digits_value ds) (2 ^ 64)); [|done]. by rewrite u64_small by lia.
Qed.

Lemma strtoll_negative ds : Forall is_digit ds → ds ≠ [] →
  strtoll (["-"%byte] ++ digits_text ds) =
    if digits_value ds <=? 2 ^ 63 then (- digits_value ds, false, []) else (- 2 ^ 63, true, []).
Proof.
  intros Hds Hne. unfold strtoll. change (minus_sign (["-"%byte] ++ digits_text ds)) with (true, digits_text ds).
  cbv beta iota. rewrite span_digits_all by done. rewrite decide_False by done.
  pose proof (digits_value_nonneg ds Hds).
  destruct (Z.leb_spec (digits_value ds) (2 ^ 63)), (Z.ltb_spec (- digits_value ds) (- 2 ^ 63)),
    (Z.ltb_spec (2 ^ 63 - 1) (- digits_value ds)); try lia; done.
Qed.

Lemma strtod_exponent_text x : exponent_ok x →
  strtod_exponent (exponent_text x) = (exponent_value x, []).
Proof.
  destruct x as [[[e sgn] ds]|]; [|done]. intros (He & Hs & Hds & Hne).
  unfold strtod_exponent, exponent_text. cbn [app]. rewrite decide_True by done.
  assert (Hp : ∀ d, is_digit d → digit_char d ≠ "+"%byte).
  { intros d Hd. destruct (digit_cases d Hd) as [->|[->|[->|[->|[->|[->|[->|[->|[->| ->]]]]]]]]]; done. }
  destruct sgn as [b|].
  - change (option_list (Some b)) with [b]. cbn [app]. destruct Hs as [-> | ->].
    + cbv beta iota. rewrite decide_True by done. cbv beta iota.
      rewrite span_digits_all by done. by rewrite decide_False.
    + cbv beta iota. rewrite decide_False by done.
      change (minus_sign ("-"%byte :: digits_text ds)) with (true, digits_text ds). cbv beta iota.
      rewrite span_digits_all by done. by rewrite decide_False.
  - change (option_list (@None byte)) with (@nil byte). cbn [app].
    pose proof (not_minus_digits ds [] Hds Hne) as Hm. pose proof (span_digits_all ds Hds) as Hsp.
    rewrite app_nil_r in Hm.
    destruct ds as [|d ds]; [done|]. apply Forall_cons in Hds as Hd. destruct Hd as [Hd _].
    change (digits_text (d :: ds)) with (digit_char d :: digits_text ds) in *. cbv beta iota.
    rewrite decide_False by (by apply Hp). rewrite Hm, Hsp. by rewrite decide_False.
Qed.

Lemma no_digit_exponent x : exponent_ok x → no_digit (exponent_text x).
Proof.
  destruct x as [[[e sgn] ds]|]; [|done]. intros [[->| ->] _] [_ H]; exact (H eq_refl).
Qed.

Section locale.
Context (point : byte) (Hpoint : point_ok point).

Lemma strtod_numeral n : numeral_ok n → strtod point (numeral_chars point n) = (numeral_double n, []).
Proof.
  intros Hn. destruct (int_digits_ok n Hn) as [Hint Hne]. destruct Hn as (_ & _ & Hf & Hx).
  destruct n as [neg int f x]. simpl in *.
  assert (Hsgn : minus_sign (numeral_chars point (Numeral neg int f x)) =
    (neg, digits_text int ++ match f with Some ds => [point] ++ digits_text ds | None => [] end ++ exponent_text x)).
  { unfold numeral_chars. destruct neg; [done|]. by apply not_minus_digits. }
  assert (Hnd : no_digit (match f with Some ds => [point] ++ digits_text ds | None => [] end ++ exponent_text x)).
  { destruct f as [ds|]; simpl.
    - destruct Hpoint as (Hp & _). unfold digit in Hp. revert Hp. chars.
      rewrite andb_false_iff, !Z.leb_gt. lia.
    - by apply no_digit_exponent. }
  pose proof (no_digit_exponent x Hx) as Hxd.
  unfold strtod. rewrite Hsgn. rewrite span_digits_chars; [|done|exact Hnd].
  unfold numeral_double, numeral_mantissa, numeral_exponent. cbn [negative int_digits fraction exponent_part].
  destruct f as [ds|]; cbn [app default].
  - rewrite decide_True by done. destruct Hf as [Hds Hdne].
    unfold digits_text at 1. rewrite span_digits_chars by done.
    rewrite strtod_exponent_text by done. cbv beta iota. rewrite decide_False; [done|].
    intros H%app_eq_nil. tauto.
  - assert (He : (match exponent_text x with
      | [] => ([], exponent_text x)
      | b :: s' => if decide (b = point) then span_digits s' else ([], exponent_text x)
      end : list Z * bytes) = ([], exponent_text x)).
    { destruct x as [[[e sgn] ds]|]; [|done]. destruct Hx as [He _]. simpl.
      rewrite decide_False; [done|]. destruct Hpoint as (_ & H1 & H2). intros ->. naive_solver. }
    rewrite He, strtod_exponent_text by done. cbv beta iota. by rewrite decide_False by (by rewrite app_nil_r).
Qed.

(** The token of a number, and the member its value is left in. *)
Definition number_token (n : numeral) (t : token_type) (l : lexer) : Prop :=
  match numeral_value n with
  | JInteger z => t = value_integer ∧ number_integer l = z
  | JUnsigned z => t = value_unsigned ∧ number_unsigned l = z
  | JFloat bits => t = value_float ∧ number_float l = bits
  | _ => False
  end.

Lemma convert_number_spec n l : numeral_ok n → token_buffer l = numeral_chars point n →
  ∃ t l', convert_number point (numeral_type n) l = Val (t, l') ∧ number_token n t l' ∧
    ia l' = ia l ∧ current l' = current l ∧ next_unget l' = next_unget l ∧ position l' = position l.
Proof.
  intros Hn Hb. pose proof (strtod_numeral n Hn) as Hd. destruct (int_digits_ok n Hn) as [Hint Hne].
  unfold number_token, convert_number, numeral_type, numeral_value. rewrite Hb.
  destruct (is_integer n) eqn:Hi.
  2: { rewrite Hd. cbn. eexists _, _. split; [done|]. by split_and!. }
  assert (Hc : numeral_chars point n = (if negative n then ["-"%byte] else []) ++ digits_text (int_digits n)).
  { unfold numeral_chars, is_integer in *. destruct (fraction n), (exponent_part n); try done.
    by rewrite !app_nil_r. }
  cbn [andb]. destruct (negative n) eqn:Hneg; cbn [andb negb].
  - rewrite Hd, Hc, strtoll_negative by done.
    destruct (Z.leb_spec (digits_value (int_digits n)) (2 ^ 63)); cbn.
    + rewrite Z.eqb_refl. eexists _, _. split; [done|]. by split_and!.
    + eexists _, _. split; [done|]. by split_and!.
  - rewrite Hd, Hc. cbn [app]. rewrite strtoull_digits by done.
    destruct (Z.ltb_spec (digits_value (int_digits n)) (2 ^ 64)); cbn.
    + rewrite Z.eqb_refl. eexists _, _. split; [done|]. by split_and!.
    + eexists _, _. split; [done|]. by split_and!.
Qed.

(** ** [scan_number] *)

(** The decimal point of the locale goes into the buffer. *)
Definition localise (b : byte) : byte := if decide (b = "."%byte) then point else b.

Definition number_error (st : number_state) : string :=
  match number_switch point st (new_lexer []) with NumberError m => m | _ => EmptyString end.

Lemma number_switch_byte st l b : current l = b2z b →
  number_switch point st l =
    match next_state st b with
    | MoveTo st => Goto st (if decide (b = "."%byte) then add_point point l else add (b2z b) l)
    | MoveDone => GotoDone l
    | MoveError => NumberError (number_error st)
    end.
Proof. intros H. unfold number_switch. rewrite H. clear H. destruct b; destruct st; reflexivity. Qed.

Lemma number_switch_eof st l : current l = eof →
  number_switch point st l = if accepting st then GotoDone l else NumberError (number_error st).
Proof. intros H. unfold number_switch. rewrite H. by destruct st. Qed.

(** The lexer after the number, its last look-ahead put back. *)
Definition after_number (l : lexer) (t rest : bytes) (l' : lexer) : Prop :=
  wf l' ∧ pending l' = rest ∧ token_buffer l' = token_buffer l ++ (localise <$> t) ∧ (total l ≤ total l')%nat.

Lemma number_done fuel st ty l : wf l →
  number_switch point st (get l) = GotoDone (get l) →
  ∃ l', after_number l [] (pending l) l' ∧
    number_loop point (S fuel) st ty l = convert_number point (number_type_at st ty) l'.
Proof.
  intros Hw Hs. destruct (unget_get l Hw) as (l' & Hu & W & P & B & _ & N & _).
  exists l'. split; [split_and!; [done|done|by rewrite B, app_nil_r|lia]|].
  cbn [number_loop]. by rewrite Hs, Hu.
Qed.

Lemma add_byte_fields b l : wf l → fresh l →
  let l' := if decide (b = "."%byte) then add_point point l else add (b2z b) l in
  wf l' ∧ fresh l' ∧ pending l' = pending l ∧ token_buffer l' = token_buffer l ++ [localise b] ∧ total l' = total l.
Proof.
  intros Hw Hf. unfold localise. case_decide.
  - split_and!; try done; try (destruct Hw; done). simpl. by rewrite z2b_b2z.
  - split_and!; try done; try (destruct Hw; done). simpl. by rewrite z2b_b2z.
Qed.

Lemma number_loop_run fuel : ∀ l st ty, wf l → fresh l → (length (pending l) < fuel)%nat →
  match run st ty (pending l) with
  | Some (t, rest, ty') => ∃ l', after_number l t rest l' ∧
      number_loop point fuel st ty l = convert_number point ty' l'
  | None => ∃ l', stays l l' ∧ number_loop point fuel st ty l = Val (parse_error, l')
  end.
Proof.
  induction fuel as [|fuel IH]; intros l st ty Hw Hf Hfuel; [lia|].
  pose proof (get_spec l Hw) as H. pose proof (number_done fuel st ty l Hw) as Hdone.
  destruct (pending l) as [|b s] eqn:E; destruct H as (Hc & _ & R).
  - pose proof (number_switch_eof st (get l) Hc) as Hsw. cbn [run].
    destruct (accepting st); [exact (Hdone Hsw)|].
    eexists. split; [|cbn [number_loop]; by rewrite Hsw]. by eapply set_error_stays, reads_stays.
  - pose proof (number_switch_byte st (get l) b Hc) as Hsw. rewrite run_cons.
    destruct (next_state st b) as [st'| |]; [|exact (Hdone Hsw)|].
    2: { eexists. split; [|cbn [number_loop]; by rewrite Hsw]. by eapply set_error_stays, reads_stays. }
    cbn [number_loop]. rewrite Hsw.
    destruct (add_byte_fields b (get l) (reads_wf _ _ _ _ R) (reads_fresh _ _ _ _ R)) as (W & F & P & B & N).
    set (l1 := if decide _ then _ else _) in *.
    assert (Ps : pending l1 = s) by (rewrite P; apply (reads_pending _ _ _ _ _ R); done).
    assert (St : stays l l1).
    { split; try done; [exists [b]; by rewrite Ps, E|]. rewrite N. apply (reads_total _ _ _ _ R). }
    specialize (IH l1 st' (number_type_at st ty) W F). rewrite Ps in IH. cbn [length] in Hfuel.
    destruct (run st' (number_type_at st ty) s) as [[[t rest] ty']|]; cbn [mbind option_bind].
    + destruct IH as (l' & (W' & P' & B' & N') & ->); [lia|]. exists l'. split; [|done].
      split_and!; [done|done| |destruct St; lia].
      by rewrite B', B, (reads_buffer _ _ _ _ R), app_nil_r, <- app_assoc.
    + destruct IH as (l' & S' & ->); [lia|]. exists l'. split; [by eapply stays_trans|done].
Qed.

Lemma localise_digits ds : Forall is_digit ds → localise <$> digits_text ds = digits_text ds.
Proof.
  unfold digits_text. induction 1 as [|d ds Hd _ IH]; [done|]. rewrite !fmap_cons, IH. f_equal.
  unfold localise. by destruct (digit_cases d Hd) as [->|[->|[->|[->|[->|[->|[->|[->|[->| ->]]]]]]]]].
Qed.

Lemma localise_text n : numeral_ok n → localise <$> numeral_text n = numeral_chars point n.
Proof.
  intros Hn. destruct (int_digits_ok n Hn) as [Hi _]. destruct Hn as (_ & _ & Hf & Hx).
  destruct n as [neg int f x]. simpl in *. unfold numeral_text, numeral_chars.
  cbn [negative int_digits fraction exponent_part]. rewrite !fmap_app, localise_digits by done.
  f_equal; [by destruct neg|]. f_equal. f_equal.
  - destruct f as [ds|]; [|done]. destruct Hf as [Hf _]. rewrite fmap_app, localise_digits by done. done.
  - destruct x as [[[e sgn] ds]|]; [|done]. destruct Hx as (He & Hs & Hds & _).
    simpl. rewrite fmap_app, localise_digits by done.
    f_equal; [by destruct He as [->| ->]|]. f_equal.
    destruct sgn as [b|]; [|done]. by destruct Hs as [->| ->].
Qed.

(** The text of a number that begins at the current character. *)
Lemma scan_number_run l b : wf l → fresh l → current l = b2z b →
  (b = "-"%byte ∨ digit (b2z b) = true) →
  match run_number (b :: pending l) with
  | Some (t, rest, ty) => ∃ l', wf l' ∧ pending l' = rest ∧ token_buffer l' = localise <$> t ∧
      (total l ≤ total l')%nat ∧ scan_number point l = convert_number point ty l'
  | None => ∃ l', stays l l' ∧ scan_number point l = Val (parse_error, l')
  end.
Proof.
  intros Hw Hf Hc Hb. destruct (reset_fields l Hw Hf) as (W & F & P & B & D & N & C).
  assert (Hst : ∃ st, number_start b = Some st ∧
    scan_number point l = number_loop point (S (length (ia (reset l)))) st value_unsigned (add (b2z b) (reset l))).
  { unfold scan_number, number_start. rewrite C, Hc.
    destruct (decide (b = "-"%byte)) as [->|Hm]; [by eexists|]. destruct Hb as [Hb|Hd]; [done|].
    destruct (Z.eqb_spec (b2z b) (ch "-")) as [He|_]; [by apply b2z_inj in He|].
    destruct (decide (b = "0"%byte)) as [->|H0]; [by eexists|].
    destruct (Z.eqb_spec (b2z b) (ch "0")) as [He|_]; [by apply b2z_inj in He|].
    rewrite Hd. by eexists. }
  destruct Hst as (st & Hst & ->). cbn [run_number]. rewrite Hst. cbn [mbind option_bind].
  pose proof (reads_add (b2z b) (reset l) W F) as R.
  assert (Pl : pending (add (b2z b) (reset l)) = pending l) by (rewrite <- P; done).
  assert (Hfuel : (length (pending (add (b2z b) (reset l))) < S (length (ia (reset l))))%nat)
    by (rewrite Pl, <- P, fresh_pending by done; lia).
  pose proof (number_loop_run _ (add (b2z b) (reset l)) st value_unsigned
    (reads_wf _ _ _ _ R) (reads_fresh _ _ _ _ R) Hfuel) as H.
  rewrite Pl in H.
  assert (Hl : localise b = b) by (unfold localise; case_decide; [by destruct Hb; subst|done]).
  destruct (run st value_unsigned (pending l)) as [[[t rest] ty]|]; cbn [mbind option_bind].
  - destruct H as (l' & (W' & P' & B' & N') & Hloop). exists l'. split_and!; try done.
    rewrite B', (reads_buffer _ _ _ _ R), B, z2b_b2z, fmap_cons, Hl. done.
  - destruct H as (l' & S & Hloop). exists l'. split; [|done].
    apply stays_reset. eapply stays_trans; [by eapply reads_stays|done].
Qed.

Lemma scan_number_total l b : wf l → fresh l → current l = b2z b →
  (b = "-"%byte ∨ digit (b2z b) = true) →
  ∃ t l', scan_number point l = Val (t, l') ∧ wf l' ∧ (length (pending l') ≤ length (pending l))%nat ∧
    (total l ≤ total l')%nat ∧
    (t = parse_error ∨ ∃ n, numeral_ok n ∧ b :: pending l = numeral_text n ++ pending l' ∧ number_token n t l').
Proof.
  intros Hw Hf Hc Hb. pose proof (scan_number_run l b Hw Hf Hc Hb) as H.
  destruct (run_number (b :: pending l)) as [[[t rest] ty]|] eqn:Hrun.
  - destruct H as (l1 & W & P & B & N & ->). apply run_number_sound in Hrun as (n & Hn & -> & -> & Hs).
    rewrite localise_text in B by done.
    destruct (convert_number_spec n l1 Hn B) as (t & l' & -> & Ht & Hi & Hcur & Hu & Hpos).
    assert (Hp : pending l' = pending l1) by (unfold pending; by rewrite Hi, Hcur, Hu).
    assert (Hne : numeral_text n ≠ []).
    { destruct (int_digits_ok n Hn) as [_ Hne]. rewrite numeral_text_parts.
      destruct (negative n), (int_digits n); done. }
    exists t, l'. split_and!; [done|..].
    + unfold wf. rewrite Hi, Hcur, Hu. exact W.
    + rewrite Hp, P. apply (f_equal length) in Hs. rewrite length_app in Hs.
      destruct (numeral_text n); [done|]. simpl in Hs. lia.
    + unfold total. by rewrite Hpos.
    + right. exists n. split_and!; [done| |done]. by rewrite Hp, P.
  - destruct H as (l' & S & ->). pose proof (stays_length _ _ S). destruct S.
    exists parse_error, l'. split_and!; try done. by left.
Qed.

Lemma scan_number_complete l b n rest : wf l → fresh l → current l = b2z b →
  numeral_ok n → ends_number rest → b :: pending l = numeral_text n ++ rest →
  (b = "-"%byte ∨ digit (b2z b) = true) →
  ∃ t l', scan_number point l = Val (t, l') ∧ wf l' ∧ pending l' = rest ∧ (total l ≤ total l')%nat ∧
    number_token n t l'.
Proof.
  intros Hw Hf Hc Hn Hr Hp Hb. pose proof (scan_number_run l b Hw Hf Hc Hb) as H.
  rewrite Hp, run_number_complete in H by done. destruct H as (l1 & W & P & B & N & ->).
  rewrite localise_text in B by done.
  destruct (convert_number_spec n l1 Hn B) as (t & l' & -> & Ht & Hi & Hcur & Hu & Hpos).
  exists t, l'. split_and!; [done|..|done].
  - unfold wf. rewrite Hi, Hcur, Hu. exact W.
  - unfold pending. rewrite Hi, Hcur, Hu. exact P.
  - unfold total. by rewrite Hpos.
Qed.

End locale.

(** ** Literals *)

Lemma scan_literal_loop_total text ty l : wf l → fresh l → Forall (λ c, c ≠ xff) text →
  (∃ l', scan_literal_loop text ty l = (ty, l') ∧ reads l text [] l') ∨
  ∃ l', scan_literal_loop text ty l = (parse_error, l') ∧ stays l l'.
Proof.
  intros Hw Hf Ht. revert l Hw Hf. induction Ht as [|c text Hc _ IH]; intros l Hw Hf.
  { left. exists l. split; [done|by apply reads_refl]. }
  cbn [scan_literal_loop]. pose proof (get_spec l Hw) as H.
  destruct (pending l) as [|b s] eqn:E; destruct H as (Hcur & _ & R); rewrite Hcur.
  { right. change (to_char_type eof) with xff. rewrite decide_False by done.
    eexists. split; [done|]. by eapply set_error_stays, reads_stays. }
  unfold to_char_type. rewrite z2b_b2z. case_decide as Hd.
  - subst b. destruct (IH (get l) (reads_wf _ _ _ _ R) (reads_fresh _ _ _ _ R)) as [(l' & -> & R')|(l' & -> & S)].
    + left. exists l'. split; [done|]. apply (reads_trans _ _ _ _ _ _ _ R R').
    + right. exists l'. split; [done|]. eapply stays_trans; [by eapply reads_stays|done].
  - right. eexists. split; [done|]. by eapply set_error_stays, reads_stays.
Qed.

Lemma scan_literal_loop_complete text ty rest : ∀ l, wf l → fresh l → pending l = text ++ rest →
  ∃ l', scan_literal_loop text ty l = (ty, l') ∧ reads l text [] l'.
Proof.
  induction text as [|c text IH]; intros l Hw Hf Hp.
  { exists l. split; [done|by apply reads_refl]. }
  destruct (get_here l c _ Hw Hp) as (Hc & R & P). cbn [scan_literal_loop].
  rewrite Hc. unfold to_char_type. rewrite z2b_b2z, decide_True by done.
  destruct (IH (get l) (reads_wf _ _ _ _ R) (reads_fresh _ _ _ _ R) P) as (l' & -> & R').
  exists l'. split; [done|]. apply (reads_trans _ _ _ _ _ _ _ R R').
Qed.

(** ** Tokens and their texts *)

Definition fixed_text (t : token_type) : option bytes :=
  match t with
  | begin_array => Some [x5b] | end_array => Some [x5d]
  | begin_object => Some [x7b] | end_object => Some [x7d]
  | name_separator => Some [x3a] | value_separator => Some [x2c]
  | literal_true => Some (str "true") | literal_false => Some (str "false")
  | literal_null => Some (str "null")
  | _ => None
  end.

Inductive token :=
| Fixed (t : token_type)
| Text (v : bytes)
| Number (n : numeral).

Definition spells (tk : token) (text : bytes) : Prop :=
  match tk with
  | Fixed t => fixed_text t = Some text
  | Text v => string_text text v
  | Number n => numeral_ok n ∧ text = numeral_text n
  end.

(** What may follow the text for it to end there. *)
Definition ends (tk : token) (rest : bytes) : Prop :=
  match tk with Number _ => ends_number rest | _ => True end.

Definition at_end (s : bytes) : Prop := s = [] ∨ head s = Some x00.

Section scan.
Context (ignore_comments : bool) (point : byte) (Hpoint : point_ok point).

(** The lexer gives the token. *)
Definition holds (tk : token) (t : token_type) (l : lexer) : Prop :=
  match tk with
  | Fixed t' => t = t'
  | Text v => t = value_string ∧ get_string point l = v
  | Number n => number_token n t l
  end.

Lemma spells_nonempty tk text : spells tk text → text ≠ [].
Proof.
  destruct tk as [t|v|n]; simpl.
  - destruct t; by intros [= <-].
  - intros (body & _ & ->). done.
  - intros [Hn ->]. destruct (int_digits_ok n Hn) as [_ Hne]. rewrite numeral_text_parts.
    destruct (negative n), (int_digits n); done.
Qed.

(** The first character of a number, and of nothing else. *)
Lemma numeral_head n : numeral_ok n →
  ∃ b s, numeral_text n = b :: s ∧ (b = "-"%byte ∨ digit (b2z b) = true).
Proof.
  intros Hn. destruct (int_digits_ok n Hn) as [Hi Hne]. rewrite numeral_text_parts.
  destruct (negative n); [eexists _, _; split; [done|by left]|].
  destruct (int_digits n) as [|d ds]; [done|]. apply Forall_cons in Hi as [Hd _].
  eexists _, _. split; [done|]. right.
  destruct (digit_cases d Hd) as [->|[->|[->|[->|[->|[->|[->|[->|[->| ->]]]]]]]]]; done.
Qed.

(** [switch (current)] by the character. *)
Definition token_start (b : byte) (l : lexer) : outcome (token_type * lexer) :=
  match b with
  | x5b => Val (begin_array, l) | x5d => Val (end_array, l)
  | x7b => Val (begin_object, l) | x7d => Val (end_object, l)
  | x3a => Val (name_separator, l) | x2c => Val (value_separator, l)
  | x74 => scan_literal (str "true") literal_true l
  | x66 => scan_literal (str "false") literal_false l
  | x6e => scan_literal (str "null") literal_null l
  | x22 => scan_string l
  | x2d | x30 | x31 | x32 | x33 | x34 | x35 | x36 | x37 | x38 | x39 => scan_number point l
  | x00 => Val (end_of_input, l)
  | _ => Val (parse_error, set_error "invalid literal" l)
  end.

Lemma scan_token_start l b : current l = b2z b → scan_token point l = token_start b l.
Proof. intros H. unfold scan_token. rewrite H. destruct b; reflexivity. Qed.

Lemma scan_literal_spec l b w ty : wf l → fresh l → current l = b2z b → head w = Some b →
  Forall (λ c, c ≠ xff) (tail w) → fixed_text ty = Some w →
  (∃ l', scan_literal w ty l = Val (ty, l') ∧ reads l (tail w) [] l') ∨
  ∃ l', scan_literal w ty l = Val (parse_error, l') ∧ stays l l' ∧ ∀ rest, pending l ≠ tail w ++ rest.
Proof.
  intros Hw Hf Hc Hh Ht Hty. unfold scan_literal.
  rewrite bool_decide_eq_true_2 by (rewrite Hc; unfold to_char_type; by rewrite z2b_b2z).
  cbn [JSON_ASSERT mbind outcome_bind].
  destruct (scan_literal_loop_total (tail w) ty l Hw Hf Ht) as [(l' & -> & R)|(l' & He & S)].
  - left. by exists l'.
  - right. rewrite He. exists l'. split_and!; [done..|]. intros rest Hp.
    destruct (scan_literal_loop_complete _ ty rest l Hw Hf Hp) as (l2 & He2 & _).
    rewrite He in He2. injection He2 as Hty2 _. subst ty. by destruct w.
Qed.

(** The outcome of the switch at a character [b]. *)
Definition token_found (b : byte) (l : lexer) (t : token_type) (l' : lexer) : Prop :=
  wf l' ∧ (length (pending l') ≤ length (pending l))%nat ∧ (total l ≤ total l')%nat ∧
  (t = parse_error ∨ (t = end_of_input ∧ b = x00) ∨
   ∃ tk text, spells tk text ∧ holds tk t l' ∧ b :: pending l = text ++ pending l').

Lemma stays_error_found b l l' : stays l l' → token_found b l parse_error l'.
Proof. intros S. pose proof (stays_length _ _ S). destruct S. split_and!; try done. by left. Qed.

Lemma fixed_found b l t : wf l → fresh l → fixed_text t = Some [b] → token_found b l t l.
Proof.
  intros Hw Hf Ht. split_and!; try done. right; right. by exists (Fixed t), [b].
Qed.

Lemma literal_found l b w ty : wf l → fresh l → current l = b2z b → head w = Some b →
  Forall (λ c, c ≠ xff) (tail w) → fixed_text ty = Some w →
  ∃ t l', scan_literal w ty l = Val (t, l') ∧ token_found b l t l'.
Proof.
  intros Hw Hf Hc Hh Ht Hty.
  destruct (scan_literal_spec l b w ty Hw Hf Hc Hh Ht Hty) as [(l' & -> & R)|(l' & -> & S & _)].
  - exists ty, l'. split; [done|]. pose proof (reads_stays _ _ _ _ R) as S.
    pose proof (stays_length _ _ S). destruct S. split_and!; try done.
    right; right. exists (Fixed ty), w. split_and!; [done..|].
    rewrite (reads_text _ _ _ _ R). destruct w as [|c w]; [done|]. by injection Hh as ->.
  - exists parse_error, l'. split; [done|by apply stays_error_found].
Qed.

Lemma number_found l b : wf l → fresh l → current l = b2z b → (b = "-"%byte ∨ digit (b2z b) = true) →
  ∃ t l', scan_number point l = Val (t, l') ∧ token_found b l t l'.
Proof.
  intros Hw Hf Hc Hb.
  destruct (scan_number_total point Hpoint l b Hw Hf Hc Hb) as (t & l' & -> & W & L & N & H).
  exists t, l'. split; [done|]. split_and!; try done.
  destruct H as [->|(n & Hn & Hp & Ht)]; [by left|]. right; right. by exists (Number n), (numeral_text n).
Qed.

Lemma string_found l b : wf l → fresh l → current l = b2z b → b = x22 →
  ∃ t l', scan_string l = Val (t, l') ∧ token_found b l t l'.
Proof.
  intros Hw Hf Hc ->.
  destruct (scan_string_total l Hw Hf Hc) as (t & l' & -> & S & H). exists t, l'. split; [done|].
  destruct H as [->|(-> & body & v & Hb & Hp & Hv & Hd)]; [by apply stays_error_found|].
  pose proof (stays_length _ _ S). destruct S. split_and!; try done. right; right. exists (Text v), ([x22] ++ body ++ [x22]).
  split_and!; [by exists body|split; [done|by unfold get_string; rewrite Hd]|].
  by rewrite Hp.
Qed.

Ltac no_ff := repeat constructor; discriminate.

Lemma scan_token_total l b : wf l → fresh l → current l = b2z b →
  ∃ t l', scan_token point l = Val (t, l') ∧ token_found b l t l'.
Proof.
  intros Hw Hf Hc. rewrite (scan_token_start l b Hc).
  assert (Herr : ∀ m, token_found b l parse_error (set_error m l)).
  { intros m. apply stays_error_found, set_error_stays. by eapply reads_stays, reads_refl. }
  pose proof (literal_found l b (str "true") literal_true Hw Hf Hc).
  pose proof (literal_found l b (str "false") literal_false Hw Hf Hc).
  pose proof (literal_found l b (str "null") literal_null Hw Hf Hc).
  pose proof (string_found l b Hw Hf Hc). pose proof (number_found l b Hw Hf Hc) as Hnum.
  destruct b; cbn [token_start];
    first [ exact (ex_intro _ _ (ex_intro _ _ (conj eq_refl (Herr _))))
          | eexists _, _; split; [reflexivity|]; by apply fixed_found
          | match goal with
            | |- context [scan_number] => by apply Hnum; auto
            | |- context [scan_string] => auto
            | H : _ |- context [scan_literal] => apply H; [reflexivity|no_ff|reflexivity]
            end
          | eexists _, _; split; [reflexivity|]; split_and!; try done; right; left; done ].
Qed.

Lemma literal_complete l w ty rest b : wf l → fresh l → current l = b2z b →
  b :: pending l = w ++ rest → w ≠ [] →
  ∃ l', scan_literal w ty l = Val (ty, l') ∧ wf l' ∧ pending l' = rest ∧ (total l ≤ total l')%nat.
Proof.
  intros Hw Hf Hc Hp Hne. destruct w as [|c w]; [done|]. injection Hp as <- Hp.
  unfold scan_literal. rewrite bool_decide_eq_true_2 by (rewrite Hc; unfold to_char_type; by rewrite z2b_b2z).
  cbn [JSON_ASSERT mbind outcome_bind tail].
  destruct (scan_literal_loop_complete w ty rest l Hw Hf Hp) as (l' & -> & R).
  exists l'. split_and!; [done|by destruct R| |by destruct R]. by apply (reads_pending _ _ _ _ _ R).
Qed.

Lemma scan_token_complete l b tk text rest : wf l → fresh l → current l = b2z b →
  spells tk text → ends tk rest → b :: pending l = text ++ rest →
  ∃ t l', scan_token point l = Val (t, l') ∧ wf l' ∧ pending l' = rest ∧ (total l ≤ total l')%nat ∧
    holds tk t l'.
Proof.
  intros Hw Hf Hc Hsp Hend Hp. rewrite (scan_token_start l b Hc). destruct tk as [t|v|n]; simpl in Hsp.
  - assert (Hlit : ∀ w, fixed_text t = Some w → w = text → token_start b l = scan_literal w t l →
      ∃ t' l', token_start b l = Val (t', l') ∧ wf l' ∧ pending l' = rest ∧ (total l ≤ total l')%nat ∧ t' = t).
    { intros w Hfx -> Hst. destruct (literal_complete l text t rest b Hw Hf Hc Hp) as (l' & He & W & P & N).
      - by apply (spells_nonempty (Fixed t)).
      - exists t, l'. rewrite Hst, He. by split_and!. }
    assert (Hone : ∀ c, text = [c] → token_start c l = Val (t, l) →
      ∃ t' l', token_start b l = Val (t', l') ∧ wf l' ∧ pending l' = rest ∧ (total l ≤ total l')%nat ∧ t' = t).
    { intros c -> Hst. injection Hp as -> Hp. rewrite Hst. exists t, l. by split_and!. }
    destruct t; try discriminate Hsp; injection Hsp as <-;
      try (by eapply Hone; [reflexivity|reflexivity]);
      (injection Hp as Hb Hrest; subst b; by eapply Hlit).
  - destruct Hsp as (body & Hbody & ->). injection Hp as -> Hp. rewrite <- app_assoc in Hp.
    destruct (scan_string_complete l body v rest Hw Hf Hc Hbody Hp) as (l' & He & S & P & B & D).
    destruct S. exists value_string, l'. split_and!; try done.
    split; [done|]. by unfold get_string; rewrite D.
  - destruct Hsp as [Hn ->]. destruct (numeral_head n Hn) as (c & s & Hc' & Hd).
    assert (Hbc : c = b) by (rewrite Hc' in Hp; by injection Hp as ->). subst c.
    destruct (scan_number_complete point Hpoint l b n rest Hw Hf Hc Hn Hend Hp Hd) as (t & l' & He & W & P & N & T).
    exists t, l'. split_and!; try done. rewrite <- He.
    destruct Hd as [->|Hd]; [done|]. destruct b; (reflexivity || discriminate Hd).
Qed.

(** ** White space and comments *)

Lemma whitespace_byte b : whitespace (b2z b) = true ↔ is_ws b.
Proof.
  unfold whitespace, is_ws. chars. rewrite !orb_true_iff, !Z.eqb_eq.
  split; [intros [[[H|H]|H]|H]|intros [->|[->|[->| ->]]]]; auto;
    [left|right; left|right; right; left|right; right; right]; by apply b2z_inj.
Qed.

(** After skipping: the next character is current, unless there is none. *)
Definition at_char (l : lexer) (w : bytes) (l' : lexer) : Prop :=
  wf l' ∧ fresh l' ∧ (total l < total l')%nat ∧ blank w ∧
  ((pending l = w ∧ current l' = eof ∧ pending l' = []) ∨
   ∃ b, ¬ is_ws b ∧ pending l = w ++ b :: pending l' ∧ current l' = b2z b).

Lemma skip_whitespace_loop_spec fuel : ∀ l, wf l → (length (pending l) < fuel)%nat →
  ∃ w l', skip_whitespace_loop fuel l = Val l' ∧ at_char l w l'.
Proof.
  induction fuel as [|fuel IH]; intros l Hw Hfuel; [lia|]. cbn [skip_whitespace_loop].
  destruct (get_cases l Hw) as (F & W & _ & _ & N & _).
  pose proof (get_spec l Hw) as H.
  destruct (pending l) as [|b s] eqn:E; destruct H as (Hc & Hi & R); rewrite Hc.
  - exists [], (get l). split; [done|]. split_and!; try done; [lia|]. left. split_and!; try done.
    by rewrite (fresh_pending _ F).
  - assert (P : pending (get l) = s) by (by rewrite (fresh_pending _ F)).
    destruct (whitespace (b2z b)) eqn:Hb.
    + destruct (IH (get l) W) as (w & l' & -> & (W' & F' & N' & B' & H')); [simpl in Hfuel; rewrite P; lia|].
      exists (b :: w), l'. split; [done|]. split_and!; try done; [lia|constructor; [by apply whitespace_byte|done]|].
      rewrite E. destruct H' as [(H1 & H2 & H3)|(c & H1 & H2 & H3)].
      * left. split_and!; try done. by rewrite <- P, H1.
      * right. exists c. split_and!; try done. by rewrite <- P, H2.
    + exists [], (get l). split; [done|]. split_and!; try done; [lia|]. right. exists b.
      split_and!; [|by rewrite E, P|done]. intros Hws%whitespace_byte. congruence.
Qed.

Lemma skip_whitespace_spec l : wf l → ∃ w l', skip_whitespace l = Val l' ∧ at_char l w l'.
Proof.
  intros Hw. apply skip_whitespace_loop_spec; [done|]. pose proof (pending_length l). lia.
Qed.

Lemma at_char_length l w l' : at_char l w l' → (length (pending l') ≤ length (pending l))%nat.
Proof.
  intros (_ & _ & _ & _ & [(_ & _ & ->)|(b & _ & -> & _)]); [simpl; lia|].
  rewrite length_app. simpl. lia.
Qed.

Lemma line_comment_total fuel : ∀ l, wf l → (length (pending l) < fuel)%nat →
  ∃ ok l', line_comment_loop fuel l = Val (ok, l') ∧ stays l l'.
Proof.
  induction fuel as [|fuel IH]; intros l Hw Hfuel; [lia|]. cbn [line_comment_loop].
  pose proof (get_spec l Hw) as H. pose proof (get_stays l Hw) as S.
  destruct (pending l) as [|b s] eqn:E; destruct H as (Hc & Hi & R).
  - rewrite Hc. eexists _, _. by split.
  - destruct (_ || _); [eexists _, _; by split|].
    destruct (IH (get l) (reads_wf _ _ _ _ R)) as (ok & l' & -> & S').
    { pose proof (reads_length _ _ _ _ R) as Hl. rewrite E in Hl. simpl in *. lia. }
    exists ok, l'. split; [done|]. by eapply stays_trans.
Qed.

Lemma block_comment_total fuel : ∀ l, wf l → (length (pending l) < fuel)%nat →
  ∃ ok l', block_comment_loop fuel l = Val (ok, l') ∧ stays l l'.
Proof.
  induction fuel as [|fuel IH]; intros l Hw Hfuel; [lia|]. cbn [block_comment_loop].
  pose proof (get_spec l Hw) as H. pose proof (get_stays l Hw) as S.
  destruct (pending l) as [|b s] eqn:E; destruct H as (Hc & Hi & R).
  { rewrite Hc. eexists _, _. split; [done|]. by apply set_error_stays. }
  pose proof (reads_length _ _ _ _ R) as Hl. rewrite E in Hl. simpl in Hl, Hfuel.
  destruct (_ || _); [eexists _, _; split; [done|by apply set_error_stays]|].
  destruct (current (get l) =? ch "*").
  - pose proof (get_stays _ (reads_wf _ _ _ _ R)) as S2.
    destruct (current (get (get l)) =? ch "/").
    { eexists _, _. split; [done|]. by eapply stays_trans. }
    destruct (unget_get _ (reads_wf _ _ _ _ R)) as (l2 & -> & W2 & P2 & _ & _ & N2 & _ & _).
    cbn [mbind outcome_bind]. destruct (IH l2 W2) as (ok & l' & -> & S'); [rewrite P2; lia|].
    exists ok, l'. split; [done|]. destruct S' as [W' F' [s' H'] N'], S as [_ _ [s0 H0] N0].
    split; try done; [|lia]. exists (s0 ++ s'). by rewrite H0, <- P2, H', app_assoc.
  - destruct (IH (get l) (reads_wf _ _ _ _ R)) as (ok & l' & -> & S'); [lia|].
    exists ok, l'. split; [done|]. by eapply stays_trans.
Qed.

Lemma scan_comment_total l : wf l → fresh l →
  ∃ ok l', scan_comment l = Val (ok, l') ∧ stays l l' ∧
    (ok = true → (length (pending l') < length (pending l))%nat).
Proof.
  intros Hw Hf. unfold scan_comment. pose proof (get_spec l Hw) as H. pose proof (get_stays l Hw) as St.
  assert (Hfuel : (length (pending (get l)) < S (length (ia (get l))))%nat).
  { rewrite fresh_pending; [lia|]. by destruct St. }
  destruct (pending l) as [|b s] eqn:E; destruct H as (Hc & Hi & R).
  { rewrite Hc. eexists _, _. split; [done|]. by split; [apply set_error_stays|]. }
  pose proof (reads_length _ _ _ _ R) as Hl. rewrite E in Hl. simpl in Hl.
  destruct (current (get l) =? ch "/"); [|destruct (current (get l) =? ch "*")].
  3: { eexists _, _. split; [done|]. by split; [apply set_error_stays|]. }
  - destruct (line_comment_total _ (get l) (reads_wf _ _ _ _ R) Hfuel) as (ok & l' & -> & S').
    exists ok, l'. split_and!; [done|by eapply stays_trans|]. intros _. pose proof (stays_length _ _ S'). simpl. lia.
  - destruct (block_comment_total _ (get l) (reads_wf _ _ _ _ R) Hfuel) as (ok & l' & -> & S').
    exists ok, l'. split_and!; [done|by eapply stays_trans|]. intros _. pose proof (stays_length _ _ S'). simpl. lia.
Qed.

(** The lexer is at a character of the input, or at its end. *)
Definition arrived (l l' : lexer) : Prop :=
  current l' = eof ∨ ∃ s b, current l' = b2z b ∧ pending l = s ++ b :: pending l'.

Lemma at_char_arrived l w l' : at_char l w l' → arrived l l'.
Proof. intros (_ & _ & _ & _ & [(_ & H & _)|(b & _ & H1 & H2)]); [by left|right; by exists w, b]. Qed.

Lemma stays_arrived l1 l2 l3 : stays l1 l2 → arrived l2 l3 → arrived l1 l3.
Proof.
  intros [_ _ [s H] _] [He|(s' & b & Hc & Hp)]; [by left|]. right. exists (s ++ s'), b.
  split; [done|]. by rewrite H, Hp, app_assoc.
Qed.

Lemma at_char_stays l w l' : at_char l w l' → stays l l'.
Proof.
  intros (W & F & N & _ & H). split; try done; [|lia].
  destruct H as [(_ & _ & H)|(b & _ & H & _)]; [exists (pending l); by rewrite H, app_nil_r|].
  exists (w ++ [b]). by rewrite H, <- app_assoc.
Qed.

Lemma skip_comments_total fuel : ∀ l, wf l → fresh l → (length (pending l) < fuel)%nat →
  ∃ ok l', skip_comments ignore_comments fuel l = Val (ok, l') ∧ stays l l' ∧
    (ok = true → l' = l ∨ arrived l l') ∧
    (ignore_comments = false ∨ current l = eof → ok = true ∧ l' = l).
Proof.
  induction fuel as [|fuel IH]; intros l Hw Hf Hfuel; [lia|]. cbn [skip_comments].
  pose proof (reads_stays _ _ _ _ (reads_refl l Hw Hf)) as S0.
  destruct (ignore_comments && (current l =? ch "/")) eqn:Hg.
  2: { exists true, l. split_and!; try done. intros _. by left. }
  apply andb_true_iff in Hg as [Hic Hsl%Z.eqb_eq].
  assert (Hno : ignore_comments = false ∨ current l = eof → False)
    by (rewrite Hic, Hsl; intros [|]; discriminate).
  destruct (scan_comment_total l Hw Hf) as (ok & l1 & -> & S1 & Hlt). cbn [mbind outcome_bind].
  destruct ok; [|exists false, l1; split_and!; try done; by intros []%Hno].
  destruct (skip_whitespace_spec l1) as (w & l2 & -> & A2); [by destruct S1|]. cbn [mbind outcome_bind].
  pose proof (at_char_length _ _ _ A2) as L2. specialize (Hlt eq_refl).
  pose proof (at_char_arrived _ _ _ A2) as Ar2. pose proof (at_char_stays _ _ _ A2) as S2.
  destruct A2 as (W2 & F2 & N2 & _). pose proof (stays_trans _ _ _ S1 S2) as S12.
  destruct (IH l2 W2 F2) as (ok & l' & -> & S' & Ar' & _); [lia|].
  exists ok, l'. split; [done|]. split; [by eapply stays_trans|]. split; [|by intros []%Hno].
  intros Hok. right. destruct (Ar' Hok) as [->|Ar];
    [exact (stays_arrived _ _ _ S1 Ar2)|exact (stays_arrived _ _ _ S12 Ar)].
Qed.

(** ** [scan] *)

(** [scan] past the byte order mark. *)
Definition scan_body (l : lexer) : outcome (token_type * lexer) :=
  l ← skip_whitespace l;
  '(ok, l) ← skip_comments ignore_comments (S (length (ia l))) l;
  if ok : bool then scan_token point l else Val (parse_error, l).

Lemma scan_later l : (0 < total l)%nat → scan ignore_comments point l = scan_body l.
Proof. intros H. unfold scan. rewrite decide_False by (unfold total in H; lia). done. Qed.

(** What may stand before a token: white space, and with the option whatever passes
    for a comment. *)
Definition gap (w : bytes) : Prop := ignore_comments = false → blank w.

(** What a scan finds: an error, the end, or a token and its text. *)
Definition scanned (l : lexer) (t : token_type) (l' : lexer) : Prop :=
  wf l' ∧ (0 < total l')%nat ∧ (length (pending l') ≤ length (pending l))%nat ∧
  (t = parse_error ∨
   (t = end_of_input ∧ ∃ w e, gap w ∧ (ignore_comments = false → at_end e) ∧ pending l = w ++ e) ∨
   ∃ tk text w, spells tk text ∧ holds tk t l' ∧ gap w ∧ pending l = w ++ text ++ pending l').

Lemma scan_body_total l : wf l → ∃ t l', scan_body l = Val (t, l') ∧ scanned l t l'.
Proof.
  intros Hw. unfold scan_body.
  destruct (skip_whitespace_spec l Hw) as (w & l1 & -> & A). cbn [mbind outcome_bind].
  pose proof (at_char_length _ _ _ A) as L1. pose proof (at_char_arrived _ _ _ A) as Ar1.
  pose proof (at_char_stays _ _ _ A) as S1.
  destruct A as (W1 & F1 & N1 & Bw & Hp).
  destruct (skip_comments_total (S (length (ia l1))) l1 W1 F1) as (ok & l2 & -> & S2 & Ar2 & Hno).
  { rewrite fresh_pending by done. lia. }
  cbn [mbind outcome_bind]. pose proof (stays_length _ _ S2) as L2. pose proof (stays_total _ _ S2) as N2.
  destruct ok.
  2: { exists parse_error, l2. split; [done|]. split_and!; [by destruct S2|lia|lia|by left]. }
  assert (Ar : (current l2 = eof ∧ ∃ s, pending l = s) ∨
    ∃ s b, gap s ∧ current l2 = b2z b ∧ pending l = s ++ b :: pending l2).
  { destruct (decide (ignore_comments = false)) as [Hic|Hic].
    - destruct (Hno (or_introl Hic)) as [_ ->].
      destruct Hp as [(_ & He & _)|(c & _ & Hs & Hc)]; [left; eauto|right; exists w, c; by split; [intros _|]].
    - assert (Ar : arrived l l2) by (destruct (Ar2 eq_refl) as [->|Ar]; [done|exact (stays_arrived _ _ _ S1 Ar)]).
      destruct Ar as [He|(s & b & Hc & Hs)]; [left; eauto|right; exists s, b; by split; [intros ?|]]. }
  destruct Ar as [[He _]|(s & b & Hg & Hb & Hs)].
  - exists end_of_input, l2. unfold scan_token. rewrite He. split; [done|].
    split_and!; [by destruct S2|lia|lia|]. right; left. split; [done|].
    destruct (decide (ignore_comments = false)) as [Hic|Hic].
    + destruct (Hno (or_introl Hic)) as [_ ->]. exists w, []. split_and!; [by intros _|by left|].
      rewrite app_nil_r. destruct Hp as [(Hp & _)|(c & _ & _ & Hc)]; [done|].
      rewrite He in Hc. symmetry in Hc. by apply b2z_not_eof in Hc.
    + exists [], (pending l). split_and!; [by intros _|by intros ?|done].
  - destruct S2 as [W2 F2 _ _].
    destruct (scan_token_total l2 b W2 F2 Hb) as (t & l' & -> & W & L & N & H).
    exists t, l'. split; [done|]. split_and!; [done|lia|lia|].
    destruct H as [->|[(-> & ->)|(tk & text & Hsp & Hh & Ht)]]; [by left|..]; right.
    + left. split; [done|]. exists s, (x00 :: pending l2). split_and!; [done|by right|done].
    + right. exists tk, text, s. split_and!; try done. by rewrite Hs, Ht.
Qed.

(** *** Tokens are found *)

Lemma blank_prefix w : ∀ w' b b' s s', blank w → blank w' → ¬ is_ws b → ¬ is_ws b' →
  w ++ b :: s = w' ++ b' :: s' → b = b' ∧ s = s'.
Proof.
  induction w as [|c w IH]; intros [|c' w'] b b' s s' Hw Hw' Hb Hb' H.
  - by injection H.
  - injection H as -> _. by apply Forall_cons in Hw' as [].
  - injection H as <- _. by apply Forall_cons in Hw as [].
  - injection H as _ H. apply Forall_cons in Hw as [_ Hw], Hw' as [_ Hw']. by eapply IH.
Qed.

(** After skipping white space the character that follows it is current. *)
Lemma skip_whitespace_here l w b s : wf l → blank w → ¬ is_ws b → pending l = w ++ b :: s →
  ∃ l', skip_whitespace l = Val l' ∧ wf l' ∧ fresh l' ∧ (total l < total l')%nat ∧
    current l' = b2z b ∧ pending l' = s.
Proof.
  intros Hw Hbl Hb Hp. destruct (skip_whitespace_spec l Hw) as (w' & l' & -> & W & F & N & Hbl' & H).
  exists l'. destruct H as [(H1 & _ & _)|(b' & Hb' & H2 & Hc)].
  - exfalso. rewrite Hp in H1. subst w'. apply Forall_app in Hbl' as [_ Hbl'].
    by apply Forall_cons in Hbl' as [].
  - rewrite Hp in H2. destruct (blank_prefix _ _ _ _ _ _ Hbl Hbl' Hb Hb' H2) as [<- <-]. done.
Qed.

Definition token_byte (b : byte) : Prop := ¬ is_ws b ∧ b ≠ xef.

Lemma spells_head tk text : spells tk text → ∃ b s, text = b :: s ∧ token_byte b.
Proof.
  assert (Hb : ∀ b, bool_decide (token_byte b) = true → token_byte b) by (intros b; apply bool_decide_eq_true_1).
  destruct tk as [t|v|n]; simpl.
  - destruct t; intros [= <-]; eexists _, _; (split; [reflexivity|]); by apply Hb.
  - intros (body & _ & ->). eexists _, _. split; [reflexivity|]. by apply Hb.
  - intros [Hn ->]. destruct (numeral_head n Hn) as (b & s & -> & Hd). exists b, s. split; [done|].
    destruct Hd as [->|Hd]; [by apply Hb|]. apply digit_byte in Hd as (d & Hd & ->). apply Hb.
    destruct (digit_cases d Hd) as [->|[->|[->|[->|[->|[->|[->|[->|[->| ->]]]]]]]]]; done.
Qed.

Lemma skip_comments_off fuel l : ignore_comments = false → skip_comments ignore_comments fuel l = Val (true, l).
Proof. intros ->. by destruct fuel. Qed.

Lemma scan_body_complete l w tk text rest : ignore_comments = false → wf l → blank w → spells tk text →
  ends tk rest → pending l = w ++ text ++ rest →
  ∃ t l', scan_body l = Val (t, l') ∧ wf l' ∧ (0 < total l')%nat ∧ pending l' = rest ∧ holds tk t l'.
Proof.
  intros Hic Hw Hbl Hsp Hend Hp. destruct (spells_head tk text Hsp) as (b & s & Htext & Hb & _).
  destruct (skip_whitespace_here l w b (s ++ rest) Hw Hbl Hb) as (l1 & He & W1 & F1 & N1 & C1 & P1).
  { by rewrite Hp, Htext. }
  unfold scan_body. rewrite He. cbn [mbind outcome_bind]. rewrite skip_comments_off by done.
  cbn [mbind outcome_bind].
  destruct (scan_token_complete l1 b tk text rest W1 F1 C1 Hsp Hend) as (t & l' & -> & W & P & N & Hh).
  { by rewrite P1, Htext. }
  exists t, l'. split_and!; try done. lia.
Qed.

Lemma scan_body_end l w e : ignore_comments = false → wf l → blank w → at_end e → pending l = w ++ e →
  ∃ l', scan_body l = Val (end_of_input, l') ∧ wf l' ∧ (0 < total l')%nat.
Proof.
  intros Hic Hw Hbl He Hp. unfold scan_body.
  assert (H : ∃ l1, skip_whitespace l = Val l1 ∧ wf l1 ∧ (total l < total l1)%nat ∧
    (current l1 = eof ∨ current l1 = b2z x00)).
  { destruct He as [->|He].
    - destruct (skip_whitespace_spec l Hw) as (w' & l' & -> & W & F & N & Hbl' & H).
      exists l'. split_and!; try done. destruct H as [(_ & H & _)|(b & Hb & H2 & _)]; [by left|].
      exfalso. rewrite app_nil_r in Hp. rewrite Hp in H2. rewrite H2 in Hbl.
      apply Forall_app in Hbl as [_ Hbl]. by apply Forall_cons in Hbl as [].
    - destruct e as [|b s]; [done|]. injection He as ->.
      destruct (skip_whitespace_here l w x00 s Hw Hbl) as (l1 & -> & W1 & F1 & N1 & C1 & P1); [|done|].
      { intros [|[|[|]]]; discriminate. }
      exists l1. split_and!; try done. by right. }
  destruct H as (l1 & -> & W1 & N1 & C1). cbn [mbind outcome_bind]. rewrite skip_comments_off by done.
  cbn [mbind outcome_bind]. exists l1. split_and!; [|done|lia].
  unfold scan_token. by destruct C1 as [->| ->].
Qed.

(** *** The byte order mark *)

Definition without_bom (s : bytes) : option bytes :=
  if decide (head s = Some xef) then
    if decide (take 3 s = [xef; xbb; xbf]) then Some (drop 3 s) else None
  else Some s.

Lemma skip_bom_spec l : wf l →
  match without_bom (pending l) with
  | Some s => ∃ l', skip_bom l = Val (true, l') ∧ wf l' ∧ pending l' = s
  | None => ∃ l', skip_bom l = Val (false, l') ∧ stays l l' ∧ (0 < total l')%nat
  end.
Proof.
  intros Hw. unfold skip_bom, without_bom. change 0xEF with (b2z xef). change 0xBB with (b2z xbb).
  change 0xBF with (b2z xbf).
  destruct (get_cases l Hw) as (_ & _ & _ & _ & N & _).
  destruct (get_is l xef Hw) as [(s & Hp & Hc & R)|[Hn Hh]].
  2: { rewrite Hn, decide_False by done. destruct (unget_get l Hw) as (l' & -> & W & P & _). by exists l'. }
  rewrite Hc, Z.eqb_refl, Hp, decide_True by done. pose proof (reads_pending _ _ _ _ _ R Hp) as P1.
  pose proof (reads_wf _ _ _ _ R) as W1. pose proof (reads_stays _ _ _ _ R) as S1.
  assert (Hfail : ∀ l', stays (get l) l' → stays l l' ∧ (0 < total l')%nat).
  { intros l' S. split; [by eapply stays_trans|]. destruct S. lia. }
  destruct (get_is (get l) xbb W1) as [(s2 & Hp2 & Hc2 & R2)|[Hn Hh]].
  2: { rewrite Hn. rewrite P1 in Hh. rewrite decide_False.
       - exists (get (get l)). split; [done|]. by apply Hfail, get_stays.
       - destruct s as [|? [|]]; try discriminate. intros [= -> _]. by apply Hh. }
  rewrite Hc2, Z.eqb_refl. pose proof (reads_pending _ _ _ _ _ R2 Hp2) as P2.
  pose proof (reads_wf _ _ _ _ R2) as W2. rewrite P1 in Hp2. rewrite Hp2.
  destruct (get_is (get (get l)) xbf W2) as [(s3 & Hp3 & Hc3 & R3)|[Hn Hh]].
  - rewrite Hc3, Z.eqb_refl. rewrite P2 in Hp3. rewrite Hp3.
    rewrite decide_True by done. eexists. split; [done|]. split; [by destruct R3|].
    rewrite Hp3 in P2. by rewrite (reads_pending _ _ _ _ _ R3 P2).
  - rewrite Hn. rewrite P2 in Hh. rewrite decide_False.
    + eexists. split; [done|]. apply Hfail. eapply stays_trans; [by eapply reads_stays|by apply get_stays].
    + destruct s2; try discriminate. intros [= ->]. by apply Hh.
Qed.

Lemma scan_first input :
  match without_bom input with
  | Some s => ∃ l, wf l ∧ pending l = s ∧ scan ignore_comments point (new_lexer input) = scan_body l
  | None => ∃ l', scan ignore_comments point (new_lexer input) = Val (parse_error, l') ∧ wf l' ∧
              (0 < total l')%nat ∧ (length (pending l') ≤ length input)%nat
  end.
Proof.
  unfold scan. rewrite decide_True by done.
  assert (Hw : wf (new_lexer input)) by done.
  pose proof (skip_bom_spec (new_lexer input) Hw) as H. change (pending (new_lexer input)) with input in H.
  destruct (without_bom input) as [s|].
  - destruct H as (l & -> & W & P). by exists l.
  - destruct H as (l & -> & S & H0). pose proof (stays_length _ _ S). destruct S.
    eexists. split; [done|]. by split_and!.
Qed.

End scan.
