(* ===== verification/JsonBuild.v ===== *)
(** * Building values from events

    What a handler of the parser's events must guarantee, as a class over an abstract
    stack of open containers, and the two handlers that meet it: the builder of
    values, whose pointers are followed into the tree, and the acceptor. *)

From S2P Require Import Prelude Float Dtoa Json JsonLexer JsonParser.
From Stdlib Require Import Strings.Byte Sorting.Sorted.

Open Scope Z_scope.

(** ** Maps with ordered keys *)

Lemma key_lt_irrefl a : key_lt a a = false.
Proof. induction a as [|x a IH]; [done|]. simpl. rewrite IH, Z.eqb_refl, Z.ltb_irrefl. done. Qed.

Lemma key_lt_trichotomy a : ∀ b, key_lt a b = false → key_lt b a = false → a = b.
Proof.
  induction a as [|x a IH]; intros [|y b]; simpl; try done. intros H1 H2.
  apply orb_false_iff in H1 as [H1 H1'], H2 as [H2 H2'].
  apply Z.ltb_ge in H1, H2. assert (Hxy : b2z x = b2z y) by lia.
  rewrite Hxy, Z.eqb_refl in H1', H2'. apply b2z_inj in Hxy as ->. f_equal. by apply IH.
Qed.

Lemma key_lt_trans a : ∀ b c, key_lt a b = true → key_lt b c = true → key_lt a c = true.
Proof.
  induction a as [|x a IH]; intros [|y b] [|z c]; simpl; try done. intros H1 H2.
  apply orb_true_iff in H1, H2. apply orb_true_iff.
  rewrite !andb_true_iff, !Z.ltb_lt, !Z.eqb_eq in *.
  destruct H1 as [H1|[H1 H1']], H2 as [H2|[H2 H2']]; try (left; lia).
  right. split; [lia|]. by eapply IH.
Qed.

Definition entry_lt {A} (a b : bytes * A) : Prop := key_lt a.1 b.1 = true.

(** The entries of a [std::map]: in order, each key once. *)
Definition ordered {A} (m : list (bytes * A)) : Prop := StronglySorted entry_lt m.

Lemma map_insert_elem k v m : ∀ e, e ∈ map_insert k v m → e = (k, v) ∨ e ∈ m.
Proof.
  induction m as [|[k' v'] m IH]; intros e He; simpl in He.
  { apply list_elem_of_singleton in He as ->. by left. }
  destruct (key_lt k k') eqn:E1; [|destruct (key_lt k' k) eqn:E2].
  - apply elem_of_cons in He as [->|He]; [by left|by right].
  - apply elem_of_cons in He as [->|He]; [right; left|].
    apply IH in He as [He|He]; [by left|right; by right].
  - rewrite (key_lt_trichotomy k k' E1 E2) in *.
    apply elem_of_cons in He as [->|He]; [by left|right; by right].
Qed.

Lemma map_insert_ordered k v m : ordered m → ordered (map_insert k v m).
Proof.
  unfold ordered. induction 1 as [|[k' v'] m Hm IH Hlt]; simpl.
  { repeat constructor. }
  destruct (key_lt k k') eqn:E1; [|destruct (key_lt k' k) eqn:E2].
  - constructor; [by constructor|]. constructor; [done|].
    rewrite !List.Forall_forall in *. intros e He. by apply (key_lt_trans k k'), Hlt.
  - constructor; [done|]. rewrite List.Forall_forall in *. intros e He.
    rewrite <- list_elem_of_In in He. apply map_insert_elem in He as [->|He]; [done|].
    apply Hlt. by rewrite <- list_elem_of_In.
  - constructor; [done|]. exact Hlt.
Qed.

(** Appending in order: what [map_insert] does with the greatest key. *)
Lemma map_insert_last k v m : Forall (λ e, key_lt e.1 k = true) m → map_insert k v m = m ++ [(k, v)].
Proof.
  induction 1 as [|[k' v'] m Hk _ IH]; [done|]. simpl in *.
  assert (key_lt k k' = false) as ->.
  { destruct (key_lt k k') eqn:E; [|done]. pose proof (key_lt_trans _ _ _ Hk E) as H.
    by rewrite key_lt_irrefl in H. }
  by rewrite Hk, IH.
Qed.

Import DomParser.

Lemma map_find_insert k v m : map_find k (map_insert k v m) = Some v.
Proof.
  induction m as [|[k' v'] m IH]; simpl; [by rewrite decide_True|].
  destruct (key_lt k k') eqn:E1; [|destruct (key_lt k' k) eqn:E2]; simpl.
  - by rewrite decide_True.
  - rewrite decide_False; [done|]. intros ->. by rewrite key_lt_irrefl in E2.
  - by rewrite decide_True by (symmetry; by apply key_lt_trichotomy).
Qed.

Lemma map_alter_insert f k v m : map_alter f k (map_insert k v m) = map_insert k (f v) m.
Proof.
  induction m as [|[k' v'] m IH]; simpl; [by rewrite decide_True|].
  destruct (key_lt k k') eqn:E1; [|destruct (key_lt k' k) eqn:E2]; simpl.
  - by rewrite decide_True.
  - rewrite decide_False; [by rewrite IH|]. intros ->. by rewrite key_lt_irrefl in E2.
  - by rewrite decide_True by (symmetry; by apply key_lt_trichotomy).
Qed.

Lemma map_alter_found v k m w : ordered m → map_find k m = Some w →
  map_alter (λ _, v) k m = map_insert k v m.
Proof.
  unfold ordered. induction 1 as [|[k' v'] m Hm IH Hlt]; simpl; [done|].
  case_decide as Hk.
  - intros _. subst k'. by rewrite !key_lt_irrefl.
  - intros Hf. assert (Hin : ∃ e, e ∈ m ∧ e.1 = k).
    { clear - Hf. induction m as [|[k'' v''] m IH]; simpl in *; [done|]. case_decide as Hd.
      - exists (k'', v''). split; [left|done].
      - destruct (IH Hf) as (e & He & Hk). exists e. split; [by right|done]. }
    destruct Hin as (e & He & <-). rewrite List.Forall_forall in Hlt.
    rewrite list_elem_of_In in He. specialize (Hlt e He). unfold entry_lt in Hlt. simpl in Hlt.
    assert (key_lt e.1 k' = false) as ->.
    { destruct (key_lt e.1 k') eqn:E; [|done]. pose proof (key_lt_trans _ _ _ Hlt E) as H.
      by rewrite key_lt_irrefl in H. }
    rewrite Hlt. by rewrite IH.
Qed.

(** The slot [operator[]] finds or makes, then assigned. *)
Lemma map_at_assign k v m : ordered m → map_alter (λ _, v) k (map_at k m) = map_insert k v m.
Proof.
  intros Hm. unfold map_at. destruct (map_find k m) as [w|] eqn:Hf.
  - by eapply map_alter_found.
  - apply map_alter_insert.
Qed.

Lemma map_at_find k m : is_Some (map_find k (map_at k m)).
Proof. unfold map_at. destruct (map_find k m) eqn:Hf; [by rewrite Hf|]. by rewrite map_find_insert. Qed.

(** ** Containers under construction *)

(** An open array with its elements, or an open object with its members and the key
    that waits for a value. *)
Inductive frame :=
| FArray (l : list json)
| FObject (m : list (bytes * json)) (slot : option bytes).

(** The innermost container first, or the finished value. *)
Inductive building :=
| Done (j : json)
| Open (fr : list frame).

Definition put (v : json) (fr : list frame) : building :=
  match fr with
  | [] => Done v
  | FArray l :: fr => Open (FArray (l ++ [v]) :: fr)
  | FObject m (Some k) :: fr => Open (FObject (map_insert k v m) None :: fr)
  | FObject m None :: fr => Open (FObject m None :: fr)
  end.

(** A value may come next. *)
Definition ready (fr : list frame) : Prop :=
  match fr with FObject _ None :: _ => False | _ => True end.

Inductive scalar_event {S} (sax : Sax.t S) : json → (S → outcome (bool * S)) → Prop :=
| event_null : scalar_event sax JNull (Sax.null sax)
| event_boolean b : scalar_event sax (JBoolean b) (Sax.boolean sax b)
| event_integer z : scalar_event sax (JInteger z) (Sax.number_integer sax z)
| event_unsigned z : scalar_event sax (JUnsigned z) (Sax.number_unsigned sax z)
| event_float bits text : scalar_event sax (JFloat bits) (Sax.number_float sax bits text)
| event_string s : scalar_event sax (JString s) (Sax.string sax s).

(** What the parser needs of a handler: in a state that stands for a building, every
    event is accepted and leads to a state that stands for what it should; an error
    is thrown, or remembered by a state that has failed. *)
Class Builder {S : Type} (sax : Sax.t S) := {
  rep : building → S → Prop;
  failed : S → Prop;
  throws : bool;
  build_scalar v ev fr s : scalar_event sax v ev → ready fr → rep (Open fr) s →
    ∃ s', ev s = Val (true, s') ∧ rep (put v fr) s';
  build_start_array fr s : ready fr → rep (Open fr) s →
    ∃ s', Sax.start_array sax Sax.unknown_size s = Val (true, s') ∧ rep (Open (FArray [] :: fr)) s';
  build_end_array l fr s : ready fr → rep (Open (FArray l :: fr)) s →
    ∃ s', Sax.end_array sax s = Val (true, s') ∧ rep (put (JArray l) fr) s';
  build_start_object fr s : ready fr → rep (Open fr) s →
    ∃ s', Sax.start_object sax Sax.unknown_size s = Val (true, s') ∧ rep (Open (FObject [] None :: fr)) s';
  build_key m k fr s : rep (Open (FObject m None :: fr)) s →
    ∃ s', Sax.key sax k s = Val (true, s') ∧ rep (Open (FObject m (Some k) :: fr)) s';
  build_end_object m fr s : ready fr → rep (Open (FObject m None :: fr)) s →
    ∃ s', Sax.end_object sax s = Val (true, s') ∧ rep (put (JObject m) fr) s';
  build_error n text ex s :
    if throws then Sax.parse_error sax n text ex s = Throw ex
    else ∃ s', Sax.parse_error sax n text ex s = Val (false, s') ∧ failed s';
}.

(** ** The acceptor *)

#[global] Instance acceptor_builder : Builder Acceptor.sax.
Proof.
  refine {| rep := λ _ _, True; failed := λ _, True; throws := false |}; try (intros; by eexists).
  intros v ev fr s Hev _ _. destruct Hev; by eexists.
Defined.

(** ** The builder of values *)

(** The path to the value that comes next, and the tree with a value there. *)
Fixpoint hole (fr : list frame) : pointer :=
  match fr with
  | [] => []
  | FArray l :: fr => hole fr ++ [Index (length l)]
  | FObject _ (Some k) :: fr => hole fr ++ [Key k]
  | FObject _ None :: fr => hole fr
  end.

Definition extend (v : json) (f : frame) : json :=
  match f with
  | FArray l => JArray (l ++ [v])
  | FObject m (Some k) => JObject (map_insert k v m)
  | FObject m None => JObject m
  end.
Fixpoint plug (v : json) (fr : list frame) : json :=
  match fr with
  | [] => v
  | f :: fr => plug (extend v f) fr
  end.

(** The container as it is before the next value: a new member is null. *)
Definition frame_json (f : frame) : json :=
  match f with
  | FArray l => JArray l
  | FObject m (Some k) => JObject (map_at k m)
  | FObject m None => JObject m
  end.

Fixpoint pointers (fr : list frame) : list pointer :=
  match fr with
  | [] => []
  | _ :: fr => hole fr :: pointers fr
  end.

Definition frame_ordered (f : frame) : Prop :=
  match f with FObject m _ => ordered m | FArray _ => True end.
Definition filled (f : frame) : Prop := match f with FObject _ None => False | _ => True end.

Definition dom_rep (b : building) (d : DomParser.t) : Prop :=
  errored d = false ∧
  match b with
  | Done j => root d = j ∧ ref_stack d = []
  | Open [] => ref_stack d = []
  | Open (f :: fr) =>
      root d = plug (frame_json f) fr ∧ ref_stack d = pointers (f :: fr) ∧
      Forall frame_ordered (f :: fr) ∧ Forall filled fr ∧
      match f with FObject _ (Some k) => object_element d = Some (hole fr ++ [Key k]) | _ => True end
  end.

Lemma deref_app p q : ∀ j, deref (p ++ q) j = deref p j ≫= deref q.
Proof.
  induction p as [|[i|k] p IH]; intros j; [done|..]; simpl.
  - destruct j; try done. destruct (_ !! i); [apply IH|done].
  - destruct j; try done. destruct (map_find k _); [apply IH|done].
Qed.

Lemma assign_app p q v u : ∀ j, deref p j = Some u → assign (p ++ q) v j = assign p (assign q v u) j.
Proof.
  induction p as [|[i|k] p IH]; intros j; simpl; [by intros [= ->]|..]; destruct j; try done.
  - destruct (_ !! i) as [w|] eqn:Hi; [|done]. intros Hw. f_equal.
    apply list_eq. intros n. rewrite !list_lookup_alter. case_decide as Hn; [|done].
    subst n. rewrite Hi. simpl. f_equal. by apply IH.
  - destruct (map_find k _) as [w|] eqn:Hk; [|done]. intros Hw. f_equal.
    induction members as [|[k' v'] m IHm]; [done|]. simpl in *. case_decide.
    + injection Hk as ->. by rewrite (IH w).
    + by rewrite IHm.
Qed.

Lemma deref_hole fr : ∀ v, Forall filled fr → deref (hole fr) (plug v fr) = Some v.
Proof.
  induction fr as [|f fr IH]; intros v Hf; [done|]. apply Forall_cons in Hf as [Hf Hfr].
  destruct f as [l|m [k|]]; [..|done]; cbn [hole plug extend]; rewrite deref_app, IH by done;
    cbn [mbind option_bind deref].
  - by rewrite list_lookup_middle.
  - by rewrite map_find_insert.
Qed.

Lemma alter_last (f : json → json) l v : alter f (length l) (l ++ [v]) = l ++ [f v].
Proof. induction l as [|x l IH]; [done|]. simpl. f_equal. exact IH. Qed.

Lemma assign_hole fr : ∀ v w, Forall filled fr → assign (hole fr) w (plug v fr) = plug w fr.
Proof.
  induction fr as [|f fr IH]; intros v w Hf; [done|]. apply Forall_cons in Hf as [Hf Hfr].
  destruct f as [l|m [k|]]; [..|done]; cbn [hole plug extend];
    rewrite (assign_app _ _ _ _ _ (deref_hole fr _ Hfr)), IH by done; cbn [assign]; f_equal.
  - by rewrite alter_last.
  - by rewrite map_alter_insert.
Qed.

Lemma dom_back f fr d : dom_rep (Open (f :: fr)) d → back d = Val (hole fr, frame_json f).
Proof.
  intros (_ & Hr & Hs & _ & Hf & _). unfold back. rewrite Hs. cbn [pointers].
  by rewrite Hr, deref_hole.
Qed.

Lemma dom_handle v fr d : ready fr → dom_rep (Open fr) d →
  ∃ d', handle_value v d = Val (hole fr, d') ∧ root d' = plug v fr ∧ ref_stack d' = pointers fr ∧
    errored d' = false ∧ Forall frame_ordered fr ∧ Forall filled fr.
Proof.
  intros Hready Hd. unfold handle_value. destruct fr as [|f fr].
  { destruct Hd as [He Hs]. rewrite Hs. eexists. split; [done|]. by split_and!. }
  pose proof (dom_back f fr d Hd) as Hb. destruct Hd as (He & Hr & Hs & Ho & Hf & Hel).
  assert (Hff : Forall filled (f :: fr)).
  { constructor; [|done]. by destruct f as [|m [k|]]. }
  rewrite Hs, <- Hs. cbn [pointers]. rewrite Hs. cbn [pointers]. rewrite Hb. cbn [mbind outcome_bind].
  destruct f as [l|m [k|]]; cbn [frame_json]; [..|done].
  - eexists. split; [done|]. cbn [root ref_stack errored]. rewrite Hr, assign_hole by done.
    split_and!; try done. 
  - rewrite Hel. rewrite bool_decide_eq_true_2.
    2: { rewrite Hr, deref_app, deref_hole by done. cbn [mbind option_bind deref frame_json].
         destruct (map_at_find k m) as [w ->]. by eexists. }
    cbn [JSON_ASSERT mbind outcome_bind]. eexists. split; [done|]. cbn [root ref_stack errored].
    split_and!; try done.
    rewrite Hr, (assign_app _ _ _ _ _ (deref_hole fr _ Hf)), assign_hole by done.
    cbn [assign frame_json plug extend]. f_equal. f_equal.
    apply map_at_assign. by apply Forall_cons in Ho as [Ho _].
Qed.

Lemma dom_put v fr d : ready fr → root d = plug v fr → ref_stack d = pointers fr → errored d = false →
  Forall frame_ordered fr → Forall filled fr → dom_rep (put v fr) d.
Proof.
  intros Hready Hr Hs He Ho Hf. split; [by destruct fr as [|[l|m [k|]] fr]|].
  destruct fr as [|[l|m [k|]] fr]; cbn [put]; [by split|..|done];
    apply Forall_cons in Ho as [Ho Hos], Hf as [_ Hf]; cbn [plug extend] in Hr;
    (split_and!; [done|done|constructor; [|done]|done|done]); [done|by apply map_insert_ordered].
Qed.

#[global] Instance dom_builder max_size allow_exceptions : Builder (DomParser.sax max_size allow_exceptions).
Proof.
  refine {| rep := dom_rep; failed := λ d, errored d = true; throws := allow_exceptions |}.
  - intros v ev fr d Hev Hready Hd.
    destruct (dom_handle v fr d Hready Hd) as (d' & Hh & Hr & Hs & He & Ho & Hf).
    exists d'. split; [|by apply dom_put].
    destruct Hev; cbn; unfold null, boolean, number_integer, number_unsigned, number_float, string,
      handle_scalar; by rewrite Hh.
  - intros fr d Hready Hd.
    destruct (dom_handle (JArray []) fr d Hready Hd) as (d' & Hh & Hr & Hs & He & Ho & Hf).
    exists (push (hole fr) d'). cbn. unfold start_array. rewrite Hh. split; [done|].
    split; [done|]. cbn [push root ref_stack object_element errored]. rewrite Hs.
    split_and!; [done|done|by constructor|done|done].
  - intros l fr d Hready Hd. pose proof (dom_back _ _ _ Hd) as Hb. destruct Hd as (He & Hr & Hs & Ho & Hf & _).
    exists (pop d). cbn. unfold end_array. rewrite Hb. split; [done|].
    apply dom_put; try done; [cbn; by rewrite Hs|by apply Forall_cons in Ho as [_ Ho]].
  - intros fr d Hready Hd.
    destruct (dom_handle (JObject []) fr d Hready Hd) as (d' & Hh & Hr & Hs & He & Ho & Hf).
    exists (push (hole fr) d'). cbn. unfold start_object. rewrite Hh. split; [done|].
    split; [done|]. cbn [push root ref_stack object_element errored]. rewrite Hs.
    split_and!; [done|done|constructor; [constructor|done]|done|done].
  - intros m k fr d Hd. pose proof (dom_back _ _ _ Hd) as Hb. destruct Hd as (He & Hr & Hs & Ho & Hf & _).
    eexists. cbn. unfold key. rewrite Hb. cbn [mbind outcome_bind frame_json]. split; [done|].
    split; [done|]. cbn [root ref_stack object_element errored]. rewrite Hr, assign_hole by done.
    apply Forall_cons in Ho as [Ho1 Ho2]. split_and!; [done|exact Hs|by constructor|done|done].
  - intros m fr d Hready Hd. pose proof (dom_back _ _ _ Hd) as Hb. destruct Hd as (He & Hr & Hs & Ho & Hf & _).
    exists (pop d). cbn. unfold end_object. rewrite Hb. split; [done|].
    apply dom_put; try done; [cbn; by rewrite Hs|by apply Forall_cons in Ho as [_ Ho]].
  - intros n text ex d. cbn. unfold parse_error. destruct allow_exceptions; [done|]. by eexists.
Defined.
