(* ===== verification/JsonParserSpec.v ===== *)
(** * What the parser accepts

    For every handler of the class [Builder]: the parser always ends, its assertions
    hold, what it builds is the value that the grammar gives to the text it has read,
    and it accepts every text of the grammar. *)

From S2P Require Import Prelude Float Dtoa Json Utf8 JsonText JsonRead JsonLexer JsonParser.
From S2P Require Import JsonGrammar JsonLexerSpec JsonTokenSpec JsonBuild.
From Stdlib Require Import Strings.Byte.

Open Scope Z_scope.
Import Lexer Parser.

(** ** The text of open containers *)

Section texts.
Context (gap : bytes → Prop) (trailing : bool).
Context (gap_nil : gap []) (gap_app : ∀ w w', gap w → gap w' → gap (w ++ w')).

Abbreviation value_text := (value_text gap trailing).
Abbreviation elements_text := (elements_text gap trailing).
Abbreviation members_text := (members_text gap trailing).

(** Nothing yet, or elements and the comma after them. *)
Definition array_prefix (t : bytes) (l : list json) : Prop :=
  (t = [] ∧ l = []) ∨ ∃ t', elements_text t' l ∧ t = t' ++ [x2c].
Definition object_prefix (t : bytes) (m : list (bytes * json)) : Prop :=
  (t = [] ∧ m = []) ∨ ∃ t', members_text t' m ∧ t = t' ++ [x2c].

(** The text up to where the next value begins. *)
Inductive opened : bytes → list frame → Prop :=
| opened_top : opened [] []
| opened_array pre fr w t l : opened pre fr → gap w → array_prefix t l →
    opened (pre ++ w ++ [x5b] ++ t) (FArray l :: fr)
| opened_object pre fr w t m w1 k key w2 : opened pre fr → gap w → object_prefix t m →
    gap w1 → string_text k key → gap w2 →
    opened (pre ++ w ++ [x7b] ++ t ++ w1 ++ k ++ w2 ++ [x3a]) (FObject m (Some key) :: fr).

(** The text up to the end of a value. *)
Inductive valued : bytes → building → Prop :=
| valued_done w t j : gap w → value_text t j → valued (w ++ t) (Done j)
| valued_array pre fr w t l : opened pre fr → gap w → elements_text t l →
    valued (pre ++ w ++ [x5b] ++ t) (Open (FArray l :: fr))
| valued_object pre fr w t m : opened pre fr → gap w → members_text t m →
    valued (pre ++ w ++ [x7b] ++ t) (Open (FObject m None :: fr)).

Lemma opened_ready pre fr : opened pre fr → ready fr.
Proof. by destruct 1. Qed.

Lemma value_put pre fr w t j : opened pre fr → gap w → value_text t j → valued (pre ++ w ++ t) (put j fr).
Proof.
  intros Ho Hw Ht. destruct Ho as [|pre fr w0 t0 l Ho Hw0 Hp|pre fr w0 t0 m w1 k key w2 Ho Hw0 Hp Hw1 Hk Hw2];
    cbn [put]; rewrite <- ?app_assoc.
  - by apply (valued_done w t j).
  - apply valued_array; [done..|]. destruct Hp as [[-> ->]|(t' & Hp & ->)].
    + pose proof (elements_one gap trailing w t j [] Hw Ht gap_nil) as H. by rewrite app_nil_r in H.
    + pose proof (elements_snoc gap trailing t' l w t j [] Hp Hw Ht gap_nil) as H.
      rewrite app_nil_r in H. by rewrite <- app_assoc.
  - apply valued_object; [done..|]. destruct Hp as [[-> ->]|(t' & Hp & ->)].
    + pose proof (members_one gap trailing w1 k key w2 w t j [] Hw1 Hk Hw2 Hw Ht gap_nil) as H.
      by rewrite app_nil_r in H.
    + pose proof (members_snoc gap trailing t' m w1 k key w2 w t j [] Hp Hw1 Hk Hw2 Hw Ht gap_nil) as H.
      rewrite app_nil_r in H. by rewrite <- app_assoc.
Qed.

Lemma elements_gap t l w : elements_text t l → gap w → elements_text (t ++ w) l.
Proof.
  intros [w0 t0 j w' H1 H2 H3|s l0 w0 t0 j w' H0 H1 H2 H3] Hw; rewrite <- !app_assoc;
    [apply elements_one|apply elements_snoc]; auto.
Qed.

Lemma members_gap t m w : members_text t m → gap w → members_text (t ++ w) m.
Proof.
  intros [w1 k key w2 w3 t0 j w' H1 H2 H3 H4 H5 H6|s m0 w1 k key w2 w3 t0 j w' H0 H1 H2 H3 H4 H5 H6] Hw;
    rewrite <- !app_assoc; [apply members_one|apply members_snoc]; auto.
Qed.

(** Closing an open container. *)
Lemma close_array pre fr w t l w' : opened pre fr → gap w → elements_text t l → gap w' →
  valued (pre ++ w ++ [x5b] ++ t ++ w' ++ [x5d]) (put (JArray l) fr).
Proof.
  intros Ho Hw Ht Hw'. rewrite (app_assoc t). apply value_put; [done..|].
  by apply text_array, elements_gap.
Qed.

Lemma close_object pre fr w t m w' : opened pre fr → gap w → members_text t m → gap w' →
  valued (pre ++ w ++ [x7b] ++ t ++ w' ++ [x7d]) (put (JObject m) fr).
Proof.
  intros Ho Hw Ht Hw'. rewrite (app_assoc t). apply value_put; [done..|].
  by apply text_object, members_gap.
Qed.

Lemma close_array_trailing pre fr w t l w1 w2 : trailing = true → opened pre fr → gap w →
  elements_text t l → gap w1 → gap w2 →
  valued (pre ++ w ++ [x5b] ++ t ++ w1 ++ [x2c] ++ w2 ++ [x5d]) (put (JArray l) fr).
Proof.
  intros Htr Ho Hw Ht Hw1 Hw2. rewrite (app_assoc t). apply value_put; [done..|].
  by apply text_array_trailing; [done|apply elements_gap|done].
Qed.

Lemma close_object_trailing pre fr w t m w1 w2 : trailing = true → opened pre fr → gap w →
  members_text t m → gap w1 → gap w2 →
  valued (pre ++ w ++ [x7b] ++ t ++ w1 ++ [x2c] ++ w2 ++ [x7d]) (put (JObject m) fr).
Proof.
  intros Htr Ho Hw Ht Hw1 Hw2. rewrite (app_assoc t). apply value_put; [done..|].
  by apply text_object_trailing; [done|apply members_gap|done].
Qed.

End texts.

(** Whether the containers are arrays: the stack [states]. *)
Definition kind (f : frame) : bool := match f with FArray _ => true | FObject _ _ => false end.
Definition kinds (b : building) : list bool := match b with Done _ => [] | Open fr => kind <$> fr end.

Section machine.
Context (ignore_comments ignore_trailing_commas : bool) (point : byte) (Hpoint : point_ok point).
Context {S : Type} (sax : Sax.t S) `{!Builder sax}.

Abbreviation gap := (gap ignore_comments).
Abbreviation holds := (holds point).
Abbreviation opened := (opened gap ignore_trailing_commas).
Abbreviation valued := (valued gap ignore_trailing_commas).
Abbreviation get_token := (get_token ignore_comments point).
Abbreviation iteration := (iteration ignore_comments ignore_trailing_commas point sax).
Abbreviation state_evaluation := (state_evaluation ignore_comments ignore_trailing_commas point sax).
Abbreviation parse_value := (parse_value ignore_comments point sax).
Abbreviation parse_member := (parse_member ignore_comments point sax).

Lemma gap_nil : gap [].
Proof. by intros _. Qed.
Lemma gap_app w w' : gap w → gap w' → gap (w ++ w').
Proof. intros H1 H2 Hic. apply Forall_app. auto. Qed.

(** ** Tokens of the parser *)

Definition ok (p : t) : Prop := wf (m_lexer p) ∧ (0 < total (m_lexer p))%nat.
Abbreviation rest p := (pending (m_lexer p)).

(** The last token begins, after white space, where the text [pre] ends. *)
Definition at_token (input pre : bytes) (p : t) : Prop :=
  ok p ∧
  (last_token p = parse_error ∨
   (last_token p = end_of_input ∧
    ∃ w e, gap w ∧ (ignore_comments = false → at_end e) ∧ input = pre ++ w ++ e) ∨
   ∃ tk text w, spells tk text ∧ holds tk (last_token p) (m_lexer p) ∧ gap w ∧
     input = pre ++ w ++ text ++ rest p).

Definition terminal (t : token_type) : bool := bool_decide (t = parse_error ∨ t = end_of_input).

(** Less of the input is left, strictly so after a token. *)
Definition shorter (p p' : t) : Prop :=
  (length (rest p') ≤ length (rest p))%nat ∧
  (terminal (last_token p') = false → (length (rest p') < length (rest p))%nat).

Lemma get_token_spec input pre p : ok p → input = pre ++ rest p →
  ∃ p', get_token p = Val p' ∧ at_token input pre p' ∧ shorter p p'.
Proof.
  intros [Hw Hn] Hi. unfold Parser.get_token. rewrite scan_later by done.
  destruct (scan_body_total ignore_comments point Hpoint (m_lexer p) Hw) as (t & l & -> & W & N & L & H).
  cbn [mbind outcome_bind]. eexists. split; [done|]. split; [|split; [done|]].
  2: { cbn [last_token m_lexer]. intros Ht%bool_decide_eq_false.
       destruct H as [H|[[H _]|(tk & text & w & Hs & _ & _ & Hp)]]; [tauto..|].
       apply spells_nonempty in Hs. rewrite Hp, !length_app. destruct text; [done|]. simpl. lia. }
  split; [done|]. destruct H as [H|[(Ht & w & e & Hg & He & Hp)|(tk & text & w & Hs & Hh & Hg & Hp)]]; cbn [last_token m_lexer].
  - by left.
  - right; left. split; [done|]. exists w, e. split_and!; [done..|]. by rewrite Hi, Hp.
  - right; right. exists tk, text, w. split_and!; [done..|]. by rewrite Hi, Hp.
Qed.

(** By token type: its text and value. *)
Definition token_text (t : token_type) (l : lexer) (text : bytes) : Prop :=
  match t with
  | value_string => string_text text (get_string point l)
  | value_integer => ∃ n, numeral_ok n ∧ text = numeral_text n ∧ numeral_value n = JInteger (number_integer l)
  | value_unsigned => ∃ n, numeral_ok n ∧ text = numeral_text n ∧ numeral_value n = JUnsigned (number_unsigned l)
  | value_float => ∃ n, numeral_ok n ∧ text = numeral_text n ∧ numeral_value n = JFloat (number_float l)
  | t => fixed_text t = Some text
  end.

Lemma token_text_spec tk text t l : spells tk text → holds tk t l → token_text t l text.
Proof.
  destruct tk as [t'|v|n]; simpl.
  - intros Hs ->. by destruct t'.
  - by intros Hs [-> <-].
  - intros [Hn ->] Ht. unfold number_token in Ht.
    destruct (numeral_value n) eqn:Hv; try done; destruct Ht as [-> <-]; by exists n.
Qed.

(** A token that is neither an error nor the end has a text. *)
Lemma at_token_text input pre p : at_token input pre p → terminal (last_token p) = false →
  ∃ w text, gap w ∧ token_text (last_token p) (m_lexer p) text ∧ text ≠ [] ∧
    input = (pre ++ w ++ text) ++ rest p.
Proof.
  intros (_ & H) Ht%bool_decide_eq_false. destruct H as [H|[[H _]|(tk & text & w & Hs & Hh & Hg & Hi)]];
    [tauto..|]. exists w, text. split_and!; [done|by eapply token_text_spec|by eapply spells_nonempty|].
  by rewrite Hi, <- !app_assoc.
Qed.

(** The measure: characters to come, and whether the last token goes on. *)
Definition weight (p : t) : nat := length (rest p) + if terminal (last_token p) then 0 else 1.

(** ** Errors *)

(** The way of a parse that fails. *)
Definition fails (m : outcome (flow (S := S))) : Prop :=
  if throws then ∃ what, m = Throw what
  else ∃ p s, m = Val (Ret false p s) ∧ failed s ∧ ok p.

Lemma report_fails ex p s : ok p → fails (return_error (report sax ex p s)).
Proof.
  intros Hok. unfold fails, return_error, report.
  pose proof (build_error (total (m_lexer p)) (get_token_string (m_lexer p)) ex s) as H.
  destruct throws.
  - unfold total in H. rewrite H. by eexists.
  - destruct H as (s' & H & Hf). unfold total in H. rewrite H. by eexists _, _.
Qed.

Lemma syntax_error_fails e c p s : ok p → fails (return_error (syntax_error sax e c p s)).
Proof. apply report_fails. Qed.

(** ** The invariant *)

Inductive inv (input : bytes) : bool → list bool → t → S → Prop :=
| inv_token pre fr states p s : opened pre fr → rep (Open fr) s → states = kind <$> fr →
    at_token input pre p → inv input false states p s
| inv_value pre b states p s : valued pre b → rep b s → states = kinds b → ok p →
    input = pre ++ rest p → terminal (last_token p) = false → inv input true states p s.

(** What an iteration from weight [n] does: ends with a value, fails, or goes on
    from a smaller weight. *)
Definition advances (input : bytes) (n : nat) (m : outcome flow) : Prop :=
  (∃ p s pre j, m = Val (Ret true p s) ∧ valued pre (Done j) ∧ rep (Done j) s ∧ ok p ∧ input = pre ++ rest p) ∨
  fails m ∨
  ∃ skip states p s, m = Val (ContinueLoop skip states p s) ∧ inv input skip states p s ∧ (weight p < n)%nat.

Lemma advances_syntax_error input n e c p s : ok p → advances input n (return_error (syntax_error sax e c p s)).
Proof. intros H. right; left. by apply syntax_error_fails. Qed.

(** Reading on after the token [p] stands at. *)
Lemma next_token input pre p : at_token input pre p → terminal (last_token p) = false →
  ∃ w text, gap w ∧ token_text (last_token p) (m_lexer p) text ∧
    ∃ p', get_token p = Val p' ∧ at_token input (pre ++ w ++ text) p' ∧ shorter p p'.
Proof.
  intros Ha Ht. destruct (at_token_text input pre p Ha Ht) as (w & text & Hg & Htx & Hne & Hi).
  exists w, text. split_and!; [done..|]. apply get_token_spec; [by destruct Ha|done].
Qed.

Lemma terminal_not t : t ≠ parse_error → t ≠ end_of_input → terminal t = false.
Proof. intros H1 H2. apply bool_decide_eq_false. tauto. Qed.

Lemma weight_bound p n : (length (rest p) < n)%nat → (weight p ≤ n)%nat.
Proof. unfold weight. destruct (terminal _); lia. Qed.

(** ** Soundness of an iteration *)

Lemma kinds_put v fr : ready fr → kinds (put v fr) = kind <$> fr.
Proof. by destruct fr as [|[l|m [k|]] fr]. Qed.

(** The value of a finished container. *)
Definition container (f : frame) : json :=
  match f with FArray l => JArray l | FObject m _ => JObject m end.
Definition closing (f : frame) : byte := match f with FArray _ => x5d | FObject _ _ => x7d end.
Definition close_token (f : frame) : token_type := match f with FArray _ => end_array | FObject _ _ => end_object end.
Definition closable (f : frame) : Prop := match f with FObject _ (Some _) => False | _ => True end.

Lemma build_end f fr s : closable f → ready fr → rep (Open (f :: fr)) s →
  ∃ s', (if kind f then Sax.end_array sax s else Sax.end_object sax s) = Val (true, s') ∧
    rep (put (container f) fr) s'.
Proof.
  intros Hc Hr Hs. destruct f as [l|m [k|]]; simpl in *; [by apply build_end_array|done|by apply build_end_object].
Qed.

Lemma close_container_spec input pre f fr p s n : closable f → ready fr → rep (Open (f :: fr)) s →
  at_token input pre p → (length (rest p) < n)%nat →
  (last_token p = close_token f → (1 + length (rest p) < n)%nat) →
  (∀ w, gap w → valued (pre ++ w ++ [closing f]) (put (container f) fr)) →
  advances input n (close_container sax (kind f) (kind f :: (kind <$> fr)) p s).
Proof.
  intros Hc Hr Hs Ha Hn Hn' Hv. unfold close_container.
  assert ((if kind f then end_array else end_object) = close_token f) as -> by by destruct f.
  case_decide as Ht; [|apply advances_syntax_error; by destruct Ha].
  destruct (build_end f fr s Hc Hr Hs) as (s' & Hev & Hs'). unfold event. rewrite Hev.
  cbn [mbind outcome_bind tail]. right; right. eexists _, _, _, _. split; [done|].
  assert (Htm : terminal (last_token p) = false) by (rewrite Ht; by destruct f).
  destruct (at_token_text input pre p Ha Htm) as (w & text & Hg & Htx & _ & Hi).
  assert (text = [closing f]) as -> by (rewrite Ht in Htx; destruct f; by injection Htx as <-).
  split; [|unfold weight; rewrite Htm; specialize (Hn' Ht); lia].
  eapply inv_value; [by apply Hv|done|by rewrite kinds_put|by destruct Ha|done|done].
Qed.

(** A member from its key on. *)
Lemma parse_member_spec input pre fr w t m p s n : opened pre fr → gap w →
  object_prefix gap ignore_trailing_commas t m → rep (Open (FObject m None :: fr)) s →
  at_token input (pre ++ w ++ [x7b] ++ t) p → (length (rest p) < n)%nat →
  advances input n (parse_member (false :: (kind <$> fr)) p s).
Proof.
  intros Ho Hw Hp Hs Ha Hn. unfold Parser.parse_member.
  case_decide as Ht; [|apply advances_syntax_error; by destruct Ha].
  destruct (build_key m (get_string point (m_lexer p)) fr s Hs) as (s' & Hev & Hs').
  unfold event. rewrite Hev. cbn [mbind outcome_bind].
  destruct (next_token input _ p Ha) as (w1 & k & Hg1 & Hk & p1 & -> & Ha1 & Hl1 & _); [by rewrite Ht|].
  cbn [mbind outcome_bind]. rewrite Ht in Hk. cbn [token_text] in Hk.
  case_decide as Hc; [|apply advances_syntax_error; by destruct Ha1].
  destruct (next_token input _ p1 Ha1) as (w2 & colon & Hg2 & Hcol & p2 & -> & Ha2 & Hl2 & Hlt2); [by rewrite Hc|].
  cbn [mbind outcome_bind]. rewrite Hc in Hcol. injection Hcol as <-.
  right; right. eexists _, _, _, _. split; [done|]. split.
  - eapply (inv_token input _ (FObject m (Some (get_string point (m_lexer p))) :: fr)); [|exact Hs'|done|].
    + by apply opened_object with (w := w) (t := t) (w1 := w1) (k := k) (w2 := w2).
    + revert Ha2. by rewrite <- !app_assoc.
  - unfold weight. destruct (terminal (last_token p2)) eqn:Htm; [lia|]. specialize (Hlt2 eq_refl). lia.
Qed.

Lemma state_evaluation_spec input pre b p s n : valued pre b → rep b s → ok p → input = pre ++ rest p →
  (length (rest p) < n)%nat → advances input n (state_evaluation (kinds b) p s).
Proof.
  intros Hv Hs Hok Hi Hn. destruct Hv as [w t j Hw Ht|pre fr w t l Ho Hw Ht|pre fr w t m Ho Hw Ht];
    cbn [kinds fmap list_fmap kind state_evaluation].
  { left. exists p, s, (w ++ t), j. split_and!; [done|by apply valued_done|done..]. }
  all: destruct (get_token_spec input _ p Hok Hi) as (p1 & -> & Ha1 & Hl1 & Hlt1); cbn [mbind outcome_bind].
  all: pose proof (opened_ready _ _ _ _ Ho) as Hready.
  - destruct (decide (last_token p1 = value_separator)) as [Hc|Hc].
    + destruct (next_token input _ p1 Ha1) as (w1 & comma & Hg1 & Hcom & p2 & -> & Ha2 & Hl2 & Hlt2); [by rewrite Hc|].
      cbn [mbind outcome_bind]. rewrite Hc in Hcom, Hlt1. injection Hcom as <-. specialize (Hlt1 eq_refl).
      destruct (ignore_trailing_commas && _) eqn:Htr.
      * apply andb_true_iff in Htr as [Htr Hend%bool_decide_eq_true].
        eapply (close_container_spec input _ (FArray l)); [done|done|done|exact Ha2|lia| |].
        -- intros _. rewrite Hend in Hlt2. specialize (Hlt2 eq_refl). lia.
        -- intros w' Hw'. rewrite <- !app_assoc. by apply (close_array_trailing _ _ gap_nil gap_app).
      * right; right. eexists _, _, _, _. split; [done|]. split.
        -- eapply (inv_token input _ (FArray l :: fr)); [|exact Hs|done|exact Ha2].
           rewrite <- !app_assoc. apply opened_array; [done..|]. right. exists (t ++ w1).
           split; [by apply (elements_gap _ _ gap_app)|by rewrite <- app_assoc].
        -- unfold weight. destruct (terminal (last_token p2)) eqn:Htm; [lia|]. specialize (Hlt2 eq_refl). lia.
    + eapply (close_container_spec input _ (FArray l)); [done|done|done|exact Ha1|lia| |].
      * intros Hend. rewrite Hend in Hlt1. specialize (Hlt1 eq_refl). lia.
      * intros w' Hw'. rewrite <- !app_assoc. by apply (close_array _ _ gap_nil gap_app).
  - destruct (decide (last_token p1 = value_separator)) as [Hc|Hc].
    + destruct (next_token input _ p1 Ha1) as (w1 & comma & Hg1 & Hcom & p2 & -> & Ha2 & Hl2 & Hlt2); [by rewrite Hc|].
      cbn [mbind outcome_bind]. rewrite Hc in Hcom, Hlt1. injection Hcom as <-. specialize (Hlt1 eq_refl).
      destruct (ignore_trailing_commas && _) eqn:Htr.
      * apply andb_true_iff in Htr as [Htr Hend%bool_decide_eq_true].
        eapply (close_container_spec input _ (FObject m None)); [done|done|done|exact Ha2|lia| |].
        -- intros _. rewrite Hend in Hlt2. specialize (Hlt2 eq_refl). lia.
        -- intros w' Hw'. rewrite <- !app_assoc. by apply (close_object_trailing _ _ gap_nil gap_app).
      * eapply (parse_member_spec input pre fr w (t ++ w1 ++ [x2c])); [done|done| |done| |lia].
        -- right. exists (t ++ w1). split; [by apply (members_gap _ _ gap_app)|by rewrite <- app_assoc].
        -- revert Ha2. by rewrite <- !app_assoc.
    + eapply (close_container_spec input _ (FObject m None)); [done|done|done|exact Ha1|lia| |].
      * intros Hend. rewrite Hend in Hlt1. specialize (Hlt1 eq_refl). lia.
      * intros w' Hw'. rewrite <- !app_assoc. by apply (close_object _ _ gap_nil gap_app).
Qed.

(** The value that a token other than a bracket stands for. *)
Definition scalar_of (t : token_type) (l : lexer) : option json :=
  match t with
  | literal_null => Some JNull
  | literal_true => Some (JBoolean true)
  | literal_false => Some (JBoolean false)
  | value_string => Some (JString (get_string point l))
  | value_integer => Some (JInteger (number_integer l))
  | value_unsigned => Some (JUnsigned (number_unsigned l))
  | value_float => if Dtoa.isfinite (number_float l) then Some (JFloat (number_float l)) else None
  | _ => None
  end.

Lemma scalar_text t l v text : scalar_of t l = Some v → token_text t l text →
  value_text gap ignore_trailing_commas text v.
Proof.
  assert (Hnum : ∀ n, numeral_ok n → numeral_value n = v → representable v →
    value_text gap ignore_trailing_commas (numeral_text n) v).
  { intros n Hn <- Hr. by apply text_number. }
  destruct t; try discriminate; cbn [scalar_of token_text]; intros Hv Ht.
  1-3: injection Hv as <-; injection Ht as <-; constructor.
  - injection Hv as <-. by apply text_string.
  - injection Hv as <-. destruct Ht as (n & Hn & -> & He). by apply Hnum.
  - injection Hv as <-. destruct Ht as (n & Hn & -> & He). by apply Hnum.
  - destruct Ht as (n & Hn & -> & He). destruct (Dtoa.isfinite (number_float l)) eqn:Hf; [|done].
    injection Hv as <-. by apply Hnum.
Qed.

Lemma event_break m states p (s' : S) : m = Val (true, s') →
  event m p (λ s, Val (Break states p s)) = Val (Break (S := S) states p s').
Proof. by intros ->. Qed.

(** A scalar is handed to its event. *)
Lemma parse_scalar states p s fr v : scalar_of (last_token p) (m_lexer p) = Some v → ready fr →
  rep (Open fr) s → ∃ s', parse_value states p s = Val (Break states p s') ∧ rep (put v fr) s'.
Proof.
  intros Hv Hr Hs. unfold Parser.parse_value.
  assert (H : ∀ ev, scalar_event sax v ev → ∃ s', ev s = Val (true, s') ∧ rep (put v fr) s')
    by (intros ev Hev; by apply build_scalar).
  destruct (last_token p); try discriminate Hv; cbn [scalar_of] in Hv;
    try (destruct (Dtoa.isfinite _); [|done]); injection Hv as <-;
    (edestruct H as (s' & He & Hs'); [constructor|]; exists s'; split; [by apply event_break|done]).
Qed.

Lemma iteration_break states p s p' s' : parse_value states p s = Val (Break states p' s') →
  iteration false states p s = state_evaluation states p' s'.
Proof. intros H. unfold Parser.iteration. by rewrite H. Qed.

Lemma iteration_advances input n states p s : advances input n (parse_value states p s) →
  advances input n (iteration false states p s).
Proof.
  intros H. unfold Parser.iteration.
  enough ((f ← parse_value states p s; match f with Break st p s => state_evaluation st p s | f => Val f end)
    = parse_value states p s) as -> by done.
  destruct H as [(p' & s' & pre & j & -> & _)|[H|(sk & st & p' & s' & -> & _)]]; [done| |done].
  unfold fails in H. destruct throws; [destruct H as [what ->]|destruct H as (p' & s' & -> & _)]; done.
Qed.

(** A bracket and the token after it. *)
Lemma parse_value_array st p s s' p1 : last_token p = begin_array →
  Sax.start_array sax Sax.unknown_size s = Val (true, s') → get_token p = Val p1 →
  parse_value st p s =
    if decide (last_token p1 = end_array) then event (Sax.end_array sax s') p1 (λ s, Val (Break st p1 s))
    else Val (ContinueLoop false (true :: st) p1 s').
Proof.
  intros Ht He Hg. unfold Parser.parse_value, event. rewrite Ht, He. cbn [mbind outcome_bind]. by rewrite Hg.
Qed.

Lemma parse_value_object st p s s' p1 : last_token p = begin_object →
  Sax.start_object sax Sax.unknown_size s = Val (true, s') → get_token p = Val p1 →
  parse_value st p s =
    if decide (last_token p1 = end_object) then event (Sax.end_object sax s') p1 (λ s, Val (Break st p1 s))
    else parse_member (false :: st) p1 s'.
Proof.
  intros Ht He Hg. unfold Parser.parse_value, event. rewrite Ht, He. cbn [mbind outcome_bind]. by rewrite Hg.
Qed.

(** A container that is closed at once. *)
Lemma iteration_empty input pre fr w f open p p1 s s1 : opened pre fr → gap w → closable f → rep (Open (f :: fr)) s1 →
  (∀ w', gap w' → value_text gap ignore_trailing_commas ([open] ++ w' ++ [closing f]) (container f)) →
  parse_value (kind <$> fr) p s =
    event (if kind f then Sax.end_array sax s1 else Sax.end_object sax s1) p1 (λ s, Val (Break (kind <$> fr) p1 s)) →
  at_token input (pre ++ w ++ [open]) p1 → last_token p1 = close_token f → (length (rest p1) < weight p)%nat →
  advances input (weight p) (iteration false (kind <$> fr) p s).
Proof.
  intros Ho Hg Hc Hs1 Htext Hpv Ha1 Hend Hlt. pose proof (opened_ready _ _ _ _ Ho) as Hready.
  destruct (build_end f fr s1 Hc Hready Hs1) as (s2 & He2 & Hs2).
  rewrite (event_break _ _ _ _ He2) in Hpv. rewrite (iteration_break _ _ _ _ _ Hpv).
  destruct (at_token_text input _ p1 Ha1) as (w1 & text & Hg1 & Htx & _ & Hi); [by rewrite Hend; destruct f|].
  assert (text = [closing f]) as -> by (rewrite Hend in Htx; destruct f; by injection Htx as <-).
  rewrite <- (kinds_put (container f) fr Hready).
  eapply state_evaluation_spec; [|done|by destruct Ha1|exact Hi|exact Hlt].
  rewrite <- !app_assoc. by apply (value_put _ _ gap_nil); [..|apply Htext].
Qed.

Lemma iteration_array input pre fr p s : opened pre fr → rep (Open fr) s → at_token input pre p →
  last_token p = begin_array → advances input (weight p) (iteration false (kind <$> fr) p s).
Proof.
  intros Ho Hs Ha Ht. pose proof (opened_ready _ _ _ _ Ho) as Hready.
  destruct (build_start_array fr s Hready Hs) as (s' & He & Hs').
  destruct (next_token input pre p Ha) as (w & text & Hg & Htx & p1 & Hget & Ha1 & Hl1 & Hlt1); [by rewrite Ht|].
  rewrite Ht in Htx. injection Htx as <-.
  pose proof (parse_value_array (kind <$> fr) p s s' p1 Ht He Hget) as Hpv.
  assert (Hwp : weight p = (1 + length (rest p))%nat) by (by unfold weight; rewrite Ht, Nat.add_comm).
  case_decide as Hend.
  - eapply (iteration_empty _ _ _ w (FArray []) x5b); try done; [|lia]. by apply text_array_empty.
  - apply iteration_advances. rewrite Hpv. right; right. eexists _, _, _, _. split; [done|]. split.
    + eapply (inv_token input _ (FArray [] :: fr)); [|done|done|exact Ha1].
      pose proof (opened_array gap ignore_trailing_commas pre fr w [] [] Ho Hg) as H.
      rewrite app_nil_r in H. apply H. by left.
    + rewrite Hwp. unfold weight. destruct (terminal (last_token p1)); [lia|]. specialize (Hlt1 eq_refl). lia.
Qed.

Lemma iteration_object input pre fr p s : opened pre fr → rep (Open fr) s → at_token input pre p →
  last_token p = begin_object → advances input (weight p) (iteration false (kind <$> fr) p s).
Proof.
  intros Ho Hs Ha Ht. pose proof (opened_ready _ _ _ _ Ho) as Hready.
  destruct (build_start_object fr s Hready Hs) as (s' & He & Hs').
  destruct (next_token input pre p Ha) as (w & text & Hg & Htx & p1 & Hget & Ha1 & Hl1 & Hlt1); [by rewrite Ht|].
  rewrite Ht in Htx. injection Htx as <-.
  pose proof (parse_value_object (kind <$> fr) p s s' p1 Ht He Hget) as Hpv.
  assert (Hwp : weight p = (1 + length (rest p))%nat) by (by unfold weight; rewrite Ht, Nat.add_comm).
  case_decide as Hend.
  - eapply (iteration_empty _ _ _ w (FObject [] None) x7b); try done; [|lia]. by apply text_object_empty.
  - apply iteration_advances. rewrite Hpv. eapply (parse_member_spec input pre fr w []); [done|done|by left|done| |lia].
    rewrite app_nil_r. exact Ha1.
Qed.

(** A value that is a token. *)
Lemma iteration_scalar input pre fr p s v : opened pre fr → rep (Open fr) s → at_token input pre p →
  scalar_of (last_token p) (m_lexer p) = Some v → advances input (weight p) (iteration false (kind <$> fr) p s).
Proof.
  intros Ho Hs Ha Hv. pose proof (opened_ready _ _ _ _ Ho) as Hready.
  assert (Htm : terminal (last_token p) = false) by (destruct (last_token p); done).
  destruct (parse_scalar (kind <$> fr) p s fr v Hv Hready Hs) as (s' & Hp & Hs').
  rewrite (iteration_break _ _ _ _ _ Hp).
  destruct (at_token_text input pre p Ha Htm) as (w & text & Hg & Htx & _ & Hi).
  rewrite <- (kinds_put v fr Hready).
  eapply state_evaluation_spec; [|done|by destruct Ha|exact Hi|unfold weight; rewrite Htm; lia].
  apply (value_put _ _ gap_nil); [done..|by eapply scalar_text].
Qed.

(** Any other token is an error. *)
Lemma parse_value_fails states p s : ok p → scalar_of (last_token p) (m_lexer p) = None →
  last_token p ≠ begin_array → last_token p ≠ begin_object → fails (parse_value states p s).
Proof.
  intros Hok Hv Ha Ho. unfold Parser.parse_value.
  destruct (last_token p); try done; try (by apply syntax_error_fails).
  - cbn [scalar_of] in Hv. destruct (Dtoa.isfinite _); [done|]. by apply report_fails.
  - case_decide; [by apply report_fails|by apply syntax_error_fails].
Qed.

Lemma iteration_token input pre fr p s : opened pre fr → rep (Open fr) s → at_token input pre p →
  advances input (weight p) (iteration false (kind <$> fr) p s).
Proof.
  intros Ho Hs Ha.
  destruct (decide (last_token p = begin_array)); [by apply (iteration_array _ pre)|].
  destruct (decide (last_token p = begin_object)); [by apply (iteration_object _ pre)|].
  destruct (scalar_of (last_token p) (m_lexer p)) as [v|] eqn:Hv; [by apply (iteration_scalar _ pre _ _ _ v)|].
  apply iteration_advances. right; left. apply parse_value_fails; [by destruct Ha|done..].
Qed.

Lemma iteration_spec input skip states p s : inv input skip states p s →
  advances input (weight p) (iteration skip states p s).
Proof.
  destruct 1 as [pre fr states p s Ho Hs -> Ha|pre b states p s Hv Hs -> Hok Hi Ht].
  - by eapply iteration_token.
  - unfold Parser.iteration. cbn [mbind outcome_bind].
    eapply state_evaluation_spec; [done..|]. unfold weight. rewrite Ht. lia.
Qed.

(** ** Soundness and termination of the loop *)

(** The result of the loop: a value, with the text it was read from, or a failure. *)
Definition concludes (input : bytes) (m : outcome (bool * t * S)) : Prop :=
  (∃ p s pre j, m = Val (true, p, s) ∧ valued pre (Done j) ∧ rep (Done j) s ∧ ok p ∧ input = pre ++ rest p) ∨
  (if throws then ∃ what, m = Throw what else ∃ p s, m = Val (false, p, s) ∧ failed s ∧ ok p).

Lemma sax_loop_spec input fuel : ∀ skip states p s, inv input skip states p s → (weight p < fuel)%nat →
  concludes input (sax_loop ignore_comments ignore_trailing_commas point sax fuel skip states p s).
Proof.
  induction fuel as [|fuel IH]; intros skip states p s Hi Hf; [lia|]. cbn [sax_loop].
  destruct (iteration_spec input skip states p s Hi)
    as [(p' & s' & pre & j & -> & Hv)|[H|(sk & st & p' & s' & -> & Hi' & Hw)]]; cbn [mbind outcome_bind].
  - left. by exists p', s', pre, j.
  - right. unfold fails in H. destruct throws.
    + destruct H as [what ->]. by exists what.
    + destruct H as (p' & s' & -> & Hf' & Hok). by exists p', s'.
  - apply IH; [done|lia].
Qed.

(** The first token has been read. *)
Lemma sax_parse_internal_spec input p s : at_token input [] p → rep (Open []) s →
  concludes input (sax_parse_internal ignore_comments ignore_trailing_commas point sax p s).
Proof.
  intros Ha Hs. unfold sax_parse_internal. apply sax_loop_spec.
  - by eapply (inv_token input [] []); [constructor|..].
  - unfold weight. pose proof (pending_length (m_lexer p)). destruct (terminal _); lia.
Qed.

End machine.
