(* ===== verification/JsonParserComplete.v ===== *)
(** * What the parser finds

    The other half of [JsonParserSpec]: every text of the grammar is parsed, to the
    value the grammar gives it; then [json_parse] and [json_accept] on whole inputs. *)

From S2P Require Import Prelude Float Dtoa Json Utf8 JsonText JsonRead JsonLexer JsonParser.
From S2P Require Import JsonGrammar JsonLexerSpec JsonTokenSpec JsonBuild JsonParserSpec.
From Stdlib Require Import Strings.Byte.

Open Scope Z_scope.
Import Lexer Parser.

(** Weaker gaps admit more texts. *)
Lemma text_mono (gap gap' : bytes → Prop) trailing : (∀ w, gap w → gap' w) →
  (∀ t j, value_text gap trailing t j → value_text gap' trailing t j) ∧
  (∀ t l, elements_text gap trailing t l → elements_text gap' trailing t l) ∧
  (∀ t m, members_text gap trailing t m → members_text gap' trailing t m).
Proof. intros Hg. apply text_mutind; intros; constructor; auto. Qed.

(** ** What may follow a value *)

Lemma ends_number_byte b s : in_number b = false → ends_number (b :: s).
Proof. done. Qed.

Lemma ends_number_gap w s : blank w → ends_number s → ends_number (w ++ s).
Proof.
  intros Hw Hs. destruct w as [|b w]; [done|]. apply Forall_cons in Hw as [Hb _]. simpl.
  by destruct Hb as [->|[->|[->| ->]]].
Qed.

Section complete.
Context (ignore_comments ignore_trailing_commas : bool) (point : byte) (Hpoint : point_ok point).
Context (Hic : ignore_comments = false).
Context {S : Type} (sax : Sax.t S) `{!Builder sax}.

Abbreviation holds := (holds point).
Abbreviation get_token := (get_token ignore_comments point).
Abbreviation iteration := (iteration ignore_comments ignore_trailing_commas point sax).
Abbreviation state_evaluation := (state_evaluation ignore_comments ignore_trailing_commas point sax).
Abbreviation parse_value := (parse_value ignore_comments point sax).
Abbreviation parse_member := (parse_member ignore_comments point sax).
Abbreviation rest p := (pending (m_lexer p)).
Abbreviation value_text := (value_text blank ignore_trailing_commas).
Abbreviation elements_text := (elements_text blank ignore_trailing_commas).
Abbreviation members_text := (members_text blank ignore_trailing_commas).

(** The next token, when the byte order mark is behind. *)
Definition body_token (p : t) : outcome t :=
  '(tok, l) ← scan_body ignore_comments point (m_lexer p); Val (MkParser tok l).

Lemma get_token_body p : ok p → get_token p = body_token p.
Proof. intros [_ Hn]. unfold Parser.get_token. by rewrite scan_later. Qed.

(** The next token is found. *)
Lemma token_complete p w tk text r : wf (m_lexer p) → blank w → spells tk text → ends tk r →
  rest p = w ++ text ++ r →
  ∃ p', body_token p = Val p' ∧ ok p' ∧ rest p' = r ∧ holds tk (last_token p') (m_lexer p').
Proof.
  intros Hw Hg Hs He Hp. unfold body_token.
  destruct (scan_body_complete ignore_comments point Hpoint (m_lexer p) w tk text r Hic Hw Hg Hs He Hp)
    as (t & l & -> & W & N & P & H).
  eexists. split; [done|]. by split.
Qed.

Lemma get_token_complete p w tk text r : ok p → blank w → spells tk text → ends tk r →
  rest p = w ++ text ++ r →
  ∃ p', get_token p = Val p' ∧ ok p' ∧ rest p' = r ∧ holds tk (last_token p') (m_lexer p').
Proof. intros Hok. rewrite (get_token_body p Hok). destruct Hok. by apply token_complete. Qed.

(** Punctuation. *)
Lemma body_fixed p w t text r : fixed_text t = Some text → wf (m_lexer p) → blank w → rest p = w ++ text ++ r →
  ∃ p', body_token p = Val p' ∧ ok p' ∧ rest p' = r ∧ last_token p' = t.
Proof.
  intros Ht Hok Hg Hp. by apply (token_complete p w (Fixed t) text r Hok Hg Ht I Hp).
Qed.

Lemma get_fixed p w t text r : fixed_text t = Some text → ok p → blank w → rest p = w ++ text ++ r →
  ∃ p', get_token p = Val p' ∧ ok p' ∧ rest p' = r ∧ last_token p' = t.
Proof.
  intros Ht Hok Hg Hp. rewrite (get_token_body p Hok). destruct Hok. by apply (body_fixed p w t text r).
Qed.

(** ** Configurations of the loop *)

Record config := Config { skip : bool; states : list bool; reader : t; handler : S }.

Definition step (c : config) : outcome flow := iteration (skip c) (states c) (reader c) (handler c).
Definition goes (c c' : config) : Prop :=
  step c = Val (ContinueLoop (skip c') (states c') (reader c') (handler c')).

(** From the first token of a value, the loop comes to the evaluation of the state
    after it. *)
Definition arrives (st : list bool) (p : t) (s : S) (p' : t) (s' : S) : Prop :=
  ∃ c, rtc goes (Config false st p s) c ∧ step c = state_evaluation st p' s'.

(** Going on to another value of the same container. *)
Lemma arrives_next st p s p1 s1 p2 s2 p3 s3 : arrives st p s p1 s1 →
  state_evaluation st p1 s1 = Val (ContinueLoop false st p2 s2) → arrives st p2 s2 p3 s3 →
  arrives st p s p3 s3.
Proof.
  intros (c & Hr & Hc) He (c' & Hr' & Hc'). exists c'. split; [|done].
  etrans; [exact Hr|]. eapply rtc_l; [|exact Hr'].
  unfold goes. rewrite Hc. exact He.
Qed.

(** Leaving a container whose first token was at [p]. *)
Lemma arrives_close st st' p s p0 s0 p1 s1 p2 s2 :
  iteration false st p s = Val (ContinueLoop false st' p0 s0) → arrives st' p0 s0 p1 s1 →
  state_evaluation st' p1 s1 = Val (ContinueLoop true st p2 s2) → arrives st p s p2 s2.
Proof.
  intros Hi (c & Hr & Hc) He. exists (Config true st p2 s2). split; [|done].
  apply (rtc_l _ _ (Config false st' p0 s0)); [exact Hi|]. eapply rtc_r; [exact Hr|].
  unfold goes. rewrite Hc. exact He.
Qed.

Lemma arrives_break st p s p' s' : parse_value st p s = Val (Break st p' s') → arrives st p s p' s'.
Proof.
  intros H. eexists. split; [apply rtc_refl|]. unfold step. cbn.
  by apply iteration_break.
Qed.

Lemma iteration_continue st p s sk st' p' s' :
  parse_value st p s = Val (ContinueLoop sk st' p' s') →
  iteration false st p s = Val (ContinueLoop sk st' p' s').
Proof. intros H. unfold Parser.iteration. by rewrite H. Qed.

(** ** Values, elements and members *)

(** A token that begins a value. *)
Definition starts (t : token_type) : Prop := t ≠ end_array ∧ t ≠ end_object.

Definition value_found (t : bytes) (j : json) : Prop := ∀ w r p s st fr,
  blank w → wf (m_lexer p) → rest p = w ++ t ++ r → ends_number r → ready fr → rep (Open fr) s →
  ∃ p1 p2 s2, body_token p = Val p1 ∧ starts (last_token p1) ∧ arrives st p1 s p2 s2 ∧
    rep (put j fr) s2 ∧ ok p2 ∧ rest p2 = r.

Definition elements_found (t : bytes) (l : list json) : Prop := ∀ r p s st fr,
  wf (m_lexer p) → rest p = t ++ r → ends_number r → rep (Open (FArray [] :: fr)) s →
  ∃ p1 p2 s2, body_token p = Val p1 ∧ starts (last_token p1) ∧ arrives (true :: st) p1 s p2 s2 ∧
    rep (Open (FArray l :: fr)) s2 ∧ ok p2 ∧ ∃ w, blank w ∧ rest p2 = w ++ r.

Definition members_found (t : bytes) (m : list (bytes * json)) : Prop := ∀ r p s st fr,
  wf (m_lexer p) → rest p = t ++ r → ends_number r → rep (Open (FObject [] None :: fr)) s →
  ∃ p1 p' s' p2 s2, body_token p = Val p1 ∧ last_token p1 = value_string ∧
    parse_member (false :: st) p1 s = Val (ContinueLoop false (false :: st) p' s') ∧
    arrives (false :: st) p' s' p2 s2 ∧
    rep (Open (FObject m None :: fr)) s2 ∧ ok p2 ∧ ∃ w, blank w ∧ rest p2 = w ++ r.

Lemma scalar_found tk t j : spells tk t →
  (∀ ty l, holds tk ty l → scalar_of point ty l = Some j) → value_found t j.
Proof.
  intros Hs Hv w r p s st fr Hw Hok Hp Hr Hready Hrep.
  assert (He : ends tk r) by (by destruct tk).
  destruct (token_complete p w tk t r Hok Hw Hs He Hp) as (p1 & Hg & Hok1 & Hp1 & Hh).
  specialize (Hv _ _ Hh).
  destruct (parse_scalar ignore_comments point sax st p1 s fr j Hv Hready Hrep) as (s2 & Hpv & Hs2).
  exists p1, p1, s2. split_and!; try done; [|by apply arrives_break].
  split; intros Heq; rewrite Heq in Hv; discriminate.
Qed.

Lemma number_scalar n : numeral_ok n → representable (numeral_value n) →
  ∀ ty l, holds (Number n) ty l → scalar_of point ty l = Some (numeral_value n).
Proof.
  intros _ Hr ty l Hh. change (number_token n ty l) in Hh. unfold number_token in Hh.
  revert Hh Hr. generalize (numeral_value n) as v.
  intros v Hh Hr. destruct v; try (exfalso; exact Hh); destruct Hh as [-> Hz]; cbn [scalar_of].
  - by rewrite Hz.
  - by rewrite Hz.
  - rewrite Hz. cbn [representable] in Hr. by rewrite Hr.
Qed.

(** *** Arrays *)

Lemma array_empty_found w1 : blank w1 → value_found ([x5b] ++ w1 ++ [x5d]) (JArray []).
Proof.
  intros Hw1 w r p s st fr Hw Hok Hp Hr Hready Hs. rewrite <- !app_assoc in Hp.
  destruct (body_fixed p w begin_array [x5b] _ eq_refl Hok Hw Hp) as (p1 & Hg1 & Hok1 & Hp1 & Ht1).
  destruct (build_start_array fr s Hready Hs) as (s1 & He1 & Hs1).
  destruct (get_fixed p1 w1 end_array [x5d] r eq_refl Hok1 Hw1 Hp1) as (p2 & Hg2 & Hok2 & Hp2 & Ht2).
  destruct (build_end_array [] fr s1 Hready Hs1) as (s2 & He2 & Hs2).
  exists p1, p2, s2. split_and!; try done; [by rewrite Ht1|].
  apply arrives_break. rewrite (parse_value_array _ _ _ st p1 s s1 p2 Ht1 He1 Hg2).
  rewrite decide_True by done. by apply event_break.
Qed.

(** The bracket that ends the container, after the last value. *)
Lemma close_complete f fr st p w s text r : closable f → ready fr → rep (Open (f :: fr)) s →
  fixed_text (close_token f) = Some text → ok p → blank w → rest p = w ++ text ++ r →
  ∃ p' s', state_evaluation (kind f :: st) p s = Val (ContinueLoop true st p' s') ∧
    rep (put (container f) fr) s' ∧ ok p' ∧ rest p' = r.
Proof.
  intros Hc Hr Hs Ht Hok Hw Hp.
  destruct (get_fixed p w _ text r Ht Hok Hw Hp) as (p1 & Hg & Hok1 & Hp1 & Ht1).
  destruct (build_end sax f fr s Hc Hr Hs) as (s1 & He & Hs1).
  exists p1, s1. split_and!; [|done..]. cbn [state_evaluation]. rewrite Hg. cbn [mbind outcome_bind].
  rewrite decide_False by (rewrite Ht1; by destruct f). unfold close_container.
  rewrite decide_True by (rewrite Ht1; by destruct f). unfold event. by rewrite He.
Qed.

(** The same after a comma. *)
Lemma close_trailing_complete f fr st p w1 w2 s text r : ignore_trailing_commas = true →
  closable f → ready fr → rep (Open (f :: fr)) s →
  fixed_text (close_token f) = Some text → ok p → blank w1 → blank w2 →
  rest p = w1 ++ [x2c] ++ w2 ++ text ++ r →
  ∃ p' s', state_evaluation (kind f :: st) p s = Val (ContinueLoop true st p' s') ∧
    rep (put (container f) fr) s' ∧ ok p' ∧ rest p' = r.
Proof.
  intros Htr Hc Hr Hs Ht Hok Hw1 Hw2 Hp.
  destruct (get_fixed p w1 value_separator [x2c] _ eq_refl Hok Hw1 Hp) as (p1 & Hg1 & Hok1 & Hp1 & Ht1).
  destruct (get_fixed p1 w2 _ text r Ht Hok1 Hw2 Hp1) as (p2 & Hg2 & Hok2 & Hp2 & Ht2).
  destruct (build_end sax f fr s Hc Hr Hs) as (s1 & He & Hs1).
  exists p2, s1. split_and!; [|done..]. cbn [state_evaluation]. rewrite Hg1. cbn [mbind outcome_bind].
  rewrite decide_True by done. rewrite Hg2. cbn [mbind outcome_bind].
  rewrite Htr, bool_decide_eq_true_2 by (rewrite Ht2; by destruct f). cbn [andb]. unfold close_container.
  rewrite decide_True by (rewrite Ht2; by destruct f). unfold event. by rewrite He.
Qed.

Lemma elements_one_found w t j w' : blank w → value_found t j → blank w' → elements_found (w ++ t ++ w') [j].
Proof.
  intros Hw Ht Hw' r p s st fr Hok Hp Hr Hs. rewrite <- !app_assoc in Hp.
  destruct (Ht w (w' ++ r) p s (true :: st) (FArray [] :: fr)) as (p1 & p2 & s2 & Hg & Hst & Ha & Hs2 & Hok2 & Hp2);
    [done..|by apply ends_number_gap|done|done|].
  exists p1, p2, s2. split_and!; try done. by exists w'.
Qed.

Lemma not_closing st (p : t) : starts (last_token p) →
  ignore_trailing_commas && bool_decide (last_token p = (if st : bool then end_array else end_object)) = false.
Proof.
  intros [H1 H2]. rewrite bool_decide_eq_false_2; [by rewrite andb_false_r|]. by destruct st.
Qed.

Lemma elements_snoc_found s l w t j w' : elements_found s l → blank w → value_found t j → blank w' →
  elements_found (s ++ [x2c] ++ w ++ t ++ w') (l ++ [j]).
Proof.
  intros Hl Hw Ht Hw' r p s0 st fr Hok Hp Hr Hs. rewrite <- !app_assoc in Hp.
  destruct (Hl ([x2c] ++ w ++ t ++ w' ++ r) p s0 st fr Hok Hp) as (p1 & p2 & s2 & Hg & Hst & Ha & Hs2 & Hok2 & wa & Hwa & Hp2);
    [done|done|].
  destruct (get_fixed p2 wa value_separator [x2c] _ eq_refl Hok2 Hwa Hp2) as (p3 & Hg3 & Hok3 & Hp3 & Ht3).
  destruct (Ht w (w' ++ r) p3 s2 (true :: st) (FArray l :: fr)) as (p4 & p5 & s5 & Hg4 & Hst4 & Ha4 & Hs5 & Hok5 & Hp5);
    [done|by destruct Hok3|done|by apply ends_number_gap|done|done|].
  rewrite <- (get_token_body p3 Hok3) in Hg4.
  exists p1, p5, s5. split_and!; try done; [|by exists w'].
  eapply arrives_next; [exact Ha| |exact Ha4].
  cbn [state_evaluation]. rewrite Hg3. cbn [mbind outcome_bind]. rewrite decide_True by done.
  rewrite Hg4. cbn [mbind outcome_bind]. by rewrite (not_closing true) by done.
Qed.

(** An array whose elements are found, closed by a text that closes it. *)
Lemma array_found t l closing_text : elements_found t l →
  (∀ r, ends_number (closing_text ++ r)) →
  (∀ fr st p w s r, ready fr → rep (Open (FArray l :: fr)) s → ok p → blank w →
     rest p = w ++ closing_text ++ r →
     ∃ p' s', state_evaluation (true :: st) p s = Val (ContinueLoop true st p' s') ∧
       rep (put (JArray l) fr) s' ∧ ok p' ∧ rest p' = r) →
  value_found ([x5b] ++ t ++ closing_text) (JArray l).
Proof.
  intros Ht Hend Hclose w r p s st fr Hw Hok Hp Hr Hready Hs. rewrite <- !app_assoc in Hp.
  destruct (body_fixed p w begin_array [x5b] _ eq_refl Hok Hw Hp) as (p1 & Hg1 & Hok1 & Hp1 & Ht1).
  destruct (build_start_array fr s Hready Hs) as (s1 & He1 & Hs1).
  destruct (Ht (closing_text ++ r) p1 s1 st fr (proj1 Hok1) Hp1 (Hend r) Hs1)
    as (p2 & p3 & s3 & Hg2 & [Hst _] & Ha & Hs3 & Hok3 & wa & Hwa & Hp3).
  destruct (Hclose fr st p3 wa s3 r Hready Hs3 Hok3 Hwa Hp3) as (p4 & s4 & He & Hs4 & Hok4 & Hp4).
  exists p1, p4, s4. split_and!; try done; [by rewrite Ht1|].
  eapply arrives_close; [|exact Ha|exact He]. apply iteration_continue.
  rewrite <- (get_token_body p1 Hok1) in Hg2.
  rewrite (parse_value_array _ _ _ st p1 s s1 p2 Ht1 He1 Hg2). by rewrite decide_False.
Qed.

(** *** Objects *)

Lemma object_empty_found w1 : blank w1 → value_found ([x7b] ++ w1 ++ [x7d]) (JObject []).
Proof.
  intros Hw1 w r p s st fr Hw Hok Hp Hr Hready Hs. rewrite <- !app_assoc in Hp.
  destruct (body_fixed p w begin_object [x7b] _ eq_refl Hok Hw Hp) as (p1 & Hg1 & Hok1 & Hp1 & Ht1).
  destruct (build_start_object fr s Hready Hs) as (s1 & He1 & Hs1).
  destruct (get_fixed p1 w1 end_object [x7d] r eq_refl Hok1 Hw1 Hp1) as (p2 & Hg2 & Hok2 & Hp2 & Ht2).
  destruct (build_end_object [] fr s1 Hready Hs1) as (s2 & He2 & Hs2).
  exists p1, p2, s2. split_and!; try done; [by rewrite Ht1|].
  apply arrives_break. rewrite (parse_value_object _ _ _ st p1 s s1 p2 Ht1 He1 Hg2).
  rewrite decide_True by done. by apply event_break.
Qed.

(** A member from its key on, into an object with the members [m]. *)
Lemma member_found p w1 k key w2 w3 t j w4 r s st fr m : wf (m_lexer p) → blank w1 → string_text k key →
  blank w2 → blank w3 → value_found t j → blank w4 → ends_number r →
  rest p = w1 ++ k ++ w2 ++ [x3a] ++ w3 ++ t ++ w4 ++ r → rep (Open (FObject m None :: fr)) s →
  ∃ p1 p' s' p2 s2, body_token p = Val p1 ∧ last_token p1 = value_string ∧
    parse_member (false :: st) p1 s = Val (ContinueLoop false (false :: st) p' s') ∧
    arrives (false :: st) p' s' p2 s2 ∧
    rep (Open (FObject (map_insert key j m) None :: fr)) s2 ∧ ok p2 ∧ rest p2 = w4 ++ r.
Proof.
  intros Hok Hw1 Hk Hw2 Hw3 Ht Hw4 Hr Hp Hs.
  destruct (token_complete p w1 (Text key) k _ Hok Hw1 Hk I Hp) as (p1 & Hg1 & Hok1 & Hp1 & Ht1 & Hkey).
  destruct (get_fixed p1 w2 name_separator [x3a] _ eq_refl Hok1 Hw2 Hp1) as (p2 & Hg2 & Hok2 & Hp2 & Ht2).
  destruct (build_key m key fr s Hs) as (s1 & He1 & Hs1).
  destruct (Ht w3 (w4 ++ r) p2 s1 (false :: st) (FObject m (Some key) :: fr))
    as (p3 & p4 & s4 & Hg3 & _ & Ha & Hs4 & Hok4 & Hp4); [done|by destruct Hok2|done|by apply ends_number_gap|done|done|].
  rewrite <- (get_token_body p2 Hok2) in Hg3.
  exists p1, p3, s1, p4, s4. split_and!; try done.
  unfold Parser.parse_member. rewrite decide_True by done. unfold event. rewrite Hkey, He1.
  cbn [mbind outcome_bind]. rewrite Hg2. cbn [mbind outcome_bind]. rewrite decide_True by done.
  by rewrite Hg3.
Qed.

Lemma members_one_found w1 k key w2 w3 t j w4 : blank w1 → string_text k key → blank w2 → blank w3 →
  value_found t j → blank w4 →
  members_found (w1 ++ k ++ w2 ++ [x3a] ++ w3 ++ t ++ w4) (map_insert key j []).
Proof.
  intros Hw1 Hk Hw2 Hw3 Ht Hw4 r p s st fr Hok Hp Hr Hs. rewrite <- !app_assoc in Hp.
  destruct (member_found p w1 k key w2 w3 t j w4 r s st fr []) as (p1 & p' & s' & p2 & s2 & H1 & H2 & H3 & H4 & H5 & H6 & H7);
    [done..|]. exists p1, p', s', p2, s2. split_and!; try done. by exists w4.
Qed.

Lemma members_snoc_found s m w1 k key w2 w3 t j w4 : members_found s m → blank w1 → string_text k key →
  blank w2 → blank w3 → value_found t j → blank w4 →
  members_found (s ++ [x2c] ++ w1 ++ k ++ w2 ++ [x3a] ++ w3 ++ t ++ w4) (map_insert key j m).
Proof.
  intros Hm Hw1 Hk Hw2 Hw3 Ht Hw4 r p s0 st fr Hok Hp Hr Hs. rewrite <- !app_assoc in Hp.
  destruct (Hm ([x2c] ++ w1 ++ k ++ w2 ++ [x3a] ++ w3 ++ t ++ w4 ++ r) p s0 st fr Hok Hp)
    as (p1 & p' & s' & p2 & s2 & Hg & Hst & Hpm & Ha & Hs2 & Hok2 & wa & Hwa & Hp2); [done|done|].
  destruct (get_fixed p2 wa value_separator [x2c] _ eq_refl Hok2 Hwa Hp2) as (p3 & Hg3 & Hok3 & Hp3 & Ht3).
  destruct (member_found p3 w1 k key w2 w3 t j w4 r s2 st fr m)
    as (p4 & p5 & s5 & p6 & s6 & H1 & H2 & H3 & H4 & H5 & H6 & H7); [by destruct Hok3|done..|].
  rewrite <- (get_token_body p3 Hok3) in H1.
  exists p1, p', s', p6, s6. split_and!; try done; [|by exists w4].
  eapply arrives_next; [exact Ha| |exact H4].
  cbn [state_evaluation]. rewrite Hg3. cbn [mbind outcome_bind]. rewrite decide_True by done.
  rewrite H1. cbn [mbind outcome_bind]. by rewrite (not_closing false) by (by rewrite H2).
Qed.

Lemma object_found t m closing_text : members_found t m →
  (∀ r, ends_number (closing_text ++ r)) →
  (∀ fr st p w s r, ready fr → rep (Open (FObject m None :: fr)) s → ok p → blank w →
     rest p = w ++ closing_text ++ r →
     ∃ p' s', state_evaluation (false :: st) p s = Val (ContinueLoop true st p' s') ∧
       rep (put (JObject m) fr) s' ∧ ok p' ∧ rest p' = r) →
  value_found ([x7b] ++ t ++ closing_text) (JObject m).
Proof.
  intros Ht Hend Hclose w r p s st fr Hw Hok Hp Hr Hready Hs. rewrite <- !app_assoc in Hp.
  destruct (body_fixed p w begin_object [x7b] _ eq_refl Hok Hw Hp) as (p1 & Hg1 & Hok1 & Hp1 & Ht1).
  destruct (build_start_object fr s Hready Hs) as (s1 & He1 & Hs1).
  destruct (Ht (closing_text ++ r) p1 s1 st fr (proj1 Hok1) Hp1 (Hend r) Hs1)
    as (p2 & p' & s' & p3 & s3 & Hg2 & Hst & Hpm & Ha & Hs3 & Hok3 & wa & Hwa & Hp3).
  destruct (Hclose fr st p3 wa s3 r Hready Hs3 Hok3 Hwa Hp3) as (p4 & s4 & He & Hs4 & Hok4 & Hp4).
  exists p1, p4, s4. split_and!; try done; [by rewrite Ht1|].
  eapply arrives_close; [|exact Ha|exact He]. apply iteration_continue.
  rewrite <- (get_token_body p1 Hok1) in Hg2.
  rewrite (parse_value_object _ _ _ st p1 s s1 p2 Ht1 He1 Hg2). by rewrite decide_False by (by rewrite Hst).
Qed.

(** ** Every text of the grammar *)

Lemma text_found :
  (∀ t j, value_text t j → value_found t j) ∧ (∀ t l, elements_text t l → elements_found t l) ∧
  (∀ t m, members_text t m → members_found t m).
Proof.
  apply text_mutind.
  - apply (scalar_found (Fixed literal_null)); [done|by intros ty l ->].
  - apply (scalar_found (Fixed literal_true)); [done|by intros ty l ->].
  - apply (scalar_found (Fixed literal_false)); [done|by intros ty l ->].
  - intros t v Hs. apply (scalar_found (Text v)); [done|by intros ty l [-> <-]].
  - intros n Hn Hr. apply (scalar_found (Number n)); [done|by apply number_scalar].
  - exact array_empty_found.
  - intros t l _ H. apply array_found; [done..|]. intros fr st p w s r Hr Hs Hok Hw Hp.
    exact (close_complete (FArray l) fr st p w s [x5d] r I Hr Hs eq_refl Hok Hw Hp).
  - intros t l w Htr _ H Hw. apply (array_found t l ([x2c] ++ w ++ [x5d])); [done..|].
    intros fr st p w' s r Hr Hs Hok Hw' Hp. rewrite <- !app_assoc in Hp.
    exact (close_trailing_complete (FArray l) fr st p w' w s [x5d] r Htr I Hr Hs eq_refl Hok Hw' Hw Hp).
  - exact object_empty_found.
  - intros t m _ H. apply object_found; [done..|]. intros fr st p w s r Hr Hs Hok Hw Hp.
    exact (close_complete (FObject m None) fr st p w s [x7d] r I Hr Hs eq_refl Hok Hw Hp).
  - intros t m w Htr _ H Hw. apply (object_found t m ([x2c] ++ w ++ [x7d])); [done..|].
    intros fr st p w' s r Hr Hs Hok Hw' Hp. rewrite <- !app_assoc in Hp.
    exact (close_trailing_complete (FObject m None) fr st p w' w s [x7d] r Htr I Hr Hs eq_refl Hok Hw' Hw Hp).
  - intros w t j w' Hw _ Ht Hw'. by apply elements_one_found.
  - intros s l w t j w' _ Hl Hw _ Ht Hw'. by apply elements_snoc_found.
  - intros w1 k key w2 w3 t j w4 Hw1 Hk Hw2 Hw3 _ Ht Hw4. by apply members_one_found.
  - intros s m w1 k key w2 w3 t j w4 _ Hm Hw1 Hk Hw2 Hw3 _ Ht Hw4. by apply members_snoc_found.
Qed.

(** The loop comes to its end, or to the end of its fuel. *)
Lemma loop_goes c c' r p s : rtc goes c c' → step c' = Val (Ret r p s) → ∀ fuel,
  let m := sax_loop ignore_comments ignore_trailing_commas point sax fuel (skip c) (states c) (reader c) (handler c) in
  m = Undefined ∨ m = Val (r, p, s).
Proof.
  intros Hr Hc. induction Hr as [c|c c1 c2 Hg Hr IH]; intros [|fuel]; simpl; try by left.
  - right. unfold step in Hc. by rewrite Hc.
  - unfold goes, step in Hg. rewrite Hg. cbn [mbind outcome_bind]. by apply IH.
Qed.

End complete.
