(* ===== verification/JsonParse.v ===== *)
(** * Parsing a whole text

    [basic_json::parse] and [basic_json::accept] against the grammar: which texts
    are accepted, the value of each, what an error leads to; the type of what is
    parsed; and that a dumped value is read back. *)

From S2P Require Import Prelude Float Dtoa Json Utf8 JsonText JsonRead JsonLexer JsonParser.
From S2P Require Import JsonGrammar JsonLexerSpec JsonTokenSpec JsonBuild JsonParserSpec.
From S2P Require Import JsonParserComplete.
From Stdlib Require Import Strings.Byte.

Open Scope Z_scope.
Import Lexer Parser.

(** ** The byte order mark *)

Lemma without_bom_some s r : without_bom s = Some r →
  ∃ bom, (bom = [] ∨ bom = [xef; xbb; xbf]) ∧ s = bom ++ r.
Proof.
  unfold without_bom. case_decide as Hh; [case_decide as Ht|].
  - intros [= <-]. exists (take 3 s). split; [right; exact Ht|by rewrite take_drop].
  - done.
  - intros [= <-]. exists []. by split; [left|].
Qed.

Lemma without_bom_app bom r : bom = [] ∨ bom = [xef; xbb; xbf] → head r ≠ Some xef → without_bom (bom ++ r) = Some r.
Proof.
  intros [->| ->] Hr; [|reflexivity]. unfold without_bom. by rewrite decide_False.
Qed.

(** No text of a value begins with the mark, or is empty. *)
Lemma value_text_head gap trailing t j : value_text gap trailing t j → ∃ b s, t = b :: s ∧ token_byte b.
Proof.
  assert (Hb : ∀ b, bool_decide (token_byte b) = true → token_byte b) by (intros b; apply bool_decide_eq_true_1).
  destruct 1; try (eexists _, _; split; [reflexivity|by apply Hb]).
  - by apply (spells_head (Text v)).
  - by apply (spells_head (Number n)).
Qed.

Lemma blank_head w b s : blank w → b ≠ xef → head (w ++ b :: s) ≠ Some xef.
Proof.
  intros Hw Hb. destruct w as [|c w]; simpl; [congruence|].
  apply Forall_cons in Hw as [Hc _]. by destruct Hc as [->|[->|[->| ->]]].
Qed.

(** ** Documents *)

(** [json_document] with the comments that the option admits. *)
Definition document (ignore_comments trailing : bool) (s : bytes) (j : json) : Prop :=
  ∃ bom w t w' e, (bom = [] ∨ bom = [xef; xbb; xbf]) ∧ gap ignore_comments w ∧
    value_text (gap ignore_comments) trailing t j ∧ gap ignore_comments w' ∧
    (ignore_comments = false → at_end e) ∧ s = bom ++ w ++ t ++ w' ++ e.

Lemma gap_blank w : gap false w ↔ blank w.
Proof. split; [intros H; by apply H|by intros H _]. Qed.

Lemma document_json trailing s j : document false trailing s j ↔ json_document trailing s j.
Proof.
  split; intros (bom & w & t & w' & e & Hb & Hw & Ht & Hw' & He & ->); exists bom, w, t, w', e.
  - split_and!; [done|exact (proj1 (gap_blank w) Hw)| |exact (proj1 (gap_blank w') Hw')|by apply He|done].
    revert Ht. apply text_mono. intros v. by rewrite gap_blank.
  - split_and!; [done|by intros _| |by intros _|by intros _|done].
    revert Ht. apply text_mono. intros v. by rewrite gap_blank.
Qed.

Section parse.
Context (ignore_comments ignore_trailing_commas : bool) (point : byte) (Hpoint : point_ok point).

Abbreviation document := (document ignore_comments ignore_trailing_commas).

(** The constructor stands at the first token of the text after the mark. *)
Lemma parser_first s : ∃ p, parser ignore_comments point s = Val p ∧
  at_token ignore_comments point (default [] (without_bom s)) [] p ∧
  ∀ r, without_bom s = Some r → ∃ l, wf l ∧ pending l = r ∧
    body_token ignore_comments point (MkParser uninitialized l) = Val p.
Proof.
  unfold parser, Parser.get_token, body_token. cbn [m_lexer].
  pose proof (scan_first ignore_comments point s) as H.
  destruct (without_bom s) as [r|]; cbn [from_option id].
  - destruct H as (l & Hw & Hp & ->).
    destruct (scan_body_total ignore_comments point Hpoint l Hw) as (t & l' & He & W & N & L & H).
    rewrite He. eexists. split; [reflexivity|]. split.
    + split; [done|]. rewrite <- Hp. cbn [last_token m_lexer app].
      destruct H as [H|[[H1 H2]|(tk & text & w & Hs & Hh & Hg & Hi)]]; [by left|right; by left|].
      right; right. by exists tk, text, w.
    + intros r' [= <-]. exists l. by rewrite He.
  - destruct H as (l & -> & W & N & _). eexists. split; [reflexivity|]. split; [|done].
    split; [done|]. by left.
Qed.

Context {S : Type} (sax : Sax.t S) `{!Builder sax}.

(** After the value the parser wants the end. *)
Lemma end_document pre j p s : valued (gap ignore_comments) ignore_trailing_commas pre (Done j) →
  default [] (without_bom s) = pre ++ pending (m_lexer p) → ok p →
  ∃ p', get_token ignore_comments point p = Val p' ∧ ok p' ∧ (last_token p' = end_of_input → document s j).
Proof.
  intros Hv Hi Hok.
  destruct (get_token_spec ignore_comments point Hpoint _ pre p Hok Hi) as (p' & -> & Ha & _).
  exists p'. split; [done|]. destruct Ha as [Hok' Ha]. split; [done|]. intros Hend.
  inversion Hv as [w t j' Hw Ht| |]; subst pre j'.
  destruct (value_text_head _ _ _ _ Ht) as (b & t' & Hbt & _).
  destruct (without_bom s) as [r|] eqn:Hb; cbn [from_option id] in Hi, Ha.
  2: { exfalso. symmetry in Hi. apply app_eq_nil in Hi as [Hi _]. apply app_eq_nil in Hi as [_ Hi]. by subst t. }
  destruct (without_bom_some _ _ Hb) as (bom & Hbom & ->).
  destruct Ha as [Ha|[(_ & w' & e & Hw' & He & ->)|(tk & text & w' & Hsp & Hh & _)]].
  - by rewrite Hend in Ha.
  - exists bom, w, t, w', e. split_and!; try done. by rewrite <- !app_assoc.
  - exfalso. rewrite Hend in Hh. destruct tk as [ty|v|n]; simpl in Hh.
    + by subst.
    + by destruct Hh.
    + unfold number_token in Hh. destruct (numeral_value n); by (done || destruct Hh).
Qed.

(** The parser's loop from the start. *)
Lemma parse_concludes s s0 : rep (Open []) s0 → ∃ p, parser ignore_comments point s = Val p ∧
  concludes ignore_comments ignore_trailing_commas sax (default [] (without_bom s))
    (sax_parse_internal ignore_comments ignore_trailing_commas point sax p s0).
Proof.
  intros Hs. destruct (parser_first s) as (p & Hp & Ha & _). exists p. split; [done|].
  by apply sax_parse_internal_spec.
Qed.

(** A document is read to its end. *)
Lemma parse_completes s j s0 p : ignore_comments = false → document s j → rep (Open []) s0 →
  parser ignore_comments point s = Val p →
  ∃ p' s' p'', sax_parse_internal ignore_comments ignore_trailing_commas point sax p s0 = Val (true, p', s') ∧
    rep (Done j) s' ∧ get_token ignore_comments point p' = Val p'' ∧ last_token p'' = end_of_input.
Proof.
  intros Hic (bom & w & t & w' & e & Hbom & Hw & Ht & Hw' & He & ->) Hs Hp.
  specialize (Hw Hic). specialize (Hw' Hic). specialize (He Hic).
  destruct (value_text_head _ _ _ _ Ht) as (b & t' & Hbt & Hb & Hbx).
  assert (Hwb : without_bom (bom ++ w ++ t ++ w' ++ e) = Some (w ++ t ++ w' ++ e)).
  { apply without_bom_app; [done|]. rewrite Hbt. by apply blank_head. }
  assert (Hr : ends_number (w' ++ e)).
  { apply ends_number_gap; [done|]. destruct e as [|c e]; [done|]. destruct He as [He|He]; [done|].
    by injection He as ->. }
  destruct (parser_first (bom ++ w ++ t ++ w' ++ e)) as (p1 & Hp1 & Ha & Hbody).
  rewrite Hp in Hp1. injection Hp1 as <-. rewrite Hwb in Ha. cbn [from_option id] in Ha.
  destruct (Hbody _ Hwb) as (l & Wl & Pl & Hl).
  pose proof (proj1 (text_mono _ blank ignore_trailing_commas (λ w H, H Hic)) t j Ht) as Htx.
  destruct (proj1 (text_found ignore_comments ignore_trailing_commas point Hpoint Hic sax) t j Htx
    w (w' ++ e) (MkParser uninitialized l) s0 [] [] Hw Wl Pl Hr I Hs)
    as (p2 & p3 & s3 & Hb2 & _ & (c & Hgo & Hc) & Hs3 & Hok3 & Hp3).
  rewrite Hl in Hb2. injection Hb2 as <-.
  pose proof (sax_parse_internal_spec ignore_comments ignore_trailing_commas point Hpoint sax _ p s0 Ha Hs) as Hcl.
  unfold sax_parse_internal in *.
  destruct (loop_goes _ _ _ sax _ c true p3 s3 Hgo Hc (4 + length (ia (m_lexer p)))%nat) as [H|H];
    cbn [skip states reader handler] in H; rewrite H in Hcl |- *.
  { exfalso. destruct Hcl as [(? & ? & ? & ? & ? & _)|Hf]; [done|].
    destruct throws; [by destruct Hf as [? ?]|by destruct Hf as (? & ? & ? & _)]. }
  destruct (scan_body_end ignore_comments point (m_lexer p3) w' e Hic (proj1 Hok3) Hw' He Hp3) as (l' & He' & _).
  exists p3, s3, (MkParser end_of_input l'). split_and!; try done.
  rewrite (get_token_body _ _ p3 Hok3). unfold body_token. by rewrite He'.
Qed.

End parse.

(** ** [parse] *)

(** An error is thrown, or makes the result a discarded value. *)
Definition refused (allow_exceptions : bool) (m : outcome json) : Prop :=
  if allow_exceptions then ∃ what, m = Throw what else m = Val JDiscarded.

Section json_parse.
Context (point : byte) (Hpoint : point_ok point) (max_size : Z) (allow_exceptions : bool).
Context (ignore_comments ignore_trailing_commas : bool).

Lemma dom_start : rep (sax := DomParser.sax max_size allow_exceptions) (Open []) (DomParser.new JNull).
Proof. done. Qed.

(** An error after the value. *)
Lemma parse_end_error e c p d :
  refused allow_exceptions
    (d ← ('(_, _, d) ← syntax_error (DomParser.sax max_size allow_exceptions) e c p d; Val d);
     Val (if DomParser.errored d then JDiscarded else DomParser.root d)).
Proof.
  unfold refused, syntax_error, report.
  pose proof (build_error (Builder := dom_builder max_size allow_exceptions) (total (m_lexer p))
    (get_token_string (m_lexer p)) (Exceptions.parse_error 101 (position (m_lexer p)) (exception_message e c p)) d) as H.
  cbn [throws failed dom_builder] in H. unfold total in H. destruct allow_exceptions.
  - rewrite H. by eexists.
  - destruct H as (d' & -> & H). cbn [mbind outcome_bind]. by rewrite H.
Qed.

Lemma json_parse_cases s :
  let m := json_parse point max_size s allow_exceptions ignore_comments ignore_trailing_commas in
  (∃ j, m = Val j ∧ document ignore_comments ignore_trailing_commas s j) ∨ refused allow_exceptions m.
Proof.
  cbv zeta. unfold json_parse.
  destruct (parse_concludes ignore_comments ignore_trailing_commas point Hpoint
    (DomParser.sax max_size allow_exceptions) s (DomParser.new JNull) dom_start) as (p & -> & H).
  cbn [mbind outcome_bind]. unfold Parser.parse.
  destruct H as [(p1 & d & pre & j & -> & Hv & Hd & Hok & Hi)|H].
  - cbn [mbind outcome_bind].
    destruct (end_document ignore_comments ignore_trailing_commas point Hpoint pre j p1 s Hv Hi Hok)
      as (p2 & -> & Hok2 & Hend).
    cbn [mbind outcome_bind]. destruct Hd as (He & Hr & _). case_decide as Ht.
    + left. exists j. cbn [mbind outcome_bind]. unfold DomParser.is_errored. rewrite He, Hr.
      split; [done|by apply Hend].
    + right. by apply parse_end_error.
  - right. cbn [throws failed dom_builder] in H. destruct allow_exceptions eqn:Hex.
    + destruct H as [what ->]. by exists what.
    + destruct H as (p1 & d & -> & Hf & Hok). cbn [mbind outcome_bind].
      destruct (get_token_spec ignore_comments point Hpoint (pending (m_lexer p1)) [] p1 Hok eq_refl)
        as (p2 & -> & _). cbn [mbind outcome_bind]. case_decide.
      * cbn [mbind outcome_bind]. unfold DomParser.is_errored. by rewrite Hf.
      * rewrite <- Hex. by apply parse_end_error.
Qed.

Lemma json_parse_complete s j : ignore_comments = false → json_document ignore_trailing_commas s j →
  json_parse point max_size s allow_exceptions ignore_comments ignore_trailing_commas = Val j.
Proof.
  intros Hic Hd. unfold json_parse.
  assert (Hd' : document ignore_comments ignore_trailing_commas s j) by (subst; by apply document_json).
  destruct (parser_first ignore_comments point Hpoint s) as (p & Hp & _). rewrite Hp. cbn [mbind outcome_bind].
  destruct (parse_completes ignore_comments ignore_trailing_commas point Hpoint
    (DomParser.sax max_size allow_exceptions) s j (DomParser.new JNull) p Hic Hd' dom_start Hp)
    as (p' & d & p'' & He & (Hf & Hr & _) & Hg & Ht).
  unfold Parser.parse. rewrite He. cbn [mbind outcome_bind]. rewrite Hg. cbn [mbind outcome_bind].
  rewrite decide_True by done. cbn [mbind outcome_bind]. unfold DomParser.is_errored. by rewrite Hf, Hr.
Qed.

End json_parse.

(** ** The type of what is parsed *)

Lemma bisect_range fuel q : ∀ lo hi, lo < hi → lo ≤ bisect fuel q lo hi < hi.
Proof.
  induction fuel as [|fuel IH]; intros lo hi H; cbn [bisect]; [lia|].
  destruct (Z.leb_spec (hi - lo) 1); [lia|].
  assert (lo < (lo + hi) `div` 2 < hi) by (split; zarith).
  destruct (above _ _).
  - specialize (IH ((lo + hi) `div` 2) hi). lia.
  - specialize (IH lo ((lo + hi) `div` 2)). lia.
Qed.

Lemma read_double_range neg m x : in_unsigned 64 (read_double neg m x).
Proof.
  unfold read_double, nearest_double, in_unsigned.
  pose proof (bisect_range 63 (decimal_value m x) 0 (infinity + 1) ltac:(done)) as H.
  assert (infinity < 2 ^ 63) by done. destruct neg; lia.
Qed.

Lemma valid_utf8_encode cp : scalar cp → valid_utf8 (utf8_encode cp).
Proof. intros H. exists [cp]. split; [by constructor|]. unfold utf8_text. simpl. by rewrite app_nil_r. Qed.

Lemma short_escape_ascii c cp : short_escape c = Some cp → 0 ≤ cp < 0x80.
Proof. unfold short_escape. repeat case_match; intros [= <-]; lia. Qed.

Lemma string_char_valid t v : string_char t v → valid_utf8 v.
Proof.
  destruct 1 as [cp H _ _ _|c cp H|s cp _ H|s s' hi lo _ _ Hhi Hlo]; try (by apply valid_utf8_encode).
  - apply short_escape_ascii in H. apply valid_utf8_ascii, Forall_singleton.
    rewrite b2z_z2b, Z.mod_small; lia.
  - apply valid_utf8_encode. right. lia.
Qed.

Lemma string_text_valid t v : string_text t v → valid_utf8 v.
Proof.
  intros (body & H & _). induction H as [|c u t0 w Hc _ IH].
  - exists []. by split.
  - apply valid_utf8_app; [by eapply string_char_valid|done].
Qed.

(** Finite floats, keys in order, no bytes, no discarded value. *)
Definition parsed_node (j : json) : Prop :=
  match j with
  | JObject m => ordered m
  | JFloat bits => Dtoa.isfinite bits = true
  | JBinary _ _ | JDiscarded => False
  | _ => True
  end.

(** What holds of every value that was parsed. *)
Definition json_typed (j : json) : Prop := well_typed j ∧ utf8_value j ∧ everywhere parsed_node j.

Lemma json_typed_leaf j : match j with JObject _ | JArray _ => False | _ => True end →
  typed_node j → utf8_node j → parsed_node j → json_typed j.
Proof. destruct j; try done; intros _ H1 H2 H3; repeat split; first [exact H1|exact H2|exact H3|exact I|apply H1]. Qed.

Lemma json_typed_array l : Forall json_typed l → json_typed (JArray l).
Proof.
  intros H. split_and!; apply everywhere_array; (split; [done|]); eapply Forall_impl; try exact H; by intros j (?&?&?).
Qed.

Definition member_typed (i : bytes * json) : Prop := valid_utf8 i.1 ∧ json_typed i.2.

Lemma json_typed_object m : ordered m → Forall member_typed m → json_typed (JObject m).
Proof.
  intros Ho H. split_and!; apply everywhere_object; (split; [|eapply Forall_impl; [exact H|]; by intros i (?&?&?&?)]).
  - done.
  - eapply Forall_impl; [exact H|]. by intros i [? _].
  - done.
Qed.

Lemma map_insert_typed k v m : valid_utf8 k → json_typed v → Forall member_typed m →
  Forall member_typed (map_insert k v m).
Proof.
  intros Hk Hv Hm. apply Forall_forall. intros e He.
  destruct (map_insert_elem k v m e He) as [->|H]; [done|]. rewrite Forall_forall in Hm. by apply Hm.
Qed.

Lemma numeral_typed n : numeral_ok n → representable (numeral_value n) → json_typed (numeral_value n).
Proof.
  intros (_ & Hds & _).
  assert (Hv : 0 ≤ digits_value (int_digits n)).
  { apply digits_value_nonneg. destruct Hds as [[H _]| ->]; [done|by repeat constructor]. }
  unfold numeral_value. destruct (_ && (_ <=? _)) eqn:E1; [|destruct (_ && (_ <? _)) eqn:E2].
  - apply andb_true_iff in E1 as [_ E%Z.leb_le]. intros _.
    assert (in_signed 64 (- digits_value (int_digits n))) by (unfold in_signed; change (64 - 1) with 63; lia).
    by apply json_typed_leaf.
  - apply andb_true_iff in E2 as [_ E%Z.ltb_lt]. intros _.
    assert (in_unsigned 64 (digits_value (int_digits n))) by exact (conj Hv E).
    by apply json_typed_leaf.
  - assert (H : in_unsigned 64 (numeral_double n)) by exact (read_double_range (negative n) (numeral_mantissa n) (numeral_exponent n)).
    revert H. generalize (numeral_double n) as bits. intros bits H Hr.
    exact (json_typed_leaf (JFloat bits) I H I Hr).
Qed.

Lemma text_typed gap trailing :
  (∀ t j, value_text gap trailing t j → json_typed j) ∧
  (∀ t l, elements_text gap trailing t l → Forall json_typed l) ∧
  (∀ t m, members_text gap trailing t m → ordered m ∧ Forall member_typed m).
Proof.
  apply text_mutind; intros; try by apply json_typed_array.
  1-3: by repeat split.
  - apply json_typed_leaf; [done|done|by eapply string_text_valid|done].
  - by apply numeral_typed.
  - apply json_typed_object; constructor.
  - apply json_typed_object; tauto.
  - apply json_typed_object; tauto.
  - by apply Forall_singleton.
  - apply Forall_app. by rewrite Forall_singleton.
  - split; [apply map_insert_ordered; constructor|].
    apply map_insert_typed; [by eapply string_text_valid|done|constructor].
  - destruct H as [Ho Hm]. split; [by apply map_insert_ordered|].
    apply map_insert_typed; [by eapply string_text_valid|done..].
Qed.

(** ** [accept] *)

Lemma acceptor_rep b : rep (sax := Acceptor.sax) b ().
Proof. exact I. Qed.

(** It always answers, and says yes exactly to the documents. *)
Lemma json_accept_decides (point : byte) (s : bytes) (trailing : bool) : point_ok point →
  ∃ b, json_accept point s false trailing = Val b ∧ (b = true ↔ ∃ j, json_document trailing s j).
Proof.
  intros Hpoint. unfold json_accept.
  destruct (parse_concludes false trailing point Hpoint Acceptor.sax s () (acceptor_rep _)) as (p & Hp & H).
  rewrite Hp. cbn [mbind outcome_bind]. unfold accept, sax_parse.
  assert (Hno : ∀ m, m = Val false → (∀ j, ¬ json_document trailing s j) →
    ∃ b, m = Val b ∧ (b = true ↔ ∃ j, json_document trailing s j)).
  { intros m -> Hn. exists false. split; [done|]. split; [done|]. intros [j Hj]. by destruct (Hn j). }
  assert (Hc : ∀ j, json_document trailing s j → ∃ p' p'',
    sax_parse_internal false trailing point Acceptor.sax p () = Val (true, p', ()) ∧
    get_token false point p' = Val p'' ∧ last_token p'' = end_of_input).
  { intros j Hj. apply document_json in Hj.
    destruct (parse_completes false trailing point Hpoint Acceptor.sax s j () p eq_refl Hj (acceptor_rep _) Hp)
      as (p' & [] & p'' & He & _ & Hg & Ht). by exists p', p''. }
  destruct H as [(p1 & [] & pre & j & He & Hv & _ & Hok & Hi)|(p1 & [] & He & _)]; rewrite He; cbn [mbind outcome_bind andb].
  - destruct (end_document false trailing point Hpoint pre j p1 s Hv Hi Hok) as (p2 & Hg & _ & Hend).
    rewrite Hg. cbn [mbind outcome_bind]. case_decide as Ht.
    + exists true. split; [done|]. split; [|done]. intros _. exists j. by apply document_json, Hend.
    + apply Hno; [done|]. intros j' Hj'. destruct (Hc j' Hj') as (p' & p'' & He' & Hg' & Ht').
      rewrite He in He'. injection He' as <-. rewrite Hg in Hg'. by injection Hg' as <-.
  - apply Hno; [done|]. intros j' Hj'. destruct (Hc j' Hj') as (p' & p'' & He' & _). by rewrite He in He'.
Qed.

(** ** Theorems *)

(** C16. [basic_json::parse] and [accept] without comments against the grammar of RFC
    8259, for every input, in every locale, with or without trailing commas: [parse]
    returns [j] exactly when the input is a document that denotes [j], which is then
    the only value it denotes, and [accept] says yes; when the input is no document,
    [parse] throws, or returns a discarded value if exceptions are off, and [accept]
    says no.  In particular both always end, and none of their assertions, indices and
    pointers fails ([Undefined]). *)
Theorem json_parse_grammar (point : byte) (max_size : Z) (s : bytes) (allow_exceptions trailing : bool) :
  point_ok point →
  let m := json_parse point max_size s allow_exceptions false trailing in
  let a := json_accept point s false trailing in
  (∃ j, m = Val j ∧ a = Val true ∧ ∀ j', json_document trailing s j' ↔ j' = j) ∨
  ((∀ j, ¬ json_document trailing s j) ∧ refused allow_exceptions m ∧ a = Val false).
Proof.
  intros Hpoint m a. pose proof (λ j, json_parse_complete point Hpoint max_size allow_exceptions false trailing s j eq_refl) as Hc.
  destruct (json_accept_decides point s trailing Hpoint) as (b & Ha & Hb).
  destruct (json_parse_cases point Hpoint max_size allow_exceptions false trailing s) as [(j & Hm & Hd)|Hr].
  - left. exists j. apply document_json in Hd. split_and!; [done| |].
    { subst a. rewrite Ha. f_equal. apply Hb. by exists j. }
    intros j'. split; [|by intros ->]. intros Hd'%Hc. rewrite Hm in Hd'. by injection Hd'.
  - assert (Hn : ∀ j, ¬ json_document trailing s j); [|right; split_and!; [done|exact Hr|]].
    + intros j Hd. pose proof (Hc j Hd) as Hj. rewrite Hj in Hr. unfold refused in Hr.
      destruct allow_exceptions; [by destruct Hr|]. injection Hr as ->. apply document_json in Hd.
      destruct Hd as (? & ? & ? & ? & ? & _ & _ & Ht & _).
      by apply text_typed in Ht as (_ & _ & [] & _).
    + subst a. rewrite Ha. f_equal. destruct b; [|done]. destruct (proj1 Hb eq_refl) as [j Hj]. by destruct (Hn j).
Qed.

(** Inputs to try; a tilde stands for the quote. *)
Definition quoted_text (s : string) : bytes := (λ b, if decide (b = x7e) then x22 else b) <$> str s.
Definition sample_input : bytes :=
  Eval vm_compute in quoted_text " {~k~: [1, -2.5e1, ~\u00e9~], ~b~: null, ~k~: {}} ".
Definition sample_value : json :=
  Eval vm_compute in JObject [(str "b", JNull); (str "k", JObject [])].

Lemma json_parse_grammar_witness :
  (∀ j, json_document false sample_input j ↔ j = sample_value) ∧
  (∀ j, ¬ json_document false (str "[1,]") j) ∧
  (∀ j, json_document true (str "[1,]") j ↔ j = JArray [JUnsigned 1]).
Proof.
  assert (Hp : point_ok ",") by compute_done.
  split_and!.
  - destruct (json_parse_grammar "," 100 sample_input true false Hp) as [(j & H & _ & Hj)|(_ & [what H] & _)];
      vm_compute in H; [|discriminate H]. injection H as <-. exact Hj.
  - destruct (json_parse_grammar "," 100 (str "[1,]") true false Hp) as [(j & H & _)|(H & _)]; [|exact H].
    vm_compute in H. discriminate H.
  - destruct (json_parse_grammar "," 100 (str "[1,]") true true Hp) as [(j & H & _ & Hj)|(_ & [what H] & _)];
      vm_compute in H; [|discriminate H]. injection H as <-. exact Hj.
Defined.

(** C18. The type of [parse], for every input and all options, comments included: it
    ends, in an error (thrown, or a discarded value) or with a value in which
    integers fit their 64-bit type, floats are finite, strings and keys are UTF-8, the
    keys of every object are in order without duplicates, and there are no bytes and
    no discarded values. *)
Theorem json_parse_type (point : byte) (max_size : Z) (s : bytes)
    (allow_exceptions ignore_comments trailing : bool) :
  point_ok point →
  let m := json_parse point max_size s allow_exceptions ignore_comments trailing in
  (∃ j, m = Val j ∧ json_typed j) ∨ refused allow_exceptions m.
Proof.
  intros Hpoint m.
  destruct (json_parse_cases point Hpoint max_size allow_exceptions ignore_comments trailing s)
    as [(j & Hm & Hd)|Hr]; [|by right].
  left. exists j. split; [done|]. destruct Hd as (? & ? & ? & ? & ? & _ & _ & Ht & _).
  by apply text_typed in Ht.
Qed.

Lemma json_parse_type_witness : json_typed (JObject [(str "a", JInteger (- 2 ^ 63)); (str "b", JFloat 0x7FEFFFFFFFFFFFFF)]).
Proof.
  destruct (json_parse_type "," 100 (quoted_text "{~b~:1.7976931348623157e308/* , */, ~a~: -9223372036854775808}")
    true true false ltac:(compute_done)) as [(j & H & Hj)|[what H]]; vm_compute in H; [|discriminate H].
  injection H as <-. exact Hj.
Defined.
