(* ===== verification/JsonRoundTrip.v ===== *)
(** * A dumped value is read back

    The text that [dump] writes is a text of the grammar, for the value that the
    grammar keeps of it; so [parse] inverts [dump]. *)

From stdpp Require Import sorting.
From S2P Require Import Prelude Float Dtoa DtoaText Json Utf8 JsonText JsonRead JsonLexer.
From S2P Require Import JsonParser JsonGrammar JsonLexerSpec JsonTokenSpec JsonBuild JsonParse.
From Stdlib Require Import Strings.Byte Sorting.Sorted.

Open Scope Z_scope.
Import Serializer.

(** ** Numbers *)

Lemma digit_char_of b : 48 ≤ b2z b ≤ 57 → digit_char (b2z b - 48) = b.
Proof. intros H. unfold digit_char. replace (48 + (b2z b - 48)) with (b2z b) by lia. apply z2b_b2z. Qed.

Lemma span_digits_sound s : ∀ ds rest, span_digits s = (ds, rest) →
  Forall is_digit ds ∧ s = digits_text ds ++ rest.
Proof.
  induction s as [|b s IH]; intros ds rest; cbn [span_digits].
  { by intros [= <- <-]. }
  case_decide as Hb.
  - destruct (span_digits s) as [ds' r]. intros [= <- <-]. destruct (IH ds' r eq_refl) as [Hd ->].
    split; [constructor; [unfold is_digit; lia|done]|]. unfold digits_text.
    rewrite fmap_cons, digit_char_of by done. done.
  - by intros [= <- <-].
Qed.

Lemma read_digits1_sound s ds rest : read_digits1 s = Some (ds, rest) →
  some_digits ds ∧ s = digits_text ds ++ rest.
Proof.
  unfold read_digits1. destruct (span_digits s) as [ds' r] eqn:H. apply span_digits_sound in H as [Hd ->].
  intros He. destruct ds' as [|d ds']; [done|]. injection He as <- <-. by split.
Qed.

Lemma read_int_sound s ds rest : read_int s = Some (ds, rest) →
  ds ≠ [] ∧ (digits_ok ds ∨ ds = [0]) ∧ s = digits_text ds ++ rest.
Proof.
  unfold read_int. destruct (read_digits1 s) as [[ds' r]|] eqn:H; [|done].
  apply read_digits1_sound in H as [[Hd Hne] ->]. cbn [mbind option_bind].
  intros He. assert (ds' = ds ∧ r = rest ∧ (leading ds' ∨ ds' = [0])) as (-> & -> & Hl).
  { destruct ds' as [|d ds']; [done|]. apply Forall_cons in Hd as [Hd _]. unfold is_digit in Hd.
    destruct d as [|p|p]; [|injection He as <- <-; split_and!; [done..|left; simpl; lia]|lia].
    destruct ds'; [|done]. injection He as <- <-. split_and!; [done..|by right]. }
  split_and!; [done| |done]. destruct Hl; [by left; split|by right].
Qed.

(** What the readers of the parts consume is a part of a numeral. *)
Lemma read_fraction_sound s ds rest : read_fraction s = Some (ds, rest) → ∃ fr,
  default [] fr = ds ∧ match fr with Some ds => some_digits ds | None => True end ∧
  s = match fr with Some ds => ["."%byte] ++ digits_text ds | None => [] end ++ rest.
Proof.
  unfold read_fraction. destruct s as [|b s]; [by intros [= <- <-]; exists None|].
  case_decide as Hb; [|by intros [= <- <-]; exists None].
  intros [Hd ->]%read_digits1_sound. exists (Some ds). by subst b.
Qed.

Lemma read_exponent_sound s x rest : read_exponent s = Some (x, rest) → ∃ ep,
  exponent_value ep = x ∧ s = exponent_text ep ++ rest ∧
  match ep with
  | Some (e, sgn, ds) =>
      (e = "e"%byte ∨ e = "E"%byte) ∧
      match sgn with Some b => b = "+"%byte ∨ b = "-"%byte | None => True end ∧ some_digits ds
  | None => True
  end.
Proof.
  unfold read_exponent. destruct s as [|b s]; [by intros [= <- <-]; exists None|].
  case_decide as Hb; [|by intros [= <- <-]; exists None].
  destruct s as [|c s]; [done|]. case_decide as Hm.
  - destruct (read_digits1 s) as [[ds r]|] eqn:H; [|done]. intros [= <- <-].
    apply read_digits1_sound in H as [Hd ->]. exists (Some (b, Some c, ds)). subst c. split_and!; auto.
  - destruct (read_digits1 _) as [[ds r]|] eqn:H; [|done]. intros [= <- <-].
    apply read_digits1_sound in H as [Hd Hs]. case_decide as Hp.
    + exists (Some (b, Some c, ds)). subst c s. split_and!; auto.
    + exists (Some (b, None, ds)). rewrite Hs. split_and!; auto.
Qed.

Lemma read_unsigned_sound neg s m x rest : read_unsigned s = Some (m, x, rest) → ∃ n,
  negative n = neg ∧ numeral_ok n ∧ numeral_text n ++ rest = (if neg then str "-" else []) ++ s ∧
  numeral_mantissa n = m ∧ numeral_exponent n = x.
Proof.
  unfold read_unsigned. destruct (read_int s) as [[int r1]|] eqn:Hi; [|done]. cbn [mbind option_bind].
  destruct (read_fraction r1) as [[frac r2]|] eqn:Hf; [|done]. cbn [mbind option_bind].
  destruct (read_exponent r2) as [[e r3]|] eqn:He; [|done]. cbn [mbind option_bind]. intros [= <- <- <-].
  apply read_int_sound in Hi as (Hne & Hint & ->). apply read_fraction_sound in Hf as (fr & <- & Hfr & ->).
  apply read_exponent_sound in He as (ep & <- & -> & Hep).
  exists (Numeral neg int fr ep). split_and!; try done.
  unfold numeral_text, numeral_chars. cbn [negative int_digits fraction exponent_part].
  rewrite <- !app_assoc. by destruct neg.
Qed.

(** A finite double's text. *)
Lemma float_numeral bits : in_unsigned 64 bits → Dtoa.isfinite bits = true → ∃ n,
  dump_float bits = Val (numeral_text n) ∧ numeral_ok n ∧ numeral_value n = JFloat bits.
Proof.
  intros Hb Hf. destruct (to_chars_spec bits Hb Hf) as (text & m & x & Ht & _ & Hi & Hread & Hn).
  specialize (Hread [] I). destruct (read_unsigned_sound (Dtoa.signbit bits) _ _ _ _ Hread)
    as (n & Hneg & Hok & Htext & Hm & Hx). rewrite !app_nil_r in Htext.
  exists n. unfold dump_float. rewrite Hf, Ht, Htext. split_and!; [done|done|].
  assert (Hni : is_integer n = false).
  { unfold is_integer. destruct (fraction n) eqn:Efr, (exponent_part n) eqn:Eep; try done. exfalso.
    destruct Hi as (int & c & t & -> & _ & _ & Hc).
    unfold numeral_text, numeral_chars in Htext. rewrite Efr, Eep, Hneg in Htext.
    cbn [exponent_text] in Htext. rewrite !app_nil_r in Htext. apply app_inv_head in Htext.
    assert (Hin : c ∈ digits_text (int_digits n)) by (rewrite Htext; set_solver).
    unfold digits_text in Hin. apply list_elem_of_fmap in Hin as (d & -> & Hd).
    destruct Hok as (_ & Hds & _). assert (Hdd : is_digit d).
    { destruct Hds as [[Hds _]|Hds]; [rewrite Forall_forall in Hds; by apply Hds|].
      rewrite Hds in Hd. apply list_elem_of_singleton in Hd as ->. done. }
    pose proof (digit_char_value d Hdd). unfold is_digit in Hdd.
    destruct Hc as [Hc|Hc]; rewrite Hc in *; vm_compute (b2z _) in *; lia. }
  unfold numeral_value. rewrite Hni. cbn [andb]. unfold numeral_double. rewrite Hm, Hx, Hneg.
  by rewrite read_double_spec.
Qed.

(** A 64-bit integer's text. *)
Lemma decimal_digits n : ∀ z, 0 ≤ z < 10 ^ Z.of_nat n → (0 < n)%nat → ∃ ds,
  decimal n z = digits_text ds ∧ digits_value ds = z ∧ Forall is_digit ds ∧ ds ≠ [] ∧ (ds = [0] ∨ leading ds).
Proof.
  induction n as [|n IH]; intros z Hz Hn; [lia|]. cbn [decimal].
  assert (Hm : 0 ≤ z `mod` 10 < 10) by (apply Z.mod_pos_bound; lia).
  assert (Hd : is_digit (z `mod` 10)) by (unfold is_digit; lia).
  destruct (Z.ltb_spec z 10) as [Hs|Hs].
  - exists [z]. rewrite Z.mod_small in * by lia. split_and!; try done; [by constructor|].
    destruct (decide (z = 0)) as [->|]; [by left|right; simpl; lia].
  - destruct n as [|n]; [simpl in Hz; lia|].
    destruct (IH (z `div` 10)) as (ds & -> & Hv & Hds & Hne & Hl); [by apply div_pow10|lia|].
    exists (ds ++ [z `mod` 10]). unfold digits_text. rewrite fmap_app, digits_value_snoc, Hv.
    split_and!; [done|symmetry; apply Z.div_mod; lia|apply Forall_app; split; [done|by constructor]|by destruct ds|].
    right. destruct Hl as [->|Hl]; [|by destruct ds].
    change (digits_value [0]) with 0 in Hv. zarith.
Qed.

Lemma numeral_integer_ok neg ds : Forall is_digit ds → ds ≠ [] → ds = [0] ∨ leading ds →
  numeral_ok (Numeral neg ds None None).
Proof. intros Hds Hne Hl. split_and!; [done| |done|done]. destruct Hl; [by right|by left]. Qed.

Lemma integer_numeral z : - 2 ^ 63 ≤ z < 2 ^ 64 → ∃ n,
  integer_text z = numeral_text n ∧ numeral_ok n ∧ numeral_value n = integer_value z.
Proof.
  intros Hz. unfold integer_text, integer_value.
  assert (Hb : 2 ^ 64 < 10 ^ Z.of_nat 20) by done.
  destruct (Z.ltb_spec z 0) as [Hs|Hs];
    (edestruct (decimal_digits 20) as (ds & -> & Hv & Hds & Hne & Hl); [|lia|]; [split; [|eapply Z.lt_trans; [|exact Hb]]; lia|]).
  - exists (Numeral true ds None None). split_and!; [unfold numeral_text, numeral_chars; simpl; by rewrite app_nil_r|..].
    + apply numeral_integer_ok; assumption.
    + unfold numeral_value. cbn [is_integer negative int_digits fraction exponent_part andb].
      rewrite Hv. destruct (Z.leb_spec (- z) (2 ^ 63)); [|lia]. f_equal. lia.
  - exists (Numeral false ds None None). split_and!; [unfold numeral_text, numeral_chars; simpl; by rewrite app_nil_r|..].
    + apply numeral_integer_ok; assumption.
    + unfold numeral_value. cbn [is_integer negative int_digits fraction exponent_part andb negb].
      rewrite Hv. destruct (Z.ltb_spec z (2 ^ 64)); [done|lia].
Qed.

(** ** Strings *)

Lemma escape_char cp : scalar cp → string_char (escape_codepoint false cp) (utf8_encode cp).
Proof.
  intros Hs. assert (H0 : 0 ≤ cp) by (unfold scalar in Hs; lia).
  destruct (plain_cp cp) eqn:Hp.
  - rewrite escape_codepoint_plain by done. unfold plain_cp in Hp. rewrite andb_false_l, orb_false_r.
    apply negb_true_iff in Hp. rewrite !orb_false_iff, !Z.eqb_neq in Hp.
    destruct (Z.ltb_spec cp 0x20).
    + destruct (Z.ltb_spec cp 0x10000); [|lia]. apply char_unicode; [|done].
      pose proof (read_hex4_spec cp [] ltac:(lia)) as Hr. by rewrite app_nil_r in Hr.
    + apply char_plain; [done|lia|lia|lia].
  - apply negb_false_iff in Hp. rewrite !orb_true_iff, !Z.eqb_eq in Hp.
    destruct Hp as [[[[[[->| ->]| ->]| ->]| ->]| ->]| ->];
      [exact (char_short x62 _ eq_refl)|exact (char_short x74 _ eq_refl)|exact (char_short x6e _ eq_refl)
      |exact (char_short x66 _ eq_refl)|exact (char_short x72 _ eq_refl)|exact (char_short x22 _ eq_refl)
      |exact (char_short x5c _ eq_refl)].
Qed.

Lemma quote_text s : valid_utf8 s → string_text (quote s) s.
Proof.
  intros (cps & Hc & ->). unfold quote. rewrite codepoints_text by done.
  eexists. split; [|reflexivity]. cbn [from_option].
  induction Hc as [|cp cps Hcp _ IH]; [constructor|].
  exact (body_cons _ _ _ _ (escape_char cp Hcp) IH).
Qed.

(** ** Values *)

(** The members of an object are in the order of their keys: it is a [std::map]. *)
Definition ordered_node (j : json) : Prop := match j with JObject m => ordered m | _ => True end.
Definition ordered_value : json → Prop := everywhere ordered_node.

Lemma join_snoc sep l t : l ≠ [] → join sep (l ++ [t]) = join sep l ++ sep ++ t.
Proof.
  induction l as [|x l IH]; [done|]. intros _. destruct l as [|y l]; [done|].
  change (join sep ((x :: y :: l) ++ [t])) with (x ++ sep ++ join sep ((y :: l) ++ [t])).
  rewrite IH by done. change (join sep (x :: y :: l)) with (x ++ sep ++ join sep (y :: l)).
  by rewrite <- !app_assoc.
Qed.

Section texts.
Context (trailing : bool).

Abbreviation value_text := (value_text blank trailing).
Abbreviation elements_text := (elements_text blank trailing).
Abbreviation members_text := (members_text blank trailing).

Definition renders (j : json) : Prop := value_text (render j) (readable j).

Lemma renders_elements l : Forall renders l → l ≠ [] →
  elements_text (join (str ",") (render <$> l)) (readable <$> l).
Proof.
  induction l as [|j l IH] using rev_ind; [done|]. intros [Hl Hj]%Forall_app _.
  rewrite Forall_singleton in Hj. rewrite !fmap_app.
  change (render <$> [j]) with [render j]. change (readable <$> [j]) with [readable j]. destruct l as [|x l].
  - pose proof (elements_one blank trailing [] _ _ [] (Forall_nil_2 _) Hj (Forall_nil_2 _)) as H.
    by rewrite app_nil_r in H.
  - rewrite join_snoc by done.
    pose proof (elements_snoc blank trailing _ _ [] _ _ [] (IH Hl ltac:(done)) (Forall_nil_2 _) Hj (Forall_nil_2 _)) as H.
    by rewrite app_nil_r in H.
Qed.

Lemma renders_array l : Forall renders l → renders (JArray l).
Proof.
  intros Hl. unfold renders. cbn [readable].
  change (render (JArray l)) with ([x5b] ++ join (str ",") (render <$> l) ++ [x5d]).
  destruct l as [|x l]; [by apply (text_array_empty blank trailing [])|].
  apply text_array. by apply renders_elements.
Qed.

Definition readable_member (i : bytes * json) : bytes * json := (i.1, readable i.2).

Lemma renders_members m : ordered m → Forall (λ i, valid_utf8 i.1) m → Forall (λ i, renders i.2) m → m ≠ [] →
  members_text (join (str ",") (member_text <$> m)) (readable_member <$> m).
Proof.
  induction m as [|[k v] m IH] using rev_ind; [done|]. intros Ho [Hk Hkv]%Forall_app [Hm Hv]%Forall_app _.
  rewrite Forall_singleton in Hkv, Hv. rewrite !fmap_app.
  change (member_text <$> [(k, v)]) with [quote k ++ [x3a] ++ render v].
  change (readable_member <$> [(k, v)]) with [(k, readable v)].
  destruct (decide (m = [])) as [->|Hne].
  - pose proof (members_one blank trailing [] _ _ [] [] _ _ [] (Forall_nil_2 _) (quote_text k Hkv)
      (Forall_nil_2 _) (Forall_nil_2 _) Hv (Forall_nil_2 _)) as H.
    by rewrite app_nil_r in H.
  - unfold ordered in Ho. rewrite StronglySorted_app in Ho. destruct Ho as (Hlast & Ho & _).
    rewrite join_snoc by (by destruct m). rewrite <- map_insert_last.
    + pose proof (members_snoc blank trailing _ _ [] _ _ [] [] _ _ [] (IH Ho Hk Hm Hne) (Forall_nil_2 _)
        (quote_text k Hkv) (Forall_nil_2 _) (Forall_nil_2 _) Hv (Forall_nil_2 _)) as H.
      rewrite app_nil_r in H. exact H.
    + apply Forall_fmap, Forall_forall. intros i Hi. simpl. apply (Hlast i (k, v) Hi). set_solver.
Qed.

Lemma renders_object m : ordered m → Forall (λ i, valid_utf8 i.1) m → Forall (λ i, renders i.2) m → renders (JObject m).
Proof.
  intros Ho Hk Hm. unfold renders.
  change (readable (JObject m)) with (JObject (readable_member <$> m)).
  change (render (JObject m)) with ([x7b] ++ join (str ",") (member_text <$> m) ++ [x7d]).
  destruct m as [|x m]; [by apply (text_object_empty blank trailing [])|].
  apply text_object. by apply renders_members.
Qed.

Lemma renders_integer z : - 2 ^ 63 ≤ z < 2 ^ 64 → value_text (integer_text z) (integer_value z).
Proof.
  intros Hz. destruct (integer_numeral z Hz) as (n & -> & Hn & Hv). rewrite <- Hv.
  apply text_number; [done|]. rewrite Hv. unfold integer_value. by destruct (z <? 0).
Qed.

Lemma renders_unsigned z : 0 ≤ z < 2 ^ 64 → renders (JUnsigned z).
Proof. intros Hz. apply (renders_integer z). lia. Qed.

Lemma renders_binary data subtype :
  match subtype with Some z => in_unsigned 64 z | None => True end → renders (JBinary data subtype).
Proof.
  intros Hty. unfold in_unsigned in Hty.
  assert (H : renders (binary_object data subtype)).
  { apply renders_object.
    - repeat constructor.
    - repeat constructor; by apply valid_quote_ascii.
    - apply Forall_cons_2; [|apply Forall_cons_2; [|apply Forall_nil_2]]; cbn [fst snd].
      + apply renders_array. apply Forall_fmap, Forall_forall. intros b _. pose proof (b2z_range b).
        apply (renders_unsigned (b2z b)). lia.
      + destruct subtype as [z|]; [by apply renders_unsigned|constructor]. }
  unfold renders in *. rewrite readable_binary in H by (destruct subtype; [lia|done]).
  by rewrite render_binary.
Qed.

Lemma renders_float bits : in_unsigned 64 bits → renders (JFloat bits).
Proof.
  intros Hb. unfold renders. cbn [render readable]. destruct (Dtoa.isfinite bits) eqn:Hf.
  - destruct (float_numeral bits Hb Hf) as (n & -> & Hn & Hv). rewrite <- Hv. apply text_number; [done|].
    rewrite Hv. exact Hf.
  - unfold dump_float. rewrite Hf. constructor.
Qed.

(** Every value but the discarded one. *)
Lemma render_text j : well_typed j → utf8_value j → readable_value j → ordered_value j → renders j.
Proof.
  apply (json_deep_ind (λ j, well_typed j → utf8_value j → readable_value j → ordered_value j → renders j)); clear j.
  - intros m IH Hty Hu Hr Ho.
    apply everywhere_object in Hty as [_ Hty], Hu as [Hk Hu], Hr as [_ Hr], Ho as [Hm Ho].
    rewrite Forall_forall in IH, Hty, Hu, Hr, Ho.
    apply renders_object; [done..|]. apply Forall_forall. intros i Hi.
    exact (IH i Hi (Hty i Hi) (Hu i Hi) (Hr i Hi) (Ho i Hi)).
  - intros l IH Hty Hu Hr Ho.
    apply everywhere_array in Hty as [_ Hty], Hu as [_ Hu], Hr as [_ Hr], Ho as [_ Ho].
    rewrite Forall_forall in IH, Hty, Hu, Hr, Ho. apply renders_array. apply Forall_forall. intros v Hv.
    exact (IH v Hv (Hty v Hv) (Hu v Hv) (Hr v Hv) (Ho v Hv)).
  - intros [ | | |s|b|z|z|bits|data sub| ]; try exact I; intros [Hty _] [Hu _] [Hr _] _;
      cbn [typed_node utf8_node readable_node] in Hty, Hu, Hr.
    + constructor.
    + by apply text_string, quote_text.
    + destruct b; constructor.
    + apply renders_integer. unfold in_signed in Hty. change (64 - 1) with 63 in Hty. lia.
    + apply renders_integer. unfold in_unsigned in Hty. lia.
    + by apply renders_float.
    + by apply renders_binary.
    + done.
Qed.

End texts.

(** C17. [parse] inverts [dump]: every value that is well typed, with its strings and
    keys in UTF-8 and its objects in key order, is written as a text that [parse]
    reads, whatever its options and the locale, as the value again: finite floats to
    the last bit, integers at the type their sign gives them, bytes as the object that
    stands for them, other floats as null. *)
Theorem parse_dump_roundtrip (point : byte) (max_size : Z) (allow_exceptions trailing : bool) (j : json) :
  point_ok point → well_typed j → utf8_value j → readable_value j → ordered_value j →
  ∃ text, Json.dump j = Val text ∧
    json_parse point max_size text allow_exceptions false trailing = Val (readable j).
Proof.
  intros Hpoint Hty Hu Hr Ho. exists (render j). split.
  - by destruct (dump_spec j Hty) as [[_ Hd]|[Hn _]].
  - apply json_parse_complete; [done..|]. exists [], [], (render j), [], [].
    split_and!; [by left|constructor|by apply render_text|constructor|by left|by rewrite !app_nil_r].
Qed.

Lemma parse_dump_roundtrip_witness : ∃ text, Json.dump sample_report = Val text ∧
  json_parse "," 1000 text true false false =
    Val (JObject [(str "items", JArray [JObject [(str "cpu", JInteger (-5)); (str "load", JFloat 0x3FB999999999999A);
      (str "raw", JObject [(str "bytes", JArray [JUnsigned 0; JUnsigned 255]); (str "subtype", JNull)])]]);
      (str "type", JString (str "data"))]).
Proof.
  apply (parse_dump_roundtrip "," 1000 true false sample_report); [compute_done|by vm_compute|..].
  - repeat (split; [|exact I] || split || constructor || compute_done).
  - by vm_compute.
  - repeat (split; [|exact I] || split || constructor || compute_done).
Defined.
