(* ===== verification/Sender.v ===== *)
(** * The sender ([sender/sender.h], [sender/sender.cpp])

    The object ([Sender.t]), its member functions, and the system of the worker
    thread and the threads that call it ([Sender.step]): the worker's program
    counter stands between the points where it takes or leaves the mutex or calls
    the network, so enqueueing interleaves with it as the mutex allows.

    The clock and the results of [socket], [inet_pton], [connect] and [send] are
    inputs of the steps.  A throwing step is an exception that leaves the worker's
    function, which ends the process. *)

From S2P Require Import Prelude ByteOrder Dtoa Json Utf8 JsonText JsonRead.

Open Scope Z_scope.

Module Sender.

Record Options := MkOptions {
  batchSize : nat;         (* size_t *)
  flushIntervalMs : Z;     (* int *)
  maxQueueSize : nat;      (* size_t *)
  maxBackoffMs : Z;        (* int *)
}.
Definition default_options : Options := MkOptions 100 1000 20000 8000.

Record Stats := MkStats { totalSent : Z; totalDropped : Z; reconnectCount : Z }.

Record t := mk {
  m_ip : bytes;
  m_port : Z;
  m_sockfd : Z;
  m_opt : Options;
  m_queue : list json;
  m_running : bool;
  m_currentBackoff : Z;
  m_stats : Stats;
}.

(** The constructor; it also starts the worker. *)
Definition make (ip : bytes) (port : Z) (opt : Options) : t :=
  mk ip port (-1) opt [] true 500 (MkStats 0 0 0).

Definition with_queue (q : list json) (s : t) : t :=
  mk (m_ip s) (m_port s) (m_sockfd s) (m_opt s) q (m_running s) (m_currentBackoff s) (m_stats s).
Definition with_sockfd (fd : Z) (s : t) : t :=
  mk (m_ip s) (m_port s) fd (m_opt s) (m_queue s) (m_running s) (m_currentBackoff s) (m_stats s).
Definition with_backoff (b : Z) (s : t) : t :=
  mk (m_ip s) (m_port s) (m_sockfd s) (m_opt s) (m_queue s) (m_running s) b (m_stats s).
Definition with_stats (st : Stats) (s : t) : t :=
  mk (m_ip s) (m_port s) (m_sockfd s) (m_opt s) (m_queue s) (m_running s) (m_currentBackoff s) st.

(** The first statement of [stop]. *)
Definition request_stop (s : t) : t :=
  mk (m_ip s) (m_port s) (m_sockfd s) (m_opt s) (m_queue s) false (m_currentBackoff s) (m_stats s).

Definition getStats (s : t) : Stats := m_stats s.

(** [enqueue], under the mutex.  [pop_front] of an empty queue has no meaning. *)
Definition enqueue (j : json) (s : t) : outcome t :=
  s ← (if decide (maxQueueSize (m_opt s) ≤ length (m_queue s))%nat then
         match m_queue s with
         | [] => Undefined
         | _ :: q =>
             let st := m_stats s in
             Val (with_stats (MkStats (totalSent st) (u64 (totalDropped st + 1)) (reconnectCount st))
                    (with_queue q s))
         end
       else Val s);
  Val (with_queue (m_queue s ++ [j]) s).

(** What the process asks of the system, in order. *)
Inductive syscall := Socket (fd : Z) | Close (fd : Z) | Sleep (ms : Z) | Write (data : bytes).

Definition closeSocket (s : t) : t * list syscall :=
  if 0 <=? m_sockfd s then (with_sockfd (-1) s, [Close (m_sockfd s)]) else (s, []).

(** The results of [socket], [inet_pton] and [connect]. *)
Record connect_result := ConnectResult { socket_fd : Z; inet_pton_result : Z; connect_value : Z }.

Definition connectSocket (c : connect_result) (s : t) : bool * t * list syscall :=
  let s := with_sockfd (socket_fd c) s in
  if m_sockfd s <? 0 then (false, s, [])
  else
    let opened := [Socket (socket_fd c)] in
    if inet_pton_result c <=? 0 then
      let '(s, calls) := closeSocket s in (false, s, opened ++ calls)
    else if connect_value c <? 0 then
      let '(s, calls) := closeSocket s in (false, s, opened ++ calls)
    else (true, s, opened).

(** [tryReconnect].  Doubling the backoff is [int] arithmetic. *)
Definition tryReconnect (c : connect_result) (s : t) : outcome (bool * t * list syscall) :=
  let '(ok, s, calls) := connectSocket c s in
  if ok : bool then Val (true, s, calls)
  else
    let st := m_stats s in
    let s := with_stats (MkStats (totalSent st) (totalDropped st) (u64 (reconnectCount st + 1))) s in
    let calls := calls ++ [Sleep (m_currentBackoff s)] in
    if decide (in_signed 32 (m_currentBackoff s * 2)) then
      Val (false, with_backoff (Z.min (m_currentBackoff s * 2) (maxBackoffMs (m_opt s))) s, calls)
    else Undefined.

(** [buildPacket]: the length in network order, then the text. *)
Definition batch_json (batch : list json) : outcome json :=
  root ← set_field (str "type") (JString (str "data")) JNull;
  set_field (str "items") (JArray batch) root.

Definition buildPacket (e : endian) (batch : list json) : outcome bytes :=
  root ← batch_json batch;
  body ← Json.dump root;
  let len := ByteOrderUtils.hostToNet32 e (u32 (Z.of_nat (length body))) in
  Val (ByteOrderUtils.repr e 4 len ++ body).

(** One return of [send]: a count, or an error that is or is not [EINTR]. *)
Inductive send_result := Sent (n : nat) | SendError (eintr : bool).

(** [sendAll] from [total] on; the bytes the system has accepted.  [None]: the
    results end in the middle of the loop, so the call has not returned. *)
Fixpoint sendAll_from (data : bytes) (total : nat) (results : list send_result)
    : option (bool * bytes) :=
  if decide (total < length data)%nat then
    match results with
    | [] => None
    | SendError eintr :: results =>
        if eintr then sendAll_from data total results else Some (false, [])
    | Sent 0 :: _ => Some (false, [])
    | Sent n :: results =>
        '(ok, accepted) ← sendAll_from data (total + n) results;
        Some (ok, take n (drop total data) ++ accepted)
    end
  else Some (true, []).
Definition sendAll (data : bytes) (results : list send_result) : option (bool * bytes) :=
  sendAll_from data 0 results.

(** [rollback], under the mutex: one [push_front] per element, from the last. *)
Definition rollback (batch : list json) (s : t) : t :=
  with_queue (fold_left (λ q j, j :: q) (reverse batch) (m_queue s)) s.

(** ** The worker *)

(** What the worker does after putting a batch back. *)
Inductive after_rollback := ThenContinue | ThenReconnect.

Inductive pc :=
| LoopTest                               (* while (m_running || !m_queue.empty()) *)
| Waiting                                (* m_cv.wait_for, the mutex released *)
| HasBatch (batch : list json)           (* m_sockfd < 0 && !tryReconnect() *)
| Sending (batch : list json)            (* buildPacket, sendAll *)
| RollingBack (batch : list json) (k : after_rollback)
| Reconnecting                           (* tryReconnect after a failed send *)
| Finished.

Inductive input :=
| INone
| IWake (timed_out : bool) (now : Z)
| IConnect (c : connect_result)
| ISend (results : list send_result) (now : Z).

(** The object, the worker, and what has been observed: the items accepted by
    [enqueue], those reported sent, those dropped, and the system calls. *)
Record sys := Sys {
  sender : t;
  worker : pc;
  lastFlush : Z;           (* nanoseconds *)
  enqueued : list json;
  delivered : list json;
  dropped : list json;
  calls : list syscall;
}.

Definition init (ip : bytes) (port : Z) (opt : Options) (now : Z) : sys :=
  Sys (make ip port opt) LoopTest now [] [] [] [].

Definition go (p : pc) (w : sys) : sys :=
  Sys (sender w) p (lastFlush w) (enqueued w) (delivered w) (dropped w) (calls w).
Definition set_sender (s : t) (new_calls : list syscall) (w : sys) : sys :=
  Sys s (worker w) (lastFlush w) (enqueued w) (delivered w) (dropped w) (calls w ++ new_calls).

(** The critical section after [wait_for] returns. *)
Definition take_batch (now : Z) (w : sys) : sys :=
  let s := sender w in
  let opt := m_opt s in
  match m_queue s with
  | [] => go LoopTest w
  | _ :: _ =>
      let timeReached := flushIntervalMs opt <=? Z.quot (now - lastFlush w) 1000000 in
      if bool_decide (batchSize opt ≤ length (m_queue s))%nat || timeReached || negb (m_running s)
      then
        let count := Nat.min (batchSize opt) (length (m_queue s)) in
        go (HasBatch (take count (m_queue s)))
           (set_sender (with_queue (drop count (m_queue s)) s) [] w)
      else go LoopTest w
  end.

(** One step of [run]; [None] when the input does not fit or the worker blocks. *)
Definition run_step (e : endian) (i : input) (w : sys) : option (outcome sys) :=
  let s := sender w in
  match worker w, i with
  | LoopTest, INone =>
      Some (Val (go (if m_running s || bool_decide (m_queue s ≠ []) then Waiting else Finished) w))
  | Waiting, IWake timed_out now =>
      if timed_out || bool_decide (m_queue s ≠ []) || negb (m_running s)
      then Some (Val (take_batch now w)) else None
  | HasBatch batch, INone =>
      if m_sockfd s <? 0 then None else Some (Val (go (Sending batch) w))
  | HasBatch batch, IConnect c =>
      if m_sockfd s <? 0 then
        Some ('(ok, s, calls) ← tryReconnect c s;
              Val (go (if ok : bool then Sending batch else RollingBack batch ThenContinue)
                     (set_sender s calls w)))
      else None
  | Sending batch, ISend results now =>
      match buildPacket e batch with
      | Throw what => Some (Throw what)
      | Undefined => Some Undefined
      | Val packet =>
          '(ok, accepted) ← sendAll packet results;
          Some (Val (
            if ok : bool then
              let st := m_stats s in
              let s := with_stats (MkStats (u64 (totalSent st + Z.of_nat (length batch)))
                                     (totalDropped st) (reconnectCount st)) s in
              let s := with_backoff 500 s in
              Sys s LoopTest now (enqueued w) (delivered w ++ batch) (dropped w)
                (calls w ++ [Write accepted])
            else go (RollingBack batch ThenReconnect) (set_sender s [Write accepted] w)))
      end
  | RollingBack batch ThenContinue, INone =>
      Some (Val (go LoopTest (set_sender (rollback batch s) [] w)))
  | RollingBack batch ThenReconnect, INone =>
      let '(s, calls) := closeSocket (rollback batch s) in
      Some (Val (go Reconnecting (set_sender s calls w)))
  | Reconnecting, IConnect c =>
      Some ('(_, s, calls) ← tryReconnect c s; Val (go LoopTest (set_sender s calls w)))
  | _, _ => None
  end.

(** ** The system *)

Inductive event :=
| Enqueue (j : json)      (* a client's call *)
| RequestStop             (* stop: m_running = false, notify_all *)
| Join                    (* stop: join and closeSocket *)
| Worker (i : input).

Definition step (e : endian) (ev : event) (w : sys) : option (outcome sys) :=
  match ev with
  | Enqueue j =>
      Some (s ← enqueue j (sender w);
            let lost := if decide (maxQueueSize (m_opt (sender w)) ≤ length (m_queue (sender w)))%nat
                        then take 1 (m_queue (sender w)) else [] in
            Val (Sys s (worker w) (lastFlush w) (enqueued w ++ [j]) (delivered w)
                   (dropped w ++ lost) (calls w)))
  | RequestStop => Some (Val (set_sender (request_stop (sender w)) [] w))
  | Join =>
      match worker w with
      | Finished =>
          let '(s, calls) := closeSocket (sender w) in Some (Val (set_sender s calls w))
      | _ => None
      end
  | Worker i => run_step e i w
  end.

Definition steps_to (e : endian) (w w' : sys) : Prop := ∃ ev, step e ev w = Some (Val w').

(** A sequence of events. *)
Fixpoint run (e : endian) (evs : list event) (w : sys) : option (outcome sys) :=
  match evs with
  | [] => Some (Val w)
  | ev :: evs =>
      match step e ev w with
      | Some (Val w) => run e evs w
      | r => r
      end
  end.

(** ** Lemmas on the operations *)

#[local] Opaque buildPacket.

(** The program counters and the inputs that fit them. *)
Ltac worker_cases i H :=
  let Hpc := fresh "Hpc" in
  match type of H with context [worker ?w] =>
    destruct (worker w) as [| |batch|batch|batch [|]| |] eqn:Hpc end;
  destruct i;
  cbv beta iota in H;
  try match type of H with None = _ => discriminate H end.

Lemma rollback_queue batch s : m_queue (rollback batch s) = batch ++ m_queue s.
Proof.
  unfold rollback. simpl.
  assert (H : ∀ l q : list json, fold_left (λ q j, j :: q) l q = reverse l ++ q).
  { induction l as [|j l IH]; intros q; simpl; [done|]. by rewrite IH, reverse_cons, <- app_assoc. }
  by rewrite H, reverse_involutive.
Qed.

Lemma enqueue_spec j s s' :
  enqueue j s = Val s' →
  m_opt s' = m_opt s ∧ m_running s' = m_running s ∧ m_sockfd s' = m_sockfd s ∧
  m_currentBackoff s' = m_currentBackoff s ∧
  totalSent (m_stats s') = totalSent (m_stats s) ∧
  reconnectCount (m_stats s') = reconnectCount (m_stats s) ∧
  ((maxQueueSize (m_opt s) ≤ length (m_queue s) ∧ ∃ x q, m_queue s = x :: q ∧
      m_queue s' = q ++ [j] ∧ totalDropped (m_stats s') = u64 (totalDropped (m_stats s) + 1)) ∨
   (length (m_queue s) < maxQueueSize (m_opt s) ∧ m_queue s' = m_queue s ++ [j] ∧
      totalDropped (m_stats s') = totalDropped (m_stats s)))%nat.
Proof.
  unfold enqueue. case_decide as Hd.
  - destruct (m_queue s) as [|x q] eqn:Hq; [done|]. simpl. intros [= <-]. simpl.
    split_and!; [done..|]. left. split; [done|]. eauto 6.
  - simpl. intros [= <-]. simpl. split_and!; [done..|]. right. split_and!; [lia|done..].
Qed.

Lemma closeSocket_spec s s' calls :
  closeSocket s = (s', calls) →
  s' = with_sockfd (Z.min (m_sockfd s) (-1)) s ∧ m_sockfd s' < 0 ∧
  ((0 ≤ m_sockfd s ∧ calls = [Close (m_sockfd s)]) ∨ (m_sockfd s < 0 ∧ calls = [])).
Proof.
  unfold closeSocket. destruct (Z.leb_spec 0 (m_sockfd s)); intros [= <- <-]; simpl.
  - split_and!; [by rewrite Z.min_r by lia|lia|]. by left.
  - split_and!; [rewrite Z.min_l by lia; by destruct s|lia|]. by right.
Qed.

Lemma tryReconnect_spec c s ok s' calls :
  tryReconnect c s = Val (ok, s', calls) →
  m_queue s' = m_queue s ∧ m_opt s' = m_opt s ∧ m_running s' = m_running s ∧
  totalSent (m_stats s') = totalSent (m_stats s) ∧
  totalDropped (m_stats s') = totalDropped (m_stats s) ∧
  (ok = true → 0 ≤ m_sockfd s' ∧ m_sockfd s' = socket_fd c ∧ calls = [Socket (socket_fd c)] ∧
     m_currentBackoff s' = m_currentBackoff s) ∧
  (ok = false → m_sockfd s' < 0 ∧
     m_currentBackoff s' = Z.min (m_currentBackoff s * 2) (maxBackoffMs (m_opt s)) ∧
     (calls = [Sleep (m_currentBackoff s)] ∨
      calls = [Socket (socket_fd c); Close (socket_fd c); Sleep (m_currentBackoff s)])).
Proof.
  unfold tryReconnect, connectSocket, closeSocket. simpl.
  destruct (Z.ltb_spec (socket_fd c) 0); simpl.
  - case_decide; [|done]. intros [= <- <- <-]. simpl. split_and!; try done.
    intros _. split_and!; [lia|done|by left].
  - assert (0 <=? socket_fd c = true) as -> by lia.
    destruct (inet_pton_result c <=? 0), (connect_value c <? 0); simpl;
      try (case_decide; [|done]); intros [= <- <- <-]; simpl; split_and!; try done;
      intros _; split_and!; try done; try lia; by right.
Qed.

(** ** Items are conserved, in order *)

Definition in_flight (w : sys) : list json :=
  match worker w with HasBatch b | Sending b | RollingBack b _ => b | _ => [] end.

(** Everything not dropped, oldest first. *)
Definition contents (w : sys) : list json := delivered w ++ in_flight w ++ m_queue (sender w).

(** A step of the worker moves items without reordering or losing any. *)
Lemma run_step_contents e i w w' :
  run_step e i w = Some (Val w') →
  contents w' = contents w ∧ enqueued w' = enqueued w ∧ dropped w' = dropped w ∧
  m_opt (sender w') = m_opt (sender w) ∧ m_running (sender w') = m_running (sender w) ∧
  totalDropped (m_stats (sender w')) = totalDropped (m_stats (sender w)) ∧
  ((delivered w' = delivered w ∧
      totalSent (m_stats (sender w')) = totalSent (m_stats (sender w))) ∨
   (∃ batch, delivered w' = delivered w ++ batch ∧
      totalSent (m_stats (sender w')) =
        u64 (totalSent (m_stats (sender w)) + Z.of_nat (length batch)))).
Proof.
  unfold run_step, contents, in_flight. intros Hr. worker_cases i Hr; revert Hr.
  - intros [= <-]. simpl. split_and!; try done; [|by left].
    by destruct (m_running (sender w) || _).
  - case_match; [|done]. intros [= <-]. unfold take_batch.
    destruct (m_queue (sender w)) as [|x q] eqn:Hq; [by simpl; rewrite Hq; eauto 10|].
    rewrite <- Hq. case_match; simpl; split_and!; try done; try by left.
    by rewrite take_drop.
  - destruct (m_sockfd (sender w) <? 0); [done|]. intros [= <-]. simpl. eauto 10.
  - destruct (m_sockfd (sender w) <? 0); [|done]. intros [= H].
    apply bind_Val_inv in H as ([[ok s'] calls] & Ht & [= <-]).
    apply tryReconnect_spec in Ht as (Hq & Ho & Hr & Hts & Htd & _).
    destruct ok; simpl; rewrite Hq, Ho, Hr, Hts, Htd; eauto 10.
  - destruct (buildPacket e batch) as [packet| |]; [|done..].
    destruct (sendAll packet results) as [[ok accepted]|]; [|done]. intros [= <-].
    destruct ok; simpl; split_and!; try done; [|right; eauto|by left].
    by rewrite <- app_assoc.
  - intros [= <-]; cbn -[rollback]; rewrite rollback_queue; eauto 10.
  - destruct (closeSocket (rollback batch (sender w))) as [s' calls] eqn:Hc.
    apply closeSocket_spec in Hc as (-> & _). intros [= <-].
    cbn -[rollback]. rewrite rollback_queue. eauto 10.
  - intros [= H]. apply bind_Val_inv in H as ([[ok s'] calls] & Ht & [= <-]).
    apply tryReconnect_spec in Ht as (Hq & Ho & Hr & Hts & Htd & _).
    simpl. rewrite Hq, Ho, Hr, Hts, Htd. eauto 10.
Qed.

(** The queue's steps by the other threads. *)
Lemma step_cases e ev w w' :
  step e ev w = Some (Val w') →
  (∃ i, ev = Worker i ∧ run_step e i w = Some (Val w')) ∨
  (∃ j s', ev = Enqueue j ∧ enqueue j (sender w) = Val s' ∧
     w' = Sys s' (worker w) (lastFlush w) (enqueued w ++ [j]) (delivered w)
            (dropped w ++ if decide (maxQueueSize (m_opt (sender w)) ≤ length (m_queue (sender w)))%nat
                          then take 1 (m_queue (sender w)) else []) (calls w)) ∨
  (ev = RequestStop ∧ w' = set_sender (request_stop (sender w)) [] w) ∨
  (ev = Join ∧ worker w = Finished ∧ ∃ s' cs, closeSocket (sender w) = (s', cs) ∧
     w' = set_sender s' cs w).
Proof.
  destruct ev as [j| | |i]; cbn [step]; intros H.
  - right; left. injection H as H. apply bind_Val_inv in H as (s' & Hs & [= <-]). eauto 6.
  - right; right; left. by injection H as <-.
  - right; right; right. destruct (worker w) eqn:Hw; try discriminate.
    destruct (closeSocket (sender w)) as [s' cs]. injection H as <-. eauto 6.
  - left. eauto.
Qed.

(** What every reachable state satisfies. *)
Record queue_inv (opt : Options) (w : sys) : Prop := {
  qi_opt : m_opt (sender w) = opt;
  qi_order : sublist (contents w) (enqueued w);
  qi_all : contents w ++ dropped w ≡ₚ enqueued w;
  qi_sent : totalSent (m_stats (sender w)) = u64 (Z.of_nat (length (delivered w)));
  qi_dropped : totalDropped (m_stats (sender w)) = u64 (Z.of_nat (length (dropped w)));
}.

Lemma u64_add_l a b : u64 (u64 a + b) = u64 (a + b).
Proof. unfold wrap. by rewrite Zplus_mod_idemp_l. Qed.

Lemma queue_inv_preserved e opt : preserved (steps_to e) (queue_inv opt).
Proof.
  intros w w' [ev Hstep] [Hopt Hord Hall Hsent Hdrop].
  apply step_cases in Hstep
    as [(i & -> & Hr)|[(j & s' & -> & Hs & ->)|[(-> & ->)|(-> & Hfin & s' & cs & Hc & ->)]]].
  - apply run_step_contents in Hr as (Hc & He & Hd & Ho & _ & Htd & Hts).
    split; [congruence|by rewrite Hc, He|by rewrite Hc, He, Hd| |by rewrite Htd, Hd].
    destruct Hts as [[-> ->]|(batch & -> & ->)]; [done|].
    by rewrite Hsent, u64_add_l, length_app, Nat2Z.inj_add.
  - apply enqueue_spec in Hs as (Ho & _ & _ & _ & Hts & _ & Hq).
    split; simpl; [congruence|..]; unfold contents, in_flight in *; simpl.
    + destruct Hq as [(Hf & x & q & Hx & -> & _)|(Hf & -> & _)].
      * rewrite Hx in Hord. rewrite !app_assoc. rewrite !app_assoc in Hord. apply sublist_app; [|done].
        etrans; [|exact Hord]. apply sublist_app; [done|]. by apply sublist_cons.
      * rewrite !app_assoc. rewrite !app_assoc in Hord. by apply sublist_app.
    + rewrite <- Hall. destruct Hq as [(Hf & x & q & Hx & -> & _)|(Hf & -> & _)].
      * rewrite decide_True, Hx by done. simpl. solve_Permutation.
      * rewrite decide_False by lia. rewrite app_nil_r. solve_Permutation.
    + by rewrite Hts.
    + destruct Hq as [(Hf & x & q & Hx & _ & ->)|(Hf & _ & ->)].
      * rewrite decide_True, Hx, Hdrop, u64_add_l, length_app by done. simpl.
        f_equal. lia.
      * rewrite decide_False by lia. by rewrite app_nil_r.
  - done.
  - apply closeSocket_spec in Hc as (-> & _). done.
Qed.

(** The condition under which the worker takes a batch. *)
Ltac flush_test :=
  match goal with |- context [if ?b then go (HasBatch _) _ else _] => destruct b end.

(** ** Bounds *)

Lemma run_step_in_flight e i w w' :
  run_step e i w = Some (Val w') →
  in_flight w' = in_flight w ∨ in_flight w' = [] ∨
  (length (in_flight w') ≤ batchSize (m_opt (sender w)))%nat.
Proof.
  unfold run_step, in_flight. intros Hr. worker_cases i Hr; revert Hr.
  - intros [= <-]. right; left. cbn [worker go]. by destruct (_ || _).
  - case_match; [|done]. intros [= <-]. unfold take_batch.
    destruct (m_queue (sender w)); [by right; left|].
    flush_test; [|by right; left].
    right; right. cbn -[take]. rewrite length_take. lia.
  - destruct (m_sockfd (sender w) <? 0); [done|]. intros [= <-]. by left.
  - destruct (m_sockfd (sender w) <? 0); [|done]. intros [= H].
    apply bind_Val_inv in H as ([[ok s'] calls] & Ht & [= <-]). left. by destruct ok.
  - destruct (buildPacket e batch) as [packet| |]; [|done..].
    destruct (sendAll packet results) as [[ok accepted]|]; [|done]. intros [= <-].
    destruct ok; [by right; left|by left].
  - intros [= <-]; by right; left.
  - destruct (closeSocket (rollback batch (sender w))) as [s' calls]. intros [= <-]. by right; left.
  - intros [= H]. apply bind_Val_inv in H as ([[ok s'] calls] & Ht & [= <-]). by right; left.
Qed.

Definition size_inv (w : sys) : Prop :=
  (length (in_flight w) ≤ batchSize (m_opt (sender w)) ∧
   length (in_flight w) + length (m_queue (sender w)) ≤
     maxQueueSize (m_opt (sender w)) + batchSize (m_opt (sender w)))%nat.

Lemma size_inv_preserved e :
  preserved (steps_to e) (λ w, (1 ≤ maxQueueSize (m_opt (sender w)))%nat ∧ size_inv w).
Proof.
  intros w w' [ev Hstep] (H1 & Hb & Hs).
  apply step_cases in Hstep
    as [(i & -> & Hr)|[(j & s' & -> & Hq & ->)|[(-> & ->)|(-> & Hfin & s' & cs & Hc & ->)]]].
  - pose proof (run_step_in_flight _ _ _ _ Hr) as Hf.
    apply run_step_contents in Hr as (Hc & _ & _ & Ho & _ & _ & Hd).
    unfold size_inv. rewrite Ho. split; [done|].
    apply (f_equal length) in Hc. unfold contents in Hc. rewrite !length_app in Hc.
    assert (length (delivered w) ≤ length (delivered w'))%nat.
    { destruct Hd as [[-> _]|(batch & -> & _)]; [lia|rewrite length_app; lia]. }
    split; [destruct Hf as [->|[->|?]]; simpl; lia|lia].
  - apply enqueue_spec in Hq as (Ho & _ & _ & _ & _ & _ & Hq). unfold size_inv, in_flight in *.
    simpl. rewrite Ho. split; [done|]. split; [done|].
    destruct Hq as [(Hf & x & q & Hx & -> & _)|(Hf & -> & _)]; rewrite length_app; simpl.
    + rewrite Hx in Hs. simpl in Hs. lia.
    + lia.
  - done.
  - apply closeSocket_spec in Hc as (-> & _). done.
Qed.

Lemma no_room_preserved e :
  preserved (steps_to e)
    (λ w, maxQueueSize (m_opt (sender w)) = 0%nat ∧ in_flight w ++ m_queue (sender w) = []).
Proof.
  intros w w' [ev Hstep] [H0 Hnil].
  apply step_cases in Hstep
    as [(i & -> & Hr)|[(j & s' & -> & Hq & ->)|[(-> & ->)|(-> & Hfin & s' & cs & Hc & ->)]]].
  - apply run_step_contents in Hr as (Hc & _ & _ & -> & _ & _ & Hd). split; [done|].
    apply (f_equal length) in Hc. unfold contents in Hc. rewrite Hnil in Hc.
    apply nil_length_inv. rewrite !length_app in *. simpl in Hc.
    destruct Hd as [[Hd _]|(batch & Hd & _)]; rewrite Hd in Hc; rewrite ?length_app in Hc; lia.
  - apply app_eq_nil in Hnil as [_ Hn]. unfold enqueue in Hq. by rewrite H0, Hn in Hq.
  - done.
  - apply closeSocket_spec in Hc as (-> & _). done.
Qed.

(** ** Descriptors *)

(** The descriptors opened and not closed by a list of calls. *)
Definition open_fds (cs : list syscall) : list Z :=
  foldl (λ o c, match c with
                | Socket fd => fd :: o
                | Close fd => filter (λ x, x ≠ fd) o
                | _ => o
                end) [] cs.

Lemma open_fds_app cs cs' o :
  open_fds cs = o →
  open_fds (cs ++ cs') = foldl (λ o c, match c with
                | Socket fd => fd :: o
                | Close fd => filter (λ x, x ≠ fd) o
                | _ => o
                end) o cs'.
Proof. intros <-. unfold open_fds. apply foldl_app. Qed.

Definition fd_inv (w : sys) : Prop :=
  open_fds (calls w) = (if m_sockfd (sender w) <? 0 then [] else [m_sockfd (sender w)]) ∧
  (worker w = Reconnecting → m_sockfd (sender w) < 0).

Lemma tryReconnect_fds c s ok s' cs new :
  tryReconnect c s = Val (ok, s', new) → open_fds cs = [] →
  open_fds (cs ++ new) = if m_sockfd s' <? 0 then [] else [m_sockfd s'].
Proof.
  intros (_ & _ & _ & _ & _ & Ht & Hf)%tryReconnect_spec Hcs.
  rewrite (open_fds_app _ _ _ Hcs). destruct ok.
  - destruct (Ht eq_refl) as (Hpos & Hfd & -> & _). rewrite <- Hfd. simpl.
    by destruct (Z.ltb_spec (m_sockfd s') 0); [lia|].
  - destruct (Hf eq_refl) as (Hneg & _ & Hcalls). rewrite (proj2 (Z.ltb_lt _ _)) by done.
    destruct Hcalls as [->| ->]; [done|]. cbn [foldl].
    rewrite filter_cons, decide_False by (intros H; by apply H). done.
Qed.

Lemma closeSocket_fds s s' new cs :
  closeSocket s = (s', new) →
  open_fds cs = (if m_sockfd s <? 0 then [] else [m_sockfd s]) →
  open_fds (cs ++ new) = if m_sockfd s' <? 0 then [] else [m_sockfd s'].
Proof.
  intros (_ & Hneg & Hcases)%closeSocket_spec Hcs. rewrite (open_fds_app _ _ _ Hcs).
  rewrite (proj2 (Z.ltb_lt (m_sockfd s') 0)) by done.
  destruct Hcases as [[Hs ->]|[Hs ->]].
  - rewrite (proj2 (Z.ltb_ge _ _)) by done. cbn [foldl].
    rewrite filter_cons, decide_False by (intros H; by apply H). done.
  - by rewrite (proj2 (Z.ltb_lt _ _)) by done.
Qed.

Lemma open_fds_quiet cs c :
  match c with Sleep _ | Write _ => True | _ => False end → open_fds (cs ++ [c]) = open_fds cs.
Proof. intros H. unfold open_fds. rewrite foldl_app. by destruct c. Qed.

Lemma fd_inv_preserved e : preserved (steps_to e) fd_inv.
Proof.
  intros w w' [ev Hstep] [Ho Hrec].
  apply step_cases in Hstep
    as [(i & -> & Hr)|[(j & s' & -> & Hq & ->)|[(-> & ->)|(-> & Hfin & s' & cs & Hc & ->)]]].
  - unfold run_step in Hr.
    worker_cases i Hr.
    + injection Hr as <-. split; [done|]. cbn [worker go]. by destruct (_ || _).
    + destruct (timed_out || _ || _); [|discriminate Hr]. injection Hr as <-. unfold take_batch.
      destruct (m_queue (sender w)); [done|].
      flush_test; [|done].
      split; [|done]. simpl. by rewrite app_nil_r.
    + destruct (m_sockfd (sender w) <? 0) eqn:Hfd; [done|]. injection Hr as <-.
      split; [|done]. simpl. by rewrite Hfd.
    + destruct (m_sockfd (sender w) <? 0); [|done]. injection Hr as Hr.
      apply bind_Val_inv in Hr as ([[ok s'] new] & Ht & [= <-]).
      split; [|by destruct ok]. simpl. by apply (tryReconnect_fds _ _ _ _ _ _ Ht).
    + destruct (buildPacket e batch) as [packet| |]; [|done..].
      destruct (sendAll packet results) as [[ok accepted]|]; [|done]. injection Hr as <-.
      destruct ok; split; try done; simpl; by rewrite open_fds_quiet.
    + injection Hr as <-; split; [|done]; simpl; by rewrite app_nil_r.
    + destruct (closeSocket (rollback batch (sender w))) as [s' new] eqn:Hc. injection Hr as <-.
      split; simpl.
      * by apply (closeSocket_fds _ _ _ _ Hc).
      * intros _. by apply closeSocket_spec in Hc as (_ & ? & _).
    + injection Hr as Hr. apply bind_Val_inv in Hr as ([[ok s'] new] & Ht & [= <-]).
      split; [|done]. simpl. apply (tryReconnect_fds _ _ _ _ _ _ Ht).
      rewrite Ho. by rewrite (proj2 (Z.ltb_lt _ _)) by auto.
  - apply enqueue_spec in Hq as (_ & _ & Hfd & _). split; simpl; by rewrite Hfd.
  - split; [|exact Hrec]. simpl. by rewrite app_nil_r.
  - split; simpl.
    + by apply (closeSocket_fds _ _ _ _ Hc).
    + intros _. by apply closeSocket_spec in Hc as (_ & ? & _).
Qed.

(** ** The wire *)

Lemma sendAll_from_spec results : ∀ data total ok accepted,
  (total ≤ length data)%nat →
  sendAll_from data total results = Some (ok, accepted) →
  (ok = true ∧ accepted = drop total data) ∨
  (ok = false ∧ ∃ rest, rest ≠ [] ∧ drop total data = accepted ++ rest).
Proof.
  induction results as [|r results IH]; intros data total ok accepted Hle H; cbn [sendAll_from] in H.
  - case_decide; [done|]. injection H as <- <-. left. by rewrite drop_ge by lia.
  - case_decide as Hlt; [|injection H as <- <-; left; by rewrite drop_ge by lia].
    assert (Hne : drop total data ≠ []).
    { intros Hd. apply (f_equal length) in Hd. rewrite length_drop in Hd. simpl in Hd. lia. }
    destruct r as [[|n]|[]].
    + injection H as <- <-. right. eauto.
    + apply bind_Some in H as ([ok' acc] & H & [= <- <-]).
      destruct (decide (total + S n ≤ length data)%nat).
      * apply IH in H as [[-> ->]|(-> & rest & Hr & Hd)]; [left|right|lia]; (split; [done|]).
        -- rewrite <- drop_drop. by rewrite take_drop.
        -- exists rest. split; [done|]. rewrite <- app_assoc, <- Hd, <- drop_drop. by rewrite take_drop.
      * assert (Hb : sendAll_from data (total + S n) results = Some (true, [])).
        { destruct results; cbn [sendAll_from]; by rewrite decide_False by lia. }
        rewrite Hb in H. injection H as <- <-. left. split; [done|].
        rewrite app_nil_r, take_ge; [done|]. rewrite length_drop. lia.
    + by apply IH in H.
    + injection H as <- <-. right. eauto.
Qed.

Definition is_eintr (r : send_result) : bool :=
  match r with SendError eintr => eintr | Sent _ => false end.

Lemma sendAll_from_eintr results : ∀ data total,
  sendAll_from data total (filter (λ r, is_eintr r = false) results) =
  sendAll_from data total results.
Proof.
  induction results as [|r results IH]; intros data total; [done|].
  rewrite filter_cons. destruct r as [n|[]].
  - rewrite decide_True by done. cbn [sendAll_from]. case_decide; [|done].
    destruct n; [done|]. by rewrite IH.
  - rewrite decide_False by done. rewrite IH. cbn [sendAll_from]. case_decide; [done|].
    destruct results; cbn [sendAll_from]; by rewrite decide_False.
  - rewrite decide_True by done. cbn [sendAll_from]. by case_decide.
Qed.

Definition sent_bytes (results : list send_result) : nat :=
  sum_list_with (λ r, match r with Sent n => n | SendError _ => 0%nat end) results.

Lemma sendAll_from_complete results : ∀ data total,
  Forall (λ r, ∃ n, r = Sent (S n)) results →
  (length data ≤ total + sent_bytes results)%nat →
  ∃ accepted, sendAll_from data total results = Some (true, accepted).
Proof.
  induction results as [|r results IH]; intros data total Hp Hs; cbn [sendAll_from].
  - unfold sent_bytes in Hs. simpl in Hs. rewrite decide_False by lia. eauto.
  - case_decide; [|eauto]. apply Forall_cons in Hp as [[n ->] Hp].
    destruct (IH data (total + S n)%nat Hp) as [acc ->]; [unfold sent_bytes in *; simpl in *; lia|].
    simpl. eauto.
Qed.

(** *** Packets *)

(** Items [dump] can print. *)
Definition good (j : json) : Prop := well_typed j ∧ utf8_value j.

Definition packet_json (batch : list json) : json :=
  JObject [(str "items", JArray batch); (str "type", JString (str "data"))].

Definition packet (body : bytes) : bytes := be_bytes 4 (u32 (Z.of_nat (length body))) ++ body.

Lemma batch_json_packet batch : batch_json batch = Val (packet_json batch).
Proof. done. Qed.

Lemma packet_node (P : json → Prop) batch :
  P (packet_json batch) → P (JArray batch) → P (JString (str "data")) →
  Forall (everywhere P) batch → everywhere P (packet_json batch).
Proof.
  intros H1 H2 H3 Hb. apply everywhere_object. split; [done|].
  repeat constructor; try done. by apply everywhere_array.
Qed.

Lemma packet_json_typed batch : Forall well_typed batch → well_typed (packet_json batch).
Proof. intros H. by apply packet_node. Qed.

Lemma packet_json_utf8 batch : utf8_value (packet_json batch) ↔ Forall utf8_value batch.
Proof.
  unfold utf8_value. split.
  - intros H. apply everywhere_object in H as [_ H]. apply Forall_cons in H as [H _].
    by apply everywhere_array in H as [_ H].
  - intros H. apply packet_node; [|done| |done]; cbn [utf8_node packet_json].
    + repeat constructor; by apply valid_quote_ascii.
    + by apply valid_quote_ascii.
Qed.

#[local] Transparent buildPacket.

Lemma buildPacket_cases e batch :
  Forall well_typed batch →
  (Forall utf8_value batch ∧ buildPacket e batch = Val (packet (render (packet_json batch)))) ∨
  (¬ Forall utf8_value batch ∧ ∃ what, buildPacket e batch = Throw what).
Proof.
  intros Hty. pose proof (packet_json_typed batch Hty) as Hpt.
  unfold buildPacket. rewrite batch_json_packet. cbn [mbind outcome_bind].
  destruct (dump_spec _ Hpt) as [[Hu ->]|[Hu [what ->]]]; rewrite packet_json_utf8 in Hu.
  - left. split; [done|]. cbn [mbind outcome_bind]. unfold packet, ByteOrderUtils.hostToNet32.
    by rewrite ByteOrderUtils.repr_host_be.
  - right. split; [done|]. by exists what.
Qed.

#[local] Opaque buildPacket.

Lemma good_split batch :
  Forall good batch ↔ Forall well_typed batch ∧ Forall utf8_value batch.
Proof. unfold good. by rewrite Forall_and. Qed.

Lemma buildPacket_good e batch :
  Forall good batch → buildPacket e batch = Val (packet (render (packet_json batch))).
Proof.
  intros (Ht & Hu)%good_split. destruct (buildPacket_cases e batch Ht) as [[_ H]|[H _]]; [done|].
  by destruct H.
Qed.

Lemma packet_nonempty body : (0 < length (packet body))%nat.
Proof. unfold packet. rewrite length_app, length_be_bytes. lia. Qed.

(** A receiver of the format: a four-byte length, then that much JSON. *)
Definition read_packet (s : bytes) : option (json * bytes) :=
  let len := Z.to_nat (be_val (take 4 s)) in
  let rest := drop 4 s in
  if decide (4 ≤ length s ∧ len ≤ length rest)%nat
  then j ← read_json (take len rest); Some (j, drop len rest) else None.

Fixpoint read_packets (n : nat) (s : bytes) : option (list json) :=
  match n with
  | O => if decide (s = []) then Some [] else None
  | S n => '(j, s) ← read_packet s; cons j <$> read_packets n s
  end.

Lemma read_packet_text body j rest :
  Z.of_nat (length body) < 2 ^ 32 → read_json body = Some j →
  read_packet (packet body ++ rest) = Some (j, rest).
Proof.
  intros Hlen Hj. unfold read_packet, packet. rewrite <- app_assoc.
  assert (H4 : length (be_bytes 4 (u32 (Z.of_nat (length body)))) = 4%nat) by apply length_be_bytes.
  rewrite take_app_length' by done. rewrite drop_app_length' by done.
  rewrite be_val_bytes. change (256 ^ Z.of_nat 4) with (2 ^ 32).
  unfold wrap. rewrite Zmod_mod, Z.mod_small by lia. rewrite Nat2Z.id.
  rewrite decide_True by (rewrite !length_app, length_be_bytes; lia).
  rewrite take_app_length, drop_app_length, Hj. done.
Qed.

(** ** The stream of a connection *)

(** What has been written since the last [socket] call. *)
Definition stream (cs : list syscall) : bytes :=
  foldl (λ acc c, match c with
                  | Socket _ => []
                  | Write data => acc ++ data
                  | _ => acc
                  end) [] cs.

Lemma stream_app cs cs' :
  stream (cs ++ cs') = foldl (λ acc c, match c with
                  | Socket _ => []
                  | Write data => acc ++ data
                  | _ => acc
                  end) (stream cs) cs'.
Proof. unfold stream. apply foldl_app. Qed.

(** A concatenation of packets of batches. *)
Definition whole_packets (e : endian) (s : bytes) : Prop :=
  ∃ batches packets, Forall2 (λ b p, buildPacket e b = Val p) batches packets ∧ s = concat packets.

(** An open connection carries whole packets, except between a failed send and
    the call that closes the socket, where a part of one more may follow. *)
Definition stream_inv (e : endian) (w : sys) : Prop :=
  0 ≤ m_sockfd (sender w) →
  match worker w with
  | RollingBack batch ThenReconnect =>
      ∃ s part rest p, whole_packets e s ∧ buildPacket e batch = Val p ∧ rest ≠ [] ∧
        p = part ++ rest ∧ stream (calls w) = s ++ part
  | Reconnecting => False
  | _ => whole_packets e (stream (calls w))
  end.

Lemma whole_packets_nil e : whole_packets e [].
Proof. exists [], []. by split. Qed.

Lemma whole_packets_snoc e s b p :
  whole_packets e s → buildPacket e b = Val p → whole_packets e (s ++ p).
Proof.
  intros (bs & ps & Hf & ->) Hb. exists (bs ++ [b]), (ps ++ [p]).
  split; [by apply Forall2_app; [|constructor]|]. rewrite concat_app. simpl. by rewrite app_nil_r.
Qed.

Lemma stream_inv_preserved e : preserved (steps_to e) (stream_inv e).
Proof.
  intros w w' [ev Hstep] Hinv. unfold stream_inv in *.
  apply step_cases in Hstep
    as [(i & -> & Hr)|[(j & s' & -> & Hq & ->)|[(-> & ->)|(-> & Hfin & s' & cs & Hc & ->)]]].
  - unfold run_step in Hr.
    worker_cases i Hr.
    + injection Hr as <-. cbn [worker go sender calls]. by destruct (_ || _).
    + destruct (timed_out || _ || _); [|discriminate Hr]. injection Hr as <-. unfold take_batch.
      destruct (m_queue (sender w)); [done|]. flush_test; [|done].
      cbn. by rewrite app_nil_r.
    + destruct (m_sockfd (sender w) <? 0); [done|]. by injection Hr as <-.
    + destruct (m_sockfd (sender w) <? 0); [|done]. injection Hr as Hr.
      apply bind_Val_inv in Hr as ([[ok s'] new] & Ht & [= <-]).
      apply tryReconnect_spec in Ht as (_ & _ & _ & _ & _ & Hok & Hfail).
      destruct ok; cbn [worker go sender calls set_sender].
      * destruct (Hok eq_refl) as (_ & _ & -> & _). intros _. rewrite stream_app.
        apply whole_packets_nil.
      * destruct (Hfail eq_refl) as (Hneg & _). lia.
    + destruct (buildPacket e batch) as [packet| |] eqn:Hp; [|done..].
      destruct (sendAll packet results) as [[ok accepted]|] eqn:Hs; [|done]. injection Hr as <-.
      apply sendAll_from_spec in Hs; [|lia]. rewrite drop_0 in Hs.
      destruct ok; cbn [worker go sender calls set_sender]; intros Hfd; specialize (Hinv Hfd);
        rewrite stream_app; cbn [foldl].
      * destruct Hs as [[_ ->]|[? _]]; [|done]. by eapply whole_packets_snoc.
      * destruct Hs as [[? _]|(_ & rest & Hne & Hd)]; [done|].
        exists (stream (calls w)), accepted, rest, packet.
        split_and!; [exact Hinv|exact Hp|exact Hne|exact Hd|reflexivity].
    + injection Hr as <-. cbn [worker go sender calls set_sender]. by rewrite app_nil_r.
    + destruct (closeSocket (rollback batch (sender w))) as [s' new] eqn:Hc. injection Hr as <-.
      apply closeSocket_spec in Hc as (_ & Hneg & _). simpl. lia.
    + injection Hr as Hr. apply bind_Val_inv in Hr as ([[ok s'] new] & Ht & [= <-]).
      apply tryReconnect_spec in Ht as (_ & _ & _ & _ & _ & Hok & Hfail). simpl. intros Hfd.
      destruct ok; [|destruct (Hfail eq_refl) as (Hneg & _); lia].
      destruct (Hok eq_refl) as (_ & _ & -> & _). rewrite stream_app. apply whole_packets_nil.
  - apply enqueue_spec in Hq as (_ & _ & Hfd & _). simpl. by rewrite Hfd.
  - simpl. by rewrite app_nil_r.
  - simpl. apply closeSocket_spec in Hc as (_ & Hneg & _). lia.
Qed.

(** ** The backoff *)

Definition fails (c : connect_result) : Prop :=
  socket_fd c < 0 ∨ inet_pton_result c ≤ 0 ∨ connect_value c < 0.

(** Consecutive calls of [tryReconnect]. *)
Fixpoint reconnects (cs : list connect_result) (s : t) : outcome (t * list syscall) :=
  match cs with
  | [] => Val (s, [])
  | c :: cs =>
      '(_, s, calls) ← tryReconnect c s;
      '(s, more) ← reconnects cs s;
      Val (s, calls ++ more)
  end.

(** The delay before the attempt after [n] failures. *)
Definition backoff (max : Z) (n : nat) : Z :=
  match n with O => 500 | _ => Z.min (500 * 2 ^ Z.of_nat n) max end.

Definition sleeps (cs : list syscall) : list Z :=
  omap (λ c, match c with Sleep ms => Some ms | _ => None end) cs.

Lemma connectSocket_fails c s ok s' new :
  fails c → connectSocket c s = (ok, s', new) →
  ok = false ∧ m_currentBackoff s' = m_currentBackoff s.
Proof.
  intros Hc. unfold connectSocket, closeSocket. simpl. unfold fails in Hc.
  destruct (Z.ltb_spec (socket_fd c) 0); simpl; [by intros [= <- <- <-]|].
  assert (0 <=? socket_fd c = true) as -> by lia.
  destruct (Z.leb_spec (inet_pton_result c) 0); simpl; [by intros [= <- <- <-]|].
  destruct (Z.ltb_spec (connect_value c) 0); simpl; [by intros [= <- <- <-]|lia].
Qed.

Lemma tryReconnect_fails_ok c s ok s' new :
  fails c → tryReconnect c s = Val (ok, s', new) → ok = false.
Proof.
  intros Hc. unfold tryReconnect. destruct (connectSocket c s) as [[ok1 s1] calls] eqn:Hcs.
  destruct (connectSocket_fails _ _ _ _ _ Hc Hcs) as [-> _]. case_decide; [|done].
  by intros [= <- _ _].
Qed.

Lemma tryReconnect_fails c s :
  fails c → in_signed 32 (m_currentBackoff s * 2) →
  ∃ s' new, tryReconnect c s = Val (false, s', new) ∧ sleeps new = [m_currentBackoff s] ∧
    m_currentBackoff s' = Z.min (m_currentBackoff s * 2) (maxBackoffMs (m_opt s)) ∧
    m_opt s' = m_opt s.
Proof.
  intros Hf Hb. unfold tryReconnect, connectSocket, closeSocket. simpl.
  destruct (Z.ltb_spec (socket_fd c) 0); simpl; [rewrite decide_True by done; eauto 8|].
  assert (0 <=? socket_fd c = true) as -> by lia.
  destruct (Z.leb_spec (inet_pton_result c) 0); simpl; [rewrite decide_True by done; eauto 8|].
  destruct (Z.ltb_spec (connect_value c) 0); simpl; [rewrite decide_True by done; eauto 8|].
  unfold fails in Hf. lia.
Qed.

Lemma backoff_next max n :
  500 ≤ max →
  Z.min (backoff max n * 2) max = backoff max (S n).
Proof.
  intros Hm. unfold backoff. rewrite (Nat2Z.inj_succ n), Z.pow_succ_r by lia.
  destruct n as [|n]; [simpl; lia|]. lia.
Qed.

Lemma reconnects_backoff cs : ∀ n s,
  Forall fails cs → 500 ≤ maxBackoffMs (m_opt s) < 2 ^ 30 →
  m_currentBackoff s = backoff (maxBackoffMs (m_opt s)) n →
  ∃ s' new, reconnects cs s = Val (s', new) ∧
    sleeps new = backoff (maxBackoffMs (m_opt s)) <$> seq n (length cs) ∧
    m_currentBackoff s' = backoff (maxBackoffMs (m_opt s)) (n + length cs).
Proof.
  induction cs as [|c cs IH]; intros n s Hf Hmax Hs; cbn [reconnects].
  - exists s, []. by rewrite Nat.add_0_r.
  - apply Forall_cons in Hf as [Hc Hf].
    assert (Hr : 500 ≤ backoff (maxBackoffMs (m_opt s)) n < 2 ^ 30).
    { unfold backoff. destruct n; [lia|].
      assert (1 ≤ 2 ^ Z.of_nat (S n)) by (apply Z.lt_pred_le, Z.pow_pos_nonneg; lia). lia. }
    destruct (tryReconnect_fails c s Hc) as (s1 & new & -> & Hsl & Hb & Ho).
    { rewrite Hs. unfold in_signed. lia. }
    cbn [mbind outcome_bind].
    rewrite Hs, backoff_next in Hb by lia. rewrite <- Ho in Hb, Hmax.
    destruct (IH (S n) s1 Hf Hmax Hb) as (s2 & more & -> & Hsl2 & Hb2).
    cbn [mbind outcome_bind]. exists s2, (new ++ more). rewrite <- Ho. split_and!; [done| |].
    + unfold sleeps in *. rewrite omap_app, Hsl, Hsl2, Hs, Ho. done.
    + rewrite Hb2. f_equal. simpl. lia.
Qed.

(** A limit of 2^30 or more is reached by doubling past [int]. *)
Lemma reconnects_overflow cs : ∀ n s,
  Forall fails cs → 2 ^ 30 ≤ maxBackoffMs (m_opt s) < 2 ^ 31 →
  m_currentBackoff s = backoff (maxBackoffMs (m_opt s)) n →
  (23 ≤ n + length cs)%nat → (n ≤ 22)%nat →
  reconnects cs s = Undefined.
Proof.
  induction cs as [|c cs IH]; intros n s Hf Hmax Hs Hlen Hn; [simpl in Hlen; lia|].
  apply Forall_cons in Hf as [Hc Hf]. cbn [reconnects].
  assert (Hpow : ∀ m, (m ≤ 21)%nat → 500 * 2 ^ Z.of_nat m ≤ 1048576000).
  { intros m Hm. change 1048576000 with (500 * 2 ^ Z.of_nat 21).
    apply Z.mul_le_mono_nonneg_l; [lia|]. apply Z.pow_le_mono_r; lia. }
  destruct (decide (n = 22%nat)) as [->|Hne].
  - unfold tryReconnect.
    destruct (connectSocket c s) as [[ok s1] calls] eqn:Hcs.
    pose proof (connectSocket_fails _ _ _ _ _ Hc Hcs) as Hok.
    destruct Hok as [-> Hb]. cbn [m_currentBackoff with_stats]. rewrite decide_False; [done|].
    simpl. rewrite Hb, Hs. unfold backoff, in_signed.
    change (500 * 2 ^ Z.of_nat 22) with 2097152000. lia.
  - assert (Hbn : backoff (maxBackoffMs (m_opt s)) n ≤ 1048576000).
    { unfold backoff. destruct n; [lia|]. specialize (Hpow (S n)). lia. }
    assert (0 ≤ backoff (maxBackoffMs (m_opt s)) n).
    { unfold backoff. destruct n; [lia|]. assert (0 ≤ 2 ^ Z.of_nat (S n)) by (apply Z.pow_nonneg; lia). lia. }
    destruct (tryReconnect_fails c s Hc) as (s1 & new & -> & Hsl & Hb & Ho).
    { rewrite Hs. unfold in_signed. lia. }
    cbn [mbind outcome_bind].
    rewrite Hs, backoff_next in Hb by lia. rewrite <- Ho in Hb, Hmax.
    rewrite (IH (S n) s1); [done|done|done|done|simpl in Hlen; lia|lia].
Qed.

(** ** No step without meaning *)

Definition sane (opt : Options) : Prop :=
  (1 ≤ maxQueueSize opt)%nat ∧ 0 ≤ maxBackoffMs opt < 2 ^ 30.

#[global] Instance sane_dec opt : Decision (sane opt).
Proof. unfold sane. apply _. Defined.

Record safe_inv (w : sys) : Prop := {
  si_sane : sane (m_opt (sender w));
  si_backoff : 0 ≤ m_currentBackoff (sender w) < 2 ^ 30;
  si_good : Forall good (in_flight w ++ m_queue (sender w));
}.

Lemma tryReconnect_safe c s :
  0 ≤ maxBackoffMs (m_opt s) < 2 ^ 30 → 0 ≤ m_currentBackoff s < 2 ^ 30 →
  ∃ ok s' new, tryReconnect c s = Val (ok, s', new) ∧ 0 ≤ m_currentBackoff s' < 2 ^ 30.
Proof.
  intros Hm Hb.
  assert (Hin : in_signed 32 (m_currentBackoff s * 2)) by (unfold in_signed; lia).
  unfold tryReconnect, connectSocket, closeSocket. simpl.
  destruct (socket_fd c <? 0), (inet_pton_result c <=? 0), (connect_value c <? 0),
    (0 <=? socket_fd c); simpl; rewrite ?(decide_True (P := in_signed 32 _)) by done;
    eexists _, _, _; (split; [reflexivity|]); simpl; lia.
Qed.

Definition good_event (ev : event) : Prop :=
  match ev with Enqueue j => good j | _ => True end.

Lemma run_step_safe e i w r :
  safe_inv w → run_step e i w = Some r → ∃ w', r = Val w' ∧ safe_inv w'.
Proof.
  intros [[Hmax Hbo] Hb Hg] Hr.
  assert (H : ∃ w', r = Val w' ∧ 0 ≤ m_currentBackoff (sender w') < 2 ^ 30 ∧
    (Forall good (in_flight w' ++ m_queue (sender w')))).
  { unfold run_step in Hr. unfold in_flight in Hg.
    worker_cases i Hr.
    - injection Hr as <-. eexists. split; [done|]. split; [done|].
      unfold in_flight. simpl. by destruct (_ || _).
    - destruct (timed_out || _ || _); [|discriminate Hr]. injection Hr as <-.
      eexists. split; [done|]. unfold take_batch.
      destruct (m_queue (sender w)) eqn:Hq; [split; [done|]; simpl; by rewrite Hq|].
      rewrite <- Hq in *. flush_test; cbn -[take drop]; (split; [done|]); [|done].
      unfold in_flight. cbn -[take drop]. by rewrite take_drop.
    - destruct (m_sockfd (sender w) <? 0); [done|]. injection Hr as <-. by eexists.
    - destruct (m_sockfd (sender w) <? 0); [|done]. injection Hr as <-.
      destruct (tryReconnect_safe c (sender w) Hbo Hb) as (ok & s' & new & Ht & Hb').
      pose proof (tryReconnect_spec _ _ _ _ _ Ht) as (Hq & _).
      rewrite Ht. cbn [mbind outcome_bind]. eexists. split; [done|].
      destruct ok; (split; [exact Hb'|]); unfold in_flight; simpl; by rewrite Hq.
    - apply Forall_app in Hg as [Hg1 Hg2]. rewrite (buildPacket_good e batch Hg1) in Hr.
      destruct (sendAll _ results) as [[ok accepted]|]; [|discriminate]. injection Hr as <-.
      eexists. split; [reflexivity|].
      destruct ok; unfold in_flight; simpl; (split; [lia|]); [done|by apply Forall_app].
    - injection Hr as <-. eexists. split; [reflexivity|]. split; [exact Hb|].
      unfold in_flight. cbn -[rollback]. by rewrite rollback_queue.
    - destruct (closeSocket (rollback batch (sender w))) as [s' new] eqn:Hc.
      injection Hr as <-. apply closeSocket_spec in Hc as (-> & _).
      eexists. split; [reflexivity|]. split; [exact Hb|].
      unfold in_flight. cbn -[rollback]. by rewrite rollback_queue.
    - injection Hr as <-.
      destruct (tryReconnect_safe c (sender w) Hbo Hb) as (ok & s' & new & Ht & Hb').
      pose proof (tryReconnect_spec _ _ _ _ _ Ht) as (Hq & _).
      rewrite Ht. cbn [mbind outcome_bind]. eexists. split; [done|].
      split; [exact Hb'|]. unfold in_flight; simpl; by rewrite Hq. }
  destruct H as (w' & -> & Hb' & Hg'). exists w'. split; [done|].
  apply run_step_contents in Hr as (_ & _ & _ & Ho & _). split; [by rewrite Ho|done..].
Qed.

Lemma step_safe e ev w r :
  safe_inv w → good_event ev → step e ev w = Some r → ∃ w', r = Val w' ∧ safe_inv w'.
Proof.
  intros Hinv Hev Hr. destruct ev as [j| | |i]; cbn [step] in Hr.
  - injection Hr as <-. destruct Hinv as [[Hmax Hbo] Hb Hg].
    destruct (enqueue j (sender w)) as [s'| |] eqn:Hq.
    + cbn [mbind outcome_bind]. eexists. split; [done|].
      apply enqueue_spec in Hq as (Ho & _ & _ & Hbk & _ & _ & Hq).
      split; simpl; rewrite ?Ho, ?Hbk; [done..|]. unfold in_flight in *. simpl.
      apply Forall_app in Hg as [Hg1 Hg2]. apply Forall_app. split; [done|].
      destruct Hq as [(_ & x & q & Hx & -> & _)|(_ & -> & _)]; apply Forall_app; (split; [|by constructor]).
      * rewrite Hx in Hg2. by apply Forall_cons in Hg2 as [_ ?].
      * done.
    + exfalso. unfold enqueue in Hq. case_decide; [|done]. by destruct (m_queue (sender w)).
    + exfalso. unfold enqueue in Hq. case_decide; [|done].
      destruct (m_queue (sender w)); [simpl in *; lia|done].
  - injection Hr as <-. eexists. split; [done|]. by destruct Hinv as [? ? ?].
  - destruct (worker w) eqn:Hw; try discriminate.
    destruct (closeSocket (sender w)) as [s' new] eqn:Hc. injection Hr as <-.
    apply closeSocket_spec in Hc as (-> & _). eexists. split; [done|].
    by destruct Hinv as [? ? ?].
  - by eapply run_step_safe.
Qed.

Lemma run_safe e evs : ∀ w,
  safe_inv w → Forall good_event evs →
  run e evs w = None ∨ ∃ w', run e evs w = Some (Val w') ∧ safe_inv w'.
Proof.
  induction evs as [|ev evs IH]; intros w Hw Hevs; [right; by exists w|].
  apply Forall_cons in Hevs as [Hev Hevs]. cbn [run].
  destruct (step e ev w) as [r|] eqn:Hs; [|by left].
  destruct (step_safe e ev w r Hw Hev Hs) as (w' & -> & Hw'). by apply IH.
Qed.

(** ** Stopping *)

(** Inputs of a network that works. *)
Definition healthy (e : endian) (w : sys) (i : input) : Prop :=
  match i with
  | IConnect c => 0 ≤ socket_fd c ∧ 0 < inet_pton_result c ∧ 0 ≤ connect_value c
  | ISend results _ =>
      match worker w with
      | Sending batch => ∃ p acc, buildPacket e batch = Val p ∧ sendAll p results = Some (true, acc)
      | _ => True
      end
  | _ => True
  end.

Definition healthy_step (e : endian) (w w' : sys) : Prop :=
  ∃ i, healthy e w i ∧ run_step e i w = Some (Val w').

(** A sender whose stop has been requested. *)
Record draining (w : sys) : Prop := {
  dr_stop : m_running (sender w) = false;
  dr_batch : (1 ≤ batchSize (m_opt (sender w)))%nat;
  dr_good : Forall good (in_flight w ++ m_queue (sender w));
  dr_flight : match worker w with HasBatch b | Sending b => b ≠ [] | _ => True end;
  dr_done : worker w = Finished → m_queue (sender w) = [];
}.

(** Steps left, at most. *)
Definition steps_left (w : sys) : nat :=
  let q := length (m_queue (sender w)) in
  match worker w with
  | LoopTest => 4 * q + 1
  | Waiting => match q with O => 2 | _ => 4 * q end
  | HasBatch b => 4 * q + 4 * length b - 1
  | Sending b => 4 * q + 4 * length b - 2
  | RollingBack b ThenContinue => 4 * (q + length b) + 2
  | RollingBack b ThenReconnect => 4 * (q + length b) + 3
  | Reconnecting => 4 * q + 2
  | Finished => 0
  end.

Lemma healthy_connect c s :
  0 ≤ socket_fd c → 0 < inet_pton_result c → 0 ≤ connect_value c →
  tryReconnect c s = Val (true, with_sockfd (socket_fd c) s, [Socket (socket_fd c)]).
Proof.
  intros H1 H2 H3. unfold tryReconnect, connectSocket. simpl.
  rewrite (proj2 (Z.ltb_ge _ _)), (proj2 (Z.leb_gt _ _)), (proj2 (Z.ltb_ge (connect_value c) 0)) by done.
  done.
Qed.

Lemma run_step_good e i w w' :
  run_step e i w = Some (Val w') →
  Forall good (in_flight w ++ m_queue (sender w)) → Forall good (in_flight w' ++ m_queue (sender w')).
Proof.
  intros (Hc & _ & _ & _ & _ & _ & Hd)%run_step_contents Hg. unfold contents in Hc.
  destruct Hd as [[Hd _]|(batch & Hd & _)]; rewrite Hd in Hc.
  - apply app_inv_head in Hc. by rewrite Hc.
  - rewrite <- app_assoc in Hc. apply app_inv_head in Hc. rewrite <- Hc in Hg.
    by apply Forall_app in Hg as [_ ?].
Qed.

Lemma healthy_progress e w w' :
  draining w → healthy_step e w w' →
  draining w' ∧ (steps_left w' < steps_left w)%nat ∧ contents w' = contents w.
Proof.
  intros [Hstop Hbatch Hgood Hflight Hdone] (i & Hh & Hr).
  pose proof (run_step_good _ _ _ _ Hr Hgood) as Hgood'.
  pose proof (run_step_contents _ _ _ _ Hr) as (Hc & _ & _ & Ho & Hrun & _).
  assert (H : (match worker w' with HasBatch b | Sending b => b ≠ [] | _ => True end) ∧
    (worker w' = Finished → m_queue (sender w') = []) ∧ (steps_left w' < steps_left w)%nat).
  2: { destruct H as (H1 & H2 & H3). split; [|done].
       split; [by rewrite Hrun|by rewrite Ho|done..]. }
  clear Hgood' Hc Ho Hrun. unfold run_step in Hr. unfold steps_left.
  worker_cases i Hr.
  - injection Hr as <-. cbn [worker go sender]. rewrite Hstop. simpl.
    case_bool_decide as Hq; [|rewrite Hq; simpl; split_and!; (done || lia)].
    split_and!; [done..|]. destruct (m_queue (sender w)); [done|]. simpl. lia.
  - destruct (timed_out || _ || _); [|discriminate Hr]. injection Hr as <-. unfold take_batch.
    destruct (m_queue (sender w)) as [|x q] eqn:Hq.
    { simpl. rewrite Hq. simpl. split_and!; [done..|lia]. }
    rewrite Hstop, orb_true_r. cbn -[take drop].
    assert (Hn : (1 ≤ batchSize (m_opt (sender w)) `min` S (length q) ≤ S (length q))%nat) by lia.
    split_and!; [|done|].
    + intros Ht. apply (f_equal length) in Ht. rewrite length_take in Ht. simpl in Ht. lia.
    + rewrite length_take, length_drop. cbn [length]. lia.
  - destruct (m_sockfd (sender w) <? 0); [done|]. injection Hr as <-. simpl.
    split_and!; [done..|]. destruct batch; [destruct (Hflight eq_refl)|simpl; lia].
  - destruct (m_sockfd (sender w) <? 0); [|done]. destruct Hh as (H1 & H2 & H3).
    rewrite healthy_connect in Hr by done. injection Hr as <-. simpl.
    split_and!; [done..|]. destruct batch; [destruct (Hflight eq_refl)|simpl; lia].
  - cbn in Hh. rewrite Hpc in Hh. destruct Hh as (p & acc & Hp & Hs). rewrite Hp, Hs in Hr.
    injection Hr as <-. clear Hp Hs. simpl. split_and!; [done..|]. destruct batch; [destruct (Hflight eq_refl)|simpl; lia].
  - injection Hr as <-. cbn -[rollback]. rewrite rollback_queue, length_app.
    split_and!; [done..|lia].
  - destruct (closeSocket (rollback batch (sender w))) as [s' new] eqn:Hc.
    apply closeSocket_spec in Hc as (-> & _). injection Hr as <-.
    cbn -[rollback]. rewrite rollback_queue, length_app. split_and!; [done..|lia].
  - destruct Hh as (H1 & H2 & H3).
    rewrite healthy_connect in Hr by done. injection Hr as <-. simpl.
    split_and!; [done..|lia].
Qed.

(** A healthy network always has a next step to offer. *)
Lemma healthy_enabled e w :
  draining w → worker w ≠ Finished → ∃ w', healthy_step e w w'.
Proof.
  intros [Hstop Hbatch Hgood Hflight Hdone] Hpc. unfold healthy_step.
  set (c := ConnectResult 3 1 0).
  assert (Hc : ∀ s, tryReconnect c s = Val (true, with_sockfd 3 s, [Socket 3]))
    by (intros s; by apply healthy_connect).
  destruct (worker w) as [| |batch|batch|batch k| |] eqn:Hw; [..|done].
  - eexists. exists INone. split; [done|]. unfold run_step. by rewrite Hw.
  - eexists. exists (IWake true 0). split; [done|]. unfold run_step. by rewrite Hw.
  - destruct (m_sockfd (sender w) <? 0) eqn:Hfd.
    + eexists. exists (IConnect c). split; [simpl; lia|]. unfold run_step. by rewrite Hw, Hfd, Hc.
    + eexists. exists INone. split; [done|]. unfold run_step. by rewrite Hw, Hfd.
  - unfold in_flight in Hgood. rewrite Hw in Hgood. apply Forall_app in Hgood as [Hg _].
    pose proof (buildPacket_good e batch Hg) as Hp.
    set (p := packet (render (packet_json batch))) in *.
    destruct (sendAll_from_complete [Sent (length p)] p 0) as [acc Hs].
    { constructor; [|constructor]. pose proof (packet_nonempty (render (packet_json batch))) as Hne.
      fold p in Hne. exists (pred (length p)). by rewrite Nat.succ_pred_pos. }
    { unfold sent_bytes. simpl. lia. }
    eexists. exists (ISend [Sent (length p)] 0). split; [unfold healthy; rewrite Hw; exists p, acc; split; [exact Hp|exact Hs]|].
    unfold run_step. rewrite Hw, Hp. unfold sendAll. by rewrite Hs.
  - destruct k.
    + eexists. exists INone. split; [done|]. unfold run_step. by rewrite Hw.
    + destruct (closeSocket (rollback batch (sender w))) as [s' new] eqn:Hcl.
      eexists. exists INone. split; [done|]. unfold run_step. by rewrite Hw, Hcl.
  - eexists. exists (IConnect c). split; [simpl; lia|]. unfold run_step. by rewrite Hw, Hc.
Qed.

(** ** A peer that never answers *)

Definition offline_step (e : endian) (w w' : sys) : Prop :=
  ∃ i, match i with IConnect c => fails c | _ => True end ∧ run_step e i w = Some (Val w').

(** Not connected, with the items [l] not yet sent. *)
Definition offline (l : list json) (w : sys) : Prop :=
  m_sockfd (sender w) < 0 ∧ in_flight w ++ m_queue (sender w) = l ∧
  match worker w with
  | LoopTest | Waiting | HasBatch _ | RollingBack _ ThenContinue => True
  | _ => False
  end.

Lemma offline_preserved e l : l ≠ [] → preserved (offline_step e) (offline l).
Proof.
  intros Hl w w' (i & Hi & Hr) (Hfd & Hitems & Hpc). unfold offline, in_flight in *.
  unfold run_step in Hr. worker_cases i Hr; try match type of Hpc with False => destruct Hpc end.
  - simpl in Hitems. injection Hr as <-. simpl. rewrite Hitems.
    rewrite bool_decide_true by done. by rewrite orb_true_r.
  - destruct (timed_out || _ || _); [|discriminate Hr]. injection Hr as <-. unfold take_batch.
    simpl in Hitems. rewrite Hitems. destruct l as [|x l]; [done|].
    flush_test; cbn -[take drop]; [by rewrite take_drop|done].
  - rewrite (proj2 (Z.ltb_lt _ _)) in Hr by done. discriminate Hr.
  - rewrite (proj2 (Z.ltb_lt _ _)) in Hr by done. injection Hr as Hr.
    apply bind_Val_inv in Hr as ([[ok s'] new] & Ht & [= <-]).
    pose proof (tryReconnect_fails_ok _ _ _ _ _ Hi Ht) as ->.
    apply tryReconnect_spec in Ht as (Hq & _ & _ & _ & _ & Hok & Hfail).
    destruct (Hfail eq_refl) as (Hneg & _). simpl. by rewrite Hq.
  - injection Hr as <-. cbn -[rollback]. by rewrite rollback_queue.
Qed.

(** ** Empty batches *)

Lemma zero_batch_preserved e :
  preserved (steps_to e)
    (λ w, batchSize (m_opt (sender w)) = 0%nat ∧ delivered w = [] ∧ in_flight w = []).
Proof.
  intros w w' [ev Hstep] (Hb & Hd & Hf).
  apply step_cases in Hstep
    as [(i & -> & Hr)|[(j & s' & -> & Hq & ->)|[(-> & ->)|(-> & Hfin & s' & cs & Hc & ->)]]].
  - pose proof (run_step_contents _ _ _ _ Hr) as (_ & _ & _ & Ho & _).
    pose proof (run_step_in_flight _ _ _ _ Hr) as Hfl. rewrite Ho. split_and!; [done| |].
    + unfold run_step in Hr. unfold in_flight in Hf. worker_cases i Hr.
      * injection Hr as <-. done.
      * destruct (timed_out || _ || _); [|discriminate Hr]. injection Hr as <-. unfold take_batch.
        destruct (m_queue (sender w)); [done|]. by flush_test.
      * destruct (m_sockfd (sender w) <? 0); [done|]. by injection Hr as <-.
      * destruct (m_sockfd (sender w) <? 0); [|done]. injection Hr as Hr.
        by apply bind_Val_inv in Hr as ([[ok s'] new] & Ht & [= <-]).
      * destruct (buildPacket e batch) as [packet| |]; [|discriminate Hr..].
        destruct (sendAll packet results) as [[ok accepted]|]; [|discriminate Hr]. injection Hr as <-.
        rewrite Hf. destruct ok; simpl; [by rewrite Hd|done].
      * by injection Hr as <-.
      * destruct (closeSocket (rollback batch (sender w))) as [s' new]. by injection Hr as <-.
      * injection Hr as Hr. by apply bind_Val_inv in Hr as ([[ok s'] new] & Ht & [= <-]).
    + destruct Hfl as [->|[->|Hfl]]; [done..|]. rewrite Hb in Hfl.
      destruct (in_flight w'); [done|simpl in Hfl; lia].
  - apply enqueue_spec in Hq as (Ho & _). simpl. by rewrite Ho.
  - done.
  - apply closeSocket_spec in Hc as (-> & _). done.
Qed.

(** ** Runs *)

Definition reachable (e : endian) (opt : Options) (w : sys) : Prop :=
  ∃ ip port now, rtc (steps_to e) (init ip port opt now) w.

Lemma run_rtc e evs : ∀ w w', run e evs w = Some (Val w') → rtc (steps_to e) w w'.
Proof.
  induction evs as [|ev evs IH]; intros w w' H; cbn [run] in H.
  - injection H as <-. constructor.
  - destruct (step e ev w) as [[w1| |]|] eqn:Hs; try discriminate H.
    eapply rtc_l; [by exists ev|by apply IH].
Qed.

Lemma reachable_queue_inv e opt w : reachable e opt w → queue_inv opt w.
Proof.
  intros (ip & port & now & H). eapply preserved_rtc; [apply queue_inv_preserved|exact H|].
  by split.
Qed.
End Sender.

Import Sender.

(** C11. No item is lost, invented or overtaken: whatever the interleaving of
    callers and worker and whatever the network does, the items reported sent,
    then those in the worker's hands, then the queue, are the items accepted in
    their order of arrival minus those dropped, and the two counters of
    [getStats] count the sent and the dropped ones (modulo 2^64). *)
Theorem sender_conserves_items (e : endian) (opt : Options) (w : sys) :
  reachable e opt w →
  sublist (delivered w ++ in_flight w ++ m_queue (sender w)) (enqueued w) ∧
  (delivered w ++ in_flight w ++ m_queue (sender w)) ++ dropped w ≡ₚ enqueued w ∧
  totalSent (getStats (sender w)) = u64 (Z.of_nat (length (delivered w))) ∧
  totalDropped (getStats (sender w)) = u64 (Z.of_nat (length (dropped w))).
Proof. intros H. by destruct (reachable_queue_inv e opt w H). Qed.

(** Three items, one dropped, a failed send, and a batch delivered on the second
    connection. *)
Definition sample_options : Options := MkOptions 1 1000 2 8000.
Definition sample_events : list event :=
  [Enqueue (JInteger 1); Enqueue (JInteger 2); Worker INone; Worker (IWake false 0);
   Enqueue (JInteger 3); Enqueue (JInteger 4);
   Worker (IConnect (ConnectResult 3 1 0)); Worker (ISend [Sent 2; SendError true; SendError false] 0);
   Worker INone; Worker (IConnect (ConnectResult 3 1 0)); Worker INone; Worker (IWake false 0);
   Worker INone; Worker (ISend [Sent 200] 7)].
Definition sample_start : sys := init (str "10.0.0.1") 8888 sample_options 0.
Definition sample_state : sys := Eval vm_compute in
  match run LittleEndian sample_events sample_start with Some (Val w) => w | _ => sample_start end.

Lemma sample_reachable : reachable LittleEndian sample_options sample_state.
Proof.
  exists (str "10.0.0.1"), 8888, 0. apply (run_rtc _ sample_events). vm_compute. reflexivity.
Qed.

Example sample_contents :
  enqueued sample_state = [JInteger 1; JInteger 2; JInteger 3; JInteger 4] ∧
  delivered sample_state = [JInteger 1] ∧ dropped sample_state = [JInteger 2] ∧
  m_queue (sender sample_state) = [JInteger 3; JInteger 4].
Proof. vm_compute. done. Qed.

Lemma sender_conserves_items_witness :
  sublist [JInteger 1; JInteger 3; JInteger 4]
    [JInteger 1; JInteger 2; JInteger 3; JInteger 4] ∧
  totalDropped (getStats (sender sample_state)) = u64 1.
Proof.
  destruct (sender_conserves_items LittleEndian sample_options sample_state sample_reachable)
    as (H1 & _ & _ & H2).
  split; [exact H1|exact H2].
Defined.

(** Memory is bounded: with room for at least one item, the queue and the
    batch in the worker's hands never hold more than [maxQueueSize + batchSize]
    items together, and a batch never more than [batchSize].  (A rolled back batch
    can leave the queue itself above [maxQueueSize], but not above this.)  With no
    room at all the first [enqueue] pops an empty deque. *)
Theorem sender_memory_bound (e : endian) (opt : Options) (w : sys) :
  reachable e opt w →
  ((1 ≤ maxQueueSize opt)%nat →
     (length (in_flight w) ≤ batchSize opt ∧
      length (in_flight w) + length (m_queue (sender w)) ≤ maxQueueSize opt + batchSize opt)%nat) ∧
  (maxQueueSize opt = 0%nat → ∀ j, enqueue j (sender w) = Undefined).
Proof.
  intros Hr. pose proof (qi_opt _ _ (reachable_queue_inv e opt w Hr)) as Ho.
  destruct Hr as (ip & port & now & Hr). split.
  - intros H1. rewrite <- Ho.
    eapply (preserved_rtc _ (λ w, (1 ≤ maxQueueSize (m_opt (sender w)))%nat ∧ size_inv w));
      [apply size_inv_preserved|exact Hr|].
    split; [done|]. unfold size_inv. simpl. lia.
  - intros H0 j.
    assert (Hq : maxQueueSize (m_opt (sender w)) = 0%nat ∧ m_queue (sender w) = []).
    { eapply (preserved_rtc _ (λ w, maxQueueSize (m_opt (sender w)) = 0%nat ∧
        in_flight w ++ m_queue (sender w) = [])) in Hr; [|apply no_room_preserved|done].
      destruct Hr as [? [_ ?]%app_eq_nil]. done. }
    unfold enqueue. destruct Hq as [-> ->]. done.
Qed.

Lemma sender_memory_bound_witness :
  (length (in_flight sample_state) + length (m_queue (sender sample_state)) ≤ 2 + 1)%nat ∧
  enqueue JNull (sender (init [] 0 (MkOptions 1 1 0 1) 0)) = Undefined.
Proof.
  split.
  - apply (sender_memory_bound LittleEndian sample_options sample_state sample_reachable).
    simpl. lia.
  - apply (sender_memory_bound LittleEndian (MkOptions 1 1 0 1)); [|reflexivity].
    exists [], 0, 0. constructor.
Defined.

(** [sendAll]: true means that exactly the packet was accepted by the kernel,
    false that a proper prefix of it was; interrupted calls change nothing; and
    it does return true once calls that make progress add up to the packet. *)
Theorem sendAll_spec (data : bytes) (results : list send_result) :
  (∀ ok accepted, sendAll data results = Some (ok, accepted) →
     (ok = true ∧ accepted = data) ∨
     (ok = false ∧ ∃ rest, rest ≠ [] ∧ data = accepted ++ rest)) ∧
  sendAll data (filter (λ r, is_eintr r = false) results) = sendAll data results ∧
  (Forall (λ r, ∃ n, r = Sent (S n)) results → (length data ≤ sent_bytes results)%nat →
     sendAll data results = Some (true, data)).
Proof.
  assert (H1 : ∀ ok accepted, sendAll data results = Some (ok, accepted) →
     (ok = true ∧ accepted = data) ∨ (ok = false ∧ ∃ rest, rest ≠ [] ∧ data = accepted ++ rest)).
  { intros ok acc H. apply (sendAll_from_spec results data 0) in H; [|lia]. by rewrite drop_0 in H. }
  split_and!; [done|apply sendAll_from_eintr|].
  intros Hp Hs. destruct (sendAll_from_complete results data 0 Hp Hs) as [acc Hacc].
  destruct (H1 true acc Hacc) as [[_ ->]|[? _]]; [exact Hacc|discriminate].
Qed.

Lemma sendAll_spec_witness :
  sendAll (str "packet") [Sent 4; Sent 2] = Some (true, str "packet").
Proof.
  apply (sendAll_spec (str "packet") [Sent 4; Sent 2]).
  - repeat constructor; [by exists 3%nat|by exists 1%nat].
  - vm_compute. lia.
Defined.

(** C13. The stream on the wire: at every moment an open connection has carried a
    concatenation of whole packets, followed, only between a failed [send] and the
    [close] that follows it, by a proper prefix of one more. *)
Theorem sender_stream (e : endian) (opt : Options) (w : sys) :
  reachable e opt w → 0 ≤ m_sockfd (sender w) →
  match worker w with
  | RollingBack batch ThenReconnect =>
      ∃ s part rest p, whole_packets e s ∧ buildPacket e batch = Val p ∧ rest ≠ [] ∧
        p = part ++ rest ∧ stream (calls w) = s ++ part
  | Reconnecting => False
  | _ => whole_packets e (stream (calls w))
  end.
Proof.
  intros (ip & port & now & Hr) Hfd.
  apply (preserved_rtc _ (stream_inv e) _ _ (stream_inv_preserved e) Hr); [|done].
  unfold stream_inv. simpl. lia.
Qed.

Lemma sender_stream_witness : whole_packets LittleEndian (stream (calls sample_state)).
Proof.
  assert (H0 : 0 ≤ m_sockfd (sender sample_state)) by (vm_compute; discriminate).
  exact (sender_stream LittleEndian sample_options sample_state sample_reachable H0).
Defined.

(** C14. Packets are self-delimiting: a receiver that reads a length in network
    order and then that many bytes of JSON recovers, from the concatenation of any
    number of packets built on a host of either byte order, the batches, each as
    the object with members "items" and "type", in order.  The items are well typed,
    valid UTF-8 and within what the reader reads back ([readable_value]), and the text
    of each packet is shorter than 2^32 bytes, the largest length that can be
    written. *)
Theorem packets_roundtrip (e : endian) (batches : list (list json)) :
  Forall (λ b, Forall well_typed b ∧ Forall readable_value b ∧ Forall utf8_value b ∧
               Z.of_nat (length (render (packet_json b))) < 2 ^ 32) batches →
  ∃ packets, Forall2 (λ b p, buildPacket e b = Val p) batches packets ∧
    read_packets (length batches) (concat packets) =
      Some ((λ b, readable (packet_json b)) <$> batches).
Proof.
  induction 1 as [|b batches (Ht & Hr & Hu & Hlen) _ (packets & Hf & Hread)].
  - exists []. by split.
  - assert (Hgood : Forall good b).
    { by apply good_split. }
    exists (packet (render (packet_json b)) :: packets). split.
    + constructor; [by apply buildPacket_good|done].
    + cbn [length concat read_packets].
      rewrite (read_packet_text _ (readable (packet_json b))); [|done|].
      * cbn [mbind option_bind]. by rewrite Hread.
      * apply read_json_render; [by apply packet_node|by apply packet_json_utf8|by apply packet_node].
Qed.

Definition sample_batches : list (list json) := [[JInteger 1; JString (str "ok")]; []].

Lemma packets_roundtrip_witness :
  ∃ packets, Forall2 (λ b p, buildPacket BigEndian b = Val p) sample_batches packets ∧
    read_packets 2 (concat packets) =
      Some ((λ b, readable (packet_json b)) <$> sample_batches).
Proof.
  apply (packets_roundtrip BigEndian sample_batches).
  constructor; [|constructor; [|constructor]].
  - split_and!; [..|vm_compute; reflexivity].
    + repeat constructor; compute_done.
    + repeat constructor.
    + constructor; [by vm_compute|constructor; [|constructor]].
      split; [|exact I]. cbn [utf8_node]. compute_done.
  - split_and!; [constructor..|vm_compute; reflexivity].
Defined.

(** Reconnecting backs off exponentially: from a fresh or just successful
    sender, the delays of any number of consecutive failures are 500 ms, then 500
    doubled each time up to [maxBackoffMs], as long as that is below 2^30; at or
    above 2^30 the 23rd failure doubles past the range of [int]. *)
Theorem backoff_schedule (cs : list connect_result) (s : t) :
  Forall fails cs → m_currentBackoff s = 500 →
  (500 ≤ maxBackoffMs (m_opt s) < 2 ^ 30 →
     ∃ s' new, reconnects cs s = Val (s', new) ∧
       sleeps new = backoff (maxBackoffMs (m_opt s)) <$> seq 0 (length cs)) ∧
  (2 ^ 30 ≤ maxBackoffMs (m_opt s) < 2 ^ 31 → (23 ≤ length cs)%nat →
     reconnects cs s = Undefined).
Proof.
  intros Hf Hs. split.
  - intros Hm. destruct (reconnects_backoff cs 0 s Hf Hm Hs) as (s' & new & H1 & H2 & _). eauto.
  - intros Hm Hlen. apply (reconnects_overflow cs 0 s Hf Hm Hs); lia.
Qed.

Definition refused : connect_result := ConnectResult 3 1 (-1).

Lemma backoff_schedule_witness :
  (∃ s' new, reconnects (replicate 6 refused) (make [] 0 default_options) = Val (s', new) ∧
     sleeps new = [500; 1000; 2000; 4000; 8000; 8000]) ∧
  reconnects (replicate 23 refused) (make [] 0 (MkOptions 1 1 1 (2 ^ 30))) = Undefined.
Proof.
  assert (Hf : ∀ n, Forall fails (replicate n refused))
    by (intros n; apply Forall_replicate; right; right; simpl; lia).
  split.
  - apply (backoff_schedule (replicate 6 refused) (make [] 0 default_options));
      [apply Hf|reflexivity|simpl; lia].
  - apply (backoff_schedule (replicate 23 refused) (make [] 0 (MkOptions 1 1 1 (2 ^ 30))));
      [apply Hf|reflexivity|simpl; lia|rewrite length_replicate; lia].
Defined.

(** C15. No undefined behaviour and no uncaught exception: with room for an item
    and a backoff limit below 2^30, no sequence of calls, clock values and network
    results leads to either, provided every enqueued item is well typed and
    UTF-8; but a batch with a string that is not UTF-8 makes the worker throw as
    soon as it sends, whatever the network does. *)
Theorem sender_safety (e : endian) (ip : bytes) (port : Z) (opt : Options) (now : Z) :
  sane opt →
  (∀ evs, Forall good_event evs →
     run e evs (init ip port opt now) = None ∨
     ∃ w, run e evs (init ip port opt now) = Some (Val w)) ∧
  (∀ w batch results t', worker w = Sending batch →
     Forall well_typed batch → ¬ Forall utf8_value batch →
     ∃ what, step e (Worker (ISend results t')) w = Some (Throw what)).
Proof.
  intros Hs. split.
  - intros evs Hevs. destruct (run_safe e evs (init ip port opt now)) as [H|(w & H & _)]; eauto.
    split; [done|simpl; lia|constructor].
  - intros w batch results t' Hw Ht Hu. cbn [step]. unfold run_step. rewrite Hw.
    destruct (buildPacket_cases e batch Ht) as [[? _]|[_ [what ->]]]; [done|eauto].
Qed.

Lemma sender_safety_witness :
  (∃ w, run LittleEndian sample_events sample_start = Some (Val w)) ∧
  (∃ what, step LittleEndian (Worker (ISend [] 0))
             (go (Sending [JString [Byte.xff]]) sample_start) = Some (Throw what)).
Proof.
  assert (Hs : sane sample_options) by compute_done.
  split.
  - destruct (proj1 (sender_safety LittleEndian (str "10.0.0.1") 8888 sample_options 0 Hs)
      sample_events) as [H|H].
    + repeat (apply Forall_cons; split; [|]); try exact I; try apply Forall_nil; try exact I;
        (split; [split; [compute_done|exact I]|split; exact I]).
    + vm_compute in H. discriminate H.
    + exact H.
  - eapply (proj2 (sender_safety LittleEndian (str "10.0.0.1") 8888 sample_options 0 Hs));
      [reflexivity|repeat constructor..|].
    intros [[Hv _] _]%Forall_cons. revert Hv. cbn [utf8_node]. compute_done.
Defined.

(** C12. A graceful stop: take a sender whose stop has been requested, with a
    [batchSize] of at least 1, whose remaining items, in the queue and in the worker's
    batch, are well typed and valid UTF-8 (so that [dump] does not throw), whose worker
    does not hold an empty batch, and has not returned before the queue was empty.  If
    from then on nothing more is enqueued and every connect and send succeeds, the
    worker takes a bounded number of steps, always has one to take until it returns,
    and when it returns every remaining item has been reported sent.  (For a [batchSize]
    of 0 or an item that is not UTF-8 this is false, see the findings and
    [sender_safety].) *)
Theorem stop_drains (e : endian) (w : sys) :
  draining w →
  (∀ n w', nsteps (healthy_step e) n w w' → (n ≤ steps_left w)%nat) ∧
  (∀ w', rtc (healthy_step e) w w' → worker w' ≠ Finished → ∃ w'', healthy_step e w' w'') ∧
  (∀ w', rtc (healthy_step e) w w' → worker w' = Finished → delivered w' = contents w).
Proof.
  intros Hd.
  assert (Hrtc : ∀ w', rtc (healthy_step e) w w' → draining w' ∧ contents w' = contents w).
  { intros w' H. revert Hd. induction H as [w|w w1 w2 Hstep _ IH]; intros Hd; [done|].
    destruct (healthy_progress e w w1 Hd Hstep) as (Hd1 & _ & Hc).
    destruct (IH Hd1) as [? ->]. done. }
  split_and!.
  - intros n. clear Hrtc. revert w Hd. induction n as [|n IH]; intros w Hd w' H; [lia|].
    inversion H as [|? ? w1 ? Hstep Hrest]; subst.
    destruct (healthy_progress e w w1 Hd Hstep) as (Hd1 & Hlt & _).
    specialize (IH w1 Hd1 w' Hrest). lia.
  - intros w' H Hpc. apply healthy_enabled; [|done]. by apply Hrtc.
  - intros w' H Hpc. destruct (Hrtc w' H) as [Hd' Hc]. rewrite <- Hc.
    unfold contents, in_flight. rewrite Hpc, (dr_done w' Hd' Hpc). by rewrite !app_nil_r.
Qed.

Definition stopped_sample : sys := set_sender (request_stop (sender sample_state)) [] sample_state.

Lemma stop_drains_witness :
  draining stopped_sample ∧
  (worker stopped_sample ≠ Finished → ∃ w'', healthy_step LittleEndian stopped_sample w'').
Proof.
  assert (Hd : draining stopped_sample).
  { split; [reflexivity|vm_compute; lia| |exact I|discriminate].
    assert (Hl : in_flight stopped_sample ++ m_queue (sender stopped_sample) =
      [JInteger 3; JInteger 4]) by (vm_compute; reflexivity).
    rewrite Hl. repeat constructor; compute_done. }
  split; [exact Hd|]. apply (stop_drains LittleEndian stopped_sample Hd). constructor.
Defined.

(** An ungraceful peer: while every connect fails, a worker with items left
    never returns, so the [join] in [stop] (and in the destructor) never does
    either; nothing is sent and nothing dropped. *)
Theorem stop_hangs_offline (e : endian) (l : list json) (w w' : sys) :
  l ≠ [] → offline l w → rtc (offline_step e) w w' →
  worker w' ≠ Finished ∧ step e Join w' = None ∧
  in_flight w' ++ m_queue (sender w') = l ∧ delivered w' = delivered w ∧ dropped w' = dropped w.
Proof.
  intros Hl Hw Hr.
  assert (H : offline l w' ∧ delivered w' = delivered w ∧ dropped w' = dropped w).
  { revert Hw. induction Hr as [w|w w1 w2 Hstep _ IH]; intros Hw; [done|].
    pose proof (offline_preserved e l Hl w w1 Hstep Hw) as Hw1.
    destruct (IH Hw1) as (H2 & -> & ->). split; [done|].
    destruct Hstep as (i & _ & Hrun).
    apply run_step_contents in Hrun as (Hc & _ & Hd & _). split; [|done].
    unfold contents in Hc. destruct Hw as (_ & Hw & _). destruct Hw1 as (_ & Hw1 & _).
    rewrite Hw, Hw1 in Hc. by apply app_inv_tail in Hc. }
  destruct H as ((_ & Hitems & Hpc) & Hd & Hdr). cbn [step].
  split_and!; try done; by destruct (worker w').
Qed.

Definition offline_sample : sys :=
  Sys (request_stop (with_queue [JNull] (make (str "10.0.0.1") 8888 default_options)))
    LoopTest 0 [JNull] [] [] [].

Lemma stop_hangs_offline_witness :
  step LittleEndian Join offline_sample = None ∧ worker offline_sample ≠ Finished.
Proof.
  destruct (stop_hangs_offline LittleEndian [JNull] offline_sample offline_sample)
    as (H1 & H2 & _); [discriminate|vm_compute; done|constructor|].
  split; [exact H2|exact H1].
Defined.

(** Descriptors are not leaked: in every reachable state the sockets opened
    and not closed are exactly the one in [m_sockfd], if it holds one, and none
    after [stop] has joined the worker. *)
Theorem sender_descriptors (e : endian) (opt : Options) (w : sys) :
  reachable e opt w →
  open_fds (calls w) = (if m_sockfd (sender w) <? 0 then [] else [m_sockfd (sender w)]) ∧
  (∀ w', step e Join w = Some (Val w') → open_fds (calls w') = []).
Proof.
  intros (ip & port & now & Hr).
  assert (Hinv : fd_inv w) by (apply (preserved_rtc _ fd_inv _ _ (fd_inv_preserved e) Hr); by split).
  destruct Hinv as [Ho Hrec]. split; [done|]. intros w' Hj. cbn [step] in Hj.
  destruct (worker w); try discriminate Hj.
  destruct (closeSocket (sender w)) as [s' new] eqn:Hc. injection Hj as <-. simpl.
  rewrite (closeSocket_fds _ _ _ _ Hc Ho).
  apply closeSocket_spec in Hc as (_ & Hneg & _). by rewrite (proj2 (Z.ltb_lt _ _)).
Qed.

Lemma sender_descriptors_witness : open_fds (calls sample_state) = [3].
Proof.
  exact (proj1 (sender_descriptors LittleEndian sample_options sample_state sample_reachable)).
Defined.

(** A batch size of zero never sends anything: the worker keeps sending
    packets with no items, the queue is never emptied, and nothing is ever
    reported sent. *)
Theorem zero_batch_sends_nothing (e : endian) (opt : Options) (w : sys) :
  reachable e opt w → batchSize opt = 0%nat →
  delivered w = [] ∧ in_flight w = [] ∧ totalSent (getStats (sender w)) = 0.
Proof.
  intros Hr H0. pose proof (qi_sent _ _ (reachable_queue_inv e opt w Hr)) as Hs.
  destruct Hr as (ip & port & now & Hr).
  apply (preserved_rtc _ _ _ _ (zero_batch_preserved e)) in Hr as (_ & Hd & Hf); [|done].
  split_and!; [done..|]. unfold getStats. by rewrite Hs, Hd.
Qed.

Definition zero_batch_options : Options := MkOptions 0 1000 10 8000.
Definition zero_batch_events : list event :=
  [Enqueue JNull; Worker INone; Worker (IWake false 0);
   Worker (IConnect (ConnectResult 3 1 0)); Worker (ISend [Sent 100] 0)].
Definition zero_batch_state : sys := Eval vm_compute in
  match run LittleEndian zero_batch_events (init [] 0 zero_batch_options 0) with
  | Some (Val w) => w
  | _ => init [] 0 zero_batch_options 0
  end.

Lemma zero_batch_sends_nothing_witness :
  reachable LittleEndian zero_batch_options zero_batch_state ∧
  m_queue (sender zero_batch_state) = [JNull] ∧
  delivered zero_batch_state = [] ∧ in_flight zero_batch_state = [] ∧
  totalSent (getStats (sender zero_batch_state)) = 0.
Proof.
  assert (Hr : reachable LittleEndian zero_batch_options zero_batch_state).
  { exists [], 0, 0. apply (run_rtc _ zero_batch_events). vm_compute. reflexivity. }
  split; [exact Hr|]. split; [reflexivity|].
  exact (zero_batch_sends_nothing LittleEndian zero_batch_options zero_batch_state Hr eq_refl).
Defined.
