(* ===== verification/Http.v ===== *)
(** * The HTTP side ([src/core/http])

    [HttpResponse]: the JSON body of every answer ([http_result.hpp]).
    [HTTPServer]: the wrapper of the library's server ([http_server.cpp]); what it
    asks of the library and of the logger is a list of actions, and whether
    [listen] returns is the library's. *)

From S2P Require Import Prelude Dtoa Json Utf8 JsonText JsonRead.

Open Scope Z_scope.

Module HttpResponse.

Inductive Code :=
| SUCCESS | CREATED | NO_CONTENT | BAD_REQUEST | UNAUTHORIZED | FORBIDDEN | NOT_FOUND
| METHOD_NOT_ALLOWED | INTERNAL_SERVER_ERROR.

Definition Code_value (c : Code) : Z :=
  match c with
  | SUCCESS => 200 | CREATED => 201 | NO_CONTENT => 204
  | BAD_REQUEST => 400 | UNAUTHORIZED => 401 | FORBIDDEN => 403 | NOT_FOUND => 404
  | METHOD_NOT_ALLOWED => 405 | INTERNAL_SERVER_ERROR => 500
  end.

Record t := mk { code : Z; msg : bytes; data : json }.

(** The default arguments are [success_default] and [json::object()]. *)
Definition success (data : json) (msg : bytes) : t := mk 200 msg data.
Definition success_default : t := success (JObject []) (str "success").
Definition error (code : Z) (msg : bytes) (data : json) : t := mk code msg data.

Definition is_null (j : json) : bool := match j with JNull => true | _ => false end.

(** The value that [dump] builds.  An [int] is stored as a signed number. *)
Definition to_json (r : t) : outcome json :=
  j ← set_field (str "code") (JInteger (code r)) JNull;
  j ← set_field (str "msg") (JString (msg r)) j;
  if negb (is_null (data r)) then set_field (str "data") (data r) j
  else set_field (str "data") (JObject []) j.

Definition dump (r : t) : outcome bytes := j ← to_json r; Json.dump j.

(** The members come in the order of their names. *)
Definition body (r : t) : json :=
  JObject [(str "code", JInteger (code r));
           (str "data", if is_null (data r) then JObject [] else data r);
           (str "msg", JString (msg r))].

Lemma to_json_body r : to_json r = Val (body r).
Proof. unfold to_json, body. by destruct (is_null (data r)). Qed.

Lemma body_everywhere (P : json → Prop) r :
  P (body r) → P (JInteger (code r)) → P (JString (msg r)) → P (JObject []) →
  everywhere P (data r) → everywhere P (body r).
Proof.
  intros H1 H2 H3 H4 H5. apply everywhere_object. split; [done|].
  repeat constructor; try done. simpl. by destruct (is_null (data r)).
Qed.
End HttpResponse.

Module HTTPServer.

Record t := mk { host_ : bytes; port_ : Z }.

Definition make (host : bytes) (port : Z) : t := mk host port.

(** What the server answers to a request: content and content type. *)
Definition handler := bytes → bytes * bytes.

Inductive action :=
| Get (pattern : bytes) (h : handler)    (* server_.Get *)
| Listen (host : bytes) (port : Z)       (* server_.listen, until it returns *)
| Info (message : bytes)                 (* spdlog::info *)
| Stop.                                  (* server_.stop *)

Definition hello : handler := λ _, (str "Hello, World!", str "text/plain").

Definition set_routes (s : t) : list action := [Get (str "/hello") hello].

(** [" {}:{} "]: the address as the logger formats it. *)
Definition address (s : t) : bytes :=
  host_ s ++ str ":" ++ String.list_byte_of_string (Serializer.to_string (port_ s)).

(** [listen_returns]: whether [listen] has returned.  The line announcing the start
    is logged only after it has. *)
Definition start (listen_returns : bool) (s : t) : list action :=
  set_routes s ++ [Listen (host_ s) (port_ s)] ++
  if listen_returns
  then [Info (str "[HTTPServer::start] HTTP server " ++ address s ++ str " start")] else [].

Definition stop (s : t) : list action :=
  [Info (str "[HTTPServer::stop] HTTP server " ++ address s ++ str " stop"); Stop].

Definition destroy (s : t) : list action := stop s.
End HTTPServer.

Import HttpResponse.

(** The body of an answer: with an [int] code, a UTF-8 message and printable
    data, [dump] returns JSON text that reads back as an object with exactly the
    members "code", "data" and "msg", where null data has become an empty object;
    a message or data that is not UTF-8 makes it throw. *)
Theorem response_dump (r : HttpResponse.t) :
  in_signed 32 (code r) → well_typed (data r) → readable_value (data r) →
  (valid_utf8 (msg r) ∧ utf8_value (data r) →
     ∃ text, dump r = Val text ∧
       read_json text = Some (JObject
         [(str "code", integer_value (code r));
          (str "data", if is_null (data r) then JObject [] else readable (data r));
          (str "msg", JString (msg r))])) ∧
  (¬ (valid_utf8 (msg r) ∧ utf8_value (data r)) → ∃ what, dump r = Throw what).
Proof.
  intros Hc Hty Hr. unfold in_signed in Hc. simpl in Hc.
  assert (Hbt : well_typed (body r)).
  { apply body_everywhere; try done. cbn [typed_node]. unfold in_signed. simpl. lia. }
  assert (Hbr : readable_value (body r)) by (by apply body_everywhere).
  assert (Hbu : utf8_value (body r) ↔ valid_utf8 (msg r) ∧ utf8_value (data r)).
  { unfold utf8_value. split.
    - intros [_ H]%everywhere_object. apply Forall_cons in H as [_ H].
      apply Forall_cons in H as [Hd H]. apply Forall_cons in H as [[Hm _] _].
      split; [exact Hm|]. cbn [snd] in Hd. by destruct (data r).
    - intros [Hm Hd]. apply body_everywhere; [|done|exact Hm|constructor|exact Hd].
      cbn [utf8_node body]. repeat constructor; by apply valid_quote_ascii. }
  unfold dump. rewrite to_json_body. cbn [mbind outcome_bind].
  destruct (dump_spec (body r) Hbt) as [[Hu Hd]|[Hu Hd]];
    rewrite Hbu in Hu; (split; [|tauto]); [intros _|tauto].
  exists (render (body r)). split; [exact Hd|].
  rewrite (read_json_render (body r) Hbt (proj2 Hbu Hu) Hbr).
  f_equal. unfold body. cbn [readable fmap list_fmap fst snd]. by destruct (data r).
Qed.

Lemma response_dump_witness :
  (∃ text, dump (success JNull (str "ok")) = Val text ∧
     read_json text = Some (JObject [(str "code", JUnsigned 200); (str "data", JObject []);
                                     (str "msg", JString (str "ok"))])) ∧
  (∃ what, dump (HttpResponse.error 500 [Byte.xff] JNull) = Throw what).
Proof.
  split.
  - refine (proj1 (response_dump (success JNull (str "ok")) _ _ _) _);
      [compute_done|split; exact I|split; exact I|].
    split; [compute_done|split; exact I].
  - refine (proj2 (response_dump (HttpResponse.error 500 [Byte.xff] JNull) _ _ _) _);
      [compute_done|split; exact I|split; exact I|].
    intros [Hv _]. revert Hv. compute_done.
Defined.

(** The announcement of the start follows the end of [listen]. *)
Lemma start_logged_late (s : HTTPServer.t) m :
  HTTPServer.Info m ∉ HTTPServer.start false s.
Proof.
  unfold HTTPServer.start, HTTPServer.set_routes. rewrite !not_elem_of_app.
  split_and!; rewrite ?list_elem_of_singleton; try done. apply not_elem_of_nil.
Qed.
