(* ===== verification/Regex.v ===== *)
(** * [std::regex]: the part the sources use

    Regular expressions of the ECMAScript grammar without back references and
    assertions, and their matching by backtracking: alternatives from left to right,
    a greedy repetition from many rounds to few, a lazy one from few to many. *)

From S2P Require Import Prelude.
From Stdlib Require Import Strings.Byte.

Module Regex.

Inductive t :=
| Empty
| Class (p : byte → bool)
| Seq (r1 r2 : t)
| Alt (r1 r2 : t)
| Star (greedy : bool) (r : t)
| Group (n : nat) (r : t).

(** The groups that matched, the last first. *)
Definition captures : Type := list (nat * bytes).

(** The two attempts of a choice, in order. *)
Definition first_of {A} (a b : option A) : option A := match a with Some x => Some x | None => b end.

(** [go r s caps k]: [r] at the start of [s], then [k] on what is left.  A round of a
    repetition reads at least one byte, so [length s] rounds are enough. *)
Fixpoint go {A} (r : t) (s : bytes) (caps : captures) (k : bytes → captures → option A) : option A :=
  match r with
  | Empty => k s caps
  | Class p => match s with b :: s => if p b then k s caps else None | [] => None end
  | Seq r1 r2 => go r1 s caps (λ s caps, go r2 s caps k)
  | Alt r1 r2 => first_of (go r1 s caps k) (go r2 s caps k)
  | Star greedy r =>
      (fix rounds (n : nat) (s : bytes) (caps : captures) : option A :=
         let again := match n with
                      | O => None
                      | S n => go r s caps (λ s' caps, if decide (length s' < length s)%nat then rounds n s' caps else None)
                      end in
         if greedy then first_of again (k s caps) else first_of (k s caps) again) (length s) s caps
  | Group n r => go r s caps (λ s' caps, k s' ((n, take (length s - length s')%nat s) :: caps))
  end.

(** [regex_match]: the whole text. *)
Definition regex_match (r : t) (s : bytes) : option captures :=
  go r s [] (λ s caps, if decide (s = []) then Some caps else None).

(** [regex_search] of an expression that ends in [$]: the first position where the
    rest of the text matches. *)
Fixpoint regex_search_end (r : t) (s : bytes) : option captures :=
  first_of (regex_match r s) (match s with [] => None | _ :: s => regex_search_end r s end).

(** [m.str(n)]: empty for a group that did not match. *)
Definition group (n : nat) (caps : captures) : bytes :=
  match list_find (λ c, c.1 = n) caps with Some (_, (_, s)) => s | None => [] end.

(** [mark_count]. *)
Fixpoint groups (r : t) : nat :=
  match r with
  | Empty | Class _ => 0
  | Seq r1 r2 | Alt r1 r2 => groups r1 + groups r2
  | Star _ r => groups r
  | Group _ r => S (groups r)
  end.

(** ** Notation of patterns *)

Definition chr (c : byte) : t := Class (λ b, bool_decide (b = c)).

Definition tolower (c : byte) : Z := (if (0x41 <=? b2z c) && (b2z c <=? 0x5A) then b2z c + 32 else b2z c)%Z.
(** With [icase]. *)
Definition chr_icase (c : byte) : t := Class (λ b, (tolower b =? tolower c)%Z).

Definition literal (f : byte → t) (s : bytes) : t := foldr (λ c r, Seq (f c) r) Empty s.
Definition digit : t := Class (λ b, ((0x30 <=? b2z b) && (b2z b <=? 0x39))%Z).
Definition is_space (b : byte) : bool := ((b2z b =? 0x20) || ((0x09 <=? b2z b) && (b2z b <=? 0x0D)))%Z.
Definition space : t := Class is_space.
Definition nonspace : t := Class (λ b, negb (is_space b)).
Definition any : t := Class (λ b, bool_decide (b ≠ x0a ∧ b ≠ x0d)).
Definition star (r : t) : t := Star true r.
Definition plus (r : t) : t := Seq r (star r).
Definition opt (r : t) : t := Alt r Empty.
Definition seq (rs : list t) : t := foldr Seq Empty rs.

(** ** The texts an expression describes *)

Inductive lang : t → bytes → Prop :=
| lang_empty : lang Empty []
| lang_class p b : p b = true → lang (Class p) [b]
| lang_seq r1 r2 s1 s2 : lang r1 s1 → lang r2 s2 → lang (Seq r1 r2) (s1 ++ s2)
| lang_left r1 r2 s : lang r1 s → lang (Alt r1 r2) s
| lang_right r1 r2 s : lang r2 s → lang (Alt r1 r2) s
| lang_stop g r : lang (Star g r) []
| lang_round g r s1 s2 : lang r s1 → lang (Star g r) s2 → lang (Star g r) (s1 ++ s2)
| lang_group n r s : lang r s → lang (Group n r) s.
#[local] Hint Constructors lang : core.

Lemma first_of_Some {A} (a b : option A) x : first_of a b = Some x → a = Some x ∨ b = Some x.
Proof. destruct a; simpl; auto. Qed.

Lemma first_of_is_Some {A} (a b : option A) : is_Some (first_of a b) ↔ is_Some a ∨ is_Some b.
Proof. destruct a; simpl; split; intros; eauto. by destruct H as [[? [=]]|]. Qed.

Lemma go_sound {A} r : ∀ s caps (k : bytes → captures → option A) x,
  go r s caps k = Some x → ∃ s1 s2 caps', s = s1 ++ s2 ∧ lang r s1 ∧ k s2 caps' = Some x.
Proof.
  induction r as [|p|r1 IH1 r2 IH2|r1 IH1 r2 IH2|g r IH|n r IH]; intros s caps k x H.
  - exists [], s, caps. auto.
  - destruct s as [|b s]; simpl in H; [done|]. destruct (p b) eqn:E; [|done].
    exists [b], s, caps. auto.
  - apply IH1 in H as (s1 & s' & c1 & -> & H1 & H). apply IH2 in H as (s2 & s3 & c2 & -> & H2 & H).
    exists (s1 ++ s2), s3, c2. rewrite <- app_assoc. auto.
  - apply first_of_Some in H as [H|H];
      [apply IH1 in H as (s1 & s2 & c & -> & H1 & H)|apply IH2 in H as (s1 & s2 & c & -> & H1 & H)];
      exists s1, s2, c; auto.
  - cbn [go] in H. revert H. generalize (length s). intros n. revert s caps.
    induction n as [|n IHn]; intros s caps H; simpl in H.
    + exists [], s, caps. destruct g; simpl in H; [auto|]. destruct (k s caps); simpl in H; naive_solver.
    + destruct g; apply first_of_Some in H as [H|H];
        try (exists [], s, caps; split_and!; [done|constructor|exact H]).
      all: apply IH in H as (s1 & s' & c & -> & H1 & H); case_decide; [|done].
      all: apply IHn in H as (s2 & s3 & c' & -> & H2 & H).
      all: exists (s1 ++ s2), s3, c'; rewrite <- app_assoc; auto.
  - apply IH in H as (s1 & s2 & c & -> & H1 & H). eauto 10.
Qed.

(** A repetition as rounds that are not empty. *)
Lemma lang_star_rounds g r s :
  lang (Star g r) s → ∃ ss, s = concat ss ∧ Forall (λ s, lang r s ∧ s ≠ []) ss.
Proof.
  intros H. remember (Star g r) as r' eqn:E. revert g r E.
  induction H as [| | | | | |g r s1 s2 H1 _ H2 IH2|]; intros g' r' [= -> ->].
  - by exists [].
  - destruct (IH2 _ _ eq_refl) as (ss & -> & Hss). destruct s1 as [|b s1]; [by exists ss|].
    exists ((b :: s1) :: ss). split; [done|]. by constructor.
Qed.

Lemma go_complete {A} r s1 : lang r s1 → ∀ s2 caps (k : bytes → captures → option A),
  (∀ caps', is_Some (k s2 caps')) → is_Some (go r (s1 ++ s2) caps k).
Proof.
  revert s1. induction r as [|p|r1 IH1 r2 IH2|r1 IH1 r2 IH2|g r IH|n r IH]; intros s1 H s2 caps k Hk.
  - inversion H; subst. apply Hk.
  - inversion H; subst. simpl. rewrite H1. apply Hk.
  - inversion H; subst. rewrite <- app_assoc. simpl. apply IH1; [done|]. intros c. by apply IH2.
  - apply first_of_is_Some. inversion H; subst; [left; by apply IH1|right; by apply IH2].
  - apply lang_star_rounds in H as (ss & -> & Hss). cbn [go].
    assert (Hn : (length (concat ss) ≤ length (concat ss ++ s2))%nat) by (rewrite length_app; lia).
    revert Hn. generalize (length (concat ss ++ s2)). intros n. revert n caps.
    induction Hss as [|s ss [Hs Hne] _ IHss]; intros n caps Hn; simpl in *.
    + destruct n; destruct g; simpl; rewrite ?first_of_is_Some; auto.
    + rewrite length_app in Hn. destruct s as [|b s]; [done|]. simpl in Hn. destruct n as [|n]; [lia|].
      assert (Ha : is_Some (go r (((b :: s) ++ concat ss) ++ s2) caps
         (λ s' caps, if decide (length s' < length (((b :: s) ++ concat ss) ++ s2))%nat then
            (fix rounds (n : nat) (s : bytes) (caps : captures) : option A :=
               let again := match n with
                            | O => None
                            | S n => go r s caps (λ s' caps, if decide (length s' < length s)%nat then rounds n s' caps else None)
                            end in
               if g then first_of again (k s caps) else first_of (k s caps) again) n s' caps else None))).
      { rewrite <- app_assoc. apply IH; [done|]. intros c. rewrite decide_True by (rewrite !length_app; simpl; lia).
        apply IHss. lia. }
      destruct g; apply first_of_is_Some; [by left|by right].
  - inversion H; subst. simpl. by apply IH.
Qed.

(** Matching decides the language. *)
Lemma regex_match_lang r s : is_Some (regex_match r s) ↔ lang r s.
Proof.
  unfold regex_match. split.
  - intros [c H]. apply go_sound in H as (s1 & s2 & c' & -> & H & Hk). case_decide; [|done].
    subst. by rewrite app_nil_r.
  - intros H. rewrite <- (app_nil_r s). apply go_complete; [done|]. intros c. by rewrite decide_True.
Qed.

End Regex.
