(* ===== verification/HttpMessage.v ===== *)
(** * cpp-httplib: requests and responses ([thirdpart/include/http/httplib.h])

    Headers, the members of [Request] and [Response] that a server uses, and byte
    ranges.  Built, as the program builds it, without compression; bodies come from
    [set_content] and not from content providers. *)

From S2P Require Import Prelude StdString Dtoa Json Regex HttpText.
From Stdlib Require Import Strings.Byte.

Open Scope Z_scope.

(** ** Numbers in text *)

Module Numbers.

(** [isspace]. *)
Definition is_space (c : byte) : bool :=
  let z := b2z c in (z =? 0x20) || ((0x09 <=? z) && (z <=? 0x0D)).

Fixpoint skip_spaces (s : bytes) : bytes :=
  match s with
  | b :: s' => if is_space b then skip_spaces s' else s
  | [] => []
  end.

(** The digits of a base up to 16. *)
Definition digit_in (base : Z) (c : byte) : option Z :=
  let lower := if (0x41 <=? b2z c) && (b2z c <=? 0x5A) then z2b (b2z c + 32) else c in
  match Detail.is_hex lower with
  | Some d => if d <? base then Some d else None
  | None => None
  end.
Fixpoint span_base (base : Z) (s : bytes) : list Z * bytes :=
  match s with
  | b :: s' =>
      match digit_in base b with
      | Some d => let '(ds, rest) := span_base base s' in (d :: ds, rest)
      | None => ([], s)
      end
  | [] => ([], [])
  end.

(** [strtoul] and [strtoull], whose type has 64 bits here: the value, and whether
    there was one.  A text too large gives the largest value, and a minus sign is
    applied in the unsigned type. *)
Definition strtoull (base : Z) (s : bytes) : Z * bool :=
  let s := skip_spaces s in
  let '(neg, s) := match s with
                   | b :: t => if decide (b = "-"%byte) then (true, t)
                               else if decide (b = "+"%byte) then (false, t) else (false, s)
                   | [] => (false, [])
                   end in
  let s := match s with
           | z :: x :: d :: t =>
               if bool_decide (base = 16 ∧ z = "0"%byte ∧ (x = "x"%byte ∨ x = "X"%byte)) &&
                  bool_decide (is_Some (digit_in 16 d)) then d :: t else s
           | _ => s
           end in
  let '(ds, _) := span_base base s in
  let v := foldl (λ v d, base * v + d) 0 ds in
  if decide (ds = []) then (0, false)
  else if v <? 2 ^ 64 then (u64 (if neg then - v else v), true) else (2 ^ 64 - 1, true).

End Numbers.

(** ** Headers *)

Module Headers.
Import Detail.

(** [tolower] in the C locale. *)
Definition tolower (c : byte) : Z := if (0x41 <=? b2z c) && (b2z c <=? 0x5A) then b2z c + 32 else b2z c.

(** [detail::ci]. *)
Fixpoint ci (s1 s2 : bytes) : bool :=
  match s1, s2 with
  | _, [] => false
  | [], _ :: _ => true
  | c1 :: s1, c2 :: s2 => (tolower c1 <? tolower c2) || ((tolower c1 =? tolower c2) && ci s1 s2)
  end.

Definition t : Type := list (bytes * bytes).

Definition has_header (headers : t) (key : bytes) : bool := bool_decide (is_Some (mfind ci key headers)).

(** The value as a C string; [def] when the [id]-th entry from the first is the end
    of the range.  Beyond the range the next entries are read, and beyond the last
    there is nothing to read. *)
Definition get_header_value (headers : t) (key : bytes) (id : nat) (def : bytes) : outcome bytes :=
  let it := (lower_bound ci key headers + id)%nat in
  if decide (it = upper_bound ci key headers) then Val def
  else match headers !! it with
       | Some (_, v) => Val (c_str v)
       | None => Undefined
       end.

(** The first value, or nothing: [id] 0. *)
Definition header_value (headers : t) (key : bytes) : bytes :=
  match mfind ci key headers with Some v => c_str v | None => [] end.

(** [get_header_value<uint64_t>]. *)
Definition header_value_u64 (headers : t) (key : bytes) : Z :=
  match mfind ci key headers with Some v => (Numbers.strtoull 10 v).1 | None => 0 end.

(** Both arguments are C strings. *)
Definition has_crlf (s : bytes) : bool := bool_decide (Exists (λ c, c = x0d ∨ c = x0a) s).
Definition set_header (key val : bytes) (headers : t) : t :=
  if negb (has_crlf key) && negb (has_crlf (c_str val)) then emplace ci key val headers else headers.

End Headers.

(** ** [MultipartFormData], [Request] and [Response] *)

Record MultipartFormData := MkForm {
  form_name : bytes;
  form_content : bytes;
  form_filename : bytes;
  form_content_type : bytes;
}.

(** The first and the last position of a range; -1 stands for none. *)
Definition range : Type := Z * Z.

Module Request.

Record t := Make {
  method : bytes;
  path : bytes;
  headers : Headers.t;
  body : bytes;
  remote_addr : bytes;
  remote_port : Z;
  version : bytes;
  target : bytes;
  params : Detail.params;
  files : list (bytes * MultipartFormData);
  ranges : list range;
  matches : list bytes;
}.

Definition empty : t := Make [] [] [] [] [] (-1) [] [] [] [] [] [].

Definition with_line (m v tg p : bytes) (ps : Detail.params) (r : t) : t :=
  Make m p (headers r) (body r) (remote_addr r) (remote_port r) v tg ps (files r) (ranges r) (matches r).
Definition with_headers (h : Headers.t) (r : t) : t :=
  Make (method r) (path r) h (body r) (remote_addr r) (remote_port r) (version r) (target r) (params r)
    (files r) (ranges r) (matches r).
Definition with_body (b : bytes) (r : t) : t :=
  Make (method r) (path r) (headers r) b (remote_addr r) (remote_port r) (version r) (target r) (params r)
    (files r) (ranges r) (matches r).
Definition with_remote (addr : bytes) (port : Z) (r : t) : t :=
  Make (method r) (path r) (headers r) (body r) addr port (version r) (target r) (params r)
    (files r) (ranges r) (matches r).
Definition with_params (ps : Detail.params) (r : t) : t :=
  Make (method r) (path r) (headers r) (body r) (remote_addr r) (remote_port r) (version r) (target r) ps
    (files r) (ranges r) (matches r).
Definition with_files (fs : list (bytes * MultipartFormData)) (r : t) : t :=
  Make (method r) (path r) (headers r) (body r) (remote_addr r) (remote_port r) (version r) (target r)
    (params r) fs (ranges r) (matches r).
Definition with_ranges (rs : list range) (r : t) : t :=
  Make (method r) (path r) (headers r) (body r) (remote_addr r) (remote_port r) (version r) (target r)
    (params r) (files r) rs (matches r).
Definition with_matches (m : list bytes) (r : t) : t :=
  Make (method r) (path r) (headers r) (body r) (remote_addr r) (remote_port r) (version r) (target r)
    (params r) (files r) (ranges r) m.

Definition has_header (key : string) (r : t) : bool := Headers.has_header (headers r) (str key).
Definition get_header_value (key : string) (r : t) : bytes := Headers.header_value (headers r) (str key).
Definition set_header (key : string) (val : bytes) (r : t) : t :=
  with_headers (Headers.set_header (str key) val (headers r)) r.

(** [!content_type.rfind("multipart/form-data", 0)]. *)
Definition is_multipart_form_data (r : t) : bool :=
  bool_decide (str "multipart/form-data" `prefix_of` get_header_value "Content-Type" r).

(** [equal_range] of a key: how many entries. *)
Definition count_of {A} (lt : bytes → bytes → bool) (key : bytes) (m : list (bytes * A)) : nat :=
  (Detail.upper_bound lt key m - Detail.lower_bound lt key m)%nat.

Definition get_header_value_count (key : string) (r : t) : nat := count_of Headers.ci (str key) (headers r).
Definition has_param (key : string) (r : t) : bool := bool_decide (is_Some (Detail.mfind key_lt (str key) (params r))).
Definition get_param_value_count (key : string) (r : t) : nat := count_of key_lt (str key) (params r).

(** The [id]-th value from the first; as for headers, beyond the range the next entries
    are read. *)
Definition get_param_value (key : string) (id : nat) (r : t) : outcome bytes :=
  let it := (Detail.lower_bound key_lt (str key) (params r) + id)%nat in
  if decide (it = Detail.upper_bound key_lt (str key) (params r)) then Val []
  else match params r !! it with
       | Some (_, v) => Val v
       | None => Undefined
       end.

Definition has_file (key : string) (r : t) : bool := bool_decide (is_Some (Detail.mfind key_lt (str key) (files r))).
Definition get_file_value (key : string) (r : t) : MultipartFormData :=
  default (MkForm [] [] [] []) (Detail.mfind key_lt (str key) (files r)).

End Request.

Module Response.

Record t := Make {
  version : bytes;
  status : Z;
  headers : Headers.t;
  body : bytes;
  location : bytes;
}.

Definition empty : t := Make [] (-1) [] [] [].

Definition with_status (z : Z) (r : t) : t := Make (version r) z (headers r) (body r) (location r).
Definition with_headers (h : Headers.t) (r : t) : t := Make (version r) (status r) h (body r) (location r).
Definition with_body (b : bytes) (r : t) : t := Make (version r) (status r) (headers r) b (location r).

Definition has_header (key : string) (r : t) : bool := Headers.has_header (headers r) (str key).
Definition get_header_value (key : string) (r : t) : bytes := Headers.header_value (headers r) (str key).
Definition set_header (key : string) (val : bytes) (r : t) : t :=
  with_headers (Headers.set_header (str key) val (headers r)) r.

Definition set_redirect (url : bytes) (stat : Z) (r : t) : t :=
  if negb (Headers.has_crlf url) then
    with_status (if (300 <=? stat) && (stat <? 400) then stat else 302) (set_header "Location" url r)
  else r.

Definition set_content (s : bytes) (content_type : bytes) (r : t) : t :=
  let r := with_body s r in
  set_header "Content-Type" content_type
    (with_headers (Detail.erase_range Headers.ci (str "Content-Type") (headers r)) r).

End Response.

(** ** Ranges *)

Module Ranges.
Import Detail.

Definition to_string (z : Z) : bytes := String.list_byte_of_string (Serializer.to_string z).

Definition re_range (first last : Regex.t → Regex.t) : Regex.t :=
  Regex.seq [first (Regex.star Regex.digit); Regex.chr "-"%byte; last (Regex.star Regex.digit)].

(** [bytes=], a range, and any number of further ranges, each after a comma and
    spaces; group 1 is all after [bytes=]. *)
Definition re_first_range : Regex.t :=
  Regex.Seq (Regex.literal Regex.chr (str "bytes="))
    (Regex.Group 1 (Regex.Seq (re_range id id)
      (Regex.star (Regex.seq [Regex.chr ","%byte; Regex.star Regex.space; re_range id id])))).

(** Spaces and a range; groups 1 and 2 are its digits. *)
Definition re_another_range : Regex.t :=
  Regex.Seq (Regex.star Regex.space) (re_range (Regex.Group 1) (Regex.Group 2)).

(** A position: [stoll] of digits, which throws when it does not fit; -1 for none. *)
Definition position (ds : bytes) : outcome Z :=
  if decide (ds = []) then Val (-1)
  else let v := foldl (λ v d, 10 * v + (b2z d - 0x30)) 0 ds in
       if v <? 2 ^ 63 then Val v else Throw "stoll".

(** The ranges so far, and whether all are valid. *)
Fixpoint read_ranges (ps : list bytes) (ranges : list range) : bool * list range :=
  match ps with
  | [] => (true, ranges)
  | p :: ps =>
      match Regex.regex_match re_another_range p with
      | Some cm =>
          match position (Regex.group 1 cm), position (Regex.group 2 cm) with
          | Val first, Val last =>
              if bool_decide (first ≠ -1 ∧ last ≠ -1 ∧ last < first) then (false, ranges)
              else read_ranges ps (ranges ++ [(first, last)])
          | _, _ => (false, ranges)
          end
      | None => read_ranges ps ranges
      end
  end.

(** An exception of [stoll] is caught: the ranges read before it stay. *)
Definition parse_range_header (s : bytes) (ranges : list range) : bool * list range :=
  match Regex.regex_match re_first_range s with
  | Some m => read_ranges (split (Regex.group 1 m) ","%byte) ranges
  | None => (false, ranges)
  end.

(** Offset and length, in [size_t]. *)
Definition get_range_offset_and_length (r : range) (content_length : Z) : Z * Z :=
  let '(first, last) := r in
  if decide (first = -1 ∧ last = -1) then (0, content_length)
  else
    let slen := content_length in
    let '(first, last) := if decide (first = -1) then (Z.max 0 (slen - last), slen - 1) else (first, last) in
    let last := if decide (last = -1) then slen - 1 else last in
    (u64 first, u64 (u64 (last - first) + 1)).

Definition make_content_range_header_field (offset length content_length : Z) : bytes :=
  str "bytes " ++ to_string offset ++ str "-" ++ to_string (u64 (offset + length - 1)) ++ str "/" ++
  to_string content_length.

(** [s.substr(offset, length)] for an offset within [s]. *)
Definition slice (s : bytes) (offset length : Z) : bytes :=
  take (Z.to_nat length) (drop (Z.to_nat offset) s).

(** [make_multipart_ranges_data]: the data, or [None] when a range begins past the
    end. *)
Fixpoint multipart_parts (rs : list range) (body boundary content_type : bytes) : option bytes :=
  match rs with
  | [] => Some (str "--" ++ boundary ++ str "--" ++ [x0d; x0a])
  | r :: rs =>
      let '(offset, length) := get_range_offset_and_length r (Z.of_nat (length body)) in
      if offset <? Z.of_nat (List.length body) then
        rest ← multipart_parts rs body boundary content_type;
        Some (str "--" ++ boundary ++ [x0d; x0a] ++
              (if decide (content_type = []) then [] else str "Content-Type: " ++ content_type ++ [x0d; x0a]) ++
              str "Content-Range: " ++
              make_content_range_header_field offset length (Z.of_nat (List.length body)) ++ [x0d; x0a; x0d; x0a] ++
              slice body offset length ++ [x0d; x0a] ++ rest)
      else None
  end.
Definition make_multipart_ranges_data (req : Request.t) (body boundary content_type : bytes) : option bytes :=
  multipart_parts (Request.ranges req) body boundary content_type.

End Ranges.
