(* ===== verification/HttpTextSpec.v ===== *)
(** * Laws of the text functions of cpp-httplib

    The multimaps of headers and parameters, percent encoding, query strings, and the
    paths [is_valid_path] accepts. *)

From stdpp Require Import sorting.
From S2P Require Import Prelude StdString Dtoa Json Regex HttpText HttpMessage.
From Stdlib Require Import Strings.Byte.

Open Scope Z_scope.

(** ** Multimaps *)

(** The orders of the keys: strict weak orders. *)
Class KeyOrder (lt : bytes → bytes → bool) : Prop := {
  lt_asym : ∀ a b, lt a b = true → lt b a = false;
  lt_total : ∀ a b c, lt a c = true → lt a b = true ∨ lt b c = true;
}.

(** A lexicographic order on some values of the bytes. *)
Lemma lexicographic_order (f : byte → Z) (lt : bytes → bytes → bool) :
  (∀ b, lt [] b = match b with [] => false | _ => true end) →
  (∀ x a, lt (x :: a) [] = false) →
  (∀ x a y b, lt (x :: a) (y :: b) = (f x <? f y) || ((f x =? f y) && lt a b)) →
  KeyOrder lt.
Proof.
  intros Hnil Hcons Hlex. split.
  - induction a as [|x a IH]; intros [|y b]; rewrite ?Hnil, ?Hcons, ?Hlex; try done.
    intros [H|[H1%Z.eqb_eq H2]%andb_true_iff]%orb_true_iff; apply orb_false_iff; rewrite andb_false_iff; [lia|].
    split; [lia|right; auto].
  - induction a as [|x a IH]; intros [|y b] [|z c]; rewrite ?Hnil, ?Hcons, ?Hlex; try done; auto.
    intros [H|[H1%Z.eqb_eq H2]%andb_true_iff]%orb_true_iff; rewrite !orb_true_iff, !andb_true_iff.
    + lia.
    + destruct (IH b c H2); destruct (Z.ltb_spec (f x) (f y)), (Z.eqb_spec (f x) (f y)),
        (Z.ltb_spec (f y) (f z)), (Z.eqb_spec (f y) (f z)); auto; lia.
Qed.

#[export] Instance key_lt_order : KeyOrder key_lt.
Proof. by apply (lexicographic_order b2z). Qed.
#[export] Instance ci_order : KeyOrder Headers.ci.
Proof. apply (lexicographic_order Headers.tolower); [by intros []|done|done]. Qed.

Section multimap.
Context {A : Type} (lt : bytes → bytes → bool) `{!KeyOrder lt}.
Implicit Types m : list (bytes * A).

Lemma lt_irrefl a : lt a a = false.
Proof. destruct (lt a a) eqn:E; [|done]. by rewrite <- (lt_asym _ _ E). Qed.

Lemma lt_trans a b c : lt a b = true → lt b c = true → lt a c = true.
Proof.
  intros H1 H2. destruct (lt_total _ c _ H1) as [|H]; [done|]. apply lt_asym in H2. congruence.
Qed.

(** The entries in order: none after another that is greater. *)
Definition ordered m : Prop := StronglySorted (λ x y, lt y.1 x.1 = false) m.


Lemma emplace_perm k v m : Detail.emplace lt k v m ≡ₚ (k, v) :: m.
Proof.
  induction m as [|[k' v'] m IH]; cbn [Detail.emplace]; [done|]. destruct (lt k k'); [done|].
  rewrite IH. constructor.
Qed.

Lemma emplace_ordered k v m : ordered m → ordered (Detail.emplace lt k v m).
Proof.
  induction 1 as [|[k' v'] m Hm IH Hx]; cbn [Detail.emplace]; [by repeat constructor|].
  destruct (lt k k') eqn:E.
  - constructor; [by constructor|]. constructor; [by apply lt_asym|].
    eapply Forall_impl; [exact Hx|]. intros [k2 v2]. cbn. intros H.
    destruct (lt k2 k) eqn:E2; [|done]. by rewrite (lt_trans _ _ _ E2 E) in H.
  - constructor; [done|]. rewrite emplace_perm. by constructor.
Qed.

Lemma mfind_cons k k1 v1 m :
  Detail.mfind lt k ((k1, v1) :: m) =
  if lt k1 k then Detail.mfind lt k m else if lt k k1 then None else Some v1.
Proof. unfold Detail.mfind, Detail.lower_bound. cbn. by destruct (lt k1 k). Qed.

(** A key is found at its first entry. *)
Lemma mfind_emplace k k' v m :
  ordered m →
  Detail.mfind lt k (Detail.emplace lt k' v m) =
  if Detail.equivalent lt k k' then Some (default v (Detail.mfind lt k m)) else Detail.mfind lt k m.
Proof.
  unfold Detail.equivalent. induction 1 as [|[k1 v1] m Hm IH Hx]; cbn [Detail.emplace].
  - rewrite mfind_cons. destruct (lt k k') eqn:E1, (lt k' k) eqn:E2; try done.
  - destruct (lt k' k1) eqn:E.
    + rewrite !mfind_cons. destruct (lt k' k) eqn:E2; [by rewrite andb_false_r|].
      assert (H : lt k k1 = true).
      { destruct (lt k k') eqn:E3; [by eapply lt_trans|]. destruct (lt_total _ k _ E) as [Hk|Hk]; congruence. }
      rewrite (lt_asym _ _ H), H. by destruct (lt k k').
    + rewrite !mfind_cons, IH. destruct (lt k1 k) eqn:E1; [done|]. destruct (lt k k1) eqn:E2; [|by destruct (_ && _)].
      destruct (lt k k') eqn:E3; cbn; [by destruct (lt k' k)|].
      destruct (lt k' k) eqn:E4; [done|]. cbn.
      destruct (lt_total _ k' _ E2); congruence.
Qed.

End multimap.

Lemma header_emplace_other h key k v :
  ordered Headers.ci h → Detail.equivalent Headers.ci key k = false →
  Headers.header_value (Detail.emplace Headers.ci k v h) key = Headers.header_value h key ∧
  Headers.has_header (Detail.emplace Headers.ci k v h) key = Headers.has_header h key.
Proof.
  intros Hh Hk. unfold Headers.header_value, Headers.has_header.
  by rewrite mfind_emplace, Hk by (done || apply _).
Qed.

Lemma set_header_other h k v key :
  ordered Headers.ci h → Detail.equivalent Headers.ci key k = false →
  ordered Headers.ci (Headers.set_header k v h) ∧
  Headers.header_value (Headers.set_header k v h) key = Headers.header_value h key ∧
  Headers.has_header (Headers.set_header k v h) key = Headers.has_header h key.
Proof.
  intros Hh Hk. unfold Headers.set_header. destruct (_ && _); [|done].
  split; [by apply (emplace_ordered Headers.ci)|by apply header_emplace_other].
Qed.

(** ** Percent encoding *)

(** The three bytes of an encoded byte. *)
Lemma percent_bytes c :
  ∃ h1 h2 a b, Detail.percent c = [x25; h1; h2] ∧ h1 ≠ "u"%byte ∧ h1 ≠ x00 ∧ h2 ≠ x00 ∧
    Detail.is_hex h1 = Some a ∧ Detail.is_hex h2 = Some b ∧ z2b (a * 16 + b) = c.
Proof.
  destruct c; do 4 eexists; (split; [vm_compute; reflexivity|]);
    (split_and!; [done|done|done|vm_compute; reflexivity|vm_compute; reflexivity|vm_compute; reflexivity]).
Qed.

Lemma unreserved_literal c : Detail.unreserved c = true → c ≠ "%"%byte ∧ c ≠ "+"%byte.
Proof. intros H. by split; intros ->. Qed.

Lemma char_at_app p c s : Detail.char_at (p ++ c :: s) (length p) = c.
Proof. unfold Detail.char_at. by rewrite lookup_app_r, Nat.sub_diag by done. Qed.

Lemma char_at_shift p s n : Detail.char_at (p ++ s) (length p + n) = Detail.char_at s n.
Proof. unfold Detail.char_at. rewrite lookup_app_r by lia. do 2 f_equal. lia. Qed.

Lemma decode_literal fuel p c s conv :
  c ≠ "%"%byte → (conv = true → c ≠ "+"%byte) →
  Detail.decode_loop (S fuel) (p ++ c :: s) conv (length p) = c :: Detail.decode_loop fuel (p ++ c :: s) conv (S (length p)).
Proof.
  intros H1 H2. cbn [Detail.decode_loop]. rewrite decide_True by (rewrite length_app; simpl; lia).
  rewrite char_at_app, bool_decide_false by done. cbn [andb].
  destruct conv; [|done]. by rewrite bool_decide_false by auto.
Qed.

Lemma decode_percent fuel p c s conv :
  Detail.decode_loop (S fuel) (p ++ Detail.percent c ++ s) conv (length p) =
  c :: Detail.decode_loop fuel (p ++ Detail.percent c ++ s) conv (length p + 3).
Proof.
  destruct (percent_bytes c) as (h1 & h2 & a & b & -> & Hu & H1 & H2 & Ha & Hb & Hc).
  cbn [Detail.decode_loop app]. rewrite decide_True by (rewrite length_app; simpl; lia).
  rewrite char_at_app, !bool_decide_true by (done || (rewrite length_app; simpl; lia)). cbn [andb].
  assert (E1 : Detail.char_at (p ++ x25 :: h1 :: h2 :: s) (S (length p)) = h1)
    by (rewrite <- Nat.add_1_r; by rewrite char_at_shift).
  assert (E2 : Detail.char_at (p ++ x25 :: h1 :: h2 :: s) (S (S (length p))) = h2)
    by (replace (S (S (length p))) with (length p + 2)%nat by lia; by rewrite char_at_shift).
  rewrite E1, decide_False by done. unfold Detail.from_hex_to_i.
  rewrite decide_False by (rewrite length_app; simpl; lia). cbn [Detail.hex_loop].
  rewrite Nat.add_1_r, E1, decide_False, Ha by done. cbn [mbind option_bind].
  rewrite E2, decide_False, Hb by done. cbn [mbind option_bind].
  replace (0 * 16 + a) with a by lia. by rewrite Hc.
Qed.

Lemma decode_loop_encode v : ∀ fuel p conv,
  (length (Detail.encode_query_param v) ≤ fuel)%nat →
  Detail.decode_loop fuel (p ++ Detail.encode_query_param v) conv (length p) = v.
Proof.
  induction v as [|c v IH]; intros fuel p conv Hf.
  - rewrite app_nil_r. destruct fuel as [|fuel]; [done|]. cbn [Detail.decode_loop]. by rewrite decide_False by lia.
  - unfold Detail.encode_query_param in *. cbn [fmap list_fmap concat] in *. rewrite length_app in Hf.
    destruct (Detail.unreserved c) eqn:E.
    + simpl in Hf. destruct fuel as [|fuel]; [lia|]. cbn [app]. destruct (unreserved_literal c E).
      rewrite decode_literal by auto. f_equal.
      specialize (IH fuel (p ++ [c]) conv). rewrite length_app, Nat.add_1_r, <- app_assoc in IH. apply IH. lia.
    + assert (Hl : length (Detail.percent c) = 3%nat) by (destruct (percent_bytes c) as (? & ? & ? & ? & -> & _); done).
      rewrite Hl in Hf. destruct fuel as [|fuel]; [lia|]. rewrite decode_percent. f_equal.
      specialize (IH fuel (p ++ Detail.percent c) conv). rewrite length_app, Hl, <- app_assoc in IH. apply IH. lia.
Qed.

(** A value encoded for a query is decoded to itself. *)
Lemma decode_encode v conv : Detail.decode_url (Detail.encode_query_param v) conv = v.
Proof. apply (decode_loop_encode v _ []). done. Qed.

Lemma encode_unreserved v : forallb Detail.unreserved v = true → Detail.encode_query_param v = v.
Proof.
  unfold Detail.encode_query_param. induction v as [|c v IH]; [done|]. cbn. intros [-> H]%andb_true_iff.
  cbn. by rewrite IH.
Qed.

Lemma decode_unreserved v conv : forallb Detail.unreserved v = true → Detail.decode_url v conv = v.
Proof. intros H. rewrite <- (encode_unreserved v H) at 1. apply decode_encode. Qed.

(** The bytes of an encoded value. *)
Lemma encode_bytes v : Forall (λ c, Detail.unreserved c = true ∨ c = x25) (Detail.encode_query_param v).
Proof.
  unfold Detail.encode_query_param. induction v as [|c v IH]; [constructor|]. cbn. apply Forall_app. split; [|done].
  destruct (Detail.unreserved c) eqn:E; [apply Forall_cons_2; [by left|apply Forall_nil_2]|].
  clear IH E. destruct c; (apply Forall_cons_2; [right; reflexivity|]);
    (apply Forall_cons_2; [left; reflexivity|]); (apply Forall_cons_2; [left; reflexivity|apply Forall_nil_2]).
Qed.

(** ** Splitting *)

Definition not_blank (s : bytes) : Prop := Forall (λ c, Detail.is_space_or_tab c = false) s.

(** The pieces between separators that are not empty. *)
Definition keep (acc : bytes) : list bytes := match acc with [] => [] | _ => [acc] end.
Fixpoint fields (d : byte) (acc s : bytes) : list bytes :=
  match s with
  | [] => keep acc
  | c :: s => if decide (c = d) then keep acc ++ fields d [] s else fields d (acc ++ [c]) s
  end.

Lemma trim_left_blank fuel s i : not_blank s → Detail.trim_left fuel s i = i.
Proof.
  intros Hs. destruct fuel as [|fuel]; [done|]. cbn [Detail.trim_left]. case_bool_decide as Hi; [|done]. cbn [andb].
  destruct (lookup_lt_is_Some_2 s i Hi) as [c Hc]. unfold Detail.char_at. rewrite Hc. cbn [default from_option id].
  by rewrite (Forall_lookup_1 _ _ _ _ Hs Hc).
Qed.

Lemma trim_right_blank s i : not_blank s → (i ≤ length s)%nat → Detail.trim_right s i = i.
Proof.
  intros Hs Hi. destruct i as [|i]; [done|]. cbn [Detail.trim_right].
  destruct (lookup_lt_is_Some_2 s i Hi) as [c Hc]. unfold Detail.char_at. rewrite Hc. cbn [default from_option id].
  by rewrite (Forall_lookup_1 _ _ _ _ Hs Hc).
Qed.

Lemma piece_blank s p acc t :
  not_blank s → s = p ++ acc ++ t → Detail.piece s (length p) (length p + length acc) = keep acc.
Proof.
  intros Hs E. unfold Detail.piece, Detail.trim. rewrite trim_left_blank by done.
  rewrite trim_right_blank by (done || (rewrite E, !length_app; lia)).
  destruct acc as [|c acc]; [by rewrite decide_False by (simpl; lia)|]. rewrite decide_True by (simpl; lia).
  rewrite E, drop_app_length. f_equal. replace (_ - _)%nat with (length (c :: acc)) by lia. by rewrite take_app_length.
Qed.

Lemma split_loop_fields d t : ∀ s p acc,
  not_blank s → s = p ++ acc ++ t →
  Detail.split_loop (length t) s d (length p + length acc) (length p) = fields d acc t.
Proof.
  induction t as [|c t IH]; intros s p acc Hs E; cbn [Detail.split_loop length fields].
  - rewrite (piece_blank s p acc []) by done. case_decide as H; [|done]. by destruct acc; [|simpl in H; lia].
  - assert (Hc : Detail.char_at s (length p + length acc) = c).
    { rewrite E, char_at_shift. apply char_at_app. }
    rewrite Hc. case_decide as Hd.
    + rewrite (piece_blank s p acc (c :: t)) by done. f_equal. specialize (IH s (p ++ acc ++ [c]) [] Hs).
      rewrite !length_app, <- !app_assoc in IH. cbn [length app] in IH. specialize (IH E).
      rewrite <- IH. f_equal; lia.
    + specialize (IH s p (acc ++ [c]) Hs). rewrite length_app, <- !app_assoc in IH. specialize (IH E).
      rewrite <- IH. f_equal. simpl. lia.
Qed.

(** Without blanks, [split] gives the pieces. *)
Lemma split_fields s d : not_blank s → Detail.split s d = fields d [] s.
Proof. intros Hs. apply (split_loop_fields d s s [] [] Hs eq_refl). Qed.

Lemma fields_app_sep d acc p s : d ∉ p → fields d acc (p ++ d :: s) = keep (acc ++ p) ++ fields d [] s.
Proof.
  revert acc. induction p as [|c p IH]; intros acc Hp; cbn [fields app].
  - by rewrite decide_True, app_nil_r by done.
  - apply not_elem_of_cons in Hp as [Hc Hp]. rewrite decide_False by done. by rewrite IH, <- app_assoc by done.
Qed.

Lemma fields_end d acc p : d ∉ p → fields d acc p = keep (acc ++ p).
Proof.
  revert acc. induction p as [|c p IH]; intros acc Hp; cbn [fields].
  - by rewrite app_nil_r.
  - apply not_elem_of_cons in Hp as [Hc Hp]. rewrite decide_False by done. by rewrite IH, <- app_assoc by done.
Qed.

(** ** Query strings *)

(** A parameter whose key can be written: keys are not encoded. *)
Definition writable (e : bytes * bytes) : Prop := e.1 ≠ [] ∧ forallb Detail.unreserved e.1 = true.

Definition pair_text (e : bytes * bytes) : bytes := e.1 ++ "="%byte :: Detail.encode_query_param e.2.

Definition plain_byte (c : byte) : Prop := Detail.unreserved c = true ∨ c = x25.

Lemma plain_other c : Detail.unreserved c = false → c ≠ x25 → ∀ s, Forall plain_byte s → c ∉ s.
Proof.
  intros H1 H2 s Hs Hin. rewrite Forall_forall in Hs. destruct (Hs c Hin); congruence.
Qed.

Lemma plain_not_blank s : Forall plain_byte s → not_blank s.
Proof. intros Hs. eapply Forall_impl; [exact Hs|]. by intros c [H| ->]; [destruct c|]. Qed.

Lemma key_plain e : writable e → Forall plain_byte e.1.
Proof.
  intros [_ H]. apply forallb_forall in H || rewrite forallb_forall in H. apply Forall_forall. intros c Hc. left.
  apply H. by apply list_elem_of_In.
Qed.

Lemma pair_text_blank e : writable e → not_blank (pair_text e).
Proof.
  intros H. unfold pair_text. apply Forall_app. split; [by apply plain_not_blank, key_plain|].
  apply Forall_cons_2; [done|]. apply plain_not_blank, encode_bytes.
Qed.

Lemma pair_text_sep e : writable e → "&"%byte ∉ pair_text e.
Proof.
  intros H. unfold pair_text. rewrite not_elem_of_app, not_elem_of_cons. split_and!; [|done|].
  - by apply plain_other; [| |apply key_plain].
  - by apply plain_other; [| |apply encode_bytes].
Qed.

Lemma key_value_text e : writable e → Detail.key_value (pair_text e) = (e.1, Detail.encode_query_param e.2).
Proof.
  intros H. unfold Detail.key_value. rewrite split_fields by (by apply pair_text_blank).
  unfold pair_text. rewrite fields_app_sep by (by apply plain_other; [| |apply key_plain]).
  rewrite fields_end by (by apply plain_other; [| |apply encode_bytes]). destruct H as [Hne _].
  destruct e as [[|c k] v]; [done|]. cbn [fst snd app keep foldl]. rewrite decide_True by done.
  destruct (Detail.encode_query_param v); cbn [keep foldl]; [done|]. by rewrite decide_False by done.
Qed.

Lemma pair_text_inj e f : writable e → writable f → pair_text e = pair_text f → e = f.
Proof.
  intros He Hf E. apply (f_equal Detail.key_value) in E. rewrite !key_value_text in E by done.
  destruct e as [k v], f as [k' v']. injection E as -> E. f_equal.
  by rewrite <- (decode_encode v false), E, decode_encode.
Qed.

Lemma emplace_last {A} lt k (v : A) m :
  Forall (λ e, lt k e.1 = false) m → Detail.emplace lt k v m = m ++ [(k, v)].
Proof. induction 1 as [|[k' v'] m H _ IH]; [done|]. cbn in *. by rewrite H, IH. Qed.

Lemma query_pairs ps : ∀ cache m,
  Forall writable ps → NoDup ps → ordered key_lt ps → (∀ e, e ∈ ps → pair_text e ∉ cache) →
  (∀ e f, e ∈ m → f ∈ ps → key_lt f.1 e.1 = false) →
  (foldl Detail.query_pair (cache, m) (pair_text <$> ps)).2 = m ++ ps.
Proof.
  induction ps as [|e ps IH]; intros cache m Hw Hnd Ho Hc Hm; [by rewrite app_nil_r|].
  apply Forall_cons in Hw as [He Hw]. apply NoDup_cons in Hnd as [Hin Hnd]. inversion Ho as [|? ? Ho' Hlast]; subst.
  cbn [fmap list_fmap foldl]. unfold Detail.query_pair at 2. rewrite decide_False by (apply Hc; left).
  rewrite key_value_text by done. rewrite decide_False by apply He.
  rewrite decode_unreserved, decode_encode by apply He.
  rewrite emplace_last by (apply Forall_forall; intros f Hf; apply Hm; [done|left]).
  etransitivity; [apply IH|].
  - done.
  - done.
  - done.
  - intros f Hf. rewrite not_elem_of_cons. split; [|apply Hc; by right].
    intros E. apply Hin. rewrite Forall_forall in Hw. by rewrite <- (pair_text_inj f e (Hw f Hf) He E).
  - intros e' f [He'| ->%list_elem_of_singleton]%elem_of_app Hf; [apply Hm; [done|by right]|].
    rewrite Forall_forall in Hlast. by apply Hlast.
  - rewrite <- app_assoc. by destruct e.
Qed.

Lemma query_str_text first ps :
  Detail.query_str_loop first ps =
  match ps with
  | [] => []
  | e :: ps => (if first then [] else [x26]) ++ pair_text e ++ concat ((λ e, x26 :: pair_text e) <$> ps)
  end.
Proof.
  revert first. induction ps as [|[k v] ps IH]; intros first; [done|].
  cbn [Detail.query_str_loop]. rewrite IH.
  assert (Hq : ∀ x, str "=" ++ x = "="%byte :: x) by done. rewrite Hq.
  assert (Hp : pair_text (k, v) = k ++ "="%byte :: Detail.encode_query_param v) by done. rewrite Hp.
  destruct ps as [|e ps]; cbn [fmap list_fmap concat]; rewrite ?app_nil_r; [by destruct first|].
  rewrite <- !app_assoc. by destruct first.
Qed.

Lemma fields_query e ps :
  Forall writable (e :: ps) →
  fields x26 [] (pair_text e ++ concat ((λ e, x26 :: pair_text e) <$> ps)) = pair_text <$> (e :: ps).
Proof.
  revert e. induction ps as [|f ps IH]; intros e Hw; apply Forall_cons in Hw as [He Hw]; cbn [fmap list_fmap concat].
  - rewrite app_nil_r, fields_end by (by apply pair_text_sep). unfold pair_text. by destruct e.1.
  - cbn [app]. rewrite fields_app_sep by (by apply pair_text_sep). rewrite IH by done.
    assert (Hk : keep (pair_text e) = [pair_text e]) by (unfold pair_text; by destruct e.1).
    cbn [app]. by rewrite Hk.
Qed.

Lemma query_blank e ps :
  Forall writable (e :: ps) → not_blank (pair_text e ++ concat ((λ e, x26 :: pair_text e) <$> ps)).
Proof.
  intros Hw. apply Forall_cons in Hw as [He Hw]. apply Forall_app. split; [by apply pair_text_blank|].
  clear e He. induction Hw as [|f ps Hf _ IH]; [constructor|]. cbn [fmap list_fmap concat app].
  apply Forall_cons_2; [done|]. apply Forall_app. split; [by apply pair_text_blank|done].
Qed.

(** C30. Query strings: what [params_to_query_str] writes for parameters in the order of
    the map, without repetition and with keys that need no encoding, whatever the bytes
    of the values, [parse_query_text] reads back. *)
Theorem query_roundtrip ps :
  Forall writable ps → NoDup ps → ordered key_lt ps →
  Detail.parse_query_text (Detail.params_to_query_str ps) [] = ps.
Proof.
  intros Hw Hnd Ho. unfold Detail.parse_query_text, Detail.params_to_query_str. rewrite query_str_text.
  destruct ps as [|e ps]; [done|]. cbn [app]. rewrite split_fields by (by apply query_blank).
  rewrite fields_query by done.
  by apply (query_pairs (e :: ps) [] []); [| | |intros ? _; apply not_elem_of_nil|intros ? ? []%not_elem_of_nil].
Qed.

Lemma query_roundtrip_witness :
  let ps := [(str "a", str "1 & 2"); (str "a", [x00; xff]); (str "b", [])] in
  Detail.parse_query_text (Detail.params_to_query_str ps) [] = ps.
Proof.
  refine (query_roundtrip [(str "a", str "1 & 2"); (str "a", [x00; xff]); (str "b", [])] _ _ _).
  - apply Forall_cons_2, Forall_cons_2, Forall_cons_2, Forall_nil_2; by split.
  - apply (bool_decide_unpack _). by vm_compute.
  - repeat first [apply SSorted_nil | apply SSorted_cons | apply Forall_nil_2 | apply Forall_cons_2 | vm_compute; reflexivity].
Defined.

(** ** Paths

    The place a path names, as the list of directories from the root: [.] stays, [..]
    goes up, and a name goes down. *)

Definition names (path : bytes) : list bytes := fields x2f [] path.

Definition go_name (at_ : list bytes) (name : bytes) : list bytes :=
  if decide (name = str ".") then at_
  else if decide (name = str "..") then take (length at_ - 1) at_
  else at_ ++ [name].
Definition resolve (at_ : list bytes) (path : bytes) : list bytes := foldl go_name at_ (names path).

(** The level below the start after some names, unless one went above it. *)
Fixpoint level_after (level : nat) (ns : list bytes) : option nat :=
  match ns with
  | [] => Some level
  | n :: ns =>
      if decide (n = str ".") then level_after level ns
      else if decide (n = str "..") then match level with O => None | S level => level_after level ns end
      else level_after (S level) ns
  end.

Lemma component_spec s :
  let '(c, rest) := Detail.component s in
  s = c ++ rest ∧ x2f ∉ c ∧ (rest = [] ∨ ∃ r, rest = x2f :: r).
Proof.
  induction s as [|b s IH]; cbn [Detail.component]; [split_and!; [done|apply not_elem_of_nil|by left]|].
  case_decide as Hb; [subst; split_and!; [done|apply not_elem_of_nil|right; eauto]|].
  destruct (Detail.component s) as [c rest]. destruct IH as (-> & Hc & Hr). split_and!; [done| |done].
  by apply not_elem_of_cons.
Qed.

Lemma skip_slashes_names s :
  names (Detail.skip_slashes s) = names s ∧ (length (Detail.skip_slashes s) ≤ length s)%nat ∧
  (Detail.skip_slashes s) !! 0%nat ≠ Some x2f.
Proof.
  induction s as [|b s (H1 & H2 & H3)]; cbn [Detail.skip_slashes]; [done|].
  case_decide as Hb; [|split_and!; [done|done|by intros [= ?]]].
  split_and!; [|simpl; lia|done]. unfold names in *. cbn [fields]. by rewrite decide_True by done.
Qed.

Lemma names_component s :
  let '(c, rest) := Detail.component s in names s = keep c ++ names rest.
Proof.
  pose proof (component_spec s) as H. destruct (Detail.component s) as [c rest].
  destruct H as (-> & Hc & [->|[r ->]]); unfold names.
  - by rewrite app_nil_r, fields_end, app_nil_r by done.
  - rewrite fields_app_sep by done. cbn [fields]. by rewrite decide_True by done.
Qed.

Lemma valid_path_loop_level fuel level s :
  (length s ≤ fuel)%nat → s !! 0%nat ≠ Some x2f →
  Detail.valid_path_loop fuel level s = Val (bool_decide (is_Some (level_after level (names s)))).
Proof.
  revert level s. induction fuel as [|fuel IH]; intros level s Hf Hs.
  - destruct s; [done|simpl in Hf; lia].
  - destruct s as [|b s]; [done|]. cbn [Detail.valid_path_loop].
    pose proof (names_component (b :: s)) as Hn. pose proof (component_spec (b :: s)) as Hc.
    destruct (Detail.component (b :: s)) as [c rest]. destruct Hc as (Hbs & Hc & Hr).
    destruct (skip_slashes_names rest) as (H1 & H2 & H3).
    assert (Hne : c ≠ []).
    { intros ->. cbn in Hbs. subst rest. destruct Hr as [|[r [= ->]]]; done. }
    assert (Hk : keep c = [c]) by (by destruct c). rewrite Hn, Hk. cbn [app level_after].
    apply (f_equal length) in Hbs. rewrite length_app in Hbs.
    assert (Hc0 : (0 < length c)%nat) by (destruct c; [done|simpl; lia]).
    rewrite bool_decide_true by done. cbn [JSON_ASSERT mbind outcome_bind].
    rewrite <- H1. repeat case_decide; try (apply IH; [lia|done]).
    destruct level; [|apply IH; [lia|done]]. by rewrite bool_decide_false by (intros [? [=]]).
Qed.

(** [is_valid_path] decides whether a path stays below its start. *)
Lemma is_valid_path_level path :
  Detail.is_valid_path path = Val (bool_decide (is_Some (level_after 0 (names path)))).
Proof.
  unfold Detail.is_valid_path. destruct (skip_slashes_names path) as (H1 & H2 & H3).
  rewrite valid_path_loop_level by done. by rewrite H1.
Qed.

(** A path that stays below its start names a place below it, wherever the start is. *)
Lemma level_after_below start below ns level :
  level_after (length below) ns = Some level →
  ∃ below', foldl go_name (start ++ below) ns = start ++ below'.
Proof.
  revert below. induction ns as [|n ns IH]; intros below; cbn [level_after foldl]; [by exists below|].
  unfold go_name at 2. case_decide; [apply IH|]. case_decide.
  - destruct (length below) as [|m] eqn:El; [done|]. intros H1.
    destruct (IH (take m below)) as [b' Hb']; [by rewrite length_take, El, Nat.min_l by lia|].
    exists b'. rewrite <- Hb'. f_equal. rewrite length_app, El, take_app_ge by lia. f_equal. f_equal. lia.
  - intros H1. destruct (IH (below ++ [n])) as [b' Hb']; [by rewrite length_app, Nat.add_1_r|].
    exists b'. by rewrite <- app_assoc.
Qed.

Lemma fields_slash acc a b : fields x2f acc (a ++ x2f :: b) = fields x2f acc a ++ names b.
Proof.
  revert acc. induction a as [|c a IH]; intros acc; cbn [fields app]; [by rewrite decide_True by done|].
  case_decide; rewrite IH; [by rewrite app_assoc|done].
Qed.

Lemma resolve_below base sub :
  is_Some (level_after 0 (names sub)) → ∃ below, resolve [] (base ++ x2f :: sub) = resolve [] base ++ below.
Proof.
  intros [level H]. unfold resolve, names at 1. rewrite fields_slash, foldl_app.
  rewrite <- (app_nil_r (foldl go_name [] _)). by apply level_after_below with level.
Qed.

Lemma level_after_app level ns ns' :
  level_after level (ns ++ ns') = (l ← level_after level ns; level_after l ns').
Proof.
  revert level. induction ns as [|n ns IH]; intros level; cbn [level_after app]; [done|].
  repeat case_decide; try apply IH. by destruct level.
Qed.

Lemma level_after_name level n : n ≠ str ".." → is_Some (level_after level (keep n)).
Proof. intros Hn. destruct n as [|c n]; [by eexists|]. cbn [keep level_after]. repeat case_decide; try done; by eexists. Qed.

(** A path is a directory and a name. *)
Lemma last_name s :
  x2f ∉ s ∨ ∃ dir name, s = dir ++ x2f :: name ∧ x2f ∉ name.
Proof.
  induction s as [|c s IH]; [by left; apply not_elem_of_nil|]. destruct IH as [IH|(dir & name & -> & Hn)].
  - destruct (decide (c = x2f)) as [->|Hc]; [right; by exists [], s|left; by apply not_elem_of_cons].
  - right. by exists (c :: dir), name.
Qed.

(** What is in front of a path that stays below its start does so too, unless its last
    name is [..]. *)
Lemma level_after_prefix a b :
  is_Some (level_after 0 (names (a ++ b))) → last (names a) ≠ Some (str "..") → is_Some (level_after 0 (names a)).
Proof.
  intros [l H] Hl. destruct (last_name a) as [Ha|(dir & name & -> & Hn)].
  - unfold names in *. rewrite (fields_end x2f [] a) in Hl |- * by done. apply level_after_name. cbn [app] in *. intros ->.
    by apply Hl.
  - unfold names at 1 in Hl. unfold names at 1. rewrite <- app_assoc in H. cbn [app] in H. unfold names at 1 in H.
    rewrite fields_slash in Hl, H |- *. rewrite level_after_app in H |- *. destruct (level_after 0 (fields x2f [] dir)) as [l1|]; [|done].
    cbn. unfold names in Hl |- *. rewrite (fields_end x2f [] name) in Hl |- * by done. apply level_after_name. cbn [app] in *. intros ->.
    by rewrite last_app in Hl.
Qed.

(** The C string of a path below [base] names a place in or below that of [base]. *)
Lemma c_str_below base sub :
  is_Some (level_after 0 (names sub)) → last (names (c_str (base ++ x2f :: sub))) ≠ Some (str "..") →
  ∃ below, resolve [] (c_str (base ++ x2f :: sub)) = resolve [] (c_str base) ++ below.
Proof.
  intros Hs Hl. rewrite c_str_app in *. case_decide as Hb; [exists []; by rewrite app_nil_r|].
  rewrite (c_str_id base) by done. change (c_str (x2f :: sub)) with (x2f :: c_str sub) in *. apply resolve_below.
  destruct (c_str_prefix sub) as [rest Hr]. apply (level_after_prefix _ rest); [by rewrite <- Hr|].
  intros Hd. apply Hl. unfold names at 1. by rewrite fields_slash, last_app, Hd.
Qed.

(** [index.html] in a directory. *)
Lemma index_level sub name :
  is_Some (level_after 0 (names sub)) → name ≠ str ".." → x2f ∉ name → last (x2f :: sub) = Some x2f →
  is_Some (level_after 0 (names (sub ++ name))).
Proof.
  intros [l H] Hn Hs Hl. destruct (decide (sub = [])) as [->|Hne].
  - unfold names. cbn [app]. rewrite fields_end by done. by apply level_after_name.
  - apply exists_last in Hne as (y & c & ->). rewrite app_comm_cons, last_snoc in Hl. injection Hl as ->.
    rewrite <- app_assoc. cbn [app]. unfold names in *. rewrite fields_slash in *.
    change (names []) with (@nil bytes) in H. rewrite app_nil_r in H.
    rewrite level_after_app, H. cbn. unfold names. rewrite fields_end by done. by apply level_after_name.
Qed.
