(* ===== verification/HttpStream.v ===== *)
(** * cpp-httplib: streams ([thirdpart/include/http/httplib.h])

    [Socket]: what the network does to one connection.
    [SocketStream]: reading through a buffer, and writing.
    [LineReader]: lines, of any length.
    [Content]: the headers and the body of a request, read from a stream. *)

From S2P Require Import Prelude StdString HttpText HttpMessage.
From Stdlib Require Import Strings.Byte.

Open Scope Z_scope.

(** ** The socket of a connection

    What the client sends comes in segments; a wait for more can also end with the
    end of the client's data, with an error, or, after the timeout, with nothing.
    When the list is empty nothing comes any more.  A call of [send] takes some bytes,
    or fails, or is not made because the socket does not become writable; when the
    list of answers is empty, every call takes all its bytes. *)

Module Socket.

Inductive arrival :=
| Data (b : byte) (bs : bytes)
| Eof
| Failure
| Silence.

Record t := Make {
  fd : Z;
  arrivals : list arrival;
  answers : list (option nat);
  sent : bytes;
}.

Definition with_arrivals (a : list arrival) (s : t) : t := Make (fd s) a (answers s) (sent s).
Definition with_answers (a : list (option nat)) (s : t) : t := Make (fd s) (arrivals s) a (sent s).
Definition with_sent (b : bytes) (s : t) : t := Make (fd s) (arrivals s) (answers s) b.

Definition FD_SETSIZE : Z := 1024.

(** [select_read]: whether there is something to read before the timeout.  A
    descriptor too large for [select] counts as readable. *)
Definition select_read (s : t) : bool * t :=
  if FD_SETSIZE <=? fd s then (true, s)
  else match arrivals s with
       | [] => (false, s)
       | Silence :: a => (false, with_arrivals a s)
       | _ => (true, s)
       end.

(** The result of a read: some bytes, 0 or a negative number. *)
Inductive received := Bytes (bs : bytes) | Closed | Error.

(** [recv] with a timeout, for a size above 0.  The end of the data stays. *)
Definition recv (size : nat) (s : t) : received * t :=
  match arrivals s with
  | Data b bs :: a =>
      (Bytes (take size (b :: bs)),
       with_arrivals (match drop size (b :: bs) with [] => a | b' :: bs' => Data b' bs' :: a end) s)
  | Eof :: _ => (Closed, s)
  | Failure :: a | Silence :: a => (Error, with_arrivals a s)
  | [] => (Error, s)
  end.

(** The wait for the socket to become writable and [send]: how many bytes it took. *)
Definition send (bs : bytes) (s : t) : option nat * t :=
  match answers s with
  | [] => (Some (length bs), with_sent (sent s ++ bs) s)
  | None :: a => (None, with_answers a s)
  | Some n :: a => (Some (n `min` length bs)%nat, with_answers a (with_sent (sent s ++ take n bs) s))
  end.

End Socket.

(** ** [SocketStream] *)

Module SocketStream.
Import Socket.

(** [rest]: the bytes of [read_buff_] from [read_buff_off_] to
    [read_buff_content_size_]. *)
Record t := Make { sock_ : Socket.t; rest : bytes }.

Definition read_buff_size_ : nat := Z.to_nat 4096.
Arguments read_buff_size_ : simpl never.

(** A stream has its own buffer, empty at first. *)
Definition make (sock : Socket.t) : t := Make sock [].

Definition read (size : nat) (s : t) : received * t :=
  match rest s with
  | _ :: _ => (Bytes (take size (rest s)), Make (sock_ s) (drop size (rest s)))
  | [] =>
      let '(is_readable, sock) := select_read (sock_ s) in
      if negb is_readable then (Error, Make sock [])
      else if decide (size < read_buff_size_)%nat then
        match recv read_buff_size_ sock with
        | (Bytes bs, sock) => (Bytes (take size bs), Make sock (drop size bs))
        | (r, sock) => (r, Make sock [])
        end
      else let '(r, sock) := recv size sock in (r, Make sock [])
  end.

Definition write (bs : bytes) (s : t) : option nat * t :=
  let '(n, sock) := send bs (sock_ s) in (n, Make sock (rest s)).

(** [write_data]: until all is sent or a call fails. *)
Fixpoint write_loop (fuel : nat) (bs : bytes) (s : t) : bool * t :=
  match bs, fuel with
  | [], _ => (true, s)
  | _ :: _, O => (false, s)
  | _ :: _, S fuel =>
      match write bs s with
      | (None, s) => (false, s)
      | (Some n, s) => write_loop fuel (drop n bs) s
      end
  end.

(** A call uses up an answer; without answers one call sends the rest. *)
Definition write_data (bs : bytes) (s : t) : bool * t :=
  write_loop (S (length (answers (sock_ s)))) bs s.

(** More than the number of reads that give bytes. *)
Definition avail (s : t) : nat :=
  length (rest s) + foldr (λ a n, match a with Data _ bs => S (length bs) + n | _ => n end)%nat 0%nat
                      (arrivals (sock_ s)).

End SocketStream.

(** ** [stream_line_reader] *)

Module LineReader.
Import Socket.

(** The used part of the fixed buffer, and the buffer for longer lines. *)
Record t := Make { fixed_buffer_ : bytes; glowable_buffer_ : bytes }.

Definition empty : t := Make [] [].

(** [ptr] and [size]. *)
Definition line (l : t) : bytes :=
  match glowable_buffer_ l with [] => fixed_buffer_ l | g => g end.

Definition end_with_crlf (l : t) : bool :=
  let n := length (line l) in
  bool_decide (2 ≤ n)%nat && bool_decide (drop (n - 2) (line l) = [x0d; x0a]).

Definition append (fixed_buffer_size_ : nat) (c : byte) (l : t) : t :=
  if decide (length (fixed_buffer_ l) < fixed_buffer_size_ - 1)%nat
  then Make (fixed_buffer_ l ++ [c]) (glowable_buffer_ l)
  else Make (fixed_buffer_ l)
         ((match glowable_buffer_ l with [] => fixed_buffer_ l | g => g end) ++ [c]).

(** From the [i]-th byte on; a round reads a byte or ends. *)
Fixpoint getline_loop (fuel : nat) (size i : nat) (l : t) (strm : SocketStream.t) :
    bool * t * SocketStream.t :=
  match fuel with
  | O => (false, l, strm)
  | S fuel =>
      match SocketStream.read 1 strm with
      | (Error, strm) => (false, l, strm)
      | (Closed, strm) => (bool_decide (i ≠ 0%nat), l, strm)
      | (Bytes bs, strm) =>
          let b := Detail.char_at bs 0 in
          let l := append size b l in
          if decide (b = x0a) then (true, l, strm) else getline_loop fuel size (S i) l strm
      end
  end.

Definition getline (size : nat) (strm : SocketStream.t) : bool * t * SocketStream.t :=
  getline_loop (S (SocketStream.avail strm)) size 0 empty strm.

End LineReader.

(** ** Headers and content *)

Module Content.
Import Detail Socket.

Definition CPPHTTPLIB_HEADER_MAX_LENGTH : nat := Z.to_nat 8192.
Arguments CPPHTTPLIB_HEADER_MAX_LENGTH : simpl never.

(** The key and the value of a line. *)
Fixpoint skip_blanks (s : bytes) : bytes :=
  match s with
  | b :: s' => if is_space_or_tab b then skip_blanks s' else s
  | [] => []
  end.

Definition parse_header (s : bytes) : option (bytes * bytes) :=
  let s := take (trim_right s (length s)) s in
  match index_of ":"%byte s with
  | Some i =>
      match skip_blanks (drop (S i) s) with
      | [] => None
      | v => Some (take i s, decode_url v false)
      end
  | None => None
  end.

(** A round reads a line. *)
Fixpoint headers_loop (fuel : nat) (headers : Headers.t) (strm : SocketStream.t) :
    bool * Headers.t * SocketStream.t :=
  match fuel with
  | O => (false, headers, strm)
  | S fuel =>
      match LineReader.getline 2048 strm with
      | (false, _, strm) => (false, headers, strm)
      | (true, l, strm) =>
          let line := LineReader.line l in
          if LineReader.end_with_crlf l then
            if decide (length line = 2%nat) then (true, headers, strm)
            else if decide (CPPHTTPLIB_HEADER_MAX_LENGTH < length line)%nat then (false, headers, strm)
            else
              match parse_header (take (length line - 2) line) with
              | Some (key, val) => headers_loop fuel (emplace Headers.ci key val headers) strm
              | None => headers_loop fuel headers strm
              end
          else headers_loop fuel headers strm
      end
  end.

Definition read_headers (headers : Headers.t) (strm : SocketStream.t) : bool * Headers.t * SocketStream.t :=
  headers_loop (S (SocketStream.avail strm)) headers strm.

(** *** The body, given piece by piece to a receiver with a state *)

Section receiver.
Context {R : Type} (out : bytes → R → bool * R).

Definition CPPHTTPLIB_RECV_BUFSIZ : Z := 4096.

Definition read_result : Type := bool * R * SocketStream.t.

Fixpoint length_loop (fuel : nat) (len r : Z) (st : R) (strm : SocketStream.t) : read_result :=
  match fuel with
  | O => (false, st, strm)
  | S fuel =>
      if r <? len then
        match SocketStream.read (Z.to_nat (Z.min (len - r) CPPHTTPLIB_RECV_BUFSIZ)) strm with
        | (Bytes bs, strm) =>
            match out bs st with
            | (false, st) => (false, st, strm)
            | (true, st) => length_loop fuel len (r + Z.of_nat (length bs)) st strm
            end
        | (_, strm) => (false, st, strm)
        end
      else (true, st, strm)
  end.
Definition read_content_with_length (len : Z) (st : R) (strm : SocketStream.t) : read_result :=
  length_loop (S (S (SocketStream.avail strm))) len 0 st strm.

Fixpoint skip_loop (fuel : nat) (len r : Z) (strm : SocketStream.t) : SocketStream.t :=
  match fuel with
  | O => strm
  | S fuel =>
      if r <? len then
        match SocketStream.read (Z.to_nat (Z.min (len - r) CPPHTTPLIB_RECV_BUFSIZ)) strm with
        | (Bytes bs, strm) => skip_loop fuel len (r + Z.of_nat (length bs)) strm
        | (_, strm) => strm
        end
      else strm
  end.
Definition skip_content_with_length (len : Z) (strm : SocketStream.t) : SocketStream.t :=
  skip_loop (S (S (SocketStream.avail strm))) len 0 strm.

Fixpoint no_length_loop (fuel : nat) (st : R) (strm : SocketStream.t) : read_result :=
  match fuel with
  | O => (false, st, strm)
  | S fuel =>
      match SocketStream.read (Z.to_nat CPPHTTPLIB_RECV_BUFSIZ) strm with
      | (Error, strm) => (false, st, strm)
      | (Closed, strm) => (true, st, strm)
      | (Bytes bs, strm) =>
          match out bs st with
          | (false, st) => (false, st, strm)
          | (true, st) => no_length_loop fuel st strm
          end
      end
  end.
Definition read_content_without_length (st : R) (strm : SocketStream.t) : read_result :=
  no_length_loop (S (SocketStream.avail strm)) st strm.

(** [line]: the line with the length of the next chunk.  The lines are compared and
    read as C strings. *)
Fixpoint chunk_loop (fuel : nat) (line : bytes) (st : R) (strm : SocketStream.t) : read_result :=
  match fuel with
  | O => (false, st, strm)
  | S fuel =>
      let '(chunk_len, found) := Numbers.strtoull 16 (c_str line) in
      if negb found then (false, st, strm)
      else if chunk_len =? 2 ^ 64 - 1 then (false, st, strm)
      else if chunk_len =? 0 then
        match LineReader.getline 16 strm with
        | (true, l, strm) => (bool_decide (c_str (LineReader.line l) = [x0d; x0a]), st, strm)
        | (false, _, strm) => (false, st, strm)
        end
      else
        match read_content_with_length chunk_len st strm with
        | (false, st, strm) => (false, st, strm)
        | (true, st, strm) =>
            match LineReader.getline 16 strm with
            | (false, _, strm) => (false, st, strm)
            | (true, l, strm) =>
                if decide (c_str (LineReader.line l) = [x0d; x0a]) then
                  match LineReader.getline 16 strm with
                  | (false, _, strm) => (false, st, strm)
                  | (true, l, strm) => chunk_loop fuel (LineReader.line l) st strm
                  end
                else (true, st, strm)
            end
        end
  end.
Definition read_content_chunked (st : R) (strm : SocketStream.t) : read_result :=
  match LineReader.getline 16 strm with
  | (false, _, strm) => (false, st, strm)
  | (true, l, strm) => chunk_loop (S (SocketStream.avail strm)) (LineReader.line l) st strm
  end.

(** [strcasecmp] equal. *)
Definition is_chunked_transfer_encoding (headers : Headers.t) : bool :=
  bool_decide (Headers.tolower <$> Headers.header_value headers (str "Transfer-Encoding") =
               Headers.tolower <$> str "chunked").

(** Whether a text contains another: [find] is not [npos]. *)
Fixpoint contains (t s : bytes) : bool :=
  bool_decide (t `prefix_of` s) || match s with [] => false | _ :: s => contains t s end.

(** [prepare_content_receiver] without compression: the encodings it refuses. *)
Definition refused_encoding (headers : Headers.t) : bool :=
  let encoding := Headers.header_value headers (str "Content-Encoding") in
  bool_decide (encoding = str "gzip") || bool_decide (encoding = str "deflate") ||
  contains (str "br") encoding.

(** [detail::read_content], with decompression asked for; the status when it failed. *)
Definition read_content (headers : Headers.t) (payload_max_length : Z) (st : R) (strm : SocketStream.t) :
    option Z * R * SocketStream.t :=
  if refused_encoding headers then (Some 415, st, strm)
  else
    let check (r : read_result) :=
      let '(ret, st, strm) := r in (if ret : bool then None else Some 400, st, strm) in
    if is_chunked_transfer_encoding headers then check (read_content_chunked st strm)
    else if negb (Headers.has_header headers (str "Content-Length")) then
      check (read_content_without_length st strm)
    else
      let len := Headers.header_value_u64 headers (str "Content-Length") in
      if payload_max_length <? len then (Some 413, st, skip_content_with_length len strm)
      else if 0 <? len then check (read_content_with_length len st strm)
      else (None, st, strm).

End receiver.
End Content.
