(* ===== verification/HttpStreamSpec.v ===== *)
(** * What reading from a stream gives

    A stream holds the bytes of its buffer and of the segments up to the first event
    that is not data.  Reading depends on these bytes and not on how they are cut into
    segments: [flat] is the stream with the same bytes, all in the buffer, and every
    operation sends streams that are the same to streams that are the same. *)

From S2P Require Import Prelude StdString HttpText HttpMessage HttpStream.
From Stdlib Require Import Strings.Byte.

Import Socket.

(** ** The view of a stream *)

Fixpoint data (a : list arrival) : bytes :=
  match a with Data b bs :: a => (b :: bs) ++ data a | _ => [] end.
Fixpoint after (a : list arrival) : list arrival :=
  match a with Data _ _ :: a => after a | _ => a end.

Definition pending (s : SocketStream.t) : bytes := SocketStream.rest s ++ data (arrivals (SocketStream.sock_ s)).

Definition flat (s : SocketStream.t) : SocketStream.t :=
  SocketStream.Make (with_arrivals (after (arrivals (SocketStream.sock_ s))) (SocketStream.sock_ s)) (pending s).

Definition same (s1 s2 : SocketStream.t) : Prop := flat s1 = flat s2.

#[export] Instance same_equivalence : Equivalence same.
Proof. unfold same. split; red; congruence. Qed.

(** Results that agree, with streams that are the same. *)
Definition similar {A} (x y : A * SocketStream.t) : Prop := x.1 = y.1 ∧ same x.2 y.2.

#[export] Instance similar_equivalence {A} : Equivalence (@similar A).
Proof.
  unfold similar. split; red; [done|intros ?? []; done|].
  intros x y z [-> H] [-> H']. split; [done|]. by transitivity y.2.
Qed.

(** The bytes left after [n], and what is left after a read that gave none. *)
Definition advance (n : nat) (s : SocketStream.t) : SocketStream.t :=
  SocketStream.Make (SocketStream.sock_ (flat s)) (drop n (pending s)).
Definition starve (s : SocketStream.t) : SocketStream.t :=
  let k := SocketStream.sock_ (flat s) in
  SocketStream.Make
    (match arrivals k with Failure :: a | Silence :: a => with_arrivals a k | _ => k end) [].
Definition at_end (s : SocketStream.t) : bool :=
  match after (arrivals (SocketStream.sock_ s)) with Eof :: _ => true | _ => false end.

Lemma data_after a : data (after a) = [].
Proof. induction a as [|[] a IH]; done. Qed.
Lemma after_idem a : after (after a) = after a.
Proof. induction a as [|[] a IH]; done. Qed.

Lemma flat_idem s : flat (flat s) = flat s.
Proof.
  destruct s as [[] r]. unfold flat, pending. cbn.
  by rewrite after_idem, data_after, app_nil_r.
Qed.
Lemma same_flat s : same (flat s) s.
Proof. apply flat_idem. Qed.

Lemma same_pending s1 s2 : same s1 s2 → pending s1 = pending s2.
Proof. unfold same, flat. by intros [= ? ? ? ? ?]. Qed.
Lemma same_at_end s1 s2 : same s1 s2 → at_end s1 = at_end s2.
Proof. unfold same, flat, at_end. intros [= _ H _ _ _]. by rewrite H. Qed.
Lemma same_advance n s1 s2 : same s1 s2 → same (advance n s1) (advance n s2).
Proof. unfold same, advance. intros H. by rewrite H, (same_pending _ _ H). Qed.
Lemma same_starve s1 s2 : same s1 s2 → same (starve s1) (starve s2).
Proof. unfold same, starve. by intros ->. Qed.

Lemma pending_advance n s : pending (advance n s) = drop n (pending s).
Proof. unfold pending at 1, advance. cbn. by rewrite data_after, app_nil_r. Qed.
Lemma advance_advance n m s : advance n (advance m s) = advance (m + n) s.
Proof.
  unfold advance at 1. rewrite pending_advance, drop_drop. unfold advance, flat. cbn.
  by rewrite after_idem.
Qed.
Lemma at_end_advance n s : at_end (advance n s) = at_end s.
Proof. unfold at_end, advance. cbn. by rewrite after_idem. Qed.
Lemma starve_advance n s : starve (advance n s) = starve s.
Proof. unfold starve, advance, flat. cbn. by rewrite after_idem. Qed.
Lemma flat_advance_0 s : same s (advance 0 s).
Proof. unfold same. by unfold advance; rewrite drop_0, <- flat_idem at 1. Qed.

Lemma avail_pending s : (length (pending s) ≤ SocketStream.avail s)%nat.
Proof.
  destruct s as [[fd a an se] r]. unfold pending, SocketStream.avail. cbn. rewrite length_app.
  apply Nat.add_le_mono_l. induction a as [|[] a IH]; cbn; rewrite ?length_app; lia.
Qed.
Lemma avail_flat s : SocketStream.avail (flat s) = SocketStream.avail s.
Proof.
  destruct s as [[fd a an se] r]. unfold flat, pending, SocketStream.avail. cbn. rewrite length_app, <- Nat.add_assoc.
  f_equal. induction a as [|[] a IH]; cbn; rewrite ?length_app; lia.
Qed.
Lemma same_avail s1 s2 : same s1 s2 → SocketStream.avail s1 = SocketStream.avail s2.
Proof. intros H. by rewrite <- avail_flat, H, avail_flat. Qed.

(** ** Reading *)

Lemma same_intro s1 s2 :
  pending s1 = pending s2 →
  after (arrivals (SocketStream.sock_ s1)) = after (arrivals (SocketStream.sock_ s2)) →
  with_arrivals [] (SocketStream.sock_ s1) = with_arrivals [] (SocketStream.sock_ s2) → same s1 s2.
Proof.
  destruct s1 as [[] r1], s2 as [[] r2]. unfold same, flat. cbn. intros -> -> [= -> -> ->]. done.
Qed.

Lemma select_read_data s b bs a : arrivals s = Data b bs :: a → select_read s = (true, s).
Proof. unfold select_read. intros ->. by case_match. Qed.

Definition cut (size : nat) (x : bytes) (a : list arrival) : list arrival :=
  match drop size x with [] => a | b :: bs => Data b bs :: a end.
Lemma data_cut size x a : data (cut size x a) = drop size x ++ data a.
Proof. unfold cut. by destruct (drop size x). Qed.
Lemma after_cut size x a : after (cut size x a) = after a.
Proof. unfold cut. by destruct (drop size x). Qed.

Lemma drop_take_drop (n m : nat) (x : bytes) :
  (n ≤ m)%nat → (n ≤ length x)%nat → drop n (take m x) ++ drop m x = drop n x.
Proof.
  intros Hn Hx. rewrite <- (take_drop m x) at 3. rewrite drop_app_le; [done|]. rewrite length_take. lia.
Qed.

(** A stream whose next bytes are the segment [x], with [n] of them taken. *)
Lemma same_taken fd a an se b bs n m :
  (n ≤ m)%nat → (n ≤ length (b :: bs))%nat →
  same (SocketStream.Make (Make fd (cut m (b :: bs) a) an se) (drop n (take m (b :: bs))))
       (advance n (SocketStream.Make (Make fd (Data b bs :: a) an se) [])).
Proof.
  intros Hm Hx. apply same_intro; cbn [SocketStream.sock_ advance flat with_arrivals arrivals Socket.fd answers sent after];
    [|by rewrite after_cut, after_idem|done].
  rewrite pending_advance. unfold pending. cbn [SocketStream.rest SocketStream.sock_ arrivals data app].
  rewrite data_cut, app_assoc, drop_take_drop by done. change (b :: bs ++ data a) with ((b :: bs) ++ data a).
  by rewrite drop_app_le.
Qed.

Lemma take_clip k m (x y : bytes) :
  take (k `min` length (take m x)) (x ++ y) = take k (take m x).
Proof. rewrite length_take, take_app_le, take_take by lia. destruct (decide (k `min` m ≤ length x))%nat.
  - f_equal. lia.
  - by rewrite !take_ge by lia.
Qed.
Lemma drop_clip k (x : bytes) : drop (k `min` length x) x = drop k x.
Proof. destruct (decide (k ≤ length x))%nat; [f_equal; lia|by rewrite !drop_ge by lia]. Qed.
Lemma take_clip' k (x : bytes) : take (k `min` length x) x = take k x.
Proof. destruct (decide (k ≤ length x))%nat; [f_equal; lia|by rewrite !take_ge by lia]. Qed.

(** With bytes pending, a read gives some of them. *)
Lemma read_data size s :
  (0 < size)%nat → pending s ≠ [] →
  ∃ n s', SocketStream.read size s = (Bytes (take n (pending s)), s') ∧ (0 < n ≤ size)%nat ∧
          (n ≤ length (pending s))%nat ∧ same s' (advance n s).
Proof.
  intros Hsz Hp. destruct s as [[fd a an se] [|b r]]; unfold SocketStream.read; cbn [SocketStream.rest SocketStream.sock_].
  - destruct a as [|[b bs| | |] a]; try (by destruct Hp).
    rewrite (select_read_data _ b bs a) by done. cbn [negb].
    assert (Hlen : (0 < length (b :: bs))%nat) by (simpl; lia).
    set (x := b :: bs) in *.
    assert (Hpe : pending (SocketStream.Make (Make fd (Data b bs :: a) an se) []) = x ++ data a) by done.
    rewrite Hpe, length_app.
    assert (Hbuf : (0 < SocketStream.read_buff_size_)%nat) by (unfold SocketStream.read_buff_size_; lia).
    case_decide; unfold recv; cbn [arrivals].
    + exists (size `min` length (take SocketStream.read_buff_size_ x))%nat. eexists. split.
      { by rewrite take_clip. }
      rewrite length_take. split_and!; [lia..|].
      rewrite <- (drop_clip size), length_take. apply same_taken; fold x; lia.
    + exists (size `min` length (take size x))%nat. eexists. split.
      { rewrite take_clip. by rewrite take_take, Nat.min_id. }
      rewrite length_take. split_and!; [lia..|].
      rewrite <- (drop_ge (take size x) (size `min` (size `min` length x))) at 1
        by (rewrite length_take; lia).
      apply same_taken; fold x; lia.
  - exists (size `min` length (b :: r))%nat. eexists. unfold pending. cbn [SocketStream.rest SocketStream.sock_ arrivals].
    rewrite length_app. split; [|split_and!; [simpl; lia..|]].
    { f_equal. f_equal. by rewrite take_app_le, take_clip' by lia. }
    apply same_intro; cbn [SocketStream.sock_ advance flat with_arrivals arrivals Socket.fd answers sent];
      [|by rewrite after_idem|done].
    rewrite pending_advance. unfold pending. cbn [SocketStream.rest SocketStream.sock_ arrivals].
    rewrite drop_app_le by lia. f_equal. symmetry. apply drop_clip.
Qed.

(** Without bytes pending, it gives none. *)
Lemma read_none size s :
  (0 < size)%nat → pending s = [] →
  SocketStream.read size s = (if at_end s then Closed else Error, starve s).
Proof.
  destruct s as [[fd a an se] r]. unfold pending. cbn [SocketStream.rest SocketStream.sock_ arrivals].
  intros Hsz [-> Ha]%app_nil. unfold SocketStream.read. cbn [SocketStream.rest SocketStream.sock_].
  destruct a as [|[] a]; try done; unfold select_read; cbn [arrivals Socket.fd];
    destruct (FD_SETSIZE <=? fd)%Z; cbn [negb]; try case_decide; reflexivity.
Qed.

(** A read of one byte. *)
Lemma read_one s :
  ∃ s', match pending s with
        | b :: _ => SocketStream.read 1 s = (Bytes [b], s') ∧ same s' (advance 1 s)
        | [] => SocketStream.read 1 s = (if at_end s then Closed else Error, s') ∧ same s' (starve s)
        end.
Proof.
  destruct (pending s) as [|b p] eqn:E.
  - exists (starve s). by rewrite read_none by (done || lia).
  - destruct (read_data 1 s) as (n & s' & H & Hn & _ & Hs); [lia|by rewrite E|].
    assert (n = 1%nat) as -> by lia. exists s'. by rewrite H, E.
Qed.

(** Reading bytes one at a time: what is left. *)
Definition consume (n : nat) (s : SocketStream.t) : SocketStream.t :=
  Nat.iter n (λ s, (SocketStream.read 1 s).2) s.

Lemma consume_S n s : consume (S n) s = consume n (SocketStream.read 1 s).2.
Proof. unfold consume. by rewrite Nat.iter_succ_r. Qed.
Lemma consume_add n m s : consume (n + m) s = consume m (consume n s).
Proof. unfold consume. by rewrite Nat.add_comm, Nat.iter_add. Qed.

Lemma read_one_consume b p s :
  pending s = b :: p → SocketStream.read 1 s = (Bytes [b], consume 1 s) ∧ pending (consume 1 s) = p.
Proof.
  intros E. destruct (read_one s) as [s' Hs]. rewrite E in Hs. destruct Hs as [Hr Hs].
  unfold consume. cbn. rewrite Hr. cbn. split; [done|]. by rewrite (same_pending _ _ Hs), pending_advance, E.
Qed.

Lemma consume_same n s : (n ≤ length (pending s))%nat → same (consume n s) (advance n s).
Proof.
  revert s. induction n as [|n IH]; intros s Hn; [apply flat_advance_0|].
  destruct (read_one s) as [s' Hs]. destruct (pending s) as [|b p] eqn:E; [simpl in Hn; lia|].
  destruct Hs as [Hr Hs]. rewrite consume_S, Hr. cbn [snd].
  assert (Hp : pending s' = p) by (by rewrite (same_pending _ _ Hs), pending_advance, E).
  rewrite IH by (rewrite Hp; simpl in Hn; lia). by rewrite (same_advance _ _ _ Hs), advance_advance.
Qed.

Lemma consume_rest r k r' : consume (length r) (SocketStream.Make k (r ++ r')) = SocketStream.Make k r'.
Proof. induction r as [|b r IH]; [done|]. cbn [length]. by rewrite consume_S. Qed.

(** The bytes of some segments, exactly. *)
Definition segments (xs : list (byte * bytes)) : list arrival := (λ x, Data x.1 x.2) <$> xs.
Definition text_of (xs : list (byte * bytes)) : bytes := concat ((λ x, x.1 :: x.2) <$> xs).

Lemma read_one_segment k b bs a :
  (SocketStream.read 1 (SocketStream.Make (with_arrivals (Data b bs :: a) k) [])).2 =
  SocketStream.Make (with_arrivals (cut SocketStream.read_buff_size_ (b :: bs) a) k)
    (drop 1 (take SocketStream.read_buff_size_ (b :: bs))).
Proof.
  unfold SocketStream.read. cbn [SocketStream.rest SocketStream.sock_].
  rewrite (select_read_data _ b bs a) by done. cbn [negb].
  rewrite decide_True by (unfold SocketStream.read_buff_size_; lia). by destruct k.
Qed.

Lemma consume_segment k b bs a :
  consume (length (b :: bs)) (SocketStream.Make (with_arrivals (Data b bs :: a) k) []) =
  SocketStream.Make (with_arrivals a k) [].
Proof.
  remember (length bs) as n eqn:Hn. revert b bs Hn. induction n as [n IH] using lt_wf_ind. intros b bs Hn.
  cbn [length]. rewrite consume_S, read_one_segment. unfold cut.
  assert (Hbuf : (0 < SocketStream.read_buff_size_)%nat) by (unfold SocketStream.read_buff_size_; lia).
  destruct SocketStream.read_buff_size_ as [|m]; [lia|]. cbn [take drop]. rewrite drop_0.
  assert (Hl : length bs = (length (take m bs) + length (drop m bs))%nat) by (by rewrite <- length_app, take_drop).
  rewrite Hl, consume_add. rewrite <- (app_nil_r (take m bs)) at 2. rewrite consume_rest.
  destruct (drop m bs) as [|b' bs'] eqn:E; [done|]. rewrite (IH (length bs')); [done| |done].
  apply (f_equal length) in E. rewrite length_drop in E. simpl in *. lia.
Qed.

Lemma consume_segments k xs a :
  consume (length (text_of xs)) (SocketStream.Make (with_arrivals (segments xs ++ a) k) []) =
  SocketStream.Make (with_arrivals a k) [].
Proof.
  revert k. induction xs as [|[b bs] xs IH]; intros k; [done|]. unfold text_of. cbn [fmap list_fmap concat].
  rewrite length_app, consume_add. cbn [segments fmap list_fmap fst snd app].
  rewrite consume_segment. apply IH.
Qed.

(** A segment that fits the buffer: what was not read of it stays in the buffer. *)
Lemma consume_part k b bs n a :
  (0 < n ≤ length (b :: bs))%nat → (length (b :: bs) ≤ SocketStream.read_buff_size_)%nat →
  consume n (SocketStream.Make (with_arrivals (Data b bs :: a) k) []) =
  SocketStream.Make (with_arrivals a k) (drop n (b :: bs)).
Proof.
  intros Hn Hb. destruct n as [|n]; [lia|]. rewrite consume_S, read_one_segment. unfold cut.
  rewrite drop_ge, take_ge by done. cbn [drop]. rewrite drop_0.
  rewrite <- (take_drop n bs) at 1. replace n with (length (take n bs)) at 1; [apply consume_rest|].
  rewrite length_take. simpl in Hn. lia.
Qed.

(** ** Lines *)

Definition full (size : nat) (l : LineReader.t) : Prop :=
  LineReader.glowable_buffer_ l = [] ∨ (size - 1 ≤ length (LineReader.fixed_buffer_ l))%nat.

Lemma line_append size c l :
  full size l → LineReader.line (LineReader.append size c l) = LineReader.line l ++ [c] ∧
                full size (LineReader.append size c l).
Proof.
  unfold full, LineReader.append, LineReader.line. intros Hf. case_decide; cbn.
  - destruct Hf as [->|]; [auto|lia].
  - split; [|right; lia]. destruct (_ ++ [c]) as [|x y] eqn:E; [|done].
    by apply app_eq_nil in E as [_ ?].
Qed.

(** The next line: up to a line feed, or to the end of the client's data. *)
Definition text_line (s : SocketStream.t) : bool * bytes * SocketStream.t :=
  match index_of x0a (pending s) with
  | Some i => (true, take (S i) (pending s), advance (S i) s)
  | None => (at_end s && bool_decide (pending s ≠ []), pending s, starve s)
  end.

Lemma getline_loop_text size fuel i l s :
  full size l → (length (pending s) < fuel)%nat →
  let r := LineReader.getline_loop fuel size i l s in
  match index_of x0a (pending s) with
  | Some j => r.1.1 = true ∧ LineReader.line r.1.2 = LineReader.line l ++ take (S j) (pending s) ∧
              r.2 = consume (S j) s
  | None => r.1.1 = at_end s && bool_decide (i + length (pending s) ≠ 0)%nat ∧
            LineReader.line r.1.2 = LineReader.line l ++ pending s ∧ same r.2 (starve s)
  end.
Proof.
  revert i l s. induction fuel as [|fuel IH]; intros i l s Hl Hf; [lia|]. cbn [LineReader.getline_loop].
  destruct (read_one s) as [s' Hs]. destruct (pending s) as [|b p] eqn:E.
  - destruct Hs as [-> Hs]. destruct (at_end s); cbn; rewrite app_nil_r, ?Nat.add_0_r; done.
  - destruct Hs as [Hr Hs]. assert (s' = consume 1 s) as Hc by (unfold consume; cbn; by rewrite Hr).
    rewrite Hr. cbn [Detail.char_at default lookup list_lookup from_option id index_of].
    destruct (line_append size b l Hl) as [Hline Hfull]. case_decide as Hb.
    + cbn [fst snd take]. by rewrite <- Hc.
    + assert (Hp : pending s' = p) by (rewrite (same_pending _ _ Hs), pending_advance, E; done).
      specialize (IH (S i) (LineReader.append size b l) s' Hfull). rewrite Hp in IH. simpl in Hf.
      specialize (IH ltac:(lia)). cbn zeta in IH. destruct (index_of x0a p) as [j|]; cbn [fmap option_fmap option_map];
        destruct IH as (H1 & H2 & H3); rewrite Hline, <- app_assoc in H2.
      * split; [done|]. split; [done|]. by rewrite H3, Hc, <- (consume_add 1).
      * rewrite (same_at_end _ _ Hs), at_end_advance in H1. split.
        { rewrite H1. f_equal. apply bool_decide_ext. simpl. lia. }
        split; [done|]. by rewrite H3, (same_starve _ _ Hs), starve_advance.
Qed.

Lemma getline_text size s :
  let r := LineReader.getline size s in similar ((r.1.1, LineReader.line r.1.2), r.2) (text_line s).
Proof.
  pose proof (getline_loop_text size (S (SocketStream.avail s)) 0 LineReader.empty s) as H.
  specialize (H (or_introl eq_refl) ltac:(pose proof (avail_pending s); lia)).
  unfold text_line, LineReader.getline. cbn zeta in *.
  destruct (index_of x0a (pending s)) eqn:E; destruct H as (H1 & H2 & H3); split; cbn [fst snd]; try done.
  - by rewrite H1, H2.
  - rewrite H3. apply consume_same. apply index_of_Some in E. lia.
  - rewrite H1, H2. f_equal. f_equal. apply bool_decide_ext. cbn. destruct (pending s); simpl; naive_solver lia.
Qed.

Lemma text_line_same s1 s2 : same s1 s2 → similar (text_line s1) (text_line s2).
Proof.
  intros H. unfold text_line. rewrite (same_pending _ _ H), (same_at_end _ _ H).
  destruct (index_of _ _); split; cbn; auto using same_advance, same_starve.
Qed.

(** [getline] by the next line, for any user of its result. *)
Lemma getline_cases size s :
  ∃ l s', LineReader.getline size s = ((text_line s).1.1, l, s') ∧
          LineReader.line l = (text_line s).1.2 ∧ same s' (text_line s).2.
Proof.
  pose proof (getline_text size s) as [H1 H2]. destruct (LineReader.getline size s) as [[ok l] s'].
  cbn [fst snd] in *. exists l, s'. destruct (text_line s) as [[ok' x] s'']. cbn in *. by simplify_eq.
Qed.

(** A line that was read leaves no more bytes than there were. *)
Lemma text_line_pending s :
  (text_line s).1.1 = true → (length (pending (text_line s).2) ≤ length (pending s))%nat.
Proof.
  unfold text_line. destruct (index_of _ _); cbn [fst snd]; [rewrite pending_advance, length_drop; lia|].
  unfold at_end, starve, pending, flat. cbn.
  destruct (after _) as [|[] a] eqn:E; cbn; try done. lia.
Qed.

(** ** Headers *)

Definition CRLF : bytes := [x0d; x0a].

Definition ends_crlf (x : bytes) : bool :=
  bool_decide (2 ≤ length x)%nat && bool_decide (drop (length x - 2) x = CRLF).

Lemma end_with_crlf_line l : LineReader.end_with_crlf l = ends_crlf (LineReader.line l).
Proof. done. Qed.

(** A header line enters the headers. *)
Definition enter (h : Headers.t) (line : bytes) : Headers.t :=
  match Content.parse_header line with
  | Some (key, val) => Detail.emplace Headers.ci key val h
  | None => h
  end.

(** What a line does to [read_headers]: it ends it with a result, or not. *)
Definition head_round (ok : bool) (line : bytes) (h : Headers.t) : (bool * Headers.t) + Headers.t :=
  if ok then
    if ends_crlf line then
      if decide (length line = 2%nat) then inl (true, h)
      else if decide (Content.CPPHTTPLIB_HEADER_MAX_LENGTH < length line)%nat then inl (false, h)
      else inr (enter h (take (length line - 2) line))
    else inr h
  else inl (false, h).

Lemma headers_loop_round fuel h s :
  ∃ s', same s' (text_line s).2 ∧
    Content.headers_loop (S fuel) h s =
      match head_round (text_line s).1.1 (text_line s).1.2 h with
      | inl (ok, h) => (ok, h, s')
      | inr h => Content.headers_loop fuel h s'
      end.
Proof.
  destruct (getline_cases 2048 s) as (l & s' & E & Hl & Hs). exists s'. split; [done|].
  cbn [Content.headers_loop]. rewrite E. unfold head_round. rewrite end_with_crlf_line, Hl.
  destruct (text_line s).1.1; [|done]. destruct (ends_crlf _); [|done].
  case_decide; [done|]. case_decide; [done|]. unfold enter.
  by destruct (Content.parse_header _) as [[]|].
Qed.

Lemma headers_loop_same fuel h s1 s2 :
  same s1 s2 → similar (Content.headers_loop fuel h s1) (Content.headers_loop fuel h s2).
Proof.
  revert h s1 s2. induction fuel as [|fuel IH]; intros h s1 s2 H; [by split|].
  destruct (headers_loop_round fuel h s1) as (s1' & H1 & ->).
  destruct (headers_loop_round fuel h s2) as (s2' & H2 & ->).
  destruct (text_line_same _ _ H) as [-> Hs].
  assert (Hss : same s1' s2') by (by rewrite H1, H2).
  destruct (head_round _ _ h) as [[]|]; [by split|by apply IH].
Qed.

Lemma read_headers_same h s1 s2 :
  same s1 s2 → similar (Content.read_headers h s1) (Content.read_headers h s2).
Proof. intros H. unfold Content.read_headers. rewrite (same_avail _ _ H). by apply headers_loop_same. Qed.

(** Headers that were read leave no more bytes than there were. *)
Lemma headers_loop_pending fuel h s :
  (Content.headers_loop fuel h s).1.1 = true →
  (length (pending (Content.headers_loop fuel h s).2) ≤ length (pending s))%nat.
Proof.
  revert h s. induction fuel as [|fuel IH]; intros h s; [done|].
  destruct (headers_loop_round fuel h s) as (s' & Hs & ->). pose proof (text_line_pending s) as Hp.
  rewrite <- (same_pending _ _ Hs) in Hp. destruct ((text_line s).1.1); [|done]. specialize (Hp eq_refl).
  destruct (head_round _ _ h) as [[]|]; [done|]. intros Hok. specialize (IH _ _ Hok). lia.
Qed.

(** The next line of a text that begins with one: the bytes of the line are read, and
    no other. *)
Lemma getline_line size s line rest :
  x0a ∉ line → pending s = (line ++ [x0a]) ++ rest →
  ∃ l, LineReader.getline size s = (true, l, consume (S (length line)) s) ∧
       LineReader.line l = line ++ [x0a] ∧ pending (consume (S (length line)) s) = rest.
Proof.
  intros Hl Hp. pose proof (getline_loop_text size (S (SocketStream.avail s)) 0 LineReader.empty s) as H.
  specialize (H (or_introl eq_refl) ltac:(pose proof (avail_pending s); lia)). cbn zeta in H.
  unfold LineReader.getline. rewrite Hp, <- app_assoc in H. cbn [app] in H. rewrite index_of_app in H by done.
  destruct H as (H1 & H2 & H3). destruct (LineReader.getline_loop _ size 0 LineReader.empty s) as [[ok l] s'].
  cbn [fst snd] in *. subst. exists l. split; [done|].
  assert (Hlen : S (length line) = length (line ++ [x0a])) by (rewrite length_app; simpl; lia).
  rewrite H2, Hlen. change (x0a :: rest) with ([x0a] ++ rest). rewrite app_assoc, take_app_length. split; [done|].
  rewrite (same_pending _ _ (consume_same (length (line ++ [x0a])) s ltac:(rewrite Hp, !length_app; simpl; lia))).
  by rewrite pending_advance, Hp, drop_app_length.
Qed.

Lemma ends_crlf_app x : ends_crlf (x ++ CRLF) = true.
Proof.
  unfold ends_crlf. rewrite length_app. cbn [length CRLF]. rewrite bool_decide_true by lia.
  replace (length x + 2 - 2)%nat with (length x) by lia. by rewrite drop_app_length.
Qed.

(** A header line as a client writes it. *)
Definition header_line (l : bytes) : Prop :=
  x0a ∉ l ∧ l ≠ [] ∧ (length l + 2 ≤ Content.CPPHTTPLIB_HEADER_MAX_LENGTH)%nat.

Definition head_text (ls : list bytes) : bytes := concat ((λ l, l ++ CRLF) <$> ls) ++ CRLF.

Lemma head_text_cons l ls : head_text (l :: ls) = (l ++ CRLF) ++ head_text ls.
Proof. unfold head_text. cbn [fmap list_fmap concat]. by rewrite <- !app_assoc. Qed.

Lemma headers_loop_lines ls fuel h s rest :
  Forall header_line ls → pending s = head_text ls ++ rest → (length ls < fuel)%nat →
  Content.headers_loop fuel h s = (true, foldl enter h ls, consume (length (head_text ls)) s) ∧
  pending (consume (length (head_text ls)) s) = rest.
Proof.
  revert fuel h s. induction ls as [|l ls IH]; intros fuel h s Hls Hp Hf;
    (destruct fuel as [|fuel]; [simpl in Hf; lia|]); cbn [Content.headers_loop].
  - destruct (getline_line 2048 s [x0d] rest) as (r & -> & Hl & Hr); [set_solver|done|].
    by rewrite end_with_crlf_line, Hl.
  - apply Forall_cons in Hls as [(H1 & H2 & H3) Hls].
    destruct (getline_line 2048 s (l ++ [x0d]) (head_text ls ++ rest)) as (r & -> & Hl & Hr).
    { rewrite not_elem_of_app, list_elem_of_singleton. done. }
    { rewrite Hp, head_text_cons. unfold CRLF. by rewrite <- !app_assoc. }
    rewrite end_with_crlf_line, Hl, <- app_assoc. change ([x0d] ++ [x0a]) with CRLF. rewrite ends_crlf_app, length_app.
    cbn [length CRLF]. rewrite decide_False by (destruct l; simpl; [done|lia]). rewrite decide_False by lia.
    replace (length l + 2 - 2)%nat with (length l) by lia. rewrite take_app_length.
    assert (Hlen : length (head_text (l :: ls)) = (S (length (l ++ [x0d])) + length (head_text ls))%nat).
    { rewrite head_text_cons, !length_app. unfold CRLF. simpl. lia. }
    rewrite Hlen, consume_add.
    destruct (IH fuel (enter h l) _ Hls Hr) as [E Hr']; [simpl in Hf; lia|]. split; [|done].
    cbn [foldl]. rewrite <- E. unfold enter. by destruct (Content.parse_header l) as [[]|].
Qed.

Lemma length_head_text ls : (length ls ≤ length (head_text ls))%nat.
Proof.
  induction ls as [|l ls IH]; [simpl; lia|]. rewrite head_text_cons, !length_app. unfold CRLF. simpl. lia.
Qed.

Lemma read_headers_lines ls h s rest :
  Forall header_line ls → pending s = head_text ls ++ rest →
  Content.read_headers h s = (true, foldl enter h ls, consume (length (head_text ls)) s) ∧
  pending (consume (length (head_text ls)) s) = rest.
Proof.
  intros Hls Hp. apply (headers_loop_lines ls _ h s rest Hls Hp).
  pose proof (avail_pending s) as Ha. rewrite Hp, length_app in Ha. pose proof (length_head_text ls). lia.
Qed.

(** ** Writing *)

(** No call of [send] fails; calls may take part of their bytes. *)
Definition sends (s : SocketStream.t) : Prop := Forall is_Some (answers (SocketStream.sock_ s)).

(** The stream after [bs] has been sent with [a] answers left. *)
Definition wrote (bs : bytes) (a : list (option nat)) (s : SocketStream.t) : SocketStream.t :=
  SocketStream.Make (with_answers a (with_sent (sent (SocketStream.sock_ s) ++ bs) (SocketStream.sock_ s)))
    (SocketStream.rest s).

Lemma write_loop_ok fuel bs s :
  sends s → (length (answers (SocketStream.sock_ s)) < fuel)%nat →
  ∃ a, Forall is_Some a ∧ SocketStream.write_loop fuel bs s = (true, wrote bs a s).
Proof.
  revert bs s. induction fuel as [|fuel IH]; intros bs s Hs Hf; [lia|].
  destruct bs as [|b bs].
  - exists (answers (SocketStream.sock_ s)). split; [done|]. destruct s as [[] r]. cbn. unfold wrote. cbn.
    by rewrite app_nil_r.
  - cbn [SocketStream.write_loop]. generalize (b :: bs). clear b bs. intros x.
    unfold SocketStream.write, send. unfold sends in *.
    destruct s as [[fd ar an se] r]. cbn [SocketStream.sock_ answers] in *.
    destruct an as [|[n|] an]; cbn [SocketStream.rest].
    + exists []. split; [done|]. rewrite drop_ge by done. by destruct fuel.
    + apply Forall_cons in Hs as [_ Hs]. cbn [length] in Hf.
      destruct (IH (drop (n `min` length x)%nat x)
                   (SocketStream.Make (Make fd ar an (se ++ take n x)) r)) as (a & Ha & E);
        [done|cbn; lia|].
      exists a. split; [done|]. etransitivity; [exact E|]. unfold wrote. cbn.
      by rewrite drop_clip, <- app_assoc, take_drop.
    + by apply Forall_cons in Hs as [[? [=]] _].
Qed.

Lemma write_data_ok bs s :
  sends s → ∃ a, Forall is_Some a ∧ SocketStream.write_data bs s = (true, wrote bs a s).
Proof. intros Hs. apply write_loop_ok; [done|]. lia. Qed.

Lemma pending_write bs s : pending (SocketStream.write bs s).2 = pending s.
Proof. destruct s as [[fd ar [|[n|] an] se] r]; done. Qed.

Lemma write_same bs s1 s2 : same s1 s2 → similar (SocketStream.write bs s1) (SocketStream.write bs s2).
Proof.
  destruct s1 as [[] r1], s2 as [[] r2]. unfold same, flat, pending, similar, SocketStream.write, send. cbn.
  intros [= -> Ha -> -> Hp]. destruct answers1 as [|[n|] an]; cbn; unfold same, flat, pending; cbn; by rewrite Ha, Hp.
Qed.

Lemma write_loop_same fuel bs s1 s2 :
  same s1 s2 → similar (SocketStream.write_loop fuel bs s1) (SocketStream.write_loop fuel bs s2).
Proof.
  revert bs s1 s2. induction fuel as [|fuel IH]; intros [|b bs] s1 s2 H; try by split.
  cbn [SocketStream.write_loop]. destruct (write_same (b :: bs) _ _ H) as [Hr Hs].
  destruct (SocketStream.write _ s1) as [[n|] s1'], (SocketStream.write _ s2) as [[m|] s2']; cbn in *;
    simplify_eq; [by apply IH|by split].
Qed.

Lemma write_data_same bs s1 s2 :
  same s1 s2 → similar (SocketStream.write_data bs s1) (SocketStream.write_data bs s2).
Proof.
  intros H. unfold SocketStream.write_data. replace (answers (SocketStream.sock_ s2)) with (answers (SocketStream.sock_ s1)).
  - by apply write_loop_same.
  - revert H. unfold same, flat. by intros [= _ _ ? _ _].
Qed.

(** ** The content

    A receiver that takes, in whatever pieces they come, any bytes up to a length; its
    state is a function of the bytes it has been given. *)

Definition takes {R} (out : bytes → R → bool * R) (n : nat) (f : bytes → R) : Prop :=
  ∀ q x, (length q + length x ≤ n)%nat → out x (f q) = (true, f (q ++ x)).

Section content.
Context {R : Type} (out : bytes → R → bool * R) (max : nat) (f : bytes → R).
Hypothesis Htakes : takes out max f.

(** Reading a content of [len] bytes: all are there, or the data ends before. *)
Definition text_length (len : Z) (q : bytes) (s : SocketStream.t) : bool * bytes * SocketStream.t :=
  if decide (len ≤ Z.of_nat (length (pending s)))%Z
  then (true, q ++ take (Z.to_nat len) (pending s), advance (Z.to_nat len) s)
  else (false, q ++ pending s, starve s).

(** A result with the bytes given to the receiver, and the same with its state. *)
Definition given (x : bool * bytes * SocketStream.t) : Content.read_result :=
  let '(ok, q, s) := x in (ok, f q, s).

Lemma given_similar x y : similar x y → similar (given x) (given y).
Proof. destruct x as [[]], y as [[]]. intros [[= -> ->] H]. by split. Qed.

Lemma length_loop_text fuel len r q s :
  (length q + length (pending s) ≤ max)%nat → (S (length (pending s)) < fuel)%nat → (r ≤ len)%Z →
  similar (Content.length_loop out fuel len r (f q) s) (given (text_length (len - r) q s)).
Proof.
  revert r q s. induction fuel as [|fuel IH]; intros r q s Hd Hf Hr; [lia|]. cbn [Content.length_loop].
  unfold text_length. destruct (Z.ltb_spec r len) as [Hlt|Hge].
  2: { assert (len - r = 0)%Z as -> by lia. rewrite decide_True by lia. rewrite take_0, app_nil_r.
       split; [done|]. apply flat_advance_0. }
  destruct (decide (pending s = [])) as [E|E].
  - rewrite read_none by (try done; unfold Content.CPPHTTPLIB_RECV_BUFSIZ; lia). rewrite E. cbn [length].
    rewrite decide_False by lia. rewrite app_nil_r. by destruct (at_end s).
  - destruct (read_data (Z.to_nat (Z.min (len - r) Content.CPPHTTPLIB_RECV_BUFSIZ)) s) as (n & s' & -> & Hn & Hnl & Hs);
      [unfold Content.CPPHTTPLIB_RECV_BUFSIZ; lia|done|].
    rewrite Htakes by (rewrite length_take; lia).
    rewrite length_take. replace (n `min` length (pending s))%nat with n by lia.
    assert (Hp : pending s' = drop n (pending s)) by (by rewrite (same_pending _ _ Hs), pending_advance).
    etransitivity; [apply IH|].
    + rewrite Hp, length_app, length_take, length_drop. lia.
    + rewrite Hp, length_drop. lia.
    + lia.
    + apply given_similar. unfold text_length. rewrite Hp, length_drop, <- !app_assoc, take_drop.
      destruct (decide (len - r ≤ Z.of_nat (length (pending s)))%Z).
      * rewrite !decide_True by lia. split; cbn.
        { do 2 f_equal. replace (Z.to_nat (len - r)) with (n + Z.to_nat (len - (r + Z.of_nat n)))%nat by lia.
          by rewrite <- take_take_drop. }
        { rewrite (same_advance _ _ _ Hs), advance_advance. f_equiv. lia. }
      * rewrite !decide_False by lia. split; [done|]. cbn. by rewrite (same_starve _ _ Hs), starve_advance.
Qed.

Lemma with_length_text len q s :
  (length q + length (pending s) ≤ max)%nat → (0 ≤ len)%Z →
  similar (Content.read_content_with_length out len (f q) s) (given (text_length len q s)).
Proof.
  intros Hq Hlen. unfold Content.read_content_with_length.
  rewrite <- (Z.sub_0_r len) at 2. apply length_loop_text; [done| |done]. pose proof (avail_pending s). lia.
Qed.

Lemma text_length_same len q s1 s2 : same s1 s2 → similar (text_length len q s1) (text_length len q s2).
Proof.
  intros H. unfold text_length. rewrite (same_pending _ _ H).
  case_decide; split; cbn; auto using same_advance, same_starve.
Qed.

(** Reading to the end of the client's data. *)
Definition text_all (q : bytes) (s : SocketStream.t) : bool * bytes * SocketStream.t :=
  (at_end s, q ++ pending s, starve s).

Lemma no_length_loop_text fuel q s :
  (length q + length (pending s) ≤ max)%nat → (length (pending s) < fuel)%nat →
  similar (Content.no_length_loop out fuel (f q) s) (given (text_all q s)).
Proof.
  revert q s. induction fuel as [|fuel IH]; intros q s Hd Hf; [lia|]. cbn [Content.no_length_loop].
  unfold text_all. destruct (decide (pending s = [])) as [E|E].
  - rewrite read_none by (try done; unfold Content.CPPHTTPLIB_RECV_BUFSIZ; lia). rewrite E, app_nil_r.
    by destruct (at_end s).
  - destruct (read_data (Z.to_nat Content.CPPHTTPLIB_RECV_BUFSIZ) s) as (n & s' & -> & Hn & Hnl & Hs);
      [unfold Content.CPPHTTPLIB_RECV_BUFSIZ; lia|done|].
    rewrite Htakes by (rewrite length_take; lia).
    assert (Hp : pending s' = drop n (pending s)) by (by rewrite (same_pending _ _ Hs), pending_advance).
    etransitivity; [apply IH|].
    + rewrite Hp, length_app, length_take, length_drop. lia.
    + rewrite Hp, length_drop. lia.
    + apply given_similar. unfold text_all. rewrite Hp, <- !app_assoc, take_drop. split; cbn.
      * by rewrite (same_at_end _ _ Hs), at_end_advance.
      * by rewrite (same_starve _ _ Hs), starve_advance.
Qed.

Lemma without_length_text q s :
  (length q + length (pending s) ≤ max)%nat →
  similar (Content.read_content_without_length out (f q) s) (given (text_all q s)).
Proof. intros Hq. apply no_length_loop_text; [done|]. pose proof (avail_pending s). lia. Qed.

Lemma skip_loop_text fuel len r s :
  (S (length (pending s)) < fuel)%nat → (r ≤ len)%Z →
  same (Content.skip_loop fuel len r s) (text_length (len - r) [] s).2.
Proof.
  revert r s. induction fuel as [|fuel IH]; intros r s Hf Hr; [lia|]. cbn [Content.skip_loop].
  unfold text_length. destruct (Z.ltb_spec r len) as [Hlt|Hge].
  2: { assert (len - r = 0)%Z as -> by lia. rewrite decide_True by lia. apply flat_advance_0. }
  destruct (decide (pending s = [])) as [E|E].
  - rewrite read_none by (try done; unfold Content.CPPHTTPLIB_RECV_BUFSIZ; lia). rewrite E. cbn [length].
    rewrite decide_False by lia. by destruct (at_end s).
  - destruct (read_data (Z.to_nat (Z.min (len - r) Content.CPPHTTPLIB_RECV_BUFSIZ)) s) as (n & s' & -> & Hn & Hnl & Hs);
      [unfold Content.CPPHTTPLIB_RECV_BUFSIZ; lia|done|].
    rewrite length_take. replace (n `min` length (pending s))%nat with n by lia.
    assert (Hp : pending s' = drop n (pending s)) by (by rewrite (same_pending _ _ Hs), pending_advance).
    rewrite IH by (rewrite ?Hp, ?length_drop; lia). unfold text_length. rewrite Hp, length_drop.
    destruct (decide (len - r ≤ Z.of_nat (length (pending s)))%Z).
    + rewrite !decide_True by lia. cbn. rewrite (same_advance _ _ _ Hs), advance_advance. f_equiv. lia.
    + rewrite !decide_False by lia. cbn. by rewrite (same_starve _ _ Hs), starve_advance.
Qed.

Lemma skip_same len s1 s2 :
  (0 ≤ len)%Z → same s1 s2 → same (Content.skip_content_with_length len s1) (Content.skip_content_with_length len s2).
Proof.
  intros Hlen H. unfold Content.skip_content_with_length.
  rewrite !skip_loop_text by (try done; match goal with |- context [pending ?s] => pose proof (avail_pending s) end; lia).
  by apply text_length_same.
Qed.

Lemma strtoull_nonneg base s : (0 ≤ (Numbers.strtoull base s).1)%Z.
Proof.
  unfold Numbers.strtoull. repeat case_match; cbn; try lia; apply Z.mod_pos_bound; lia.
Qed.

(** Two streams that are the same give the same line, and the same content. *)
Lemma getline_same size s1 s2 :
  same s1 s2 → ∃ ok l1 l2 s1' s2',
    LineReader.getline size s1 = (ok, l1, s1') ∧ LineReader.getline size s2 = (ok, l2, s2') ∧
    LineReader.line l1 = LineReader.line l2 ∧ same s1' s2' ∧
    (ok = true → (length (pending s1') ≤ length (pending s1))%nat).
Proof.
  intros H. destruct (getline_cases size s1) as (l1 & s1' & E1 & Hl1 & Hs1).
  destruct (getline_cases size s2) as (l2 & s2' & E2 & Hl2 & Hs2).
  destruct (text_line_same _ _ H) as [E Hs]. pose proof (text_line_pending s1) as Hp.
  exists (text_line s1).1.1, l1, l2, s1', s2'. rewrite E1, E2, Hl1, Hl2, E. split_and!; try done.
  - by rewrite Hs1, Hs2.
  - rewrite (same_pending _ _ Hs1), <- E. done.
Qed.

Lemma with_length_same len q s1 s2 :
  same s1 s2 → (length q + length (pending s1) ≤ max)%nat → (0 ≤ len)%Z →
  ∃ ok q' s1' s2',
    Content.read_content_with_length out len (f q) s1 = (ok, f q', s1') ∧
    Content.read_content_with_length out len (f q) s2 = (ok, f q', s2') ∧
    same s1' s2' ∧ (ok = true → (length q' + length (pending s1') ≤ max)%nat).
Proof.
  intros H Hq Hn.
  assert (Hq2 : (length q + length (pending s2) ≤ max)%nat) by (by rewrite <- (same_pending _ _ H)).
  pose proof (with_length_text len q s1 Hq Hn) as H1. pose proof (with_length_text len q s2 Hq2 Hn) as H2.
  pose proof (text_length_same len q _ _ H) as H0. revert H0 H1 H2.
  assert (Hlen : (text_length len q s1).1.1 = true →
    (length (text_length len q s1).1.2 + length (pending (text_length len q s1).2) ≤ max)%nat).
  { unfold text_length. case_decide; cbn [fst snd]; [|done].
    rewrite length_app, length_take, pending_advance, length_drop. lia. }
  revert Hlen. destruct (text_length len q s1) as [[b q1] t1], (text_length len q s2) as [[b2 q2] t2].
  destruct (Content.read_content_with_length out len (f q) s1) as [[b1 st1] s1'].
  destruct (Content.read_content_with_length out len (f q) s2) as [[b2' st2] s2'].
  unfold similar. cbn [fst snd given]. intros Hlen [[= <- <-] S0] [[= -> ->] S1] [[= -> ->] S2].
  exists b, q1, s1', s2'. split_and!; try done; [by rewrite S1, S2|]. by rewrite (same_pending _ _ S1).
Qed.

Lemma chunk_loop_same fuel line q s1 s2 :
  same s1 s2 → (length q + length (pending s1) ≤ max)%nat →
  similar (Content.chunk_loop out fuel line (f q) s1) (Content.chunk_loop out fuel line (f q) s2).
Proof.
  revert line q s1 s2. induction fuel as [|fuel IH]; intros line q s1 s2 H Hq; [by split|].
  cbn [Content.chunk_loop]. pose proof (strtoull_nonneg 16 (c_str line)) as Hn.
  destruct (Numbers.strtoull 16 (c_str line)) as [len found]. cbn [fst] in Hn.
  destruct found; [cbn [negb]|by split]. destruct (len =? 2 ^ 64 - 1)%Z; [by split|].
  destruct (len =? 0)%Z.
  { destruct (getline_same 16 _ _ H) as ([] & l1 & l2 & t1 & t2 & -> & -> & Hl & Ht & _); [|by split].
    by rewrite Hl. }
  destruct (with_length_same len q _ _ H Hq Hn) as ([] & q' & s1' & s2' & -> & -> & H' & Hq'); [|by split].
  destruct (getline_same 16 _ _ H') as ([] & l1 & l2 & t1 & t2 & -> & -> & Hl & Ht & Hp); [|by split].
  rewrite Hl. case_decide; [|by split].
  destruct (getline_same 16 _ _ Ht) as ([] & m1 & m2 & u1 & u2 & -> & -> & Hm & Hu & Hp'); [|by split].
  rewrite Hm. apply IH; [done|]. specialize (Hq' eq_refl). specialize (Hp eq_refl). specialize (Hp' eq_refl). lia.
Qed.

Lemma chunked_same q s1 s2 :
  same s1 s2 → (length q + length (pending s1) ≤ max)%nat →
  similar (Content.read_content_chunked out (f q) s1) (Content.read_content_chunked out (f q) s2).
Proof.
  intros H Hq. unfold Content.read_content_chunked.
  destruct (getline_same 16 _ _ H) as ([] & l1 & l2 & t1 & t2 & -> & -> & Hl & Ht & Hp); [|by split].
  rewrite Hl, (same_avail _ _ Ht). apply chunk_loop_same; [done|]. specialize (Hp eq_refl). lia.
Qed.

Lemma without_length_same q s1 s2 :
  same s1 s2 → (length q + length (pending s1) ≤ max)%nat →
  similar (Content.read_content_without_length out (f q) s1) (Content.read_content_without_length out (f q) s2).
Proof.
  intros H Hq. rewrite (without_length_text q s1 Hq).
  rewrite (without_length_text q s2) by (by rewrite <- (same_pending _ _ H)).
  apply given_similar. unfold text_all. rewrite (same_pending _ _ H), (same_at_end _ _ H).
  split; [done|]. by apply same_starve.
Qed.

(** The content does not depend on the segments it comes in. *)
Lemma read_content_same h payload_max q s1 s2 :
  same s1 s2 → (length q + length (pending s1) ≤ max)%nat →
  similar (Content.read_content out h payload_max (f q) s1) (Content.read_content out h payload_max (f q) s2).
Proof.
  intros H Hq. unfold Content.read_content.
  assert (Hcheck : ∀ r1 r2 : Content.read_result, similar r1 r2 →
    similar (A := option Z * R)%type
            (let '(ret, st, strm) := r1 in (if ret : bool then None else Some 400%Z, st, strm))
            (let '(ret, st, strm) := r2 in (if ret : bool then None else Some 400%Z, st, strm))).
  { intros [[] ] [[] ] [[= -> ->] Hs]. by split. }
  assert (Hn : (0 ≤ Headers.header_value_u64 h (str "Content-Length"))%Z).
  { unfold Headers.header_value_u64. case_match; [apply strtoull_nonneg|done]. }
  destruct (Content.refused_encoding h); [by split|].
  destruct (Content.is_chunked_transfer_encoding h); [by apply Hcheck, chunked_same|].
  destruct (negb _); [by apply Hcheck, without_length_same|].
  destruct (_ <? _)%Z; [split; [done|by apply skip_same]|].
  destruct (_ <? _)%Z; [|by split]. apply Hcheck.
  destruct (with_length_same _ _ _ _ H Hq Hn) as (ok & q' & s1' & s2' & -> & -> & H' & _). by split.
Qed.
End content.
