(* ===== verification/HttpMultipart.v ===== *)
(** * cpp-httplib: multipart forms ([thirdpart/include/http/httplib.h])

    [MultipartFormDataParser]: a form is parsed as its pieces arrive; the parts of
    its entries go to two callbacks with a state. *)

From S2P Require Import Prelude StdString Regex HttpText HttpMessage HttpStream.
From Stdlib Require Import Strings.Byte.

Open Scope Z_scope.

Module Multipart.

(** [s.find(t)]. *)
Fixpoint find_text (t s : bytes) : option nat :=
  if decide (t `prefix_of` s) then Some 0%nat
  else match s with [] => None | _ :: s => S <$> find_text t s end.

(** The boundary of a content type; [None] when there is none. *)
Definition parse_multipart_boundary (content_type : bytes) : option bytes :=
  match find_text (str "boundary=") content_type with
  | None => None
  | Some pos =>
      let b := drop (pos + 9) content_type in
      let n := length b in
      let b := if bool_decide (2 ≤ n)%nat && bool_decide (b !! 0%nat = Some x22) &&
                  bool_decide (b !! (n - 1)%nat = Some x22)
               then take (n - 2) (drop 1 b) else b in
      if decide (b = []) then None else Some b
  end.

(** [^Content-Disposition:\s*form-data;\s*name=], the name in quotes, perhaps
    [;\s*filename=] and the file name in quotes, perhaps [;\s*filename\*=\S+],
    [\s*$], in any case of letters. *)
Definition re_content_disposition : Regex.t :=
  let lit s := Regex.literal Regex.chr_icase (str s) in
  let quote := Regex.chr x22 in
  let quoted n := Regex.seq [quote; Regex.Group n (Regex.Star false Regex.any); quote] in
  let spaces := Regex.star Regex.space in
  Regex.seq [
    lit "Content-Disposition:"; spaces; lit "form-data;"; spaces; lit "name="; quoted 1%nat;
    Regex.opt (Regex.seq [lit ";"; spaces; lit "filename="; quoted 2%nat]);
    Regex.opt (Regex.seq [lit ";"; spaces; lit "filename*="; Regex.plus Regex.nonspace]);
    spaces]%string.

(** [boundary_] is set once; [buf] is what is left of the buffer, from [buf_spos_] to
    [buf_epos_]. *)
Record t := Make {
  boundary_ : bytes;
  state_ : nat;
  is_valid_ : bool;
  file_ : MultipartFormData;
  buf : bytes;
}.

Definition no_file : MultipartFormData := MkForm [] [] [] [].
Definition make (boundary : bytes) : t := Make boundary 0 false no_file [].

Definition with_state (n : nat) (p : t) : t := Make (boundary_ p) n (is_valid_ p) (file_ p) (buf p).
Definition with_valid (b : bool) (p : t) : t := Make (boundary_ p) (state_ p) b (file_ p) (buf p).
Definition with_file (f : MultipartFormData) (p : t) : t := Make (boundary_ p) (state_ p) (is_valid_ p) f (buf p).
Definition with_buf (b : bytes) (p : t) : t := Make (boundary_ p) (state_ p) (is_valid_ p) (file_ p) b.

Definition clear_file_info (f : MultipartFormData) : MultipartFormData :=
  MkForm [] (form_content f) [] [].

Definition start_with_case_ignore (a b : bytes) : bool :=
  bool_decide (length b ≤ length a)%nat &&
  bool_decide (Headers.tolower <$> take (length b) a = Headers.tolower <$> b).

(** The buffer. *)
Definition buf_find (s : bytes) (p : t) : nat := default (length (buf p)) (find_text s (buf p)).
Definition buf_start_with (s : bytes) (p : t) : bool := bool_decide (s `prefix_of` buf p).
Definition buf_append (data : bytes) (p : t) : t := with_buf (buf p ++ data) p.
Definition buf_erase (n : nat) (p : t) : t := with_buf (drop n (buf p)) p.

Definition dash_ : bytes := str "--".
Definition crlf_ : bytes := [x0d; x0a].

(** A header line of an entry. *)
Definition entry_header (header : bytes) (f : MultipartFormData) : MultipartFormData :=
  let header_name := str "content-type:" in
  if start_with_case_ignore header header_name then
    MkForm (form_name f) (form_content f) (form_filename f)
      (Detail.trim_copy (drop (length header_name) header))
  else match Regex.regex_match re_content_disposition header with
       | Some m => MkForm (Regex.group 1 m) (form_content f) (Regex.group 2 m) (form_content_type f)
       | None => f
       end.

Section parse.
Context {R : Type} (header_callback : MultipartFormData → R → bool * R) (content_callback : bytes → R → bool * R).

(** A round of the loop of [parse] goes on or returns. *)
Inductive round := Go (p : t) (st : R) | Return (ret : bool) (p : t) (st : R).

(** The header lines, up to the empty one. *)
Fixpoint headers_loop (fuel : nat) (pos : nat) (p : t) (st : R) : round :=
  match fuel with
  | O => Return true p st
  | S fuel =>
      if decide (pos < length (buf p))%nat then
        if decide (pos = 0)%nat then
          match header_callback (file_ p) st with
          | (false, st) => Return false (with_valid false p) st
          | (true, st) => Go (with_state 3 (buf_erase (length crlf_) p)) st
          end
        else
          let p := with_file (entry_header (take pos (buf p)) (file_ p)) p in
          let p := buf_erase (pos + length crlf_) p in
          headers_loop fuel (buf_find crlf_ p) p st
      else Return true p st
  end.

(** The second half of state 3. *)
Definition body_boundary (p : t) (st : R) : round :=
  let pattern := crlf_ ++ dash_ ++ boundary_ p in
  if decide (length (buf p) < length pattern)%nat then Return true p st
  else
    let pos := buf_find pattern p in
    if decide (pos < length (buf p))%nat then
      match content_callback (take pos (buf p)) st with
      | (false, st) => Return false (with_valid false p) st
      | (true, st) => Go (with_state 4 (buf_erase (pos + length pattern) p)) st
      end
    else
      match content_callback (take (length pattern) (buf p)) st with
      | (false, st) => Return false (with_valid false p) st
      | (true, st) => Go (buf_erase (length pattern) p) st
      end.

Definition step (p : t) (st : R) : round :=
  match state_ p with
  | 0%nat =>
      let pattern := dash_ ++ boundary_ p ++ crlf_ in
      let p := buf_erase (buf_find pattern p) p in
      if decide (length (buf p) < length pattern)%nat then Return true p st
      else if negb (buf_start_with pattern p) then Return false p st
      else Go (with_state 1 (buf_erase (length pattern) p)) st
  | 1%nat => Go (with_state 2 (with_file (clear_file_info (file_ p)) p)) st
  | 2%nat =>
      let pos := buf_find crlf_ p in
      if decide (Content.CPPHTTPLIB_HEADER_MAX_LENGTH < pos)%nat then Return false p st
      else headers_loop (S (length (buf p))) pos p st
  | 3%nat =>
      let pattern := crlf_ ++ dash_ in
      if decide (length (buf p) < length pattern)%nat then Return true p st
      else
        let pos := buf_find pattern p in
        match content_callback (take pos (buf p)) st with
        | (false, st) => Return false (with_valid false p) st
        | (true, st) => body_boundary (buf_erase pos p) st
        end
  | 4%nat =>
      if decide (length (buf p) < length crlf_)%nat then Return true p st
      else if buf_start_with crlf_ p then Go (with_state 1 (buf_erase (length crlf_) p)) st
      else
        let pattern := dash_ ++ crlf_ in
        if decide (length (buf p) < length pattern)%nat then Return true p st
        else if buf_start_with pattern p then Go (with_valid true (with_buf [] p)) st
        else Return true p st
  | _ => Go p st
  end.

Fixpoint parse_loop (fuel : nat) (p : t) (st : R) : bool * t * R :=
  match buf p, fuel with
  | [], _ => (true, p, st)
  | _, O => (false, p, st)
  | _, S fuel =>
      match step p st with
      | Return ret p st => (ret, p, st)
      | Go p st => parse_loop fuel p st
      end
  end.

(** Only the round of state 1 removes no byte, and state 2 follows it. *)
Definition parse (data : bytes) (p : t) (st : R) : bool * t * R :=
  let p := buf_append data p in parse_loop (S (2 * length (buf p))) p st.

End parse.
End Multipart.
