(* ===== verification/HttpServer.v ===== *)
(** * cpp-httplib: the server ([class Server] of [thirdpart/include/http/httplib.h])

    From the bytes of a connection to the bytes of its answers: the request line, the
    content, the routes, the files, the ranges, and the writing of the response.

    Handlers are functions; a handler can leave with an exception, with what it has
    written to the response until then.  The file system ([Files.t]), the random boundary of a
    response with several ranges and the address of the client are arguments.
    Content readers, content providers, compression, TLS and the logger are not
    modelled. *)

From S2P Require Import Prelude StdString Dtoa Json Regex HttpText HttpMessage HttpStream HttpMultipart.
From Stdlib Require Import Strings.Byte.

Open Scope Z_scope.

Module Server.
Import Detail.

(** ** The server *)

(** A [std::exception] with its text, or something else. *)
Inductive thrown := Exception (what : bytes) | Unknown.

Definition Handler : Type := Request.t → Response.t → Response.t * option thrown.
(** Handled or not, or an exception. *)
Definition HandlerWithResponse : Type := Request.t → Response.t → Response.t * (bool + thrown).
Definition ExceptionHandler : Type := Request.t → Response.t → bytes → Response.t.
Definition Expect100ContinueHandler : Type := Request.t → Response.t → Response.t * Z.

Definition Handlers : Type := list (Regex.t * Handler).

Record MountPointEntry := MkMount { mount_point : bytes; base_dir : bytes; mount_headers : Headers.t }.

Record Routes := MkRoutes {
  get_handlers_ : Handlers;
  post_handlers_ : Handlers;
  put_handlers_ : Handlers;
  patch_handlers_ : Handlers;
  delete_handlers_ : Handlers;
  options_handlers_ : Handlers;
}.

Record Hooks := MkHooks {
  file_request_handler_ : option Handler;
  error_handler_ : option HandlerWithResponse;
  exception_handler_ : option ExceptionHandler;
  pre_routing_handler_ : option HandlerWithResponse;
  post_routing_handler_ : option Handler;
  expect_100_continue_handler_ : option Expect100ContinueHandler;
}.

Record t := Make {
  keep_alive_max_count_ : nat;
  keep_alive_timeout_sec_ : Z;
  payload_max_length_ : Z;
  base_dirs_ : list MountPointEntry;
  file_extension_and_mimetype_map_ : list (bytes * bytes);
  default_headers_ : Headers.t;
  routes : Routes;
  hooks : Hooks;
}.

Definition make : t :=
  Make 5 5 (2 ^ 64 - 1) [] [] [] (MkRoutes [] [] [] [] [] []) (MkHooks None None None None None None).

Definition with_routes (r : Routes) (s : t) : t :=
  Make (keep_alive_max_count_ s) (keep_alive_timeout_sec_ s) (payload_max_length_ s) (base_dirs_ s)
    (file_extension_and_mimetype_map_ s) (default_headers_ s) r (hooks s).
Definition with_base_dirs (d : list MountPointEntry) (s : t) : t :=
  Make (keep_alive_max_count_ s) (keep_alive_timeout_sec_ s) (payload_max_length_ s) d
    (file_extension_and_mimetype_map_ s) (default_headers_ s) (routes s) (hooks s).

Definition Get (pattern : Regex.t) (h : Handler) (s : t) : t :=
  let r := routes s in
  with_routes (MkRoutes (get_handlers_ r ++ [(pattern, h)]) (post_handlers_ r) (put_handlers_ r)
                 (patch_handlers_ r) (delete_handlers_ r) (options_handlers_ r)) s.
Definition Post (pattern : Regex.t) (h : Handler) (s : t) : t :=
  let r := routes s in
  with_routes (MkRoutes (get_handlers_ r) (post_handlers_ r ++ [(pattern, h)]) (put_handlers_ r)
                 (patch_handlers_ r) (delete_handlers_ r) (options_handlers_ r)) s.

Definition Put (pattern : Regex.t) (h : Handler) (s : t) : t :=
  let r := routes s in
  with_routes (MkRoutes (get_handlers_ r) (post_handlers_ r) (put_handlers_ r ++ [(pattern, h)])
                 (patch_handlers_ r) (delete_handlers_ r) (options_handlers_ r)) s.
Definition Patch (pattern : Regex.t) (h : Handler) (s : t) : t :=
  let r := routes s in
  with_routes (MkRoutes (get_handlers_ r) (post_handlers_ r) (put_handlers_ r)
                 (patch_handlers_ r ++ [(pattern, h)]) (delete_handlers_ r) (options_handlers_ r)) s.
Definition Delete (pattern : Regex.t) (h : Handler) (s : t) : t :=
  let r := routes s in
  with_routes (MkRoutes (get_handlers_ r) (post_handlers_ r) (put_handlers_ r)
                 (patch_handlers_ r) (delete_handlers_ r ++ [(pattern, h)]) (options_handlers_ r)) s.
Definition Options (pattern : Regex.t) (h : Handler) (s : t) : t :=
  let r := routes s in
  with_routes (MkRoutes (get_handlers_ r) (post_handlers_ r) (put_handlers_ r)
                 (patch_handlers_ r) (delete_handlers_ r) (options_handlers_ r ++ [(pattern, h)])) s.

Definition with_hooks (k : Hooks) (s : t) : t :=
  Make (keep_alive_max_count_ s) (keep_alive_timeout_sec_ s) (payload_max_length_ s) (base_dirs_ s)
    (file_extension_and_mimetype_map_ s) (default_headers_ s) (routes s) k.

Definition set_file_request_handler (h : Handler) (s : t) : t :=
  let k := hooks s in
  with_hooks (MkHooks (Some h) (error_handler_ k) (exception_handler_ k) (pre_routing_handler_ k)
                (post_routing_handler_ k) (expect_100_continue_handler_ k)) s.
Definition set_error_handler (h : HandlerWithResponse) (s : t) : t :=
  let k := hooks s in
  with_hooks (MkHooks (file_request_handler_ k) (Some h) (exception_handler_ k) (pre_routing_handler_ k)
                (post_routing_handler_ k) (expect_100_continue_handler_ k)) s.
(** The overload for a handler without a result: what it did counts as handled. *)
Definition set_error_handler_plain (h : Handler) (s : t) : t :=
  set_error_handler (λ req res, match h req res with
                                | (res, None) => (res, inl true)
                                | (res, Some e) => (res, inr e)
                                end) s.
Definition set_exception_handler (h : ExceptionHandler) (s : t) : t :=
  let k := hooks s in
  with_hooks (MkHooks (file_request_handler_ k) (error_handler_ k) (Some h) (pre_routing_handler_ k)
                (post_routing_handler_ k) (expect_100_continue_handler_ k)) s.
Definition set_pre_routing_handler (h : HandlerWithResponse) (s : t) : t :=
  let k := hooks s in
  with_hooks (MkHooks (file_request_handler_ k) (error_handler_ k) (exception_handler_ k) (Some h)
                (post_routing_handler_ k) (expect_100_continue_handler_ k)) s.
Definition set_post_routing_handler (h : Handler) (s : t) : t :=
  let k := hooks s in
  with_hooks (MkHooks (file_request_handler_ k) (error_handler_ k) (exception_handler_ k) (pre_routing_handler_ k)
                (Some h) (expect_100_continue_handler_ k)) s.
Definition set_expect_100_continue_handler (h : Expect100ContinueHandler) (s : t) : t :=
  let k := hooks s in
  with_hooks (MkHooks (file_request_handler_ k) (error_handler_ k) (exception_handler_ k) (pre_routing_handler_ k)
                (post_routing_handler_ k) (Some h)) s.

Definition set_default_headers (h : Headers.t) (s : t) : t :=
  Make (keep_alive_max_count_ s) (keep_alive_timeout_sec_ s) (payload_max_length_ s) (base_dirs_ s)
    (file_extension_and_mimetype_map_ s) h (routes s) (hooks s).
Definition set_keep_alive_max_count (n : nat) (s : t) : t :=
  Make n (keep_alive_timeout_sec_ s) (payload_max_length_ s) (base_dirs_ s)
    (file_extension_and_mimetype_map_ s) (default_headers_ s) (routes s) (hooks s).
Definition set_keep_alive_timeout (sec : Z) (s : t) : t :=
  Make (keep_alive_max_count_ s) sec (payload_max_length_ s) (base_dirs_ s)
    (file_extension_and_mimetype_map_ s) (default_headers_ s) (routes s) (hooks s).
Definition set_payload_max_length (n : Z) (s : t) : t :=
  Make (keep_alive_max_count_ s) (keep_alive_timeout_sec_ s) n (base_dirs_ s)
    (file_extension_and_mimetype_map_ s) (default_headers_ s) (routes s) (hooks s).

Definition set_mount_point (fs : Files.t) (mount dir : bytes) (headers : Headers.t) (s : t) : bool * t :=
  if Files.is_dir fs dir then
    let mnt := match mount with [] => str "/" | _ => mount end in
    if decide (mnt !! 0%nat = Some "/"%byte)
    then (true, with_base_dirs (base_dirs_ s ++ [MkMount mnt dir headers]) s) else (false, s)
  else (false, s).

Fixpoint remove_entry (mount : bytes) (l : list MountPointEntry) : option (list MountPointEntry) :=
  match l with
  | [] => None
  | e :: l => if decide (mount_point e = mount) then Some l else cons e <$> remove_entry mount l
  end.
Definition remove_mount_point (mount : bytes) (s : t) : bool * t :=
  match remove_entry mount (base_dirs_ s) with
  | Some l => (true, with_base_dirs l s)
  | None => (false, s)
  end.

(** ** The request line *)

Definition methods : list string :=
  ["GET"; "HEAD"; "POST"; "PUT"; "DELETE"; "CONNECT"; "OPTIONS"; "TRACE"; "PATCH"; "PRI"]%string.

(** [s.erase(i)] at the first [#]. *)
Definition skip_fragment (target : bytes) : bytes :=
  match index_of "#"%byte target with Some i => take i target | None => target end.

(** [s] is a C string.  A line that is refused has still set members of the
    request. *)
Definition parse_request_line (s : bytes) (req : Request.t) : bool * Request.t :=
  let len := length s in
  if negb (bool_decide (2 ≤ len)%nat && bool_decide (drop (len - 2) s = [x0d; x0a])) then (false, req)
  else
    let words := split (take (len - 2) s) " "%byte in
    let method := default (Request.method req) (words !! 0%nat) in
    let target := default (Request.target req) (words !! 1%nat) in
    let version := default (Request.version req) (words !! 2%nat) in
    let req := Request.with_line method version target (Request.path req) (Request.params req) req in
    if decide (length words ≠ 3)%nat then (false, req)
    else if bool_decide (method ∉ str <$> methods) then (false, req)
    else if bool_decide (version ≠ str "HTTP/1.1" ∧ version ≠ str "HTTP/1.0") then (false, req)
    else
      let target := skip_fragment target in
      let parts := split target "?"%byte in
      let path := match parts with p :: _ => decode_url p false | [] => Request.path req end in
      let params := match parts with _ :: q :: _ => parse_query_text q (Request.params req)
                                   | _ => Request.params req end in
      let req := Request.with_line method version target path params req in
      (bool_decide (length parts ≤ 2)%nat, req).

(** ** The content of a request *)

(** [req.body] or [req.files] with the entry being filled, and the limit of the
    length of a string. *)
Definition receiving : Type := Request.t * nat.

Section environment.
Context (max_size : Z) (fs : Files.t).

Definition body_receiver (buf : bytes) (st : receiving) : bool * receiving :=
  let '(req, cur) := st in
  if max_size <? Z.of_nat (length (Request.body req) + length buf) then (false, st)
  else (true, (Request.with_body (Request.body req ++ buf) req, cur)).

Definition multipart_header (file : MultipartFormData) (st : receiving) : bool * receiving :=
  let '(req, _) := st in
  let name := form_name file in
  (true, (Request.with_files (emplace key_lt name file (Request.files req)) req,
          upper_bound key_lt name (Request.files req))).

(** The entry exists: content comes after a header. *)
Definition multipart_receiver (buf : bytes) (st : receiving) : bool * receiving :=
  let '(req, cur) := st in
  match Request.files req !! cur with
  | Some (k, f) =>
      if max_size <? Z.of_nat (length (form_content f) + length buf) then (false, st)
      else (true, (Request.with_files
                     (<[cur := (k, MkForm (form_name f) (form_content f ++ buf) (form_filename f)
                                      (form_content_type f))]> (Request.files req)) req, cur))
  | None => (true, st)
  end.

(** The status when it failed, the request and the stream. *)
Definition read_content_core (srv : t) (req : Request.t) (strm : SocketStream.t) :
    option Z * Request.t * SocketStream.t :=
  let no_content := bool_decide (Request.method req = str "DELETE") &&
                    negb (Request.has_header "Content-Length" req) in
  let read {R} (out : bytes → R → bool * R) (st : R) :=
    Content.read_content out (Request.headers req) (payload_max_length_ srv) st strm in
  if Request.is_multipart_form_data req then
    match Multipart.parse_multipart_boundary (Request.get_header_value "Content-Type" req) with
    | None => (Some 400, req, strm)
    | Some boundary =>
        if no_content then (None, req, strm)
        else
          let out data '(p, st) :=
            let '(ret, p, st) := Multipart.parse multipart_header multipart_receiver data p st in (ret, (p, st)) in
          match read out (Multipart.make boundary, (req, 0%nat)) with
          | (Some status, (_, (req, _)), strm) => (Some status, req, strm)
          | (None, (p, (req, _)), strm) =>
              (if Multipart.is_valid_ p then None else Some 400, req, strm)
          end
    end
  else if no_content then (None, req, strm)
  else let '(status, (req, _), strm) := read body_receiver (req, 0%nat) in (status, req, strm).

Definition CPPHTTPLIB_FORM_URL_ENCODED_PAYLOAD_MAX_LENGTH : nat := Z.to_nat 8192.

Definition read_content (srv : t) (req : Request.t) (strm : SocketStream.t) :
    option Z * Request.t * SocketStream.t :=
  match read_content_core srv req strm with
  | (Some status, req, strm) => (Some status, req, strm)
  | (None, req, strm) =>
      if decide (str "application/x-www-form-urlencoded" `prefix_of` Request.get_header_value "Content-Type" req)
      then if decide (CPPHTTPLIB_FORM_URL_ENCODED_PAYLOAD_MAX_LENGTH < length (Request.body req))%nat
           then (Some 413, req, strm)
           else (None, Request.with_params (parse_query_text (Request.body req) (Request.params req)) req, strm)
      else (None, req, strm)
  end.

(** ** Routing *)

Definition expect_content (req : Request.t) : bool :=
  bool_decide (Request.method req ∈ str <$> ["POST"; "PUT"; "PATCH"; "PRI"; "DELETE"]%string).

(** The first handler whose pattern matches the path. *)
Fixpoint dispatch_request (req : Request.t) (res : Response.t) (handlers : Handlers) :
    Request.t * Response.t * (bool + thrown) :=
  match handlers with
  | [] => (req, res, inl false)
  | (pattern, handler) :: handlers =>
      match Regex.regex_match pattern (Request.path req) with
      | Some m =>
          let req := Request.with_matches
                       (Request.path req :: ((λ n, Regex.group n m) <$> List.seq 1 (Regex.groups pattern))) req in
          match handler req res with
          | (res, None) => (req, res, inl true)
          | (res, Some e) => (req, res, inr e)
          end
      | None => dispatch_request req res handlers
      end
  end.

(** The file of an entry, unless it is not of the mount point, the path is refused or
    there is no such file. *)
Definition mounted_file (entry : MountPointEntry) (path : bytes) : outcome (option bytes) :=
  if decide (mount_point entry `prefix_of` path) then
    let sub_path := str "/" ++ drop (length (mount_point entry)) path in
    valid ← is_valid_path sub_path;
    if valid : bool then
      let path := base_dir entry ++ sub_path in
      let path := if decide (last path = Some "/"%byte) then path ++ str "index.html" else path in
      Val (if Files.is_file fs path then Some path else None)
    else Val None
  else Val None.

(** The answer with a file that was read. *)
Definition serve_data (srv : t) (entry : MountPointEntry) (path data : bytes) (req : Request.t) (head : bool)
    (res : Response.t) : Response.t * (bool + thrown) :=
  let res := Response.with_body data res in
  let res := match find_content_type path (file_extension_and_mimetype_map_ srv) with
             | Some type => Response.set_header "Content-Type" type res
             | None => res
             end in
  let res := Response.with_headers
               (foldl (λ h kv, Headers.set_header (c_str kv.1) kv.2 h) (Response.headers res) (mount_headers entry)) res in
  let res := Response.with_status (if Request.has_header "Range" req then 206 else 200) res in
  match file_request_handler_ (hooks srv) with
  | Some handler =>
      if head then (res, inl true)
      else match handler req res with
           | (res, None) => (res, inl true)
           | (res, Some e) => (res, inr e)
           end
  | None => (res, inl true)
  end.

Definition serve_file (srv : t) (entry : MountPointEntry) (path : bytes) (req : Request.t) (head : bool)
    (res : Response.t) : Response.t * (bool + thrown) :=
  match Files.read_file max_size fs path with
  | Some data => serve_data srv entry path data req head res
  | None => (res, inr (Exception (Files.resize_error fs)))
  end.

Fixpoint handle_file_request (srv : t) (entries : list MountPointEntry) (req : Request.t) (head : bool)
    (res : Response.t) : outcome (Response.t * (bool + thrown)) :=
  match entries with
  | [] => Val (res, inl false)
  | entry :: entries =>
      file ← mounted_file entry (Request.path req);
      match file with
      | Some path => Val (serve_file srv entry path req head res)
      | None => handle_file_request srv entries req head res
      end
  end.

(** The regular handlers of a method. *)
Definition regular_handler (srv : t) (req : Request.t) (res : Response.t) :
    Request.t * Response.t * (bool + thrown) :=
  let r := routes srv in
  let method_is m := bool_decide (Request.method req = str m) in
  if method_is "GET" || method_is "HEAD" then dispatch_request req res (get_handlers_ r)
  else if method_is "POST" then dispatch_request req res (post_handlers_ r)
  else if method_is "PUT" then dispatch_request req res (put_handlers_ r)
  else if method_is "DELETE" then dispatch_request req res (delete_handlers_ r)
  else if method_is "OPTIONS" then dispatch_request req res (options_handlers_ r)
  else if method_is "PATCH" then dispatch_request req res (patch_handlers_ r)
  else (req, Response.with_status 400 res, inl false).

Definition routed_state : Type := Request.t * Response.t * (bool + thrown) * SocketStream.t.

(** After the file handler. *)
Definition route_content (srv : t) (req : Request.t) (res : Response.t) (strm : SocketStream.t) : routed_state :=
  let regular req strm :=
    let '(req, res, routed) := regular_handler srv req res in (req, res, routed, strm) in
  if expect_content req then
    match read_content srv req strm with
    | (Some status, req, strm) => (req, Response.with_status status res, inl false, strm)
    | (None, req, strm) => regular req strm
    end
  else regular req strm.

Definition route_files (srv : t) (req : Request.t) (res : Response.t) (strm : SocketStream.t) :
    outcome routed_state :=
  let is_head_request := bool_decide (Request.method req = str "HEAD") in
  if bool_decide (Request.method req = str "GET") || is_head_request then
    file ← handle_file_request srv (base_dirs_ srv) req is_head_request res;
    match file with
    | (res, inl false) => Val (route_content srv req res strm)
    | (res, routed) => Val (req, res, routed, strm)
    end
  else Val (route_content srv req res strm).

Definition routing (srv : t) (req : Request.t) (res : Response.t) (strm : SocketStream.t) :
    outcome routed_state :=
  match pre_routing_handler_ (hooks srv) with
  | Some handler =>
      match handler req res with
      | (res, inl false) => route_files srv req res strm
      | (res, routed) => Val (req, res, routed, strm)
      end
  | None => route_files srv req res strm
  end.

(** ** The response *)

(** [res.headers.erase(it)] for the first entry of a key. *)
Definition erase_first (key : bytes) (h : Headers.t) : Headers.t :=
  let i := lower_bound Headers.ci key h in take i h ++ drop (S i) h.

Section response.
Context (boundary : bytes).

(** The headers of a response with several ranges; the content type of the data. *)
Definition multipart_ranges_type (res : Response.t) : Response.t * bytes :=
  let key := str "Content-Type" in
  let '(content_type, h) := match mfind Headers.ci key (Response.headers res) with
                            | Some type => (type, erase_first key (Response.headers res))
                            | None => ([], Response.headers res)
                            end in
  (Response.with_headers (emplace Headers.ci key (str "multipart/byteranges; boundary=" ++ boundary) h) res,
   content_type).

Definition not_satisfiable (res : Response.t) : Response.t := Response.with_status 416 (Response.with_body [] res).

(** One range. *)
Definition apply_range (r : range) (res : Response.t) : Response.t :=
  let body := Response.body res in
  let size := Z.of_nat (length body) in
  let '(offset, length) := Ranges.get_range_offset_and_length r size in
  let res := Response.set_header "Content-Range" (Ranges.make_content_range_header_field offset length size) res in
  if offset <? size then Response.with_body (Ranges.slice body offset length) res else not_satisfiable res.

Definition set_content_length (res : Response.t) : Response.t :=
  Response.set_header "Content-Length" (Ranges.to_string (Z.of_nat (length (Response.body res)))) res.

(** Nothing but the content type changes when there is no body. *)
Definition apply_ranges (req : Request.t) (res : Response.t) : Response.t :=
  let '(res, content_type) :=
    match Request.ranges req with _ :: _ :: _ => multipart_ranges_type res | _ => (res, []) end in
  match Response.body res with
  | [] => res
  | body =>
      set_content_length
        match Request.ranges req with
        | [] => res
        | [r] => apply_range r res
        | _ =>
            match Ranges.make_multipart_ranges_data req body boundary content_type with
            | Some data => Response.with_body data res
            | None => not_satisfiable res
            end
        end
  end.

(** The headers every response gets. *)
Definition additional_headers (srv : t) (close_connection : bool) (req : Request.t) (res : Response.t) : Response.t :=
  let res :=
    if close_connection || bool_decide (Request.get_header_value "Connection" req = str "close")
    then Response.set_header "Connection" (str "close") res
    else Response.set_header "Keep-Alive"
           (str "timeout=" ++ Ranges.to_string (keep_alive_timeout_sec_ srv) ++
            str ", max=" ++ Ranges.to_string (Z.of_nat (keep_alive_max_count_ srv))) res in
  let res :=
    if negb (Response.has_header "Content-Type" res) && bool_decide (Response.body res ≠ [])
    then Response.set_header "Content-Type" (str "text/plain") res else res in
  let res :=
    if negb (Response.has_header "Content-Length" res) && bool_decide (Response.body res = [])
    then Response.set_header "Content-Length" (str "0") res else res in
  if negb (Response.has_header "Accept-Ranges" res) && bool_decide (Request.method req = str "HEAD")
  then Response.set_header "Accept-Ranges" (str "bytes") res else res.

Definition crlf : bytes := [x0d; x0a].

Definition status_line (status : Z) : bytes :=
  str "HTTP/1.1 " ++ Ranges.to_string status ++ str " " ++ str (status_message status) ++ crlf.
Definition write_headers (h : Headers.t) : bytes :=
  concat ((λ x, c_str x.1 ++ str ": " ++ c_str x.2 ++ crlf) <$> h) ++ crlf.

(** The error handler, which can take over an error. *)
Definition handle_error (srv : t) (req : Request.t) (res : Response.t) : outcome (bool * Response.t) :=
  if 400 <=? Response.status res then
    match error_handler_ (hooks srv) with
    | Some handler =>
        match handler req res with
        | (res, inl handled) => Val (handled, res)
        | (_, inr _) => Throw "error_handler"
        end
    | None => Val (false, res)
    end
  else Val (false, res).

(** The response as it is written: after the handlers and the additional headers. *)
Definition prepare_response (srv : t) (close_connection : bool) (req : Request.t) (res : Response.t)
    (need_apply_ranges : bool) : outcome Response.t :=
  JSON_ASSERT (bool_decide (Response.status res ≠ -1));;
  '(handled, res) ← handle_error srv req res;
  let res := if handled || need_apply_ranges then apply_ranges req res else res in
  let res := additional_headers srv close_connection req res in
  match post_routing_handler_ (hooks srv) with
  | Some handler =>
      match handler req res with
      | (res, None) => Val res
      | (_, Some _) => Throw "post_routing_handler"
      end
  | None => Val res
  end.

(** Whether writing the head succeeded is not looked at. *)
Definition write_response_core (srv : t) (strm : SocketStream.t) (close_connection : bool) (req : Request.t)
    (res : Response.t) (need_apply_ranges : bool) : outcome (bool * SocketStream.t) :=
  res ← prepare_response srv close_connection req res need_apply_ranges;
  let '(_, strm) :=
    SocketStream.write_data (status_line (Response.status res) ++ write_headers (Response.headers res)) strm in
  Val (if bool_decide (Request.method req ≠ str "HEAD") && bool_decide (Response.body res ≠ [])
       then SocketStream.write_data (Response.body res) strm else (true, strm)).

(** ** A request *)

(** [default_headers_], the first of each key. *)
Definition start_response (srv : t) : Response.t :=
  let add h (x : bytes * bytes) :=
    if Headers.has_header h x.1 then h else emplace Headers.ci x.1 x.2 h in
  Response.Make (str "HTTP/1.1") (-1) (foldl add [] (default_headers_ srv)) [] [].

Definition CPPHTTPLIB_REQUEST_URI_MAX_LENGTH : nat := Z.to_nat 8192.

Definition wants_close (req : Request.t) : bool :=
  let connection := Request.get_header_value "Connection" req in
  bool_decide (connection = str "close") ||
  (bool_decide (Request.version req = str "HTTP/1.0") && bool_decide (connection ≠ str "Keep-Alive")).

(** [remote]: what [getpeername] says of the client. *)
Definition set_remote (remote : bytes * Z) (req : Request.t) : Request.t :=
  let req := Request.with_remote remote.1 remote.2 req in
  Request.set_header "REMOTE_PORT" (Ranges.to_string remote.2)
    (Request.set_header "REMOTE_ADDR" remote.1 req).

(** The answer to [Expect: 100-continue]; [None] when the request is answered without
    being routed. *)
Definition expect_continue (srv : t) (req : Request.t) (res : Response.t) (strm : SocketStream.t) :
    option SocketStream.t * Response.t :=
  if decide (Request.get_header_value "Expect" req = str "100-continue") then
    let '(res, status) := match expect_100_continue_handler_ (hooks srv) with
                          | Some handler => handler req res
                          | None => (res, 100)
                          end in
    if decide (status = 100 ∨ status = 417) then
      (Some (SocketStream.write (status_line status ++ crlf) strm).2, res)
    else (None, res)
  else (Some strm, res).

(** The end of [process_request]: an exception of a handler, and the response. *)
Definition answer (srv : t) (close_connection : bool) (st : routed_state) : outcome (bool * SocketStream.t) :=
  let '(req, res, routed, strm) := st in
  let '(routed, res) :=
    match routed with
    | inl routed => (routed, res)
    | inr (Exception what) =>
        match exception_handler_ (hooks srv) with
        | Some handler => (true, handler req res what)
        | None => (false, Response.set_header "EXCEPTION_WHAT" (c_str what) (Response.with_status 500 res))
        end
    | inr Unknown => (false, Response.set_header "EXCEPTION_WHAT" (str "UNKNOWN") (Response.with_status 500 res))
    end in
  let status := Response.status res in
  if routed then
    let res := if decide (status = -1)
               then Response.with_status (if decide (Request.ranges req = []) then 200 else 206) res else res in
    write_response_core srv strm close_connection req res true
  else
    let res := if decide (status = -1) then Response.with_status 404 res else res in
    write_response_core srv strm close_connection req res false.

(** Whether the response was written and whether the connection is to be closed. *)
Definition processed : Type := bool * bool * SocketStream.t.

Section process.
Context (remote : bytes * Z) (srv : t) (close_connection : bool).

Definition refuse (closed : bool) (req : Request.t) (res : Response.t) (status : Z) (strm : SocketStream.t) :
    outcome processed :=
  '(ret, strm) ← write_response_core srv strm close_connection req (Response.with_status status res) false;
  Val (ret, closed, strm).

(** From the ranges on. *)
Definition process_routed (closed : bool) (req : Request.t) (res : Response.t) (strm : SocketStream.t) :
    outcome processed :=
  match expect_continue srv req res strm with
  | (None, res) =>
      '(ret, strm) ← write_response_core srv strm close_connection req res false;
      Val (ret, closed, strm)
  | (Some strm, res) =>
      st ← routing srv req res strm;
      '(ret, strm) ← answer srv close_connection st;
      Val (ret, closed, strm)
  end.

(** After the request line and the headers. *)
Definition process_headers (req : Request.t) (res : Response.t) (strm : SocketStream.t) : outcome processed :=
  let closed := wants_close req in
  let req := set_remote remote req in
  if Request.has_header "Range" req then
    let '(valid, ranges) :=
      Ranges.parse_range_header (Request.get_header_value "Range" req) (Request.ranges req) in
    let req := Request.with_ranges ranges req in
    if valid : bool then process_routed closed req res strm else refuse closed req res 416 strm
  else process_routed closed req res strm.

Definition process_request (strm : SocketStream.t) : outcome processed :=
  match LineReader.getline 2048 strm with
  | (false, _, strm) => Val (false, false, strm)
  | (true, l, strm) =>
      let line := LineReader.line l in
      let req := Request.empty in
      let res := start_response srv in
      if Socket.FD_SETSIZE <=? Socket.fd (SocketStream.sock_ strm) then
        let '(_, _, strm) := Content.read_headers [] strm in refuse false req res 500 strm
      else if decide (CPPHTTPLIB_REQUEST_URI_MAX_LENGTH < length line)%nat then
        let '(_, _, strm) := Content.read_headers [] strm in refuse false req res 414 strm
      else
        let '(valid, req) := parse_request_line (c_str line) req in
        if valid : bool then
          let '(valid, headers, strm) := Content.read_headers (Request.headers req) strm in
          let req := Request.with_headers headers req in
          if valid : bool then process_headers req res strm else refuse false req res 400 strm
        else refuse false req res 400 strm
  end.

End process.

(** ** A connection *)

(** [running count]: whether the server socket is open when [count] requests are
    left.  Each request has a stream, and a buffer, of its own. *)
Fixpoint process_server_socket_core (running : nat → bool) (remote : bytes * Z) (srv : t) (count : nat)
    (ret : bool) (sock : Socket.t) : outcome (bool * Socket.t) :=
  match count with
  | O => Val (ret, sock)
  | S n =>
      if running count then
        match Socket.select_read sock with
        | (false, sock) => Val (ret, sock)
        | (true, sock) =>
            '(ret, connection_closed, strm) ←
              process_request remote srv (bool_decide (n = 0%nat)) (SocketStream.make sock);
            let sock := SocketStream.sock_ strm in
            if negb ret || connection_closed then Val (ret, sock)
            else process_server_socket_core running remote srv n ret sock
        end
      else Val (ret, sock)
  end.

(** The socket is shut down and closed whatever the result. *)
Definition process_and_close_socket (running : nat → bool) (remote : bytes * Z) (srv : t) (sock : Socket.t) :
    outcome (bool * Socket.t) :=
  JSON_ASSERT (bool_decide (keep_alive_max_count_ srv ≠ 0%nat));;
  process_server_socket_core running remote srv (keep_alive_max_count_ srv) false sock.

End response.
End environment.
End Server.
