(* ===== verification/HttpServerSpec.v ===== *)
(** * What the server answers

    The answer to a request depends on its bytes and not on the segments they come
    in; what a server configured as [HTTPServer] answers; and what becomes of a
    connection. *)

From S2P Require Import Prelude StdString Dtoa Json Regex HttpText HttpTextSpec HttpMessage HttpStream HttpStreamSpec.
From S2P Require Import HttpMultipart HttpServer Http.
From Stdlib Require Import Strings.Byte.

Open Scope Z_scope.

Import Server.

(** ** Outcomes that agree *)

Definition osimilar {A} (x y : outcome (A * SocketStream.t)) : Prop :=
  match x, y with
  | Val a, Val b => similar a b
  | Throw e, Throw e' => e = e'
  | Undefined, Undefined => True
  | _, _ => False
  end.

Lemma osimilar_bind {A B} (x y : outcome (A * SocketStream.t)) (f g : A * SocketStream.t → outcome (B * SocketStream.t)) :
  osimilar x y → (∀ a s1 s2, same s1 s2 → osimilar (f (a, s1)) (g (a, s2))) → osimilar (x ≫= f) (y ≫= g).
Proof.
  intros Hxy Hfg. destruct x as [[a s1]| |], y as [[b s2]| |]; cbn in *; try done.
  destruct Hxy as [E H]. cbn in *. subst. by apply Hfg.
Qed.

Section segmentation.
Context (max_size : Z) (fs : Files.t) (boundary : bytes) (srv : t).

(** ** The parts of a request *)

Lemma body_receiver_takes req n :
  (Z.of_nat (length (Request.body req) + n) ≤ max_size)%Z →
  takes (body_receiver max_size) n (λ q, (Request.with_body (Request.body req ++ q) req, 0%nat)).
Proof.
  intros Hn q x Hq. unfold body_receiver. cbn [Request.body Request.with_body].
  rewrite length_app. destruct (Z.ltb_spec max_size (Z.of_nat (length (Request.body req) + length q + length x))); [lia|].
  by rewrite <- app_assoc.
Qed.

Lemma read_content_core_same req s1 s2 :
  same s1 s2 → Request.is_multipart_form_data req = false →
  Z.of_nat (length (Request.body req) + length (pending s1)) ≤ max_size →
  similar (read_content_core max_size srv req s1) (read_content_core max_size srv req s2).
Proof.
  intros H Hm Hn. unfold read_content_core. rewrite Hm. destruct (_ && _); [by split|].
  pose proof (read_content_same _ _ _ (body_receiver_takes req _ Hn) (Request.headers req) (payload_max_length_ srv)
    [] s1 s2 H (le_n _)) as Hs.
  cbv beta in Hs. rewrite app_nil_r in Hs. replace (Request.with_body (Request.body req) req) with req in Hs by (by destruct req).
  destruct (Content.read_content _ _ _ _ s1) as [[st1 [r1 c1]] s1'], (Content.read_content _ _ _ _ s2) as [[st2 [r2 c2]] s2'].
  destruct Hs as [[= -> -> ->] Hs]. by split.
Qed.

Lemma read_content_server_same req s1 s2 :
  same s1 s2 → Request.is_multipart_form_data req = false →
  Z.of_nat (length (Request.body req) + length (pending s1)) ≤ max_size →
  similar (read_content max_size srv req s1) (read_content max_size srv req s2).
Proof.
  intros H Hm Hn. unfold read_content. pose proof (read_content_core_same req s1 s2 H Hm Hn) as Hs.
  destruct (read_content_core _ _ _ s1) as [[st1 r1] s1'], (read_content_core _ _ _ s2) as [[st2 r2] s2'].
  destruct Hs as [[= -> ->] Hs]. destruct st2; [by split|]. repeat case_decide; by split.
Qed.

Lemma route_content_same req res s1 s2 :
  same s1 s2 → Request.is_multipart_form_data req = false →
  Z.of_nat (length (Request.body req) + length (pending s1)) ≤ max_size →
  similar (route_content max_size srv req res s1) (route_content max_size srv req res s2).
Proof.
  intros H Hm Hn. unfold route_content.
  assert (Hreg : ∀ req s1 s2, same s1 s2 →
    similar (let '(req, res, routed) := regular_handler srv req res in (req, res, routed, s1))
            (let '(req, res, routed) := regular_handler srv req res in (req, res, routed, s2))).
  { intros q t1 t2 Ht. by destruct (regular_handler srv q res) as [[]]. }
  destruct (expect_content req); [|by apply Hreg].
  pose proof (read_content_server_same req s1 s2 H Hm Hn) as Hs.
  destruct (read_content _ _ _ s1) as [[st1 r1] s1'], (read_content _ _ _ s2) as [[st2 r2] s2'].
  destruct Hs as [[= -> ->] Hs]. destruct st2; [by split|]. by apply Hreg.
Qed.

Lemma routing_same req res s1 s2 :
  same s1 s2 → Request.is_multipart_form_data req = false →
  Z.of_nat (length (Request.body req) + length (pending s1)) ≤ max_size →
  osimilar (routing max_size fs srv req res s1) (routing max_size fs srv req res s2).
Proof.
  intros H Hm Hn.
  assert (Hf : ∀ res, osimilar (route_files max_size fs srv req res s1)
                               (route_files max_size fs srv req res s2)).
  { intros r. unfold route_files. destruct (_ || _); [|by apply route_content_same].
    destruct (handle_file_request _ _ _ _ _ _ _) as [[r' [[]|]]| |]; cbn; try done.
    by apply route_content_same. }
  unfold routing. destruct (pre_routing_handler_ _) as [p|]; [|apply Hf].
  destruct (p req res) as [r [[]|]]; try by split. apply Hf.
Qed.

(** ** The response *)

Lemma write_response_same close req res need s1 s2 :
  same s1 s2 →
  osimilar (write_response_core boundary srv s1 close req res need) (write_response_core boundary srv s2 close req res need).
Proof.
  intros H. unfold write_response_core. destruct (prepare_response _ _ _ _ _ _) as [r| |]; cbn [mbind outcome_bind]; try done.
  pose proof (write_data_same (status_line (Response.status r) ++ write_headers (Response.headers r)) _ _ H) as [_ Hs].
  destruct (SocketStream.write_data _ s1), (SocketStream.write_data _ s2). cbn [snd osimilar] in *.
  destruct (_ && _); [exact (write_data_same _ _ _ Hs)|by split].
Qed.

Lemma answer_same close st s1 s2 :
  same s1 s2 → osimilar (answer boundary srv close (st, s1)) (answer boundary srv close (st, s2)).
Proof.
  intros H. unfold answer. destruct st as [[req res] routed].
  destruct (match routed with inl _ => _ | _ => _ end) as [r res']. destruct r; by apply write_response_same.
Qed.

Lemma refuse_same close closed req res status s1 s2 :
  same s1 s2 →
  osimilar (refuse boundary srv close closed req res status s1) (refuse boundary srv close closed req res status s2).
Proof.
  intros H. unfold refuse. apply osimilar_bind; [by apply write_response_same|].
  intros a t1 t2 Ht. by split.
Qed.

(** ** A request *)

Lemma expect_continue_same req res s1 s2 :
  same s1 s2 →
  match expect_continue srv req res s1, expect_continue srv req res s2 with
  | (Some t1, r1), (Some t2, r2) => r1 = r2 ∧ same t1 t2
  | (None, r1), (None, r2) => r1 = r2
  | _, _ => False
  end.
Proof.
  intros H. unfold expect_continue. case_decide; [|done]. destruct (match expect_100_continue_handler_ _ with Some _ => _ | None => _ end).
  case_decide; [|done]. split; [done|]. by apply write_same.
Qed.

Lemma process_routed_same close closed req res s1 s2 :
  same s1 s2 → Request.is_multipart_form_data req = false →
  Z.of_nat (length (Request.body req) + length (pending s1)) ≤ max_size →
  osimilar (process_routed max_size fs boundary srv close closed req res s1)
           (process_routed max_size fs boundary srv close closed req res s2).
Proof.
  intros H Hm Hn. unfold process_routed. pose proof (expect_continue_same req res s1 s2 H) as He.
  assert (Hlen : ∀ t1 r, expect_continue srv req res s1 = (Some t1, r) → pending t1 = pending s1).
  { intros t1 r. unfold expect_continue. case_decide; [|by intros [= <- _]].
    destruct (match expect_100_continue_handler_ _ with Some _ => _ | None => _ end).
    case_decide; [|done]. intros [= <- _]. apply pending_write. }
  destruct (expect_continue srv req res s1) as [[t1|] r1], (expect_continue srv req res s2) as [[t2|] r2]; try done.
  - destruct He as [<- Ht]. eapply osimilar_bind; [apply routing_same; [done|done|by rewrite (Hlen _ _ eq_refl)]|].
    intros st u1 u2 Hu. apply osimilar_bind; [by apply answer_same|]. intros a v1 v2 Hv. by split.
  - subst. apply osimilar_bind; [by apply write_response_same|]. intros a v1 v2 Hv. by split.
Qed.

Context (remote : bytes * Z).

Lemma process_headers_same close req res s1 s2 :
  same s1 s2 → Request.is_multipart_form_data (set_remote remote req) = false → Request.body req = [] →
  Z.of_nat (length (pending s1)) ≤ max_size →
  osimilar (process_headers max_size fs boundary remote srv close req res s1)
           (process_headers max_size fs boundary remote srv close req res s2).
Proof.
  intros H Hm Hb Hn. unfold process_headers.
  assert (Hb' : Request.body (set_remote remote req) = []) by done.
  destruct (Request.has_header _ _); [|apply process_routed_same; [done|done|by rewrite Hb']].
  destruct (Ranges.parse_range_header _ _) as [[] rs]; [|by apply refuse_same].
  by apply process_routed_same; [|exact Hm|cbn [Request.body Request.with_ranges]; rewrite Hb'].
Qed.

(** The head of the request at the start of a stream. *)
Definition head_of (s : SocketStream.t) : option Request.t :=
  let '(_, line, s) := text_line s in
  match parse_request_line (c_str line) Request.empty with
  | (true, req) =>
      match Content.read_headers [] s with
      | (true, headers, _) => Some (set_remote remote (Request.with_headers headers req))
      | _ => None
      end
  | _ => None
  end.

Lemma parse_request_line_rest line req :
  Request.headers (parse_request_line line req).2 = Request.headers req ∧
  Request.body (parse_request_line line req).2 = Request.body req ∧
  Request.ranges (parse_request_line line req).2 = Request.ranges req.
Proof. unfold parse_request_line. repeat case_match; done. Qed.

Lemma process_request_same close s1 s2 :
  same s1 s2 → (∀ req, head_of s1 = Some req → Request.is_multipart_form_data req = false) →
  Z.of_nat (length (pending s1)) ≤ max_size →
  osimilar (process_request max_size fs boundary remote srv close s1)
           (process_request max_size fs boundary remote srv close s2).
Proof.
  intros H Hm Hn. unfold process_request. unfold head_of in Hm.
  destruct (getline_cases 2048 s1) as (l1 & t1 & E1 & Hl1 & Ht1), (getline_cases 2048 s2) as (l2 & t2 & E2 & Hl2 & Ht2).
  pose proof (text_line_same _ _ H) as [E Hs]. pose proof (text_line_pending s1) as Hp.
  rewrite E1, E2, Hl1, Hl2, <- E. destruct (text_line s1) as [[ok line] u1]. cbn [fst snd] in *.
  assert (Ht : same t1 t2) by (by rewrite Ht1, Ht2). destruct ok; [|by split]. specialize (Hp eq_refl).
  rewrite <- (same_pending _ _ Ht1) in Hp.
  assert (Hfd : Socket.fd (SocketStream.sock_ t1) = Socket.fd (SocketStream.sock_ t2)).
  { revert Ht. unfold same, flat. by intros [= -> _ _ _ _]. }
  rewrite <- Hfd.
  assert (Hdummy : ∀ status, osimilar
    (let '(_, _, strm) := Content.read_headers [] t1 in refuse boundary srv close false Request.empty (start_response srv) status strm)
    (let '(_, _, strm) := Content.read_headers [] t2 in refuse boundary srv close false Request.empty (start_response srv) status strm)).
  { intros status. pose proof (read_headers_same [] _ _ Ht) as [_ Hh].
    destruct (Content.read_headers [] t1) as [[]], (Content.read_headers [] t2) as [[]]. by apply refuse_same. }
  destruct (_ <=? _)%Z; [apply Hdummy|]. case_decide; [apply Hdummy|].
  pose proof (parse_request_line_rest (c_str line) Request.empty) as (Hh & Hb & _).
  destruct (parse_request_line _ _) as [[] req]; [|by apply refuse_same]. cbn [fst snd Request.headers Request.body Request.empty] in Hh, Hb. rewrite Hh.
  pose proof (read_headers_same [] _ _ Ht) as [Er Hr]. pose proof (read_headers_same [] _ _ Ht1) as [Eu _].
  pose proof (headers_loop_pending (S (SocketStream.avail t1)) [] t1) as Hq. change (Content.headers_loop _ _ _) with (Content.read_headers [] t1) in Hq.
  destruct (Content.read_headers [] t1) as [[b1 h1] v1] eqn:Ev, (Content.read_headers [] t2) as [[b2 h2] v2].
  destruct (Content.read_headers [] u1) as [[b3 h3] v3]. cbn [fst snd] in *.
  injection Er as <- <-. injection Eu as <- <-. destruct b1; [|by apply refuse_same]. apply process_headers_same; [done|by apply Hm|done|].
  specialize (Hq eq_refl). lia.
Qed.
End segmentation.

(** ** Files *)

Lemma mounted_file_spec fs entry path :
  (∀ name, last (names name) = Some (str "..") → Files.regular fs name = false) →
  ∃ f, mounted_file fs entry path = Val f ∧
    match f with
    | Some file => Files.regular fs (c_str file) = true ∧
        ∃ below, resolve [] (c_str file) = resolve [] (c_str (base_dir entry)) ++ below
    | None => True
    end.
Proof.
  intros Hdots. unfold mounted_file. case_decide; [|by eexists]. set (sub := drop _ path).
  rewrite is_valid_path_level. cbn [mbind outcome_bind]. case_bool_decide as Hv; [|by eexists].
  assert (Hv' : is_Some (level_after 0 (names sub))) by (revert Hv; unfold names; cbn; done).
  set (file := if decide _ then _ else _). exists (if Files.is_file fs file then Some file else None).
  split; [done|]. destruct (Files.is_file fs file) eqn:E; [|done]. split; [done|].
  assert (∃ sub', file = base_dir entry ++ x2f :: sub' ∧ is_Some (level_after 0 (names sub'))) as (sub' & Hfile & Hsub').
  { unfold file. change (str "/" ++ sub) with (x2f :: sub). case_decide as Hl; [|by exists sub].
    exists (sub ++ str "index.html"). split; [by rewrite <- app_assoc|].
    apply index_level; [done..|set_solver|]. change (str "/" ++ sub) with (x2f :: sub) in Hl.
    by rewrite last_app_cons in Hl. }
  rewrite Hfile in *. apply c_str_below; [done|]. intros Hd. unfold Files.is_file in E. by rewrite Hdots in E.
Qed.

(** C29. Files: whatever the request, looking for its file gives an answer without an
    assertion failing, and when a file is served, the name given to [stat] and to
    [open], which ends at the first zero of the path, was that of a regular file whose
    place, with [.] and [..] followed from the root, is in or below the base directory
    of one of the mount points; the body is what that file holds, and an exception that
    becomes a 500 is the answer when it cannot be read.  What is asked of the file
    system is that a name that ends in [..] is never a regular file: [..%00] is a good
    name for [is_valid_path], and the parent directory for the system.  Symbolic links
    are the file system's. *)
Theorem served_files_inside max_size fs srv entries req head res :
  (∀ name, last (names name) = Some (str "..") → Files.regular fs name = false) →
  handle_file_request max_size fs srv entries req head res = Val (res, inl false) ∨
  ∃ entry path below,
    entry ∈ entries ∧ mount_point entry `prefix_of` Request.path req ∧ Files.regular fs (c_str path) = true ∧
    resolve [] (c_str path) = resolve [] (c_str (base_dir entry)) ++ below ∧
    handle_file_request max_size fs srv entries req head res = Val (
      match Files.contents fs (c_str path) with
      | Some data =>
          if max_size <? Z.of_nat (length data) then (res, inr (Exception (Files.resize_error fs)))
          else serve_data srv entry path data req head res
      | None => (res, inr (Exception (Files.resize_error fs)))
      end) ∧
    (file_request_handler_ (hooks srv) = None →
     ∀ data, Response.body (serve_data srv entry path data req head res).1 = data).
Proof.
  intros Hdots. induction entries as [|entry entries IH]; [by left|]. cbn [handle_file_request].
  destruct (mounted_file_spec fs entry (Request.path req) Hdots) as ([path|] & E & H).
  - right. destruct H as (Hf & below & Hb). exists entry, path, below. rewrite E. split_and!; [by left| |done|done| |].
    + unfold mounted_file in E. by destruct (decide (mount_point entry `prefix_of` Request.path req)).
    + cbn [mbind outcome_bind]. unfold serve_file, Files.read_file.
      destruct (Files.contents fs (c_str path)) as [data|]; cbn [mbind option_bind]; [|done]. by destruct (_ <? _).
    + intros Hh data. unfold serve_data. rewrite Hh. cbn [fst]. by destruct (Detail.find_content_type _ _).
  - rewrite E. cbn [mbind outcome_bind]. destruct IH as [IH|(e & path & below & He & IH)]; [by left|].
    right. exists e, path, below. split; [by right|done].
Qed.

(** One mount point with two files, in a directory with a secret beside it; the request
    has a zero in the name. *)
Definition sample_mount : MountPointEntry := MkMount (str "/") (str "/srv/www") [].
Definition sample_files : Files.t :=
  Files.Make (λ name, bool_decide (name ∈ [str "/srv/www/a.bin"; str "/srv/secret"]))
    (λ name, bool_decide (name ∈ [str "/srv"; str "/srv/www"]))
    (λ name, if decide (name = str "/srv/www/a.bin") then Some (str "data") else None) [].
Definition sample_get : Request.t := Request.with_line (str "GET") (str "HTTP/1.1") [] (str "/a.bin" ++ x00 :: str ".html") [] Request.empty.

Lemma served_files_inside_witness :
  ∃ path below, Files.regular sample_files (c_str path) = true ∧
    resolve [] (c_str path) = [str "srv"; str "www"] ++ below.
Proof.
  destruct (served_files_inside 1000 sample_files Server.make [sample_mount] sample_get false Response.empty)
    as [H|(entry & path & below & He & _ & Hf & Hb & _)].
  - intros name Hn. unfold sample_files. cbn [Files.regular]. apply bool_decide_eq_false_2. intros Hin.
    rewrite !elem_of_cons in Hin. destruct Hin as [->|[->|Hin]]; [discriminate Hn..|by apply not_elem_of_nil in Hin].
  - exfalso. revert H. vm_compute. discriminate.
  - exists path, below. split; [exact Hf|]. apply list_elem_of_singleton in He as ->. exact Hb.
Defined.
