(* ===== verification/HttpAnswers.v ===== *)
(** * What the server of the program answers

    [HTTPServer] registers one route on the library's server: the answers of a
    server with this route, on a connection. *)

From S2P Require Import Prelude StdString Dtoa Json Regex HttpText HttpTextSpec HttpMessage HttpStream HttpStreamSpec.
From S2P Require Import HttpMultipart HttpServer HttpServerSpec Http.
From Stdlib Require Import Strings.Byte.

Open Scope Z_scope.

Import Server.

(** ** The server of the program *)

Definition handler_of (h : HTTPServer.handler) : Handler :=
  λ req res, let '(content, type) := h (Request.path req) in (Response.set_content content type res, None).

(** What [HTTPServer] asks of the library; the pattern has no special character. *)
Definition install (srv : Server.t) (a : HTTPServer.action) : Server.t :=
  match a with
  | HTTPServer.Get pattern h => Server.Get (Regex.literal Regex.chr pattern) (handler_of h) srv
  | _ => srv
  end.
Definition configured (s : HTTPServer.t) : Server.t := foldl install Server.make (HTTPServer.set_routes s).

(** A pattern of ordinary characters matches itself. *)
Lemma go_literal {A} p s caps (k : bytes → Regex.captures → option A) :
  Regex.go (Regex.literal Regex.chr p) s caps k =
  if decide (p `prefix_of` s) then k (drop (length p) s) caps else None.
Proof.
  revert s. induction p as [|c p IH]; intros s; cbn.
  - rewrite decide_True by apply prefix_nil. by rewrite drop_0.
  - destruct s as [|b s]; [by rewrite decide_False by (intros H; by apply prefix_nil_not in H)|].
    case_bool_decide as Hb.
    + subst. rewrite IH. case_decide as H.
      * by rewrite decide_True by (by apply prefix_cons).
      * rewrite decide_False; [done|]. intros H'. apply H. by eapply prefix_cons_inv_2.
    + rewrite decide_False; [done|]. intros H'. apply Hb. symmetry. by eapply prefix_cons_inv_1.
Qed.

Lemma match_literal p s :
  Regex.regex_match (Regex.literal Regex.chr p) s = if decide (s = p) then Some [] else None.
Proof.
  unfold Regex.regex_match. rewrite go_literal. case_decide as H.
  - destruct H as [r ->]. rewrite drop_app_length. repeat case_decide; try done; exfalso; subst.
    + by rewrite app_nil_r in *.
    + apply (f_equal length) in H0. rewrite length_app in H0. destruct r; [done|]. simpl in H0. lia.
  - by rewrite decide_False by (by intros ->).
Qed.

(** ** The heads of requests *)

Section answers.
Context (max_size : Z) (fs : Files.t) (boundary : bytes).
Context (remote : bytes * Z) (srv : Server.t).

Definition process := process_request max_size fs boundary remote srv.

(** The text of a request without content. *)
Definition request_text (line : bytes) (ls : list bytes) : bytes := line ++ CRLF ++ head_text ls.

(** A request line and header lines that fit the server's limits. *)
Record head (line : bytes) (ls : list bytes) : Prop := {
  head_line : x0a ∉ line ∧ x00 ∉ line ∧ (length line + 2 ≤ CPPHTTPLIB_REQUEST_URI_MAX_LENGTH)%nat;
  head_lines : Forall header_line ls;
}.

(** The headers the lines give. *)
Definition headers_of (ls : list bytes) : Headers.t := foldl enter [] ls.

Lemma fd_consume n s :
  Socket.fd (SocketStream.sock_ (consume n s)) = Socket.fd (SocketStream.sock_ s) ∧
  Socket.answers (SocketStream.sock_ (consume n s)) = Socket.answers (SocketStream.sock_ s) ∧
  Socket.sent (SocketStream.sock_ (consume n s)) = Socket.sent (SocketStream.sock_ s).
Proof.
  revert s. induction n as [|n IH]; intros s; [done|]. rewrite consume_S.
  destruct (IH (SocketStream.read 1 s).2) as (-> & -> & ->).
  unfold SocketStream.read. destruct s as [[fd a an se] [|b r]]; [|done]. cbn [SocketStream.sock_ SocketStream.rest].
  unfold Socket.select_read, Socket.recv, Socket.with_arrivals. cbn [Socket.arrivals Socket.fd].
  destruct (Socket.FD_SETSIZE <=? fd); destruct a as [|[] a]; cbn [negb]; try case_decide; done.
Qed.

(** A request with its head complete: what is done with it, and what is left. *)
Lemma process_head close line ls rest s :
  head line ls → Socket.fd (SocketStream.sock_ s) < Socket.FD_SETSIZE →
  pending s = request_text line ls ++ rest →
  let s' := consume (length (request_text line ls)) s in
  match parse_request_line (line ++ CRLF) Request.empty with
  | (true, req) =>
      process close s = process_headers max_size fs boundary remote srv close
                          (Request.with_headers (headers_of ls) req) (start_response srv) s' ∧
      pending s' = rest
  | (false, req) =>
      process close s = refuse boundary srv close false req (start_response srv) 400
                          (consume (length (line ++ CRLF)) s)
  end.
Proof.
  intros [(Ha & Hz & Hlen) Hls] Hfd Hp s'.
  assert (Hs' : s' = consume (length (head_text ls)) (consume (length (line ++ CRLF)) s)).
  { unfold s', request_text. by rewrite <- consume_add, app_assoc, length_app. }
  clearbody s'. subst s'. unfold process, process_request.
  destruct (getline_line 2048 s (line ++ [x0d]) (head_text ls ++ rest)) as (l & -> & Hl & Hr).
  { rewrite not_elem_of_app, list_elem_of_singleton. done. }
  { rewrite Hp. unfold request_text, CRLF. by rewrite <- !app_assoc. }
  rewrite <- app_assoc in Hl. change ([x0d] ++ [x0a]) with CRLF in Hl. rewrite Hl.
  destruct (fd_consume (S (length (line ++ [x0d]))) s) as (-> & _ & _).
  destruct (Z.leb_spec Socket.FD_SETSIZE (Socket.fd (SocketStream.sock_ s))); [lia|].
  rewrite decide_False by (rewrite length_app; unfold CRLF; simpl; lia).
  rewrite c_str_id by (unfold CRLF; set_solver).
  assert (Hn : S (length (line ++ [x0d])) = length (line ++ CRLF)) by (rewrite !length_app; unfold CRLF; simpl; lia).
  rewrite Hn in *. pose proof (parse_request_line_rest (line ++ CRLF) Request.empty) as [Hh _].
  destruct (parse_request_line (line ++ CRLF) Request.empty) as [[] req]; [|done]. cbn [snd] in Hh. rewrite Hh.
  destruct (read_headers_lines ls [] _ rest Hls Hr) as [E Hr']. cbn [Request.headers Request.empty]. by rewrite E.
Qed.

(** ** Writing a response *)

Lemma wrote_wrote b1 a1 b2 a2 s : wrote b2 a2 (wrote b1 a1 s) = wrote (b1 ++ b2) a2 s.
Proof. unfold wrote. cbn. by rewrite app_assoc. Qed.

Definition response_text (req : Request.t) (res : Response.t) : bytes :=
  status_line (Response.status res) ++ write_headers (Response.headers res) ++
  (if decide (Request.method req = str "HEAD") then [] else Response.body res).

(** When no call of [send] fails, the whole response is written. *)
Lemma write_response_ok s close req res need res' :
  sends s → prepare_response boundary srv close req res need = Val res' →
  ∃ a, Forall is_Some a ∧
    write_response_core boundary srv s close req res need = Val (true, wrote (response_text req res') a s).
Proof.
  intros Hs E. unfold write_response_core. rewrite E. cbn [mbind outcome_bind].
  destruct (write_data_ok (status_line (Response.status res') ++ write_headers (Response.headers res')) s Hs) as (a & Ha & ->).
  unfold response_text. destruct (decide (Request.method req = str "HEAD")) as [Hm|Hm].
  - rewrite bool_decide_false by (intros H; by apply H). exists a. split; [done|]. cbn [andb]. by rewrite app_nil_r.
  - rewrite bool_decide_true by done. cbn [andb]. case_bool_decide as Hb.
    + destruct (write_data_ok (Response.body res') (wrote (status_line (Response.status res') ++
        write_headers (Response.headers res')) a s) Ha) as (a' & Ha' & ->).
      exists a'. split; [done|]. by rewrite wrote_wrote, app_assoc.
    + rewrite Hb. exists a. split; [done|]. by rewrite app_nil_r.
Qed.

(** ** The headers of a request *)

Lemma headers_of_ordered ls : ordered Headers.ci (headers_of ls).
Proof.
  unfold headers_of. assert (H : ordered Headers.ci (@nil (bytes * bytes))) by constructor. revert H.
  generalize (@nil (bytes * bytes)). induction ls as [|l ls IH]; intros h H; [done|]. cbn [foldl]. apply IH.
  unfold enter. destruct (Content.parse_header l) as [[k v]|]; [|done]. by apply (emplace_ordered Headers.ci).
Qed.

(** The headers the server adds do not change what the client's say. *)
Lemma set_remote_other req key :
  ordered Headers.ci (Request.headers req) →
  Detail.equivalent Headers.ci (str key) (str "REMOTE_ADDR") = false →
  Detail.equivalent Headers.ci (str key) (str "REMOTE_PORT") = false →
  Request.get_header_value key (set_remote remote req) = Request.get_header_value key req ∧
  Request.has_header key (set_remote remote req) = Request.has_header key req.
Proof.
  intros Ho Ha Hp. unfold Request.get_header_value, Request.has_header, set_remote, Request.set_header.
  cbn [Request.headers Request.with_headers Request.with_remote].
  destruct (set_header_other _ (str "REMOTE_ADDR") remote.1 (str key) Ho Ha) as (H1 & <- & <-).
  by destruct (set_header_other _ (str "REMOTE_PORT") (Ranges.to_string remote.2) (str key) H1 Hp) as (_ & <- & <-).
Qed.

(** [additional_headers] looks at two things of the request. *)
Definition add_headers (close head : bool) (res : Response.t) : Response.t :=
  additional_headers srv close
    (Request.with_line (str (if head then "HEAD" else "GET")) [] [] [] [] Request.empty) res.

Lemma additional_headers_request close req res :
  additional_headers srv close req res =
  add_headers (close || bool_decide (Request.get_header_value "Connection" req = str "close"))
    (bool_decide (Request.method req = str "HEAD")) res.
Proof.
  unfold add_headers, additional_headers. rewrite orb_false_r.
  replace (bool_decide (Request.method (Request.with_line _ _ _ _ _ _) = str "HEAD"))
    with (bool_decide (Request.method req = str "HEAD")); [done|].
  case_bool_decide; reflexivity.
Qed.

(** ** The answers of a server with the one route *)

Definition hello_path : bytes := str "/hello".

Definition crlf_line (s : string) : bytes := str s ++ CRLF.

(** Headers that depend on whether the connection is closed and on the method. *)
Definition connection_headers (close : bool) : bytes :=
  if close then [] else crlf_line "Keep-Alive: timeout=5, max=5".
Definition front_headers (close head : bool) : bytes :=
  (if head then crlf_line "Accept-Ranges: bytes" else []) ++ (if close then crlf_line "Connection: close" else []).

(** An answer without content. *)
Definition bare_answer (status : Z) (close head : bool) : bytes :=
  status_line status ++ front_headers close head ++ crlf_line "Content-Length: 0" ++ connection_headers close ++ CRLF.

Definition hello_answer (close head : bool) : bytes :=
  crlf_line "HTTP/1.1 200 OK" ++ front_headers close head ++ crlf_line "Content-Length: 13" ++
  crlf_line "Content-Type: text/plain" ++ connection_headers close ++ CRLF ++
  (if head then [] else str "Hello, World!").

Definition expected_answer (req : Request.t) (close : bool) : bytes :=
  let head := bool_decide (Request.method req = str "HEAD") in
  if decide (Request.method req = str "GET" ∨ Request.method req = str "HEAD") then
    if decide (Request.path req = hello_path) then hello_answer close head else bare_answer 404 close head
  else if decide (Request.method req = str "OPTIONS") then bare_answer 404 close head
  else bare_answer 400 close head.

End answers.

Section configured.
Context (max_size : Z) (fs : Files.t) (boundary : bytes).
Context (remote : bytes * Z) (h : HTTPServer.t).

Definition srv : Server.t := configured h.

Lemma prepare_plain close req res need :
  Response.status res ≠ -1 →
  prepare_response boundary srv close req res need =
  Val (add_headers srv (close || bool_decide (Request.get_header_value "Connection" req = str "close"))
         (bool_decide (Request.method req = str "HEAD")) (if need : bool then apply_ranges boundary req res else res)).
Proof.
  intros Hs. unfold prepare_response. rewrite bool_decide_true by done. cbn [JSON_ASSERT mbind outcome_bind].
  assert (E : handle_error srv req res = Val (false, res)) by (unfold handle_error; by destruct (_ <=? _)).
  rewrite E. cbn [mbind outcome_bind orb]. by rewrite additional_headers_request.
Qed.

Lemma bare_text close head status :
  status_line status ++ write_headers (Response.headers (add_headers srv close head
    (Response.with_status status (start_response srv)))) = bare_answer status close head.
Proof. unfold bare_answer. f_equal. by destruct close, head; vm_compute. Qed.

Lemma bare_body close head status :
  Response.body (add_headers srv close head (Response.with_status status (start_response srv))) = [].
Proof. by destruct close, head. Qed.

Lemma bare_status close head status :
  Response.status (add_headers srv close head (Response.with_status status (start_response srv))) = status.
Proof. by destruct close, head. Qed.

(** A response without content is written as such. *)
Lemma write_bare s close req status :
  status ≠ -1 → sends s → ∃ a, Forall is_Some a ∧
    write_response_core boundary srv s close req (Response.with_status status (start_response srv)) false =
    Val (true, wrote (bare_answer status
      (close || bool_decide (Request.get_header_value "Connection" req = str "close"))
      (bool_decide (Request.method req = str "HEAD"))) a s).
Proof.
  intros Hs Hok. destruct (write_response_ok boundary srv s close req _ false _ Hok (prepare_plain close req (Response.with_status status (start_response srv)) false Hs)) as (a & Ha & ->).
  exists a. split; [done|]. rewrite <- bare_text. unfold response_text. cbn [negb].
  rewrite bare_body, bare_status. destruct (decide _); by rewrite app_nil_r.
Qed.

(** The response of the one handler. *)
Definition hello_response : Response.t :=
  Response.with_status 200 (Response.set_content (str "Hello, World!") (str "text/plain") (start_response srv)).

Lemma hello_text close req res :
  Request.ranges req = [] → Response.status res = 200 →
  res = hello_response →
  response_text req (add_headers srv close (bool_decide (Request.method req = str "HEAD")) (apply_ranges boundary req res)) =
  hello_answer close (bool_decide (Request.method req = str "HEAD")).
Proof.
  intros Hr _ ->. unfold apply_ranges. rewrite Hr. unfold response_text.
  case_bool_decide as Hm; [rewrite decide_True by done|rewrite decide_False by done]; by destruct close; vm_compute.
Qed.

Lemma write_hello s close req :
  Request.ranges req = [] → sends s → ∃ a, Forall is_Some a ∧
    write_response_core boundary srv s close req hello_response true =
    Val (true, wrote (hello_answer
      (close || bool_decide (Request.get_header_value "Connection" req = str "close"))
      (bool_decide (Request.method req = str "HEAD"))) a s).
Proof.
  intros Hr Hok.
  destruct (write_response_ok boundary srv s close req _ true _ Hok (prepare_plain close req hello_response true ltac:(done)))
    as (a & Ha & ->).
  exists a. split; [done|]. by rewrite hello_text.
Qed.

(** ** The answers *)

Lemma sends_consume n s : sends s → sends (consume n s).
Proof. unfold sends. by destruct (fd_consume n s) as (_ & -> & _). Qed.

(** A route is looked up by the whole path. *)
Lemma dispatch_hello req res :
  dispatch_request req res (get_handlers_ (routes srv)) =
  if decide (Request.path req = hello_path)
  then (Request.with_matches [Request.path req] req,
        Response.set_content (str "Hello, World!") (str "text/plain") res, inl true)
  else (req, res, inl false).
Proof.
  change (get_handlers_ (routes srv)) with [(Regex.literal Regex.chr hello_path, handler_of HTTPServer.hello)].
  cbn [dispatch_request]. rewrite match_literal. by case_decide.
Qed.

(** After the head of a request that says nothing of ranges and has no content. *)
(** The routes: the one handler, or none. *)
Lemma route_plain req s :
  expect_content req = false →
  route_content max_size srv req (start_response srv) s =
  (if decide (Request.method req = str "GET" ∨ Request.method req = str "HEAD") then
     if decide (Request.path req = hello_path)
     then (Request.with_matches [Request.path req] req,
           Response.set_content (str "Hello, World!") (str "text/plain") (start_response srv), inl true, s)
     else (req, start_response srv, inl false, s)
   else if decide (Request.method req = str "OPTIONS") then (req, start_response srv, inl false, s)
   else (req, Response.with_status 400 (start_response srv), inl false, s)).
Proof.
  intros Hc. unfold route_content. rewrite Hc. unfold regular_handler. rewrite dispatch_hello.
  unfold expect_content in Hc. apply bool_decide_eq_false in Hc.
  destruct (decide (Request.method req = str "GET" ∨ Request.method req = str "HEAD")) as [Hm|Hm].
  - replace (bool_decide _ || bool_decide _) with true; [by case_decide|].
    symmetry. apply orb_true_iff. rewrite !bool_decide_eq_true. done.
  - rewrite (bool_decide_false (Request.method req = str "GET")), (bool_decide_false (Request.method req = str "HEAD")) by tauto.
    cbn [orb].
    assert (Hno : ∀ m, m ∈ ["POST"; "PUT"; "PATCH"; "PRI"; "DELETE"]%string → Request.method req ≠ str m).
    { intros m Hin E. apply Hc. rewrite E. by apply list_elem_of_fmap_2. }
    rewrite (bool_decide_false (Request.method req = str "POST")) by (apply Hno; set_solver).
    rewrite (bool_decide_false (Request.method req = str "PUT")) by (apply Hno; set_solver).
    rewrite (bool_decide_false (Request.method req = str "DELETE")) by (apply Hno; set_solver).
    rewrite (bool_decide_false (Request.method req = str "PATCH")) by (apply Hno; set_solver).
    case_decide as Ho; [by rewrite bool_decide_true by done|by rewrite bool_decide_false by done].
Qed.

(** After the head of a request that says nothing of ranges and has no content. *)
Lemma process_routed_plain close closed req s :
  Request.ranges req = [] → Request.get_header_value "Expect" req ≠ str "100-continue" →
  expect_content req = false → sends s →
  ∃ a, Forall is_Some a ∧
    process_routed max_size fs boundary srv close closed req (start_response srv) s =
    Val (true, closed, wrote (expected_answer req
      (close || bool_decide (Request.get_header_value "Connection" req = str "close"))) a s).
Proof.
  intros Hr He Hc Hs. unfold process_routed, expect_continue. rewrite decide_False by done.
  assert (Hroute : routing max_size fs srv req (start_response srv) s =
                   Val (route_content max_size srv req (start_response srv) s)).
  { unfold routing, route_files. cbn. by destruct (_ || _). }
  rewrite Hroute, route_plain by done. unfold expected_answer. cbn [mbind outcome_bind].
  destruct (decide (_ ∨ _)) as [Hm|Hm]; [case_decide as Hp|case_decide as Ho]; unfold answer; cbn [Response.status].
  - destruct (write_hello s close (Request.with_matches [Request.path req] req) Hr Hs) as (a & Ha & E).
    exists a. split; [done|]. 
    change (Response.status (Response.set_content _ _ _)) with (-1). rewrite decide_True by done. cbn [Request.ranges Request.with_matches].
    rewrite Hr. rewrite decide_True by done. fold hello_response. by rewrite E.
  - destruct (write_bare s close req 404 ltac:(done) Hs) as (a & Ha & E). exists a. split; [done|].
    change (Response.status (start_response srv)) with (-1). rewrite decide_True by done. by rewrite E.
  - destruct (write_bare s close req 404 ltac:(done) Hs) as (a & Ha & E). exists a. split; [done|].
    change (Response.status (start_response srv)) with (-1). rewrite decide_True by done. by rewrite E.
  - destruct (write_bare s close req 400 ltac:(done) Hs) as (a & Ha & E). exists a. split; [done|].
    cbn [Response.status Response.with_status]. rewrite decide_False by done. by rewrite E.
Qed.

(** A request without a content that says nothing of ranges and does not wait. *)
Record plain (line : bytes) (ls : list bytes) (req : Request.t) : Prop := {
  plain_head : head line ls;
  plain_parse : parse_request_line (line ++ CRLF) Request.empty = (true, req);
  plain_method : expect_content req = false;
  plain_range : Headers.has_header (headers_of ls) (str "Range") = false;
  plain_expect : Headers.header_value (headers_of ls) (str "Expect") ≠ str "100-continue";
}.

Definition says_close (ls : list bytes) : bool :=
  bool_decide (Headers.header_value (headers_of ls) (str "Connection") = str "close").

(** After a plain request: exactly its bytes are read, and its answer is written. *)
Lemma process_plain close line ls req rest s :
  plain line ls req → Socket.fd (SocketStream.sock_ s) < Socket.FD_SETSIZE → sends s →
  pending s = request_text line ls ++ rest →
  ∃ a, Forall is_Some a ∧
    process_request max_size fs boundary remote srv close s =
    Val (true, wants_close (Request.with_headers (headers_of ls) req),
         wrote (expected_answer req (close || says_close ls)) a (consume (length (request_text line ls)) s)).
Proof.
  intros [Hh Hp Hm Hr He] Hfd Hs Hpe.
  pose proof (process_head max_size fs boundary remote srv close line ls rest s Hh Hfd Hpe) as H.
  cbn zeta in H. pose proof (parse_request_line_rest (line ++ CRLF) Request.empty) as (_ & _ & Hrg).
  rewrite Hp in H, Hrg. destruct H as [H _]. unfold process in H. rewrite H. clear H.
  unfold process_headers. set (req' := Request.with_headers (headers_of ls) req).
  assert (Ho : ordered Headers.ci (Request.headers req')) by apply headers_of_ordered.
  destruct (set_remote_other remote req' "Range" Ho eq_refl eq_refl) as [_ ->].
  unfold Request.has_header. cbn [Request.headers Request.with_headers req']. rewrite Hr.
  destruct (set_remote_other remote req' "Connection" Ho eq_refl eq_refl) as [Hconn _].
  destruct (set_remote_other remote req' "Expect" Ho eq_refl eq_refl) as [Hexp _].
  destruct (process_routed_plain close (wants_close req') (set_remote remote req')
              (consume (length (request_text line ls)) s)) as (a & Ha & E);
    [exact Hrg|by rewrite Hexp|exact Hm|by apply sends_consume|].
  exists a. split; [done|]. rewrite E. by rewrite Hconn.
Qed.


(** ** Connections *)

Record exchange := MkExchange { ex_line : bytes; ex_lines : list bytes; ex_request : Request.t;
                                ex_segments : list (byte * bytes) }.

(** A plain request that keeps the connection, in segments of its own: the client
    sends it after the answer to the one before. *)
Record kept (e : exchange) : Prop := {
  kept_plain : plain (ex_line e) (ex_lines e) (ex_request e);
  kept_open : wants_close (Request.with_headers (headers_of (ex_lines e)) (ex_request e)) = false;
  kept_text : text_of (ex_segments e) = request_text (ex_line e) (ex_lines e);
}.

Definition arriving (es : list exchange) : list Socket.arrival := concat ((λ e, segments (ex_segments e)) <$> es).

(** The answers to some requests when [count] are left: the last one closes. *)
Fixpoint session_text (count : nat) (es : list exchange) : bytes :=
  match es, count with
  | e :: es, S n => expected_answer (ex_request e) (bool_decide (n = 0%nat)) ++ session_text n es
  | _, _ => []
  end.

Lemma kept_says e : kept e → says_close (ex_lines e) = false.
Proof. intros [_ H _]. unfold wants_close in H. by apply orb_false_iff in H as [H _]. Qed.

Lemma data_segments xs a : data (segments xs ++ a) = text_of xs ++ data a.
Proof.
  induction xs as [|[b bs] xs IH]; [done|]. unfold text_of. cbn [segments fmap list_fmap app data concat fst snd].
  unfold segments, text_of in IH. rewrite IH. by rewrite app_assoc.
Qed.

Lemma request_text_head line ls : ∃ b bs, request_text line ls = b :: bs.
Proof. unfold request_text, CRLF. destruct line; cbn; eauto. Qed.

Lemma select_read_ready k xs a line ls :
  text_of xs = request_text line ls → Socket.arrivals k = segments xs ++ a → Socket.select_read k = (true, k).
Proof.
  destruct (request_text_head line ls) as (b & bs & ->). destruct xs as [|[b' bs'] xs]; [done|].
  intros _ Ha. by apply (select_read_data k b' bs' (segments xs ++ a)).
Qed.

Lemma select_read_idle fd an se :
  fd < Socket.FD_SETSIZE → Socket.select_read (Socket.Make fd [] an se) = (false, Socket.Make fd [] an se).
Proof.
  intros H. unfold Socket.select_read. cbn [Socket.fd Socket.arrivals]. destruct (Z.leb_spec Socket.FD_SETSIZE fd); [lia|done].
Qed.

Lemma session_steps es count ret fd tail an se :
  Forall kept es → (length es ≤ count)%nat → fd < Socket.FD_SETSIZE → Forall is_Some an →
  ∃ an', Forall is_Some an' ∧
    process_server_socket_core max_size fs boundary (λ _, true) remote srv count ret
      (Socket.Make fd (arriving es ++ tail) an se) =
    process_server_socket_core max_size fs boundary (λ _, true) remote srv (count - length es)
      (bool_decide (es ≠ []) || ret) (Socket.Make fd tail an' (se ++ session_text count es)).
Proof.
  intros Hes Hc Hfd. revert count ret an se Hc. induction Hes as [|e es He _ IH]; intros count ret an se Hc Han.
  - exists an. split; [done|]. replace (session_text count []) with (@nil byte) by (by destruct count).
    by rewrite app_nil_r, Nat.sub_0_r.
  - destruct count as [|n]; [simpl in Hc; lia|]. cbn [process_server_socket_core length Nat.sub].
    unfold arriving. cbn [fmap list_fmap concat]. rewrite <- app_assoc. fold (arriving es).
    set (k := Socket.Make fd (segments (ex_segments e) ++ arriving es ++ tail) an se).
    rewrite (select_read_ready k (ex_segments e) (arriving es ++ tail) (ex_line e) (ex_lines e) (kept_text _ He) eq_refl).
    destruct (process_plain (bool_decide (n = 0%nat)) (ex_line e) (ex_lines e) (ex_request e) (data (arriving es ++ tail))
      (SocketStream.make k) (kept_plain _ He) Hfd Han) as (a & Ha & E).
    { unfold pending. cbn. by rewrite data_segments, (kept_text _ He). }
    rewrite E, (kept_open _ He), (kept_says _ He). cbn [mbind outcome_bind negb orb].
    rewrite <- (kept_text _ He).
    pose proof (consume_segments (Socket.Make fd [] an se) (ex_segments e) (arriving es ++ tail)) as Hcs.
    unfold Socket.with_arrivals in Hcs. cbn [Socket.fd Socket.answers Socket.sent] in Hcs.
    unfold SocketStream.make, k. rewrite Hcs, orb_false_r. unfold wrote, Socket.with_answers, Socket.with_sent.
    cbn [SocketStream.sock_ SocketStream.rest Socket.fd Socket.answers Socket.sent Socket.arrivals].
    destruct (IH n true a (se ++ expected_answer (ex_request e) (bool_decide (n = 0%nat)))) as (an' & Han' & ->);
      [simpl in Hc; lia|done|].
    exists an'. split; [done|]. rewrite orb_true_r. cbn [session_text]. by rewrite app_assoc.
Qed.
End configured.

(** ** A request *)

Definition sample_line : bytes := Eval vm_compute in str "GET /hello?a=b HTTP/1.1".
Definition sample_lines : list bytes := Eval vm_compute in [str "Host: localhost"].
Definition sample_request : Request.t := Eval vm_compute in (parse_request_line (sample_line ++ CRLF) Request.empty).2.
Definition sample_server : HTTPServer.t := Eval vm_compute in HTTPServer.make (str "0.0.0.0") 8080.

(** The text in two segments. *)
Definition sample_segments : list (byte * bytes) :=
  Eval vm_compute in
    let text := request_text sample_line sample_lines in
    [(Detail.char_at text 0, take 6 (drop 1 text)); (Detail.char_at text 7, drop 8 text)].

Lemma sample_head : head sample_line sample_lines.
Proof.
  split; [split_and!; [compute_done|compute_done|unfold CPPHTTPLIB_REQUEST_URI_MAX_LENGTH; simpl; lia]|].
  apply Forall_cons_2; [|apply Forall_nil_2]. split; [compute_done|]. split; [done|].
  unfold Content.CPPHTTPLIB_HEADER_MAX_LENGTH. simpl. lia.
Qed.

Lemma sample_plain : plain sample_line sample_lines sample_request.
Proof. split; [exact sample_head|by vm_compute|by vm_compute|by vm_compute|compute_done]. Qed.

(** ** The properties *)

Section theorems.
Context (max_size : Z) (fs : Files.t) (boundary : bytes).
Context (remote : bytes * Z) (h : HTTPServer.t).


End theorems.


Section theorems.
Context (max_size : Z) (fs : Files.t) (boundary : bytes).
Context (remote : bytes * Z) (h : HTTPServer.t).

(** C26. A connection: the client sends one to five plain requests that keep it open, each
    after the answer to the one before and in segments of any size.  Every request is
    answered, in order; the fifth answer says that the connection closes, and nothing
    after it is read; after fewer the client sends nothing more.  The requests are
    [kept]: without content, ranges, [Expect: 100-continue] or a wish to close, the
    request line and every header line at most 8192 bytes with their [CRLF], as in
    [configured_answers]; the descriptor is below [FD_SETSIZE] and no call of [send]
    fails. *)
Theorem keep_alive_session es fd tail an se :
  Forall kept es → es ≠ [] → (length es = 5 ∨ length es < 5 ∧ tail = [])%nat →
  fd < Socket.FD_SETSIZE → Forall is_Some an →
  ∃ an', Forall is_Some an' ∧
    process_and_close_socket max_size fs boundary (λ _, true) remote (configured h)
      (Socket.Make fd (arriving es ++ tail) an se) =
    Val (true, Socket.Make fd tail an' (se ++ session_text 5 es)).
Proof.
  intros Hes Hne Hlen Hfd Han. unfold process_and_close_socket.
  change (keep_alive_max_count_ (configured h)) with 5%nat. cbn [JSON_ASSERT mbind outcome_bind].
  destruct (session_steps max_size fs boundary remote h es 5 false fd tail an se Hes) as (an' & Han' & E);
    [destruct Hlen as [->|[]]; lia|done|done|].
  exists an'. split; [done|]. rewrite bool_decide_true in E by done. etransitivity; [exact E|].
  destruct Hlen as [->|[Hl ->]]; [done|]. destruct (5 - length es)%nat as [|n] eqn:En; [lia|].
  cbn [process_server_socket_core orb]. by rewrite select_read_idle.
Qed.

(** C28. Requests sent without waiting are lost: when a connection brings one segment of at
    most 4096 bytes, the size of a stream's buffer, and nothing after it, and the segment
    starts with a plain request that does not close the connection, then whatever the
    rest of the segment is, another request for instance, it is read into the buffer of
    that request's stream and dropped with it, because the next request has a new one:
    the connection gets exactly one answer, and it is over.  (What is beyond the buffer,
    or comes in a later segment, stays in the kernel for the next stream; the statement
    does not speak of it.)  The descriptor is below [FD_SETSIZE] and no call of [send]
    fails. *)
Theorem pipelined_requests_lost line ls req extra b bs fd an se :
  plain line ls req → wants_close (Request.with_headers (headers_of ls) req) = false →
  b :: bs = request_text line ls ++ extra → (length (b :: bs) ≤ SocketStream.read_buff_size_)%nat →
  fd < Socket.FD_SETSIZE → Forall is_Some an →
  ∃ an', Forall is_Some an' ∧
    process_and_close_socket max_size fs boundary (λ _, true) remote (configured h)
      (Socket.Make fd [Socket.Data b bs] an se) =
    Val (true, Socket.Make fd [] an' (se ++ expected_answer req false)).
Proof.
  intros Hpl Hopen Hseg Hbuf Hfd Han. unfold process_and_close_socket.
  change (keep_alive_max_count_ (configured h)) with 5%nat.
  rewrite bool_decide_true by done. cbn [JSON_ASSERT mbind outcome_bind].
  cbn [process_server_socket_core]. rewrite (select_read_data _ b bs []) by done.
  destruct (process_plain max_size fs boundary remote h false line ls req extra
    (SocketStream.make (Socket.Make fd [Socket.Data b bs] an se)) Hpl Hfd Han) as (a & Ha & E).
  { change (b :: (bs ++ []) = request_text line ls ++ extra). by rewrite app_nil_r. }
  exists a. split; [done|]. change (bool_decide (4 = 0)%nat) with false.
  change (configured h) with (srv h). rewrite E, Hopen.
  assert (Hc : says_close ls = false) by (unfold wants_close in Hopen; by apply orb_false_iff in Hopen as [Hopen _]).
  cbn [mbind outcome_bind negb orb]. rewrite Hc.
  pose proof (consume_part (Socket.Make fd [] an se) b bs (length (request_text line ls)) []) as Hcp.
  unfold Socket.with_arrivals in Hcp. cbn [Socket.fd Socket.answers Socket.sent] in Hcp.
  unfold SocketStream.make. rewrite Hcp; [|rewrite Hseg, length_app;
    destruct (request_text_head line ls) as (? & ? & ->); simpl; lia|done].
  unfold wrote, Socket.with_answers, Socket.with_sent.
  cbn [SocketStream.sock_ Socket.fd Socket.answers Socket.sent Socket.arrivals]. by rewrite select_read_idle.
Qed.

End theorems.

Definition sample_exchange : exchange :=
  Eval vm_compute in MkExchange sample_line sample_lines sample_request sample_segments.

Lemma keep_alive_session_witness :
  ∃ an', Forall is_Some an' ∧
    process_and_close_socket 1000 Files.none [] (λ _, true) ([], 0) (configured sample_server)
      (Socket.Make 7 (arriving [sample_exchange; sample_exchange] ++ []) [] []) =
    Val (true, Socket.Make 7 [] an' ([] ++ session_text 5 [sample_exchange; sample_exchange])).
Proof.
  assert (Hk : kept sample_exchange) by (split; [exact sample_plain|by vm_compute|by vm_compute]).
  apply keep_alive_session;
    [apply Forall_cons_2, Forall_cons_2, Forall_nil_2; exact Hk|done|right; split; [simpl; lia|done]|done|apply Forall_nil_2].
Defined.

(** Two requests in one segment. *)
Definition sample_pipelined : bytes :=
  Eval vm_compute in drop 1 (request_text sample_line sample_lines ++ request_text sample_line sample_lines).

Lemma sample_pipelined_text :
  Detail.char_at sample_line 0 :: sample_pipelined =
  request_text sample_line sample_lines ++ request_text sample_line sample_lines.
Proof. by vm_compute. Qed.

Lemma sample_pipelined_fits :
  (length (Detail.char_at sample_line 0 :: sample_pipelined) ≤ SocketStream.read_buff_size_)%nat.
Proof. apply Nat.leb_le. by vm_compute. Qed.

Lemma sample_kept : wants_close (Request.with_headers (headers_of sample_lines) sample_request) = false.
Proof. by vm_compute. Qed.

Lemma pipelined_requests_lost_witness :
  ∃ an', Forall is_Some an' ∧
    process_and_close_socket 1000 Files.none [] (λ _, true) ([], 0) (configured sample_server)
      (Socket.Make 7 [Socket.Data (Detail.char_at sample_line 0) sample_pipelined] [] []) =
    Val (true, Socket.Make 7 [] an' ([] ++ expected_answer sample_request false)).
Proof.
  exact (pipelined_requests_lost 1000 Files.none [] ([], 0) sample_server sample_line sample_lines
    sample_request (request_text sample_line sample_lines) (Detail.char_at sample_line 0) sample_pipelined 7 [] []
    sample_plain sample_kept sample_pipelined_text sample_pipelined_fits eq_refl (List.Forall_nil _)).
Defined.

(** C21. The segments do not matter: from the same bytes, with the same events after
    them, the server gives the same answer to a request that is not a multipart form
    (whose content fits in a string), for any configuration and any handlers. *)
Theorem request_segmentation max_size fs boundary remote srv close fd a1 a2 an se :
  data a1 = data a2 → after a1 = after a2 →
  let s1 := SocketStream.make (Socket.Make fd a1 an se) in
  let s2 := SocketStream.make (Socket.Make fd a2 an se) in
  (∀ req, head_of remote s1 = Some req → Request.is_multipart_form_data req = false) →
  Z.of_nat (length (data a1)) ≤ max_size →
  match process_request max_size fs boundary remote srv close s1,
        process_request max_size fs boundary remote srv close s2 with
  | Val (ret1, closed1, t1), Val (ret2, closed2, t2) =>
      ret1 = ret2 ∧ closed1 = closed2 ∧ Socket.sent (SocketStream.sock_ t1) = Socket.sent (SocketStream.sock_ t2)
  | Throw e1, Throw e2 => e1 = e2
  | Undefined, Undefined => True
  | _, _ => False
  end.
Proof.
  intros Hd Ha s1 s2 Hm Hn.
  assert (Hs : same s1 s2) by (unfold same, flat, s1, s2, pending; cbn; by rewrite Hd, Ha).
  pose proof (process_request_same max_size fs boundary srv remote close s1 s2 Hs Hm Hn) as H.
  destruct (process_request _ _ _ _ _ _ s1) as [[[r1 c1] t1]| |], (process_request _ _ _ _ _ _ s2) as [[[r2 c2] t2]| |];
    cbn [osimilar] in H; try done.
  destruct H as [[= -> ->] Ht]. split_and!; try done. revert Ht. unfold same, flat. by intros [= _ _ _ -> _].
Qed.

Lemma request_segmentation_witness :
  let run a := process_request 1000 Files.none [] ([], 0) (configured sample_server) false
                 (SocketStream.make (Socket.Make 7 a [] [])) in
  match run (segments sample_segments), run [Socket.Data (Detail.char_at sample_line 0) (drop 1 (text_of sample_segments))] with
  | Val (ret1, closed1, t1), Val (ret2, closed2, t2) =>
      ret1 = ret2 ∧ closed1 = closed2 ∧ Socket.sent (SocketStream.sock_ t1) = Socket.sent (SocketStream.sock_ t2)
  | Throw e1, Throw e2 => e1 = e2
  | Undefined, Undefined => True
  | _, _ => False
  end.
Proof.
  refine (request_segmentation 1000 Files.none [] ([], 0) (configured sample_server) false 7
    (segments sample_segments) [Socket.Data (Detail.char_at sample_line 0) (drop 1 (text_of sample_segments))] [] [] _ _ _ _);
    [by vm_compute|done| |vm_compute; congruence].
  intros req. assert (E : head_of ([], 0) (SocketStream.make (Socket.Make 7 (segments sample_segments) [] [])) =
    Some (set_remote ([], 0) (Request.with_headers (headers_of sample_lines) sample_request))) by by vm_compute.
  rewrite E. intros [= <-]. by vm_compute.
Defined.
