(* ===== verification/HttpFraming.v ===== *)
(** * Reading a response back

    The head of a response is read by the functions that read heads, header by header,
    and the header [Content-Length] gives the length of what follows. *)

From stdpp Require Import sorting pretty.
From S2P Require Import Prelude StdString Dtoa Json Regex HttpText HttpTextSpec HttpMessage HttpStream HttpStreamSpec.
From S2P Require Import HttpMultipart HttpServer HttpServerSpec HttpAnswers.
From Stdlib Require Import Strings.Byte Strings.Ascii.

Open Scope Z_scope.

Import Server.

(** ** Numbers *)

Definition digit_byte (b : byte) : Prop := 0x30 ≤ b2z b ≤ 0x39.
Definition number_of (ds : bytes) : Z := foldl (λ v b, 10 * v + (b2z b - 0x30)) 0 ds.

Lemma pretty_char n : (n < 10)%N → b2z (Ascii.byte_of_ascii (pretty_N_char n)) = 0x30 + Z.of_N n.
Proof.
  intros H.
  assert (n = 0 ∨ n = 1 ∨ n = 2 ∨ n = 3 ∨ n = 4 ∨ n = 5 ∨ n = 6 ∨ n = 7 ∨ n = 8 ∨ n = 9)%N as Hn by lia.
  repeat destruct Hn as [->|Hn]; subst; done.
Qed.

Lemma pretty_go n x s :
  (0 < x < 10 ^ N.of_nat n)%N →
  ∃ ds, String.list_byte_of_string (pretty_N_go x s) = ds ++ String.list_byte_of_string s ∧
    Forall digit_byte ds ∧ (0 < length ds ≤ n)%nat ∧ number_of ds = Z.of_N x.
Proof.
  revert x s. induction n as [|n IH]; intros x s Hx; [simpl in Hx; lia|].
  rewrite Nat2N.inj_succ, N.pow_succ_r' in Hx. rewrite pretty_N_go_step by lia.
  assert (Hm : (x `mod` 10 < 10)%N) by (by apply N.mod_lt).
  set (c := pretty_N_char (x `mod` 10)).
  assert (Hc : b2z (Ascii.byte_of_ascii c) = 0x30 + Z.of_N (x `mod` 10)) by (by apply pretty_char).
  assert (Hd : digit_byte (Ascii.byte_of_ascii c)).
  { unfold digit_byte. rewrite Hc. revert Hm. generalize (x `mod` 10)%N. intros k Hk. split; [|apply Z.lt_succ_r]; lia. }
  destruct (decide (x `div` 10 = 0)%N) as [E|E].
  - rewrite E, pretty_N_go_0. exists [Ascii.byte_of_ascii c].
    split; [done|]. split; [by apply Forall_cons_2, Forall_nil_2|]. split; [simpl; lia|].
    unfold number_of. cbn [foldl]. rewrite Hc. pose proof (N.div_mod x 10 ltac:(done)). lia.
  - destruct (IH (x `div` 10)%N (String c s)) as (ds & E' & H1 & H2 & H3); [split; [by apply N.neq_0_lt_0|apply N.Div0.div_lt_upper_bound, Hx]|].
    exists (ds ++ [Ascii.byte_of_ascii c]). rewrite E', <- app_assoc.
    split; [done|]. split; [|split; [rewrite length_app; simpl; lia|]].
    + apply Forall_app. split; [done|by apply Forall_cons_2, Forall_nil_2].
    + unfold number_of in *. rewrite foldl_app. cbn [foldl]. rewrite H3, Hc. pose proof (N.div_mod x 10 ltac:(done)). lia.
Qed.

(** The text of a number up to [10 ^ n]. *)
Lemma to_string_digits n z :
  0 ≤ z < 10 ^ Z.of_nat n → (0 < n)%nat →
  Forall digit_byte (Ranges.to_string z) ∧ (0 < length (Ranges.to_string z) ≤ n)%nat ∧ number_of (Ranges.to_string z) = z.
Proof.
  intros Hz Hn.
  destruct z as [|p|p]; [split_and!; [by apply Forall_cons_2, Forall_nil_2|simpl; lia|simpl; lia|done]| |lia].
  change (Ranges.to_string (Z.pos p)) with (String.list_byte_of_string (pretty_N_go (N.pos p) EmptyString)).
  destruct (pretty_go n (N.pos p) EmptyString) as (ds & -> & H1 & H2 & H3).
  { split; [lia|]. apply N2Z.inj_lt. rewrite N2Z.inj_pow, nat_N_Z. apply Hz. }
  cbn [String.list_byte_of_string]. by rewrite app_nil_r.
Qed.

(** [strtoull] reads it back. *)
Lemma span_base_digits ds : Forall digit_byte ds → Numbers.span_base 10 ds = ((λ b, b2z b - 0x30) <$> ds, []).
Proof.
  induction 1 as [|b ds Hb _ IH]; [done|]. cbn [Numbers.span_base]. 
  assert (E : Numbers.digit_in 10 b = Some (b2z b - 0x30)).
  { unfold digit_byte in Hb. unfold Numbers.digit_in, Detail.is_hex.
    replace ((0x41 <=? b2z b) && (b2z b <=? 0x5A)) with false by (symmetry; apply andb_false_iff; lia).
    replace ((0x30 <=? b2z b) && (b2z b <=? 0x39)) with true by (symmetry; apply andb_true_iff; lia).
    destruct (Z.ltb_spec (b2z b - 0x30) 10); [done|lia]. }
  rewrite E, IH. done.
Qed.

Lemma strtoull_to_string z : 0 ≤ z < 2 ^ 64 → Numbers.strtoull 10 (Ranges.to_string z) = (z, true).
Proof.
  intros Hz. destruct (to_string_digits 20 z) as (H1 & H2 & H3); [lia|lia|].
  destruct (Ranges.to_string z) as [|b ds]; [simpl in H2; lia|].
  unfold Numbers.strtoull. assert (Hb : digit_byte b) by (by apply Forall_cons in H1 as [? _]).
  unfold digit_byte in Hb. assert (Hs : Numbers.is_space b = false).
  { unfold Numbers.is_space. apply orb_false_iff. rewrite andb_false_iff. lia. }
  cbn [Numbers.skip_spaces]. rewrite Hs.
  rewrite !decide_False by (intros ->; exact (proj1 Hb eq_refl)).
  assert (E : (match b :: ds with
               | z :: x :: d :: t =>
                   if bool_decide (10 = 16 ∧ z = "0"%byte ∧ (x = "x"%byte ∨ x = "X"%byte)) &&
                      bool_decide (is_Some (Numbers.digit_in 16 d)) then d :: t else b :: ds
               | _ => b :: ds end) = b :: ds).
  { destruct ds as [|x [|d t]]; [done|done|]. by rewrite bool_decide_false by (by intros [? _]). }
  rewrite E, span_base_digits by done. rewrite decide_False by done.
  assert (Hv : foldl (λ v d, 10 * v + d) 0 ((λ b, b2z b - 48) <$> (b :: ds)) = z).
  { rewrite <- H3. unfold number_of. generalize 0 as v0. generalize (b :: ds). intros l. induction l as [|x l IH]; intros v0; [done|].
    cbn [fmap list_fmap foldl]. apply IH. }
  rewrite Hv. destruct (Z.ltb_spec z (2 ^ 64)); [|lia]. by rewrite u64_small.
Qed.

(** ** A head and what is read from it *)

Definition plain_in (forbidden : list byte) (s : bytes) : bool := forallb (λ c, bool_decide (c ∉ forbidden)) s.

(** A header that is read as it was written: nothing in it ends the key, the line or
    the C string, the value is not decoded to another one and no blank is dropped. *)
Definition clean (x : bytes * bytes) : bool :=
  plain_in [":"%byte; x0a; x00] x.1 && plain_in ["%"%byte; x0a; x00] x.2 &&
  match x.2 with c :: _ => negb (Detail.is_space_or_tab c) | [] => false end &&
  match last x.2 with Some c => negb (Detail.is_space_or_tab c) | None => false end &&
  bool_decide (length x.1 + length x.2 + 4 ≤ Content.CPPHTTPLIB_HEADER_MAX_LENGTH)%nat.

Definition header_text (x : bytes * bytes) : bytes := x.1 ++ str ": " ++ x.2.

Lemma plain_not_in forbidden s c : plain_in forbidden s = true → c ∈ forbidden → c ∉ s.
Proof.
  unfold plain_in. rewrite forallb_forall. intros H Hc Hs.
  apply list_elem_of_In, H, bool_decide_eq_true in Hs. by apply Hs.
Qed.

(** The parts of [clean]: the value with its last byte apart. *)
Lemma clean_inv x :
  clean x = true →
  ∃ v c, x.2 = v ++ [c] ∧ Detail.is_space_or_tab c = false ∧ Content.skip_blanks x.2 = x.2 ∧
    plain_in [":"%byte; x0a; x00] x.1 = true ∧ plain_in ["%"%byte; x0a; x00] x.2 = true ∧
    (length x.1 + length x.2 + 4 ≤ Content.CPPHTTPLIB_HEADER_MAX_LENGTH)%nat.
Proof.
  unfold clean. rewrite !andb_true_iff, bool_decide_eq_true. intros [[[[Hk Hv] Hh] Hl] Hlen].
  destruct (last x.2) as [c|] eqn:E; [|done]. apply last_Some in E as [v E]. exists v, c.
  split; [done|]. split; [by apply negb_true_iff|]. split; [|done].
  destruct x.2 as [|b w]; [done|]. cbn. by apply negb_true_iff in Hh as ->.
Qed.

Lemma decode_no_percent fuel p v :
  "%"%byte ∉ v → (length v ≤ fuel)%nat → Detail.decode_loop fuel (p ++ v) false (length p) = v.
Proof.
  revert fuel p. induction v as [|c v IH]; intros fuel p Hv Hf.
  - rewrite app_nil_r. destruct fuel as [|fuel]; [done|]. cbn [Detail.decode_loop]. by rewrite decide_False by lia.
  - apply not_elem_of_cons in Hv as [Hc Hv]. simpl in Hf. destruct fuel as [|fuel]; [lia|].
    rewrite decode_literal by done. f_equal.
    specialize (IH fuel (p ++ [c]) Hv). rewrite length_app, Nat.add_1_r, <- app_assoc in IH. apply IH. lia.
Qed.

(** A header is read back from its line. *)
Lemma parse_header_text x : clean x = true → Content.parse_header (header_text x) = Some x.
Proof.
  destruct x as [k v]. intros (w & c & E & Hc & Hs & Hk & Hv & _)%clean_inv. cbn [fst snd] in *.
  unfold Content.parse_header, header_text. cbn [fst snd].
  assert (Hr : Detail.trim_right (k ++ str ": " ++ v) (length (k ++ str ": " ++ v)) = length (k ++ str ": " ++ v)).
  { rewrite E. replace (k ++ str ": " ++ w ++ [c]) with ((k ++ str ": " ++ w) ++ [c]) by (by rewrite <- !app_assoc).
    rewrite length_app, Nat.add_1_r. cbn [Detail.trim_right]. by rewrite char_at_app, Hc. }
  rewrite Hr, take_ge by done. change (str ": " ++ v) with (":"%byte :: " "%byte :: v).
  rewrite index_of_app by (by eapply plain_not_in; [exact Hk|set_solver]).
  assert (Hd : drop (S (length k)) (k ++ ":"%byte :: " "%byte :: v) = " "%byte :: v).
  { rewrite <- Nat.add_1_r, <- drop_drop, drop_app_length. done. }
  rewrite Hd, take_app_length. cbn [Content.skip_blanks]. change (Detail.is_space_or_tab " "%byte) with true. rewrite Hs.
  destruct v as [|b v']; [by destruct w|]. do 2 f_equal.
  apply (decode_no_percent _ []); [|done]. eapply plain_not_in; [exact Hv|set_solver].
Qed.

Lemma write_headers_text h :
  Forall (λ x, clean x = true) h →
  write_headers h = head_text (header_text <$> h) ∧ Forall header_line (header_text <$> h).
Proof.
  unfold write_headers, head_text. change crlf with CRLF.
  induction 1 as [|x h Hx _ [IH1 IH2]]; [by split; [|apply Forall_nil_2]|]. cbn [fmap list_fmap concat].
  destruct (clean_inv x Hx) as (w & c & E & Hc & Hs & Hk & Hv & Hlen). split.
  - rewrite <- !app_assoc. rewrite IH1. rewrite !c_str_id by (eapply plain_not_in; [done|set_solver]).
    unfold header_text. by rewrite <- !app_assoc.
  - apply Forall_cons_2; [|done]. unfold header_line, header_text. split_and!.
    + rewrite !not_elem_of_app. split_and!; [|by apply (bool_decide_unpack _); vm_compute|];
        (eapply plain_not_in; [done|set_solver]).
    + by destruct x.1.
    + rewrite !length_app. change (length (str ": ")) with 2%nat. lia.
Qed.

Lemma enter_headers h1 h2 :
  ordered Headers.ci (h1 ++ h2) → Forall (λ x, clean x = true) h2 →
  foldl enter h1 (header_text <$> h2) = h1 ++ h2.
Proof.
  revert h1. induction h2 as [|[k v] h2 IH]; intros h1 Ho Hc; [by rewrite app_nil_r|].
  apply Forall_cons in Hc as [Hx Hc]. cbn [fmap list_fmap foldl]. unfold enter at 2.
  rewrite (parse_header_text (k, v)) by done. rewrite emplace_last.
  - rewrite (cons_middle (k, v)), app_assoc in Ho. by rewrite IH, <- app_assoc.
  - apply Forall_forall. intros e He. apply StronglySorted_app in Ho as (Ho & _).
    apply (Ho e (k, v)); [done|by left].
Qed.

(** The headers a response is written with are those that are read. *)
Lemma write_read_headers h s rest :
  ordered Headers.ci h → Forall (λ x, clean x = true) h → pending s = write_headers h ++ rest →
  ∃ s', Content.read_headers [] s = (true, h, s') ∧ pending s' = rest.
Proof.
  intros Ho Hc Hp. destruct (write_headers_text h Hc) as [E Hl]. rewrite E in Hp.
  destruct (read_headers_lines _ [] s rest Hl Hp) as [-> Hr]. rewrite (enter_headers [] h) by done. eauto.
Qed.

(** ** The response with the headers the server adds *)

(** Headers that are read as they were written, and the content. *)
Record framed (b : bytes) (res : Response.t) : Prop := {
  framed_ordered : ordered Headers.ci (Response.headers res);
  framed_clean : Forall (λ x, clean x = true) (Response.headers res);
  framed_body : Response.body res = b;
}.

Definition header_of (key : string) (res : Response.t) : option bytes := Detail.mfind Headers.ci (str key) (Response.headers res).

Definition different (key key' : string) : bool := negb (Detail.equivalent Headers.ci (str key) (str key')).

Lemma framed_set b k v res :
  clean (str k, v) = true → framed b res →
  framed b (Response.set_header k v res) ∧
  (∀ key, different key k = true → header_of key (Response.set_header k v res) = header_of key res) ∧
  (Headers.has_crlf (str k) = false → Headers.has_crlf (c_str v) = false → header_of k res = None →
   header_of k (Response.set_header k v res) = Some v).
Proof.
  intros Hc [Ho Hcl Hb]. unfold header_of, Response.set_header, Headers.set_header.
  cbn [Response.headers Response.with_headers].
  assert (Hf : ∀ key, Detail.mfind Headers.ci (str key) (Detail.emplace Headers.ci (str k) v (Response.headers res)) =
    if Detail.equivalent Headers.ci (str key) (str k)
    then Some (default v (Detail.mfind Headers.ci (str key) (Response.headers res)))
    else Detail.mfind Headers.ci (str key) (Response.headers res)) by (intros; by apply mfind_emplace; [apply _|]).
  split; [|split].
  - destruct (_ && _); split; cbn; try done.
    + by apply (emplace_ordered Headers.ci).
    + rewrite emplace_perm. by apply Forall_cons_2.
  - intros key Hk. destruct (_ && _); [|done]. rewrite Hf. unfold different in Hk. by destruct (Detail.equivalent _ _ _).
  - intros -> -> Hn. cbn [negb andb]. rewrite Hf, Hn. unfold Detail.equivalent. by rewrite (lt_irrefl Headers.ci).
Qed.

Lemma framed_step (c : bool) b k v res :
  clean (str k, v) = true → framed b res →
  framed b (if c then Response.set_header k v res else res) ∧
  (∀ key, different key k = true → header_of key (if c then Response.set_header k v res else res) = header_of key res).
Proof. intros Hc Hf. destruct c; [|done]. by destruct (framed_set b k v res Hc Hf) as (? & ? & _). Qed.

(** Numbers in headers. *)
Lemma plain_digits ds : Forall digit_byte ds → plain_in ["%"%byte; x0a; x00] ds = true.
Proof.
  unfold plain_in. rewrite forallb_forall. intros H b Hb. apply list_elem_of_In in Hb. apply bool_decide_eq_true.
  eapply Forall_forall in H; [|done]. unfold digit_byte in H. rewrite !elem_of_cons, elem_of_nil.
  intros [->|[->|[->|[]]]]; exact (proj1 H eq_refl).
Qed.

Lemma digit_not_blank b : digit_byte b → Detail.is_space_or_tab b = false.
Proof. unfold digit_byte. intros H. apply bool_decide_eq_false. intros [->| ->]; exact (proj1 H eq_refl). Qed.

Lemma clean_number k p z :
  plain_in [":"%byte; x0a; x00] k = true → plain_in ["%"%byte; x0a; x00] p = true →
  match p with c :: _ => negb (Detail.is_space_or_tab c) | [] => true end = true →
  (length k + length p + 24 ≤ Content.CPPHTTPLIB_HEADER_MAX_LENGTH)%nat → 0 ≤ z < 10 ^ 20 →
  clean (k, p ++ Ranges.to_string z) = true.
Proof.
  intros Hk Hp Hh Hl Hz. destruct (to_string_digits 20 z) as (Hd & Hlen & _); [lia|lia|].
  destruct (Ranges.to_string z) as [|d ds] eqn:E using rev_ind; [simpl in Hlen; lia|]. clear IHds.
  unfold clean. cbn [fst snd]. rewrite Hk. unfold plain_in in *. rewrite forallb_app, Hp.
  rewrite (plain_digits _ Hd : forallb _ _ = true). rewrite app_assoc, last_snoc.
  pose proof Hd as [_ Hb]%Forall_app. apply Forall_cons in Hb as [Hb _].
  rewrite (digit_not_blank _ Hb). cbn [andb negb].
  assert (Hhead : match (p ++ ds) ++ [d] with c :: _ => negb (Detail.is_space_or_tab c) | [] => false end = true).
  { destruct p as [|c p]; [|done]. cbn [app]. destruct ds as [|c ds]; cbn [app].
    - by rewrite (digit_not_blank _ Hb).
    - apply Forall_cons in Hd as [Hc _]. by rewrite (digit_not_blank _ Hc). }
  rewrite Hhead. apply bool_decide_eq_true. rewrite !length_app in *. simpl in *. lia.
Qed.

Lemma clean_length z : 0 ≤ z < 10 ^ 20 → clean (str "Content-Length", Ranges.to_string z) = true.
Proof.
  apply (clean_number (str "Content-Length") []); [by vm_compute..|]. apply Nat.leb_le. by vm_compute.
Qed.

Lemma clean_keep_alive t m :
  0 ≤ t < 10 ^ 20 → 0 ≤ m < 10 ^ 20 →
  clean (str "Keep-Alive", str "timeout=" ++ Ranges.to_string t ++ str ", max=" ++ Ranges.to_string m) = true.
Proof.
  intros Ht Hm. destruct (to_string_digits 20 t) as (Hd & Hlen & _); [lia|lia|].
  replace (str "timeout=" ++ Ranges.to_string t ++ str ", max=" ++ Ranges.to_string m)
    with ((str "timeout=" ++ Ranges.to_string t ++ str ", max=") ++ Ranges.to_string m) by (by rewrite <- !app_assoc).
  apply clean_number; [by vm_compute| |done| |done].
  - unfold plain_in. rewrite !forallb_app. rewrite (plain_digits _ Hd : forallb _ _ = true). by vm_compute.
  - rewrite !length_app. change (length (str "timeout=")) with 8%nat. change (length (str ", max=")) with 6%nat.
    change (length (str "Keep-Alive")) with 10%nat.
    assert (H : (100 ≤ Content.CPPHTTPLIB_HEADER_MAX_LENGTH)%nat) by (apply Nat.leb_le; by vm_compute). lia.
Qed.

(** The names of the headers the server adds. *)
Definition added_names : list string := ["Connection"; "Keep-Alive"; "Content-Type"; "Content-Length"; "Accept-Ranges"]%string.

(** The settings a server writes into its answers. *)
Definition moderate (srv : Server.t) : Prop :=
  0 ≤ keep_alive_timeout_sec_ srv < 10 ^ 20 ∧ Z.of_nat (keep_alive_max_count_ srv) < 10 ^ 20.

Lemma framed_connection (c : bool) b t m res :
  0 ≤ t < 10 ^ 20 → 0 ≤ m < 10 ^ 20 → framed b res →
  let res' := if c then Response.set_header "Connection" (str "close") res
              else Response.set_header "Keep-Alive" (str "timeout=" ++ Ranges.to_string t ++ str ", max=" ++ Ranges.to_string m) res in
  framed b res' ∧
  ∀ key, different key "Connection" = true → different key "Keep-Alive" = true → header_of key res' = header_of key res.
Proof.
  intros Ht Hm Hf. destruct c.
  - destruct (framed_set b "Connection" (str "close") res ltac:(by vm_compute) Hf) as (F & H & _). split; [exact F|]. intros key Hk _. exact (H key Hk).
  - destruct (framed_set b "Keep-Alive" _ res (clean_keep_alive t m Ht Hm) Hf) as (F & H & _). split; [exact F|]. intros key _ Hk. exact (H key Hk).
Qed.

(** The length given to a response without content. *)
Lemma framed_no_content b res :
  framed b res →
  let res' := if negb (Response.has_header "Content-Length" res) && bool_decide (Response.body res = [])
              then Response.set_header "Content-Length" (str "0") res else res in
  framed b res' ∧ (∀ key, different key "Content-Length" = true ∨ b ≠ [] → header_of key res' = header_of key res) ∧
  (b = [] → header_of "Content-Length" res = None → header_of "Content-Length" res' = Some (Ranges.to_string 0)).
Proof.
  intros Hf. cbn zeta. rewrite (framed_body _ _ Hf).
  destruct (framed_set b "Content-Length" (str "0") res (clean_length 0 ltac:(lia)) Hf) as (H1 & H2 & H3).
  destruct (decide (b = [])) as [Hb|Hb].
  - rewrite (bool_decide_true (b = [])), andb_true_r by done.
    unfold Response.has_header, Headers.has_header. fold (header_of "Content-Length" res). case_bool_decide as Hh; cbn [negb].
    + split_and!; [done|done|]. intros _ Hn. rewrite Hn in Hh. by destruct Hh.
    + split_and!; [done| |intros _ Hn; apply H3; (done || by vm_compute)]. intros key [Hk|Hk]; [by apply H2|done].
  - by rewrite (bool_decide_false (b = [])), andb_false_r by done.
Qed.

(** The headers the server adds can be read; it does not change others, and gives a
    length to a response without content. *)
Lemma additional_framed srv close req b res :
  moderate srv → framed b res →
  framed b (additional_headers srv close req res) ∧
  (∀ key, forallb (different key) ["Connection"; "Keep-Alive"; "Content-Type"; "Accept-Ranges"]%string = true →
     different key "Content-Length" = true ∨ b ≠ [] → 
     header_of key (additional_headers srv close req res) = header_of key res) ∧
  (b = [] → header_of "Content-Length" res = None →
     header_of "Content-Length" (additional_headers srv close req res) = Some (Ranges.to_string 0)).
Proof.
  intros [Ht Hm] Hf. unfold additional_headers.
  destruct (framed_connection (close || bool_decide (Request.get_header_value "Connection" req = str "close")) b
    (keep_alive_timeout_sec_ srv) (Z.of_nat (keep_alive_max_count_ srv)) res Ht ltac:(lia) Hf) as [F1 H1].
  revert F1 H1. set (res1 := if close || _ then _ else _). clearbody res1. intros F1 H1.
  destruct (framed_step (negb (Response.has_header "Content-Type" res1) && bool_decide (Response.body res1 ≠ []))
    b "Content-Type" (str "text/plain") res1 ltac:(by vm_compute) F1) as [F2 H2]. revert F2 H2.
  set (res2 := if _ && _ then _ else res1). clearbody res2. intros F2 H2.
  destruct (framed_no_content b res2 F2) as (F3 & H3 & H3'). revert F3 H3 H3'.
  set (res3 := if _ && _ then _ else res2). clearbody res3. intros F3 H3 H3'.
  destruct (framed_step (negb (Response.has_header "Accept-Ranges" res3) && bool_decide (Request.method req = str "HEAD"))
    b "Accept-Ranges" (str "bytes") res3 ltac:(by vm_compute) F3) as [F4 H4].
  split; [done|]. split.
  - intros key Hk Hl. cbn [forallb] in Hk. rewrite !andb_true_iff in Hk. destruct Hk as (Hk1 & Hk2 & Hk3 & Hk4 & _).
    etransitivity; [exact (H4 _ Hk4)|]. etransitivity; [exact (H3 _ Hl)|]. etransitivity; [exact (H2 _ Hk3)|]. exact (H1 _ Hk1 Hk2).
  - intros Hb Hn. etransitivity; [apply H4; by vm_compute|]. apply H3'; [exact Hb|].
    etransitivity; [apply H2; by vm_compute|]. etransitivity; [apply H1; by vm_compute|exact Hn].
Qed.

Lemma number_no_crlf z : 0 ≤ z < 10 ^ 20 → Headers.has_crlf (c_str (Ranges.to_string z)) = false.
Proof.
  intros Hz. destruct (to_string_digits 20 z) as (Hd & _ & _); [lia|lia|].
  rewrite c_str_id by (eapply plain_not_in; [by apply plain_digits|set_solver]).
  apply bool_decide_eq_false. rewrite Exists_exists. intros (b & Hb & Hc).
  eapply Forall_forall in Hd; [|done]. unfold digit_byte in Hd. destruct Hc as [->| ->]; exact (proj1 Hd eq_refl).
Qed.

Lemma apply_no_ranges boundary req res :
  Request.ranges req = [] →
  apply_ranges boundary req res = if decide (Response.body res = []) then res else set_content_length res.
Proof. intros H. unfold apply_ranges. rewrite H. by destruct (Response.body res). Qed.

(** The response as it is written: with the length of the content. *)
Lemma prepared_framed srv boundary close req b res :
  moderate srv → Request.ranges req = [] → Z.of_nat (length b) < 2 ^ 64 →
  header_of "Content-Length" res = None → framed b res →
  let res' := additional_headers srv close req (apply_ranges boundary req res) in
  framed b res' ∧
  header_of "Content-Length" res' = Some (Ranges.to_string (Z.of_nat (length b))) ∧
  ∀ key, forallb (different key) added_names = true → header_of key res' = header_of key res.
Proof.
  intros Hs Hr Hl Hn Hf. cbn zeta. rewrite apply_no_ranges by done. rewrite (framed_body _ _ Hf).
  assert (Hkeys : ∀ key, forallb (different key) added_names = true →
    different key "Content-Length" = true ∧
    forallb (different key) ["Connection"; "Keep-Alive"; "Content-Type"; "Accept-Ranges"]%string = true).
  { intros key. cbn [forallb added_names]. rewrite !andb_true_iff. intros (H1 & H2 & H3 & H4 & H5 & _). auto 10. }
  destruct (decide (b = [])) as [Hb|Hb].
  - destruct (additional_framed srv close req b res Hs Hf) as (F & H1 & H2). split; [done|].
    split; [by rewrite H2, Hb|]. intros key Hk. apply Hkeys in Hk as [Hk1 Hk2]. apply H1; auto.
  - unfold set_content_length. rewrite (framed_body _ _ Hf).
    destruct (framed_set b "Content-Length" _ res (clean_length (Z.of_nat (length b)) ltac:(lia)) Hf) as (F & H1 & H2).
    destruct (additional_framed srv close req b _ Hs F) as (F' & H1' & _). split; [done|]. split.
    + rewrite H1' by auto. apply H2; [by vm_compute| |done].
      apply number_no_crlf; lia.
    + intros key Hk. apply Hkeys in Hk as [Hk1 Hk2]. rewrite H1', H1; auto.
Qed.

(** ** The theorem *)

(** A receiver that keeps what it is given. *)
Definition collect (data content : bytes) : bool * bytes := (true, content ++ data).

(** A content with its length is read, and nothing after it. *)
Lemma read_content_framed res b s rest :
  framed b res → Z.of_nat (length b) < 2 ^ 64 →
  header_of "Content-Length" res = Some (Ranges.to_string (Z.of_nat (length b))) →
  header_of "Transfer-Encoding" res = None → header_of "Content-Encoding" res = None →
  pending s = b ++ rest →
  ∃ s', Content.read_content collect (Response.headers res) (2 ^ 64 - 1) [] s = (None, b, s') ∧ pending s' = rest.
Proof.
  intros Hf Hb Hlen Hte Hce Hp. unfold header_of in *. unfold Content.read_content.
  assert (Content.refused_encoding (Response.headers res) = false) as ->.
  { unfold Content.refused_encoding, Headers.header_value. rewrite Hce. by vm_compute. }
  assert (Content.is_chunked_transfer_encoding (Response.headers res) = false) as ->.
  { unfold Content.is_chunked_transfer_encoding, Headers.header_value. rewrite Hte. by vm_compute. }
  assert (Headers.has_header (Response.headers res) (str "Content-Length") = true) as ->.
  { unfold Headers.has_header. rewrite Hlen. by apply bool_decide_eq_true. }
  unfold Headers.header_value_u64. rewrite Hlen, strtoull_to_string by lia. cbn [fst negb].
  destruct (Z.ltb_spec (2 ^ 64 - 1) (Z.of_nat (length b))) as [?|_]; [lia|].
  destruct (Z.ltb_spec 0 (Z.of_nat (length b))) as [H0|H0].
  - assert (Ht : takes collect (length (pending s)) id) by (intros q x _; done).
    destruct (with_length_text collect _ id Ht (Z.of_nat (length b)) [] s) as [E Hs]; [done|lia|].
    unfold text_length in E, Hs. rewrite Hp, length_app, decide_True in E, Hs by lia.
    rewrite Nat2Z.id, take_app_length in E. cbn [given fst snd app] in E, Hs. unfold id in E, Hs.
    destruct (Content.read_content_with_length collect (Z.of_nat (length b)) [] s) as [[ok q] s'].
    cbn [fst snd] in *. injection E as -> ->. exists s'. split; [done|].
    rewrite (same_pending _ _ Hs), pending_advance, Nat2Z.id, Hp. by rewrite drop_app_length.
  - destruct b as [|x b]; [|simpl in H0; lia]. eauto.
Qed.

Lemma status_message_line status : x0a ∉ str (Detail.status_message status).
Proof.
  unfold Detail.status_message.
  assert (H : Forall (λ x, x0a ∉ str x.2) Detail.status_messages) by (apply (bool_decide_unpack _); by vm_compute).
  destruct (list_find _ _) as [[i [z m]]|] eqn:E; [|by apply (bool_decide_unpack _); vm_compute].
  apply list_find_Some in E as [E _]. cbn. by apply (Forall_lookup_1 _ _ _ _ H E).
Qed.

Lemma read_status_line status s rest :
  0 ≤ status < 2 ^ 31 → pending s = status_line status ++ rest →
  ∃ l s', LineReader.getline 2048 s = (true, l, s') ∧ LineReader.line l = status_line status ∧ pending s' = rest.
Proof.
  intros Hs Hp.
  set (line := str "HTTP/1.1 " ++ Ranges.to_string status ++ str " " ++ str (Detail.status_message status) ++ [x0d]).
  assert (El : status_line status = line ++ [x0a]) by (unfold status_line, line; by rewrite <- !app_assoc).
  destruct (to_string_digits 20 status) as (Hd & _ & _); [lia|lia|].
  destruct (getline_line 2048 s line rest) as (l & E & Hl & Hr); [|by rewrite Hp, El|].
  - unfold line. rewrite !not_elem_of_app. split_and!; [by apply (bool_decide_unpack _); vm_compute| | | |].
    + eapply plain_not_in; [by apply plain_digits|set_solver].
    + by apply (bool_decide_unpack _); vm_compute.
    + apply status_message_line.
    + by apply (bool_decide_unpack _); vm_compute.
  - rewrite El. eauto.
Qed.

Lemma additional_status srv close req res :
  Response.status (additional_headers srv close req res) = Response.status res.
Proof. unfold additional_headers. by repeat case_match. Qed.

(** A response that is written is read. *)
Lemma read_written b status res s rest :
  framed b res → Z.of_nat (length b) < 2 ^ 64 → 0 ≤ status < 2 ^ 31 →
  header_of "Content-Length" res = Some (Ranges.to_string (Z.of_nat (length b))) →
  header_of "Transfer-Encoding" res = None → header_of "Content-Encoding" res = None →
  pending s = (status_line status ++ write_headers (Response.headers res) ++ b) ++ rest →
  ∃ l s1 s2 s3,
    LineReader.getline 2048 s = (true, l, s1) ∧ LineReader.line l = status_line status ∧
    Content.read_headers [] s1 = (true, Response.headers res, s2) ∧
    Content.read_content collect (Response.headers res) (2 ^ 64 - 1) [] s2 = (None, b, s3) ∧
    pending s3 = rest.
Proof.
  intros Hf Hb Hst Hlen Hte Hce Hp. rewrite <- !app_assoc in Hp.
  destruct (read_status_line _ _ _ Hst Hp) as (l & s1 & E1 & El & Hp1).
  destruct (write_read_headers _ _ _ (framed_ordered _ _ Hf) (framed_clean _ _ Hf) Hp1) as (s2 & E2 & Hp2).
  destruct (read_content_framed res b s2 rest Hf Hb Hlen Hte Hce Hp2) as (s3 & E3 & Hp3).
  exists l, s1, s2, s3. split_and!; assumption.
Qed.

(** C22. A response is read back as it was written, byte for byte: for every response
    with a status, whose headers are sorted, can be read ([clean]) and say nothing of
    the length or the coding of the content, on a server whose settings have at most
    twenty digits and whose handlers do not change the response afterwards, and for a
    request with another method than [HEAD] and without ranges: from what the server
    writes, followed by anything, in whatever segments it arrives, the library's own
    reader gets the status line, exactly the headers of the response, with those the
    server added, and the content, whose length [Content-Length] gives; what follows is
    left for the next reader. *)
Theorem response_framed srv boundary close req res :
  moderate srv → handle_error srv req res = Val (false, res) → post_routing_handler_ (hooks srv) = None →
  Request.method req ≠ str "HEAD" → Request.ranges req = [] → 0 ≤ Response.status res < 2 ^ 31 →
  framed (Response.body res) res → Z.of_nat (length (Response.body res)) < 2 ^ 64 →
  header_of "Content-Length" res = None → header_of "Transfer-Encoding" res = None →
  header_of "Content-Encoding" res = None →
  ∃ res', prepare_response boundary srv close req res true = Val res' ∧
    ∀ s rest, pending s = response_text req res' ++ rest →
    ∃ l s1 s2 s3,
      LineReader.getline 2048 s = (true, l, s1) ∧ LineReader.line l = status_line (Response.status res) ∧
      Content.read_headers [] s1 = (true, Response.headers res', s2) ∧
      Content.read_content collect (Response.headers res') (2 ^ 64 - 1) [] s2 = (None, Response.body res, s3) ∧
      pending s3 = rest.
Proof.
  intros Hm He Hpost Hhead Hr Hst Hf Hlen Hcl Hte Hce.
  destruct (prepared_framed srv boundary close req (Response.body res) res Hm Hr Hlen Hcl Hf) as (F & Hl & Hk).
  pose proof (Hk "Transfer-Encoding" ltac:(by vm_compute)) as Hte'. rewrite Hte in Hte'.
  pose proof (Hk "Content-Encoding" ltac:(by vm_compute)) as Hce'. rewrite Hce in Hce'.
  exists (additional_headers srv close req (apply_ranges boundary req res)). split.
  - unfold prepare_response. rewrite bool_decide_true by lia. cbn [JSON_ASSERT mbind outcome_bind].
    rewrite He. cbn [mbind outcome_bind]. by rewrite orb_true_r, Hpost.
  - intros s rest. unfold response_text. rewrite decide_False by exact Hhead. rewrite (framed_body _ _ F), additional_status.
    rewrite apply_no_ranges at 1 by exact Hr.
    assert ((Response.status (if decide (Response.body res = []) then res else set_content_length res)) = Response.status res)
      as -> by (by case_decide).
    exact (read_written _ _ _ s rest F Hlen Hst Hl Hte' Hce').
Qed.

Definition sample_answer : bytes := Eval vm_compute in hello_answer false false.

(** The answer to the sample request, in two segments. *)
Definition sample_stream : SocketStream.t :=
  Eval vm_compute in
    match sample_answer with
    | b :: bs =>
        match drop 20 bs with
        | c :: cs => SocketStream.make (Socket.Make 7 [Socket.Data b (take 20 bs); Socket.Data c cs] [] [])
        | [] => SocketStream.make (Socket.Make 7 [] [] [])
        end
    | [] => SocketStream.make (Socket.Make 7 [] [] [])
    end.

Lemma response_framed_witness :
  ∃ res' l s1 s2 s3,
    prepare_response [] (configured sample_server) false sample_request (hello_response sample_server) true = Val res' ∧
    LineReader.getline 2048 sample_stream = (true, l, s1) ∧ LineReader.line l = status_line 200 ∧
    Content.read_headers [] s1 = (true, Response.headers res', s2) ∧
    Content.read_content collect (Response.headers res') (2 ^ 64 - 1) [] s2 = (None, str "Hello, World!", s3) ∧
    pending s3 = [].
Proof.
  assert (Hf : framed (str "Hello, World!") (hello_response sample_server)).
  { split; [|apply Forall_cons_2; [by vm_compute|apply Forall_nil_2]|done].
    apply SSorted_cons; [apply SSorted_nil|apply Forall_nil_2]. }
  assert (Hm : moderate (configured sample_server)) by (split; [split|]; by vm_compute).
  destruct (response_framed (configured sample_server) [] false sample_request (hello_response sample_server) Hm
    eq_refl eq_refl ltac:(by vm_compute) eq_refl ltac:(by vm_compute) Hf ltac:(by vm_compute) eq_refl eq_refl eq_refl)
    as (res' & E & H).
  exists res'. destruct (H sample_stream []) as (l & s1 & s2 & s3 & H').
  - vm_compute in E. injection E as <-. by vm_compute.
  - exists l, s1, s2, s3. split; [exact E|exact H'].
Defined.
