(* ===== verification/HttpSafety.v ===== *)
(** * The server does not fail

    No bytes of a client make the server leave [process_request] by an exception or a
    failed assertion, which would end the process: what a route's handler throws is
    caught, and the hooks that are called outside the [try] block are the only ones
    that must not throw. *)

From S2P Require Import Prelude StdString Dtoa Json Regex HttpText HttpTextSpec HttpMessage HttpStream.
From S2P Require Import HttpMultipart HttpServer Http HttpAnswers.
From Stdlib Require Import Strings.Byte.

Open Scope Z_scope.

Import Server.

(** What the hooks outside the [try] block must keep to, and the assertion of the
    connection's loop. *)
Record tame (srv : Server.t) : Prop := {
  tame_count : keep_alive_max_count_ srv ≠ 0%nat;
  tame_error : ∀ f, error_handler_ (hooks srv) = Some f → ∀ req res, ∃ handled, (f req res).2 = inl handled;
  tame_post : ∀ f, post_routing_handler_ (hooks srv) = Some f → ∀ req res, (f req res).2 = None;
  tame_expect : ∀ f, expect_100_continue_handler_ (hooks srv) = Some f → ∀ req res,
    (f req res).2 = 100 ∨ (f req res).2 = 417 ∨ Response.status (f req res).1 ≠ -1;
}.

(** A result is a value. *)
Definition ok {A} (x : outcome A) : Prop := ∃ a, x = Val a.

Lemma ok_Val {A} (a : A) : ok (Val a).
Proof. by exists a. Qed.

Lemma ok_bind {A B} (x : outcome A) (f : A → outcome B) : ok x → (∀ a, ok (f a)) → ok (x ≫= f).
Proof. intros [a ->] Hf. apply Hf. Qed.

#[local] Hint Resolve ok_Val : core.

Section server.
Context (max_size : Z) (fs : Files.t) (boundary : bytes).
Context (remote : bytes * Z) (srv : Server.t).
Hypothesis Hsrv : tame srv.

Lemma prepare_ok close req res need : Response.status res ≠ -1 → ok (prepare_response boundary srv close req res need).
Proof.
  intros Hs. unfold prepare_response. rewrite bool_decide_true by done. cbn [JSON_ASSERT mbind outcome_bind].
  apply ok_bind.
  - unfold handle_error. destruct (_ <=? _); [|done]. destruct (error_handler_ (hooks srv)) as [f|] eqn:E; [|done].
    destruct (tame_error _ Hsrv f E req res) as [handled Hh]. destruct (f req res) as [? ?]. cbn in Hh. by subst.
  - intros [handled res']. destruct (post_routing_handler_ (hooks srv)) as [f|] eqn:E; [|done].
    match goal with |- context [f req ?r] => pose proof (tame_post _ Hsrv f E req r) as Hh; destruct (f req r) as [? ?] end.
    cbn in Hh. by subst.
Qed.

Lemma write_response_ok_value close req res need s :
  Response.status res ≠ -1 → ok (write_response_core boundary srv s close req res need).
Proof.
  intros Hs. apply ok_bind; [by apply prepare_ok|]. intros res'. by destruct (SocketStream.write_data _ s).
Qed.

Lemma refuse_ok close closed req res status s : status ≠ -1 → ok (refuse boundary srv close closed req res status s).
Proof. intros Hs. apply ok_bind; [by apply write_response_ok_value|]. by intros [ret s']. Qed.

Lemma handle_file_ok entries req head res : ok (handle_file_request max_size fs srv entries req head res).
Proof.
  induction entries as [|e entries IH]; [apply ok_Val|]. apply ok_bind.
  - unfold mounted_file. case_decide; [|done]. rewrite is_valid_path_level. cbn [mbind outcome_bind]. by destruct (bool_decide _).
  - intros [path|]; done.
Qed.

Lemma routing_ok req res s : ok (routing max_size fs srv req res s).
Proof.
  assert (H : ∀ res, ok (route_files max_size fs srv req res s)).
  { intros res'. unfold route_files. destruct (_ || _); [|done]. apply ok_bind; [apply handle_file_ok|].
    by intros [? [[]|]]. }
  unfold routing. destruct (pre_routing_handler_ (hooks srv)) as [f|]; [|done]. by destruct (f req res) as [? [[]|]].
Qed.

Lemma answer_ok close st : ok (answer boundary srv close st).
Proof.
  destruct st as [[[req res] routed] s]. unfold answer.
  match goal with |- ok (let '(a, b) := ?x in _) => destruct x as [routed' res'] end.
  destruct routed'; apply write_response_ok_value; case_decide; try done. by case_decide.
Qed.

Lemma process_routed_ok close closed req res s :
  ok (process_routed max_size fs boundary srv close closed req res s).
Proof.
  unfold process_routed, expect_continue. case_decide as He.
  - destruct (expect_100_continue_handler_ (hooks srv)) as [f|] eqn:E.
    + pose proof (tame_expect _ Hsrv f E req res) as H. destruct (f req res) as [res' status]. cbn [fst snd] in H.
      case_decide as Hs.
      * apply ok_bind; [apply routing_ok|]. intros st. apply ok_bind; [apply answer_ok|]. by intros [].
      * apply ok_bind; [apply write_response_ok_value; naive_solver|]. by intros [].
    + rewrite decide_True by auto. apply ok_bind; [apply routing_ok|]. intros st.
      apply ok_bind; [apply answer_ok|]. by intros [].
  - apply ok_bind; [apply routing_ok|]. intros st. apply ok_bind; [apply answer_ok|]. by intros [].
Qed.

Lemma process_headers_ok close req res s :
  ok (process_headers max_size fs boundary remote srv close req res s).
Proof.
  unfold process_headers. destruct (Request.has_header "Range" _); [|apply process_routed_ok].
  destruct (Ranges.parse_range_header _ _) as [[] ranges]; [apply process_routed_ok|by apply refuse_ok].
Qed.

Lemma process_request_ok close s : ok (process_request max_size fs boundary remote srv close s).
Proof.
  unfold process_request. destruct (LineReader.getline 2048 s) as [[[] l] s']; [|done].
  destruct (Socket.FD_SETSIZE <=? _).
  { destruct (Content.read_headers [] s') as [[? ?] ?]. by apply refuse_ok. }
  case_decide.
  { destruct (Content.read_headers [] s') as [[? ?] ?]. by apply refuse_ok. }
  destruct (parse_request_line _ _) as [[] req]; [|by apply refuse_ok].
  destruct (Content.read_headers _ s') as [[[] headers] s'']; [apply process_headers_ok|by apply refuse_ok].
Qed.

Lemma process_connection_ok running count ret sock :
  ok (process_server_socket_core max_size fs boundary running remote srv count ret sock).
Proof.
  revert ret sock. induction count as [|n IH]; intros ret sock; [apply ok_Val|]. cbn [process_server_socket_core].
  destruct (running (S n)); [|done]. destruct (Socket.select_read sock) as [[] sock']; [|done].
  apply ok_bind; [apply process_request_ok|]. intros [[ret' closed] s]. by destruct (_ || _).
Qed.

End server.

(** C23. Nothing a client does ends the process: whatever arrives on a connection, in
    whatever segments and with whatever failures, however sending the answers goes and
    whenever the server is stopped, the connection is processed to its end, without an
    exception that leaves the loop and without a failed assertion; this for every server, with any routes, whose handlers may throw, any files and any
    hooks, as long as the hooks called outside the [try] block do not throw, an
    [Expect] handler that refuses sets a status, and the number of requests of a
    connection is not set to 0. *)
Theorem server_never_fails max_size fs boundary running remote srv sock :
  tame srv → ok (process_and_close_socket max_size fs boundary running remote srv sock).
Proof.
  intros Hsrv. unfold process_and_close_socket. rewrite bool_decide_true by apply Hsrv.
  apply process_connection_ok, Hsrv.
Qed.

(** The server of the program is such a server. *)
Lemma configured_tame h : tame (configured h).
Proof. by split. Qed.

Lemma server_never_fails_witness :
  ok (process_and_close_socket 1000 Files.none [] (λ _, true) ([], 0) (configured sample_server)
        (Socket.Make 7 [Socket.Data x00 [x0d; x0a; xff]; Socket.Failure; Socket.Eof] [Some 3%nat; None] [])).
Proof. apply server_never_fails, configured_tame. Defined.
