(* ===== verification/HttpPool.v ===== *)
(** * cpp-httplib: the thread pool ([class ThreadPool] of [thirdpart/include/http/httplib.h])

    A step is what a thread does between two points at which another can intervene: a
    critical section, with the notification when it is sent under the lock. *)

From S2P Require Import Prelude.

Module ThreadPool.

(** A thread of the pool: about to lock the mutex and test the predicate; asleep on the
    condition variable; running a job; ended. *)
Inductive worker := Ready | Asleep | Running (sock : Z) | Ended.

#[export] Instance worker_eq_dec : EqDecision worker.
Proof. solve_decision. Defined.

(** A job is the connection it is for. *)
Record t := Make {
  jobs_ : list Z;
  shutdown_ : bool;
  threads_ : list worker;
}.

Definition make (n : nat) : t := Make [] false (replicate n Ready).

Definition set_thread (i : nat) (w : worker) (p : t) : t :=
  Make (jobs_ p) (shutdown_ p) (<[i := w]> (threads_ p)).

Definition asleep (w : worker) : bool := match w with Asleep => true | _ => false end.
Definition ready (w : worker) : bool := match w with Ready => true | _ => false end.

(** [enqueue]: one thread that sleeps is woken, if there is one. *)
Inductive enqueue (sock : Z) (p : t) : t → Prop :=
| wake_one i :
    threads_ p !! i = Some Asleep →
    enqueue sock p (Make (jobs_ p ++ [sock]) (shutdown_ p) (<[i := Ready]> (threads_ p)))
| wake_none :
    countb asleep (threads_ p) = 0 →
    enqueue sock p (Make (jobs_ p ++ [sock]) (shutdown_ p) (threads_ p)).

(** [shutdown]: the flag, and [notify_all]; then the threads are joined in order. *)
Definition set_shutdown (p : t) : t := Make (jobs_ p) true (threads_ p).
Definition wake (w : worker) : worker := match w with Asleep => Ready | _ => w end.
Definition notify_all (p : t) : t := Make (jobs_ p) (shutdown_ p) (wake <$> threads_ p).

(** What a step of a worker means for the connections. *)
Inductive event := Silent | Starts (sock : Z) | Ends (sock : Z) | Throws.

Section work.
(** The ways a job can end. *)
Context (job : Z → outcome () → Prop).

Inductive work (p : t) : event → t → Prop :=
| take_job i sock rest :
    threads_ p !! i = Some Ready → jobs_ p = sock :: rest →
    work p (Starts sock) (Make rest (shutdown_ p) (<[i := Running sock]> (threads_ p)))
| sleep i :
    threads_ p !! i = Some Ready → jobs_ p = [] → shutdown_ p = false →
    work p Silent (set_thread i Asleep p)
| leave i :
    threads_ p !! i = Some Ready → jobs_ p = [] → shutdown_ p = true →
    work p Silent (set_thread i Ended p)
| spurious i :
    threads_ p !! i = Some Asleep → work p Silent (set_thread i Ready p)
| job_ends i sock :
    threads_ p !! i = Some (Running sock) → job sock (Val ()) →
    work p (Ends sock) (set_thread i Ready p)
| job_throws i sock o :
    threads_ p !! i = Some (Running sock) → job sock o → o ≠ Val () →
    work p Throws p.

(** ** The connections being processed *)

Definition runs (w : worker) : list Z := match w with Running sock => [sock] | _ => [] end.
Definition running (p : t) : list Z := concat (runs <$> threads_ p).

Lemma runs_insert ws i w w' :
  ws !! i = Some w → concat (runs <$> <[i := w']> ws) ++ runs w ≡ₚ concat (runs <$> ws) ++ runs w'.
Proof.
  intros H. rewrite (insert_take_drop ws i w') by (by apply lookup_lt_Some in H).
  rewrite <- (take_drop_middle ws i w H) at 3. rewrite !fmap_app, !fmap_cons, !concat_app. cbn [concat].
  rewrite <- !app_assoc. f_equiv. rewrite !app_assoc. by rewrite (Permutation_app_comm (runs w')), <- app_assoc,
    (Permutation_app_comm (runs w')), app_assoc, (Permutation_app_comm _ (runs w)), <- app_assoc.
Qed.

(** ** No wakeup is lost *)

(** The count of the threads with [f] when the thread of [H] moves on to [w]. *)
Ltac moves f H w :=
  let E := fresh "E" in pose proof (countb_insert f _ _ _ w H) as E; cbn [f asleep ready Nat.b2n] in E.

(** While a thread sleeps there are at least as many threads under way to the test as
    there are jobs, and after the shutdown the notification has not been sent. *)
Definition wakeups (notified : bool) (p : t) : Prop :=
  0 < countb asleep (threads_ p) →
  if shutdown_ p then notified = false else length (jobs_ p) ≤ countb ready (threads_ p).

Lemma wakeups_make n : wakeups false (make n).
Proof. intros H. cbn. lia. Qed.

Lemma countb_wake ws : countb asleep (wake <$> ws) = 0.
Proof. apply countb_zero, Forall_fmap, Forall_true. by intros []. Qed.

Lemma wakeups_notify b p : wakeups b (notify_all p).
Proof. intros H. unfold notify_all in H. cbn [threads_] in H. rewrite countb_wake in H. lia. Qed.

Lemma wakeups_enqueue b sock p p' : wakeups b p → shutdown_ p = false → enqueue sock p p' → wakeups b p'.
Proof.
  unfold wakeups. intros H Hs [i Hi|H0]; cbn [threads_ jobs_ shutdown_]; rewrite Hs in *; [|lia].
  moves asleep Hi Ready. moves ready Hi Ready. rewrite length_app. cbn [length].
  pose proof (countb_pos asleep _ _ _ Hi eq_refl). specialize (H ltac:(done)). lia.
Qed.

Lemma wakeups_work b p e p' : wakeups b p → work p e p' → wakeups b p'.
Proof.
  unfold wakeups, set_thread. intros H [i sock rest Hi Hj|i Hi Hj Hs|i Hi Hj Hs|i Hi|i sock Hi Hj|]; cbn [set_thread threads_ jobs_ shutdown_];
    [| | | | |exact H]; intros Hpos.
  - moves asleep Hi (Running sock). moves ready Hi (Running sock). specialize (H ltac:(lia)). rewrite Hj in H.
    destruct (shutdown_ p); [done|]. cbn [length] in H. lia.
  - rewrite Hs, Hj. cbn. lia.
  - moves asleep Hi Ended. rewrite Hs in H |- *. apply H. lia.
  - moves asleep Hi Ready. moves ready Hi Ready. specialize (H ltac:(lia)). destruct (shutdown_ p); [done|lia].
  - moves asleep Hi Ready. moves ready Hi Ready. specialize (H ltac:(lia)). destruct (shutdown_ p); [done|lia].
Qed.

(** ** The end of the pool *)

Definition ended (w : worker) : bool := match w with Ended => true | _ => false end.

(** A thread ends after the shutdown, when no job is left. *)
Definition ends_last (p : t) : Prop :=
  0 < countb ended (threads_ p) → shutdown_ p = true ∧ jobs_ p = [].

Definition weight (w : worker) : nat := match w with Ended => 0 | Ready | Asleep => 1 | Running _ => 2 end.
(** What is left to do when no job is added. *)
Definition left (p : t) : nat := 2 * length (jobs_ p) + sum_list_with weight (threads_ p).


Lemma left_insert ws i w w' :
  ws !! i = Some w → sum_list_with weight (<[i := w']> ws) + weight w = sum_list_with weight ws + weight w'.
Proof.
  intros H. rewrite (insert_take_drop ws i w') by (by apply lookup_lt_Some in H).
  rewrite <- (take_drop_middle ws i w H) at 3. rewrite !sum_list_with_app. cbn. lia.
Qed.

Lemma ends_last_make n : ends_last (make n).
Proof. intros H. apply countb_pos_inv in H as (i & w & Hi & Hw). apply lookup_replicate in Hi as [-> _]. done. Qed.

Lemma ends_last_work p e p' : ends_last p → work p e p' → ends_last p'.
Proof.
  unfold ends_last, set_thread. intros H [i sock rest Hi Hj|i Hi Hj Hs|i Hi Hj Hs|i Hi|i sock Hi Hj|]; cbn [set_thread threads_ jobs_ shutdown_];
    [| | | | |exact H]; intros Hpos.
  - moves ended Hi (Running sock). destruct (H ltac:(lia)). congruence.
  - moves ended Hi Asleep. apply H. lia.
  - done.
  - moves ended Hi Ready. apply H. lia.
  - moves ended Hi Ready. apply H. lia.
Qed.

(** No step of a worker leaves more to do; going to sleep and waking leave as much, and
    are not possible when no thread sleeps after the shutdown. *)
Lemma left_work p e p' :
  work p e p' → left p' ≤ left p ∧ (shutdown_ p = true → countb asleep (threads_ p) = 0 → e = Throws ∨ left p' < left p).
Proof.
  unfold left. intros [i sock rest Hi Hj|i Hi Hj Hs'|i Hi Hj Hs'|i Hi|i sock Hi Hj|]; cbn [set_thread threads_ jobs_ shutdown_];
    [| | | | |by auto].
  - pose proof (left_insert _ _ _ (Running sock) Hi) as E. rewrite Hj. cbn [weight length] in *. split; [lia|right; lia].
  - pose proof (left_insert _ _ _ Asleep Hi) as E. cbn [weight] in *. split; [lia|congruence].
  - pose proof (left_insert _ _ _ Ended Hi) as E. cbn [weight] in *. split; [lia|right; lia].
  - pose proof (left_insert _ _ _ Ready Hi) as E. cbn [weight] in *. split; [lia|].
    intros _ H0. pose proof (countb_pos asleep _ _ _ Hi eq_refl). lia.
  - pose proof (left_insert _ _ _ Ready Hi) as E. cbn [weight] in *. split; [lia|right; lia].
Qed.

(** A thread that has not ended and does not sleep can go on. *)
Lemma work_goes_on p i w :
  (∀ sock, ∃ o, job sock o) → threads_ p !! i = Some w → w ≠ Ended → w ≠ Asleep → ∃ e p', work p e p'.
Proof.
  intros Hjob Hi Hw Ha. destruct w as [| |sock|]; [|done| |done].
  - destruct (jobs_ p) as [|sock rest] eqn:Hj; [|by eexists _, _; eapply take_job].
    destruct (shutdown_ p) eqn:Hs; eexists _, _; [by eapply leave|by eapply sleep].
  - destruct (Hjob sock) as [o Ho]. destruct (decide (o = Val ())) as [->|Hn]; eexists _, _; [by eapply job_ends|by eapply job_throws].
Qed.

Lemma left_enqueue sock p p' : enqueue sock p p' → left p' = left p + 2.
Proof.
  unfold left. intros [i Hi|_]; cbn [threads_ jobs_]; rewrite length_app; cbn [length]; [|lia].
  pose proof (left_insert _ _ _ Ready Hi) as E. cbn [weight] in E. lia.
Qed.

Lemma left_notify p : left (notify_all p) = left p.
Proof.
  unfold left, notify_all. cbn [threads_ jobs_]. f_equal. induction (threads_ p) as [|w ws IH]; [done|].
  rewrite fmap_cons. cbn. rewrite IH. by destruct w.
Qed.

(** [enqueue] is always possible. *)
Lemma enqueue_goes_on sock p : ∃ p', enqueue sock p p'.
Proof.
  destruct (decide (countb asleep (threads_ p) = 0)) as [H|H]; [by eexists; apply wake_none|].
  destruct (countb_pos_inv asleep (threads_ p)) as (i & w & Hi & Hw); [lia|]. destruct w; try done. by eexists; eapply wake_one.
Qed.

(** ** What the steps keep *)

Lemma running_make n : running (make n) = [].
Proof. unfold running. cbn. by induction n. Qed.

Lemma running_notify p : running (notify_all p) = running p.
Proof. unfold running, notify_all. cbn. f_equal. rewrite <- list_fmap_compose. by apply list_fmap_ext; intros ? [] _. Qed.

Lemma ended_wake ws : countb ended (wake <$> ws) = countb ended ws.
Proof. induction ws as [|w ws IH]; [done|]. rewrite fmap_cons, !countb_cons, IH. by destruct w. Qed.

(** [enqueue] adds a job. *)
Lemma enqueue_job_spec sock p p' :
  enqueue sock p p' →
  jobs_ p' = jobs_ p ++ [sock] ∧ shutdown_ p' = shutdown_ p ∧ running p' ≡ₚ running p ∧
  length (threads_ p') = length (threads_ p) ∧ countb ended (threads_ p') = countb ended (threads_ p).
Proof.
  intros [i Hi|H]; [|done]. unfold running. cbn [threads_ jobs_ shutdown_].
  pose proof (runs_insert _ _ _ Ready Hi) as Hr. cbn [runs] in Hr. rewrite !app_nil_r in Hr.
  moves ended Hi Ready. rewrite length_insert. split_and!; try done. lia.
Qed.

Lemma work_thread p e p' : work p e p' → 0 < length (threads_ p).
Proof. by intros [i ? ? H%lookup_lt_Some|i H%lookup_lt_Some|i H%lookup_lt_Some|i H%lookup_lt_Some|i ? H%lookup_lt_Some|i ? ? H%lookup_lt_Some]; lia. Qed.

(** The connections that are started and ended by a step of a worker. *)
Definition starts (e : event) : list Z := match e with Starts sock => [sock] | _ => [] end.
Definition finishes (e : event) : list Z := match e with Ends sock => [sock] | _ => [] end.

Lemma work_spec p e p' :
  work p e p' →
  jobs_ p = starts e ++ jobs_ p' ∧ running p' ++ finishes e ≡ₚ running p ++ starts e ∧
  shutdown_ p' = shutdown_ p ∧ length (threads_ p') = length (threads_ p) ∧
  ∀ j, threads_ p !! j = Some Ended → threads_ p' !! j = Some Ended.
Proof.
  assert (Hother : ∀ i w w', threads_ p !! i = Some w → w ≠ Ended →
    ∀ j, threads_ p !! j = Some Ended → <[i := w']> (threads_ p) !! j = Some Ended).
  { intros i w w' Hi Hw j Hj. rewrite list_lookup_insert_ne; [done|]. intros ->. congruence. }
  unfold running. intros [i sock rest Hi Hj|i Hi Hj Hs|i Hi Hj Hs|i Hi|i sock Hi Hj|];
    cbn [set_thread threads_ jobs_ shutdown_ starts finishes app]; rewrite ?length_insert;
    [| | | | |done]; (split_and!; [done| |done|done|by eapply Hother]).
  - pose proof (runs_insert _ _ _ (Running sock) Hi) as Hr. cbn [runs] in Hr. by rewrite !app_nil_r in *.
  - pose proof (runs_insert _ _ _ Asleep Hi) as Hr. cbn [runs] in Hr. by rewrite !app_nil_r in *.
  - pose proof (runs_insert _ _ _ Ended Hi) as Hr. cbn [runs] in Hr. by rewrite !app_nil_r in *.
  - pose proof (runs_insert _ _ _ Ready Hi) as Hr. cbn [runs] in Hr. by rewrite !app_nil_r in *.
  - pose proof (runs_insert _ _ _ Ready Hi) as Hr. cbn [runs] in Hr. by rewrite !app_nil_r in *.
Qed.

End work.
End ThreadPool.
