(* ===== verification/HttpListen.v ===== *)
(** * cpp-httplib: accepting connections ([thirdpart/include/http/httplib.h])

    The loop of [listen_internal] with the workers of its pool, and the threads that
    call [stop]; the last section puts the server of [HttpServer] into it.  A step is what a thread does between two points at which another can
    intervene: an access to an atomic member, a system call, a step of the pool. *)

From S2P Require Import Prelude StdString Regex HttpText HttpMessage HttpStream HttpMultipart HttpServer.
From S2P Require Import Http HttpAnswers HttpSafety HttpPool.

Open Scope nat_scope.

Module Listen.
Import ThreadPool.

(** The thread in [listen]: bound to its port; at the test of the loop; waiting for the
    server socket to be readable; about to call [accept]; in [accept] on the descriptor
    it has read; after an [accept] that failed; about to close the server socket; with a connection; in [shutdown]: at the
    flag, at the notification, joining; at the end. *)
Inductive listener :=
| Bound
| Loop
| Select
| Call
| Accept (fd : option Z)
| Failed
| Closing
| Accepted (sock : Z)
| Shutdown
| Notify
| Join (i : nat)
| Finish
| Returned.

(** A call of [stop]: at the test of [is_running_], at the assertion, at the exchange,
    with the descriptor it has taken, returned. *)
Inductive stopper := StopTest | StopAssert | StopExchange | StopClose (fd : option Z) | Stopped.

(** The members of the server: [None] is [INVALID_SOCKET].  [open]: whether the
    descriptor that was bound still listens. *)
Record server := MkServer { svr_sock_ : option Z; is_running_ : bool; open : bool }.

(** Records of the past: the connections in the order in which they were accepted, in
    which their processing began, and in which it ended and they were closed. *)
Record history := MkHistory { accepted : list Z; started : list Z; closed : list Z }.

(** [terminated]: an exception or an assertion ended the process. *)
Record t := Make {
  self : server;
  at_ : listener;
  ret : bool;
  pool : ThreadPool.t;
  stoppers : list stopper;
  terminated : bool;
  past : history;
}.

(** After [bind_internal]; the pool does not exist yet. *)
Definition bound (fd : Z) : t :=
  Make (MkServer (Some fd) false true) Bound true (ThreadPool.make 0) [] false (MkHistory [] [] []).

Definition goto (l : listener) (s : t) : t := Make (self s) l (ret s) (pool s) (stoppers s) (terminated s) (past s).
Definition with_self (x : server) (s : t) : t := Make x (at_ s) (ret s) (pool s) (stoppers s) (terminated s) (past s).
Definition with_ret (b : bool) (s : t) : t := Make (self s) (at_ s) b (pool s) (stoppers s) (terminated s) (past s).
Definition with_pool (p : ThreadPool.t) (s : t) : t :=
  Make (self s) (at_ s) (ret s) p (stoppers s) (terminated s) (past s).
Definition with_stoppers (sp : list stopper) (s : t) : t :=
  Make (self s) (at_ s) (ret s) (pool s) sp (terminated s) (past s).
Definition with_past (h : history) (s : t) : t := Make (self s) (at_ s) (ret s) (pool s) (stoppers s) (terminated s) h.
Definition terminate (s : t) : t := Make (self s) (at_ s) (ret s) (pool s) (stoppers s) true (past s).

Definition with_sock (fd : option Z) (x : server) : server := MkServer fd (is_running_ x) (open x).
Definition with_running (b : bool) (x : server) : server := MkServer (svr_sock_ x) b (open x).
Definition close_open (x : server) : server := MkServer (svr_sock_ x) (is_running_ x) false.

Definition note (e : event) (h : history) : history :=
  match e with
  | Starts sock => MkHistory (accepted h) (started h ++ [sock]) (closed h)
  | Ends sock => MkHistory (accepted h) (started h) (closed h ++ [sock])
  | Silent | Throws => h
  end.

Section listen.
(** Whether an [idle_interval_] is set, the number of threads, and the ways the
    processing of a connection can end. *)
Context (idle : bool) (size : nat) (job : Z → outcome () → Prop).

(** [listen_internal].  [accept] takes a connection while the descriptor listens; it can
    fail at any time, for want of descriptors or for another reason. *)
Inductive listen_step (s : t) : t → Prop :=
| enter_loop :
    at_ s = Bound →
    listen_step s (goto Loop (with_pool (ThreadPool.make size) (with_self (with_running true (self s)) s)))
| loop_on fd : at_ s = Loop → svr_sock_ (self s) = Some fd → listen_step s (goto (if idle then Select else Call) s)
| loop_end : at_ s = Loop → svr_sock_ (self s) = None → listen_step s (goto Shutdown s)
| select_timeout : at_ s = Select → listen_step s (goto Loop s)
| select_other : at_ s = Select → listen_step s (goto Call s)
| call_accept : at_ s = Call → listen_step s (goto (Accept (svr_sock_ (self s))) s)
| accept_one fd sock :
    at_ s = Accept (Some fd) → open (self s) = true →
    listen_step s (goto (Accepted sock)
      (with_past (MkHistory (accepted (past s) ++ [sock]) (started (past s)) (closed (past s))) s))
| accept_no_file fd : at_ s = Accept fd → listen_step s (goto Loop s)
| accept_error fd : at_ s = Accept fd → listen_step s (goto Failed s)
| failed_open fd : at_ s = Failed → svr_sock_ (self s) = Some fd → listen_step s (goto Closing s)
| failed_stopped : at_ s = Failed → svr_sock_ (self s) = None → listen_step s (goto Shutdown s)
| close_server fd :
    at_ s = Closing → svr_sock_ (self s) = Some fd →
    listen_step s (goto Shutdown (with_ret false (with_self (close_open (self s)) s)))
| close_nothing :
    at_ s = Closing → svr_sock_ (self s) = None → listen_step s (goto Shutdown (with_ret false s))
| enqueue_job sock p : at_ s = Accepted sock → enqueue sock (pool s) p → listen_step s (goto Loop (with_pool p s))
| shutdown_flag : at_ s = Shutdown → listen_step s (goto Notify (with_pool (set_shutdown (pool s)) s))
| shutdown_notify : at_ s = Notify → listen_step s (goto (Join 0) (with_pool (notify_all (pool s)) s))
| join_one i : at_ s = Join i → threads_ (pool s) !! i = Some Ended → listen_step s (goto (Join (S i)) s)
| join_done i : at_ s = Join i → threads_ (pool s) !! i = None → listen_step s (goto Finish s)
| finish_listen : at_ s = Finish → listen_step s (goto Returned (with_self (with_running false (self s)) s)).

(** [stop], one access after the other. *)
Inductive stop_step (s : t) : t → Prop :=
| stop_call : stop_step s (with_stoppers (stoppers s ++ [StopTest]) s)
| stop_not_running k :
    stoppers s !! k = Some StopTest → is_running_ (self s) = false →
    stop_step s (with_stoppers (<[k := Stopped]> (stoppers s)) s)
| stop_running k :
    stoppers s !! k = Some StopTest → is_running_ (self s) = true →
    stop_step s (with_stoppers (<[k := StopAssert]> (stoppers s)) s)
| stop_assert k fd :
    stoppers s !! k = Some StopAssert → svr_sock_ (self s) = Some fd →
    stop_step s (with_stoppers (<[k := StopExchange]> (stoppers s)) s)
| stop_assert_fails k :
    stoppers s !! k = Some StopAssert → svr_sock_ (self s) = None → stop_step s (terminate s)
| stop_exchange k :
    stoppers s !! k = Some StopExchange →
    stop_step s (with_stoppers (<[k := StopClose (svr_sock_ (self s))]> (stoppers s))
                   (with_self (with_sock None (self s)) s))
| stop_close k fd :
    stoppers s !! k = Some (StopClose fd) →
    stop_step s (with_stoppers (<[k := Stopped]> (stoppers s))
                   (match fd with Some _ => with_self (close_open (self s)) s | None => s end)).

Inductive pool_step (s : t) : t → Prop :=
| pool_work e p :
    work job (pool s) e p → e ≠ Throws → pool_step s (with_pool p (with_past (note e (past s)) s))
| pool_throws p : work job (pool s) Throws p → pool_step s (terminate s).

Inductive step (s : t) : t → Prop :=
| by_listener s' : terminated s = false → listen_step s s' → step s s'
| by_worker s' : terminated s = false → pool_step s s' → step s s'
| by_stop s' : terminated s = false → stop_step s s' → step s s'.

Definition reachable (s : t) : Prop := ∃ fd, rtc step (bound fd) s.

(** ** The invariant *)

Definition waiting (l : listener) : list Z := match l with Accepted sock => [sock] | _ => [] end.

(** Whether the shutdown flag is set, and the notification sent. *)
Definition flagged (l : listener) : bool := match l with Notify | Join _ | Finish | Returned => true | _ => false end.
Definition notified (l : listener) : bool := match l with Join _ | Finish | Returned => true | _ => false end.

(** The threads [shutdown] has joined. *)
Definition joined (l : listener) (ws : list worker) : Prop :=
  match l with
  | Join i => i ≤ length ws ∧ ∀ j, j < i → ws !! j = Some Ended
  | Finish | Returned => ∀ j, j < length ws → ws !! j = Some Ended
  | _ => True
  end.

Record inv (s : t) : Prop := {
  inv_queue : accepted (past s) = started (past s) ++ jobs_ (pool s) ++ waiting (at_ s);
  inv_running : started (past s) ≡ₚ running (pool s) ++ closed (past s);
  inv_flag : shutdown_ (pool s) = flagged (at_ s);
  inv_wakeups : wakeups (notified (at_ s)) (pool s);
  inv_ends : ends_last (pool s);
  inv_joined : joined (at_ s) (threads_ (pool s));
  inv_size : length (threads_ (pool s)) = (match at_ s with Bound => 0 | _ => size end);
  inv_bound : at_ s = Bound → jobs_ (pool s) = [] ∧ past s = MkHistory [] [] [];
  inv_run : is_running_ (self s) = match at_ s with Bound | Returned => false | _ => true end;
}.

Lemma inv_start fd : inv (bound fd).
Proof.
  split; try done.
  - apply wakeups_make.
  - apply ends_last_make.
Qed.

Lemma note_spec e h :
  accepted (note e h) = accepted h ∧ started (note e h) = started h ++ starts e ∧ closed (note e h) = closed h ++ finishes e.
Proof. destruct e; cbn; by rewrite ?app_nil_r. Qed.

Lemma inv_pool s s' : inv s → pool_step s s' → inv s'.
Proof.
  intros [H1 H2 H3 H4 H5 H6 H7 H8 H9] [e p Hw He|p Hw]; [|by split].
  destruct (work_spec job _ _ _ Hw) as (Hj & Hr & Hs & Hl & He'). destruct (note_spec e (past s)) as (N1 & N2 & N3).
  split; cbn [pool at_ past self with_pool with_past].
  - by rewrite N1, N2, H1, Hj, <- !app_assoc.
  - rewrite N2, N3, H2, <- app_assoc, (Permutation_app_comm (closed _)), app_assoc, <- Hr, <- app_assoc.
    by rewrite (Permutation_app_comm (finishes e)).
  - by rewrite Hs.
  - by eapply wakeups_work.
  - by eapply ends_last_work.
  - destruct (at_ s); cbn [joined] in *; rewrite ?Hl; try done; [|auto..]. destruct H6. split; auto.
  - by rewrite Hl.
  - intros Hb. rewrite Hb in H7. pose proof (work_thread job _ _ _ Hw). lia.
  - done.
Qed.

Lemma inv_stop s s' : inv s → stop_step s s' → inv s'.
Proof. intros [H1 H2 H3 H4 H5 H6 H7 H8 H9] []; [by split..|]. by destruct fd; split. Qed.

(** In the loop: nothing but the place changes. *)
Definition looping (l : listener) : bool :=
  match l with Loop | Select | Call | Accept _ | Failed | Closing | Shutdown => true | _ => false end.

Lemma inv_goto l s : inv s → looping (at_ s) = true → looping l = true → inv (goto l s).
Proof.
  intros [H1 H2 H3 H4 H5 H6 H7 H8 H9] Hs Hl.
  split; cbn [pool at_ past self goto]; destruct (at_ s); try done; destruct l; try done.
Qed.

(** The members after a step. *)
Ltac fields :=
  cbn [pool at_ past self goto with_pool with_self with_past with_ret with_running close_open is_running_
       accepted started closed joined waiting flagged notified].

Lemma inv_listen s s' : inv s → listen_step s s' → inv s'.
Proof.
  intros Hi Hst. pose proof Hi as [H1 H2 H3 H4 H5 H6 H7 H8 H9].
  destruct Hst as [E|fd E|E|E|E|E|fd sock E Ho|fd E|fd E|fd E|E|fd E|E|sock p E He|E|E|i E Hi'|i E Hi'|E];
    rewrite E in *; try (apply inv_goto; [exact Hi|by rewrite E|by destruct idle]); cbn [waiting flagged notified] in *.
  - destruct (H8 eq_refl) as [Hj Hp]. split; fields; rewrite ?Hp; try done.
    + by rewrite running_make.
    + apply wakeups_make.
    + apply ends_last_make.
    + apply length_replicate.
  - split; fields; try done. by rewrite H1, <- !app_assoc.
  - split; fields; try done; by rewrite ?H9.
  - split; fields; try done; by rewrite ?H9.
  - destruct (enqueue_job_spec _ _ _ He) as (Ej & Es & Er & El & Ee). split; fields; try done.
    + by rewrite H1, Ej, app_nil_r.
    + by rewrite Er.
    + by rewrite Es.
    + by eapply wakeups_enqueue.
    + unfold ends_last. rewrite Ee, Es. intros Hpos. destruct (H5 Hpos). congruence.
    + by rewrite El.
  - split; fields; try done. intros Hpos. destruct (H5 Hpos). congruence.
  - split; fields; try done.
    + by rewrite running_notify.
    + apply wakeups_notify.
    + unfold ends_last, notify_all. cbn [threads_ shutdown_ jobs_]. by rewrite ended_wake.
    + split; [lia|]. intros j Hj. lia.
    + unfold notify_all. cbn [threads_]. by rewrite length_fmap.
  - split; fields; try done. destruct H6 as [H6 Hj]. apply lookup_lt_Some in Hi' as Hlt. split; [lia|].
    intros j Hlt'. destruct (decide (j = i)) as [->|]; [done|]. apply Hj. lia.
  - split; fields; try done. destruct H6 as [H6 Hj]. apply lookup_ge_None in Hi'. intros j Hlt. apply Hj. lia.
  - by split.
Qed.

Lemma inv_step s s' : inv s → step s s' → inv s'.
Proof. intros Hi []; eauto using inv_listen, inv_pool, inv_stop. Qed.

Lemma listen_reachable_inv s : reachable s → inv s.
Proof. intros [fd Hr]. eapply (preserved_rtc step inv); [intros ? ? ? ?; by eapply inv_step|exact Hr|apply inv_start]. Qed.

(** ** The end of [listen] *)

(** How far the listening thread is from the end, once the server socket is closed. *)
Definition distance (n : nat) (l : listener) : nat :=
  match l with
  | Returned => 0
  | Finish => 1
  | Join i => 2 + (n - i)
  | Notify => 3 + n
  | Shutdown => 4 + n
  | Loop | Closing => 5 + n
  | Failed => 6 + n
  | Accept _ => 7 + n
  | Call => 8 + n
  | Select | Accepted _ | Bound => 9 + n
  end.
Definition remaining (s : t) : nat := distance size (at_ s) + left (pool s).

(** [stop] has been called and has returned, while the server was listening. *)
Definition stopped (s : t) : Prop := at_ s ≠ Bound ∧ svr_sock_ (self s) = None ∧ open (self s) = false.

Lemma remaining_listen s s' : inv s → stopped s → listen_step s s' → stopped s' ∧ remaining s' < remaining s.
Proof.
  intros [H1 H2 H3 H4 H5 H6 H7 H8 H9] (Hb & Hs & Ho) Hst. unfold stopped, remaining.
  destruct Hst as [E|fd E|E|E|E|E|fd sock E Ho'|fd E|fd E|fd E|E|fd E|E|sock p E He|E|E|i E Hi'|i E Hi'|E];
    try congruence; fields; rewrite ?E in *; cbn [distance svr_sock_ open]; try (split; [done|lia]).
  - split; [done|]. rewrite (left_enqueue _ _ _ He). lia.
  - split; [done|]. change (left (set_shutdown (pool s))) with (left (pool s)). lia.
  - split; [done|]. rewrite left_notify. lia.
  - split; [done|]. apply lookup_lt_Some in Hi'. lia.
Qed.

Lemma remaining_pool s s' :
  inv s → stopped s → pool_step s s' →
  stopped s' ∧ remaining s' ≤ remaining s ∧
  (notified (at_ s) = true → terminated s' = true ∨ remaining s' < remaining s).
Proof.
  intros [H1 H2 H3 H4 H5 H6 H7 H8 H9] Hst [e p Hw He|p Hw]; (split; [exact Hst|]); unfold remaining; fields; [|by auto].
  destruct (left_work job _ _ _ Hw) as [Hl Hd]. split; [lia|]. intros Hn. right.
  destruct Hd as [|Hd]; [by rewrite H3; destruct (at_ s)| |done|lia].
  unfold wakeups in H4. rewrite Hn, H3 in H4. destruct (at_ s); try done; cbn [flagged] in H4;
    (destruct (decide (countb asleep (threads_ (pool s)) = 0)); [done|]; discriminate (H4 ltac:(lia))).
Qed.

Lemma remaining_goes_on s :
  inv s → stopped s → (∀ sock, ∃ o, job sock o) → at_ s ≠ Returned →
  ∃ s', (listen_step s s' ∨ pool_step s s') ∧ (terminated s' = true ∨ remaining s' < remaining s).
Proof.
  intros Hi Hst Hjob Hr. pose proof Hi as [H1 H2 H3 H4 H5 H6 H7 H8 H9]. pose proof Hst as (Hb & Hs & Ho).
  assert (Hl : ∀ s', listen_step s s' → ∃ s', (listen_step s s' ∨ pool_step s s') ∧ (terminated s' = true ∨ remaining s' < remaining s)).
  { intros s' Hl. exists s'. split; [by left|]. right. by apply remaining_listen. }
  destruct (at_ s) eqn:E; try done.
  - eapply Hl. by apply loop_end.
  - eapply Hl. by apply select_timeout.
  - eapply Hl. by apply call_accept.
  - eapply Hl. by eapply accept_error.
  - eapply Hl. by apply failed_stopped.
  - eapply Hl. by apply close_nothing.
  - destruct (enqueue_goes_on sock (pool s)) as [p Hp]. eapply Hl. by eapply enqueue_job.
  - eapply Hl. by apply shutdown_flag.
  - eapply Hl. by apply shutdown_notify.
  - destruct (threads_ (pool s) !! i) as [w|] eqn:Hw; [|eapply Hl; by eapply join_done].
    destruct (decide (w = Ended)) as [->|He]; [eapply Hl; by eapply join_one|].
    destruct (work_goes_on job (pool s) i w) as (e & p & Hwork); try done.
    { intros ->. cbn in H3, H4. unfold wakeups in H4. rewrite H3 in H4.
      discriminate (H4 (countb_pos asleep _ _ _ Hw eq_refl)). }
    assert (Hp : ∃ s', pool_step s s').
    { destruct e; [..|by eexists; eapply pool_throws]; eexists; by eapply pool_work. }
    destruct Hp as [s' Hp]. exists s'. split; [by right|]. eapply remaining_pool; [done|done|done|by rewrite E].
  - eapply Hl. by apply finish_listen.
Qed.

(** When [listen] returns, every connection it accepted has been processed and closed. *)
Lemma returned_closed s :
  inv s → 0 < size → at_ s = Returned →
  is_running_ (self s) = false ∧ jobs_ (pool s) = [] ∧ closed (past s) ≡ₚ accepted (past s).
Proof.
  intros [H1 H2 H3 H4 H5 H6 H7 H8 H9] Hn E. rewrite E in *. cbn [joined waiting] in *.
  assert (He : Forall (λ w, w = Ended) (threads_ (pool s))).
  { apply Forall_lookup_2. intros j w Hj. specialize (H6 j (lookup_lt_Some _ _ _ Hj)). congruence. }
  assert (Hrun : running (pool s) = []).
  { unfold running. clear -He. induction He as [|w ws -> _ IH]; [done|]. by rewrite fmap_cons. }
  destruct (threads_ (pool s)) as [|w ws] eqn:Ew; [cbn in H7; lia|].
  destruct H5 as [_ Hj]; [rewrite Ew; apply Forall_cons in He as [-> _]; rewrite countb_cons; cbn; lia|].
  split; [done|]. split; [done|]. by rewrite H1, Hj, H2, Hrun, !app_nil_r.
Qed.

End listen.
End Listen.

Import ThreadPool Listen.

(** C24. Every connection is served once, in order: at any moment of any interleaving of
    the accepting thread, the workers and the threads that call [stop], with sleeping
    threads that wake up on their own, jobs that throw and calls of [accept] that fail,
    the connections accepted so far are those whose processing has begun, in the order
    in which they came, then those in the queue, then the one not yet enqueued; those
    whose processing has begun are those a worker is busy with and those that were
    closed, none twice; while a worker sleeps the others on their way to the queue are
    at least as many as the jobs in it, until the shutdown wakes all; and when [listen]
    has returned, and the pool has threads, every accepted connection was processed
    and closed. *)
Theorem connections_served_once idle size job s :
  reachable idle size job s →
  accepted (past s) = started (past s) ++ jobs_ (pool s) ++ waiting (at_ s) ∧
  started (past s) ≡ₚ running (pool s) ++ closed (past s) ∧
  (0 < countb asleep (threads_ (pool s)) →
     if shutdown_ (pool s) then at_ s = Notify else length (jobs_ (pool s)) ≤ countb ready (threads_ (pool s))) ∧
  (at_ s = Returned → 0 < size →
     is_running_ (self s) = false ∧ jobs_ (pool s) = [] ∧ closed (past s) ≡ₚ accepted (past s)).
Proof.
  intros Hr. pose proof (listen_reachable_inv _ _ _ _ Hr) as Hi. split; [apply Hi|]. split; [apply Hi|]. split.
  - intros Ha. pose proof (inv_wakeups _ _ Hi Ha) as Hw. pose proof (inv_flag _ _ Hi) as Hf.
    destruct (shutdown_ (pool s)); [|done]. by destruct (at_ s).
  - intros E Hn. by eapply returned_closed.
Qed.

(** ** The server in the loop *)

Section serve.
Context (max_size : Z) (fs : Files.t) (boundary : bytes).
Context (remote : bytes * Z) (srv : Server.t) (connection : Z → Socket.t).

(** A job is [process_and_close_socket], for whatever the other threads do to the
    server socket meanwhile. *)
Definition serve (sock : Z) (o : outcome ()) : Prop :=
  ∃ running, o = (Server.process_and_close_socket max_size fs boundary running remote srv (connection sock)
                    ≫= λ _, Val ()).

Lemma serve_ends sock o : tame srv → serve sock o → o = Val ().
Proof.
  intros Hs [running ->].
  destruct (process_connection_ok max_size fs boundary remote srv Hs running
    (Server.keep_alive_max_count_ srv) false (connection sock)) as [r E].
  unfold Server.process_and_close_socket. rewrite bool_decide_true by apply Hs. cbn [Dtoa.JSON_ASSERT mbind outcome_bind].
  by rewrite E.
Qed.

Lemma serve_goes_on sock : ∃ o, serve sock o.
Proof. by exists (Server.process_and_close_socket max_size fs boundary (λ _, true) remote srv (connection sock) ≫= λ _, Val ()), (λ _, true). Qed.

Lemma serve_never_throws p p' : tame srv → ¬ work serve p Throws p'.
Proof. intros Hs Hw. inversion Hw as [| | | | |i sock o _ Ho Hn]. by apply Hn, (serve_ends sock). Qed.

End serve.

(** C25. After [stop], [listen] returns: take a server that keeps to the rules of
    [server_never_fails], any state its threads can reach, and suppose that a call of
    [stop] has closed the server socket.  Then whatever the accepting thread or a worker
    does next leaves no more to do than before, and does not end the process; from the
    notification of the shutdown on it leaves less; as long as [listen] has not
    returned one of them can do something that leaves less; and when it has returned
    all accepted connections, the waiting ones included, have been processed and
    closed. *)
Theorem listen_ends max_size fs boundary remote srv connection idle size s :
  let job := serve max_size fs boundary remote srv connection in
  tame srv → reachable idle size job s → stopped s → terminated s = false → 0 < size →
  (∀ s', listen_step idle size s s' ∨ pool_step job s s' →
     terminated s' = false ∧ stopped s' ∧ remaining size s' ≤ remaining size s ∧
     (notified (at_ s) = true → remaining size s' < remaining size s)) ∧
  (at_ s ≠ Returned → ∃ s', (listen_step idle size s s' ∨ pool_step job s s') ∧ remaining size s' < remaining size s) ∧
  (at_ s = Returned → jobs_ (pool s) = [] ∧ closed (past s) ≡ₚ accepted (past s)).
Proof.
  intros job Hs Hr Hst Ht Hn. pose proof (listen_reachable_inv _ _ _ _ Hr) as Hi.
  assert (Hpool : ∀ s', pool_step job s s' → terminated s' = false).
  { intros s' [e p Hw He|p Hw]; [done|]. by apply serve_never_throws in Hw. }
  assert (Hstep : ∀ s', listen_step idle size s s' ∨ pool_step job s s' → terminated s' = false).
  { intros s' [[]|Hp]; [done..|auto]. }
  split; [|split].
  - intros s' H. split; [auto|]. destruct H as [H|H].
    + destruct (remaining_listen _ _ _ _ Hi Hst H). split; [done|]. split; [lia|auto].
    + destruct (remaining_pool _ _ _ _ Hi Hst H) as (H1 & H2 & H3). split; [done|]. split; [done|].
      intros Hnot. destruct (H3 Hnot) as [Hterm|]; [|done]. rewrite Hpool in Hterm by done. done.
  - intros Hnr. destruct (remaining_goes_on idle size job s Hi Hst) as (s' & H & [Hterm|Hl]); [|done| |by eauto].
    + intros sock. apply serve_goes_on.
    + rewrite Hstep in Hterm by done. done.
  - intros E. by destruct (returned_closed _ _ Hi Hn E) as (_ & ? & ?).
Qed.

(** ** A run *)

(** One worker is busy with a connection, and [stop] has closed the server socket. *)
Definition sample_run : Listen.t :=
  Listen.Make (MkServer None true false) Loop true (ThreadPool.Make [] false [Running 9%Z]) [Stopped] false
    (MkHistory [9%Z] [9%Z] []).

(** A step of the run, by its rule. *)
Tactic Notation "take" uconstr(rule) := eapply rtc_l; [first [apply by_listener; [done|by eapply rule]|apply by_stop; [done|by eapply rule]]|].

Lemma sample_run_reachable job : reachable false 1 job sample_run.
Proof.
  exists 5%Z. take enter_loop. take loop_on. take call_accept.
  take (accept_one _ _ _ 5%Z 9%Z).
  eapply rtc_l; [apply by_listener; [done|eapply enqueue_job; [done|by apply wake_none]]|].
  eapply rtc_l; [apply by_worker; [done|eapply pool_work; [by apply (take_job _ _ 0 9%Z [])|done]]|].
  take stop_call. take (stop_running _ 0).
  take (stop_assert _ 0 5%Z).
  take (stop_exchange _ 0).
  take (stop_close _ 0 (Some 5%Z)).
  apply rtc_refl.
Qed.

Lemma connections_served_once_witness :
  accepted (past sample_run) = [9%Z] ∧ started (past sample_run) ≡ₚ running (pool sample_run) ++ closed (past sample_run).
Proof.
  destruct (connections_served_once false 1 (λ _ o, o = Val ()) sample_run (sample_run_reachable _)) as (_ & H & _).
  split; [done|exact H].
Defined.

Lemma listen_ends_witness :
  ∃ s', (listen_step false 1 sample_run s' ∨
         pool_step (serve 1000 Files.none [] ([], 0%Z) (configured sample_server)
                      (λ sock, Socket.Make sock [] [] [])) sample_run s') ∧
        remaining 1 s' < remaining 1 sample_run.
Proof.
  destruct (listen_ends 1000 Files.none [] ([], 0%Z) (configured sample_server)
    (λ sock, Socket.Make sock [] [] []) false 1 sample_run (configured_tame _) (sample_run_reachable _)) as (_ & H & _).
  - by split_and!.
  - done.
  - lia.
  - by apply H.
Defined.

(** ** Two calls of [stop] *)

(** A call between [bind_to_port] and [listen_internal] returns and stops nothing. *)
Lemma stop_before_listen idle size job :
  ∃ s, reachable idle size job s ∧ stoppers s = [Stopped] ∧ at_ s = Loop ∧ svr_sock_ (self s) ≠ None.
Proof.
  eexists. split; [exists 5%Z|].
  - take stop_call. take (stop_not_running _ 0).
    take enter_loop. apply rtc_refl.
  - done.
Qed.

(** A second call before [listen] has returned fails the assertion. *)
Lemma stop_twice size job :
  ∃ s, reachable false size job s ∧ stoppers s = [Stopped; StopAssert] ∧ terminated s = true.
Proof.
  eexists. split; [exists 5%Z|].
  - take enter_loop. take stop_call. take (stop_running _ 0).
    take (stop_assert _ 0 5%Z).
    take (stop_exchange _ 0).
    take (stop_close _ 0 (Some 5%Z)).
    take stop_call. take (stop_running _ 1).
    take (stop_assert_fails _ 1). apply rtc_refl.
  - done.
Qed.
