(* ===== verification/HttpForm.v ===== *)
(** * Forms ([thirdpart/include/http/httplib.h])

    A form as the library's client writes it ([ClientImpl::Post] with items), and the
    proof that the server's parser, given the whole of it, finds exactly the items. *)

From S2P Require Import Prelude StdString Json Regex HttpText HttpTextSpec HttpMessage HttpStream HttpMultipart HttpServer.
From Stdlib Require Import Strings.Byte.

Open Scope nat_scope.

Import Multipart.

(** ** Writing a form *)

Definition boundary_char (c : byte) : bool := Detail.isalnum c || bool_decide (c ∈ str "-_").

Definition disposition (item : MultipartFormData) : bytes :=
  str "Content-Disposition: form-data; name=" ++ [x22] ++ form_name item ++ [x22] ++
  match form_filename item with [] => [] | f => str "; filename=" ++ [x22] ++ f ++ [x22] end.
Definition type_line (item : MultipartFormData) : bytes :=
  match form_content_type item with [] => [] | t => str "Content-Type: " ++ t ++ crlf_ end.
Definition item_text (boundary : bytes) (item : MultipartFormData) : bytes :=
  (str "--" ++ boundary ++ crlf_) ++ disposition item ++ crlf_ ++ type_line item ++ crlf_ ++ form_content item ++ crlf_.

(** The body and its content type; no request when the boundary has other characters. *)
Definition post_form (items : list MultipartFormData) (boundary : bytes) : option (bytes * bytes) :=
  if forallb boundary_char boundary then
    Some (concat (item_text boundary <$> items) ++ str "--" ++ boundary ++ str "--" ++ crlf_,
          str "multipart/form-data; boundary=" ++ boundary)
  else None.

(** ** The header of an item *)

Section regex.
Context {A : Type}.
Implicit Types k : bytes → Regex.captures → option A.

Lemma go_icase p s caps k : Regex.go (Regex.literal Regex.chr_icase p) (p ++ s) caps k = k s caps.
Proof. induction p as [|b p IH]; [done|]. cbn. by rewrite Z.eqb_refl. Qed.

(** One blank before another character. *)
Lemma go_blank b s caps k x :
  Regex.is_space b = false → k (b :: s) caps = Some x →
  Regex.go (Regex.star Regex.space) (x20 :: b :: s) caps k = Some x.
Proof. intros Hb Hk. cbn. rewrite decide_True by lia. cbn. by rewrite Hb, Hk. Qed.

Lemma go_no_blank caps k : Regex.go (Regex.star Regex.space) [] caps k = k [] caps.
Proof. done. Qed.

(** A text without quotes, then a quote, when what follows needs a quote. *)
Lemma go_lazy n s0 caps k x :
  Forall (λ b, b ≠ x22 ∧ b ≠ x0a ∧ b ≠ x0d) n → k (x22 :: s0) caps = Some x →
  (∀ b s, b ≠ x22 → k (b :: s) caps = None) →
  Regex.go (Regex.Star false Regex.any) (n ++ x22 :: s0) caps k = Some x.
Proof.
  intros Hn Hk Hno. cbn. set (rounds := fix rounds (m : nat) s caps := _).
  assert (H : ∀ m, length (n ++ x22 :: s0) ≤ m → rounds m (n ++ x22 :: s0) caps = Some x); [|by apply H].
  induction Hn as [|b n (H1 & H2 & H3) Hn IH]; intros m Hm.
  - destruct m; cbn; by rewrite Hk.
  - destruct m as [|m]; [simpl in Hm; lia|]. cbn. rewrite Hno by done. cbn.
    rewrite bool_decide_true by done. rewrite decide_True by lia. apply IH. simpl in *. lia.
Qed.

(** A quoted text, captured. *)
Lemma go_quoted g n s caps k x rs :
  Forall (λ b, b ≠ x22 ∧ b ≠ x0a ∧ b ≠ x0d) n →
  Regex.go (Regex.seq rs) s ((g, n) :: caps) k = Some x →
  Regex.go (Regex.seq (Regex.seq [Regex.chr x22; Regex.Group g (Regex.Star false Regex.any); Regex.chr x22] :: rs))
    (x22 :: n ++ x22 :: s) caps k = Some x.
Proof.
  intros Hn Hk. unfold Regex.seq at 1. cbn [foldr]. fold (Regex.seq rs). 
  cbn [Regex.go Regex.seq foldr Regex.chr]. rewrite bool_decide_true by done.
  apply go_lazy; [done| |].
  - cbn [Regex.go]. rewrite bool_decide_true by done.
    replace (length (n ++ x22 :: s) - length (x22 :: s)) with (length n) by (rewrite length_app; lia).
    by rewrite take_app_length.
  - intros b s' Hb. cbn [Regex.go]. by rewrite bool_decide_false.
Qed.

Lemma go_seq_text p rs s caps k :
  Regex.go (Regex.seq (Regex.literal Regex.chr_icase p :: rs)) (p ++ s) caps k = Regex.go (Regex.seq rs) s caps k.
Proof. exact (go_icase p s caps (λ s caps, Regex.go (Regex.seq rs) s caps k)). Qed.

Lemma go_seq_blank rs b s caps k x :
  Regex.is_space b = false → Regex.go (Regex.seq rs) (b :: s) caps k = Some x →
  Regex.go (Regex.seq (Regex.star Regex.space :: rs)) (x20 :: b :: s) caps k = Some x.
Proof. intros Hb Hk. by apply (go_blank b s caps (λ s caps, Regex.go (Regex.seq rs) s caps k)). Qed.

Lemma go_seq_opt r rs s caps k x :
  Regex.go r s caps (λ s caps, Regex.go (Regex.seq rs) s caps k) = Some x →
  Regex.go (Regex.seq (Regex.opt r :: rs)) s caps k = Some x.
Proof.
  intros H. change (Regex.first_of (Regex.go r s caps (λ s caps, Regex.go (Regex.seq rs) s caps k))
    (Regex.go (Regex.seq rs) s caps k) = Some x). by rewrite H.
Qed.
End regex.

(** A text that can be written in quotes. *)
Definition quotable (s : bytes) : Prop := Forall (λ b, b ≠ x22 ∧ b ≠ x0a ∧ b ≠ x0d) s.

(** The ends of [disposition] and of the pattern. *)
Definition filename_text (item : MultipartFormData) : bytes :=
  match form_filename item with [] => [] | f => str "; filename=" ++ [x22] ++ f ++ [x22] end.

Definition quoted_group (n : nat) : Regex.t :=
  Regex.seq [Regex.chr x22; Regex.Group n (Regex.Star false Regex.any); Regex.chr x22].
Definition re_filename : list Regex.t :=
  let lit s := Regex.literal Regex.chr_icase (str s) in
  [ Regex.opt (Regex.seq [lit ";"; Regex.star Regex.space; lit "filename="; quoted_group 2]);
    Regex.opt (Regex.seq [lit ";"; Regex.star Regex.space; lit "filename*="; Regex.plus Regex.nonspace]);
    Regex.star Regex.space ]%string.

Definition at_end (s : bytes) (caps : Regex.captures) : option Regex.captures := if decide (s = []) then Some caps else None.

Lemma filename_match item n :
  quotable (form_filename item) →
  ∃ m, Regex.go (Regex.seq re_filename) (filename_text item) [(1, n)] at_end = Some m ∧
    Regex.group 1 m = n ∧ Regex.group 2 m = form_filename item.
Proof.
  intros Hf. unfold filename_text. destruct (form_filename item) as [|c f] eqn:Ef.
  - exists [(1, n)]. done.
  - rewrite <- Ef in *. exists [(2, form_filename item); (1, n)]. split; [|done].
    apply go_seq_opt. etransitivity; [apply (go_seq_text (str ";") _ (x20 :: str "filename=" ++ x22 :: form_filename item ++ [x22]))|].
    apply (go_seq_blank _ "f"%byte (str "ilename=" ++ x22 :: form_filename item ++ [x22])); [done|].
    etransitivity; [apply (go_seq_text (str "filename="))|].
    by apply (go_quoted 2 _ [] _ _ _ []).
Qed.

Lemma disposition_match item :
  quotable (form_name item) → quotable (form_filename item) →
  ∃ m, Regex.regex_match re_content_disposition (disposition item) = Some m ∧
    Regex.group 1 m = form_name item ∧ Regex.group 2 m = form_filename item.
Proof.
  intros Hn Hf. destruct (filename_match item (form_name item) Hf) as (m & Hm & H1 & H2).
  exists m. split; [|done].
  change (Regex.go (Regex.seq (Regex.literal Regex.chr_icase (str "Content-Disposition:") :: Regex.star Regex.space ::
      Regex.literal Regex.chr_icase (str "form-data;") :: Regex.star Regex.space ::
      Regex.literal Regex.chr_icase (str "name=") :: quoted_group 1 :: re_filename))
    (str "Content-Disposition:" ++ x20 :: str "form-data;" ++ x20 :: str "name=" ++
     x22 :: form_name item ++ x22 :: filename_text item) [] at_end = Some m).
  rewrite go_seq_text. apply (go_seq_blank _ "f"%byte (str "orm-data;" ++ _)); [done|].
  etransitivity; [apply (go_seq_text (str "form-data;"))|].
  apply (go_seq_blank _ "n"%byte (str "ame=" ++ _)); [done|].
  etransitivity; [apply (go_seq_text (str "name="))|]. by apply go_quoted.
Qed.

(** ** Looking for texts *)

Lemma find_text_here t s : find_text t (t ++ s) = Some 0.
Proof. destruct t as [|b t]; [by destruct s|]. cbn. by rewrite decide_True by (by exists s). Qed.

(** A text that begins with a byte it has once is found at its first place, after a part
    that does not have it. *)
Lemma find_text_after c t p s :
  c ∉ t → find_text (c :: t) p = None → find_text (c :: t) (p ++ (c :: t) ++ s) = Some (length p).
Proof.
  intros Hc. induction p as [|a p IH]; [intros _; apply (find_text_here (c :: t))|].
  cbn [find_text app]. case_decide as H; [done|]. intros Hp. rewrite decide_False.
  - destruct (find_text (c :: t) p) eqn:E; [done|]. specialize (IH eq_refl). cbn [app] in IH. by rewrite IH.
  - intros [u Hu]. destruct (decide (length t < S (length p))) as [Hl|Hl].
    + apply H. exists (drop (length (c :: t)) (a :: p)).
      rewrite <- (take_drop (length (c :: t)) (a :: p)) at 1. f_equal.
      apply (f_equal (take (length (c :: t)))) in Hu. rewrite take_app_length in Hu.
      change (a :: p ++ c :: t ++ s) with ((a :: p) ++ (c :: t) ++ s) in Hu.
      rewrite take_app_le in Hu by (simpl; lia). done.
    + assert (Hl' : ((a :: p) ++ (c :: t) ++ s) !! S (length p) = Some c).
      { rewrite lookup_app_r by (simpl; lia). cbn [length]. by rewrite Nat.sub_diag. }
      change ((a :: p) ++ (c :: t) ++ s) with (a :: p ++ c :: t ++ s) in Hl'. rewrite Hu in Hl'.
      rewrite lookup_app_l in Hl' by (simpl; lia). cbn in Hl'. by apply Hc, (list_elem_of_lookup_2 _ (length p)).
Qed.

Lemma find_text_drop t s n : find_text t s = None → n ≤ length s → find_text t (drop n s) = None.
Proof.
  revert n. induction s as [|b s IH]; intros n H Hn; [by destruct n|].
  destruct n as [|n]; [done|]. cbn in *. case_decide; [done|]. apply IH; [by destruct (find_text t s)|lia].
Qed.

(** The first place is not after a known one. *)
Lemma find_text_le t p s : ∃ i, find_text t (p ++ t ++ s) = Some i ∧ i ≤ length p.
Proof.
  induction p as [|a p (i & E & Hi)]; [exists 0; split; [apply (find_text_here t s)|simpl; lia]|].
  cbn [app find_text]. case_decide; [by exists 0; split; [|lia]|]. rewrite E. exists (S i). split; [done|simpl; lia].
Qed.

Lemma find_text_absent c t p : c ∉ p → find_text (c :: t) p = None.
Proof.
  induction p as [|a p IH]; [done|]. intros [H1 H2]%not_elem_of_cons. cbn.
  rewrite decide_False by (intros [u Hu]; by injection Hu). by rewrite IH.
Qed.

(** A line ends at the first line end. *)
Lemma find_crlf line s : x0d ∉ line → find_text crlf_ (line ++ crlf_ ++ s) = Some (length line).
Proof. intros H. apply find_text_after; [by apply (bool_decide_unpack _); vm_compute|by apply find_text_absent]. Qed.

(** ** What an item must be like to be written *)

Record item_ok (boundary : bytes) (item : MultipartFormData) : Prop := {
  item_name : quotable (form_name item);
  item_filename : quotable (form_filename item);
  item_type : (x0d ∉ form_content_type item) ∧ Detail.trim_copy (x20 :: form_content_type item) = form_content_type item;
  item_content : find_text (crlf_ ++ dash_ ++ boundary) (form_content item) = None;
  item_length : length (disposition item) ≤ Content.CPPHTTPLIB_HEADER_MAX_LENGTH;
}.

(** ** The header lines *)

(** What the parser keeps of an item before its content. *)
Definition file_of (item : MultipartFormData) : MultipartFormData :=
  MkForm (form_name item) [] (form_filename item) (form_content_type item).

Lemma quotable_not s b : quotable s → b = x22 ∨ b = x0a ∨ b = x0d → b ∉ s.
Proof. intros H Hb Hs. eapply Forall_forall in H; [|done]. destruct H as (? & ? & ?). by destruct Hb as [?|[?|?]]. Qed.

Lemma disposition_line item : quotable (form_name item) → quotable (form_filename item) → x0d ∉ disposition item.
Proof.
  intros Hn Hf. pose proof (quotable_not _ x0d Hn ltac:(auto)). pose proof (quotable_not _ x0d Hf ltac:(auto)).
  assert (H1 : x0d ∉ str "Content-Disposition: form-data; name=") by (apply (bool_decide_unpack _); by vm_compute).
  assert (H2 : x0d ∉ str "; filename=") by (apply (bool_decide_unpack _); by vm_compute).
  assert (H3 : x0d ∉ [x22]) by (apply (bool_decide_unpack _); by vm_compute).
  unfold disposition. rewrite !not_elem_of_app. split_and!; try done.
  destruct (form_filename item) eqn:E; [apply not_elem_of_nil|]. rewrite <- E in *. rewrite !not_elem_of_app. done.
Qed.

Lemma disposition_header item f :
  quotable (form_name item) → quotable (form_filename item) →
  entry_header (disposition item) f = MkForm (form_name item) (form_content f) (form_filename item) (form_content_type f).
Proof.
  intros Hn Hf. unfold entry_header.
  assert (start_with_case_ignore (disposition item) (str "content-type:") = false) as ->.
  { unfold start_with_case_ignore, disposition. apply andb_false_intro2.
    change (length (str "content-type:")) with 13.
    change (str "Content-Disposition: form-data; name=") with (str "Content-Dispo" ++ str "sition: form-data; name=").
    rewrite <- app_assoc. rewrite (take_app_length' _ _ 13) by done. by vm_compute. }
  destruct (disposition_match item Hn Hf) as (m & -> & -> & ->). done.
Qed.

Lemma type_header t f :
  Detail.trim_copy (x20 :: t) = t →
  entry_header (str "Content-Type: " ++ t) f = MkForm (form_name f) (form_content f) (form_filename f) t.
Proof.
  intros Ht. unfold entry_header.
  change (str "Content-Type: " ++ t) with (str "Content-Type:" ++ (x20 :: t)).
  assert (start_with_case_ignore (str "Content-Type:" ++ (x20 :: t)) (str "content-type:") = true) as ->.
  { unfold start_with_case_ignore. change (length (str "content-type:")) with 13.
    rewrite (take_app_length' _ _ 13) by done. rewrite length_app.
    change (length (str "Content-Type:")) with 13. rewrite bool_decide_true by lia. by vm_compute. }
  rewrite (drop_app_length' _ _ (length (str "content-type:"))) by done. by rewrite Ht.
Qed.

Section machine.
Context {R : Type} (header_callback : MultipartFormData → R → bool * R) (content_callback : bytes → R → bool * R).
(** The state after a header and so much of its content; how much there may be. *)
Context (given : MultipartFormData → bytes → R → R) (room : nat).
Hypothesis Hheader : ∀ f st, form_content f = [] → header_callback f st = (true, given f [] st).
Hypothesis Hcontent : ∀ f q x st,
  form_content f = [] → length q + length x ≤ room → content_callback x (given f q st) = (true, given f (q ++ x) st).

Local Abbreviation step := (step header_callback content_callback).
Local Abbreviation parse_loop := (parse_loop header_callback content_callback).
Local Abbreviation headers_loop := (headers_loop header_callback).

(** A header line is taken. *)
Lemma headers_loop_line fuel b n v f line s st :
  x0d ∉ line → line ≠ [] →
  headers_loop (S fuel) (buf_find crlf_ (Make b n v f (line ++ crlf_ ++ s))) (Make b n v f (line ++ crlf_ ++ s)) st =
  headers_loop fuel (buf_find crlf_ (Make b n v (entry_header line f) s)) (Make b n v (entry_header line f) s) st.
Proof.
  intros Hl Hne. unfold buf_find at 1. cbn [buf]. rewrite find_crlf by done. cbn [from_option id HttpMultipart.Multipart.headers_loop buf].
  rewrite decide_True by (rewrite length_app; simpl; lia).
  rewrite decide_False by (by destruct line). unfold buf_erase, with_file, with_buf. cbn [file_ boundary_ state_ is_valid_ buf].
  rewrite take_app_length. rewrite app_assoc. rewrite <- length_app. by rewrite drop_app_length.
Qed.

Lemma headers_loop_end fuel b n v f s st :
  form_content f = [] →
  headers_loop (S fuel) (buf_find crlf_ (Make b n v f (crlf_ ++ s))) (Make b n v f (crlf_ ++ s)) st =
  Go (Make b 3 v f s) (given f [] st).
Proof.
  intros Hf. unfold buf_find. cbn [buf]. rewrite (find_text_here crlf_). cbn [from_option id HttpMultipart.Multipart.headers_loop buf].
  rewrite decide_True by (simpl; lia). rewrite decide_True by done. cbn [file_]. rewrite Hheader by done. done.
Qed.

(** ** The rounds of the parser *)

Lemma parse_loop_round fuel p st :
  buf p ≠ [] →
  parse_loop (S fuel) p st = match step p st with Return ret p st => (ret, p, st) | Go p st => parse_loop fuel p st end.
Proof. intros H. cbn [HttpMultipart.Multipart.parse_loop]. by destruct (buf p). Qed.

(** What follows the boundary line of an item. *)
Definition entry_text (item : MultipartFormData) : bytes :=
  disposition item ++ crlf_ ++ type_line item ++ crlf_ ++ form_content item.

Definition delimiter (boundary : bytes) : bytes := crlf_ ++ dash_ ++ boundary.

Lemma step_headers b v f item s st :
  item_ok b item → form_content f = [] → form_content_type f = [] →
  step (Make b 2 v f (disposition item ++ crlf_ ++ type_line item ++ crlf_ ++ s)) st =
  Go (Make b 3 v (file_of item) s) (given (file_of item) [] st).
Proof.
  intros [Hn Hf [Ht1 Ht2] _ Hl] Hc Hct. pose proof (disposition_line item Hn Hf) as Hd.
  unfold HttpMultipart.Multipart.step. cbn [state_].
  assert (Hne : disposition item ≠ []) by done.
  rewrite decide_False.
  2: { unfold buf_find. cbn [buf]. rewrite find_crlf by done. cbn [from_option id]. lia. }
  assert (Hlen : 3 ≤ length (disposition item ++ crlf_ ++ type_line item ++ crlf_ ++ s)).
  { rewrite !length_app. change (length crlf_) with 2. destruct (disposition item); [done|]. simpl. lia. }
  cbn [buf]. destruct (length (disposition item ++ _)) as [|[|[|n]]]; try lia. clear Hlen.
  rewrite headers_loop_line by done. rewrite disposition_header by done. rewrite Hc, Hct.
  unfold type_line. destruct (form_content_type item) as [|c t] eqn:Et.
  - cbn [app]. rewrite headers_loop_end by done. unfold file_of. by rewrite Et.
  - rewrite <- Et in *. rewrite <- !app_assoc. rewrite app_assoc. rewrite headers_loop_line.
    + rewrite type_header by done. cbn [form_name form_content form_filename]. by rewrite headers_loop_end.
    + rewrite not_elem_of_app. split; [by apply (bool_decide_unpack _); vm_compute|done].
    + done.
Qed.

(** A content is given whole, in two pieces. *)
Lemma step_content b v f content s st :
  form_content f = [] → find_text (delimiter b) content = None → x0d ∉ b → length content ≤ room →
  step (Make b 3 v f (content ++ delimiter b ++ s)) (given f [] st) = Go (Make b 4 v f s) (given f content st).
Proof.
  intros Hf Hno Hb Hroom. unfold HttpMultipart.Multipart.step. cbn [state_ buf].
  rewrite decide_False by (rewrite !length_app; simpl; lia).
  assert (Hfind : ∃ i, buf_find (crlf_ ++ dash_) (Make b 3 v f (content ++ delimiter b ++ s)) = i ∧ i ≤ length content).
  { destruct (find_text_le (crlf_ ++ dash_) content (b ++ s)) as (i & E & Hi). exists i. split; [|done].
    unfold buf_find, delimiter. cbn [buf]. rewrite <- !app_assoc in *. by rewrite E. }
  destruct Hfind as (i & -> & Hi). rewrite take_app_le by done.
  rewrite Hcontent by (try done; rewrite length_take; simpl; lia). cbn [app].
  unfold buf_erase, with_buf. cbn [boundary_ state_ is_valid_ file_ buf]. rewrite drop_app_le by done.
  unfold body_boundary. cbn [boundary_ buf]. fold (delimiter b).
  rewrite decide_False by (rewrite !length_app; lia).
  assert (E : buf_find (delimiter b) (Make b 3 v f (drop i content ++ delimiter b ++ s)) = length (drop i content)).
  { unfold buf_find. cbn [buf]. unfold delimiter, crlf_ at 1 2. cbn [app].
    rewrite (find_text_after x0d (x0a :: dash_ ++ b)); [done| |by apply find_text_drop].
    rewrite not_elem_of_cons, not_elem_of_app. split; [done|]. split; [by apply (bool_decide_unpack _); vm_compute|done]. }
  rewrite E. rewrite decide_True by (rewrite !length_app; simpl; lia). rewrite take_app_length.
  rewrite Hcontent by (try done; rewrite <- length_app, take_drop; done). rewrite take_drop.
  unfold buf_erase, with_state, with_buf. cbn [boundary_ state_ is_valid_ file_ buf].
  rewrite app_assoc, <- length_app. by rewrite drop_app_length.
Qed.

(** The text after the first boundary line, and the loop on it. *)
Fixpoint entries_text (b : bytes) (x : MultipartFormData) (xs : list MultipartFormData) : bytes :=
  entry_text x ++ delimiter b ++ match xs with [] => dash_ ++ crlf_ | y :: ys => crlf_ ++ entries_text b y ys end.

Definition give (st : R) (item : MultipartFormData) : R := given (file_of item) (form_content item) st.

Lemma parse_entry fuel b v f x s st :
  item_ok b x → x0d ∉ b → length (form_content x) ≤ room → form_content f = [] → s ≠ [] →
  parse_loop (S (S (S fuel))) (Make b 1 v f (entry_text x ++ delimiter b ++ s)) st =
  parse_loop fuel (Make b 4 v (file_of x) s) (give st x).
Proof.
  intros Hx Hb Hroom Hf Hs.
  assert (Hd : disposition x ≠ []) by done.
  rewrite parse_loop_round by (unfold entry_text; cbn [buf]; by destruct (disposition x)).
  change (step (Make b 1 v f ?t) st) with (Go (R := R) (Make b 2 v (clear_file_info f) t) st). cbn beta iota.
  rewrite parse_loop_round by (unfold entry_text; cbn [buf]; by destruct (disposition x)).
  unfold entry_text. rewrite <- !app_assoc. rewrite step_headers by done.
  rewrite parse_loop_round by (cbn [buf]; by destruct (form_content x)).
  rewrite step_content by (try done; apply Hx). done.
Qed.

Lemma parse_entries b x xs : ∀ fuel v f st,
  Forall (λ i, item_ok b i ∧ length (form_content i) ≤ room) (x :: xs) → x0d ∉ b → form_content f = [] →
  4 * length (x :: xs) ≤ fuel →
  ∃ p, parse_loop fuel (Make b 1 v f (entries_text b x xs)) st = (true, p, foldl give st (x :: xs)) ∧ is_valid_ p = true.
Proof.
  revert x. induction xs as [|y ys IH]; intros x fuel v f st Hok Hb Hf Hfuel;
    apply Forall_cons in Hok as [[Hx Hroom] Hok]; do 4 (destruct fuel as [|fuel]; [simpl in Hfuel; lia|]);
    cbn [entries_text]; rewrite parse_entry by (done || by destruct ys).
  - rewrite parse_loop_round by done. exists (Make b 4 true (file_of x) []). by destruct fuel.
  - rewrite parse_loop_round by done.
    assert (E : ∀ t st, step (Make b 4 v (file_of x) (crlf_ ++ t)) st = Go (Make b 1 v (file_of x) t) st).
    { intros t st'. unfold HttpMultipart.Multipart.step. cbn [state_ buf]. rewrite decide_False by (rewrite length_app; lia).
      unfold buf_start_with. cbn [buf]. by rewrite bool_decide_true by (by exists t). }
    rewrite E. apply (IH y fuel); try done. simpl in *. lia.
Qed.

Lemma form_body x xs b :
  concat (item_text b <$> x :: xs) ++ str "--" ++ b ++ str "--" ++ crlf_ = (dash_ ++ b ++ crlf_) ++ entries_text b x xs.
Proof.
  revert x. induction xs as [|y ys IH]; intros x; cbn [fmap list_fmap concat entries_text].
  - unfold item_text, entry_text, delimiter, dash_. by rewrite app_nil_r, <- !app_assoc.
  - cbn [fmap list_fmap concat] in IH. rewrite <- app_assoc, IH.
    unfold item_text, entry_text, delimiter, dash_. by rewrite <- !app_assoc.
Qed.

Lemma length_entries b x xs : 4 * length (x :: xs) ≤ length (entries_text b x xs).
Proof.
  revert x. induction xs as [|y ys IH]; intros x; cbn [entries_text]; unfold entry_text, delimiter, disposition; rewrite !length_app.
  - change (length (str "Content-Disposition: form-data; name=")) with 37. simpl. lia.
  - specialize (IH y). change (length (str "Content-Disposition: form-data; name=")) with 37. simpl in *. lia.
Qed.

(** A whole form, given at once. *)
Lemma parse_form items b body type st :
  post_form items b = Some (body, type) → items ≠ [] →
  Forall (λ i, item_ok b i ∧ length (form_content i) ≤ room) items →
  ∃ p, parse header_callback content_callback body (make b) st = (true, p, foldl give st items) ∧ is_valid_ p = true.
Proof.
  unfold post_form. destruct (forallb boundary_char b) eqn:Eb; [|done]. intros [= <- _] Hne Hok.
  assert (Hb : x0d ∉ b).
  { intros H. apply list_elem_of_In in H. rewrite forallb_forall in Eb. by specialize (Eb _ H). }
  destruct items as [|x xs]; [done|]. rewrite form_body. unfold parse, buf_append, make. cbn [buf app].
  rewrite parse_loop_round by done. unfold HttpMultipart.Multipart.step, with_buf. cbn [state_ boundary_ buf is_valid_ file_].
  unfold buf_find. cbn [buf]. rewrite (find_text_here (dash_ ++ b ++ crlf_)). cbn [from_option id].
  unfold buf_erase, with_buf. cbn [state_ boundary_ buf is_valid_ file_]. rewrite drop_0.
  rewrite decide_False by (rewrite length_app; lia). unfold buf_start_with. cbn [buf].
  rewrite bool_decide_true by (by eexists). cbn [negb]. rewrite drop_app_length. unfold with_state. cbn [boundary_ is_valid_ file_ buf].
  apply (parse_entries b x xs); try done. rewrite length_app. pose proof (length_entries b x xs). lia.
Qed.

End machine.

(** ** The server's receivers *)

Lemma emplace_upper {A} lt k (v : A) m :
  Detail.emplace lt k v m =
  take (Detail.upper_bound lt k m) m ++ (k, v) :: drop (Detail.upper_bound lt k m) m.
Proof.
  unfold Detail.upper_bound. induction m as [|[k' v'] m IH]; [done|]. cbn. destruct (lt k k'); [done|].
  cbn. by rewrite IH.
Qed.

Lemma upper_length {A} lt k (m : list (bytes * A)) : Detail.upper_bound lt k m ≤ length m.
Proof. unfold Detail.upper_bound. induction m as [|e m IH]; cbn; [done|]. destruct (negb _); simpl; lia. Qed.

(** The request with a file and so much of its content. *)
Definition server_given (f : MultipartFormData) (q : bytes) (st : Server.receiving) : Server.receiving :=
  let '(req, _) := st in
  (Request.with_files (Detail.emplace key_lt (form_name f) (MkForm (form_name f) q (form_filename f) (form_content_type f))
                         (Request.files req)) req,
   Detail.upper_bound key_lt (form_name f) (Request.files req)).

Lemma server_header f st : form_content f = [] → Server.multipart_header f st = (true, server_given f [] st).
Proof. intros H. destruct f as [n c fn ct], st as [req cur]. cbn in *. by subst. Qed.

Lemma server_content (max_size : Z) room f q x st :
  (Z.of_nat room ≤ max_size)%Z → length q + length x ≤ room →
  Server.multipart_receiver max_size x (server_given f q st) = (true, server_given f (q ++ x) st).
Proof.
  intros Hr Hl. destruct st as [req cur]. unfold server_given, Server.multipart_receiver.
  cbn [Request.files Request.with_files]. set (m := Request.files req). set (u := Detail.upper_bound key_lt (form_name f) m).
  assert (Hu : length (take u m) = u) by (rewrite length_take; pose proof (upper_length key_lt (form_name f) m); unfold u; lia).
  rewrite !emplace_upper. fold u. rewrite lookup_app_r by lia. rewrite Hu, Nat.sub_diag. cbn [lookup list_lookup form_content].
  destruct (Z.ltb_spec max_size (Z.of_nat (length q + length x))); [lia|].
  do 2 f_equal. unfold Request.with_files. cbn. f_equal. rewrite insert_app_r_alt by lia. rewrite Hu, Nat.sub_diag. done.
Qed.

Lemma give_all items req cur :
  ∃ cur', foldl (give server_given) (req, cur) items =
    (Request.with_files (foldl (λ m i, Detail.emplace key_lt (form_name i) i m) (Request.files req) items) req, cur').
Proof.
  revert req cur. induction items as [|[n c fn ct] items IH]; intros req cur; [exists cur; by destruct req|].
  cbn [foldl]. unfold give at 2. cbn [server_given file_of form_name form_content form_filename form_content_type].
  match goal with |- context [foldl _ (?r, ?u) items] => destruct (IH r u) as [cur' E] end.
  exists cur'. rewrite E. done.
Qed.

Lemma boundary_read boundary :
  forallb boundary_char boundary = true → boundary ≠ [] →
  parse_multipart_boundary (str "multipart/form-data; boundary=" ++ boundary) = Some boundary.
Proof.
  intros Hb Hne. unfold parse_multipart_boundary.
  change (str "multipart/form-data; boundary=" ++ boundary)
    with (str "multipart/form-data; " ++ ("b"%byte :: str "oundary=") ++ boundary).
  change (str "boundary=") with ("b"%byte :: str "oundary=").
  rewrite find_text_after by (apply (bool_decide_unpack _); by vm_compute).
  rewrite app_assoc. rewrite (drop_app_length' _ _ (length (str "multipart/form-data; ") + 9)) by done.
  rewrite (bool_decide_false (boundary !! 0 = Some x22)).
  - rewrite andb_false_r. cbn [andb]. by rewrite decide_False.
  - intros H. destruct boundary as [|c s]; [done|]. cbn in H. injection H as ->. done.
Qed.

(** C27. Forms: for every list of at least one item (the parser refuses an empty form)
    that the library's client turns into a form with a boundary that is not empty, where
    the names and file names have no quotes and no line ends, the line that carries them
    is at most 8192 bytes (a longer one is refused), the content types have no blanks at
    their ends and no carriage returns, no content contains the delimiter, and the
    contents fit into strings, the boundary is found in the content
    type, and the server's parser, given the form at once, succeeds and leaves in the
    request's files, besides those there were, exactly the items, each under its name
    with its content, file name and type, in the order of a multimap. *)
Theorem form_roundtrip max_size items boundary body type req cur :
  post_form items boundary = Some (body, type) → boundary ≠ [] → items ≠ [] →
  Forall (λ i, item_ok boundary i ∧ (Z.of_nat (length (form_content i)) ≤ max_size)%Z) items →
  parse_multipart_boundary type = Some boundary ∧
  ∃ p cur', parse Server.multipart_header (Server.multipart_receiver max_size) body (make boundary) (req, cur) =
    (true, p, (Request.with_files (foldl (λ m i, Detail.emplace key_lt (form_name i) i m) (Request.files req) items) req, cur')) ∧
    is_valid_ p = true.
Proof.
  intros Hp Hb Hne Hok. split.
  - unfold post_form in Hp. destruct (forallb boundary_char boundary) eqn:Eb; [|done]. injection Hp as _ <-.
    by apply boundary_read.
  - assert (Hmax : (0 ≤ max_size)%Z) by (destruct items as [|i items]; [done|]; apply Forall_cons in Hok as [[_ ?] _]; lia).
    destruct (parse_form Server.multipart_header (Server.multipart_receiver max_size) server_given (Z.to_nat max_size))
      with (items := items) (b := boundary) (body := body) (type := type) (st := (req, cur)) as (p & E & Hv); try done.
    + by intros; apply server_header.
    + intros f q x st _ Hl. apply (server_content _ (Z.to_nat max_size)); lia.
    + eapply Forall_impl; [exact Hok|]. cbn. intros i [? ?]. split; [done|lia].
    + destruct (give_all items req cur) as [cur' Eg]. exists p, cur'. split; [|done]. by rewrite E, Eg.
Qed.

Definition sample_items : list MultipartFormData :=
  [ MkForm (str "note") [x0d; x0a; "-"%byte; "-"%byte; x00] [] [];
    MkForm (str "file") (str "Hello") (str "a.txt") (str "text/plain") ].
Definition sample_form : bytes := Eval vm_compute in
  match post_form sample_items (str "XyZ") with Some (body, _) => body | None => [] end.

Lemma trim_blank : Detail.trim_copy [x20] = [].
Proof. unfold Detail.trim_copy. change (Detail.trim [x20] 0 (length [x20])) with (1, 0). apply take_nil. Qed.

Lemma sample_items_ok : Forall (λ i, item_ok (str "XyZ") i ∧ (Z.of_nat (length (form_content i)) ≤ 100)%Z) sample_items.
Proof.
  assert (Hlen : ∀ item, Nat.leb (length (disposition item)) Content.CPPHTTPLIB_HEADER_MAX_LENGTH = true →
    length (disposition item) ≤ Content.CPPHTTPLIB_HEADER_MAX_LENGTH) by (intros item; apply Nat.leb_le).
  assert (Hq : ∀ s, forallb (λ b, bool_decide (b ≠ x22 ∧ b ≠ x0a ∧ b ≠ x0d)) s = true → quotable s).
  { intros s H. apply List.Forall_forall. rewrite forallb_forall in H. intros b Hb. exact (bool_decide_eq_true_1 _ (H b Hb)). }
  assert (Ht : ∀ s : bytes, forallb (λ b, bool_decide (b ≠ x0d)) s = true → x0d ∉ s).
  { intros s H Hs. rewrite forallb_forall in H. apply list_elem_of_In in Hs. by apply (bool_decide_eq_true_1 _ (H _ Hs)). }
  apply Forall_cons_2; [|apply Forall_cons_2; [|apply Forall_nil_2]];
    (split; [split; [apply Hq|apply Hq|split; [apply Ht|]| |apply Hlen]|]).
  all: first [apply trim_blank|by vm_compute].
Qed.

Lemma form_roundtrip_witness :
  ∃ p cur, parse Server.multipart_header (Server.multipart_receiver 100) sample_form (make (str "XyZ")) (Request.empty, 0) =
    (true, p, (Request.with_files [(str "file", MkForm (str "file") (str "Hello") (str "a.txt") (str "text/plain"));
                                   (str "note", MkForm (str "note") [x0d; x0a; "-"%byte; "-"%byte; x00] [] [])] Request.empty, cur)) ∧
    is_valid_ p = true.
Proof.
  destruct (form_roundtrip 100 sample_items (str "XyZ") sample_form (str "multipart/form-data; boundary=XyZ") Request.empty 0)
    as (_ & p & cur & E & Hv); [by vm_compute|done|done|exact sample_items_ok|].
  exists p, cur. split; [|exact Hv]. etransitivity; [exact E|]. by vm_compute.
Defined.

(** The same form in two pieces of data; for each place it is cut at, whether the form is
    valid and how many items were found. *)
Definition cut_form (n : nat) : bool * bool * nat :=
  let '(ret1, p1, st1) := parse Server.multipart_header (Server.multipart_receiver 1000) (take n sample_form)
                            (make (str "XyZ")) (Request.empty, 0) in
  let '(ret2, p2, st2) := parse Server.multipart_header (Server.multipart_receiver 1000) (drop n sample_form) p1 st1 in
  (ret1 && ret2, is_valid_ p2, length (Request.files st2.1)).

(** Cut within the first boundary, the form is taken without its first item; cut within
    the first bytes of a delimiter, the delimiter becomes content and the next item is
    part of it, without an error when it is not the last delimiter. *)
Lemma form_cut :
  cut_form 0 = (true, true, 2) ∧ cut_form 3 = (true, true, 1) ∧ cut_form 62 = (true, true, 1) ∧
  cut_form 80 = (true, true, 2) ∧ cut_form 166 = (true, false, 2).
Proof. by vm_compute. Qed.
