(* ===== verification/DBConnection.v ===== *)
(** * A database connection ([db_config.h], [DBConnection] in [db_operator.cpp])

    The MySQL client library is the environment: what its functions return is a
    list of replies, consumed in the order of the calls.  The library's handles
    are kept so that a handle closed twice, or used after it was closed, is
    [Undefined], and one that is overwritten stays in the list of live ones.  A
    statement is given to [mysql_query] as a C string, which ends at its first zero. *)

From S2P Require Import Prelude StdString.

Open Scope Z_scope.

(** [struct DBConfig] with its defaults. *)
Record DBConfig := MkDBConfig {
  host : bytes;
  user : bytes;
  password : bytes;
  database : bytes;
  port : Z;                (* unsigned int *)
  connect_timeout : Z;
  read_timeout : Z;
  write_timeout : Z;
  pool_timeout_ms : Z;
  pool_size : nat;         (* size_t *)
}.
Definition default_config : DBConfig := MkDBConfig [] [] [] [] 3306 3 3 3 3000 10.

Module MySQL.

(** A [MYSQL *] that is not null. *)
Definition handle := Z.

(** A stored result: the names of its fields and its rows. *)
Record result := Result { fields : list bytes; rows : list (list (option bytes)) }.

Inductive reply :=
| RInit (h : option handle)      (* mysql_init *)
| RConnect (ok : bool)           (* mysql_real_connect *)
| RPing (zero : bool)            (* mysql_ping *)
| RQuery (zero : bool)           (* mysql_query *)
| RStore (r : option result)     (* mysql_store_result *)
| RPrepare (zero : bool)         (* mysql_stmt_prepare *)
| RLibraryInit (zero : bool).    (* mysql_library_init *)

Inductive call := Opened (h : handle) | Closed (h : handle) | Query (h : handle) (sql : bytes)
| LibraryEnd.

Record world := World { replies : list reply; live : list handle; calls : list call }.

(** Computations that call the library: [None] when the replies do not fit the
    calls, so that no behaviour of the library is described. *)
Definition M (A : Type) : Type := world → option (outcome A * world).

#[global] Instance M_ret : MRet M := λ A a w, Some (Val a, w).
#[global] Instance M_bind : MBind M := λ A B f m w,
  match m w with
  | Some (Val a, w) => f a w
  | Some (Throw e, w) => Some (Throw e, w)
  | Some (Undefined, w) => Some (Undefined, w)
  | None => None
  end.

Definition throw {A} (e : string) : M A := λ w, Some (Throw e, w).
Definition undefined {A} : M A := λ w, Some (Undefined, w).

(** [mysql_init(nullptr)]: a new handle, or null. *)
Definition mysql_init : M (option handle) := λ w,
  match replies w with
  | RInit (Some h) :: rs =>
      if decide (h ∈ live w) then None
      else Some (Val (Some h), World rs (h :: live w) (calls w ++ [Opened h]))
  | RInit None :: rs => Some (Val None, World rs (live w) (calls w))
  | _ => None
  end.

Definition mysql_close (h : handle) : M () := λ w,
  if decide (h ∈ live w)
  then Some (Val (), World (replies w) (filter (λ x, x ≠ h) (live w)) (calls w ++ [Closed h]))
  else Some (Undefined, w).

(** A call on a handle, with a yes or no reply. *)
Definition ask (h : handle) (get : reply → option bool) (made : list call) : M bool := λ w,
  if decide (h ∈ live w) then
    match replies w with
    | r :: rs => b ← get r; Some (Val b, World rs (live w) (calls w ++ made))
    | [] => None
    end
  else Some (Undefined, w).

Definition mysql_real_connect (h : handle) (c : DBConfig) : M bool :=
  ask h (λ r, match r with RConnect ok => Some ok | _ => None end) [].
Definition mysql_ping (h : handle) : M bool :=
  ask h (λ r, match r with RPing zero => Some zero | _ => None end) [].
Definition mysql_query (h : handle) (sql : bytes) : M bool :=
  ask h (λ r, match r with RQuery zero => Some zero | _ => None end) [Query h sql].
Definition mysql_stmt_prepare (h : handle) (sql : bytes) : M bool :=
  ask h (λ r, match r with RPrepare zero => Some zero | _ => None end) [].
Definition mysql_store_result (h : handle) : M (option result) := λ w,
  match replies w with
  | RStore r :: rs => Some (Val r, World rs (live w) (calls w))
  | _ => None
  end.
Definition mysql_library_init : M bool := λ w,
  match replies w with
  | RLibraryInit zero :: rs => Some (Val zero, World rs (live w) (calls w))
  | _ => None
  end.
Definition mysql_library_end : M () := λ w,
  Some (Val (), World (replies w) (live w) (calls w ++ [LibraryEnd])).

Lemma bind_inv {A B} (f : A → M B) (m : M A) w r w' :
  mbind f m w = Some (r, w') →
  ∃ r1 w1, m w = Some (r1, w1) ∧
    match r1 with
    | Val a => f a w1 = Some (r, w')
    | Throw e => r = Throw e ∧ w' = w1
    | Undefined => r = Undefined ∧ w' = w1
    end.
Proof.
  unfold mbind, M_bind. destruct (m w) as [[[a|e|] w1]|]; try done.
  - intros H. by exists (Val a), w1.
  - intros [= <- <-]. by exists (Throw e), w1.
  - intros [= <- <-]. by exists Undefined, w1.
Qed.

End MySQL.
Import MySQL.

Module DBConnection.

Record t := mk { db_config_ : DBConfig; mysql_ : option handle }.

Definition make (db_config : DBConfig) : t := mk db_config None.

Definition isConnected (c : t) : M bool :=
  match mysql_ c with
  | None => mret false
  | Some h => mysql_ping h
  end.

(** A handle that no longer answers is replaced without being closed. *)
Definition connect (c : t) : M (bool * t) :=
  connected ← isConnected c;
  if connected : bool then mret (true, c)
  else
    h ← mysql_init;
    match h with
    | None => mret (false, mk (db_config_ c) None)
    | Some h =>
        ok ← mysql_real_connect h (db_config_ c);
        if ok : bool then mret (true, mk (db_config_ c) (Some h))
        else _ ← mysql_close h; mret (false, mk (db_config_ c) None)
    end.

Definition disconnect (c : t) : M (bool * t) :=
  match mysql_ c with
  | Some h => _ ← mysql_close h; mret (true, mk (db_config_ c) None)
  | None => mret (true, c)
  end.

(** [delete conn]: the destructor disconnects. *)
Definition destroy (c : t) : M () := _ ← disconnect c; mret ().

Definition execute (sql : bytes) (c : t) : M bool :=
  connected ← isConnected c;
  if connected : bool then
    match mysql_ c with Some h => mysql_query h (c_str sql) | None => undefined end
  else mret false.

Definition query (sql : bytes) (c : t) : M (option result) :=
  connected ← isConnected c;
  if connected : bool then
    match mysql_ c with
    | Some h =>
        zero ← mysql_query h (c_str sql);
        if zero : bool then mysql_store_result h else mret None
    | None => undefined
    end
  else mret None.

(** [batchInsert]: the parameters are bound from an array that nothing has filled
    in, and control would reach the end without a return. *)
Definition batchInsert (sql : bytes) (c : t) : M bool :=
  connected ← isConnected c;
  if connected : bool then
    match mysql_ c with
    | Some h => zero ← mysql_stmt_prepare h sql; if zero : bool then undefined else mret false
    | None => undefined
    end
  else mret false.

Definition raw (c : t) : option handle := mysql_ c.

(** ** What the operations do to the handles *)

(** [m] keeps [P] of the live handles, from a connection's handle [before] to the
    one the result has: it is never [Undefined], and the handles besides the
    connection's own are those there were. *)
Definition owns (c : t) (others : list handle) (w : world) : Prop :=
  match mysql_ c with
  | Some h => live w ≡ₚ h :: others
  | None => live w ≡ₚ others
  end ∧ NoDup (live w).

Lemma owns_elem c others w h : owns c others w → mysql_ c = Some h → h ∈ live w.
Proof. intros [H _] Hm. rewrite Hm in H. rewrite H. by left. Qed.

Lemma ask_inv h get made w r w' :
  h ∈ live w → ask h get made w = Some (r, w') →
  ∃ b, r = Val b ∧ live w' = live w.
Proof.
  unfold ask. intros Hh. rewrite decide_True by done. destruct (replies w) as [|r0 rs]; [done|].
  intros (b & _ & [= <- <-])%bind_Some. by exists b.
Qed.

Lemma mysql_close_spec h w others :
  live w ≡ₚ h :: others → NoDup (live w) →
  ∃ w', mysql_close h w = Some (Val (), w') ∧ live w' ≡ₚ others ∧ NoDup (live w') ∧
    replies w' = replies w.
Proof.
  intros Hl Hd. unfold mysql_close. rewrite decide_True by (rewrite Hl; by left).
  eexists. split; [done|]. simpl. split_and!; [|by apply NoDup_filter|done].
  rewrite Hl in Hd |- *. apply NoDup_cons in Hd as [Hn Hd].
  rewrite filter_cons_False by (intros H; by apply H).
  clear -Hn. induction others as [|x l IH]; [done|]. apply not_elem_of_cons in Hn as [Hx Hn].
  rewrite filter_cons_True by done. by rewrite IH.
Qed.

Lemma isConnected_spec c others w r w' :
  owns c others w → isConnected c w = Some (r, w') →
  ∃ b, r = Val b ∧ owns c others w' ∧ (b = true → ∃ h, mysql_ c = Some h).
Proof.
  intros Ho. unfold isConnected. destruct (mysql_ c) as [h|] eqn:Hm.
  - intros H. apply ask_inv in H as (b & -> & Hl); [|by eapply owns_elem].
    exists b. split_and!; [done| |eauto]. unfold owns in *. by rewrite Hl.
  - intros [= <- <-]. by exists false.
Qed.

Lemma disconnect_spec c others w r w' :
  owns c others w → disconnect c w = Some (r, w') →
  r = Val (true, mk (db_config_ c) None) ∧ owns (mk (db_config_ c) None) others w'.
Proof.
  intros [Hl Hd]. unfold disconnect. destruct (mysql_ c) as [h|] eqn:Hm.
  - destruct (mysql_close_spec h w others Hl Hd) as (w1 & Hc & Hl1 & Hd1 & _).
    unfold mbind, M_bind. rewrite Hc. intros [= <- <-]. by split.
  - intros [= <- <-]. destruct c as [cfg m]. simpl in Hm. subst m. by split.
Qed.

Lemma destroy_spec c others w r w' :
  owns c others w → destroy c w = Some (r, w') →
  r = Val () ∧ live w' ≡ₚ others ∧ NoDup (live w').
Proof.
  intros Ho H. unfold destroy in H. apply bind_inv in H as (r1 & w1 & Hd & H).
  apply (disconnect_spec _ _ _ _ _ Ho) in Hd as [-> [Hl Hn]].
  unfold mret, M_ret in H. by injection H as <- <-.
Qed.

(** The part of [connect] after the test: one handle more, or none. *)
Lemma open_spec cfg others w r w' :
  live w ≡ₚ others → NoDup (live w) →
  (h ← mysql_init;
   match h with
   | None => mret (false, mk cfg None)
   | Some h =>
       ok ← mysql_real_connect h cfg;
       if ok : bool then mret (true, mk cfg (Some h))
       else _ ← mysql_close h; mret (false, mk cfg None)
   end) w = Some (r, w') →
  ∃ ok c', r = Val (ok, c') ∧ owns c' others w' ∧ db_config_ c' = cfg.
Proof.
  intros Hl Hd. unfold mbind, M_bind, mret, M_ret. unfold mysql_init. destruct (replies w) as [|[[h|]| | | | | |] rs]; try done.
  - case_decide as Hin; [done|].
    destruct (mysql_real_connect h cfg _) as [[r1 w1]|] eqn:Hc; [|done].
    apply ask_inv in Hc as (b & -> & Hlive); [|by left]. simpl in Hlive.
    assert (Hl1 : live w1 ≡ₚ h :: others) by (by rewrite Hlive, Hl).
    assert (Hd1 : NoDup (live w1)) by (rewrite Hlive; by constructor).
    destruct b.
    + intros [= <- <-]. by exists true, (mk cfg (Some h)).
    + destruct (mysql_close_spec h w1 others Hl1 Hd1) as (w2 & -> & Hl2 & Hd2 & _).
      intros [= <- <-]. by exists false, (mk cfg None).
  - intros [= <- <-]. by exists false, (mk cfg None).
Qed.

(** The handles [connect] loses: the one of a connection that does not answer. *)
Definition overwritten (c : t) (rs : list reply) : nat :=
  match mysql_ c, rs with Some _, RPing false :: _ => 1 | _, _ => 0 end.

Lemma connect_spec c others w r w' :
  owns c others w → connect c w = Some (r, w') →
  ∃ ok c' lost, r = Val (ok, c') ∧ owns c' (lost ++ others) w' ∧ db_config_ c' = db_config_ c ∧
    length lost = overwritten c (replies w).
Proof.
  intros Ho H. pose proof Ho as [Hl Hd]. unfold connect in H. apply bind_inv in H as (r1 & w1 & Hi & H).
  unfold isConnected in Hi. unfold overwritten. destruct (mysql_ c) as [h|] eqn:Hm.
  - pose proof (owns_elem _ _ _ _ Ho Hm) as Hh. unfold mysql_ping, ask in Hi.
    rewrite decide_True in Hi by done. destruct (replies w) as [|[| |b| | | |] rs]; try done.
    injection Hi as <- <-. destruct b.
    + unfold mret, M_ret in H. injection H as <- <-. exists true, c, []. by split_and!.
    + apply (open_spec _ (h :: others)) in H as (ok & c' & -> & Ho' & Hc); [|done..].
      by exists ok, c', [h].
  - unfold mret, M_ret in Hi. injection Hi as <- <-.
    apply (open_spec _ others) in H as (ok & c' & -> & Ho' & Hc); [|done..].
    exists ok, c', []. by destruct (replies w) as [|[| |[]| | | |]].
Qed.

(** A connection without a handle: connecting gains one or leaves none. *)
Lemma connect_fresh_spec c others w r w' :
  mysql_ c = None → owns c others w → connect c w = Some (r, w') →
  ∃ ok c', r = Val (ok, c') ∧ owns c' others w' ∧ db_config_ c' = db_config_ c.
Proof.
  intros Hm Ho H. destruct (connect_spec _ _ _ _ _ Ho H) as (ok & c' & lost & -> & Ho' & Hc & Hlost).
  unfold overwritten in Hlost. rewrite Hm in Hlost. apply nil_length_inv in Hlost as ->. eauto.
Qed.

Lemma execute_spec sql c others w r w' :
  owns c others w → execute sql c w = Some (r, w') → (∃ b, r = Val b) ∧ owns c others w'.
Proof.
  intros Ho. unfold execute, mbind, M_bind.
  destruct (isConnected c w) as [[r1 w1]|] eqn:Hi; [|done].
  destruct (isConnected_spec _ _ _ _ _ Ho Hi) as (b & -> & Ho1 & Hb). destruct b.
  - destruct (Hb eq_refl) as [h Hm]. rewrite Hm. intros H.
    apply ask_inv in H as (b & -> & Hl); [|by eapply owns_elem].
    split; [eauto|]. unfold owns in *. by rewrite Hl.
  - intros [= <- <-]. eauto.
Qed.

Lemma query_spec sql c others w r w' :
  owns c others w → query sql c w = Some (r, w') → (∃ b, r = Val b) ∧ owns c others w'.
Proof.
  intros Ho. unfold query, mbind, M_bind.
  destruct (isConnected c w) as [[r1 w1]|] eqn:Hi; [|done].
  destruct (isConnected_spec _ _ _ _ _ Ho Hi) as (b & -> & Ho1 & Hb). destruct b.
  - destruct (Hb eq_refl) as [h Hm]. rewrite Hm.
    destruct (mysql_query h (c_str sql) w1) as [[r2 w2]|] eqn:Hq; [|done].
    apply ask_inv in Hq as (b & -> & Hl); [|by eapply owns_elem].
    assert (Ho2 : owns c others w2) by (unfold owns in *; by rewrite Hl).
    destruct b.
    + unfold mysql_store_result. destruct (replies w2) as [|[] rs]; try done.
      intros [= <- <-]. eauto.
    + intros [= <- <-]. eauto.
  - intros [= <- <-]. eauto.
Qed.
End DBConnection.
