(* ===== verification/DBPool.v ===== *)
(** * The connection pool ([DBConnectionPool] in [db_operator.cpp])

    The member functions, each critical section of the mutex as one computation,
    and the system of the threads that take connections and give them back while
    one of them may destroy the pool ([DBConnectionPool.step]).  A step is what happens
    between two points at which another thread can intervene.  Threads sleep in
    [cv_.wait_for] and the destructor in [cv_exit_.wait]; testing a predicate and going
    to sleep is one step, under the mutex, and only a notification, a timeout or a
    spurious wake-up ends a sleep.  A thread that touches a member of the pool after its
    destructor has returned is [Undefined]. *)

From S2P Require Import Prelude DBConnection.
Import MySQL.

Open Scope Z_scope.

Module DBConnectionPool.

Record t := mk {
  pool_ : list DBConnection.t;
  db_config_ : DBConfig;
  shutting_down_ : bool;
  active_connections_ : Z;
}.

Definition with_pool (q : list DBConnection.t) (p : t) : t :=
  mk q (db_config_ p) (shutting_down_ p) (active_connections_ p).

(** The constructor: [n] more rounds of its loop. *)
Fixpoint fill (n : nat) (p : t) : M t :=
  match n with
  | O => mret p
  | S n =>
      '(_, conn) ← DBConnection.connect (DBConnection.make (db_config_ p));
      connected ← DBConnection.isConnected conn;
      if connected : bool then fill n (with_pool (pool_ p ++ [conn]) p)
      else _ ← DBConnection.destroy conn; fill n p
  end.
Definition make (db_config : DBConfig) : M t :=
  fill (pool_size db_config) (mk [] db_config false 0).

(** [getConnection] once the wait is over: [success] is the value of [wait_for]. *)
Definition take_connection (success : bool) (p : t) : outcome (option DBConnection.t * t) :=
  if success then
    match pool_ p with
    | conn :: q =>
        if shutting_down_ p then Val (None, p)
        else Val (Some conn, mk q (db_config_ p) (shutting_down_ p) (active_connections_ p + 1))
    | [] => Val (None, p)
    end
  else Throw "[DBConnectionPool::getConnection] wait for pool timeout".

(** The deleter of the [shared_ptr], under the mutex. *)
Definition give_back (conn : DBConnection.t) (p : t) : M t :=
  connected ← DBConnection.isConnected conn;
  conn ← (if connected : bool then mret conn
          else
            '(_, old) ← DBConnection.disconnect conn;
            _ ← DBConnection.destroy old;
            '(_, new) ← DBConnection.connect (DBConnection.make (db_config_ p));
            mret new);
  mret (mk (pool_ p ++ [conn]) (db_config_ p) (shutting_down_ p) (active_connections_ p - 1)).

Definition getPoolSize (p : t) : Z := swrap 32 (Z.of_nat (length (pool_ p))).

(** The destructor: the flag, and, once no connection is active, the loop. *)
Definition shut_down (p : t) : t := mk (pool_ p) (db_config_ p) true (active_connections_ p).
Fixpoint close_all (q : list DBConnection.t) : M () :=
  match q with
  | [] => mret ()
  | conn :: q =>
      '(_, conn) ← DBConnection.disconnect conn;
      _ ← DBConnection.destroy conn;
      close_all q
  end.
Definition close_pool (p : t) : M t := _ ← close_all (pool_ p); mret (with_pool [] p).

(** ** Threads *)

Inductive thread :=
| Idle                                 (* outside *)
| WaitingForPool (woken : bool)        (* in cv_.wait_for, asleep or to run again *)
| Holding (conn : DBConnection.t)      (* has the shared_ptr *)
| Notifying                            (* in the deleter, after lock.unlock() *)
| TestingShutdown                      (* in the deleter, before if (shutting_down_) *)
| NotifyingExit.                       (* in the deleter, before cv_exit_.notify_one() *)

Inductive destructor :=
| Alive
| Announcing                           (* the flag is set; before cv_.notify_all() *)
| Testing                              (* about to test the predicate of cv_exit_.wait *)
| Asleep                               (* in cv_exit_.wait *)
| Destroyed.

#[global] Instance destructor_eq_dec : EqDecision destructor.
Proof. solve_decision. Defined.

Record sys := Sys { pool : t; threads : list thread; dtor : destructor; lib : world }.

Definition set_threads (ths : list thread) (s : sys) : sys := Sys (pool s) ths (dtor s) (lib s).
Definition set_thread (i : nat) (th : thread) (s : sys) : sys := set_threads (<[i:=th]> (threads s)) s.
Definition set_pool (p : t) (s : sys) : sys := Sys p (threads s) (dtor s) (lib s).
Definition set_dtor (d : destructor) (s : sys) : sys := Sys (pool s) (threads s) d (lib s).

(** Running a computation on the library with the replies [rs], all of them. *)
Definition call_library {A} (rs : list reply) (m : M A) (s : sys)
    : option (outcome (A * world)) :=
  match m (World rs (live (lib s)) (calls (lib s))) with
  | Some (Val a, w) => if decide (replies w = []) then Some (Val (a, w)) else None
  | Some (Throw e, _) => Some (Throw e)
  | Some (Undefined, _) => Some Undefined
  | None => None
  end.

(** What a thread can do with a connection it has: the public member functions of
    [DBConnection] ([batchInsert], a template without an instance, apart). *)
Inductive action :=
| DoIsConnected | DoConnect | DoDisconnect | DoExecute (sql : bytes) | DoQuery (sql : bytes).

Definition use (a : action) (c : DBConnection.t) : M DBConnection.t :=
  match a with
  | DoIsConnected => _ ← DBConnection.isConnected c; mret c
  | DoConnect => '(_, c) ← DBConnection.connect c; mret c
  | DoDisconnect => '(_, c) ← DBConnection.disconnect c; mret c
  | DoExecute sql => _ ← DBConnection.execute sql c; mret c
  | DoQuery sql => _ ← DBConnection.query sql c; mret c
  end.

(** [cv_.notify_one()]: one of the threads asleep, [woken], or none if there is none. *)
Definition asleep (th : thread) : bool := match th with WaitingForPool false => true | _ => false end.
Definition notify_one (woken : option nat) (ths : list thread) : option (list thread) :=
  match woken with
  | Some j =>
      match ths !! j with
      | Some (WaitingForPool false) => Some (<[j := WaitingForPool true]> ths)
      | _ => None
      end
  | None => if existsb asleep ths then None else Some ths
  end.

(** [cv_.notify_all()]. *)
Definition wake (th : thread) : thread := match th with WaitingForPool _ => WaitingForPool true | _ => th end.
Definition notify_all (ths : list thread) : list thread := wake <$> ths.

(** [cv_exit_.notify_one()]: only the destructor waits there. *)
Definition notify_exit (d : destructor) : destructor := match d with Asleep => Testing | _ => d end.

Inductive event :=
| Get (i : nat)                           (* thread i calls getConnection *)
| Wake (i : nat) (timed_out : bool)       (* it runs again in wait_for *)
| Use (i : nat) (a : action) (rs : list reply)  (* it uses its connection *)
| Release (i : nat) (rs : list reply)     (* it drops its shared_ptr *)
| Notify (i : nat) (woken : option nat)   (* cv_.notify_one() *)
| TestShutdown (i : nat)                  (* if (shutting_down_) *)
| NotifyExit (i : nat)                    (* cv_exit_.notify_one() *)
| BeginDestroy                            (* ~DBConnectionPool sets the flag *)
| NotifyAll                               (* cv_.notify_all() *)
| TestExit (rs : list reply)              (* the predicate: closes the pool, or sleeps *)
| Spurious (i : nat)                      (* a waiting thread is woken by nobody *)
| SpuriousExit.                           (* the destructor is *)

(** What a thread has when [getConnection] returns. *)
Definition returned (conn : option DBConnection.t) : thread :=
  match conn with Some conn => Holding conn | None => Idle end.

(** The end of the wait of thread [i]; a timeout that throws leaves it outside. *)
Definition finish_get (i : nat) (success : bool) (s : sys) : sys :=
  match take_connection success (pool s) with
  | Val (conn, p) => set_thread i (returned conn) (set_pool p s)
  | _ => set_thread i Idle s
  end.

(** [wait_for]: the predicate under the mutex, and sleep or the end of the wait. *)
Definition test_pool (i : nat) (timed_out : bool) (s : sys) : sys :=
  if decide (pool_ (pool s) = [])
  then if timed_out then finish_get i false s else set_thread i (WaitingForPool false) s
  else finish_get i true s.

(** A step that touches a member of the pool. *)
Definition touch (s : sys) (r : option (outcome sys)) : option (outcome sys) :=
  if decide (dtor s = Destroyed) then Some Undefined else r.

Definition step (ev : event) (s : sys) : option (outcome sys) :=
  match ev with
  | Get i =>
      match threads s !! i with
      | Some Idle =>
          if decide (dtor s = Destroyed) then None
          else Some (Val (if shutting_down_ (pool s) then s else test_pool i false s))
      | _ => None
      end
  | Wake i timed_out =>
      match threads s !! i with
      | Some (WaitingForPool woken) =>
          if woken || timed_out then touch s (Some (Val (test_pool i timed_out s))) else None
      | _ => None
      end
  | Use i a rs =>
      match threads s !! i with
      | Some (Holding conn) =>
          r ← call_library rs (use a conn) s;
          Some ('(conn, w) ← r; Val (Sys (pool s) (<[i:=Holding conn]> (threads s)) (dtor s) w))
      | _ => None
      end
  | Release i rs =>
      match threads s !! i with
      | Some (Holding conn) =>
          touch s (
            r ← call_library rs (give_back conn (pool s)) s;
            Some ('(p, w) ← r; Val (Sys p (<[i:=Notifying]> (threads s)) (dtor s) w)))
      | _ => None
      end
  | Notify i woken =>
      match threads s !! i with
      | Some Notifying =>
          touch s (
            ths ← notify_one woken (<[i:=TestingShutdown]> (threads s));
            Some (Val (set_threads ths s)))
      | _ => None
      end
  | TestShutdown i =>
      match threads s !! i with
      | Some TestingShutdown =>
          touch s (Some (Val (set_thread i (if shutting_down_ (pool s) then NotifyingExit else Idle) s)))
      | _ => None
      end
  | NotifyExit i =>
      match threads s !! i with
      | Some NotifyingExit => touch s (Some (Val (set_dtor (notify_exit (dtor s)) (set_thread i Idle s))))
      | _ => None
      end
  | BeginDestroy =>
      if decide (dtor s = Alive)
      then Some (Val (set_dtor Announcing (set_pool (shut_down (pool s)) s))) else None
  | NotifyAll =>
      if decide (dtor s = Announcing)
      then Some (Val (set_dtor Testing (set_threads (notify_all (threads s)) s))) else None
  | TestExit rs =>
      if decide (dtor s = Testing) then
        if decide (active_connections_ (pool s) = 0) then
          r ← call_library rs (close_pool (pool s)) s;
          Some ('(p, w) ← r; Val (Sys p (threads s) Destroyed w))
        else if decide (rs = []) then Some (Val (set_dtor Asleep s)) else None
      else None
  | Spurious i =>
      match threads s !! i with
      | Some (WaitingForPool _) => Some (Val (set_thread i (WaitingForPool true) s))
      | _ => None
      end
  | SpuriousExit => if decide (dtor s = Asleep) then Some (Val (set_dtor Testing s)) else None
  end.

(** ** Who has which handle *)

Definition handles (c : DBConnection.t) : list handle :=
  match DBConnection.mysql_ c with Some h => [h] | None => [] end.

Definition held1 (th : thread) : list DBConnection.t :=
  match th with Holding conn => [conn] | _ => [] end.

(** The connections that threads have. *)
Definition held (ths : list thread) : list DBConnection.t := concat (held1 <$> ths).

Definition all_handles (cs : list DBConnection.t) : list handle := concat (handles <$> cs).

Lemma owns_handles c others w :
  DBConnection.owns c others w ↔ live w ≡ₚ handles c ++ others ∧ NoDup (live w).
Proof. unfold DBConnection.owns, handles. by destruct (DBConnection.mysql_ c). Qed.

Lemma all_handles_app cs cs' : all_handles (cs ++ cs') = all_handles cs ++ all_handles cs'.
Proof. unfold all_handles. by rewrite fmap_app, concat_app. Qed.

#[global] Instance all_handles_proper : Proper ((≡ₚ) ==> (≡ₚ)) all_handles.
Proof.
  intros cs cs' H. unfold all_handles. induction H as [|c l l' _ IH|c d l|]; simpl.
  - done.
  - by rewrite IH.
  - rewrite !app_assoc. apply Permutation_app_tail, Permutation_app_comm.
  - by etrans.
Qed.

Lemma held_insert ths i th th' :
  ths !! i = Some th → held1 th ++ held (<[i:=th']> ths) ≡ₚ held1 th' ++ held ths.
Proof.
  intros Hi. pose proof (lookup_lt_Some _ _ _ Hi).
  rewrite insert_take_drop by done.
  rewrite <- (take_drop_middle ths i th Hi) at 3.
  unfold held. rewrite !fmap_app, !fmap_cons, !concat_app. simpl.
  rewrite !(Permutation_app_swap_app (concat (held1 <$> take i ths))).
  rewrite !app_assoc. apply Permutation_app_tail, Permutation_app_tail, Permutation_app_comm.
Qed.

Lemma held_insert_idle ths i th th' :
  ths !! i = Some th → held1 th = [] → held1 th' = [] → held (<[i:=th']> ths) ≡ₚ held ths.
Proof. intros Hi H1 H2. pose proof (held_insert ths i th th' Hi) as H. by rewrite H1, H2 in H. Qed.

(** ** The computations of the pool *)

Lemma close_all_spec q : ∀ others w r w',
  live w ≡ₚ all_handles q ++ others → NoDup (live w) →
  close_all q w = Some (r, w') → r = Val () ∧ live w' ≡ₚ others ∧ NoDup (live w').
Proof.
  induction q as [|c q IH]; intros others w r w' Hl Hn H; cbn [close_all] in H.
  - unfold mret, M_ret in H. by injection H as <- <-.
  - assert (Ho : DBConnection.owns c (all_handles q ++ others) w).
    { apply owns_handles. split; [|done]. by rewrite app_assoc. }
    apply bind_inv in H as (r1 & w1 & Hd & H).
    apply (DBConnection.disconnect_spec _ _ _ _ _ Ho) in Hd as [-> Ho1].
    apply bind_inv in H as (r2 & w2 & Hd & H).
    apply (DBConnection.destroy_spec _ _ _ _ _ Ho1) in Hd as (-> & Ho2 & Hn2).
    by apply (IH others w2 r w').
Qed.

Lemma fresh_connect_spec cfg others w r w' :
  live w ≡ₚ others → NoDup (live w) →
  DBConnection.connect (DBConnection.make cfg) w = Some (r, w') →
  ∃ ok c, r = Val (ok, c) ∧ DBConnection.owns c others w'.
Proof.
  intros Hl Hn H.
  destruct (DBConnection.connect_fresh_spec (DBConnection.make cfg) others w r w')
    as (ok & c & -> & Ho & _); [done|by split|done|]. eauto.
Qed.

Lemma give_back_spec conn p others w r w' :
  DBConnection.owns conn others w → give_back conn p w = Some (r, w') →
  ∃ conn', r = Val (mk (pool_ p ++ [conn']) (db_config_ p) (shutting_down_ p)
                       (active_connections_ p - 1)) ∧ DBConnection.owns conn' others w'.
Proof.
  intros Ho H. unfold give_back in H. apply bind_inv in H as (r1 & w1 & Hc & H).
  apply (DBConnection.isConnected_spec _ _ _ _ _ Ho) in Hc as (b & -> & Ho1 & _).
  apply bind_inv in H as (r2 & w2 & Hb & H). destruct b.
  - unfold mret, M_ret in *. injection Hb as <- <-. injection H as <- <-. eauto.
  - apply bind_inv in Hb as (r3 & w3 & Hd & Hb).
    apply (DBConnection.disconnect_spec _ _ _ _ _ Ho1) in Hd as [-> Ho2].
    apply bind_inv in Hb as (r4 & w4 & Hd & Hb).
    apply (DBConnection.destroy_spec _ _ _ _ _ Ho2) in Hd as (-> & Ho3 & Hn3).
    apply bind_inv in Hb as (r6 & w6 & Hf & Hb).
    destruct (fresh_connect_spec _ others _ _ _ Ho3 Hn3 Hf) as (ok & c & -> & Ho4).
    unfold mret, M_ret in *. injection Hb as <- <-. injection H as <- <-. eauto.
Qed.

(** The constructor: at most [pool_size] connections, each with its own handle. *)
Lemma fill_spec n : ∀ p w r w',
  live w ≡ₚ all_handles (pool_ p) → NoDup (live w) → fill n p w = Some (r, w') →
  ∃ p', r = Val p' ∧ (length (pool_ p') ≤ length (pool_ p) + n)%nat ∧
    live w' ≡ₚ all_handles (pool_ p') ∧ NoDup (live w') ∧
    shutting_down_ p' = shutting_down_ p ∧ active_connections_ p' = active_connections_ p.
Proof.
  induction n as [|n IH]; intros p w r w' Hl Hn H; cbn [fill] in H.
  - unfold mret, M_ret in H. injection H as <- <-. exists p. split_and!; done || lia.
  - apply bind_inv in H as (r1 & w1 & Hc & H).
    destruct (fresh_connect_spec _ _ _ _ _ Hl Hn Hc) as (ok & c & -> & Ho).
    apply bind_inv in H as (r2 & w2 & Hi & H).
    apply (DBConnection.isConnected_spec _ _ _ _ _ Ho) in Hi as (b & -> & Ho1 & _).
    destruct b.
    + apply owns_handles in Ho1 as [Hl1 Hn1].
      apply IH in H as (p' & -> & Hlen & Hl' & Hn' & Hs & Ha); [| |done].
      * exists p'. simpl in *. rewrite length_app in Hlen. simpl in Hlen. split_and!; done || lia.
      * simpl. rewrite all_handles_app, Hl1. unfold all_handles at 3. simpl. rewrite app_nil_r.
        apply Permutation_app_comm.
    + apply bind_inv in H as (r3 & w3 & Hd & H).
      apply (DBConnection.destroy_spec _ _ _ _ _ Ho1) in Hd as (-> & Ho2 & Hn2).
      apply IH in H as (p' & -> & Hlen & Hrest); [|done..]. exists p'. split_and!; try apply Hrest; [done|lia].
Qed.

(** ** Using a connection *)

Lemma ret_inv {A} (a : A) w r w' : (mret a : M A) w = Some (r, w') → r = Val a ∧ w' = w.
Proof. intros H. unfold mret, M_ret in H. by injection H as <- <-. Qed.

(** The handles that a use of a connection loses. *)
Definition loses (a : action) (c : DBConnection.t) (rs : list reply) : nat :=
  match a with DoConnect => DBConnection.overwritten c rs | _ => 0 end.

(** [connect] on a connection that does not answer loses its handle; nothing else
    does. *)
Lemma use_spec a c others w r w' :
  DBConnection.owns c others w → use a c w = Some (r, w') →
  ∃ c' lost, r = Val c' ∧ DBConnection.owns c' (lost ++ others) w' ∧ length lost = loses a c (replies w).
Proof.
  intros Ho H. destruct a; cbn [use loses] in *; apply bind_inv in H as (r1 & w1 & H1 & H).
  - apply (DBConnection.isConnected_spec _ _ _ _ _ Ho) in H1 as (b & -> & Ho1 & _).
    apply ret_inv in H as [-> ->]. by exists c, [].
  - apply (DBConnection.connect_spec _ _ _ _ _ Ho) in H1 as (b & c' & lost & -> & Ho1 & _ & Hlost).
    apply ret_inv in H as [-> ->]. by exists c', lost.
  - apply (DBConnection.disconnect_spec _ _ _ _ _ Ho) in H1 as [-> Ho1].
    apply ret_inv in H as [-> ->]. by eexists _, [].
  - apply (DBConnection.execute_spec _ _ _ _ _ _ Ho) in H1 as [[b ->] Ho1].
    apply ret_inv in H as [-> ->]. by exists c, [].
  - apply (DBConnection.query_spec _ _ _ _ _ _ Ho) in H1 as [[b ->] Ho1].
    apply ret_inv in H as [-> ->]. by exists c, [].
Qed.

(** ** The invariant *)

(** [n] connections, each in the pool or with a thread, the counter counting the
    latter; every handle belongs to one of them, the [lost] ones apart. *)
Record inv (n : nat) (lost : list handle) (s : sys) : Prop := {
  inv_size : dtor s ≠ Destroyed →
    (length (pool_ (pool s)) + length (held (threads s)) = n)%nat;
  inv_active : active_connections_ (pool s) = Z.of_nat (length (held (threads s)));
  inv_flag : shutting_down_ (pool s) = bool_decide (dtor s ≠ Alive);
  inv_destroyed : dtor s = Destroyed → pool_ (pool s) = [] ∧ held (threads s) = [];
  inv_handles : live (lib s) ≡ₚ all_handles (pool_ (pool s) ++ held (threads s)) ++ lost;
  inv_nodup : NoDup (live (lib s));
}.

Lemma call_library_inv {A} rs (m : M A) s r :
  call_library rs m s = Some r →
  ∃ r0 w, m (World rs (live (lib s)) (calls (lib s))) = Some (r0, w) ∧
    match r0 with
    | Val a => r = Val (a, w)
    | Throw e => r = Throw e
    | Undefined => r = Undefined
    end.
Proof.
  unfold call_library. destruct (m _) as [[[a|e|] w]|]; try done.
  - case_decide; [|done]. intros [= <-]. by exists (Val a), w.
  - intros [= <-]. by exists (Throw e), w.
  - intros [= <-]. by exists Undefined, w.
Qed.

(** The threads move, and what they have stays. *)
Lemma inv_set_threads n lost ths s :
  inv n lost s → held ths ≡ₚ held (threads s) → inv n lost (set_threads ths s).
Proof.
  intros [H1 H2 H3 H4 H5 H6] Hp.
  assert (Hlen : length (held ths) = length (held (threads s))) by (by rewrite Hp).
  split; simpl; rewrite ?Hlen; try done.
  - intros Hd. destruct (H4 Hd) as [? Hnil]. split; [done|].
    rewrite Hnil in Hp. by apply Permutation_nil_r in Hp.
  - rewrite H5. apply Permutation_app_tail, all_handles_proper. by rewrite Hp.
Qed.

Lemma inv_set_thread n lost i th th' s :
  inv n lost s → threads s !! i = Some th → held1 th = [] → held1 th' = [] →
  inv n lost (set_thread i th' s).
Proof. intros Hi Ht H1 H2. apply inv_set_threads; [done|]. by eapply held_insert_idle. Qed.

(** The destructor moves on, its flag set. *)
Lemma inv_set_dtor n lost d s :
  inv n lost s → dtor s ≠ Alive → dtor s ≠ Destroyed → d ≠ Alive → d ≠ Destroyed → inv n lost (set_dtor d s).
Proof.
  intros [H1 H2 H3 H4 H5 H6] Ha Hd Ha' Hd'. split; simpl; try done; [auto|].
  rewrite H3. by rewrite !bool_decide_true.
Qed.

Lemma finish_get_inv n lost i success th s :
  inv n lost s → dtor s ≠ Destroyed → threads s !! i = Some th → held1 th = [] →
  inv n lost (finish_get i success s).
Proof.
  intros Hinv Hnd Hi Hh. unfold finish_get, take_connection.
  assert (Hsame : set_pool (pool s) s = s) by by destruct s.
  destruct success; [|by eapply inv_set_thread].
  destruct (pool_ (pool s)) as [|conn q] eqn:Hq; [rewrite Hsame; by eapply inv_set_thread|].
  destruct (shutting_down_ (pool s)) eqn:Hs; [rewrite Hsame; by eapply inv_set_thread|].
  destruct Hinv as [H1 H2 H3 H4 H5 H6].
  pose proof (held_insert _ _ _ (Holding conn) Hi) as Hp. rewrite Hh in Hp. simpl in Hp.
  assert (Hlen : length (held (<[i:=Holding conn]> (threads s))) = S (length (held (threads s))))
    by (by rewrite Hp).
  rewrite Hq in *. split; simpl; try done.
  - intros _. rewrite Hlen. specialize (H1 Hnd). simpl in H1. lia.
  - rewrite Hlen, H2. lia.
  - by rewrite <- Hs.
  - rewrite H5. apply Permutation_app_tail, all_handles_proper. rewrite Hp. apply Permutation_middle.
Qed.

Lemma test_pool_inv n lost i timed_out th s :
  inv n lost s → dtor s ≠ Destroyed → threads s !! i = Some th → held1 th = [] →
  inv n lost (test_pool i timed_out s).
Proof.
  intros Hinv Hd Hi Hh. unfold test_pool. case_decide; [destruct timed_out|].
  - by eapply finish_get_inv.
  - by eapply inv_set_thread.
  - by eapply finish_get_inv.
Qed.

(** What thread [i] has is apart from the rest. *)
Lemma inv_owner n lost s i conn th rs :
  inv n lost s → threads s !! i = Some (Holding conn) → held1 th = [] →
  DBConnection.owns conn (all_handles (pool_ (pool s) ++ held (<[i:=th]> (threads s))) ++ lost)
    (World rs (live (lib s)) (calls (lib s))) ∧
  (length (held (threads s)) = S (length (held (<[i:=th]> (threads s)))))%nat.
Proof.
  intros [H1 H2 H3 H4 H5 H6] Hi Hth.
  pose proof (held_insert _ _ _ th Hi) as Hp. rewrite Hth in Hp. cbn [held1 app] in Hp.
  split; [|by rewrite <- Hp].
  apply owns_handles. split; [|done]. simpl. rewrite H5, app_assoc. apply Permutation_app_tail.
  rewrite <- (app_nil_r (handles conn)). change (handles conn ++ []) with (all_handles [conn]).
  rewrite <- (all_handles_app [conn]). apply all_handles_proper.
  rewrite <- Hp. symmetry. exact (Permutation_middle _ _ conn).
Qed.

(** A thread that has a connection is not late. *)
Lemma holding_not_destroyed n lost s i conn :
  inv n lost s → threads s !! i = Some (Holding conn) → dtor s ≠ Destroyed.
Proof.
  intros Hinv Hi Hd. destruct (inv_owner n lost s i conn Idle [] Hinv Hi eq_refl) as [_ Hlen].
  destruct (inv_destroyed _ _ _ Hinv Hd) as [_ Hnil]. rewrite Hnil in Hlen. discriminate Hlen.
Qed.

Lemma all_handles_singleton c : all_handles [c] = handles c.
Proof. unfold all_handles. simpl. by rewrite app_nil_r. Qed.

Lemma all_handles_cons c cs : all_handles (c :: cs) = handles c ++ all_handles cs.
Proof. done. Qed.

(** Thread [i] has used its connection, or given it back. *)
Lemma inv_use n lost s i conn conn' lost' w :
  inv n lost s → threads s !! i = Some (Holding conn) →
  DBConnection.owns conn' (lost' ++ all_handles (pool_ (pool s) ++ held (<[i:=Idle]> (threads s))) ++ lost) w →
  inv n (lost' ++ lost) (Sys (pool s) (<[i:=Holding conn']> (threads s)) (dtor s) w).
Proof.
  intros Hinv Hi [Hl Hn]%owns_handles. pose proof (holding_not_destroyed _ _ _ _ _ Hinv Hi) as Hd.
  destruct (inv_owner n lost s i conn Idle [] Hinv Hi eq_refl) as [_ Hlen].
  pose proof (held_insert _ _ _ (Holding conn') Hi) as Hp. cbn [held1 app] in Hp.
  pose proof (held_insert _ _ _ Idle Hi) as Hp'. cbn [held1 app] in Hp'.
  assert (Hp'' : held (<[i:=Holding conn']> (threads s)) ≡ₚ conn' :: held (<[i:=Idle]> (threads s))).
  { apply (Permutation_cons_inv (a := conn)). rewrite Hp, <- Hp'. apply perm_swap. }
  destruct Hinv as [H1 H2 H3 H4 H5 H6]. split; simpl; rewrite ?Hp''; simpl; rewrite <- ?Hlen; try done.
  rewrite Hl, <- Permutation_middle.
  rewrite all_handles_cons, <- !app_assoc.
  apply Permutation_app_head, Permutation_app_swap_app.
Qed.

Lemma inv_release n lost s i conn conn' w :
  inv n lost s → threads s !! i = Some (Holding conn) →
  DBConnection.owns conn' (all_handles (pool_ (pool s) ++ held (<[i:=Notifying]> (threads s))) ++ lost) w →
  inv n lost (Sys (mk (pool_ (pool s) ++ [conn']) (db_config_ (pool s)) (shutting_down_ (pool s))
                      (active_connections_ (pool s) - 1)) (<[i:=Notifying]> (threads s)) (dtor s) w).
Proof.
  intros Hinv Hi [Hl Hn]%owns_handles. pose proof (holding_not_destroyed _ _ _ _ _ Hinv Hi) as Hd.
  destruct (inv_owner n lost s i conn Notifying [] Hinv Hi eq_refl) as [_ Hlen].
  destruct Hinv as [H1 H2 H3 H4 H5 H6]. split; simpl; try done.
  - intros _. specialize (H1 Hd). rewrite length_app. simpl. lia.
  - lia.
  - rewrite Hl, <- app_assoc, app_assoc. apply Permutation_app_tail.
    rewrite <- all_handles_singleton, <- (all_handles_app [conn']). apply all_handles_proper.
    exact (Permutation_middle _ _ conn').
Qed.

(** The destructor closes the pool. *)
Lemma close_pool_inv n lost s rs r :
  inv n lost s → dtor s ≠ Alive → active_connections_ (pool s) = 0 →
  call_library rs (close_pool (pool s)) s = Some r →
  ∃ p w, r = Val (p, w) ∧ inv n lost (Sys p (threads s) Destroyed w).
Proof.
  intros Hinv Ha Hz Hc. apply call_library_inv in Hc as (r0 & w & Hm & Hr).
  destruct Hinv as [H1 H2 H3 H4 H5 H6].
  assert (Hnil : held (threads s) = []) by (apply nil_length_inv; lia).
  unfold close_pool in Hm. apply bind_inv in Hm as (r2 & w2 & Hm & H).
  apply (close_all_spec _ lost) in Hm as (-> & Hl & Hn); [|simpl; by rewrite H5, Hnil, app_nil_r|done].
  apply ret_inv in H as [-> ->]. subst r. eexists _, _. split; [done|].
  split; simpl; try done.
  - rewrite H3. by rewrite !bool_decide_true.
  - by rewrite Hnil.
Qed.

(** The thread an event is about, when it is past its critical sections. *)
Definition late (ev : event) (s : sys) : Prop :=
  ∃ i, (∃ j, ev = Notify i j ∧ threads s !! i = Some Notifying) ∨
       (ev = TestShutdown i ∧ threads s !! i = Some TestingShutdown) ∨
       (ev = NotifyExit i ∧ threads s !! i = Some NotifyingExit) ∨
       (∃ b b', ev = Wake i b ∧ threads s !! i = Some (WaitingForPool b')).

(** The handles an event loses. *)
Definition lost_by (ev : event) (s : sys) : nat :=
  match ev with
  | Use i a rs => match threads s !! i with Some (Holding conn) => loses a conn rs | _ => 0 end
  | _ => 0
  end.

Lemma touch_inv s o r :
  touch s o = Some r → (dtor s = Destroyed ∧ r = Undefined) ∨ (dtor s ≠ Destroyed ∧ o = Some r).
Proof. unfold touch. case_decide; [intros [= <-]; by left|by right]. Qed.

Lemma held_wake ths : held (notify_all ths) = held ths.
Proof.
  unfold held, notify_all. f_equal. rewrite <- list_fmap_compose. apply list_fmap_ext. by intros ? [].
Qed.

Lemma notify_one_held woken ths ths' : notify_one woken ths = Some ths' → held ths' ≡ₚ held ths.
Proof.
  unfold notify_one. destruct woken as [j|]; [|by destruct (existsb _ _); [|intros [= <-]]].
  destruct (ths !! j) as [[|[]| | | |]|] eqn:Hj; try done. intros [= <-]. by eapply held_insert_idle.
Qed.

(** The outcome of a step that keeps the invariant, [k] handles lost. *)
Definition kept (n : nat) (lost : list handle) (k : nat) (r : outcome sys) : Prop :=
  ∃ s' lost', r = Val s' ∧ inv n (lost' ++ lost) s' ∧ length lost' = k.

Lemma kept_Val n lost s : inv n lost s → kept n lost 0 (Val s).
Proof. intros H. by exists s, []. Qed.

(** A thread past its critical sections touches the pool in time, or is late. *)
Lemma touch_late n lost ev s o r :
  late ev s → touch s o = Some r → (∀ r, dtor s ≠ Destroyed → o = Some r → kept n lost 0 r) →
  kept n lost 0 r ∨ (r = Undefined ∧ dtor s = Destroyed ∧ late ev s).
Proof. intros Hl [[Hd ->]|[Hd Ho]]%touch_inv H; [by right|left; by apply H]. Qed.

(** The steps of a thread that waits or is in the deleter. *)
Lemma step_inv_late n lost ev s r :
  inv n lost s → late ev s → step ev s = Some r →
  kept n lost 0 r ∨ (r = Undefined ∧ dtor s = Destroyed ∧ late ev s).
Proof.
  intros Hinv Hl Hs. pose proof Hl as (i & [(j & -> & Hi)|[[-> Hi]|[[-> Hi]|(b & b' & -> & Hi)]]]);
    cbn [step] in Hs; rewrite Hi in Hs.
  - apply (touch_late n lost _ _ _ _ Hl Hs). intros r' Hd Ho.
    apply bind_Some in Ho as (ths & Hn & [= <-]). apply kept_Val, inv_set_threads; [done|].
    rewrite (notify_one_held _ _ _ Hn). by eapply held_insert_idle.
  - apply (touch_late n lost _ _ _ _ Hl Hs). intros r' Hd [= <-].
    apply kept_Val. eapply inv_set_thread; [done|exact Hi|done|by destruct (shutting_down_ _)].
  - apply (touch_late n lost _ _ _ _ Hl Hs). intros r' Hd [= <-].
    pose proof (inv_set_thread n lost i _ Idle s Hinv Hi eq_refl eq_refl) as Hi'. apply kept_Val.
    destruct (dtor s) eqn:Hdt; try done; cbn [notify_exit].
    1-3: rewrite <- Hdt; exact Hi'.
    by apply inv_set_dtor; simpl; rewrite ?Hdt.
  - destruct (b' || b); [|done]. apply (touch_late n lost _ _ _ _ Hl Hs). intros r' Hd [= <-].
    apply kept_Val. by eapply test_pool_inv.
Qed.

(** The steps of a thread that has a connection. *)
Lemma step_inv_holding n lost i conn ev s r :
  inv n lost s → threads s !! i = Some (Holding conn) →
  (∃ a rs, ev = Use i a rs) ∨ (∃ rs, ev = Release i rs) → step ev s = Some r →
  kept n lost (lost_by ev s) r.
Proof.
  intros Hinv Hi [(a & rs & ->)|(rs & ->)] Hs; cbn [step lost_by] in *; rewrite Hi in *.
  - apply bind_Some in Hs as (r1 & Hc & [= <-]). apply call_library_inv in Hc as (r0 & w & Hm & Hr).
    destruct (inv_owner n lost s i conn Idle rs Hinv Hi eq_refl) as [Ho _].
    destruct (use_spec _ _ _ _ _ _ Ho Hm) as (conn' & lost' & -> & Ho' & Hk). subst r1.
    eexists _, lost'. split; [done|]. split; [by eapply inv_use|done].
  - apply touch_inv in Hs as [[Hd _]|[Hd Hs]]; [by destruct (holding_not_destroyed _ _ _ _ _ Hinv Hi)|].
    apply bind_Some in Hs as (r1 & Hc & [= <-]). apply call_library_inv in Hc as (r0 & w & Hm & Hr).
    destruct (inv_owner n lost s i conn Notifying rs Hinv Hi eq_refl) as [Ho _].
    destruct (give_back_spec _ _ _ _ _ _ Ho Hm) as (conn' & -> & Ho'). subst r1.
    apply kept_Val. by eapply inv_release.
Qed.

Lemma step_inv n lost ev s r :
  inv n lost s → step ev s = Some r →
  kept n lost (lost_by ev s) r ∨ (r = Undefined ∧ dtor s = Destroyed ∧ late ev s).
Proof.
  intros Hinv Hs. destruct ev as [i|i b|i a rs|i rs|i j|i|i| | |rs|i|].
  - left. cbn [step lost_by] in *. destruct (threads s !! i) as [[]|] eqn:Hi; try done.
    case_decide as Hd; [done|]. injection Hs as <-. apply kept_Val.
    destruct (shutting_down_ (pool s)); [done|]. by eapply test_pool_inv.
  - apply step_inv_late; [done| |done]. cbn [step] in Hs.
    destruct (threads s !! i) as [[]|] eqn:Hi; try done. unfold late. eauto 10.
  - left. pose proof Hs as Hs'. cbn [step] in Hs'. destruct (threads s !! i) as [[]|] eqn:Hi; try done.
    eapply step_inv_holding; eauto.
  - left. pose proof Hs as Hs'. cbn [step] in Hs'. destruct (threads s !! i) as [[]|] eqn:Hi; try done.
    eapply step_inv_holding; eauto.
  - apply step_inv_late; [done| |done]. cbn [step] in Hs.
    destruct (threads s !! i) as [[]|] eqn:Hi; try done. unfold late. eauto 10.
  - apply step_inv_late; [done| |done]. cbn [step] in Hs.
    destruct (threads s !! i) as [[]|] eqn:Hi; try done. unfold late. eauto 10.
  - apply step_inv_late; [done| |done]. cbn [step] in Hs.
    destruct (threads s !! i) as [[]|] eqn:Hi; try done. unfold late. eauto 10.
  - left. cbn [step lost_by] in *. case_decide as Hd; [|done]. injection Hs as <-. apply kept_Val.
    destruct Hinv as [H1 H2 H3 H4 H5 H6]. split; simpl; try done. intros _. apply H1. by rewrite Hd.
  - left. cbn [step lost_by] in *. case_decide as Hd; [|done]. injection Hs as <-. apply kept_Val.
    apply inv_set_dtor; [|by simpl; rewrite ?Hd..]. apply inv_set_threads; [done|]. by rewrite held_wake.
  - left. cbn [step lost_by] in *. case_decide as Hd; [|done]. case_decide as Ha.
    + apply bind_Some in Hs as (r1 & Hc & [= <-]).
      apply (close_pool_inv n lost) in Hc as (p & w & -> & H); [by apply kept_Val|done|by rewrite Hd|done].
    + case_decide; [|done]. injection Hs as <-. apply kept_Val. by apply inv_set_dtor; rewrite ?Hd.
  - left. cbn [step lost_by] in *. destruct (threads s !! i) as [[]|] eqn:Hi; try done.
    injection Hs as <-. apply kept_Val. by eapply inv_set_thread.
  - left. cbn [step lost_by] in *. case_decide as Hd; [|done]. injection Hs as <-. apply kept_Val.
    by apply inv_set_dtor; rewrite ?Hd.
Qed.

(** ** Reachable states *)

(** A pool built by the constructor, with [k] threads around it. *)
Definition started (cfg : DBConfig) (k : nat) (s : sys) : Prop :=
  ∃ rs p w, make cfg (World rs [] []) = Some (Val p, w) ∧
    s = Sys p (replicate k Idle) Alive w.

Fixpoint run (evs : list event) (s : sys) : option (outcome sys) :=
  match evs with
  | [] => Some (Val s)
  | ev :: evs =>
      match step ev s with
      | Some (Val s) => run evs s
      | r => r
      end
  end.

(** The state after the events [evs]. *)
Definition reached (cfg : DBConfig) (k : nat) (evs : list event) (s0 s : sys) : Prop :=
  started cfg k s0 ∧ run evs s0 = Some (Val s).

(** The handles that a run loses. *)
Fixpoint lost_in (evs : list event) (s : sys) : nat :=
  match evs with
  | [] => 0
  | ev :: evs =>
      lost_by ev s + match step ev s with Some (Val s) => lost_in evs s | _ => 0 end
  end.

Lemma held_idle k : held (replicate k Idle) = [].
Proof. induction k as [|k IH]; [done|]. exact IH. Qed.

Lemma started_inv cfg k s :
  started cfg k s → inv (length (pool_ (pool s))) [] s ∧ (length (pool_ (pool s)) ≤ pool_size cfg)%nat.
Proof.
  intros (rs & p & w & Hm & ->).
  apply fill_spec in Hm as (p' & [= <-] & Hlen & Hl & Hn & Hs & Ha); [|done|constructor].
  simpl in *. split; [|done]. split; simpl; rewrite ?held_idle; simpl; try done || lia.
  by rewrite Hl, !app_nil_r.
Qed.

Lemma run_inv n evs : ∀ lost s s',
  inv n lost s → run evs s = Some (Val s') →
  ∃ lost', inv n (lost' ++ lost) s' ∧ length lost' = lost_in evs s.
Proof.
  induction evs as [|ev evs IH]; intros lost s s' Hi H; cbn [run lost_in] in *.
  - injection H as <-. by exists [].
  - destruct (step ev s) as [[s1| |]|] eqn:Hs; try discriminate H.
    destruct (step_inv _ _ _ _ _ Hi Hs) as [(s2 & lost1 & [= <-] & Hi1 & <-)|[? _]]; [|discriminate].
    destruct (IH _ _ _ Hi1 H) as (lost2 & Hi2 & <-). exists (lost2 ++ lost1).
    rewrite <- app_assoc, length_app. split; [done|lia].
Qed.

Lemma reached_inv cfg k evs s0 s :
  reached cfg k evs s0 s →
  ∃ lost, inv (length (pool_ (pool s0))) lost s ∧ length lost = lost_in evs s0 ∧
    (length (pool_ (pool s0)) ≤ pool_size cfg)%nat.
Proof.
  intros [Hst Hr]. destruct (started_inv _ _ _ Hst) as [Hinv Hlen].
  destruct (run_inv _ _ _ _ _ Hinv Hr) as (lost & Hi & Hl). exists lost. by rewrite app_nil_r in Hi.
Qed.

Lemma disconnect_runs c others w :
  DBConnection.owns c others w →
  ∃ w', DBConnection.disconnect c w = Some (Val (true, DBConnection.mk (DBConnection.db_config_ c) None), w') ∧
    replies w' = replies w ∧ live w' ≡ₚ others ∧ NoDup (live w').
Proof.
  intros Ho. unfold DBConnection.disconnect. destruct c as [cfg [h|]]; simpl.
  - destruct Ho as [Hl Hn]. destruct (DBConnection.mysql_close_spec h w others Hl Hn) as (w1 & Hc & Hl1 & Hn1 & Hr).
    exists w1. unfold mbind, M_bind. by rewrite Hc.
  - exists w. by destruct Ho.
Qed.

Lemma close_all_runs q : ∀ w others,
  live w ≡ₚ all_handles q ++ others → NoDup (live w) →
  ∃ w', close_all q w = Some (Val (), w') ∧ replies w' = replies w.
Proof.
  induction q as [|c q IH]; intros w others Hl Hn; [by exists w|]. cbn [close_all].
  assert (Ho : DBConnection.owns c (all_handles q ++ others) w).
  { apply owns_handles. split; [|done]. by rewrite app_assoc. }
  destruct (disconnect_runs _ _ _ Ho) as (w1 & Hd & Hr1 & Hl1 & Hn1).
  destruct (IH w1 others Hl1 Hn1) as (w2 & Hc & Hr2).
  exists w2. unfold mbind at 1, M_bind at 1. rewrite Hd.
  unfold DBConnection.destroy, DBConnection.disconnect. cbn.
  unfold mbind, M_bind, mret, M_ret. rewrite Hc. by rewrite Hr2.
Qed.

(** Some answers with which a connection can be given back. *)
Lemma give_back_runs conn p others w :
  DBConnection.owns conn others (World (replies w) (live w) (calls w)) →
  ∃ rs p' w', give_back conn p (World rs (live w) (calls w)) = Some (Val p', w') ∧ replies w' = [].
Proof.
  intros Ho. unfold give_back, DBConnection.isConnected. destruct (DBConnection.mysql_ conn) as [h|] eqn:Hm.
  - exists [RPing true]. pose proof (DBConnection.owns_elem _ _ _ _ Ho Hm) as Hh. simpl in Hh.
    unfold mbind, M_bind, mret, M_ret, mysql_ping, ask. simpl. rewrite decide_True by done. by eexists _, _.
  - destruct conn as [cfg m]. simpl in Hm. subst m. exists [RInit None]. eexists _, _. split; reflexivity.
Qed.

(** ** Who waits for whom *)

Definition tally (f : thread → nat) (ths : list thread) : nat :=
  foldr (λ th n, f th + n)%nat 0%nat ths.

Lemma tally_insert f ths i th th' :
  ths !! i = Some th → (tally f (<[i:=th']> ths) + f th = tally f ths + f th')%nat.
Proof.
  unfold tally. revert i. induction ths as [|x ths IH]; intros [|i] H; try done.
  - injection H as ->. simpl. lia.
  - simpl. specialize (IH i H). lia.
Qed.

Lemma tally_at f ths i th th' : ths !! i = Some th → (f th' ≤ tally f (<[i:=th']> ths))%nat.
Proof.
  unfold tally. revert i. induction ths as [|x ths IH]; intros [|i] H; try done; simpl; [lia|].
  specialize (IH i H). lia.
Qed.

Lemma tally_pos f ths : (0 < tally f ths)%nat → ∃ i th, ths !! i = Some th ∧ (0 < f th)%nat.
Proof.
  unfold tally. induction ths as [|th ths IH]; simpl; [lia|]. intros H.
  destruct (decide (0 < f th)%nat) as [Hf|Hf]; [by exists 0%nat, th|].
  destruct IH as (i & th' & Hi & H'); [lia|]. by exists (S i), th'.
Qed.

(** Threads asleep; threads that a notification has woken or that are about to send
    one; steps until a thread has sent what the destructor waits for. *)
Definition sleeping (th : thread) : nat := match th with WaitingForPool false => 1 | _ => 0 end.
Definition served (th : thread) : nat := match th with WaitingForPool true | Notifying => 1 | _ => 0 end.
Definition owed (th : thread) : nat :=
  match th with Holding _ => 4 | Notifying => 3 | TestingShutdown => 2 | NotifyingExit => 1 | _ => 0 end.

(** While the destructor sleeps, a thread has still to notify it; while a thread
    sleeps, no connection is in the pool but those for which a thread was woken or is
    about to be. *)
Record wakeups (s : sys) : Prop := {
  wake_exit : dtor s = Asleep → (0 < tally owed (threads s))%nat;
  wake_pool : dtor s = Alive → (0 < tally sleeping (threads s))%nat →
    (length (pool_ (pool s)) ≤ tally served (threads s))%nat;
}.

Lemma held_owed ths : held ths ≠ [] → (0 < tally owed ths)%nat.
Proof.
  unfold held, tally. induction ths as [|th ths IH]; [done|]. intros H.
  destruct th; simpl in *; try lia; by apply IH.
Qed.

(** The sums over the threads after thread [i] has moved to [th']. *)
Ltac tallies Hi th' :=
  pose proof (tally_insert owed _ _ _ th' Hi); pose proof (tally_insert sleeping _ _ _ th' Hi);
  pose proof (tally_insert served _ _ _ th' Hi); pose proof (tally_at owed _ _ _ th' Hi).
Ltac count :=
  simpl in *; intros;
  repeat match goal with H : ?P → _, H' : ?P |- _ => specialize (H H') end;
  try match goal with H : (0 < _)%nat → _ |- _ => specialize (H ltac:(lia)) end; lia.

Lemma finish_get_wakeups n lost i success th s :
  inv n lost s → wakeups s → threads s !! i = Some th → th = Idle ∨ (∃ b, th = WaitingForPool b) →
  (success = false → pool_ (pool s) = []) → wakeups (finish_get i success s).
Proof.
  intros Hinv [He Hp] Hi Hth Hs. pose proof (inv_flag _ _ _ Hinv) as Hf.
  assert (Ho : owed th = 0%nat ∧ (served th ≤ 1)%nat) by (destruct Hth as [->|[[] ->]]; simpl; lia).
  tallies Hi Idle. unfold finish_get, take_connection. destruct success.
  - destruct (pool_ (pool s)) as [|conn q] eqn:Hq.
    + split; [count|]. simpl. rewrite Hq. count.
    + destruct (shutting_down_ (pool s)) eqn:Hsd.
      * split; [count|]. simpl. intros Hd. by rewrite Hd in Hf.
      * tallies Hi (Holding conn). split; count.
  - split; [count|]. simpl. rewrite Hs by done. count.
Qed.

Lemma test_pool_wakeups n lost i timed_out th s :
  inv n lost s → wakeups s → threads s !! i = Some th → th = Idle ∨ (∃ b, th = WaitingForPool b) →
  wakeups (test_pool i timed_out s).
Proof.
  intros Hinv Hw Hi Hth. unfold test_pool. case_decide as Hq; [destruct timed_out|].
  - by eapply finish_get_wakeups.
  - destruct Hw as [He Hp]. assert (Ho : owed th = 0%nat) by (by destruct Hth as [->|[[] ->]]).
    tallies Hi (WaitingForPool false). split; [count|]. simpl. rewrite Hq. count.
  - by eapply finish_get_wakeups.
Qed.

Lemma no_sleeper ths : existsb asleep ths = false → tally sleeping ths = 0%nat.
Proof.
  unfold tally. induction ths as [|th ths IH]; [done|]. simpl. intros [H1 H2]%orb_false_iff.
  rewrite IH by done. by destruct th as [|[]| | | |].
Qed.

(** A notification of the pool: one thread more is woken, unless none sleeps. *)
Lemma notify_one_tallies woken ths ths' :
  notify_one woken ths = Some ths' →
  tally owed ths' = tally owed ths ∧
  (0 < tally sleeping ths' → tally served ths' = S (tally served ths) ∧ 0 < tally sleeping ths)%nat.
Proof.
  unfold notify_one. destruct woken as [j|].
  - destruct (ths !! j) as [[|[]| | | |]|] eqn:Hj; try done. intros [= <-].
    tallies Hj (WaitingForPool true). simpl in *. lia.
  - destruct (existsb asleep ths) eqn:He; [done|]. intros [= <-]. apply no_sleeper in He. lia.
Qed.

(** The steps of a thread that uses its connection or gives it back. *)
Lemma holding_wakeups n lost i conn ev s s' :
  inv n lost s → wakeups s → threads s !! i = Some (Holding conn) →
  (∃ a rs, ev = Use i a rs) ∨ (∃ rs, ev = Release i rs) → step ev s = Some (Val s') → wakeups s'.
Proof.
  intros Hinv [He Hp] Hi [(a & rs & ->)|(rs & ->)] Hs; cbn [step] in Hs; rewrite Hi in Hs.
  - apply bind_Some in Hs as ([[c w]| |] & _ & [= <-]). tallies Hi (Holding c). split; count.
  - apply touch_inv in Hs as [[_ ?]|[Hd Hs]]; [done|].
    apply bind_Some in Hs as (r1 & Hc & Hs). apply call_library_inv in Hc as (r0 & w & Hm & Hr).
    destruct (inv_owner n lost s i conn Idle rs Hinv Hi eq_refl) as [Ho _].
    destruct (give_back_spec _ _ _ _ _ _ Ho Hm) as (conn' & -> & _). subst r1. injection Hs as <-.
    tallies Hi Notifying. split; [count|]. simpl. rewrite length_app. count.
Qed.

(** The steps of a deleter past its critical section. *)
Lemma late_wakeups n lost ev s s' :
  inv n lost s → wakeups s → late ev s → step ev s = Some (Val s') → wakeups s'.
Proof.
  intros Hinv Hw (i & [(j & -> & Hi)|[[-> Hi]|[[-> Hi]|(b & b' & -> & Hi)]]]) Hs;
    pose proof (inv_flag _ _ _ Hinv) as Hf; pose proof Hw as [He Hp]; cbn [step] in Hs; rewrite Hi in Hs.
  - apply touch_inv in Hs as [[_ ?]|[Hd Hs]]; [done|].
    apply bind_Some in Hs as (ths & Hn & [= <-]). apply notify_one_tallies in Hn as [Ho Hn].
    tallies Hi TestingShutdown. split; count.
  - apply touch_inv in Hs as [[_ ?]|[Hd Hs]]; [done|]. injection Hs as <-. rewrite Hf.
    tallies Hi Idle. tallies Hi NotifyingExit. destruct (dtor s) eqn:Hdt; split; simpl; rewrite Hdt; count || done.
  - apply touch_inv in Hs as [[_ ?]|[Hd Hs]]; [done|]. injection Hs as <-. tallies Hi Idle.
    split; [by simpl; destruct (dtor s)|]. simpl. destruct (dtor s); [count|done..].
  - destruct (_ || _); [|done]. apply touch_inv in Hs as [[_ ?]|[Hd Hs]]; [done|]. injection Hs as <-.
    eapply test_pool_wakeups; eauto.
Qed.

Lemma step_wakeups n lost ev s s' :
  inv n lost s → wakeups s → step ev s = Some (Val s') → wakeups s'.
Proof.
  intros Hinv Hw Hs. pose proof Hs as Hs'. pose proof Hw as [He Hp].
  destruct ev as [i|i b|i a rs|i rs|i j|i|i| | |rs|i|]; cbn [step] in Hs;
    try (destruct (threads s !! i) as [th|] eqn:Hi; [|done]; destruct th; try done).
  - case_decide; [done|]. injection Hs as <-. destruct (shutting_down_ _); [done|].
    eapply test_pool_wakeups; eauto.
  - refine (late_wakeups n lost _ _ _ Hinv Hw _ Hs'). exists i. eauto 8.
  - refine (holding_wakeups n lost i conn _ _ _ Hinv Hw Hi _ Hs'). eauto.
  - refine (holding_wakeups n lost i conn _ _ _ Hinv Hw Hi _ Hs'). eauto.
  - refine (late_wakeups n lost _ _ _ Hinv Hw _ Hs'). exists i. eauto 8.
  - refine (late_wakeups n lost _ _ _ Hinv Hw _ Hs'). exists i. eauto 8.
  - refine (late_wakeups n lost _ _ _ Hinv Hw _ Hs'). exists i. eauto 8.
  - case_decide; [|done]. by injection Hs as <-.
  - case_decide; [|done]. by injection Hs as <-.
  - case_decide as Hd; [|done]. case_decide as Ha.
    + apply bind_Some in Hs as ([[p w]| |] & _ & [= <-]). by split.
    + case_decide; [|done]. injection Hs as <-. split; [|done]. intros _. apply held_owed. simpl. intros Hnil.
      apply Ha. by rewrite (inv_active _ _ _ Hinv), Hnil.
  - injection Hs as <-. tallies Hi (WaitingForPool true). destruct woken; split; count.
  - case_decide; [|done]. by injection Hs as <-.
Qed.

(** ** Shutting down *)

(** The steps that bring the destructor nearer to its end: giving a connection back,
    the rest of the deleter, and the destructor's own. *)
Definition exit_event (ev : event) : bool :=
  match ev with
  | Release _ _ | Notify _ _ | TestShutdown _ | NotifyExit _ | NotifyAll | TestExit _ => true
  | _ => false
  end.
Definition spurious_exit (ev : event) : bool := match ev with SpuriousExit => true | _ => false end.
Definition countb (f : event → bool) (evs : list event) : nat := length (filter (λ ev, f ev = true) evs).

(** At most so many of them are left. *)
Definition dtor_left (d : destructor) : nat := match d with Announcing => 2 | Testing => 1 | _ => 0 end.
Definition left (s : sys) : nat := 2 * tally owed (threads s) + dtor_left (dtor s).

Definition holds (s : sys) (i : nat) : Prop := ∃ conn, threads s !! i = Some (Holding conn).

(** What a step does once the flag is set. *)
Record closing (ev : event) (s s' : sys) : Prop := {
  closing_flag : dtor s' ≠ Alive;
  closing_held : ∀ i, holds s' i → holds s i;
  closing_left : (Nat.b2n (exit_event ev) + left s' ≤ left s + Nat.b2n (spurious_exit ev))%nat;
}.

Lemma holds_insert s i th th' j ths d w p :
  threads s !! i = Some th → ths = <[i:=th']> (threads s) →
  ((∃ c, th' = Holding c) → ∃ c, th = Holding c) → holds (Sys p ths d w) j → holds s j.
Proof.
  intros Hi -> Hth [c Hc]. simpl in Hc. destruct (decide (j = i)) as [->|Hj].
  - rewrite list_lookup_insert_eq in Hc by (by eapply lookup_lt_Some). injection Hc as ->.
    destruct Hth as [c' ->]; [by exists c|]. by exists c'.
  - rewrite list_lookup_insert_ne in Hc by done. by exists c.
Qed.

(** A thread goes from [th] to [th'] and obtains nothing. *)
Lemma closing_thread ev s i th th' d w p :
  threads s !! i = Some th → d ≠ Alive → ((∃ c, th' = Holding c) → ∃ c, th = Holding c) →
  (Nat.b2n (exit_event ev) + 2 * owed th' + dtor_left d ≤
   2 * owed th + dtor_left (dtor s) + Nat.b2n (spurious_exit ev))%nat →
  closing ev s (Sys p (<[i:=th']> (threads s)) d w).
Proof.
  intros Hi Hd Hth Hl. split; [done| |].
  - intros j. by eapply holds_insert.
  - pose proof (tally_insert owed _ _ _ th' Hi). unfold left. simpl. lia.
Qed.

Lemma finish_get_closing ev s i success th :
  shutting_down_ (pool s) = true → dtor s ≠ Alive → threads s !! i = Some th →
  exit_event ev = false → closing ev s (finish_get i success s).
Proof.
  intros Hf Hd Hi Hev. unfold finish_get, take_connection.
  assert (Hc : ∀ p, closing ev s (Sys p (<[i:=Idle]> (threads s)) (dtor s) (lib s))).
  { intros p. eapply closing_thread; [done|done|by intros [? ?]|]. rewrite Hev. simpl. lia. }
  destruct success; [|apply Hc]. rewrite Hf. destruct (pool_ (pool s)); apply Hc.
Qed.

Lemma test_pool_closing ev s i timed_out th :
  shutting_down_ (pool s) = true → dtor s ≠ Alive → threads s !! i = Some th →
  exit_event ev = false → closing ev s (test_pool i timed_out s).
Proof.
  intros Hf Hd Hi Hev. unfold test_pool. case_decide; [destruct timed_out|].
  - by eapply finish_get_closing.
  - eapply closing_thread; [done|done|by intros [? ?]|]. rewrite Hev. simpl. lia.
  - by eapply finish_get_closing.
Qed.

Lemma wake_lookup ths i conn : notify_all ths !! i = Some (Holding conn) → ths !! i = Some (Holding conn).
Proof. unfold notify_all. rewrite list_lookup_fmap. by destruct (ths !! i) as [[]|]. Qed.

Lemma tally_wake ths : tally owed (notify_all ths) = tally owed ths.
Proof. unfold tally. induction ths as [|[] ths IH]; simpl; by rewrite ?IH. Qed.

Lemma notify_one_lookup woken ths ths' i conn :
  notify_one woken ths = Some ths' → ths' !! i = Some (Holding conn) → ths !! i = Some (Holding conn).
Proof.
  unfold notify_one. destruct woken as [j|]; [|by destruct (existsb _ _); [|intros [= <-]]].
  destruct (ths !! j) as [[|[]| | | |]|] eqn:Hj; try done. intros [= <-].
  destruct (decide (i = j)) as [->|]; [|by rewrite list_lookup_insert_ne].
  by rewrite list_lookup_insert_eq by (by eapply lookup_lt_Some).
Qed.

Lemma notify_closing i woken s ths :
  dtor s ≠ Alive → threads s !! i = Some Notifying →
  notify_one woken (<[i:=TestingShutdown]> (threads s)) = Some ths → closing (Notify i woken) s (set_threads ths s).
Proof.
  intros Hd Hi Hn. split; [done| |].
  - intros j [c Hc]. apply (notify_one_lookup _ _ _ _ _ Hn) in Hc.
    apply (holds_insert s i _ TestingShutdown j _ (dtor s) (lib s) (pool s) Hi eq_refl); [by intros [? ?]|by exists c].
  - apply notify_one_tallies in Hn as [Ho _]. pose proof (tally_insert owed _ _ _ TestingShutdown Hi).
    unfold left. simpl in *. lia.
Qed.

(** Nothing is handed out once the flag is set, and the end comes nearer. *)
Lemma step_closing n lost ev s s' :
  inv n lost s → dtor s ≠ Alive → step ev s = Some (Val s') → closing ev s s'.
Proof.
  intros Hinv Hd Hs. assert (Hf : shutting_down_ (pool s) = true)
    by (rewrite (inv_flag _ _ _ Hinv); by apply bool_decide_eq_true).
  assert (Hsame : ∀ d, d ≠ Alive → (Nat.b2n (exit_event ev) + dtor_left d ≤ dtor_left (dtor s) +
    Nat.b2n (spurious_exit ev))%nat → closing ev s (set_dtor d s)).
  { intros d Hd' Hl. split; [done|done|]. unfold left. simpl. lia. }
  destruct ev as [i|i b|i a rs|i rs|i j|i|i| | |rs|i|]; cbn [step] in Hs;
    try (destruct (threads s !! i) as [th|] eqn:Hi; [|done]; destruct th; try done);
    try (apply touch_inv in Hs as [[_ ?]|[_ Hs]]; [done|]).
  - case_decide; [done|]. rewrite Hf in Hs. injection Hs as <-. split; [done|done|]. simpl. lia.
  - destruct (_ || _); [|done]. apply touch_inv in Hs as [[_ ?]|[_ Hs]]; [done|]. injection Hs as <-.
    by eapply test_pool_closing.
  - apply bind_Some in Hs as ([[c w]| |] & _ & [= <-]).
    eapply closing_thread; [done|done|by eexists|]. simpl. lia.
  - apply bind_Some in Hs as ([[p w]| |] & _ & [= <-]).
    eapply closing_thread; [done|done|by eexists|]. simpl. lia.
  - apply bind_Some in Hs as (ths & Hn & [= <-]). by apply notify_closing.
  - rewrite Hf in Hs. injection Hs as <-. eapply closing_thread; [done|done|by intros [? ?]|]. simpl. lia.
  - injection Hs as <-. eapply closing_thread; [done|by destruct (dtor s)|by intros [? ?]|].
    destruct (dtor s); simpl; lia.
  - by case_decide.
  - case_decide as Hdt; [|done]. injection Hs as <-. split; [done| |].
    + intros i [c Hc]. exists c. by apply wake_lookup.
    + unfold left. simpl. rewrite tally_wake, Hdt. simpl. lia.
  - case_decide as Hdt; [|done]. case_decide.
    + apply bind_Some in Hs as ([[p w]| |] & _ & [= <-]). split; [done|done|]. unfold left. rewrite Hdt. simpl. lia.
    + case_decide; [|done]. injection Hs as <-. apply Hsame; [done|]. rewrite Hdt. simpl. lia.
  - injection Hs as <-. eapply closing_thread; [done|done|by intros [? ?]|]. simpl. lia.
  - case_decide as Hdt; [|done]. injection Hs as <-. apply Hsame; [done|]. rewrite Hdt. simpl. lia.
Qed.

Lemma run_wakeups n evs : ∀ lost s s',
  inv n lost s → wakeups s → run evs s = Some (Val s') → wakeups s'.
Proof.
  induction evs as [|ev evs IH]; intros lost s s' Hi Hw H; cbn [run] in H; [by injection H as <-|].
  destruct (step ev s) as [[s1| |]|] eqn:Hs; try discriminate H.
  pose proof (step_wakeups _ _ _ _ _ Hi Hw Hs) as Hw1.
  destruct (step_inv _ _ _ _ _ Hi Hs) as [(s2 & lost1 & [= <-] & Hi1 & _)|[? _]]; [|discriminate].
  exact (IH _ _ _ Hi1 Hw1 H).
Qed.

Lemma tally_idle f k : f Idle = 0%nat → tally f (replicate k Idle) = 0%nat.
Proof. intros Hf. induction k as [|k IH]; [done|]. simpl. rewrite Hf. exact IH. Qed.

Lemma reached_wakeups cfg k evs s0 s : reached cfg k evs s0 s → wakeups s.
Proof.
  intros [Hst Hr]. destruct (started_inv _ _ _ Hst) as [Hinv _].
  apply (run_wakeups _ evs [] s0 s Hinv); [|done]. destruct Hst as (rs & p & w & _ & ->).
  split; [done|]. simpl. rewrite tally_idle by done. lia.
Qed.

Lemma run_closing n evs : ∀ lost s s',
  inv n lost s → dtor s ≠ Alive → run evs s = Some (Val s') →
  dtor s' ≠ Alive ∧ (∀ i, holds s' i → holds s i) ∧
  (countb exit_event evs + left s' ≤ left s + countb spurious_exit evs)%nat.
Proof.
  induction evs as [|ev evs IH]; intros lost s s' Hi Hd H; cbn [run] in H.
  - injection H as <-. split_and!; [done|done|]. unfold countb. simpl. lia.
  - destruct (step ev s) as [[s1| |]|] eqn:Hs; try discriminate H.
    destruct (step_closing _ _ _ _ _ Hi Hd Hs) as [Hd1 Hh1 Hl1].
    destruct (step_inv _ _ _ _ _ Hi Hs) as [(s2 & lost1 & [= <-] & Hi1 & _)|[? _]]; [|discriminate].
    destruct (IH _ _ _ Hi1 Hd1 H) as (Hd2 & Hh2 & Hl2). split_and!; [done|auto|].
    unfold countb in *. rewrite !filter_cons.
    destruct (exit_event ev), (spurious_exit ev); simpl in *; lia.
Qed.

(** A thread can always notify the pool. *)
Lemma notify_one_goes_on ths : ∃ woken ths', notify_one woken ths = Some ths'.
Proof.
  destruct (existsb asleep ths) eqn:He; [|exists None; unfold notify_one; rewrite He; by eexists].
  apply existsb_exists in He as (th & Hin & Ha). apply list_elem_of_In, list_elem_of_lookup in Hin as [j Hj].
  exists (Some j). unfold notify_one. rewrite Hj. destruct th as [|[]| | | |]; try done. by eexists.
Qed.

(** A thread that owes the destructor a notification has a step to take. *)
Lemma owed_goes_on n lost s i th :
  inv n lost s → dtor s ≠ Destroyed → threads s !! i = Some th → (0 < owed th)%nat →
  ∃ ev s', exit_event ev = true ∧ step ev s = Some (Val s').
Proof.
  intros Hinv Hd Hi Ho. destruct th as [| |conn| | |]; simpl in Ho; try lia.
  - destruct (inv_owner n lost s i conn Idle (replies (lib s)) Hinv Hi eq_refl) as [Hown _].
    destruct (give_back_runs conn (pool s) _ (lib s) Hown) as (rs & p & w & Hg & Hr).
    exists (Release i rs). eexists. split; [done|]. cbn [step]. rewrite Hi. unfold touch.
    rewrite decide_False by done. unfold call_library. rewrite Hg, decide_True by done. reflexivity.
  - destruct (notify_one_goes_on (<[i:=TestingShutdown]> (threads s))) as (woken & ths & Hn).
    exists (Notify i woken). eexists. split; [done|]. cbn [step]. rewrite Hi. unfold touch.
    rewrite decide_False by done. rewrite Hn. reflexivity.
  - exists (TestShutdown i). eexists. split; [done|]. cbn [step]. rewrite Hi. unfold touch.
    by rewrite decide_False by done.
  - exists (NotifyExit i). eexists. split; [done|]. cbn [step]. rewrite Hi. unfold touch.
    by rewrite decide_False by done.
Qed.

(** The predicate of the destructor can always be tested, and the pool closed. *)
Lemma testing_goes_on n lost s :
  inv n lost s → dtor s = Testing → ∃ s', step (TestExit []) s = Some (Val s').
Proof.
  intros [H1 H2 H3 H4 H5 H6] Hd. cbn [step]. rewrite decide_True by done. destruct (decide (active_connections_ (pool s) = 0)) as [Ha|_].
  2: { rewrite decide_True by done. by eexists. }
  assert (Hh : held (threads s) = []) by (apply nil_length_inv; lia). rewrite Hh, app_nil_r in H5.
  destruct (close_all_runs (pool_ (pool s)) (World [] (live (lib s)) (calls (lib s))) lost H5 H6) as (w' & Hc & Hrep).
  assert (Hp : close_pool (pool s) (World [] (live (lib s)) (calls (lib s))) = Some (Val (with_pool [] (pool s)), w'))
    by (unfold close_pool, mbind, M_bind; by rewrite Hc).
  unfold call_library. rewrite Hp, decide_True by done. eexists. reflexivity.
Qed.

(** Until it has returned, the destructor or somebody it waits for has a step to take. *)
Lemma closing_goes_on n lost s :
  inv n lost s → wakeups s → dtor s ≠ Alive → dtor s ≠ Destroyed →
  ∃ ev s', exit_event ev = true ∧ step ev s = Some (Val s').
Proof.
  intros Hinv [He _] Ha Hd. destruct (dtor s) eqn:Hdt; try done.
  - exists NotifyAll. eexists. split; [done|]. cbn [step]. by rewrite decide_True.
  - destruct (testing_goes_on _ _ _ Hinv Hdt) as [s' Hs]. by exists (TestExit []), s'.
  - destruct (tally_pos _ _ (He eq_refl)) as (i & th & Hi & Ho).
    eapply owed_goes_on; [done|by rewrite Hdt|done|done].
Qed.

End DBConnectionPool.

Import DBConnectionPool.

(** C31. The pool's accounting, in every interleaving of threads that take
    connections, wait for them, use them (through [isConnected], [connect],
    [disconnect], [execute] and [query]) and give them back, and of a destructor,
    whatever the database answers: until the pool is destroyed, the connections in
    the queue and those with threads are together exactly the ones the constructor
    could open (at most [pool_size]), and [active_connections_] counts the latter;
    while it is not being destroyed and some thread sleeps in [getConnection], the
    queue has no more connections than threads that were woken or are about to be; at
    the end no thread has a connection and the queue is empty.  Every open handle of
    the client library belongs to exactly one connection, but for those lost, as many
    as calls of [connect] on a connection whose ping fails, which overwrite it: none
    if nobody calls [connect] on a dead connection. *)
Theorem pool_accounting (cfg : DBConfig) (k : nat) (evs : list event) (s0 s : sys) :
  reached cfg k evs s0 s →
  (dtor s ≠ Destroyed →
     length (pool_ (pool s)) + length (held (threads s)) = length (pool_ (pool s0)) ∧
     length (pool_ (pool s0)) ≤ pool_size cfg)%nat ∧
  active_connections_ (pool s) = Z.of_nat (length (held (threads s))) ∧
  (dtor s = Alive → 0 < tally sleeping (threads s) →
     length (pool_ (pool s)) ≤ tally served (threads s))%nat ∧
  (dtor s = Destroyed → held (threads s) = [] ∧ pool_ (pool s) = []) ∧
  ∃ lost, live (lib s) ≡ₚ all_handles (pool_ (pool s) ++ held (threads s)) ++ lost ∧ NoDup (live (lib s)) ∧
    length lost = lost_in evs s0.
Proof.
  intros Hr. pose proof (wake_pool _ (reached_wakeups _ _ _ _ _ Hr)) as Hw.
  destruct (reached_inv _ _ _ _ _ Hr) as (lost & [H1 H2 H3 H4 H5 H6] & Hl & Hlen).
  split_and!; [auto|done|done| |by exists lost]. intros Hd. by destruct (H4 Hd).
Qed.

Definition sample_config : DBConfig := MkDBConfig [] [] [] [] 3306 3 3 3 3000 2.
Definition sample_replies : list reply :=
  [RInit (Some 1); RConnect true; RPing true; RInit (Some 2); RConnect false].
Definition sample_start : sys := Eval vm_compute in
  match make sample_config (World sample_replies [] []) with
  | Some (Val p, w) => Sys p (replicate 2 Idle) Alive w
  | _ => Sys (mk [] sample_config false 0) [] Alive (World [] [] [])
  end.
(** One thread takes the only connection, connects it again because it is dead, which
    loses the handle 1, and gives it back to the other. *)
Definition sample_events : list event :=
  [Get 0; Get 1; Use 0 DoConnect [RPing false; RInit (Some 4); RConnect true];
   Use 0 (DoQuery (str "select 1")) [RPing true; RQuery false];
   Release 0 [RPing false; RInit (Some 5); RConnect true]; Notify 0 (Some 1%nat); Wake 1 false].
Definition sample_state : sys := Eval vm_compute in
  match run sample_events sample_start with
  | Some (Val s) => s
  | _ => sample_start
  end.

Lemma sample_started : started sample_config 2 sample_start.
Proof. exists sample_replies. eexists _, _. split; [vm_compute; reflexivity|reflexivity]. Qed.

Lemma sample_pool_reached : reached sample_config 2 sample_events sample_start sample_state.
Proof. split; [exact sample_started|]. vm_compute. reflexivity. Qed.

Lemma pool_accounting_witness :
  active_connections_ (pool sample_state) = 1 ∧
  ∃ lost, live (lib sample_state) ≡ₚ [5] ++ lost ∧ length lost = 1%nat.
Proof.
  destruct (pool_accounting sample_config 2 sample_events sample_start sample_state sample_pool_reached)
    as (_ & H2 & _ & _ & lost & H3 & _ & H4).
  split; [exact H2|]. exists lost. split; [exact H3|exact H4].
Defined.

(** C32. Shutting down: once the destructor has set its flag, no thread obtains a
    connection any more, and the destructor ends as soon as the others do their part:
    in whatever way the threads go on, as long as it has not returned there is a step
    to take towards its end (a thread giving its connection back, for some answer of
    the library; the rest of a deleter; its own test of the predicate), at most [left]
    such steps are taken in all, and one more for every spurious wake-up.  In
    particular it never sleeps in [cv_exit_.wait] when no thread has a connection and
    no deleter is still on its way to notify it. *)
Theorem pool_shutdown (cfg : DBConfig) (k : nat) (evs evs' : list event) (s0 s s' : sys) :
  reached cfg k evs s0 s → dtor s ≠ Alive → run evs' s = Some (Val s') →
  (∀ i, holds s' i → holds s i) ∧
  (countb exit_event evs' + left s' ≤ left s + countb spurious_exit evs')%nat ∧
  (dtor s' ≠ Destroyed → ∃ ev s'', exit_event ev = true ∧ step ev s' = Some (Val s'')) ∧
  (dtor s' = Asleep → ∃ i th, threads s' !! i = Some th ∧ (0 < owed th)%nat).
Proof.
  intros Hr Hd Hrun. pose proof (reached_wakeups _ _ _ _ _ Hr) as Hw.
  destruct (reached_inv _ _ _ _ _ Hr) as (lost & Hinv & _).
  destruct (run_closing _ _ _ _ _ Hinv Hd Hrun) as (Hd' & Hh & Hl).
  destruct (run_inv _ _ _ _ _ Hinv Hrun) as (lost' & Hinv' & _).
  pose proof (run_wakeups _ _ _ _ _ Hinv Hw Hrun) as Hw'. split_and!; [done|done| |].
  - intros Hnd. by eapply closing_goes_on.
  - intros Ha. apply tally_pos. by apply (wake_exit _ Hw').
Qed.

(** The destructor sleeps while a thread gives its connection back. *)
Definition sample_run (evs : list event) (s : sys) : sys :=
  match run evs s with Some (Val s) => s | _ => s end.
Definition sample_closing : sys := Eval vm_compute in sample_run [Get 0; BeginDestroy] sample_start.
Definition sample_asleep : sys := Eval vm_compute in
  sample_run [NotifyAll; TestExit []; Release 0 [RPing true]] sample_closing.

Lemma pool_shutdown_witness :
  reached sample_config 2 [Get 0; BeginDestroy] sample_start sample_closing ∧
  run [NotifyAll; TestExit []; Release 0 [RPing true]] sample_closing = Some (Val sample_asleep) ∧
  dtor sample_asleep = Asleep ∧ ∃ ev s, exit_event ev = true ∧ step ev sample_asleep = Some (Val s).
Proof.
  assert (Hr : reached sample_config 2 [Get 0; BeginDestroy] sample_start sample_closing)
    by (split; [exact sample_started|vm_compute; reflexivity]).
  assert (H : run [NotifyAll; TestExit []; Release 0 [RPing true]] sample_closing = Some (Val sample_asleep))
    by (vm_compute; reflexivity).
  assert (Hd : dtor sample_closing ≠ Alive) by discriminate.
  destruct (pool_shutdown _ _ _ _ _ _ _ Hr Hd H) as (_ & _ & Hgo & _).
  split; [exact Hr|]. split; [exact H|]. split; [reflexivity|]. apply Hgo. discriminate.
Defined.

(** What can go wrong: the client library is never misused (no handle used
    after it was closed, none closed twice), so the only step without meaning is
    that of a thread which touches the pool after its destructor has returned,
    because the destructor waits neither for the threads that wait for a
    connection nor for those still between the deleter's unlock and its end; both
    do happen. *)
Theorem pool_use_after_destroy :
  (∀ cfg k evs s0 s ev, reached cfg k evs s0 s → step ev s = Some Undefined →
     dtor s = Destroyed ∧ late ev s) ∧
  (∀ cfg k evs s0 s ev e, reached cfg k evs s0 s → step ev s ≠ Some (Throw e)) ∧
  run [Get 0; Release 0 [RPing true]; BeginDestroy; NotifyAll; TestExit []; Notify 0 None] sample_start =
    Some Undefined ∧
  run [Get 0; Get 1; Release 0 [RPing true]; BeginDestroy; NotifyAll; TestExit []; Wake 1 false] sample_start =
    Some Undefined.
Proof.
  split_and!; [| |vm_compute; reflexivity..].
  - intros cfg k evs s0 s ev Hr Hs. destruct (reached_inv _ _ _ _ _ Hr) as (lost & Hinv & _).
    by destruct (step_inv _ _ _ _ _ Hinv Hs) as [(? & ? & ? & _)|[_ ?]].
  - intros cfg k evs s0 s ev e Hr Hs. destruct (reached_inv _ _ _ _ _ Hr) as (lost & Hinv & _).
    by destruct (step_inv _ _ _ _ _ Hinv Hs) as [(? & ? & ? & _)|[? _]].
Qed.

Lemma pool_use_after_destroy_witness :
  step BeginDestroy sample_state ≠ Some (Throw "") ∧
  run [Get 0; Release 0 [RPing true]; BeginDestroy; NotifyAll; TestExit []; Notify 0 None] sample_start =
    Some Undefined.
Proof.
  destruct pool_use_after_destroy as (_ & H & Hr & _).
  split; [exact (H _ _ _ _ _ BeginDestroy ""%string sample_pool_reached)|exact Hr].
Defined.
