(* ===== verification/DBOperator.v ===== *)
(** * Database results and the operator ([db_result.hpp], [DBOperator] in
      [db_operator.cpp])

    [DBResult] is a cursor over a stored result that its copies share, so the
    cursors of all results are kept in a store ([results]).  [DBOperator] is the
    process-wide object in front of the pool, followed here on one thread: a wait
    for a connection of an empty pool then ends with its timeout. *)

From S2P Require Import Prelude StdString DBConnection DBPool.
Import MySQL.

Open Scope Z_scope.

Module DBResult.

(** The results a [MYSQL_RES *] may point to, each with the number of the rows
    fetched so far. *)
Abbreviation results := (list (result * nat)).

Record t := mk {
  result_ : option nat;                       (* shared_ptr<MYSQL_RES> *)
  row_ : option (list (option bytes));
  num_fields_ : Z;                            (* unsigned int *)
  field_index_map_ : gmap bytes Z;
}.

(** [DBResult()]. *)
Definition empty : t := mk None None 0 ∅.

(** [emplace]: a name that is there already keeps its index. *)
Definition emplace (m : gmap bytes Z) (name : bytes) (i : Z) : gmap bytes Z :=
  match m !! name with Some _ => m | None => <[name := i]> m end.

Fixpoint index_fields (names : list bytes) (i : Z) (m : gmap bytes Z) : gmap bytes Z :=
  match names with
  | [] => m
  | name :: names => index_fields names (i + 1) (emplace m name i)
  end.

Definition make (p : option nat) (st : results) : outcome t :=
  match p with
  | None => Val empty
  | Some l =>
      match st !! l with
      | Some (r, _) =>
          let n := u32 (Z.of_nat (length (fields r))) in
          Val (mk p None n (index_fields (take (Z.to_nat n) (fields r)) 0 ∅))
      | None => Undefined
      end
  end.

Definition getNumFields (d : t) : Z := num_fields_ d.

Definition nextRow (d : t) (st : results) : outcome (bool * t * results) :=
  match result_ d with
  | None => Val (false, d, st)
  | Some l =>
      match st !! l with
      | Some (r, k) =>
          let row := rows r !! k in
          Val (bool_decide (row ≠ None), mk (result_ d) row (num_fields_ d) (field_index_map_ d),
               <[l := (r, if decide (row = None) then k else S k)]> st)
      | None => Undefined
      end
  end.

(** A [char *] that may be null. *)
Definition getRaw (index : Z) (d : t) : outcome (option bytes) :=
  match row_ d with
  | None => Val None
  | Some row =>
      if decide (num_fields_ d ≤ index) then Val None
      else match row !! Z.to_nat index with Some v => Val v | None => Undefined end
  end.

Definition getRaw_named (field_name : bytes) (d : t) : outcome (option bytes) :=
  match field_index_map_ d !! field_name with
  | None => Val None
  | Some i => getRaw (u32 i) d
  end.

(** ** Reading a result *)

(** The client library's promise: every row has a value for every field. *)
Definition well_formed (r : result) : Prop :=
  Z.of_nat (length (fields r)) < 2 ^ 31 ∧ Forall (λ row, length row = length (fields r)) (rows r).

(** The specification: the value of the first field of that name. *)
Fixpoint field_value (names : list bytes) (row : list (option bytes)) (name : bytes) : option bytes :=
  match names, row with
  | n :: names, v :: row => if decide (n = name) then v else field_value names row name
  | _, _ => None
  end.

Fixpoint first_index (names : list bytes) (i : Z) (name : bytes) : option Z :=
  match names with
  | [] => None
  | n :: names => if decide (n = name) then Some i else first_index names (i + 1) name
  end.

Lemma index_fields_spec names : ∀ i m name,
  index_fields names i m !! name =
    match m !! name with Some j => Some j | None => first_index names i name end.
Proof.
  induction names as [|n names IH]; intros i m name; cbn [index_fields first_index].
  - by destruct (m !! name).
  - rewrite IH. unfold emplace. case_decide as Hn.
    + subst n. destruct (m !! name) as [j|] eqn:E; [by rewrite E|]. by rewrite lookup_insert_eq.
    + destruct (m !! n) as [j|] eqn:E; [done|]. by rewrite lookup_insert_ne.
Qed.

Lemma first_index_field names : ∀ i name row, length row = length names →
  match first_index names i name with
  | Some j => i ≤ j < i + Z.of_nat (length names) ∧
      row !! Z.to_nat (j - i) = Some (field_value names row name)
  | None => field_value names row name = None
  end.
Proof.
  induction names as [|n names IH]; intros i name row Hl; destruct row as [|v row]; try done.
  injection Hl as Hl. cbn [first_index field_value]. case_decide as Hn.
  - split; [simpl; lia|]. by rewrite Z.sub_diag.
  - specialize (IH (i + 1) name row Hl). destruct (first_index names (i + 1) name) as [j|]; [|done].
    destruct IH as [Hj Hr]. split; [simpl length; lia|].
    replace (Z.to_nat (j - i)) with (S (Z.to_nat (j - (i + 1)))) by lia. exact Hr.
Qed.

(** [d] reads the result at [l], whose cursor is at [k]. *)
Definition reads (d : t) (l : nat) (r : result) (k : nat) (st : results) : Prop :=
  result_ d = Some l ∧ st !! l = Some (r, k) ∧ num_fields_ d = Z.of_nat (length (fields r)) ∧
  ∀ name, field_index_map_ d !! name = first_index (fields r) 0 name.

Lemma make_reads l r k st :
  well_formed r → st !! l = Some (r, k) →
  ∃ d, make (Some l) st = Val d ∧ reads d l r k st ∧ row_ d = None.
Proof.
  intros [Hf _] Hst. unfold make. rewrite Hst, wrap_small by (unfold in_unsigned; lia).
  rewrite Nat2Z.id, take_ge by done. eexists. split; [done|]. split; [|done].
  split_and!; try done. intros name. simpl. by rewrite index_fields_spec, lookup_empty.
Qed.

Lemma nextRow_reads d l r k st row :
  reads d l r k st → rows r !! k = Some row →
  ∃ d' st', nextRow d st = Val (true, d', st') ∧ reads d' l r (S k) st' ∧ row_ d' = Some row.
Proof.
  intros (H1 & H2 & H3 & H4) Hrow. unfold nextRow. rewrite H1, H2, Hrow. simpl.
  eexists _, _. split; [done|]. split; [|done]. split_and!; try done. simpl.
  apply list_lookup_insert_eq. by eapply lookup_lt_Some.
Qed.

Lemma nextRow_end d l r k st :
  reads d l r k st → rows r !! k = None →
  ∃ d' st', nextRow d st = Val (false, d', st') ∧ reads d' l r k st' ∧ row_ d' = None.
Proof.
  intros (H1 & H2 & H3 & H4) Hrow. unfold nextRow. rewrite H1, H2, Hrow. simpl.
  eexists _, _. split; [done|]. split; [|done]. split_and!; try done. simpl.
  apply list_lookup_insert_eq. by eapply lookup_lt_Some.
Qed.

Lemma getRaw_named_reads d l r k st row name :
  well_formed r → reads d l r k st → row_ d = Some row → row ∈ rows r →
  getRaw_named name d = Val (field_value (fields r) row name).
Proof.
  intros [Hf Hw] (H1 & H2 & H3 & H4) Hrow Hin. unfold getRaw_named. rewrite H4.
  rewrite Forall_forall in Hw. pose proof (first_index_field (fields r) 0 name row (Hw _ Hin)) as Hi.
  destruct (first_index (fields r) 0 name) as [j|]; [|by rewrite Hi].
  destruct Hi as [Hj Hv]. rewrite wrap_small by (unfold in_unsigned; lia).
  unfold getRaw. rewrite Hrow, H3, decide_False by lia. rewrite Z.sub_0_r in Hv. by rewrite Hv.
Qed.

(** Reading the column [name] row after row, until [nextRow] says no. *)
Fixpoint scan (fuel : nat) (name : bytes) (d : t) (st : results) : outcome (list (option bytes)) :=
  match fuel with
  | O => Undefined
  | S fuel =>
      '(more, d, st) ← nextRow d st;
      if more : bool then
        v ← getRaw_named name d;
        vs ← scan fuel name d st;
        Val (v :: vs)
      else Val []
  end.

Lemma scan_spec fuel name : ∀ d l r k st,
  well_formed r → reads d l r k st → (length (rows r) - k < fuel)%nat →
  scan fuel name d st = Val ((λ row, field_value (fields r) row name) <$> drop k (rows r)).
Proof.
  induction fuel as [|fuel IH]; intros d l r k st Hw Hr Hf; [lia|]. cbn [scan].
  destruct (rows r !! k) as [row|] eqn:Hk.
  - destruct (nextRow_reads _ _ _ _ _ _ Hr Hk) as (d' & st' & -> & Hr' & Hrow). cbn.
    rewrite (getRaw_named_reads d' l r (S k) st' row name Hw Hr' Hrow) by
      (by eapply list_elem_of_lookup_2).
    pose proof (lookup_lt_Some _ _ _ Hk). cbn. rewrite (IH d' l r (S k) st') by (done || lia).
    cbn. by rewrite (drop_S _ _ _ Hk).
  - destruct (nextRow_end _ _ _ _ _ Hr Hk) as (d' & st' & -> & _ & _). cbn.
    apply lookup_ge_None in Hk. by rewrite drop_ge.
Qed.

End DBResult.

Module DBOperator.

Import DBConnectionPool.

Record t := mk { db_config_ : DBConfig; pool_ : option DBConnectionPool.t }.

(** [try { m } catch (const std::exception &e) { h }]. *)
Definition catch {A} (m : M A) (h : string → M A) : M A := λ w,
  match m w with
  | Some (Throw e, w) => h e w
  | r => r
  end.

Definition lift {A} (r : outcome A) : M A := λ w, Some (r, w).

(** [initDBPool]; [mysql_library_init] says 0 when it worked. *)
Definition initDBPool (op : t) : M (bool * t) :=
  zero ← mysql_library_init;
  if zero : bool then
    p ← DBConnectionPool.make (db_config_ op);
    mret (bool_decide (0 < getPoolSize p), mk (db_config_ op) (Some p))
  else mret (false, op).

(** The pool's destructor on the only thread. *)
Definition destroy_pool (p : option DBConnectionPool.t) : M () :=
  match p with
  | Some p => _ ← close_pool (shut_down p); mret ()
  | None => mret ()
  end.

Definition make (db_config : DBConfig) : M t :=
  '(ok, op) ← initDBPool (mk db_config None);
  if ok : bool then mret op
  else _ ← destroy_pool (pool_ op); throw "[DBOperator::DBOperator] initDBPool failed".

(** The destructor's body, then the destruction of the member [pool_]. *)
Definition destroy (op : t) : M () := _ ← mysql_library_end; destroy_pool (pool_ op).

(** The function-local static: built by the first call that does not throw. *)
Definition getInstance (db_config : DBConfig) (instance : option t) : M t :=
  match instance with Some op => mret op | None => make db_config end.

Definition getConnection (p : DBConnectionPool.t) : M (option DBConnection.t * DBConnectionPool.t) :=
  if shutting_down_ p then mret (None, p)
  else lift (take_connection (bool_decide (DBConnectionPool.pool_ p ≠ [])) p).

(** A connection, used by [f] and given back at the end of the scope. *)
Definition borrow {A} (none : A) (f : DBConnection.t → M A) (p : DBConnectionPool.t)
    : M (A * DBConnectionPool.t) :=
  '(conn, p) ← getConnection p;
  match conn with
  | None => mret (none, p)
  | Some conn => a ← f conn; p ← give_back conn p; mret (a, p)
  end.

(** What [queryDB] builds its answer from goes into the store of results. *)
Definition new_result (r : option result) (st : DBResult.results) : option nat * DBResult.results :=
  match r with
  | Some r => (Some (length st), st ++ [(r, 0%nat)])
  | None => (None, st)
  end.

(** [pool_] is not tested here; an exception leaves the pool as it was. *)
Definition queryDB (sql : bytes) (op : t) (st : DBResult.results)
    : M (DBResult.t * DBResult.results * t) :=
  match pool_ op with
  | None => undefined
  | Some p =>
      catch
        ('(res, p) ← borrow None (DBConnection.query sql) p;
         let '(l, st) := new_result res st in
         d ← lift (DBResult.make l st);
         mret (d, st, mk (db_config_ op) (Some p)))
        (λ _, mret (DBResult.empty, st, op))
  end.

Definition executeDB (sql : bytes) (op : t) : M (bool * t) :=
  match pool_ op with
  | None => mret (false, op)
  | Some p =>
      catch
        ('(ok, p) ← borrow false (DBConnection.execute sql) p;
         mret (ok, mk (db_config_ op) (Some p)))
        (λ _, mret (false, op))
  end.

Definition batchInsertDB (sql : bytes) (op : t) : M (bool * t) :=
  match pool_ op with
  | None => mret (false, op)
  | Some p =>
      catch
        ('(ok, p) ← borrow false (DBConnection.batchInsert sql) p;
         mret (ok, mk (db_config_ op) (Some p)))
        (λ _, mret (false, op))
  end.

(** A thread's calls, one after the other. *)
Inductive request := QueryDB (sql : bytes) | ExecuteDB (sql : bytes).
Inductive answer := Rows (d : DBResult.t) | Done (ok : bool).

Definition serve (q : request) (op : t) (st : DBResult.results)
    : M (answer * t * DBResult.results) :=
  match q with
  | QueryDB sql => '(d, st, op) ← queryDB sql op st; mret (Rows d, op, st)
  | ExecuteDB sql => '(ok, op) ← executeDB sql op; mret (Done ok, op, st)
  end.

Fixpoint session (qs : list request) (op : t) (st : DBResult.results)
    : M (list answer * t * DBResult.results) :=
  match qs with
  | [] => mret ([], op, st)
  | q :: qs =>
      '(a, op, st) ← serve q op st;
      '(l, op, st) ← session qs op st;
      mret (a :: l, op, st)
  end.

(** ** The invariant *)

(** Every connection is in the pool, every open handle belongs to one. *)
Definition pool_ok (n : nat) (p : DBConnectionPool.t) (w : world) : Prop :=
  length (DBConnectionPool.pool_ p) = n ∧ active_connections_ p = 0 ∧ shutting_down_ p = false ∧
  live w ≡ₚ all_handles (DBConnectionPool.pool_ p) ∧ NoDup (live w).

Definition op_ok (n : nat) (op : t) (w : world) : Prop :=
  ∃ p, pool_ op = Some p ∧ pool_ok n p w.

Lemma pool_ok_owns n c q p w :
  pool_ok n p w → DBConnectionPool.pool_ p = c :: q → DBConnection.owns c (all_handles q) w.
Proof. intros (_ & _ & _ & Hl & Hn) Hq. apply owns_handles. rewrite Hq in Hl. by split. Qed.

(** Using a connection in a way that keeps it leaves the pool in order. *)
Lemma borrow_spec {A} n (none : A) f p w r w' :
  (∀ c others w r w', DBConnection.owns c others w → f c w = Some (r, w') →
     (∃ a, r = Val a) ∧ DBConnection.owns c others w') →
  pool_ok n p w → borrow none f p w = Some (r, w') →
  (∃ a p', r = Val (a, p') ∧ pool_ok n p' w') ∨ (∃ e, r = Throw e ∧ w' = w ∧ n = 0%nat).
Proof.
  intros Hf Hp H. pose proof Hp as (Hlen & Ha & Hs & Hl & Hn).
  unfold borrow in H. apply bind_inv in H as (r1 & w1 & Hg & H).
  unfold getConnection, lift in Hg. rewrite Hs in Hg. unfold take_connection in Hg. rewrite Hs in Hg.
  destruct (DBConnectionPool.pool_ p) as [|c q] eqn:Hq.
  - rewrite bool_decide_eq_false_2 in Hg by (intros Hc; by apply Hc).
    injection Hg as <- <-. destruct H as [-> ->]. right. eexists. by split_and!.
  - rewrite bool_decide_eq_true_2 in Hg by discriminate. injection Hg as <- <-. left.
    pose proof (pool_ok_owns _ _ _ _ _ Hp Hq) as Ho.
    apply bind_inv in H as (r2 & w2 & Hfc & H). destruct (Hf _ _ _ _ _ Ho Hfc) as [[a ->] Ho2].
    apply bind_inv in H as (r3 & w3 & Hb & H).
    destruct (give_back_spec _ _ _ _ _ _ Ho2 Hb) as (c' & -> & Ho3).
    unfold mret, M_ret in H. injection H as <- <-. eexists _, _. split; [done|].
    apply owns_handles in Ho3 as [Hl3 Hn3]. split_and!; simpl; try done; try lia.
    + rewrite length_app. simpl in *. lia.
    + rewrite Hl3, all_handles_app. unfold all_handles at 3. simpl. rewrite app_nil_r.
      apply Permutation_app_comm.
Qed.

Lemma executeDB_ok n sql op w r w' :
  op_ok n op w → executeDB sql op w = Some (r, w') →
  ∃ ok op', r = Val (ok, op') ∧ op_ok n op' w'.
Proof.
  intros (p & Hp & Hok) H. unfold executeDB in H. rewrite Hp in H. unfold catch in H.
  match type of H with match ?m with _ => _ end = _ => destruct m as [[r1 w1]|] eqn:E; [|done] end.
  apply bind_inv in E as (r2 & w2 & Hb & E).
  destruct (borrow_spec _ _ _ _ _ _ _ (DBConnection.execute_spec sql) Hok Hb)
    as [(a & p' & -> & Hok')|(e & -> & -> & Hn)].
  - unfold mret, M_ret in E. injection E as <- <-. injection H as <- <-.
    eexists _, _. split; [done|]. by exists p'.
  - destruct E as [-> ->]. injection H as <- <-. eexists _, _. split; [done|]. by exists p.
Qed.

Lemma new_result_make res st :
  ∃ d, DBResult.make (new_result res st).1 (new_result res st).2 = Val d.
Proof.
  destruct res as [r|]; [|by eexists].
  assert (Hr : (st ++ [(r, 0%nat)]) !! length st = Some (r, 0%nat)) by by apply list_lookup_middle.
  unfold new_result. cbn [fst snd]. unfold DBResult.make. rewrite Hr. by eexists.
Qed.

Lemma queryDB_ok n sql op st w r w' :
  op_ok n op w → queryDB sql op st w = Some (r, w') →
  ∃ d st' op', r = Val (d, st', op') ∧ op_ok n op' w'.
Proof.
  intros (p & Hp & Hok) H. unfold queryDB in H. rewrite Hp in H. unfold catch in H.
  match type of H with match ?m with _ => _ end = _ => destruct m as [[r1 w1]|] eqn:E; [|done] end.
  apply bind_inv in E as (r2 & w2 & Hb & E).
  destruct (borrow_spec _ _ _ _ _ _ _ (DBConnection.query_spec sql) Hok Hb)
    as [(res & p' & -> & Hok')|(e & -> & -> & Hn)].
  - pose proof (new_result_make res st) as [d Hd]. destruct (new_result res st) as [l st'].
    simpl in Hd. unfold lift, mbind, M_bind, mret, M_ret in E. rewrite Hd in E.
    injection E as <- <-. injection H as <- <-. eexists _, _, _. split; [done|]. by exists p'.
  - destruct E as [-> ->]. injection H as <- <-. eexists _, _, _. split; [done|]. by exists p.
Qed.

Lemma session_ok n qs : ∀ op st w r w',
  op_ok n op w → session qs op st w = Some (r, w') →
  ∃ l op' st', r = Val (l, op', st') ∧ length l = length qs ∧ op_ok n op' w'.
Proof.
  induction qs as [|q qs IH]; intros op st w r w' Hok H; cbn [session] in H.
  - unfold mret, M_ret in H. injection H as <- <-. by exists [], op, st.
  - apply bind_inv in H as (r1 & w1 & Hq & H).
    assert (∃ a op1 st1, r1 = Val (a, op1, st1) ∧ op_ok n op1 w1) as (a & op1 & st1 & -> & Hok1).
    { destruct q as [sql|sql]; cbn [serve] in Hq; apply bind_inv in Hq as (r2 & w2 & Hc & Hq).
      - destruct (queryDB_ok _ _ _ _ _ _ _ Hok Hc) as (d & st' & op' & -> & Hok').
        unfold mret, M_ret in Hq. injection Hq as <- <-. eauto 6.
      - destruct (executeDB_ok _ _ _ _ _ _ Hok Hc) as (ok & op' & -> & Hok').
        unfold mret, M_ret in Hq. injection Hq as <- <-. eauto 6. }
    apply bind_inv in H as (r2 & w2 & Hs & H).
    destruct (IH _ _ _ _ _ Hok1 Hs) as (l & op2 & st2 & -> & Hl & Hok2).
    unfold mret, M_ret in H. injection H as <- <-. exists (a :: l), op2, st2. split_and!; [done|by simpl; rewrite Hl|done].
Qed.

(** Building the operator: it is in order, or it throws and nothing stays open. *)
Lemma make_op_ok cfg w r w' :
  live w = [] → make cfg w = Some (r, w') →
  (∃ op n, r = Val op ∧ op_ok n op w' ∧ (0 < n ≤ pool_size cfg)%nat) ∨
  (∃ e, r = Throw e ∧ live w' = []).
Proof.
  intros Hl0 H. unfold make in H. apply bind_inv in H as (r1 & w1 & Hi & H).
  unfold initDBPool in Hi. apply bind_inv in Hi as (r2 & w2 & Hlib & Hi).
  unfold mysql_library_init in Hlib. destruct (replies w) as [|[| | | | | |z] rs]; try done.
  injection Hlib as <- <-. destruct z.
  - apply bind_inv in Hi as (r3 & w3 & Hm & Hi). cbn [db_config_] in Hm.
    apply fill_spec in Hm as (p & -> & Hlen & Hl & Hn & Hs & Ha); [|simpl; by rewrite Hl0|].
    2: { simpl. rewrite Hl0. constructor. }
    unfold mret, M_ret in Hi. injection Hi as <- <-. simpl in Hlen.
    case_bool_decide as Hsize.
    + unfold mret, M_ret in H. injection H as <- <-. left.
      exists (mk cfg (Some p)), (length (DBConnectionPool.pool_ p)). split; [done|]. split.
      * exists p. by split_and!.
      * split; [|done]. destruct (DBConnectionPool.pool_ p) eqn:Hp; [|simpl; lia].
        unfold getPoolSize in Hsize. rewrite Hp in Hsize. vm_compute in Hsize. discriminate Hsize.
    + apply bind_inv in H as (r4 & w4 & Hd & H). simpl in Hd.
      apply bind_inv in Hd as (r5 & w5 & Hc & Hd).
      unfold close_pool in Hc. apply bind_inv in Hc as (r6 & w6 & Hc & Hc').
      apply (close_all_spec _ []) in Hc as (-> & Hl6 & _); [|by rewrite app_nil_r|done].
      apply Permutation_nil_r in Hl6.
      unfold mret, M_ret, throw in *. injection Hc' as <- <-. injection Hd as <- <-.
      injection H as <- <-. right. eauto.
  - unfold mret, M_ret in Hi. injection Hi as <- <-.
    unfold mbind, M_bind, mret, M_ret, throw in H. simpl in H. injection H as <- <-. right. eauto.
Qed.
End DBOperator.

Import DBConnectionPool DBOperator.
Abbreviation well_formed := DBResult.well_formed.
Abbreviation field_value := DBResult.field_value.

(** ** Running the calls *)

Lemma ask_run h get made w r rs b :
  h ∈ live w → replies w = r :: rs → get r = Some b →
  ask h get made w = Some (Val b, World rs (live w) (calls w ++ made)).
Proof. intros Hh Hr Hb. unfold ask. by rewrite decide_True, Hr, Hb by done. Qed.

Lemma isConnected_run c h w zero rs :
  DBConnection.mysql_ c = Some h → h ∈ live w → replies w = RPing zero :: rs →
  DBConnection.isConnected c w = Some (Val zero, World rs (live w) (calls w)).
Proof.
  intros Hm Hh Hr. unfold DBConnection.isConnected. rewrite Hm.
  unfold mysql_ping. erewrite ask_run by done. by rewrite app_nil_r.
Qed.

Lemma getConnection_run n c q p w :
  pool_ok n p w → DBConnectionPool.pool_ p = c :: q →
  DBOperator.getConnection p w = Some (Val (Some c, DBConnectionPool.mk q
    (DBConnectionPool.db_config_ p) false 1), w).
Proof.
  intros (_ & Ha & Hs & _ & _) Hq. unfold DBOperator.getConnection, take_connection, lift.
  by rewrite Hs, Hq, bool_decide_eq_true_2, Ha by done.
Qed.

Lemma bind_Val {A B} (f : A → M B) (m : M A) w a w1 :
  m w = Some (Val a, w1) → mbind f m w = f a w1.
Proof. intros H. unfold mbind, M_bind. by rewrite H. Qed.

(** The answers to [mysql_init] and [mysql_real_connect], what handle a new connection
    has then, and what was opened and closed. *)
Inductive reopening : list reply → option handle → list call → Prop :=
| reopened h : reopening [RInit (Some h); RConnect true] (Some h) [Opened h]
| refused h : reopening [RInit (Some h); RConnect false] None [Opened h; Closed h]
| no_handle : reopening [RInit None] None [].

Lemma open_run cfg ans new cs w rs :
  reopening ans new cs → (∀ h, RInit (Some h) ∈ ans → h ∉ live w) → replies w = ans ++ rs →
  ∃ ok live', DBConnection.connect (DBConnection.make cfg) w =
    Some (Val (ok, DBConnection.mk cfg new), World rs live' (calls w ++ cs)).
Proof.
  intros Ho Hf Hr. unfold DBConnection.connect, DBConnection.isConnected.
  cbn [DBConnection.mysql_ DBConnection.make]. unfold mbind, M_bind, mret, M_ret. unfold mysql_init. rewrite Hr.
  destruct Ho as [h|h|]; cbn [app].
  - rewrite decide_False by (apply Hf; by left). unfold mysql_real_connect.
    erewrite ask_run; [|by left|done|done]. cbn [live calls]. rewrite app_nil_r. by eexists _, _.
  - rewrite decide_False by (apply Hf; by left). unfold mysql_real_connect.
    erewrite ask_run; [|by left|done|done]. unfold mysql_close. cbn [live calls replies].
    rewrite decide_True by by left. rewrite app_nil_r, <- app_assoc. by eexists _, _.
  - rewrite app_nil_r. by eexists _, _.
Qed.

(** The answers when the connection [c] is given back, the connection that goes into the
    pool, and what was opened and closed: it still answers, it is dead, or it has no
    handle. *)
Inductive returning (cfg : DBConfig) (c : DBConnection.t) : list reply → DBConnection.t → list call → Prop :=
| still_alive h :
    DBConnection.mysql_ c = Some h → returning cfg c [RPing true] c []
| was_dead h ans new cs :
    DBConnection.mysql_ c = Some h → reopening ans new cs →
    returning cfg c (RPing false :: ans) (DBConnection.mk cfg new) (Closed h :: cs)
| had_none ans new cs :
    DBConnection.mysql_ c = None → reopening ans new cs → returning cfg c ans (DBConnection.mk cfg new) cs.

(** A new handle is not one that is open, but for the one that was closed before. *)
Definition fresh (c : DBConnection.t) (back : list reply) (l : list handle) : Prop :=
  ∀ h, RInit (Some h) ∈ back → h ∈ l → DBConnection.mysql_ c = Some h.

Lemma give_back_run c back c' cs p w others rs :
  returning (DBConnectionPool.db_config_ p) c back c' cs → DBConnection.owns c others w →
  fresh c back (live w) → replies w = back ++ rs →
  ∃ live', give_back c p w = Some (Val (DBConnectionPool.mk (DBConnectionPool.pool_ p ++ [c'])
    (DBConnectionPool.db_config_ p) (shutting_down_ p) (active_connections_ p - 1)),
    World rs live' (calls w ++ cs)).
Proof.
  intros Hret Ho Hf Hr. unfold give_back. destruct Hret as [h Hm|h ans new cs Hm Hre|ans new cs Hm Hre].
  - rewrite (bind_Val _ _ _ _ _ (isConnected_run c h w true rs Hm (DBConnection.owns_elem _ _ _ _ Ho Hm) Hr)).
    rewrite app_nil_r. by eexists.
  - pose proof (DBConnection.owns_elem _ _ _ _ Ho Hm) as Hh.
    rewrite (bind_Val _ _ _ _ _ (isConnected_run c h w false (ans ++ rs) Hm Hh Hr)).
    set (w1 := World (ans ++ rs) (filter (λ x, x ≠ h) (live w)) (calls w ++ [Closed h])).
    assert (Hd : DBConnection.disconnect c (World (ans ++ rs) (live w) (calls w)) =
      Some (Val (true, DBConnection.mk (DBConnection.db_config_ c) None), w1)).
    { unfold DBConnection.disconnect, mbind, M_bind, mysql_close. rewrite Hm. cbn [live].
      by rewrite decide_True by done. }
    destruct (open_run (DBConnectionPool.db_config_ p) ans new cs w1 rs Hre) as (ok & live' & E); [|done|].
    { intros h' Hin Hl. apply list_elem_of_filter in Hl as [Hne Hl].
      specialize (Hf h' (list_elem_of_further _ _ _ Hin) Hl). congruence. }
    exists live'. unfold mbind at 1, M_bind at 1. unfold mbind at 1, M_bind at 1. rewrite Hd.
    unfold DBConnection.destroy, DBConnection.disconnect. cbn [DBConnection.mysql_].
    unfold mbind, M_bind, mret, M_ret. rewrite E. cbn [calls w1]. by rewrite <- app_assoc.
  - destruct (open_run (DBConnectionPool.db_config_ p) ans new cs w rs Hre) as (ok & live' & E); [|done|].
    { intros h' Hin Hl. specialize (Hf h' Hin Hl). congruence. }
    exists live'. unfold DBConnection.isConnected, DBConnection.destroy, DBConnection.disconnect. rewrite Hm.
    unfold mbind, M_bind, mret, M_ret. rewrite Hm. by rewrite E.
Qed.

(** A connection that does not answer, or has no handle. *)
Definition silent (c : DBConnection.t) (asked : list reply) : Prop :=
  match DBConnection.mysql_ c with Some _ => asked = [RPing false] | None => asked = [] end.

Lemma isConnected_silent c asked w others rs :
  DBConnection.owns c others w → silent c asked → replies w = asked ++ rs →
  DBConnection.isConnected c w = Some (Val false, World rs (live w) (calls w)).
Proof.
  intros Ho Hs Hr. unfold silent in Hs. destruct (DBConnection.mysql_ c) as [h|] eqn:Hm; subst asked.
  - apply (isConnected_run c h); [done|by eapply DBConnection.owns_elem|done].
  - unfold DBConnection.isConnected. rewrite Hm. by destruct w; simpl in Hr; subst.
Qed.

(** C33. One thread's whole use of the database: building the operator and then
    serving any sequence of queries and statements is never undefined, whatever
    the client library answers; if the operator cannot be built an exception
    leaves no handle open, and afterwards no exception escapes, every request is
    answered, and all of the 1 to [pool_size] connections are back in the pool,
    which holds every open handle exactly once. *)
Theorem operator_session (cfg : DBConfig) (qs : list request) (st : DBResult.results) (w : world) r w' :
  live w = [] →
  (op ← DBOperator.make cfg; session qs op st) w = Some (r, w') →
  (∃ e, r = Throw e ∧ live w' = []) ∨
  (∃ l op st' n, r = Val (l, op, st') ∧ length l = length qs ∧
     op_ok n op w' ∧ (0 < n ≤ pool_size cfg)%nat).
Proof.
  intros Hl H. apply bind_inv in H as (r1 & w1 & Hm & H).
  destruct (make_op_ok _ _ _ _ Hl Hm) as [(op & n & -> & Hok & Hn)|(e & -> & Hl')].
  - right. destruct (session_ok _ _ _ _ _ _ _ Hok H) as (l & op' & st' & -> & Hlen & Hok').
    by exists l, op', st', n.
  - left. destruct H as [-> ->]. eauto.
Qed.

Definition two_config : DBConfig := MkDBConfig [] [] [] [] 3306 3 3 3 3000 2.
Definition two_replies : list reply :=
  [RLibraryInit true; RInit (Some 1); RConnect true; RPing true; RInit (Some 2); RConnect true;
   RPing true; RPing true; RQuery true; RStore None; RPing true; RPing false; RPing true].

Lemma operator_session_witness :
  ∃ r w', (op ← DBOperator.make two_config;
           session [QueryDB (str "q"); ExecuteDB (str "e")] op []) (World two_replies [] []) = Some (r, w') ∧
    ((∃ e, r = Throw e ∧ live w' = []) ∨
     (∃ l op st' n, r = Val (l, op, st') ∧ length l = 2%nat ∧ op_ok n op w' ∧ (0 < n ≤ 2)%nat)).
Proof.
  eexists _, _.
  assert (H : (op ← DBOperator.make two_config;
     session [QueryDB (str "q"); ExecuteDB (str "e")] op []) (World two_replies [] []) = _)
    by (vm_compute; reflexivity).
  split; [exact H|].
  exact (operator_session two_config [QueryDB (str "q"); ExecuteDB (str "e")] []
           (World two_replies [] []) _ _ eq_refl H).
Defined.

(** C34. [executeDB] on the first connection [c] of the pool, in every case.  When it
    answers, the statement up to its first zero, which ends a C string, is sent on its
    handle, and the result is the library's; when it is dead or has no handle, nothing is
    sent and the call reports failure.  In each case the connection is then given back:
    it goes to the end of the pool if it still answers; otherwise its handle, if it has
    one, is closed, and a new connection goes there, with a new handle when [mysql_init]
    and [mysql_real_connect] succeed, and with none, which the pool hands out like any
    other, when one of them fails. *)
Theorem executeDB_behaviour n op p c q sql w rs back c' cs :
  pool_ op = Some p → pool_ok n p w → DBConnectionPool.pool_ p = c :: q →
  returning (DBConnectionPool.db_config_ p) c back c' cs → fresh c back (live w) →
  let ends ok made :=
    ∃ p' live', executeDB sql op w = Some (Val (ok, DBOperator.mk (DBOperator.db_config_ op) (Some p')),
      World rs live' (calls w ++ made ++ cs)) ∧ DBConnectionPool.pool_ p' = q ++ [c'] in
  (∀ h ok, DBConnection.mysql_ c = Some h → replies w = RPing true :: RQuery ok :: back ++ rs →
   ends ok [Query h (c_str sql)]) ∧
  (∀ asked, silent c asked → replies w = asked ++ back ++ rs → ends false []).
Proof.
  intros Hop Hp Hq Hret Hf ends. pose proof (pool_ok_owns _ _ _ _ _ Hp Hq) as Ho.
  pose proof (getConnection_run _ _ _ _ _ Hp Hq) as Hg.
  set (p1 := DBConnectionPool.mk q (DBConnectionPool.db_config_ p) false 1).
  assert (Hend : ∀ ok made,
    DBConnection.execute sql c w = Some (Val ok, World (back ++ rs) (live w) (calls w ++ made)) → ends ok made).
  { intros ok made He.
    destruct (give_back_run c back c' cs p1 (World (back ++ rs) (live w) (calls w ++ made))
      (all_handles q) rs Hret Ho Hf eq_refl) as (live' & Hb).
    unfold ends, executeDB, catch, borrow. rewrite Hop. unfold mbind, M_bind. rewrite Hg, He. fold p1. rewrite Hb.
    cbn. eexists _, live'. split; [by rewrite <- app_assoc|done]. }
  split.
  - intros h ok Hm Hr. apply Hend. pose proof (DBConnection.owns_elem _ _ _ _ Ho Hm) as Hh.
    unfold DBConnection.execute. rewrite (bind_Val _ _ _ _ _ (isConnected_run c h w true _ Hm Hh Hr)), Hm.
    exact (ask_run h _ _ (World (RQuery ok :: back ++ rs) (live w) (calls w)) _ _ _ Hh eq_refl eq_refl).
  - intros asked Hs Hr. apply Hend. unfold DBConnection.execute.
    rewrite (bind_Val _ _ _ _ _ (isConnected_silent c asked w _ _ Ho Hs Hr)). by rewrite app_nil_r.
Qed.

(** An operator with one connection, whose handle is 1. *)
Definition one_pool : DBConnectionPool.t :=
  DBConnectionPool.mk [DBConnection.mk two_config (Some 1)] two_config false 0.
Definition one_op : DBOperator.t := DBOperator.mk two_config (Some one_pool).

Lemma one_ok rs : pool_ok 1 one_pool (World rs [1] []).
Proof. split_and!; try done. by apply NoDup_singleton. Qed.

(** The connection is dead, and the server is down. *)
Lemma executeDB_behaviour_witness :
  ∃ p' live', executeDB (str "x") one_op
      (World [RPing false; RPing false; RInit (Some 2); RConnect false] [1] []) =
    Some (Val (false, DBOperator.mk two_config (Some p')), World [] live' [Closed 1; Opened 2; Closed 2]) ∧
    DBConnectionPool.pool_ p' = [DBConnection.mk two_config None].
Proof.
  set (c := DBConnection.mk two_config (Some 1)).
  assert (Hf : fresh c [RPing false; RInit (Some 2); RConnect false] [1]).
  { intros h Hin Hl. apply list_elem_of_singleton in Hl as ->. reflexivity. }
  exact (proj2 (executeDB_behaviour 1 one_op one_pool c [] (str "x")
    (World [RPing false; RPing false; RInit (Some 2); RConnect false] [1] []) []
    _ _ _ eq_refl (one_ok _) eq_refl (was_dead _ c 1 _ _ _ eq_refl (refused 2)) Hf) [RPing false] eq_refl eq_refl).
Defined.

(** C35. Queries: when the first connection of the pool answers and the library has
    a well-formed result, the cursor [queryDB] returns yields, for every field
    name, exactly the values of the first field of that name in all the rows in
    order, and null for a name the result does not have; when that connection is dead or
    has no handle, the cursor has no rows, whether or not the pool succeeds in opening a
    new connection in its place. *)
Theorem queryDB_rows n op p c q sql st w rs back c' cs :
  pool_ op = Some p → pool_ok n p w → DBConnectionPool.pool_ p = c :: q →
  returning (DBConnectionPool.db_config_ p) c back c' cs → fresh c back (live w) →
  (∀ h r, DBConnection.mysql_ c = Some h → well_formed r →
   replies w = RPing true :: RQuery true :: RStore (Some r) :: back ++ rs →
   ∃ d st' op' w', queryDB sql op st w = Some (Val (d, st', op'), w') ∧
     ∀ name, DBResult.scan (S (length (rows r))) name d st' =
       Val ((λ row, field_value (fields r) row name) <$> rows r)) ∧
  (∀ asked, silent c asked → replies w = asked ++ back ++ rs →
   ∃ op' w', queryDB sql op st w = Some (Val (DBResult.empty, st, op'), w') ∧
     ∀ name, DBResult.scan 1 name DBResult.empty st = Val []).
Proof.
  intros Hop Hp Hq Hret Hf. pose proof (pool_ok_owns _ _ _ _ _ Hp Hq) as Ho.
  pose proof (getConnection_run _ _ _ _ _ Hp Hq) as Hg.
  set (p1 := DBConnectionPool.mk q (DBConnectionPool.db_config_ p) false 1) in Hg.
  unfold queryDB, catch, borrow. rewrite Hop. split.
  - intros h r Hm Hw Hr. pose proof (DBConnection.owns_elem _ _ _ _ Ho Hm) as Hh.
    set (w1 := World (back ++ rs) (live w) (calls w ++ [Query h (c_str sql)])).
    assert (He : DBConnection.query sql c w = Some (Val (Some r), w1)).
    { unfold DBConnection.query.
      rewrite (bind_Val _ _ _ _ _ (isConnected_run c h w true _ Hm Hh Hr)), Hm.
      pose proof (ask_run h (λ r, match r with RQuery zero => Some zero | _ => None end) [Query h (c_str sql)]
        (World (RQuery true :: RStore (Some r) :: back ++ rs) (live w) (calls w)) _ _ _
        Hh eq_refl eq_refl) as Ha.
      unfold mysql_query. by rewrite (bind_Val _ _ _ _ _ Ha). }
    destruct (give_back_run c back c' cs p1 w1 (all_handles q) rs Hret Ho Hf eq_refl) as (live' & Hb).
    unfold mbind, M_bind. rewrite Hg, He, Hb.
    destruct (DBResult.make_reads (length st) r 0 (st ++ [(r, 0%nat)]) Hw) as (d & Hd & Hreads & _);
      [by apply list_lookup_middle|].
    unfold mret, M_ret, new_result, DBOperator.lift. cbv beta iota. rewrite Hd. eexists _, _, _, _. split; [reflexivity|]. intros name.
    rewrite (DBResult.scan_spec _ _ _ (length st) r 0) by (done || lia). by rewrite drop_0.
  - intros asked Hs Hr. set (w1 := World (back ++ rs) (live w) (calls w)).
    assert (He : DBConnection.query sql c w = Some (Val None, w1)).
    { unfold DBConnection.query. by rewrite (bind_Val _ _ _ _ _ (isConnected_silent c asked w _ _ Ho Hs Hr)). }
    destruct (give_back_run c back c' cs p1 w1 (all_handles q) rs Hret Ho Hf eq_refl) as (live' & Hb).
    unfold mbind, M_bind. rewrite Hg, He, Hb. cbn. eexists _, _. by split.
Qed.

(** Two fields of the same name and one of another, two rows. *)
Definition sample_result : result :=
  Result [str "a"; str "b"; str "a"]
    [[Some (str "1"); None; Some (str "2")]; [Some (str "3"); Some (str "4"); None]].

Lemma queryDB_rows_witness :
  ∃ d st' op' w', queryDB (str "q") one_op []
      (World [RPing true; RQuery true; RStore (Some sample_result); RPing true] [1] []) =
    Some (Val (d, st', op'), w') ∧
    DBResult.scan 3 (str "a") d st' = Val [Some (str "1"); Some (str "3")].
Proof.
  assert (Hw : well_formed sample_result)
    by (split; [reflexivity|repeat constructor]).
  set (c := DBConnection.mk two_config (Some 1)).
  assert (Hf : fresh c [RPing true] [1]) by (intros h Hin Hl; by apply list_elem_of_singleton in Hl as ->).
  destruct (proj1 (queryDB_rows 1 one_op one_pool c [] (str "q")
    [] (World [RPing true; RQuery true; RStore (Some sample_result); RPing true] [1] []) []
    _ _ _ eq_refl (one_ok _) eq_refl (still_alive _ c 1 eq_refl) Hf) 1 sample_result eq_refl Hw eq_refl)
    as (d & st' & op' & w' & H & Hs).
  exists d, st', op', w'. split; [exact H|exact (Hs (str "a"))].
Defined.

(** [close_all] closes the handles in the order of the queue. *)
Lemma close_all_calls cs : ∀ w others r w',
  live w ≡ₚ all_handles cs ++ others → NoDup (live w) → close_all cs w = Some (r, w') →
  calls w' = calls w ++ (Closed <$> all_handles cs).
Proof.
  induction cs as [|c cs IH]; intros w others r w' Hl Hn H; cbn [close_all] in H.
  - unfold mret, M_ret in H. injection H as <- <-. by rewrite app_nil_r.
  - assert (Ho : DBConnection.owns c (all_handles cs ++ others) w).
    { apply owns_handles. split; [|done]. by rewrite app_assoc. }
    apply bind_inv in H as (r1 & w1 & Hd & H).
    assert (Hc : calls w1 = calls w ++ (Closed <$> handles c)).
    { unfold DBConnection.disconnect, handles in *. destruct (DBConnection.mysql_ c) as [h|] eqn:Hm.
      - apply bind_inv in Hd as (r2 & w2 & Hcl & Hd). unfold mysql_close in Hcl.
        rewrite decide_True in Hcl by (by eapply DBConnection.owns_elem).
        injection Hcl as <- <-. by injection Hd as <- <-.
      - injection Hd as <- <-. by rewrite app_nil_r. }
    apply (DBConnection.disconnect_spec _ _ _ _ _ Ho) in Hd as [-> [Hl1 Hn1]].
    apply bind_inv in H as (r2 & w2 & Hd & H). injection Hd as <- <-.
    rewrite (IH w1 others r w' Hl1 Hn1 H), Hc. unfold all_handles.
    by rewrite fmap_cons, <- app_assoc, <- fmap_app.
Qed.

(** Destroying the operator: it always finishes and leaves no handle open, but
    the client library is shut down first: every connection of the pool is closed
    after [mysql_library_end], because the destructor's body runs before the
    member [pool_] is destroyed. *)
Theorem operator_ends_library_first n op p w :
  pool_ op = Some p → pool_ok n p w →
  ∃ w', DBOperator.destroy op w = Some (Val (), w') ∧ live w' = [] ∧
    calls w' = calls w ++ LibraryEnd :: (Closed <$> all_handles (DBConnectionPool.pool_ p)).
Proof.
  intros Hop (_ & _ & _ & Hl & Hn).
  set (w1 := World (replies w) (live w) (calls w ++ [LibraryEnd])).
  assert (Hl1 : live w1 ≡ₚ all_handles (DBConnectionPool.pool_ p) ++ []) by (by rewrite app_nil_r).
  destruct (close_all_runs _ w1 [] Hl1 Hn) as (w' & Hc & _). exists w'. split_and!.
  - unfold DBOperator.destroy, DBOperator.destroy_pool, close_pool, mbind, M_bind. rewrite Hop. cbn.
    fold w1. by rewrite Hc.
  - apply Permutation_nil_r. by eapply (close_all_spec _ [] w1 _ w').
  - rewrite (close_all_calls _ w1 [] _ w' Hl1 Hn Hc). simpl. by rewrite <- app_assoc.
Qed.

Lemma operator_ends_library_first_witness :
  ∃ w', DBOperator.destroy one_op (World [] [1] []) = Some (Val (), w') ∧
    calls w' = [LibraryEnd; Closed 1].
Proof.
  destruct (operator_ends_library_first 1 one_op one_pool (World [] [1] []) eq_refl (one_ok _))
    as (w' & H & _ & Hc).
  exists w'. split; [exact H|exact Hc].
Defined.
