(* ===== verification/Config.v ===== *)
(** * The configuration file ([config/parameters.h], [config/configs_loader.cpp])

    The tree of the YAML library with the operations the loader uses
    ([yaml-cpp/node/impl.h], [yaml-cpp/node/detail/impl.h],
    [yaml-cpp/node/convert.h]; reading a file is the library's compiled part and a
    parameter), the parameters and the loader.  The [int] members of a
    [Parameters] that nothing has assigned are indeterminate: [None]. *)

From S2P Require Import Prelude JsonText JsonRead.
From Stdlib Require Import Strings.Byte.

Open Scope Z_scope.

(** ** YAML *)
Module YAML.

Inductive node :=
| NUndefined
| NNull
| NScalar (s : bytes)
| NSequence (l : list node)
| NMap (kvs : list (node * node)).

(** [node::equals(key)] for a string key. *)
Definition equals (key : bytes) (n : node) : bool :=
  match n with NScalar s => bool_decide (s = key) | _ => false end.

Fixpoint find_pair (key : bytes) (kvs : list (node * node)) : node :=
  match kvs with
  | [] => NUndefined
  | (k, v) :: kvs => if equals key k then v else find_pair key kvs
  end.

(** [node[key]] for a string key.  A node that is not a map becomes one, its
    elements under numbers, and a pair for the key is added when there is none; the
    value is then undefined, as it is for every later lookup. *)
Definition get (key : bytes) (n : node) : outcome node :=
  match n with
  | NMap kvs => Val (find_pair key kvs)
  | NUndefined | NNull | NSequence _ => Val NUndefined
  | NScalar _ => Throw "operator[] call on a scalar"
  end.

Definition IsDefined (n : node) : bool :=
  match n with NUndefined => false | _ => true end.

Definition as_string (n : node) : outcome bytes :=
  match n with NScalar s => Val s | _ => Throw "bad conversion" end.

(** *** [std::istream >> int] with no base flag set *)

Definition digit (base : Z) (c : byte) : option Z :=
  let z := b2z c in
  let d := if (48 <=? z) && (z <=? 57) then z - 48
           else if (97 <=? z) && (z <=? 102) then z - 87
           else if (65 <=? z) && (z <=? 70) then z - 55 else 16 in
  if d <? base then Some d else None.

(** The longest run of digits of [s], its value, and what follows it. *)
Fixpoint digits (base : Z) (s : bytes) (acc : Z) : Z * bytes :=
  match s with
  | [] => (acc, [])
  | c :: s' => match digit base c with
               | Some d => digits base s' (acc * base + d)
               | None => (acc, s)
               end
  end.

(** The number at the beginning of [s], its base taken from its prefix. *)
Definition magnitude (s : bytes) : option (Z * bytes) :=
  match s with
  | x30 :: (x78 | x58) :: s' =>
      match s' with
      | c :: _ => match digit 16 c with Some _ => Some (digits 16 s' 0) | None => None end
      | [] => None
      end
  | x30 :: s' => Some (digits 8 s' 0)
  | c :: _ => match digit 10 c with Some _ => Some (digits 10 s 0) | None => None end
  | [] => None
  end.

Definition extract_int (s : bytes) : option (Z * bytes) :=
  let '(neg, s) := match s with
                   | x2d :: s => (true, s)
                   | x2b :: s => (false, s)
                   | _ => (false, s)
                   end in
  '(m, rest) ← magnitude s;
  let z := if neg : bool then - m else m in
  if decide (in_signed 32 z) then Some (z, rest) else None.

(** [std::ws]: nothing but white space remains. *)
Definition is_space (c : byte) : bool :=
  let z := b2z c in (z =? 32) || ((9 <=? z) && (z <=? 13)).

Definition as_int (n : node) : outcome Z :=
  match n with
  | NScalar s =>
      match extract_int s with
      | Some (z, rest) => if forallb is_space rest then Val z else Throw "bad conversion"
      | None => Throw "bad conversion"
      end
  | _ => Throw "bad conversion"
  end.

End YAML.
Import YAML.

(** ** Parameters *)

Record DatabaseParams := MkDatabase {
  db_host : bytes;
  db_port : option Z;
  db_user : bytes;
  db_password : bytes;
  db_name : bytes;
}.
Record RetentionParams := MkRetention {
  history_retention_days : option Z;
  trend_retention_days : option Z;
}.
Record LogParams := MkLog {
  log_dir : bytes;
  max_log_file_size : option Z;
  max_log_file_num : option Z;
  log_level : bytes;
}.
(** [HTTPServerParams] and [TCPParams] have the same members. *)
Record ServerParams := MkServer { server_host : bytes; server_port : option Z }.

Record Parameters := MkParameters {
  db_params : DatabaseParams;
  retention_params : RetentionParams;
  log_params : LogParams;
  http_server_params : ServerParams;
  tcp_server_params : ServerParams;
}.

(** [Parameters params;]: empty strings, indeterminate integers. *)
Definition uninitialized : Parameters :=
  MkParameters (MkDatabase [] None [] [] []) (MkRetention None None) (MkLog [] None None [])
    (MkServer [] None) (MkServer [] None).

Definition with_db (d : DatabaseParams) (p : Parameters) : Parameters :=
  MkParameters d (retention_params p) (log_params p) (http_server_params p) (tcp_server_params p).
Definition with_retention (r : RetentionParams) (p : Parameters) : Parameters :=
  MkParameters (db_params p) r (log_params p) (http_server_params p) (tcp_server_params p).
Definition with_log (l : LogParams) (p : Parameters) : Parameters :=
  MkParameters (db_params p) (retention_params p) l (http_server_params p) (tcp_server_params p).
Definition with_http (h : ServerParams) (p : Parameters) : Parameters :=
  MkParameters (db_params p) (retention_params p) (log_params p) h (tcp_server_params p).
Definition with_tcp (t : ServerParams) (p : Parameters) : Parameters :=
  MkParameters (db_params p) (retention_params p) (log_params p) (http_server_params p) t.

(** ** The loader *)
Module ConfigsLoader.

(** Computations that assign members of [params]: what was assigned stays assigned
    when an exception is thrown. *)
Definition L (A : Type) : Type := Parameters → outcome A * Parameters.

#[global] Instance L_ret : MRet L := λ A a p, (Val a, p).
#[global] Instance L_bind : MBind L := λ A B f m p,
  match m p with
  | (Val a, p) => f a p
  | (Throw e, p) => (Throw e, p)
  | (Undefined, p) => (Undefined, p)
  end.
Definition lift {A} (r : outcome A) : L A := λ p, (r, p).
Definition assign (f : Parameters → Parameters) : L () := λ p, (Val (), f p).

(** [if (config[section][key]) member = config[section][key].as<T>();] *)
Definition load_key {T} (as_T : node → outcome T) (config : node) (section key : string)
    (set : T → Parameters → Parameters) : L () :=
  sec ← lift (get (str section) config);
  n ← lift (get (str key) sec);
  if IsDefined n then v ← lift (as_T n); assign (set v) else mret ().

(** [if (!config[section]) return false; else { body }], then the rest. *)
Definition load_section (config : node) (section : string) (body : L ()) (rest : L bool) : L bool :=
  sec ← lift (get (str section) config);
  if IsDefined sec then _ ← body; rest else mret false.

Definition load_database (config : node) : L () :=
  _ ← load_key as_string config "database" "host" (λ v p, let d := db_params p in
        with_db (MkDatabase v (db_port d) (db_user d) (db_password d) (db_name d)) p);
  _ ← load_key as_int config "database" "port" (λ v p, let d := db_params p in
        with_db (MkDatabase (db_host d) (Some v) (db_user d) (db_password d) (db_name d)) p);
  _ ← load_key as_string config "database" "username" (λ v p, let d := db_params p in
        with_db (MkDatabase (db_host d) (db_port d) v (db_password d) (db_name d)) p);
  _ ← load_key as_string config "database" "password" (λ v p, let d := db_params p in
        with_db (MkDatabase (db_host d) (db_port d) (db_user d) v (db_name d)) p);
  load_key as_string config "database" "database_name" (λ v p, let d := db_params p in
        with_db (MkDatabase (db_host d) (db_port d) (db_user d) (db_password d) v) p).

Definition load_retention (config : node) : L () :=
  _ ← load_key as_int config "retention" "history_retention_days" (λ v p,
        with_retention (MkRetention (Some v) (trend_retention_days (retention_params p))) p);
  load_key as_int config "retention" "trend_retention_days" (λ v p,
        with_retention (MkRetention (history_retention_days (retention_params p)) (Some v)) p).

Definition load_log (config : node) : L () :=
  _ ← load_key as_string config "log" "log_dir" (λ v p, let l := log_params p in
        with_log (MkLog v (max_log_file_size l) (max_log_file_num l) (log_level l)) p);
  _ ← load_key as_string config "log" "log_level" (λ v p, let l := log_params p in
        with_log (MkLog (log_dir l) (max_log_file_size l) (max_log_file_num l) v) p);
  _ ← load_key as_int config "log" "max_log_file_size" (λ v p, let l := log_params p in
        with_log (MkLog (log_dir l) (Some v) (max_log_file_num l) (log_level l)) p);
  load_key as_int config "log" "max_log_file_num" (λ v p, let l := log_params p in
        with_log (MkLog (log_dir l) (max_log_file_size l) (Some v) (log_level l)) p).

Definition load_http (config : node) : L () :=
  _ ← load_key as_string config "http_server" "host" (λ v p,
        with_http (MkServer v (server_port (http_server_params p))) p);
  load_key as_int config "http_server" "port" (λ v p,
        with_http (MkServer (server_host (http_server_params p)) (Some v)) p).

Definition load_tcp (config : node) : L () :=
  _ ← load_key as_string config "tcp_server" "host" (λ v p,
        with_tcp (MkServer v (server_port (tcp_server_params p))) p);
  load_key as_int config "tcp_server" "port" (λ v p,
        with_tcp (MkServer (server_host (tcp_server_params p)) (Some v)) p).

Definition load_body (config : node) : L bool :=
  load_section config "database" (load_database config) (
  load_section config "retention" (load_retention config) (
  load_section config "log" (load_log config) (
  load_section config "http_server" (load_http config) (
  load_section config "tcp_server" (load_tcp config) (mret true))))).

(** [load_file] is [YAML::LoadFile]; every exception is a [std::exception]. *)
Definition loadConfigs (load_file : bytes → outcome node) (path : bytes) (p : Parameters)
    : outcome bool * Parameters :=
  match (config ← lift (load_file path); load_body config) p with
  | (Throw _, p) => (Val false, p)
  | r => r
  end.

(** Reading an [int]: an indeterminate one has no meaning. *)
Definition read_int (z : option Z) : outcome Z :=
  match z with Some z => Val z | None => Undefined end.

Definition bad_port (port : option Z) : outcome bool :=
  z ← read_int port; Val ((z <=? 0) || (z >? 65535)).

Definition validateConfigs (p : Parameters) : outcome (bool * Parameters) :=
  let d := db_params p in
  let l := log_params p in
  let r := retention_params p in
  let h := http_server_params p in
  let t := tcp_server_params p in
  if bool_decide (db_host d = []) || (255 <? Z.of_nat (length (db_host d))) then Val (false, p) else
  bad ← bad_port (db_port d);
  if bad : bool then Val (false, p) else
  if bool_decide (db_user d = []) then Val (false, p) else
  if bool_decide (db_password d = []) then Val (false, p) else
  if bool_decide (db_name d = []) then Val (false, p) else
  if bool_decide (log_dir l = [])
  then Val (false, with_log (MkLog (str "./log") (max_log_file_size l) (max_log_file_num l) (log_level l)) p) else
  if bool_decide (log_level l = [])
  then Val (false, with_log (MkLog (log_dir l) (max_log_file_size l) (max_log_file_num l) (str "info")) p) else
  size ← read_int (max_log_file_size l);
  if size <=? 0
  then Val (false, with_log (MkLog (log_dir l) (Some 100) (max_log_file_num l) (log_level l)) p) else
  num ← read_int (max_log_file_num l);
  if num <=? 0
  then Val (false, with_log (MkLog (log_dir l) (max_log_file_size l) (Some 10) (log_level l)) p) else
  history ← read_int (history_retention_days r);
  bad ← (if history <? -1 then Val true
         else trend ← read_int (trend_retention_days r); Val (trend <? -1));
  if bad : bool then Val (false, p) else
  if bool_decide (server_host h = []) then Val (false, with_http (MkServer (str "localhost") (server_port h)) p) else
  bad ← bad_port (server_port h);
  if bad : bool then Val (false, with_http (MkServer (server_host h) (Some 20317)) p) else
  if bool_decide (server_host t = []) then Val (false, with_tcp (MkServer (str "localhost") (server_port t)) p) else
  bad ← bad_port (server_port t);
  if bad : bool then Val (false, with_tcp (MkServer (server_host t) (Some 21210)) p) else
  Val (true, p).

(** [accessible] says what [access(path, F_OK) == 0]. *)
Definition initConfigs (accessible : bytes → bool) (load_file : bytes → outcome node)
    (path : bytes) (p : Parameters) : outcome (bool * Parameters) :=
  if accessible path then
    let '(loaded, p) := loadConfigs load_file path p in
    ok ← loaded;
    if ok : bool then validateConfigs p else Val (false, p)
  else Val (false, p).

End ConfigsLoader.

Import ConfigsLoader.

(** ** Integers of the file *)

Lemma digits_app base s t : ∀ acc v,
  digits base s acc = (v, []) → digits base (s ++ t) acc = digits base t v.
Proof.
  induction s as [|c s IH]; intros acc v H; cbn [digits app] in *; [by injection H as ->|].
  destruct (digit base c) as [d|]; [by apply IH|discriminate H].
Qed.

Lemma digit_decimal z : 0 ≤ z < 10 → digit 10 (z2b (48 + z)) = Some z.
Proof.
  intros Hz. unfold digit. rewrite b2z_z2b, Z.mod_small by lia.
  rewrite (proj2 (Z.leb_le 48 _)), (proj2 (Z.leb_le _ 57)) by lia. cbn [andb].
  replace (48 + z - 48) with z by lia. by rewrite (proj2 (Z.ltb_lt _ _)) by lia.
Qed.

Lemma digits_decimal n : ∀ z, 0 ≤ z < 10 ^ Z.of_nat n → digits 10 (decimal n z) 0 = (z, []).
Proof.
  induction n as [|n IH]; intros z Hz; [simpl in *; f_equal; lia|]. cbn [decimal].
  pose proof (Z.mod_pos_bound z 10 eq_refl).
  rewrite (digits_app _ _ _ 0 (z `div` 10)).
  - cbn [digits]. rewrite digit_decimal by lia. f_equal. zarith.
  - destruct (Z.ltb_spec z 10); [by rewrite Z.div_small by lia|]. apply IH, div_pow10; lia.
Qed.

(** Decimal text is read in base ten, and is not taken for a sign. *)
Lemma read_decimal n z : 0 ≤ z < 10 ^ Z.of_nat n → (0 < n)%nat →
  magnitude (decimal n z) = Some (z, []) ∧
  ∃ c s, decimal n z = c :: s ∧ c ≠ x2d ∧ c ≠ x2b.
Proof.
  intros Hz Hn. pose proof (digits_decimal n z Hz) as Hd.
  destruct (decimal n z) as [|c s] eqn:E.
  { destruct n as [|n]; [lia|]. cbn [decimal] in E. by apply app_eq_nil in E as [_ ?]. }
  assert (Hc : is_Some (digit 10 c)).
  { cbn [digits] in Hd. destruct (digit 10 c); [done|discriminate Hd]. }
  split.
  - destruct (decide (z = 0)) as [->|Hz0].
    + destruct n as [|n]; [lia|]. rewrite decimal_small in E by lia. injection E as <- <-. reflexivity.
    + assert (Hhead : c ≠ x30).
      { intros ->. apply (decimal_no_leading_zero n z); [lia|]. by rewrite E. }
      destruct Hc as [d Hc]. transitivity (Some (digits 10 (c :: s) 0)); [|by rewrite Hd].
      unfold magnitude. rewrite Hc. by destruct c.
  - exists c, s. split; [done|]. split; intros ->; by destruct Hc.
Qed.

Lemma as_int_text z : in_signed 32 z → as_int (NScalar (integer_text z)) = Val z.
Proof.
  intros Hz. assert (Hz' : - 2 ^ 31 ≤ z < 2 ^ 31) by done.
  cut (extract_int (integer_text z) = Some (z, [])); [intros H; unfold as_int; by rewrite H|].
  unfold integer_text, extract_int. destruct (Z.ltb_spec z 0).
  - rewrite (proj1 (read_decimal 20 (- z) ltac:(lia) ltac:(lia))). cbn.
    rewrite Z.opp_involutive. by rewrite decide_True.
  - destruct (read_decimal 20 z ltac:(lia) ltac:(lia)) as (Hm & c & s & E & Hc1 & Hc2).
    rewrite E in *.
    transitivity ('(m, rest) ← magnitude (c :: s);
                  if decide (in_signed 32 m) then Some (m, rest) else None); [by destruct c|].
    rewrite Hm. cbn. by rewrite decide_True.
Qed.

(** ** Writing a configuration *)

(** The pairs of a section, with a value or without. *)
Definition entries (l : list (string * option bytes)) : list (node * node) :=
  omap (λ '(k, v), (λ s, (NScalar (str k), NScalar s)) <$> v) l.

Fixpoint assoc (key : string) (l : list (string * option bytes)) : option bytes :=
  match l with
  | [] => None
  | (k, Some v) :: l => if String.eqb k key then Some v else assoc key l
  | (k, None) :: l => assoc key l
  end.

Lemma str_inj a b : str a = str b → a = b.
Proof.
  intros H. rewrite <- (String.string_of_list_byte_of_string a).
  unfold str in H. rewrite H. apply String.string_of_list_byte_of_string.
Qed.

Lemma find_pair_entries key l :
  find_pair (str key) (entries l) = from_option NScalar NUndefined (assoc key l).
Proof.
  induction l as [|[k [v|]] l IH]; cbn [assoc]; [done| |done].
  unfold entries. cbn. destruct (String.eqb_spec k key) as [->|Hne].
  - by rewrite bool_decide_eq_true_2.
  - rewrite bool_decide_eq_false_2 by (intros H; by apply str_inj in H). exact IH.
Qed.

Definition optional {A} (set : A → Parameters → Parameters) (v : option A) (p : Parameters) : Parameters :=
  from_option (λ v, set v p) p v.

Section load_key.
Context (config : node) (section : string) (l : list (string * option bytes)).
Context (Hsection : get (str section) config = Val (NMap (entries l))).

Lemma load_string key set p :
  load_key as_string config section key set p = (Val (), optional set (assoc key l) p).
Proof.
  unfold load_key, mbind, L_bind, lift. rewrite Hsection. cbn [get].
  rewrite find_pair_entries. by destruct (assoc key l).
Qed.

Lemma load_int key set p v :
  assoc key l = integer_text <$> v → (∀ z, v = Some z → in_signed 32 z) →
  load_key as_int config section key set p = (Val (), optional set v p).
Proof.
  intros Ha Hv. unfold load_key, mbind, L_bind, lift. rewrite Hsection. cbn [get].
  rewrite find_pair_entries, Ha. destruct v as [z|]; [|done].
  cbn [option_fmap fmap option_map from_option IsDefined]. by rewrite as_int_text by auto.
Qed.

Lemma load_section_map body rest p :
  load_section config section body rest p = (_ ← body; rest) p.
Proof. unfold load_section, mbind at 1, L_bind at 1, lift. by rewrite Hsection. Qed.
End load_key.

(** What a configuration file says: each key with a value, or left out. *)
Record Settings := MkSettings {
  s_db_host : option bytes; s_db_port : option Z; s_db_user : option bytes;
  s_db_password : option bytes; s_db_name : option bytes;
  s_history : option Z; s_trend : option Z;
  s_log_dir : option bytes; s_log_level : option bytes;
  s_log_size : option Z; s_log_num : option Z;
  s_http_host : option bytes; s_http_port : option Z;
  s_tcp_host : option bytes; s_tcp_port : option Z;
}.

Definition database_entries (q : Settings) : list (string * option bytes) :=
  [("host", s_db_host q); ("port", integer_text <$> s_db_port q); ("username", s_db_user q);
   ("password", s_db_password q); ("database_name", s_db_name q)]%string.
Definition retention_entries (q : Settings) : list (string * option bytes) :=
  [("history_retention_days", integer_text <$> s_history q);
   ("trend_retention_days", integer_text <$> s_trend q)]%string.
Definition log_entries (q : Settings) : list (string * option bytes) :=
  [("log_dir", s_log_dir q); ("log_level", s_log_level q);
   ("max_log_file_size", integer_text <$> s_log_size q);
   ("max_log_file_num", integer_text <$> s_log_num q)]%string.
Definition http_entries (q : Settings) : list (string * option bytes) :=
  [("host", s_http_host q); ("port", integer_text <$> s_http_port q)]%string.
Definition tcp_entries (q : Settings) : list (string * option bytes) :=
  [("host", s_tcp_host q); ("port", integer_text <$> s_tcp_port q)]%string.

Definition section_node (name : string) (l : list (string * option bytes)) : node * node :=
  (NScalar (str name), NMap (entries l)).
Definition to_yaml (q : Settings) : node := NMap
  [section_node "database" (database_entries q); section_node "retention" (retention_entries q);
   section_node "log" (log_entries q); section_node "http_server" (http_entries q);
   section_node "tcp_server" (tcp_entries q)].

Definition or_else {A} (v w : option A) : option A :=
  match v with Some _ => v | None => w end.

(** [p] with the settings that have a value, section by section. *)
Definition override_database (q : Settings) (d : DatabaseParams) : DatabaseParams :=
  MkDatabase (default (db_host d) (s_db_host q)) (or_else (s_db_port q) (db_port d))
    (default (db_user d) (s_db_user q)) (default (db_password d) (s_db_password q))
    (default (db_name d) (s_db_name q)).
Definition override_retention (q : Settings) (r : RetentionParams) : RetentionParams :=
  MkRetention (or_else (s_history q) (history_retention_days r))
    (or_else (s_trend q) (trend_retention_days r)).
Definition override_log (q : Settings) (l : LogParams) : LogParams :=
  MkLog (default (log_dir l) (s_log_dir q)) (or_else (s_log_size q) (max_log_file_size l))
    (or_else (s_log_num q) (max_log_file_num l)) (default (log_level l) (s_log_level q)).
Definition override_server (host : option bytes) (port : option Z) (t : ServerParams) : ServerParams :=
  MkServer (default (server_host t) host) (or_else port (server_port t)).
Definition override (q : Settings) (p : Parameters) : Parameters :=
  MkParameters (override_database q (db_params p)) (override_retention q (retention_params p))
    (override_log q (log_params p))
    (override_server (s_http_host q) (s_http_port q) (http_server_params p))
    (override_server (s_tcp_host q) (s_tcp_port q) (tcp_server_params p)).

(** Every integer fits an [int]. *)
Definition int_settings (q : Settings) : Prop :=
  Forall (λ v, ∀ z, v = Some z → in_signed 32 z)
    [s_db_port q; s_history q; s_trend q; s_log_size q; s_log_num q; s_http_port q; s_tcp_port q].

Lemma assoc_first k v l : assoc k ((k, v) :: l) = v ∪ assoc k l.
Proof. cbn [assoc]. rewrite String.eqb_refl. by destruct v, (assoc k l). Qed.

Lemma assoc_other k k' v l : String.eqb k' k = false → assoc k ((k', v) :: l) = assoc k l.
Proof. intros H. cbn [assoc]. rewrite H. by destruct v. Qed.

Lemma option_union_None {A} (v : option A) : v ∪ None = v.
Proof. by destruct v. Qed.

(** The value of a literal key in a literal section. *)
Ltac find_key := cbv [database_entries retention_entries log_entries http_entries tcp_entries];
  repeat first [rewrite assoc_first | rewrite assoc_other by reflexivity];
  cbn [assoc]; by rewrite option_union_None.

Lemma find_section key name l kvs :
  find_pair (str key) (section_node name l :: kvs) =
    if String.eqb name key then NMap (entries l) else find_pair (str key) kvs.
Proof.
  unfold section_node. cbn [find_pair equals]. destruct (String.eqb_spec name key) as [->|Hne].
  - by rewrite bool_decide_eq_true_2.
  - by rewrite bool_decide_eq_false_2 by (intros H; by apply str_inj in H).
Qed.

Section sections.
Context (q : Settings).
Ltac find := cbn [get to_yaml]; by rewrite !find_section.
Lemma get_database : get (str "database") (to_yaml q) = Val (NMap (entries (database_entries q))).
Proof. find. Qed.
Lemma get_retention : get (str "retention") (to_yaml q) = Val (NMap (entries (retention_entries q))).
Proof. find. Qed.
Lemma get_log : get (str "log") (to_yaml q) = Val (NMap (entries (log_entries q))).
Proof. find. Qed.
Lemma get_http : get (str "http_server") (to_yaml q) = Val (NMap (entries (http_entries q))).
Proof. find. Qed.
Lemma get_tcp : get (str "tcp_server") (to_yaml q) = Val (NMap (entries (tcp_entries q))).
Proof. find. Qed.
End sections.

Lemma load_string_value config section l key set p v :
  get (str section) config = Val (NMap (entries l)) → assoc key l = v →
  load_key as_string config section key set p = (Val (), optional set v p).
Proof. intros H <-. by apply load_string. Qed.

(** The lines of the loader in one section of the file, found by [Hget]. *)
Ltac load_lines Hget := unfold mbind, L_bind; repeat first
  [ erewrite (load_string_value _ _ _ _ _ _ _ Hget) by find_key
  | erewrite (load_int _ _ _ Hget); [|find_key|done] ].

(** Every assignment, made or not. *)
Ltac assign_lines p q := f_equal; destruct p as [[] [] [] [] []];
  unfold override_database, override_retention, override_log, override_server;
  repeat match goal with
  | |- context [?f q] => match type of (f q) with option _ => destruct (f q) end
  end; reflexivity.

Section settings.
Context (q : Settings) (Hq : int_settings q).
Ltac load_settings load Hget p :=
  let H := fresh in pose proof Hq as H; repeat (apply Forall_cons in H as [? H]);
  pose proof Hget as H'; unfold load; load_lines H'; clear; assign_lines p q.

Lemma load_database_settings p :
  load_database (to_yaml q) p = (Val (), with_db (override_database q (db_params p)) p).
Proof. load_settings load_database (get_database q) p. Qed.

Lemma load_retention_settings p :
  load_retention (to_yaml q) p = (Val (), with_retention (override_retention q (retention_params p)) p).
Proof. load_settings load_retention (get_retention q) p. Qed.

Lemma load_log_settings p :
  load_log (to_yaml q) p = (Val (), with_log (override_log q (log_params p)) p).
Proof. load_settings load_log (get_log q) p. Qed.

Lemma load_http_settings p :
  load_http (to_yaml q) p =
    (Val (), with_http (override_server (s_http_host q) (s_http_port q) (http_server_params p)) p).
Proof. load_settings load_http (get_http q) p. Qed.

Lemma load_tcp_settings p :
  load_tcp (to_yaml q) p =
    (Val (), with_tcp (override_server (s_tcp_host q) (s_tcp_port q) (tcp_server_params p)) p).
Proof. load_settings load_tcp (get_tcp q) p. Qed.

Lemma load_body_settings p : load_body (to_yaml q) p = (Val true, override q p).
Proof.
  unfold load_body.
  rewrite (load_section_map _ _ _ (get_database q)). unfold mbind at 1, L_bind at 1.
  rewrite load_database_settings, (load_section_map _ _ _ (get_retention q)).
  unfold mbind at 1, L_bind at 1.
  rewrite load_retention_settings, (load_section_map _ _ _ (get_log q)).
  unfold mbind at 1, L_bind at 1.
  rewrite load_log_settings, (load_section_map _ _ _ (get_http q)).
  unfold mbind at 1, L_bind at 1.
  rewrite load_http_settings, (load_section_map _ _ _ (get_tcp q)).
  unfold mbind at 1, L_bind at 1. by rewrite load_tcp_settings.
Qed.
End settings.

(** ** Validation *)

Definition nonempty (s : bytes) : bool := negb (bool_decide (s = [])).
Definition port_ok (port : option Z) : bool :=
  let z := default 0 port in (1 <=? z) && (z <=? 65535).

(** Every integer has been assigned. *)
Definition initialized (p : Parameters) : Prop :=
  Forall is_Some [db_port (db_params p); max_log_file_size (log_params p);
    max_log_file_num (log_params p); history_retention_days (retention_params p);
    trend_retention_days (retention_params p); server_port (http_server_params p);
    server_port (tcp_server_params p)].

(** The conditions, each with the parameters the loader leaves when it fails. *)
Definition conditions (p : Parameters) : list (bool * Parameters) :=
  let d := db_params p in
  let r := retention_params p in
  let l := log_params p in
  let h := http_server_params p in
  let t := tcp_server_params p in
  [ (nonempty (db_host d) && (Z.of_nat (length (db_host d)) <=? 255), p);
    (port_ok (db_port d), p);
    (nonempty (db_user d), p);
    (nonempty (db_password d), p);
    (nonempty (db_name d), p);
    (nonempty (log_dir l),
     with_log (MkLog (str "./log") (max_log_file_size l) (max_log_file_num l) (log_level l)) p);
    (nonempty (log_level l),
     with_log (MkLog (log_dir l) (max_log_file_size l) (max_log_file_num l) (str "info")) p);
    (0 <? default 0 (max_log_file_size l),
     with_log (MkLog (log_dir l) (Some 100) (max_log_file_num l) (log_level l)) p);
    (0 <? default 0 (max_log_file_num l),
     with_log (MkLog (log_dir l) (max_log_file_size l) (Some 10) (log_level l)) p);
    ((-1 <=? default 0 (history_retention_days r)) && (-1 <=? default 0 (trend_retention_days r)), p);
    (nonempty (server_host h), with_http (MkServer (str "localhost") (server_port h)) p);
    (port_ok (server_port h), with_http (MkServer (server_host h) (Some 20317)) p);
    (nonempty (server_host t), with_tcp (MkServer (str "localhost") (server_port t)) p);
    (port_ok (server_port t), with_tcp (MkServer (server_host t) (Some 21210)) p) ].

Definition valid (p : Parameters) : Prop := initialized p ∧ Forall (λ c, c.1 = true) (conditions p).
Definition violations (p : Parameters) : nat := countb (λ c, negb c.1) (conditions p).

Fixpoint first_failure (l : list (bool * Parameters)) (p : Parameters) : bool * Parameters :=
  match l with
  | [] => (true, p)
  | (true, _) :: l => first_failure l p
  | (false, p') :: _ => (false, p')
  end.

Lemma first_failure_spec l p :
  (first_failure l p).1 = true ∧ (first_failure l p).2 = p ∧ Forall (λ c, c.1 = true) l ∨
  (first_failure l p).1 = false ∧ (false, (first_failure l p).2) ∈ l.
Proof.
  induction l as [|[[] p'] l IH]; cbn [first_failure]; [by left|..].
  - destruct IH as [(H1 & H2 & H3)|[H1 H2]]; [left; by repeat constructor|right].
    split; [done|by right].
  - right. split; [done|by left].
Qed.

Lemma bad_port_ok port : is_Some port → bad_port port = Val (negb (port_ok port)).
Proof.
  intros [z ->]. unfold bad_port, port_ok. cbn. f_equal.
  destruct (Z.leb_spec z 0), (Z.leb_spec 1 z), (Z.gtb_spec z 65535), (Z.leb_spec z 65535); done || lia.
Qed.

(** The loader checks the conditions in their order, up to the first that fails. *)
Lemma validateConfigs_conditions p :
  initialized p → validateConfigs p = Val (first_failure (conditions p) p).
Proof.
  intros H. unfold initialized in H. rewrite !Forall_cons in H.
  destruct H as (H1 & [size Hs] & [num Hn] & [hist Hh] & [trend Ht] & H6 & H7 & _).
  unfold validateConfigs, conditions.
  rewrite !bad_port_ok, Hs, Hn, Hh, Ht by done. cbn [read_int mbind outcome_bind default from_option].
  assert (Hneg : ∀ s : bytes, bool_decide (s = []) = negb (nonempty s))
    by (intros s; unfold nonempty; by rewrite negb_involutive).
  rewrite !Hneg. cbn [first_failure].
  assert (H255 : ∀ z, (255 <? z) = negb (z <=? 255))
    by (intros z; destruct (Z.ltb_spec 255 z), (Z.leb_spec z 255); done || lia).
  assert (Hpos : ∀ z, (z <=? 0) = negb (0 <? z))
    by (intros z; destruct (Z.ltb_spec 0 z), (Z.leb_spec z 0); done || lia).
  assert (Hm1 : ∀ z, (z <? -1) = negb (-1 <=? z))
    by (intros z; destruct (Z.ltb_spec z (-1)), (Z.leb_spec (-1) z); done || lia).
  rewrite H255, !Hpos, !Hm1.
  repeat match goal with
  | |- context [negb ?b] => destruct b; cbn [negb andb orb mbind outcome_bind first_failure id]; try reflexivity
  end.
Qed.

(** Every repair removes one violation. *)
Lemma conditions_repair p p' :
  (false, p') ∈ conditions p → p' = p ∨ (violations p' < violations p)%nat.
Proof.
  unfold violations, conditions. rewrite !elem_of_cons, !countb_cons.
  intros H. repeat destruct H as [[= H ->]|H]; try (by left); [..|by apply not_elem_of_nil in H];
    right; cbn [with_log with_http with_tcp db_params retention_params log_params
      http_server_params tcp_server_params fst log_dir log_level max_log_file_size
      max_log_file_num server_host server_port]; rewrite <- H; vm_compute (nonempty (str _));
    cbn; lia.
Qed.

Lemma get_defined key n : get key n ≠ Undefined.
Proof. by destruct n. Qed.

Lemma as_int_defined n : as_int n ≠ Undefined.
Proof. unfold as_int. by repeat case_match. Qed.

Lemma as_string_defined n : as_string n ≠ Undefined.
Proof. by destruct n. Qed.

(** [m] gives a value or throws. *)
Definition defined {A} (m : L A) : Prop := ∀ p, (m p).1 ≠ Undefined.

Lemma defined_bind {A B} (m : L A) (f : A → L B) : defined m → (∀ a, defined (f a)) → defined (m ≫= f).
Proof.
  intros Hm Hf p. unfold mbind, L_bind. pose proof (Hm p) as H.
  destruct (m p) as [[a|e|] p']; [apply Hf|done|done].
Qed.

Lemma defined_lift {A} (r : outcome A) : r ≠ Undefined → defined (lift r).
Proof. by intros H p. Qed.

Lemma load_key_defined {T} (as_T : node → outcome T) config section key set :
  (∀ n, as_T n ≠ Undefined) → defined (load_key as_T config section key set).
Proof.
  intros H. unfold load_key. apply defined_bind; [apply defined_lift, get_defined|intros sec].
  apply defined_bind; [apply defined_lift, get_defined|intros n].
  destruct (IsDefined n); [|done].
  apply defined_bind; [by apply defined_lift|intros v]. done.
Qed.

Lemma load_section_defined config section body rest :
  defined body → defined rest → defined (load_section config section body rest).
Proof.
  intros Hb Hr. unfold load_section. apply defined_bind; [apply defined_lift, get_defined|intros sec].
  destruct (IsDefined sec); [|done]. by apply defined_bind.
Qed.

#[local] Hint Resolve load_section_defined as_int_defined as_string_defined : lm.

Lemma load_body_defined config : defined (load_body config).
Proof.
  unfold load_body. repeat apply load_section_defined; [..|done];
    unfold load_database, load_retention, load_log, load_http, load_tcp;
    repeat (apply defined_bind; [|intros _]); apply load_key_defined; auto with lm.
Qed.

(** C36. Loading a file: for every choice of keys present and absent, with any
    strings and any [int]s as values, [loadConfigs] on a file with the five sections
    succeeds, gives every present key exactly its value and leaves every other
    member as it was; whatever the file is, no exception escapes and the outcome is
    defined. *)
Theorem loadConfigs_settings (load_file : bytes → outcome node) (path : bytes) (p : Parameters) :
  (∀ q, int_settings q → load_file path = Val (to_yaml q) →
     loadConfigs load_file path p = (Val true, override q p)) ∧
  (load_file path ≠ Undefined → ∃ b, (loadConfigs load_file path p).1 = Val b).
Proof.
  split.
  - intros q Hq Hf. unfold loadConfigs, mbind, L_bind, lift. rewrite Hf.
    by rewrite (load_body_settings q Hq).
  - intros Hf. unfold loadConfigs, mbind, L_bind, lift.
    destruct (load_file path) as [config|e|]; [|by eexists|done].
    pose proof (load_body_defined config p) as H.
    destruct (load_body config p) as [[b|e|] p']; [by eexists..|done].
Qed.

(** A file that names only the database's port and the level of the log. *)
Definition sample_settings : Settings :=
  MkSettings None (Some 3307) None None None None None None (Some (str "warn")) None None None None None None.

Lemma loadConfigs_settings_witness :
  loadConfigs (λ _, Val (to_yaml sample_settings)) [] uninitialized =
    (Val true, override sample_settings uninitialized).
Proof.
  apply (proj1 (loadConfigs_settings (λ _, Val (to_yaml sample_settings)) [] uninitialized));
    [|reflexivity].
  unfold int_settings. rewrite !Forall_cons. split_and!; try apply List.Forall_nil; try done.
  intros z [= <-]. done.
Defined.

(** C37. Validation: once every integer is assigned, [validateConfigs] accepts exactly
    the parameters that satisfy all the conditions, and leaves them alone; when it
    refuses, it either changes nothing or repairs one member, so that fewer
    conditions are violated than before.  In particular it returns [false] for
    parameters that it has just made valid. *)
Theorem validateConfigs_spec (p : Parameters) :
  initialized p →
  (∃ b p', validateConfigs p = Val (b, p') ∧ (b = true ↔ valid p) ∧ (b = true → p' = p) ∧
     (b = false → p' = p ∨ (violations p' < violations p)%nat)) ∧
  (valid p → validateConfigs (with_log (MkLog (log_dir (log_params p)) (max_log_file_size (log_params p))
               (max_log_file_num (log_params p)) []) p) =
     Val (false, with_log (MkLog (log_dir (log_params p)) (max_log_file_size (log_params p))
               (max_log_file_num (log_params p)) (str "info")) p)).
Proof.
  intros Hi. split.
  - rewrite validateConfigs_conditions by done.
    destruct (first_failure (conditions p) p) as [b p'] eqn:E. exists b, p'. split; [done|].
    destruct (first_failure_spec (conditions p) p) as [(H1 & H2 & H3)|[H1 H2]];
      rewrite E in *; simpl in *; subst.
    + split_and!; try done.
    + split_and!; [|done|intros _; by apply conditions_repair].
      split; [done|]. intros [_ H]. rewrite Forall_forall in H. by apply H in H2.
  - intros [_ Hv]. rewrite validateConfigs_conditions by exact Hi.
    unfold conditions in *. repeat (apply Forall_cons in Hv as [? Hv]). cbn [fst] in *.
    cbn [with_log db_params retention_params log_params http_server_params tcp_server_params
      log_dir log_level max_log_file_size max_log_file_num].
    repeat match goal with H : ?c = true |- _ => rewrite H; clear H; cbn [first_failure] end.
    reflexivity.
Qed.

(** Everything valid except that the level of the log is missing. *)
Definition unleveled : Parameters :=
  MkParameters (MkDatabase (str "db") (Some 3306) (str "u") (str "p") (str "n"))
    (MkRetention (Some 14) (Some (-1))) (MkLog (str "logs") (Some 100) (Some 10) [])
    (MkServer (str "localhost") (Some 20317)) (MkServer (str "localhost") (Some 21210)).

Lemma validateConfigs_spec_witness :
  initialized unleveled ∧
  ∃ b p', validateConfigs unleveled = Val (b, p') ∧ (b = true ↔ valid unleveled).
Proof.
  assert (Hi : initialized unleveled).
  { unfold initialized. rewrite !Forall_cons. split_and!; try apply List.Forall_nil; by eexists. }
  split; [exact Hi|].
  destruct (proj1 (validateConfigs_spec unleveled Hi)) as (b & p' & H & Hv & _).
  exists b, p'. split; [exact H|exact Hv].
Defined.
