(* ===== verification/Logger.v ===== *)
(** * Logging ([common/logger.h] and the [spdlog] sink it uses)

    [initLogger], the severity levels, and the rotating file sink of
    [spdlog/sinks/rotating_file_sink-inl.h] with the file operations of
    [spdlog/details/file_helper-inl.h], on a file system that maps paths to
    contents. *)

From S2P Require Import Prelude StdString JsonText JsonRead Config.
From Stdlib Require Import Strings.Byte.

Open Scope Z_scope.

(** ** File names *)

(** [file_helper::split_by_extension]. *)
Definition split_by_extension (fname : bytes) : bytes * bytes :=
  match last_index_of x2e fname with
  | None => (fname, [])
  | Some ext_index =>
      if decide (ext_index = 0 ∨ ext_index = size_sub (length fname) 1)%nat then (fname, [])
      else
        match last_index_of x2f fname with
        | Some folder_index =>
            if decide (size_sub ext_index 1 ≤ folder_index)%nat then (fname, [])
            else (take ext_index fname, drop ext_index fname)
        | None => (take ext_index fname, drop ext_index fname)
        end
  end.

(** The number in a file's name. *)
Definition index_text (i : nat) : bytes := decimal (S i) (Z.of_nat i).

Definition calc_filename (filename : bytes) (index : nat) : bytes :=
  match index with
  | O => filename
  | _ => let '(basename, ext) := split_by_extension filename in
         basename ++ [x2e] ++ index_text index ++ ext
  end.

Lemma decimal_inj n : ∀ z z', 0 ≤ z < 10 ^ Z.of_nat n → 0 ≤ z' < 10 ^ Z.of_nat n →
  decimal n z = decimal n z' → z = z'.
Proof.
  intros z z' Hz Hz' H. pose proof (digits_decimal n z Hz) as H1.
  rewrite H, (digits_decimal n z' Hz') in H1. by injection H1.
Qed.

Lemma pow10_gt (n : nat) : Z.of_nat n < 10 ^ Z.of_nat n.
Proof. apply Z.pow_gt_lin_r; lia. Qed.

Lemma index_text_inj i j : index_text i = index_text j → i = j.
Proof.
  unfold index_text. intros H.
  set (n := S (i + j)).
  assert (Hpow : ∀ a b : nat, (a ≤ b)%nat → 10 ^ Z.of_nat a ≤ 10 ^ Z.of_nat b)
    by (intros; apply Z.pow_le_mono_r; lia).
  assert (Hb : ∀ k : nat, (k ≤ i + j)%nat → 0 ≤ Z.of_nat k < 10 ^ Z.of_nat (S k)).
  { intros k _. pose proof (pow10_gt k). pose proof (Hpow k (S k)). lia. }
  assert (Hn : ∀ k : nat, (k ≤ i + j)%nat → decimal (S k) (Z.of_nat k) = decimal n (Z.of_nat k)).
  { intros k Hk. symmetry. apply decimal_fuel; [by apply Hb|unfold n; lia]. }
  rewrite !Hn in H by lia. apply Nat2Z.inj. apply (decimal_inj n); [..|exact H];
    (split; [lia|]); (eapply Z.lt_le_trans; [apply Hb; lia|]); apply Hpow; unfold n; lia.
Qed.

Lemma length_decimal_pos n z : (0 < length (decimal (S n) z))%nat.
Proof. cbn [decimal]. rewrite length_app. simpl. lia. Qed.

Lemma split_app fname : (split_by_extension fname).1 ++ (split_by_extension fname).2 = fname.
Proof.
  unfold split_by_extension. repeat (case_match || case_decide); cbn [fst snd];
    rewrite ?app_nil_r; done || apply take_drop.
Qed.

Lemma calc_filename_inj filename i j : calc_filename filename i = calc_filename filename j → i = j.
Proof.
  pose proof (split_app filename) as Hs. unfold calc_filename.
  destruct (split_by_extension filename) as [b e] eqn:E. cbn [fst snd] in Hs.
  assert (Hlen : ∀ k, b ++ [x2e] ++ index_text (S k) ++ e ≠ filename).
  { intros k H. apply (f_equal length) in H. rewrite <- Hs, !length_app in H.
    pose proof (length_decimal_pos (S k) (Z.of_nat (S k))). unfold index_text in H. simpl length in H. lia. }
  destruct i as [|i], j as [|j]; intros H; [done|by destruct (Hlen j)|by destruct (Hlen i)|].
  apply app_inv_head in H. injection H as H. apply app_inv_tail in H. by apply index_text_inj.
Qed.

(** ** The rotating file sink *)
Module RotatingFileSink.

Abbreviation files := (gmap bytes bytes).

Record t := mk {
  base_filename_ : bytes;
  max_size_ : Z;              (* size_t *)
  max_files_ : nat;           (* size_t *)
  current_size_ : Z;
  fd_ : bool;                 (* the file is open *)
}.

(** What the file system lets the process do: open a file, and rename one at the
    first or second attempt. *)
Section sink.
Context (can_open : bytes → bool) (can_rename : bytes → bytes → nat → bool).

Definition M (A : Type) : Type := t * files → outcome A * (t * files).
#[global] Instance sink_ret : MRet M := λ A a s, (Val a, s).
#[global] Instance sink_bind : MBind M := λ A B f m s,
  match m s with
  | (Val a, s) => f a s
  | (Throw e, s) => (Throw e, s)
  | (Undefined, s) => (Undefined, s)
  end.

Definition throw {A} (e : string) : M A := λ s, (Throw e, s).
Definition modify (f : t → t) : M () := λ '(s, fs), (Val (), (f s, fs)).
Definition with_fd (b : bool) (s : t) : t :=
  mk (base_filename_ s) (max_size_ s) (max_files_ s) (current_size_ s) b.
Definition with_size (z : Z) (s : t) : t :=
  mk (base_filename_ s) (max_size_ s) (max_files_ s) z (fd_ s).

(** [file_helper::open] of the sink's own file; opening to append creates it. *)
Definition open_file (truncate : bool) : M () := λ '(s, fs),
  let name := base_filename_ s in
  if can_open name then
    (Val (), (with_fd true s, <[name := if truncate then [] else default [] (fs !! name)]> fs))
  else (Throw "Failed opening file", (with_fd false s, fs)).

Definition close_file : M () := modify (with_fd false).

Definition size : M Z := λ '(s, fs),
  if fd_ s then (Val (Z.of_nat (length (default [] (fs !! base_filename_ s)))), (s, fs))
  else (Throw "Cannot use size() on closed file", (s, fs)).

Definition write (buf : bytes) : M () := λ '(s, fs),
  if fd_ s then
    (Val (), (s, <[base_filename_ s := default [] (fs !! base_filename_ s) ++ buf]> fs))
  else (Undefined, (s, fs)).

(** [rename_file_] at its [n]-th attempt: the target is removed first. *)
Definition rename_file_ (n : nat) (src target : bytes) : M bool := λ '(s, fs),
  let fs := delete target fs in
  match fs !! src with
  | Some content =>
      if can_rename src target n then (Val true, (s, <[target := content]> (delete src fs)))
      else (Val false, (s, fs))
  | None => (Val false, (s, fs))
  end.

Definition path_exists (name : bytes) : M bool := λ '(s, fs),
  (Val (bool_decide (is_Some (fs !! name))), (s, fs)).

Fixpoint rotate_loop (base : bytes) (i : nat) : M () :=
  match i with
  | O => mret ()
  | S j =>
      let src := calc_filename base j in
      there ← path_exists src;
      if there : bool then
        let target := calc_filename base i in
        done ← rename_file_ 0 src target;
        if done : bool then rotate_loop base j
        else
          done ← rename_file_ 1 src target;
          if done : bool then rotate_loop base j
          else
            _ ← open_file true;
            _ ← modify (with_size 0);
            throw "rotating_file_sink: failed renaming"
      else rotate_loop base j
  end.

Definition rotate_ : M () := λ '(s, fs),
  (_ ← close_file;
   _ ← rotate_loop (base_filename_ s) (max_files_ s);
   open_file true) (s, fs).

(** [sink_it_], with the formatted message. *)
Definition sink_it_ (formatted : bytes) : M () := λ '(s, fs),
  let n := Z.of_nat (length formatted) in
  let new_size := u64 (current_size_ s + n) in
  (new_size ← (if max_size_ s <? new_size then
                 old ← size;
                 if 0 <? old then _ ← rotate_; mret n else mret new_size
               else mret new_size);
   _ ← write formatted;
   modify (with_size new_size)) (s, fs).

(** The constructor, with [rotate_on_open] false. *)
Definition make (base_filename : bytes) (max_size : Z) (max_files : Z) (fs : files)
    : outcome t * files :=
  if max_size =? 0 then (Throw "rotating sink constructor: max_size arg cannot be zero", fs) else
  if 200000 <? max_files
  then (Throw "rotating sink constructor: max_files arg cannot exceed 200000", fs) else
  match (_ ← open_file false; z ← size; modify (with_size z))
          (mk base_filename max_size (Z.to_nat max_files) 0 false, fs) with
  | (Val _, (s, fs)) => (Val s, fs)
  | (Throw e, (_, fs)) => (Throw e, fs)
  | (Undefined, (_, fs)) => (Undefined, fs)
  end.

Fixpoint sink_all (msgs : list bytes) : M () :=
  match msgs with
  | [] => mret ()
  | m :: msgs => _ ← sink_it_ m; sink_all msgs
  end.

End sink.
End RotatingFileSink.

(** ** [initLogger] *)
Module Logger.

Inductive level_enum := trace | debug | info | warn | err | critical | off.
#[global] Instance level_eq_dec : EqDecision level_enum.
Proof. solve_decision. Defined.

Definition level_value (l : level_enum) : Z :=
  match l with
  | trace => 0 | debug => 1 | info => 2 | warn => 3 | err => 4 | critical => 5 | off => 6
  end.

(** [level_string_views], in the order of the levels. *)
Definition level_string_views : list (bytes * level_enum) :=
  [(str "trace", trace); (str "debug", debug); (str "info", info); (str "warning", warn);
   (str "error", err); (str "critical", critical); (str "off", off)].

Fixpoint find_level (name : bytes) (l : list (bytes * level_enum)) : option level_enum :=
  match l with
  | [] => None
  | (n, lvl) :: l => if decide (n = name) then Some lvl else find_level name l
  end.

Definition from_str (name : bytes) : level_enum :=
  match find_level name level_string_views with
  | Some l => l
  | None => if decide (name = str "warn") then warn
            else if decide (name = str "err") then err else off
  end.

Inductive target := Console | LogFile (sink : RotatingFileSink.t).
Record logger := mk { level_ : level_enum; sinks_ : list (target * level_enum) }.

(** Multiplication of [int]s. *)
Definition mul_int (a b : Z) : outcome Z :=
  if decide (in_signed 32 (a * b)) then Val (a * b) else Undefined.

Section init.
Context (can_open : bytes → bool).

(** A rotating sink on a file of the log directory; the two [int]s become [size_t]. *)
Definition make_sink (log_dir : bytes) (name : string) (max_size max_files : Z)
    (fs : RotatingFileSink.files) : outcome RotatingFileSink.t * RotatingFileSink.files :=
  RotatingFileSink.make can_open (log_dir ++ str name) (u64 max_size) (u64 max_files) fs.

(** One constructor after another, each on the files the last one left. *)
Definition and_then {A B : Type} (r : outcome A * RotatingFileSink.files)
    (k : A → RotatingFileSink.files → outcome B * RotatingFileSink.files)
    : outcome B * RotatingFileSink.files :=
  match r with
  | (Val a, fs) => k a fs
  | (Throw e, fs) => (Throw e, fs)
  | (Undefined, fs) => (Undefined, fs)
  end.

(** The body of the [try] block. *)
Definition make_logger (log_dir log_level : bytes) (max_size max_files : Z)
    (fs : RotatingFileSink.files) : outcome logger * RotatingFileSink.files :=
  let global_level := from_str log_level in
  and_then (make_sink log_dir "/lite_monitor.log" max_size max_files fs) (λ info_sink fs,
  and_then (make_sink log_dir "/lite_monitor.warn" max_size max_files fs) (λ warn_sink fs,
  and_then (make_sink log_dir "/lite_monitor.error" max_size max_files fs) (λ error_sink fs,
    (Val (mk global_level
       [(Console, global_level); (LogFile info_sink, global_level);
        (LogFile warn_sink, warn); (LogFile error_sink, err)]), fs)))).

(** The [int] that counts the bytes of a file. *)
Definition size_in_bytes (megabytes : Z) : outcome Z :=
  kilobytes ← mul_int megabytes 1024; mul_int kilobytes 1024.

(** [initLogger]: the new default logger, if there is one; [dir_exists] and
    [mkdir_ok] are what [access] and [mkdir] say.  The exceptions of the sinks are
    caught and reported on the console. *)
Definition initLogger (dir_exists mkdir_ok : bool) (params : LogParams)
    (fs : RotatingFileSink.files) : outcome (option logger) * RotatingFileSink.files :=
  match (size ← ConfigsLoader.read_int (max_log_file_size params);
         size ← size_in_bytes size;
         num ← ConfigsLoader.read_int (max_log_file_num params);
         Val (size, num)) with
  | Val (size, num) =>
      if negb dir_exists && negb mkdir_ok then (Val None, fs)
      else
        match make_logger (log_dir params) (log_level params) size num fs with
        | (Val l, fs) => (Val (Some l), fs)
        | (Throw _, fs) => (Val None, fs)
        | (Undefined, fs) => (Undefined, fs)
        end
  | Throw e => (Throw e, fs)
  | Undefined => (Undefined, fs)
  end.
End init.

(** [should_log] of the logger and of its sinks: where a message goes. *)
Definition should_log (threshold lvl : level_enum) : bool := level_value threshold <=? level_value lvl.
Definition receivers (l : logger) (lvl : level_enum) : list target :=
  if should_log (level_ l) lvl
  then fst <$> filter (λ s, should_log s.2 lvl = true) (sinks_ l) else [].

End Logger.

(** ** Rotation *)
Section rotation.
Import RotatingFileSink.

(** A file system that refuses nothing. *)
Definition all_open : bytes → bool := λ _, true.
Definition all_rename : bytes → bytes → nat → bool := λ _ _ _, true.

Context (base : bytes).

Definition name (i : nat) : bytes := calc_filename base i.
Definition file (fs : files) (i : nat) : bytes := default [] (fs !! name i).

(** The files from number [i] down to the current one, oldest first. *)
Fixpoint contents (fs : files) (i : nat) : bytes :=
  match i with
  | O => file fs 0
  | S j => file fs (S j) ++ contents fs j
  end.

(** The files of the sink that are not among [0..n]: none of its business. *)
Definition outside (n : nat) (fs fs' : files) : Prop :=
  ∀ p, (∀ i, (i ≤ n)%nat → p ≠ name i) → fs' !! p = fs !! p.

Lemma name_ne i j : i ≠ j → name i ≠ name j.
Proof. intros H E. by apply calc_filename_inj in E. Qed.

Lemma file_insert fs i c : file (<[name i := c]> fs) i = c.
Proof. unfold file. by rewrite lookup_insert_eq. Qed.

Lemma file_insert_ne fs i j c : i ≠ j → file (<[name i := c]> fs) j = file fs j.
Proof. intros H. unfold file. by rewrite lookup_insert_ne by by apply name_ne. Qed.

Lemma contents_ext fs fs' n : (∀ i, (i ≤ n)%nat → file fs i = file fs' i) → contents fs n = contents fs' n.
Proof.
  induction n as [|n IH]; intros H; cbn [contents]; [by apply H|].
  f_equal; [by apply H|]. apply IH. intros i Hi. apply H. lia.
Qed.

(** The renaming of one file, when its target is free. *)
Lemma rename_step s fs i c :
  fs !! name i = Some c →
  rename_file_ all_rename 0 (name i) (name (S i)) (s, fs) =
    (Val true, (s, <[name (S i) := c]> (delete (name i) (delete (name (S i)) fs)))).
Proof.
  intros H. unfold rename_file_. rewrite lookup_delete_ne by (apply name_ne; lia). by rewrite H.
Qed.

Definition move (i : nat) (c : bytes) (fs : files) : files :=
  <[name (S i) := c]> (delete (name i) (delete (name (S i)) fs)).

Lemma move_lookup i c fs p :
  move i c fs !! p = if decide (p = name (S i)) then Some c
                     else if decide (p = name i) then None else fs !! p.
Proof.
  unfold move. case_decide as H1; [subst; by rewrite lookup_insert_eq|].
  rewrite lookup_insert_ne by done. case_decide as H2; [subst; by rewrite lookup_delete_eq|].
  by rewrite !lookup_delete_ne by done.
Qed.

Lemma move_file i c fs k : file (move i c fs) k =
  if decide (k = S i) then c else if decide (k = i) then [] else file fs k.
Proof.
  unfold file. rewrite move_lookup.
  destruct (decide (k = S i)) as [->|H1]; [by rewrite decide_True|].
  rewrite decide_False by (intros E; by apply calc_filename_inj in E).
  destruct (decide (k = i)) as [->|H2]; [by rewrite decide_True|].
  by rewrite decide_False by (intros E; by apply calc_filename_inj in E).
Qed.

Lemma contents_move i c fs :
  fs !! name i = Some c → contents (move i c fs) (S i) = contents fs i.
Proof.
  intros Hc. assert (Hfi : file fs i = c) by (unfold file; by rewrite Hc).
  cbn [contents]. rewrite move_file, decide_True by done.
  destruct i as [|i]; cbn [contents]; rewrite move_file, decide_False, decide_True by lia.
  - by rewrite app_nil_r, Hfi.
  - rewrite Hfi. cbn [app]. f_equal. apply contents_ext. intros k Hk.
    by rewrite move_file, !decide_False by lia.
Qed.

(** [P] of every file [0..n]. *)
Definition each (P : bytes → Prop) (n : nat) (fs : files) : Prop := ∀ k, (k ≤ n)%nat → P (file fs k).

Lemma each_move P i c fs : fs !! name i = Some c → P [] →
  each P i fs → each P (S i) (move i c fs).
Proof.
  intros Hc Hnil H k Hk. rewrite move_file. repeat case_decide; [|done|apply H; lia].
  replace c with (file fs i) by (unfold file; by rewrite Hc). by apply H.
Qed.

Lemma outside_move i c fs fs' n : (S i ≤ n)%nat → outside n (move i c fs) fs' → outside n fs fs'.
Proof.
  intros Hn H p Hp. rewrite H by done. by rewrite move_lookup, !decide_False by (apply Hp; lia).
Qed.

Lemma outside_le i n fs fs' : (i ≤ n)%nat → outside i fs fs' → outside n fs fs'.
Proof. intros Hn H p Hp. apply H. intros k Hk. apply Hp. lia. Qed.

(** Shifting the files below a free number loses nothing. *)
Lemma rotate_loop_spec P i : P [] → ∀ s fs,
  fs !! name i = None →
  ∃ fs', rotate_loop all_open all_rename base i (s, fs) = (Val (), (s, fs')) ∧
    contents fs' i = contents fs i ∧ fs' !! name 0 = None ∧
    (each P i fs → each P i fs') ∧ outside i fs fs' ∧ (∀ k, (i < k)%nat → file fs' k = file fs k).
Proof.
  intros Hnil. induction i as [|i IH]; intros s fs Hi; [by exists fs|].
  assert (Hfs : file fs (S i) = []) by (unfold file; by rewrite Hi).
  cbn [rotate_loop]. unfold mbind, sink_bind, path_exists. fold (name i) (name (S i)).
  destruct (fs !! name i) as [c|] eqn:Hc.
  - rewrite bool_decide_eq_true_2 by by eexists. rewrite (rename_step _ _ _ _ Hc). fold (move i c fs).
    assert (Hfree : move i c fs !! name i = None).
    { rewrite move_lookup, decide_False by (apply name_ne; lia). by rewrite decide_True. }
    destruct (IH s (move i c fs) Hfree) as (fs' & Hr & Hcont & H0 & HP & Hout & Hhigh).
    exists fs'. split_and!; [done| |done| | |].
    + cbn [contents]. rewrite Hcont, Hhigh, Hfs by lia. cbn [app].
      rewrite <- (contents_move _ _ _ Hc). reflexivity.
    + intros H k Hk. destruct (decide (k = S i)) as [->|].
      * rewrite Hhigh by lia. by apply (each_move P i c fs Hc Hnil); [intros j Hj; apply H; lia|].
      * apply HP; [|lia]. intros j Hj. apply (each_move P i c fs Hc Hnil); [|lia].
        intros j' Hj'. apply H. lia.
    + apply (outside_move i c); [done|]. by apply (outside_le i); [lia|].
    + intros k Hk. rewrite Hhigh by lia. by rewrite move_file, !decide_False by lia.
  - rewrite bool_decide_eq_false_2 by (by intros [? ?]).
    destruct (IH s fs Hc) as (fs' & Hr & Hcont & H0 & HP & Hout & Hhigh).
    exists fs'. split_and!; [done| |done| | |].
    + cbn [contents]. by rewrite Hcont, Hhigh by lia.
    + intros H k Hk. destruct (decide (k = S i)) as [->|]; [rewrite Hhigh by lia; by apply H|].
      apply HP; [|lia]. intros j Hj. apply H. lia.
    + by apply (outside_le i); [lia|].
    + intros k Hk. apply Hhigh. lia.
Qed.

Lemma contents_truncate fs n : fs !! name 0 = None → contents (<[name 0 := []]> fs) n = contents fs n.
Proof.
  intros H0. apply contents_ext. intros k _.
  destruct (decide (k = 0%nat)) as [->|]; [|by rewrite file_insert_ne by lia].
  rewrite file_insert. unfold file. by rewrite H0.
Qed.

Lemma each_insert P n fs c : P c → each P n fs → each P n (<[name 0 := c]> fs).
Proof.
  intros Hc H k Hk. destruct (decide (k = 0%nat)) as [->|]; [by rewrite file_insert|].
  rewrite file_insert_ne by lia. by apply H.
Qed.

Lemma outside_insert n fs fs' c : outside n fs fs' → outside n fs (<[name 0 := c]> fs').
Proof. intros H p Hp. rewrite lookup_insert_ne by (symmetry; apply Hp; lia). by apply H. Qed.

(** A rotation drops at most the oldest file and starts an empty one. *)
Lemma rotate_spec P s fs :
  P [] → base_filename_ s = base →
  ∃ fs' lost, rotate_ all_open all_rename (s, fs) = (Val (), (with_fd true s, fs')) ∧
    contents fs (max_files_ s) = lost ++ contents fs' (max_files_ s) ∧ file fs' 0 = [] ∧
    (each P (max_files_ s) fs → each P (max_files_ s) fs') ∧ outside (max_files_ s) fs fs'.
Proof.
  intros Hnil Hb. unfold rotate_, mbind, sink_bind, close_file, modify. rewrite Hb.
  set (s1 := with_fd false s). set (n := max_files_ s).
  assert (∃ fs' lost, rotate_loop all_open all_rename base n (s1, fs) = (Val (), (s1, fs')) ∧
    contents fs n = lost ++ contents (<[name 0 := []]> fs') n ∧
    (each P n fs → each P n fs') ∧ outside n fs fs') as (fs' & lost & -> & Hc & HP & Hout).
  { destruct n as [|n].
    - exists fs, (file fs 0). split_and!; try done. cbn [contents]. by rewrite file_insert, app_nil_r.
    - cbn [rotate_loop]. unfold mbind, sink_bind, path_exists. fold (name n) (name (S n)).
      destruct (fs !! name n) as [c|] eqn:Hn.
      + rewrite bool_decide_eq_true_2 by by eexists. rewrite (rename_step _ _ _ _ Hn). fold (move n c fs).
        assert (Hfree : move n c fs !! name n = None).
        { rewrite move_lookup, decide_False by (apply name_ne; lia). by rewrite decide_True. }
        destruct (rotate_loop_spec P n Hnil s1 _ Hfree) as (fs' & -> & Hcont & H0 & HP & Hout & Hhigh).
        exists fs', (file fs (S n)). split_and!; [done| | |].
        * rewrite contents_truncate by done. cbn [contents]. f_equal.
          rewrite Hcont, Hhigh by lia. by rewrite <- (contents_move _ _ _ Hn).
        * intros H k Hk. destruct (decide (k = S n)) as [->|].
          -- rewrite Hhigh by lia. by apply (each_move P n c fs Hn Hnil); [intros j Hj; apply H; lia|].
          -- apply HP; [|lia]. intros j Hj. apply (each_move P n c fs Hn Hnil); [|lia].
             intros j' Hj'. apply H. lia.
        * apply (outside_move n c); [done|]. by apply (outside_le n); [lia|].
      + rewrite bool_decide_eq_false_2 by (by intros [? ?]).
        destruct (rotate_loop_spec P n Hnil s1 _ Hn) as (fs' & -> & Hcont & H0 & HP & Hout & Hhigh).
        exists fs', []. split_and!; [done| | |].
        * rewrite contents_truncate by done. cbn [contents app]. by rewrite Hcont, Hhigh by lia.
        * intros H k Hk. destruct (decide (k = S n)) as [->|]; [rewrite Hhigh by lia; by apply H|].
          apply HP; [|lia]. intros j Hj. apply H. lia.
        * by apply (outside_le n); [lia|]. }
  unfold open_file. cbn [all_open]. exists (<[name 0 := []]> fs'), lost.
  assert (E : base_filename_ s1 = name 0) by exact Hb. rewrite E. split_and!; [done|done| | |].
  - apply file_insert.
  - intros H. apply each_insert; auto.
  - by apply outside_insert.
Qed.

(** The sink has its file open and knows its size. *)
Definition sink_ok (s : t) (fs : files) : Prop :=
  base_filename_ s = base ∧ fd_ s = true ∧ current_size_ s = Z.of_nat (length (file fs 0)).

Lemma file_append fs c : <[name 0 := default [] (fs !! name 0) ++ c]> fs = <[name 0 := file fs 0 ++ c]> fs.
Proof. done. Qed.

Lemma contents_append fs n c : contents (<[name 0 := file fs 0 ++ c]> fs) n = contents fs n ++ c.
Proof.
  induction n as [|n IH]; cbn [contents]; [by rewrite file_insert|].
  by rewrite IH, file_insert_ne, app_assoc by lia.
Qed.

(** One message: only old text is lost, and no file grows past the bound. *)
Lemma sink_it_spec B s fs m :
  let n := max_files_ s in
  let P c := Z.of_nat (length c) ≤ B in
  sink_ok s fs → max_size_ s ≤ B < 2 ^ 63 → P m → each P n fs →
  ∃ s' fs' lost, sink_it_ all_open all_rename m (s, fs) = (Val (), (s', fs')) ∧
    sink_ok s' fs' ∧ max_size_ s' = max_size_ s ∧ max_files_ s' = n ∧
    contents fs n ++ m = lost ++ contents fs' n ∧ each P n fs' ∧ outside n fs fs'.
Proof.
  intros n P (Hb & Hfd & Hsize) HB Hm Heach. unfold P in Hm.
  assert (H0 : Z.of_nat (length (file fs 0)) ≤ B) by (apply Heach; lia).
  assert (Hnil : P []) by (unfold P; simpl; lia).
  unfold sink_it_. rewrite Hsize, u64_small by lia.
  assert (Hwrite : ∀ s1 fs1 z, base_filename_ s1 = base → fd_ s1 = true →
    (_ ← write m; modify (with_size z)) (s1, fs1) =
      (Val (), (with_size z s1, <[name 0 := file fs1 0 ++ m]> fs1))).
  { intros s1 fs1 z Hb1 Hfd1. unfold mbind, sink_bind, write, modify. rewrite Hfd1. cbn.
    assert (E : base_filename_ s1 = name 0) by exact Hb1. by rewrite E. }
  assert (Hplain : Z.of_nat (length (file fs 0)) + Z.of_nat (length m) ≤ max_size_ s ∨ file fs 0 = [] →
    ∃ s' fs' lost, (_ ← write m; modify (with_size (Z.of_nat (length (file fs 0)) + Z.of_nat (length m)))) (s, fs)
        = (Val (), (s', fs')) ∧
      sink_ok s' fs' ∧ max_size_ s' = max_size_ s ∧ max_files_ s' = n ∧
      contents fs n ++ m = lost ++ contents fs' n ∧ each P n fs' ∧ outside n fs fs').
  { intros Hsmall. rewrite Hwrite by done. eexists _, _, []. split; [done|].
    split_and!; try done.
    - split_and!; try done. by rewrite file_insert, length_app, Nat2Z.inj_add.
    - by rewrite contents_append.
    - apply each_insert; [|done]. unfold P. rewrite length_app.
      destruct Hsmall as [Hs| ->]; [lia|simpl; lia].
    - by apply outside_insert. }
  destruct (Z.ltb_spec (max_size_ s) (Z.of_nat (length (file fs 0)) + Z.of_nat (length m))) as [Hbig|Hbig].
  - unfold mbind at 1, sink_bind at 1. unfold mbind at 1, sink_bind at 1. unfold size. rewrite Hfd.
    assert (E : default [] (fs !! base_filename_ s) = file fs 0) by (unfold file; by rewrite Hb).
    rewrite E. destruct (Z.ltb_spec 0 (Z.of_nat (length (file fs 0)))) as [Hpos|Hpos].
    + destruct (rotate_spec P s fs Hnil Hb) as (fs1 & lost & Hr & Hc & Hf0 & HP & Hout).
      unfold mbind at 1, sink_bind at 1. rewrite Hr. unfold mret, sink_ret.
      rewrite Hwrite by done. rewrite Hf0. eexists _, _, lost. split; [done|]. split_and!; try done.
      * split_and!; try done. by rewrite file_insert.
      * fold n in Hc. rewrite Hc, <- app_assoc. f_equal.
        pose proof (contents_append fs1 n m) as H. rewrite Hf0 in H. by rewrite H.
      * apply each_insert; [done|]. by apply HP.
      * by apply outside_insert.
    + unfold mret, sink_ret. apply Hplain. right. apply nil_length_inv. lia.
  - unfold mbind at 1, sink_bind at 1, mret, sink_ret. apply Hplain. by left.
Qed.

Lemma sink_all_spec B msgs : ∀ s fs,
  let n := max_files_ s in
  let P c := Z.of_nat (length c) ≤ B in
  sink_ok s fs → max_size_ s ≤ B < 2 ^ 63 → Forall P msgs → each P n fs →
  ∃ s' fs' lost, sink_all all_open all_rename msgs (s, fs) = (Val (), (s', fs')) ∧
    contents fs n ++ concat msgs = lost ++ contents fs' n ∧ each P n fs' ∧ outside n fs fs'.
Proof.
  induction msgs as [|m msgs IH]; intros s fs n P Hok HB Hm Heach; subst n.
  - exists s, fs, []. split_and!; try done. by rewrite app_nil_r.
  - apply Forall_cons in Hm as [Hm Hms].
    destruct (sink_it_spec B s fs m Hok HB Hm Heach)
      as (s1 & fs1 & lost1 & Hr & Hok1 & Hmax & Hn & Hc & Heach1 & Hout1).
    cbn [sink_all]. unfold mbind, sink_bind. rewrite Hr.
    rewrite <- Hn in Heach1. rewrite <- Hmax in HB.
    destruct (IH s1 fs1 Hok1 HB Hms Heach1) as (s2 & fs2 & lost2 & Hr2 & Hc2 & Heach2 & Hout2).
    rewrite Hn in *. exists s2, fs2, (lost1 ++ lost2). split_and!; [done| |done|].
    + cbn [concat]. by rewrite app_assoc, Hc, <- !app_assoc, Hc2.
    + intros p Hp. by rewrite Hout2, Hout1.
Qed.
End rotation.

Import RotatingFileSink.

(** C38. A rotating log file: on a file system that refuses nothing, for any
    sequence of messages, when neither a message nor a file that was there before
    is longer than [B] bytes and [max_size] is at most [B], no message is refused,
    each of the [max_files + 1] files stays within [B] bytes, what they hold from
    the oldest to the newest is a suffix of what they held followed by the
    messages, and no other file is touched. *)
Theorem rotating_sink_bounded (base : bytes) (max_size max_files B : Z) (fs : files) (msgs : list bytes) :
  let n := Z.to_nat max_files in
  0 < max_size ≤ B → B < 2 ^ 63 → 0 ≤ max_files ≤ 200000 →
  Forall (λ m, Z.of_nat (length m) ≤ B) msgs →
  each base (λ c, Z.of_nat (length c) ≤ B) n fs →
  ∃ s fs1 s' fs2 lost,
    RotatingFileSink.make all_open base max_size max_files fs = (Val s, fs1) ∧
    sink_all all_open all_rename msgs (s, fs1) = (Val (), (s', fs2)) ∧
    each base (λ c, Z.of_nat (length c) ≤ B) n fs2 ∧
    contents base fs n ++ concat msgs = lost ++ contents base fs2 n ∧
    outside base n fs fs2.
Proof.
  intros n HB HB' Hf Hm Heach. unfold RotatingFileSink.make.
  rewrite (proj2 (Z.eqb_neq max_size 0)), (proj2 (Z.ltb_ge 200000 max_files)) by lia.
  unfold mbind, sink_bind, open_file, all_open, size, modify.
  cbn [with_fd fd_ base_filename_]. fold all_open. fold n.
  set (s := with_size _ _). set (fs1 := <[_ := _]> fs).
  assert (E : fs1 = <[name base 0 := file base fs 0]> fs) by done.
  assert (Hfile : ∀ k, file base fs1 k = file base fs k).
  { intros k. rewrite E. destruct (decide (k = 0%nat)) as [->|]; [by rewrite file_insert|].
    by rewrite file_insert_ne by lia. }
  assert (Hok : sink_ok base s fs1).
  { split_and!; try done. }
  destruct (sink_all_spec base B msgs s fs1 Hok) as (s' & fs2 & lost & Hr & Hc & He & Ho);
    [simpl; lia|done|intros k Hk; by rewrite Hfile; apply Heach|].
  exists s, fs1, s', fs2, lost. split_and!; [done|done|done| |].
  - assert (Hcont : contents base fs1 n = contents base fs n) by (by apply contents_ext).
    rewrite <- Hcont. exact Hc.
  - intros p Hp. rewrite Ho by done. rewrite E. apply lookup_insert_ne. symmetry. apply Hp. lia.
Qed.

Lemma rotating_sink_bounded_witness :
  ∃ s fs1 s' fs2 lost,
    RotatingFileSink.make all_open (str "a.log") 4 1 ∅ = (Val s, fs1) ∧
    sink_all all_open all_rename [str "abc"; str "de"; str "fghi"] (s, fs1) = (Val (), (s', fs2)) ∧
    each (str "a.log") (λ c, Z.of_nat (length c) ≤ 4) 1 fs2 ∧
    contents (str "a.log") ∅ 1 ++ concat [str "abc"; str "de"; str "fghi"] =
      lost ++ contents (str "a.log") fs2 1 ∧
    outside (str "a.log") 1 ∅ fs2.
Proof.
  apply (rotating_sink_bounded (str "a.log") 4 1 4); [lia|lia|lia| |].
  - rewrite !Forall_cons. split_and!; try apply List.Forall_nil; vm_compute; discriminate.
  - intros k _. unfold file. rewrite lookup_empty. simpl. lia.
Defined.

Import Logger.

Lemma mul_int_val a b : in_signed 32 (a * b) → mul_int a b = Val (a * b).
Proof. intros H. unfold mul_int. by rewrite decide_True. Qed.

Lemma mul_int_overflow a b : ¬ in_signed 32 (a * b) → mul_int a b = Undefined.
Proof. intros H. unfold mul_int. by rewrite decide_False. Qed.

Lemma size_in_bytes_spec m : 0 < m →
  size_in_bytes m = if decide (m < 2048) then Val (m * 1048576) else Undefined.
Proof.
  intros Hm. unfold size_in_bytes. case_decide.
  - rewrite mul_int_val by (unfold in_signed; lia). cbn [mbind outcome_bind].
    rewrite mul_int_val by (unfold in_signed; lia). f_equal. lia.
  - destruct (decide (in_signed 32 (m * 1024))) as [H1|H1].
    + rewrite mul_int_val by done. cbn [mbind outcome_bind].
      rewrite mul_int_overflow; [done|]. unfold in_signed. lia.
    + by rewrite mul_int_overflow.
Qed.

(** [initLogger] with a positive file size and number: from 2048 megabytes on,
    the product overflows an [int] and the outcome is undefined; below that, with
    at most 200000 files and a directory that is there or can be made, the logger
    is set up, and a message of level [lvl] goes to the console and to
    [lite_monitor.log] when it reaches the configured level, also to
    [lite_monitor.warn] from level warning on, and also to [lite_monitor.error]
    from level error on; an unknown level name turns everything off. *)
Theorem initLogger_spec (dir_exists mkdir_ok : bool) (params : LogParams) (m k : Z) (fs : files) :
  max_log_file_size params = Some m → max_log_file_num params = Some k → 0 < m → 0 < k →
  (2048 ≤ m → (initLogger all_open dir_exists mkdir_ok params fs).1 = Undefined) ∧
  (m < 2048 → k ≤ 200000 → dir_exists || mkdir_ok = true →
   ∃ l s1 s2 s3 fs', initLogger all_open dir_exists mkdir_ok params fs = (Val (Some l), fs') ∧
     level_ l = from_str (log_level params) ∧
     base_filename_ s1 = log_dir params ++ str "/lite_monitor.log" ∧
     base_filename_ s2 = log_dir params ++ str "/lite_monitor.warn" ∧
     base_filename_ s3 = log_dir params ++ str "/lite_monitor.error" ∧
     Forall (λ s, max_size_ s = m * 1048576 ∧ max_files_ s = Z.to_nat k) [s1; s2; s3] ∧
     ∀ lvl, lvl ≠ off → receivers l lvl =
       if should_log (level_ l) lvl then
         [Console; LogFile s1] ++ (if should_log warn lvl then [LogFile s2] else []) ++
           (if should_log err lvl then [LogFile s3] else [])
       else []).
Proof.
  intros Hm Hk Hm0 Hk0. unfold initLogger. rewrite Hm, Hk. cbn [ConfigsLoader.read_int mbind outcome_bind].
  rewrite size_in_bytes_spec by done. split.
  - intros H. by rewrite decide_False by lia.
  - intros H Hk' Hdir. rewrite decide_True by lia. cbn [mbind outcome_bind].
    replace (negb dir_exists && negb mkdir_ok) with false by by destruct dir_exists, mkdir_ok.
    assert (Hmake : ∀ n fs0, ∃ s fs1, make_sink all_open (log_dir params) n (m * 1048576) k fs0 = (Val s, fs1) ∧
      base_filename_ s = log_dir params ++ str n ∧ max_size_ s = m * 1048576 ∧ max_files_ s = Z.to_nat k).
    { intros n fs0. unfold make_sink, RotatingFileSink.make. rewrite !u64_small by lia.
      rewrite (proj2 (Z.eqb_neq _ 0)), (proj2 (Z.ltb_ge 200000 k)) by lia.
      eexists _, _. split; [done|]. by split_and!. }
    unfold make_logger.
    destruct (Hmake "/lite_monitor.log"%string fs) as (s1 & fs1 & -> & Hb1 & Hs1). cbn [and_then].
    destruct (Hmake "/lite_monitor.warn"%string fs1) as (s2 & fs2 & -> & Hb2 & Hs2). cbn [and_then].
    destruct (Hmake "/lite_monitor.error"%string fs2) as (s3 & fs3 & -> & Hb3 & Hs3). cbn [and_then].
    eexists _, s1, s2, s3, fs3. split; [done|]. split_and!; try done; [by rewrite !Forall_cons|].
    intros lvl _. unfold receivers. cbn [level_ sinks_].
    destruct (should_log (from_str (log_level params)) lvl) eqn:El; [|done].
    rewrite !filter_cons. cbn [snd]. rewrite El, !decide_True by done.
    destruct (should_log warn lvl) eqn:Ew, (should_log err lvl) eqn:Ee;
      rewrite ?decide_True, ?decide_False by done; done.
Qed.

Definition sample_log : LogParams := MkLog (str "logs") (Some 100) (Some 10) (str "info").

Lemma initLogger_spec_witness :
  (initLogger all_open true false (MkLog (str "logs") (Some 2048) (Some 10) (str "info")) ∅).1 = Undefined ∧
  ∃ l s1 s2 s3 fs', initLogger all_open true false sample_log ∅ = (Val (Some l), fs') ∧
    level_ l = info ∧ receivers l critical = [Console; LogFile s1; LogFile s2; LogFile s3].
Proof.
  split.
  - apply (proj1 (initLogger_spec true false (MkLog (str "logs") (Some 2048) (Some 10) (str "info"))
      2048 10 ∅ eq_refl eq_refl ltac:(lia) ltac:(lia))). lia.
  - destruct (proj2 (initLogger_spec true false sample_log 100 10 ∅ eq_refl eq_refl ltac:(lia) ltac:(lia))
      ltac:(lia) ltac:(lia) eq_refl) as (l & s1 & s2 & s3 & fs' & H & Hl & _ & _ & _ & _ & Hr).
    exists l, s1, s2, s3, fs'. split; [exact H|]. split; [exact Hl|].
    rewrite (Hr critical) by discriminate. rewrite Hl. reflexivity.
Defined.
