(* ===== verification/Main.v ===== *)
(** * The program ([common/utils/path_utils.cpp], [lite_monitor.cpp])

    [PathUtils] and [main], which composes the configuration loader, the logger and
    the HTTP server. *)

From S2P Require Import Prelude StdString JsonText JsonRead Config Logger Http.
From Stdlib Require Import Strings.Byte.

Open Scope Z_scope.

Module PathUtils.

Definition CONFIGS_PATH : bytes := str "../etc/lite_monitor.yaml".
Definition INIT_SQL_SCRIPT_PATH : bytes := str "../scripts/init.sql".
Definition PARTITION_SQL_SCRIPT_PATH : bytes := str "../scripts/partition.sql".

(** [readlink] is the target of [/proc/self/exe], cut at [PATH_MAX]. *)
Definition getModuleDir (readlink : option bytes) : outcome bytes :=
  match readlink with
  | None => Throw "Failed to read /proc/self/exe"
  | Some full_path =>
      match find_last_of x2f full_path with
      | None => Val (str ".")
      | Some last_slash => substr 0 last_slash full_path
      end
  end.

Definition joinAppPath (readlink : option bytes) (relative_path : bytes) : outcome bytes :=
  dir ← getModuleDir readlink; Val (dir ++ str "/" ++ relative_path).
Definition getInitSqlScriptPath (readlink : option bytes) : outcome bytes :=
  dir ← getModuleDir readlink; Val (dir ++ str "/" ++ INIT_SQL_SCRIPT_PATH).
Definition getConfigsPath (readlink : option bytes) : outcome bytes :=
  dir ← getModuleDir readlink; Val (dir ++ str "/" ++ CONFIGS_PATH).

(** The directory of an executable. *)
Lemma getModuleDir_spec dir file : x2f ∉ file → getModuleDir (Some (dir ++ x2f :: file)) = Val dir.
Proof.
  intros H. unfold getModuleDir, find_last_of.
  assert (Hl : last_index_of x2f (dir ++ x2f :: file) = Some (length dir)).
  { assert (Hn : last_index_of x2f file = None).
    { induction file as [|c file IH]; [done|]. apply not_elem_of_cons in H as [Hc H].
      cbn [last_index_of]. rewrite IH by done. by rewrite decide_False. }
    induction dir as [|c dir IH]; cbn [app last_index_of length].
    - by rewrite Hn, decide_True.
    - by rewrite IH. }
  rewrite Hl. unfold substr. rewrite decide_True by lia. rewrite drop_0.
  by rewrite take_app_length.
Qed.

End PathUtils.

(** What the process finds around it. *)
Record environment := Environment {
  readlink : option bytes;
  argv : list bytes;                      (* without the program's name *)
  accessible : bytes → bool;
  load_file : bytes → outcome YAML.node;
  dir_exists : bool;                      (* of the log directory *)
  mkdir_ok : bool;
  can_open : bytes → bool;
  listen_returns : bool;
}.

Definition config_path (env : environment) : outcome bytes :=
  path ← PathUtils.getConfigsPath (readlink env);
  Val (default path (head (argv env))).

(** [main]: what the HTTP server does, until [listen] returns or for ever. *)
Definition main (env : environment) (fs : RotatingFileSink.files) : outcome (list HTTPServer.action) :=
  path ← config_path env;
  '(_, params) ← ConfigsLoader.initConfigs (accessible env) (load_file env) path uninitialized;
  _ ← (Logger.initLogger (can_open env) (dir_exists env) (mkdir_ok env) (log_params params) fs).1;
  port ← ConfigsLoader.read_int (server_port (http_server_params params));
  let http_server := HTTPServer.make (server_host (http_server_params params)) port in
  Val (HTTPServer.start (listen_returns env) http_server ++
       if listen_returns env then HTTPServer.destroy http_server else []).

(** A file that sets every integer. *)
Definition complete (q : Settings) : Prop :=
  Forall is_Some [s_db_port q; s_history q; s_trend q; s_log_size q; s_log_num q; s_http_port q;
                  s_tcp_port q].

(** A size in megabytes whose number of bytes is an [int]. *)
Definition countable_size (m : Z) : bool := (-2048 <=? m) && (m <? 2048).

Lemma complete_initialized q p : complete q → initialized (override q p).
Proof.
  intros H. unfold complete, initialized in *. rewrite !Forall_cons in *.
  destruct H as ([? H1] & [? H2] & [? H3] & [? H4] & [? H5] & [? H6] & [? H7] & _).
  cbn. rewrite H1, H2, H3, H4, H5, H6, H7. cbn. split_and!; try apply List.Forall_nil; by eexists.
Qed.

Lemma make_defined can_open base size num fs :
  (RotatingFileSink.make can_open base size num fs).1 ≠ Undefined.
Proof.
  unfold RotatingFileSink.make. destruct (size =? 0); [done|]. destruct (200000 <? num); [done|].
  unfold mbind, RotatingFileSink.sink_bind, RotatingFileSink.open_file, RotatingFileSink.size,
    RotatingFileSink.modify. cbn. by destruct (can_open base).
Qed.

Lemma and_then_defined {A B : Type} (r : outcome A * RotatingFileSink.files)
    (k : A → RotatingFileSink.files → outcome B * RotatingFileSink.files) :
  r.1 ≠ Undefined → (∀ a fs, (k a fs).1 ≠ Undefined) → (Logger.and_then r k).1 ≠ Undefined.
Proof. destruct r as [[a|e|] fs]; cbn; auto. Qed.

Lemma initLogger_overflow can_open d mk params m fs :
  max_log_file_size params = Some m → countable_size m = false →
  (Logger.initLogger can_open d mk params fs).1 = Undefined.
Proof.
  intros Hm Hr. unfold Logger.initLogger. rewrite Hm. unfold Logger.size_in_bytes.
  cbn [ConfigsLoader.read_int mbind outcome_bind].
  destruct (decide (in_signed 32 (m * 1024))) as [H1|H1]; [|by rewrite mul_int_overflow].
  rewrite mul_int_val by done. cbn [mbind outcome_bind].
  rewrite mul_int_overflow; [done|]. unfold countable_size, in_signed in *. lia.
Qed.

Lemma initLogger_defined can_open d mk params m k fs :
  max_log_file_size params = Some m → countable_size m = true → max_log_file_num params = Some k →
  ∃ l, (Logger.initLogger can_open d mk params fs).1 = Val l.
Proof.
  unfold countable_size. intros Hm Hr Hk. unfold Logger.initLogger. rewrite Hm, Hk. unfold Logger.size_in_bytes.
  cbn [ConfigsLoader.read_int mbind outcome_bind].
  rewrite mul_int_val by (unfold in_signed; lia). cbn [mbind outcome_bind].
  rewrite mul_int_val by (unfold in_signed; lia). cbn [mbind outcome_bind].
  destruct (negb d && negb mk); [by eexists|].
  assert (H : (Logger.make_logger can_open (log_dir params) (log_level params) (m * 1024 * 1024) k fs).1 ≠ Undefined).
  { unfold Logger.make_logger.
    repeat (apply and_then_defined; [apply make_defined|intros]). done. }
  destruct (Logger.make_logger _ _ _ _ _ _) as [[l|e|] fs']; [by eexists..|done].
Qed.

(** What the loader's repairs leave of the members that [main] reads. *)
Lemma validate_members p b p' :
  initialized p → ConfigsLoader.validateConfigs p = Val (b, p') →
  (max_log_file_size (log_params p') = max_log_file_size (log_params p) ∨
   max_log_file_size (log_params p') = Some 100) ∧
  is_Some (max_log_file_num (log_params p')) ∧ is_Some (server_port (http_server_params p')).
Proof.
  intros Hi H. rewrite validateConfigs_conditions in H by done.
  pose proof (first_failure_spec (conditions p) p) as Hspec.
  destruct (first_failure (conditions p) p) as [b0 p0]. injection H as -> ->. cbn [fst snd] in Hspec.
  assert (Hp' : p' = p ∨ (false, p') ∈ conditions p) by naive_solver.
  clear Hspec.
  unfold initialized in Hi. rewrite !Forall_cons in Hi. destruct Hi as (_ & _ & Hn & _ & _ & Hh & _).
  unfold conditions in Hp'. rewrite !elem_of_cons in Hp'.
  repeat destruct Hp' as [[=]|Hp']; subst; try (by apply not_elem_of_nil in Hp');
    cbn; eauto.
Qed.

(** C39. The whole program: it reads the file named on the command line, or else
    [../etc/lite_monitor.yaml] next to the directory of its executable.  When that
    file is not accessible the program goes on with parameters that nothing has
    assigned, which is undefined.  When the file sets every integer, each to a value
    of [int], the outcome depends on the size of the log, in megabytes, that loading
    and validation leave: if its number of bytes is an [int], that is from -2048 to
    2047, the HTTP server listens on the host and port that loading and validation
    leave, and says so only after it has stopped listening, whether or not the loader
    has accepted the configuration; for any other size, such as 2048, which the loader
    accepts, the product overflows before the server is built, which is undefined. *)
Theorem main_behaviour (env : environment) (fs : RotatingFileSink.files) (dir exe : bytes) :
  readlink env = Some (dir ++ x2f :: exe) → x2f ∉ exe →
  let path := default (dir ++ str "/../etc/lite_monitor.yaml") (head (argv env)) in
  config_path env = Val path ∧
  (accessible env path = false → main env fs = Undefined) ∧
  (∀ q, accessible env path = true → load_file env path = Val (to_yaml q) →
     int_settings q → complete q →
     ∃ ok p' port m, ConfigsLoader.validateConfigs (override q uninitialized) = Val (ok, p') ∧
       server_port (http_server_params p') = Some port ∧ max_log_file_size (log_params p') = Some m ∧
       let server := HTTPServer.make (server_host (http_server_params p')) port in
       main env fs =
         if countable_size m
         then Val (HTTPServer.start (listen_returns env) server ++
                   if listen_returns env then HTTPServer.destroy server else [])
         else Undefined).
Proof.
  intros Hrl Hexe path.
  assert (Hpath : config_path env = Val path).
  { unfold config_path, PathUtils.getConfigsPath. rewrite Hrl, PathUtils.getModuleDir_spec by done. done. }
  split; [exact Hpath|]. unfold main. rewrite Hpath. cbn [mbind outcome_bind].
  unfold ConfigsLoader.initConfigs. split.
  - intros Ha. by rewrite Ha.
  - intros q Ha Hload Hq Hc. rewrite Ha.
    assert (Hl : ConfigsLoader.loadConfigs (load_file env) path uninitialized =
      (Val true, override q uninitialized)).
    { unfold ConfigsLoader.loadConfigs, mbind, ConfigsLoader.L_bind, ConfigsLoader.lift. rewrite Hload.
      by rewrite (load_body_settings q Hq). }
    rewrite Hl. pose proof (complete_initialized q uninitialized Hc) as Hi.
    pose proof (validateConfigs_conditions _ Hi) as Hv.
    destruct (first_failure (conditions (override q uninitialized)) (override q uninitialized)) as [ok p'].
    destruct (validate_members _ _ _ Hi Hv) as (Hsize & [k Hnum] & [port Hport]).
    assert (∃ m, max_log_file_size (log_params p') = Some m) as [m Hm].
    { destruct Hsize as [->| ->]; [|by exists 100]. unfold complete in Hc. rewrite !Forall_cons in Hc.
      destruct Hc as (_ & _ & _ & [m Hm] & _). exists m. cbn. by rewrite Hm. }
    exists ok, p', port, m. split; [exact Hv|]. split; [exact Hport|]. split; [exact Hm|].
    cbn [mbind outcome_bind]. rewrite Hv. cbn [mbind outcome_bind].
    destruct (countable_size m) eqn:Hr; [|by rewrite (initLogger_overflow _ _ _ _ m)].
    destruct (initLogger_defined (can_open env) (dir_exists env) (mkdir_ok env) (log_params p') m k fs
      Hm Hr Hnum) as [l Hlog].
    rewrite Hlog, Hport. reflexivity.
Qed.

(** The settings of the repository's own configuration file, without a database
    host. *)
Definition shipped : Settings :=
  MkSettings None (Some 3306) (Some (str "lite_monitor")) (Some (str "lite_monitor"))
    (Some (str "lite_monitor")) (Some 14) (Some 3) (Some (str "../logs")) (Some (str "info"))
    (Some 100) (Some 10) (Some (str "localhost")) (Some 20317) (Some (str "localhost")) (Some 21210).
Definition sample_env : environment :=
  Environment (Some (str "/opt/bin/lite_monitor")) [] (λ _, true) (λ _, Val (to_yaml shipped))
    true false (λ _, true) false.

Lemma main_behaviour_witness :
  config_path sample_env = Val (str "/opt/bin/../etc/lite_monitor.yaml") ∧
  ∃ ok p' port m, ConfigsLoader.validateConfigs (override shipped uninitialized) = Val (ok, p') ∧
    server_port (http_server_params p') = Some port ∧ max_log_file_size (log_params p') = Some m ∧
    main sample_env ∅ =
      if countable_size m
      then Val (HTTPServer.start false (HTTPServer.make (server_host (http_server_params p')) port) ++ [])
      else Undefined.
Proof.
  assert (He : x2f ∉ str "lite_monitor") by (apply (bool_decide_unpack _); vm_compute; exact I).
  destruct (main_behaviour sample_env ∅ (str "/opt/bin") (str "lite_monitor") eq_refl He) as (H1 & _ & H3).
  split; [exact H1|]. apply (H3 shipped); [reflexivity|reflexivity| |].
  - unfold int_settings. rewrite !Forall_cons. split_and!; try apply List.Forall_nil;
      intros z [= <-]; done.
  - unfold complete. rewrite !Forall_cons. split_and!; try apply List.Forall_nil; by eexists.
Defined.
