(* ===== verification/Model.v ===== *)
(** * The records of the monitored data ([include/model])

    [Host], [Item] and [History]: private members with a getter and a setter each.
    A member is a [Field]: what it reads after a write, and that writing one leaves
    the others alone, is proved once from the two equations of the class. *)

From S2P Require Import Prelude.

Open Scope Z_scope.

(** A member of an object: [get] and [set], [conv] the conversion to its type. *)
Class Field {T V : Type} (get : T → V) (set : V → T → T) (conv : V → V) := {
  get_set : ∀ v t, get (set v t) = conv v;
  set_set : ∀ v w t, set v (set w t) = set v t;
}.

(** Two members do not share storage. *)
Class Apart {T V W : Type} (get : T → V) (set' : W → T → T) :=
  get_apart : ∀ w t, get (set' w t) = get t.

Ltac solve_field := split; reflexivity.
Ltac solve_apart := intros ? ?; reflexivity.

Module Host.

Record t := mk { host_id : Z; host_name : bytes; ip : bytes; status : Z; create_time : Z }.
Definition make : t := mk 0 [] [] 0 0.

Definition getHostId (h : t) : Z := host_id h.
Definition setHostId (v : Z) (h : t) : t := mk (u64 v) (host_name h) (ip h) (status h) (create_time h).
Definition getHostName (h : t) : bytes := host_name h.
Definition setHostName (v : bytes) (h : t) : t := mk (host_id h) v (ip h) (status h) (create_time h).
Definition getIp (h : t) : bytes := ip h.
Definition setIp (v : bytes) (h : t) : t := mk (host_id h) (host_name h) v (status h) (create_time h).
Definition getStatus (h : t) : Z := status h.
Definition setStatus (v : Z) (h : t) : t := mk (host_id h) (host_name h) (ip h) (i8 v) (create_time h).
Definition getCreateTime (h : t) : Z := create_time h.
Definition setCreateTime (v : Z) (h : t) : t := mk (host_id h) (host_name h) (ip h) (status h) (u64 v).

#[global] Instance host_id_field : Field getHostId setHostId (wrap 64).
Proof. solve_field. Qed.
#[global] Instance host_name_field : Field getHostName setHostName id.
Proof. solve_field. Qed.
#[global] Instance ip_field : Field getIp setIp id.
Proof. solve_field. Qed.
#[global] Instance status_field : Field getStatus setStatus (swrap 8).
Proof. solve_field. Qed.
#[global] Instance create_time_field : Field getCreateTime setCreateTime (wrap 64).
Proof. solve_field. Qed.
End Host.

Module Item.

Record t := mk {
  item_id : Z; host_id : Z; item_key : bytes; value_type : Z; units : bytes; interval_sec : Z;
  status : Z; create_time : Z;
}.
Definition make : t := mk 0 0 [] 0 [] 0 0 0.

Definition getItemId (i : t) : Z := item_id i.
Definition setItemId (v : Z) (i : t) : t :=
  mk (u64 v) (host_id i) (item_key i) (value_type i) (units i) (interval_sec i) (status i) (create_time i).
Definition getHostId (i : t) : Z := host_id i.
Definition setHostId (v : Z) (i : t) : t :=
  mk (item_id i) (u64 v) (item_key i) (value_type i) (units i) (interval_sec i) (status i) (create_time i).
Definition getItemKey (i : t) : bytes := item_key i.
Definition setItemKey (v : bytes) (i : t) : t :=
  mk (item_id i) (host_id i) v (value_type i) (units i) (interval_sec i) (status i) (create_time i).
Definition getValueType (i : t) : Z := value_type i.
Definition setValueType (v : Z) (i : t) : t :=
  mk (item_id i) (host_id i) (item_key i) (i8 v) (units i) (interval_sec i) (status i) (create_time i).
Definition getUnits (i : t) : bytes := units i.
Definition setUnits (v : bytes) (i : t) : t :=
  mk (item_id i) (host_id i) (item_key i) (value_type i) v (interval_sec i) (status i) (create_time i).
Definition getIntervalSec (i : t) : Z := interval_sec i.
Definition setIntervalSec (v : Z) (i : t) : t :=
  mk (item_id i) (host_id i) (item_key i) (value_type i) (units i) (i32 v) (status i) (create_time i).
Definition getStatus (i : t) : Z := status i.
Definition setStatus (v : Z) (i : t) : t :=
  mk (item_id i) (host_id i) (item_key i) (value_type i) (units i) (interval_sec i) (i8 v) (create_time i).
Definition getCreateTime (i : t) : Z := create_time i.
Definition setCreateTime (v : Z) (i : t) : t :=
  mk (item_id i) (host_id i) (item_key i) (value_type i) (units i) (interval_sec i) (status i) (u64 v).

#[global] Instance item_id_field : Field getItemId setItemId (wrap 64).
Proof. solve_field. Qed.
#[global] Instance item_host_id_field : Field getHostId setHostId (wrap 64).
Proof. solve_field. Qed.
#[global] Instance item_key_field : Field getItemKey setItemKey id.
Proof. solve_field. Qed.
#[global] Instance value_type_field : Field getValueType setValueType (swrap 8).
Proof. solve_field. Qed.
#[global] Instance units_field : Field getUnits setUnits id.
Proof. solve_field. Qed.
#[global] Instance interval_sec_field : Field getIntervalSec setIntervalSec (swrap 32).
Proof. solve_field. Qed.
#[global] Instance item_status_field : Field getStatus setStatus (swrap 8).
Proof. solve_field. Qed.
#[global] Instance item_create_time_field : Field getCreateTime setCreateTime (wrap 64).
Proof. solve_field. Qed.
#[global] Instance item_id_host_apart : Apart getItemId setHostId.
Proof. solve_apart. Qed.
#[global] Instance status_value_type_apart : Apart getStatus setValueType.
Proof. solve_apart. Qed.
End Item.

(** [History<T>], for any type [T] of values with its [T()]. *)
Module History.
Section history.
Context {T : Type} (default_value : T).

Record t := mk { itemid : Z; clock : Z; value : T; ns : Z }.
Definition make : t := mk 0 0 default_value 0.

Definition getItemId (h : t) : Z := itemid h.
Definition setItemId (v : Z) (h : t) : t := mk (u64 v) (clock h) (value h) (ns h).
Definition getClock (h : t) : Z := clock h.
Definition setClock (v : Z) (h : t) : t := mk (itemid h) (u64 v) (value h) (ns h).
Definition getValue (h : t) : T := value h.
Definition setValue (v : T) (h : t) : t := mk (itemid h) (clock h) v (ns h).
Definition getNs (h : t) : Z := ns h.
Definition setNs (v : Z) (h : t) : t := mk (itemid h) (clock h) (value h) (i32 v).

#[global] Instance itemid_field : Field getItemId setItemId (wrap 64).
Proof. solve_field. Qed.
#[global] Instance clock_field : Field getClock setClock (wrap 64).
Proof. solve_field. Qed.
#[global] Instance value_field : Field getValue setValue id.
Proof. solve_field. Qed.
#[global] Instance ns_field : Field getNs setNs (swrap 32).
Proof. solve_field. Qed.
End history.
Arguments t : clear implicits.
End History.

(** Writing back a value that was read from a member in its type's range changes
    nothing that the getter can see. *)
Lemma field_write_back {T V : Type} (get : T → V) set conv `{!Field get set conv} (a b : T) :
  conv (get a) = get a → get (set (get a) b) = get a.
Proof. intros H. by rewrite get_set, H. Qed.
