(* ===== verification/ProtoWire.v ===== *)
(** * The protobuf wire format as the generated code uses it

    Varints, sizes and fields ([google/protobuf/io/coded_stream.h],
    [google/protobuf/parse_context.h], [google/protobuf/wire_format_lite.h]) and the
    loop all generated [_InternalParse] functions share.  What the headers leave to
    the compiled library is a record of functions ([ProtoLibrary]) with the part of
    its documented behaviour that messages without unknown fields rely on
    ([ProtoLibraryLaws]). *)

From S2P Require Import Prelude.
From Stdlib Require Import Strings.Byte.

Open Scope Z_scope.

(** ** Varints *)

(** [UnsafeVarint]: seven bits a byte, the top bit set on all bytes but the last.
    Ten bytes hold 64 bits. *)
Fixpoint write_varint (fuel : nat) (value : Z) : bytes :=
  match fuel with
  | O => []
  | S fuel =>
      if value <? 128 then [z2b value]
      else z2b (Z.lor (u8 value) 128) :: write_varint fuel (Z.shiftr value 7)
  end.
Definition UnsafeVarint (value : Z) : bytes := write_varint 10 value.

(** [VarintSize64] and [VarintSize32], without a loop. *)
Definition VarintSize (value : Z) : Z := (Z.log2 (Z.lor value 1) * 9 + 73) / 64.
Definition VarintSizePlusOne (value : Z) : Z := (Z.log2 (Z.lor value 1) * 9 + 73 + 64) / 64.

Lemma varint_head value : 128 ≤ value → b2z (z2b (Z.lor (u8 value) 128)) = value mod 128 + 128.
Proof.
  intros H. rewrite b2z_z2b. unfold wrap. change (2 ^ 8) with 256.
  assert (Hl : Z.lor (value mod 256) 128 = value mod 128 + 128).
  { assert (Hv : value mod 256 = value mod 128 ∨ value mod 256 = value mod 128 + 128) by zarith.
    pose proof (Z.mod_pos_bound value 128 eq_refl).
    assert (H1 : Z.lor (value mod 128) 128 = value mod 128 + 128)
      by exact (lor_shiftl_add (value mod 128) 1 7 ltac:(lia) ltac:(lia)).
    destruct Hv as [-> | ->]; [exact H1|]. rewrite <- H1.
    by rewrite <- Z.lor_assoc, Z.lor_diag. }
  rewrite Hl. pose proof (Z.mod_pos_bound value 128 eq_refl). by rewrite Z.mod_small by lia.
Qed.

Lemma shiftr7 value : Z.shiftr value 7 = value `div` 128.
Proof. by rewrite Z.shiftr_div_pow2. Qed.

(** How many bytes: one more than a seventh of the top bit's position. *)
Lemma length_write_varint n : ∀ value, (0 < n)%nat → 0 ≤ value < 2 ^ (7 * Z.of_nat n) →
  Z.of_nat (length (write_varint n value)) = Z.log2 (Z.lor value 1) / 7 + 1.
Proof.
  assert (Hsmall : ∀ v, 0 ≤ v < 128 → 0 ≤ Z.log2 (Z.lor v 1) < 7).
  { intros v Hv. split; [apply Z.log2_nonneg|]. rewrite Z.log2_lor by lia.
    change (Z.log2 1) with 0. rewrite Z.max_l by apply Z.log2_nonneg.
    destruct (decide (v = 0)) as [->|]; [done|]. apply Z.log2_lt_pow2; lia. }
  induction n as [|n IH]; intros value Hn Hv; [lia|]. cbn [write_varint].
  destruct (Z.ltb_spec value 128) as [H|H].
  - pose proof (Hsmall value ltac:(lia)). rewrite Z.div_small by lia. done.
  - destruct n as [|n]; [simpl in Hv; lia|].
    cbn [length]. rewrite Nat2Z.inj_succ, IH, shiftr7; [|lia|].
    + rewrite !Z.log2_lor by (try apply Z.div_pos; lia). change (Z.log2 1) with 0.
      rewrite !Z.max_l by apply Z.log2_nonneg.
      assert (Hd : Z.log2 (value `div` 128) = Z.log2 value - 7).
      { rewrite <- shiftr7, Z.log2_shiftr by lia. pose proof (Z.log2_le_mono 128 value H) as Hm.
        change (Z.log2 128) with 7 in Hm. lia. }
      rewrite Hd. zarith.
    + rewrite shiftr7. split; [apply Z.div_pos; lia|]. apply Z.div_lt_upper_bound; [lia|].
      replace (7 * Z.of_nat (S (S n))) with (7 + 7 * Z.of_nat (S n)) in Hv by lia.
      rewrite Z.pow_add_r in Hv by lia. lia.
Qed.

Lemma size_formula l : 0 ≤ l < 64 → (l * 9 + 73) / 64 = l / 7 + 1.
Proof. intros H. zarith. Qed.

(** The size computed without a loop is the number of bytes written. *)
Lemma length_UnsafeVarint value : 0 ≤ value < 2 ^ 64 →
  Z.of_nat (length (UnsafeVarint value)) = VarintSize value.
Proof.
  intros Hv. unfold UnsafeVarint, VarintSize.
  assert (0 ≤ Z.log2 (Z.lor value 1) < 64).
  { split; [apply Z.log2_nonneg|]. rewrite Z.log2_lor by lia. change (Z.log2 1) with 0.
    rewrite Z.max_l by apply Z.log2_nonneg.
    destruct (decide (value = 0)) as [->|]; [done|]. apply Z.log2_lt_pow2; lia. }
  rewrite size_formula by done. apply length_write_varint; [lia|]. lia.
Qed.

Lemma VarintSizePlusOne_eq value : VarintSizePlusOne value = VarintSize value + 1.
Proof. unfold VarintSizePlusOne, VarintSize. zarith. Qed.

Lemma write_varint_small n value : value < 128 → write_varint (S n) value = [z2b value].
Proof. intros H. cbn [write_varint]. by rewrite (proj2 (Z.ltb_lt value 128)). Qed.

Lemma UnsafeVarint_small value : value < 128 → UnsafeVarint value = [z2b value].
Proof. apply write_varint_small. Qed.

Lemma UnsafeVarint_two value : 128 ≤ value < 2 ^ 14 →
  UnsafeVarint value = [z2b (Z.lor (u8 value) 128); z2b (value `div` 128)].
Proof.
  intros H. unfold UnsafeVarint. cbn [write_varint]. rewrite (proj2 (Z.ltb_ge value 128)) by lia.
  f_equal. rewrite shiftr7. by rewrite (proj2 (Z.ltb_lt _ 128)) by zarith.
Qed.

Lemma UnsafeVarint_many value : 2 ^ 14 ≤ value → ∃ a b s,
  UnsafeVarint value = a :: b :: s ∧ 128 ≤ b2z a ∧ 128 ≤ b2z b.
Proof.
  intros H. unfold UnsafeVarint. cbn [write_varint].
  assert (H2 : 128 ≤ value `div` 128) by (apply Z.div_le_lower_bound; lia).
  rewrite (proj2 (Z.ltb_ge value 128)), shiftr7, (proj2 (Z.ltb_ge (value `div` 128) 128)) by lia.
  eexists _, _, _. split; [done|].
  rewrite !varint_head by lia. pose proof (Z.mod_pos_bound value 128 eq_refl).
  pose proof (Z.mod_pos_bound (value `div` 128) 128 eq_refl). lia.
Qed.

(** ** The compiled library *)

(** Readers take the bytes up to the current limit and give what they read and what
    follows; [None] is a parse error. *)
Record ProtoLibrary := MkLibrary {
  VarintParseSlow32 : bytes → option (Z * bytes);
  VarintParseSlow64 : bytes → option (Z * bytes);
  ReadTagFallback : bytes → option (Z * bytes);
  InlineGreedyStringParser : bytes → option (bytes * bytes);
  (* ReadSizeAndPushLimitAndDepth: the bytes of the message, and those after it *)
  ReadSizeAndPushLimit : bytes → option (bytes * bytes);
  (* an unknown field: the bytes it is written back as *)
  UnknownFieldParse : Z → bytes → option (bytes * bytes);
  VerifyUTF8 : bytes → bool;
  WriteStringMaybeAliasedOutline : Z → bytes → bytes;
  (* field number, size, the bytes the message writes *)
  InternalWriteMessage : Z → Z → bytes → bytes;
}.

(** The largest length the library reads. *)
Definition max_length : Z := 2 ^ 31 - 17.

Class ProtoLibraryLaws (L : ProtoLibrary) := {
  slow32 value rest : 2 ^ 14 ≤ value < 2 ^ 64 →
    VarintParseSlow32 L (UnsafeVarint value ++ rest) = Some (u32 value, rest);
  slow64 value rest : 2 ^ 14 ≤ value < 2 ^ 64 →
    VarintParseSlow64 L (UnsafeVarint value ++ rest) = Some (value, rest);
  string_parser s rest : Z.of_nat (length s) ≤ max_length →
    InlineGreedyStringParser L (UnsafeVarint (Z.of_nat (length s)) ++ s ++ rest) = Some (s, rest);
  push_limit s rest : Z.of_nat (length s) ≤ max_length →
    ReadSizeAndPushLimit L (UnsafeVarint (Z.of_nat (length s)) ++ s ++ rest) = Some (s, rest);
  string_outline num s : Z.of_nat (length s) ≤ max_length →
    WriteStringMaybeAliasedOutline L num s =
      UnsafeVarint (Z.lor (Z.shiftl num 3) 2) ++ UnsafeVarint (Z.of_nat (length s)) ++ s;
  write_message num body : Z.of_nat (length body) ≤ max_length →
    InternalWriteMessage L num (Z.of_nat (length body)) body =
      UnsafeVarint (Z.lor (Z.shiftl num 3) 2) ++ UnsafeVarint (Z.of_nat (length body)) ++ body;
}.

(** ** Reading *)

(** [VarintParse]: one or two bytes here, more in the library. *)
Definition VarintParse (slow : bytes → option (Z * bytes)) (p : bytes) : option (Z * bytes) :=
  match p with
  | [] => None
  | b0 :: p1 =>
      let res := b2z b0 in
      if Z.land res 128 =? 0 then Some (res, p1)
      else
        match p1 with
        | [] => None
        | b1 :: p2 =>
            let res := u32 (res + Z.shiftl (b2z b1 - 1) 7) in
            if Z.land (b2z b1) 128 =? 0 then Some (res, p2) else slow p
        end
  end.

Section library.
Context (L : ProtoLibrary).

Definition ReadVarint64 (p : bytes) : option (Z * bytes) := VarintParse (VarintParseSlow64 L) p.
Definition ReadVarint32 (p : bytes) : option (Z * bytes) := VarintParse (VarintParseSlow32 L) p.

(** [ReadTag]: the test is for values below 128 instead of the bit. *)
Definition ReadTag (p : bytes) : option (Z * bytes) :=
  match p with
  | [] => None
  | b0 :: p1 =>
      let res := b2z b0 in
      if res <? 128 then Some (res, p1)
      else
        match p1 with
        | [] => None
        | b1 :: p2 =>
            let res := u32 (res + Z.shiftl (b2z b1 - 1) 7) in
            if b2z b1 <? 128 then Some (res, p2) else ReadTagFallback L p
        end
  end.

(** [UnalignedLoad<double>]: the bits of a double, little endian on the wire. *)
Definition ReadDouble (p : bytes) : option (Z * bytes) :=
  if decide (8 ≤ length p)%nat then Some (le_val (take 8 p), drop 8 p) else None.

(** A string field with its UTF-8 check. *)
Definition ReadString (p : bytes) : option (bytes * bytes) :=
  '(s, p) ← InlineGreedyStringParser L p;
  if VerifyUTF8 L s then Some (s, p) else None.

(** ** Writing *)

Definition MakeTag (field_number wire_type : Z) : Z := Z.lor (Z.shiftl field_number 3) wire_type.
Definition WriteInt32ToArray (field_number value : Z) : bytes :=
  UnsafeVarint (MakeTag field_number 0) ++ UnsafeVarint (u64 value).
Definition WriteInt64ToArray (field_number value : Z) : bytes :=
  UnsafeVarint (MakeTag field_number 0) ++ UnsafeVarint (u64 value).
Definition WriteEnumToArray (field_number value : Z) : bytes :=
  UnsafeVarint (MakeTag field_number 0) ++ UnsafeVarint (u64 value).
Definition WriteBoolToArray (field_number : Z) (value : bool) : bytes :=
  UnsafeVarint (MakeTag field_number 0) ++ UnsafeVarint (if value then 1 else 0).
Definition WriteDoubleToArray (field_number bits : Z) : bytes :=
  UnsafeVarint (MakeTag field_number 1) ++ le_bytes 8 bits.

(** The short strings are written here; [room] says whether the rest of the buffer
    takes the string. *)
Definition WriteStringMaybeAliased (room : bool) (num : Z) (s : bytes) : bytes :=
  if (128 <=? Z.of_nat (length s)) || negb room then WriteStringMaybeAliasedOutline L num s
  else UnsafeVarint (Z.lor (Z.shiftl num 3) 2) ++ z2b (Z.of_nat (length s)) :: s.

(** [if (!s.empty())] and so on: what most fields do with a default value. *)
Definition if_nonempty (s : bytes) (t : bytes) : bytes := match s with [] => [] | _ => t end.
Definition if_nonzero (z : Z) (t : bytes) : bytes := if z =? 0 then [] else t.

(** ** Sizes *)

Definition Int32SizePlusOne (value : Z) : Z := VarintSizePlusOne (u64 value).
Definition Int64SizePlusOne (value : Z) : Z := VarintSizePlusOne (u64 value).
Definition EnumSize (value : Z) : Z := VarintSize (u64 value).
Definition LengthDelimitedSize (length : Z) : Z := length + VarintSize (u32 length).
Definition StringSize (s : bytes) : Z := LengthDelimitedSize (Z.of_nat (length s)).

(** ** The parse loop *)

(** What a [case] of the [switch] does. *)
Inductive parsed (T : Type) := Next (m : T) (p : bytes) | Unusual | Failure.
Arguments Next {T} m p.
Arguments Unusual {T}.
Arguments Failure {T}.

Definition then_next {T A} (r : option (A * bytes)) (f : A → T) : parsed T :=
  match r with Some (a, p) => Next (f a) p | None => Failure end.

Section loop.
Context {T : Type} (parse_field : Z → T → bytes → parsed T) (add_unknown : bytes → T → T).

(** [while (!ctx->Done(&ptr))]; a tag that ends a group leaves the message, which
    its caller reports as an error. *)
Fixpoint parse_loop (fuel : nat) (m : T) (p : bytes) : option T :=
  match p with
  | [] => Some m
  | _ :: _ =>
      match fuel with
      | O => None
      | S fuel =>
          '(tag, p) ← ReadTag p;
          match parse_field tag m p with
          | Next m p => parse_loop fuel m p
          | Failure => None
          | Unusual =>
              if (tag =? 0) || (Z.land tag 7 =? 4) then None
              else '(raw, p) ← UnknownFieldParse L tag p; parse_loop fuel (add_unknown raw m) p
          end
      end
  end.

(** Every round of the loop reads a byte at least. *)
Definition InternalParse (m : T) (p : bytes) : option T := parse_loop (S (length p)) m p.
End loop.

(** [ctx->ParseMessage] into a new element of a repeated field, again while the
    next byte is the same tag. *)
Fixpoint parse_repeated {T M} (parse_one : bytes → option M) (add : M → T → T) (tag : byte)
    (fuel : nat) (m : T) (p : bytes) : parsed T :=
  match fuel with
  | O => Failure
  | S fuel =>
      match ReadSizeAndPushLimit L p with
      | None => Failure
      | Some (body, p) =>
          match parse_one body with
          | None => Failure
          | Some x =>
              match p with
              | c :: p' => if decide (c = tag)
                           then parse_repeated parse_one add tag fuel (add x m) p'
                           else Next (add x m) p
              | [] => Next (add x m) p
              end
          end
      end
  end.
End library.
Arguments Next {T} m p.
Arguments Unusual {T}.
Arguments Failure {T}.

(** ** Reading back what was written *)

Lemma land_high (b : byte) : (Z.land (b2z b) 128 =? 0) = (b2z b <? 128).
Proof. by destruct b. Qed.

Lemma two_bytes value : 128 ≤ value < 2 ^ 14 →
  b2z (z2b (value `div` 128)) = value `div` 128 ∧
  u32 (b2z (z2b (Z.lor (u8 value) 128)) + Z.shiftl (b2z (z2b (value `div` 128)) - 1) 7) = value.
Proof.
  intros H. rewrite varint_head, b2z_z2b, (Z.mod_small (value `div` 128) 256) by zarith.
  split; [done|]. rewrite Z.shiftl_mul_pow2 by lia. change (2 ^ 7) with 128.
  rewrite wrap_small by (unfold in_unsigned; zarith). zarith.
Qed.

Lemma VarintParse_spec slow f value rest :
  0 ≤ value < 2 ^ 64 → (2 ^ 14 ≤ value → slow (UnsafeVarint value ++ rest) = Some (f value, rest)) →
  (value < 2 ^ 14 → f value = value) →
  VarintParse slow (UnsafeVarint value ++ rest) = Some (f value, rest).
Proof.
  intros Hv Hslow Hf. destruct (Z.lt_ge_cases value 128) as [H1|H1].
  - rewrite UnsafeVarint_small, Hf by lia. cbn [app VarintParse].
    rewrite land_high, b2z_z2b, Z.mod_small, (proj2 (Z.ltb_lt value 128)) by lia. done.
  - destruct (Z.lt_ge_cases value (2 ^ 14)) as [H2|H2].
    + rewrite UnsafeVarint_two, Hf by lia. cbn [app VarintParse].
      destruct (two_bytes value (conj H1 H2)) as [Hb Hu].
      rewrite !land_high, Hu, Hb, varint_head by lia.
      pose proof (Z.mod_pos_bound value 128 eq_refl).
      assert (value `div` 128 < 128) by (apply Z.div_lt_upper_bound; lia).
      by rewrite (proj2 (Z.ltb_ge (value mod 128 + 128) 128)), (proj2 (Z.ltb_lt (value `div` 128) 128)) by lia.
    + destruct (UnsafeVarint_many value H2) as (a & b & s & E & Ha & Hb). rewrite <- Hslow by done.
      rewrite E. cbn [app VarintParse].
      by rewrite !land_high, !(proj2 (Z.ltb_ge _ 128)).
Qed.

Section laws.
Context (L : ProtoLibrary) `{HL : !ProtoLibraryLaws L}.

Lemma ReadVarint64_spec value rest : 0 ≤ value < 2 ^ 64 →
  ReadVarint64 L (UnsafeVarint value ++ rest) = Some (value, rest).
Proof.
  intros H. apply (VarintParse_spec _ id); [done| |done]. intros H2. exact (slow64 value rest (conj H2 (proj2 H))).
Qed.

Lemma ReadVarint32_spec value rest : 0 ≤ value < 2 ^ 64 →
  ReadVarint32 L (UnsafeVarint value ++ rest) = Some (u32 value, rest).
Proof.
  intros H. apply (VarintParse_spec _ u32); [done| |].
  - intros H2. exact (slow32 value rest (conj H2 (proj2 H))).
  - intros H2. apply wrap_small. unfold in_unsigned. lia.
Qed.

Lemma ReadString_spec s rest : Z.of_nat (length s) ≤ max_length → VerifyUTF8 L s = true →
  ReadString L (UnsafeVarint (Z.of_nat (length s)) ++ s ++ rest) = Some (s, rest).
Proof. intros Hs Hu. unfold ReadString. rewrite string_parser by done. simpl. by rewrite Hu. Qed.

Lemma ReadDouble_spec bits rest : 0 ≤ bits < 2 ^ 64 → ReadDouble (le_bytes 8 bits ++ rest) = Some (bits, rest).
Proof.
  intros H. unfold ReadDouble. pose proof (length_le_bytes 8 bits) as Hlen.
  rewrite decide_True by (rewrite length_app, Hlen; lia).
  rewrite take_app_length', drop_app_length' by (by rewrite Hlen).
  rewrite le_val_bytes, Z.mod_small by (simpl; lia). done.
Qed.

(** Strings are written the same way whatever room the buffer has. *)
Lemma WriteString_eq room num s : Z.of_nat (length s) ≤ max_length →
  WriteStringMaybeAliased L room num s =
    UnsafeVarint (MakeTag num 2) ++ UnsafeVarint (Z.of_nat (length s)) ++ s.
Proof.
  intros Hs. unfold WriteStringMaybeAliased.
  destruct (Z.leb_spec 128 (Z.of_nat (length s))) as [H|H]; cbn [orb]; [by apply string_outline|].
  destruct room; cbn [negb]; [|by apply string_outline]. by rewrite (UnsafeVarint_small (Z.of_nat _)).
Qed.

(** *** Steps of the loop *)
Section steps.
Context {T : Type} (parse_field : Z → T → bytes → parsed T) (add_unknown : bytes → T → T).
Local Abbreviation loop := (parse_loop L parse_field add_unknown).

(** The loop reads [field] from [m] to [m'], in at most as many rounds as bytes. *)
Definition consumes (m : T) (field : bytes) (m' : T) : Prop :=
  ∃ k, (k ≤ length field)%nat ∧ ∀ fuel rest, loop (k + fuel) m (field ++ rest) = loop fuel m' rest.

(** The same for a field that ends the message. *)
Definition ends (m : T) (field : bytes) (m' : T) : Prop :=
  ∃ k, (k ≤ length field)%nat ∧ ∀ fuel, loop (k + fuel) m field = Some m'.

Lemma consumes_nil m : consumes m [] m.
Proof. by exists 0%nat. Qed.

Lemma consumes_app m a m1 b m2 : consumes m a m1 → consumes m1 b m2 → consumes m (a ++ b) m2.
Proof.
  intros (k & Hk & Ha) (j & Hj & Hb). exists (k + j)%nat. rewrite length_app. split; [lia|].
  intros fuel rest. by rewrite <- app_assoc, <- Nat.add_assoc, Ha, Hb.
Qed.

Lemma consumes_end m a m1 : consumes m a m1 → ends m a m1.
Proof.
  intros (k & Hk & Ha). exists k. split; [done|]. intros fuel. specialize (Ha fuel []).
  rewrite app_nil_r in Ha. rewrite Ha. by destruct fuel.
Qed.

Lemma consumes_ends m a m1 b m2 : consumes m a m1 → ends m1 b m2 → ends m (a ++ b) m2.
Proof.
  intros (k & Hk & Ha) (j & Hj & Hb). exists (k + j)%nat. rewrite length_app. split; [lia|].
  intros fuel. by rewrite <- Nat.add_assoc, Ha, Hb.
Qed.

Lemma ends_InternalParse m a m1 : ends m a m1 → InternalParse L parse_field add_unknown m a = Some m1.
Proof.
  intros (k & Hk & Ha). unfold InternalParse.
  replace (S (length a)) with (k + (S (length a) - k))%nat by lia. apply Ha.
Qed.

Lemma loop_tag tag body fuel m : 0 ≤ tag < 128 →
  loop (S fuel) m (UnsafeVarint tag ++ body) =
    match parse_field tag m body with
    | Next m p => loop fuel m p
    | Failure => None
    | Unusual => if (tag =? 0) || (Z.land tag 7 =? 4) then None
                 else '(raw, p) ← UnknownFieldParse L tag body; loop fuel (add_unknown raw m) p
    end.
Proof.
  intros Ht. rewrite UnsafeVarint_small by lia. cbn [app parse_loop ReadTag].
  by rewrite b2z_z2b, Z.mod_small, (proj2 (Z.ltb_lt tag 128)) by lia.
Qed.

Lemma consumes_field tag body m m' : 0 ≤ tag < 128 →
  (∀ rest, parse_field tag m (body ++ rest) = Next m' rest) → consumes m (UnsafeVarint tag ++ body) m'.
Proof.
  intros Ht H. exists 1%nat. split; [rewrite UnsafeVarint_small by lia; simpl; lia|].
  intros fuel rest. cbn [Nat.add]. by rewrite <- app_assoc, loop_tag, H.
Qed.

Lemma ends_field tag body m m' : 0 ≤ tag < 128 →
  parse_field tag m body = Next m' [] → ends m (UnsafeVarint tag ++ body) m'.
Proof.
  intros Ht H. exists 1%nat. split; [rewrite UnsafeVarint_small by lia; simpl; lia|].
  intros fuel. cbn [Nat.add]. rewrite loop_tag, H by done. by destruct fuel.
Qed.

(** The fields of the generated code, when their [case] reads and sets them. *)
Lemma consumes_int32 num v m set :
  0 ≤ MakeTag num 0 < 128 → in_signed 32 v →
  (∀ p, parse_field (MakeTag num 0) m p = then_next (ReadVarint32 L p) (λ z, set (i32 z))) →
  consumes m (if_nonzero v (WriteInt32ToArray num v)) (if v =? 0 then m else set v).
Proof.
  intros Ht Hv Hp. unfold if_nonzero. destruct (v =? 0); [apply consumes_nil|].
  apply consumes_field; [done|]. intros rest. rewrite Hp, ReadVarint32_spec by (by apply wrap_range).
  simpl. f_equal. f_equal.
  assert (Hw : u32 (u64 v) = u32 v).
  { unfold wrap. symmetry. rewrite <- (Z.mod_mod_divide v (2 ^ 64) (2 ^ 32)); [done|]. by exists (2 ^ 32). }
  rewrite Hw. by apply swrap_wrap.
Qed.

Lemma consumes_int64 num v m set :
  0 ≤ MakeTag num 0 < 128 → in_signed 64 v →
  (∀ p, parse_field (MakeTag num 0) m p = then_next (ReadVarint64 L p) (λ z, set (i64 z))) →
  consumes m (WriteInt64ToArray num v) (set v).
Proof.
  intros Ht Hv Hp. apply consumes_field; [done|]. intros rest.
  rewrite Hp, ReadVarint64_spec by (by apply wrap_range). simpl. f_equal. f_equal. by apply swrap_wrap.
Qed.

Lemma consumes_int64_nonzero num v m set :
  0 ≤ MakeTag num 0 < 128 → in_signed 64 v →
  (∀ p, parse_field (MakeTag num 0) m p = then_next (ReadVarint64 L p) (λ z, set (i64 z))) →
  consumes m (if_nonzero v (WriteInt64ToArray num v)) (if v =? 0 then m else set v).
Proof.
  intros Ht Hv Hp. unfold if_nonzero. destruct (v =? 0); [apply consumes_nil|]. by apply consumes_int64.
Qed.

Lemma consumes_enum num v m set :
  0 ≤ MakeTag num 0 < 128 → in_signed 32 v →
  (∀ p, parse_field (MakeTag num 0) m p = then_next (ReadVarint64 L p) (λ z, set (i32 z))) →
  consumes m (if_nonzero v (WriteEnumToArray num v)) (if v =? 0 then m else set v).
Proof.
  intros Ht Hv Hp. unfold if_nonzero. destruct (v =? 0); [apply consumes_nil|].
  apply consumes_field; [done|]. intros rest. rewrite Hp, ReadVarint64_spec by (by apply wrap_range).
  simpl. f_equal. f_equal. rewrite <- (swrap_wrap 32 v) at 2 by done. unfold swrap, wrap. f_equal.
  rewrite <- (Z.mod_mod_divide (v mod 2 ^ 64 + _) (2 ^ 64) (2 ^ 32)) by (by exists (2 ^ 32)).
  rewrite Zplus_mod_idemp_l, Z.mod_mod_divide by (by exists (2 ^ 32)). by rewrite Zplus_mod_idemp_l.
Qed.

Lemma consumes_bool num b m set :
  0 ≤ MakeTag num 0 < 128 →
  (∀ p, parse_field (MakeTag num 0) m p = then_next (ReadVarint64 L p) (λ z, set (negb (z =? 0)))) →
  consumes m (if b : bool then WriteBoolToArray num b else []) (if b then set true else m).
Proof.
  intros Ht Hp. destruct b; [|apply consumes_nil].
  apply consumes_field; [done|]. intros rest. by rewrite Hp, ReadVarint64_spec by lia.
Qed.

Lemma consumes_double num bits m set :
  0 ≤ MakeTag num 1 < 128 → 0 ≤ bits < 2 ^ 64 →
  (∀ p, parse_field (MakeTag num 1) m p = then_next (ReadDouble p) set) →
  consumes m (WriteDoubleToArray num bits) (set bits).
Proof.
  intros Ht Hb Hp. apply consumes_field; [done|]. intros rest. by rewrite Hp, ReadDouble_spec.
Qed.

Lemma consumes_string room num s m set :
  0 ≤ MakeTag num 2 < 128 → Z.of_nat (length s) ≤ max_length → VerifyUTF8 L s = true →
  (∀ p, parse_field (MakeTag num 2) m p = then_next (ReadString L p) set) →
  consumes m (WriteStringMaybeAliased L room num s) (set s).
Proof.
  intros Ht Hs Hu Hp. rewrite WriteString_eq by done. apply consumes_field; [done|]. intros rest.
  by rewrite Hp, <- app_assoc, ReadString_spec.
Qed.

Lemma consumes_string_nonempty room num s m set :
  0 ≤ MakeTag num 2 < 128 → Z.of_nat (length s) ≤ max_length → VerifyUTF8 L s = true →
  (∀ p, parse_field (MakeTag num 2) m p = then_next (ReadString L p) set) →
  consumes m (if_nonempty s (WriteStringMaybeAliased L room num s))
    (if decide (s = []) then m else set s).
Proof.
  intros Ht Hs Hu Hp. unfold if_nonempty. destruct s as [|c s]; [apply consumes_nil|].
  rewrite decide_False by done. by apply consumes_string.
Qed.
End steps.

(** *** A repeated message field at the end *)

(** [body i x] is what element [x] writes at index [i]. *)
Definition write_elements {M} (num : Z) (body : nat → M → bytes) (xs : list M) : bytes :=
  concat (imap (λ i x, InternalWriteMessage L num (Z.of_nat (length (body i x))) (body i x)) xs).

Lemma write_elements_cons {M} num (body : nat → M → bytes) x xs :
  0 ≤ MakeTag num 2 < 128 → Z.of_nat (length (body 0%nat x)) ≤ max_length →
  write_elements num body (x :: xs) = z2b (MakeTag num 2) ::
    UnsafeVarint (Z.of_nat (length (body 0%nat x))) ++ body 0%nat x ++ write_elements num (body ∘ S) xs.
Proof.
  intros Ht Hlen. unfold write_elements. rewrite imap_cons. cbn [concat].
  rewrite write_message by done. fold (MakeTag num 2).
  rewrite (UnsafeVarint_small (MakeTag num 2)) by lia. cbn [app]. by rewrite <- app_assoc.
Qed.

Lemma parse_repeated_spec {T M} (parse_one : bytes → option M) (add : M → T → T) num xs :
  0 ≤ MakeTag num 2 < 128 → ∀ body,
  Forall (λ x, ∀ i, parse_one (body i x) = Some x ∧ Z.of_nat (length (body i x)) ≤ max_length) xs →
  ∀ x p fuel m, parse_one p = Some x → Z.of_nat (length p) ≤ max_length →
  (length xs < fuel)%nat →
  parse_repeated L parse_one add (z2b (MakeTag num 2)) fuel m
      (UnsafeVarint (Z.of_nat (length p)) ++ p ++ write_elements num body xs) =
    Next (foldl (λ m x, add x m) m (x :: xs)) [].
Proof.
  intros Ht. induction xs as [|y xs IH]; intros body Hxs x p fuel m Hx Hlen Hfuel;
    (destruct fuel as [|fuel]; [lia|]); cbn [parse_repeated].
  - unfold write_elements. simpl. rewrite push_limit, Hx by done. done.
  - apply Forall_cons in Hxs as [Hy Hxs]. destruct (Hy 0%nat) as [Hy0 Hylen].
    rewrite push_limit, Hx by done. rewrite write_elements_cons by done.
    cbn [app]. rewrite decide_True by done.
    rewrite (IH (body ∘ S)) with (x := y); [done| |done|done|simpl in Hfuel; lia].
    eapply Forall_impl; [exact Hxs|]. intros z Hz i. apply (Hz (S i)).
Qed.

Lemma length_write_elements_le {M} num (body : nat → M → bytes) xs : 0 ≤ MakeTag num 2 < 128 →
  Forall (λ x, ∀ i, Z.of_nat (length (body i x)) ≤ max_length) xs →
  (length xs ≤ length (write_elements num body xs))%nat.
Proof.
  intros Ht Hxs. revert body Hxs. induction xs as [|x xs IH]; intros body Hxs; [simpl; lia|].
  apply Forall_cons in Hxs as [Hx Hxs].
  rewrite write_elements_cons by (done || apply Hx). cbn [length]. rewrite !length_app.
  pose proof (IH (body ∘ S) ltac:(eapply Forall_impl; [exact Hxs|]; intros z Hz i; apply (Hz (S i)))). lia.
Qed.

(** The loop reads a repeated field that ends the message element by element. *)
Lemma ends_repeated {T M} (parse_field : Z → T → bytes → parsed T) add_unknown
    (parse_one : bytes → option M) (add : M → T → T) num body xs m :
  0 ≤ MakeTag num 2 < 128 →
  (∀ p, parse_field (MakeTag num 2) m p =
    parse_repeated L parse_one add (z2b (MakeTag num 2)) (S (length p)) m p) →
  Forall (λ x, ∀ i, parse_one (body i x) = Some x ∧ Z.of_nat (length (body i x)) ≤ max_length) xs →
  ends parse_field add_unknown m (write_elements num body xs) (foldl (λ m x, add x m) m xs).
Proof.
  intros Ht Hp Hxs. destruct xs as [|x xs]; [apply consumes_end, consumes_nil|].
  apply Forall_cons in Hxs as [Hx Hxs]. destruct (Hx 0%nat) as [Hx0 Hlen].
  rewrite write_elements_cons by done.
  assert (Hxs' : Forall (λ y, ∀ i, parse_one ((body ∘ S) i y) = Some y ∧
      Z.of_nat (length ((body ∘ S) i y)) ≤ max_length) xs)
    by (eapply Forall_impl; [exact Hxs|]; intros z Hz i; apply (Hz (S i))).
  match goal with |- ends _ _ _ (?b :: ?r) _ => change (b :: r) with ([b] ++ r) end.
  rewrite <- (UnsafeVarint_small (MakeTag num 2)) by lia.
  apply ends_field; [done|]. rewrite Hp. apply parse_repeated_spec; [done..|].
  rewrite !length_app.
  pose proof (length_write_elements_le num (body ∘ S) xs Ht
    ltac:(eapply Forall_impl; [exact Hxs'|]; intros z Hz i; apply (Hz i))). lia.
Qed.
End laws.

(** ** The fuel of the parse loop

    Readers only move forward; then a round for each byte is enough on any input. *)

Definition advances {A} (read : bytes → option (A * bytes)) : Prop :=
  ∀ p a p', read p = Some (a, p') → (length p' ≤ length p)%nat.

Class ProtoLibraryProgress (L : ProtoLibrary) := {
  slow32_advances : advances (VarintParseSlow32 L);
  slow64_advances : advances (VarintParseSlow64 L);
  tag_advances p a p' : ReadTagFallback L p = Some (a, p') → (length p' < length p)%nat;
  string_advances : advances (InlineGreedyStringParser L);
  limit_advances : advances (ReadSizeAndPushLimit L);
  unknown_advances tag : advances (UnknownFieldParse L tag);
}.

Section progress.
Context (L : ProtoLibrary) `{HP : !ProtoLibraryProgress L}.

Definition parsed_advances {T} (r : parsed T) (p : bytes) : Prop :=
  match r with Next _ p' => (length p' ≤ length p)%nat | _ => True end.

Lemma then_next_advances {T A} (read : bytes → option (A * bytes)) (f : A → T) p :
  advances read → parsed_advances (then_next (read p) f) p.
Proof. intros Hr. unfold then_next. destruct (read p) as [[a p']|] eqn:E; [by apply (Hr p a)|done]. Qed.

Lemma VarintParse_advances slow : advances slow → advances (VarintParse slow).
Proof.
  intros Hs p a p'. unfold VarintParse. destruct p as [|b0 [|b1 p]]; [done|case_match; [|done]; intros; simplify_eq; simpl; lia|].
  repeat case_match; try (intros; simplify_eq; simpl; lia). apply Hs.
Qed.

Lemma ReadVarint32_advances : advances (ReadVarint32 L).
Proof. apply VarintParse_advances, HP. Qed.
Lemma ReadVarint64_advances : advances (ReadVarint64 L).
Proof. apply VarintParse_advances, HP. Qed.

Lemma ReadString_advances : advances (ReadString L).
Proof.
  intros p s p'. unfold ReadString. destruct (InlineGreedyStringParser L p) as [[s1 p1]|] eqn:E; [|done].
  simpl. case_match; [|done]. intros [= <- <-]. by apply (string_advances p s1).
Qed.

Lemma ReadDouble_advances : advances ReadDouble.
Proof.
  intros p a p'. unfold ReadDouble. case_decide; [|done]. intros [= <- <-]. rewrite length_drop. lia.
Qed.

Lemma ReadTag_advances p tag p' : ReadTag L p = Some (tag, p') → (length p' < length p)%nat.
Proof.
  unfold ReadTag. destruct p as [|b0 [|b1 p]]; [done|case_match; [|done]; intros; simplify_eq; simpl; lia|].
  repeat case_match; try (intros; simplify_eq; simpl; lia). apply tag_advances.
Qed.

Lemma parse_repeated_advances {T M} (parse_one : bytes → option M) (add : M → T → T) tag fuel :
  ∀ m p, parsed_advances (parse_repeated L parse_one add tag fuel m p) p.
Proof.
  induction fuel as [|fuel IH]; intros m p; [done|]. cbn [parse_repeated].
  destruct (ReadSizeAndPushLimit L p) as [[body p1]|] eqn:E; [|done].
  pose proof (limit_advances p body p1 E) as Hp1. destruct (parse_one body) as [x|]; [|done].
  destruct p1 as [|c p2]; [exact Hp1|]. case_decide; [|exact Hp1].
  specialize (IH (add x m) p2). unfold parsed_advances in *. case_match; [|done..]. simpl in Hp1. lia.
Qed.

(** More fuel than the bytes left changes nothing: [None] is a parse error. *)
Lemma parse_loop_fuel {T} (parse_field : Z → T → bytes → parsed T) add_unknown :
  (∀ tag m p, parsed_advances (parse_field tag m p) p) → ∀ fuel fuel' m p,
  (length p < fuel)%nat → (length p < fuel')%nat →
  parse_loop L parse_field add_unknown fuel m p = parse_loop L parse_field add_unknown fuel' m p.
Proof.
  intros Hf. induction fuel as [|fuel IH]; intros fuel' m p H1 H2; [lia|].
  destruct fuel' as [|fuel']; [lia|]. destruct p as [|c p0]; [done|]. cbn [parse_loop].
  destruct (ReadTag L (c :: p0)) as [[tag p]|] eqn:Et; [|done]. simpl.
  pose proof (ReadTag_advances _ _ _ Et) as Hp. specialize (Hf tag m p).
  destruct (parse_field tag m p) as [m1 p1| |]; [|  |done].
  - simpl in Hf. apply IH; lia.
  - case_match; [done|]. destruct (UnknownFieldParse L tag p) as [[raw p1]|] eqn:Eu; [|done].
    pose proof (unknown_advances tag p raw p1 Eu). simpl. apply IH; lia.
Qed.
End progress.

(** ** Sizes of what was written *)

Lemma length_tag num w : 0 ≤ MakeTag num w < 128 → Z.of_nat (length (UnsafeVarint (MakeTag num w))) = 1.
Proof. intros H. by rewrite UnsafeVarint_small by lia. Qed.

Lemma length_signed v : Z.of_nat (length (UnsafeVarint (u64 v))) = VarintSize (u64 v).
Proof. apply length_UnsafeVarint. by apply wrap_range. Qed.

Lemma length_WriteInt32 num v : 0 ≤ MakeTag num 0 < 128 →
  Z.of_nat (length (WriteInt32ToArray num v)) = Int32SizePlusOne v.
Proof.
  intros H. unfold WriteInt32ToArray, Int32SizePlusOne.
  rewrite length_app, Nat2Z.inj_add, length_tag, length_signed, VarintSizePlusOne_eq by done. lia.
Qed.

Lemma length_WriteInt64 num v : 0 ≤ MakeTag num 0 < 128 →
  Z.of_nat (length (WriteInt64ToArray num v)) = Int64SizePlusOne v.
Proof. apply length_WriteInt32. Qed.

Lemma length_WriteEnum num v : 0 ≤ MakeTag num 0 < 128 →
  Z.of_nat (length (WriteEnumToArray num v)) = 1 + EnumSize v.
Proof.
  intros H. unfold WriteEnumToArray, EnumSize.
  by rewrite length_app, Nat2Z.inj_add, length_tag, length_signed by done.
Qed.

Lemma length_WriteBool num b : 0 ≤ MakeTag num 0 < 128 →
  Z.of_nat (length (WriteBoolToArray num b)) = 1 + 1.
Proof.
  intros H. unfold WriteBoolToArray. rewrite length_app, Nat2Z.inj_add, length_tag by done.
  rewrite UnsafeVarint_small by (destruct b; lia). done.
Qed.

Lemma length_WriteDouble num bits : 0 ≤ MakeTag num 1 < 128 →
  Z.of_nat (length (WriteDoubleToArray num bits)) = 1 + 8.
Proof.
  intros H. unfold WriteDoubleToArray.
  by rewrite length_app, Nat2Z.inj_add, length_tag, length_le_bytes by done.
Qed.

Lemma length_delimited s : Z.of_nat (length s) ≤ max_length →
  Z.of_nat (length (UnsafeVarint (Z.of_nat (length s)) ++ s)) = StringSize s.
Proof.
  intros Hs. unfold max_length in Hs. unfold StringSize, LengthDelimitedSize.
  rewrite length_app, Nat2Z.inj_add, length_UnsafeVarint, wrap_small by (unfold in_unsigned; lia). lia.
Qed.

Section sizes.
Context (L : ProtoLibrary) `{HL : !ProtoLibraryLaws L}.

Lemma length_WriteString room num s : 0 ≤ MakeTag num 2 < 128 → Z.of_nat (length s) ≤ max_length →
  Z.of_nat (length (WriteStringMaybeAliased L room num s)) = 1 + StringSize s.
Proof.
  intros Ht Hs. rewrite WriteString_eq by done.
  by rewrite length_app, Nat2Z.inj_add, length_tag, length_delimited by done.
Qed.

(** [total_size += 1UL * size] and the loop over the elements. *)
Lemma length_write_elements {M} num (size : M → Z) xs : 0 ≤ MakeTag num 2 < 128 → ∀ body,
  Forall (λ x, ∀ i, Z.of_nat (length (body i x)) = size x ∧ size x ≤ max_length) xs →
  Z.of_nat (length (write_elements L num body xs)) =
    Z.of_nat (length xs) + foldr (λ x n, LengthDelimitedSize (size x) + n) 0 xs.
Proof.
  intros Ht. induction xs as [|x xs IH]; intros body Hxs; [done|].
  apply Forall_cons in Hxs as [Hx Hxs]. destruct (Hx 0%nat) as [Hx0 Hlen].
  rewrite write_elements_cons by (done || lia). cbn [length foldr].
  rewrite app_assoc, !Nat2Z.inj_succ, length_app, Nat2Z.inj_add, length_delimited by lia.
  rewrite IH by (eapply Forall_impl; [exact Hxs|]; intros z Hz i; apply (Hz (S i))).
  unfold StringSize. rewrite Hx0. lia.
Qed.
End sizes.

Lemma length_if_nonzero z t : Z.of_nat (length (if_nonzero z t)) = if z =? 0 then 0 else Z.of_nat (length t).
Proof. unfold if_nonzero. by destruct (z =? 0). Qed.

Lemma length_if_nonempty s t : Z.of_nat (length (if_nonempty s t)) =
  if decide (s = []) then 0 else Z.of_nat (length t).
Proof. unfold if_nonempty. by destruct s. Qed.

(** ** Messages *)

(** What the generated class of a message gives: its [_InternalParse] adds to the
    message it is called on. *)
Class Message (L : ProtoLibrary) (T : Type) := {
  default_instance : T;
  Clear : T → T;
  ByteSizeLong : T → Z;
  (* the first argument: whether the buffer has room for the string of a field, of the
     message itself at index 0 and of element i of its repeated field at index S i *)
  InternalSerialize : (nat → Z → bool) → T → bytes;
  ParseInto : T → bytes → option T;
  MergeImpl : T → T → T;
  message_wf : T → Prop;
}.

(** The contract between writing, sizing, parsing and merging. *)
Class MessageLaws (L : ProtoLibrary) (T : Type) `{!Message L T} := {
  parse_merges room (m0 m : T) : message_wf m → ParseInto m0 (InternalSerialize room m) = Some (MergeImpl m0 m);
  byte_size room (m : T) : message_wf m → Z.of_nat (length (InternalSerialize room m)) = ByteSizeLong m;
  clear_default (m : T) : Clear m = default_instance;
  merge_default (m : T) : message_wf m → MergeImpl default_instance m = m;
}.

Section message.
Context (L : ProtoLibrary) {T : Type} `{MessageLaws L T}.

(** [ParseFromString] clears the message first; [CopyFrom] clears and merges. *)
Definition ParseFromString (m : T) (p : bytes) : option T := ParseInto (Clear m) p.
Definition CopyFrom (m from : T) : T := MergeImpl (Clear m) from.

Lemma parse_serialize room m0 m : message_wf m → ParseFromString m0 (InternalSerialize room m) = Some m.
Proof. intros Hm. unfold ParseFromString. by rewrite parse_merges, clear_default, merge_default. Qed.

Lemma copy_from m0 m : message_wf m → CopyFrom m0 m = m.
Proof. intros Hm. unfold CopyFrom. by rewrite clear_default, merge_default. Qed.
End message.
