(* ===== verification/ProtoMessages.v ===== *)
(** * The generated messages ([include/proto/*.pb.h], [include/proto/*.pb.cc])

    One Module per message: its fields, setters, [Clear], [_InternalParse],
    [_InternalSerialize], [ByteSizeLong], [MergeImpl] and [InternalSwap], and the
    instance of the contract of [ProtoWire.MessageLaws].  A [double] is its bits.
    The unknown fields are the bytes they are written back as.  A parse that fails
    gives no message here; the C++ object then holds the fields read so far.  The
    string that [_InternalParse] lets the library read into is set when it has been
    read and checked.  [CopyFrom] of an object to itself changes nothing, as here. *)

From S2P Require Import Prelude ProtoWire.
From Stdlib Require Import Strings.Byte.

Open Scope Z_scope.

(** A [case] of the parser's [switch], for the one tag it accepts. *)
Definition case_tag {T} (tag expected : Z) (r : parsed T) : parsed T :=
  if u8 tag =? expected then r else Unusual.

(** A string the library writes and reads back. *)
Definition string_wf (L : ProtoLibrary) (s : bytes) : Prop :=
  Z.of_nat (length s) ≤ max_length ∧ (s = [] ∨ VerifyUTF8 L s = true).

Ltac solve_tag := vm_compute; split; (discriminate || reflexivity).

Lemma consumes_string_wf (L : ProtoLibrary) `{!ProtoLibraryLaws L} {T} (parse_field : Z → T → bytes → parsed T)
    add_unknown room num s m set :
  0 ≤ MakeTag num 2 < 128 → string_wf L s →
  (∀ p, parse_field (MakeTag num 2) m p = then_next (ReadString L p) set) →
  consumes L parse_field add_unknown m (if_nonempty s (WriteStringMaybeAliased L room num s))
    (if decide (s = []) then m else set s).
Proof.
  intros Ht [Hs [->|Hu]] Hp; [apply consumes_nil|]. by apply consumes_string_nonempty.
Qed.

Lemma case_tag_advances {T} tag expected (r : parsed T) p :
  parsed_advances r p → parsed_advances (case_tag tag expected r) p.
Proof. unfold case_tag. by case_match. Qed.

Ltac solve_advances :=
  repeat case_match; try exact I; apply case_tag_advances;
  first [apply (parse_repeated_advances _) | apply then_next_advances;
         first [apply (ReadVarint32_advances _) | apply (ReadVarint64_advances _) |
                apply (ReadString_advances _) | apply ReadDouble_advances]].

Module ResponseMessage.

Record t := mk { id : Z; success : bool; unknown_fields : bytes }.
Definition default : t := mk 0 false [].

Definition set_id (v : Z) (m : t) : t := mk (i32 v) (success m) (unknown_fields m).
Definition clear_id (m : t) : t := mk 0 (success m) (unknown_fields m).
Definition set_success (v : bool) (m : t) : t := mk (id m) v (unknown_fields m).
Definition clear_success (m : t) : t := mk (id m) false (unknown_fields m).
Definition add_unknown (raw : bytes) (m : t) : t := mk (id m) (success m) (unknown_fields m ++ raw).

Lemma response_unknown_nil m : add_unknown [] m = m.
Proof. destruct m. unfold add_unknown. simpl. by rewrite app_nil_r. Qed.

Definition Clear (m : t) : t := mk 0 false [].

Definition parse_field (L : ProtoLibrary) (tag : Z) (m : t) (p : bytes) : parsed t :=
  match Z.shiftr tag 3 with
  | 1 => case_tag tag 8 (then_next (ReadVarint32 L p) (λ v, set_id (i32 v) m))
  | 2 => case_tag tag 16 (then_next (ReadVarint64 L p) (λ v, set_success (negb (v =? 0)) m))
  | _ => Unusual
  end.
Definition InternalParse (L : ProtoLibrary) (m : t) (p : bytes) : option t :=
  InternalParse L (parse_field L) add_unknown m p.

Definition InternalSerialize (m : t) : bytes :=
  if_nonzero (id m) (WriteInt32ToArray 1 (id m)) ++
  (if success m then WriteBoolToArray 2 (success m) else []) ++
  unknown_fields m.

Definition ByteSizeLong (m : t) : Z :=
  (if id m =? 0 then 0 else Int32SizePlusOne (id m)) +
  (if success m then 1 + 1 else 0) + Z.of_nat (length (unknown_fields m)).

Definition MergeImpl (_this from : t) : t :=
  let _this := if id from =? 0 then _this else set_id (id from) _this in
  let _this := if success from then set_success (success from) _this else _this in
  add_unknown (unknown_fields from) _this.

Definition InternalSwap (m other : t) : t * t := (other, m).

Definition wf (m : t) : Prop := in_signed 32 (id m) ∧ unknown_fields m = [].


Lemma response_parse_merge (L : ProtoLibrary) `{!ProtoLibraryLaws L} m0 m :
  wf m → InternalParse L m0 (InternalSerialize m) = Some (MergeImpl m0 m).
Proof.
  intros [Hid Hu]. apply (ends_InternalParse L), (consumes_end L).
  replace (MergeImpl m0 m) with (if success m then set_success true
      (if id m =? 0 then m0 else set_id (id m) m0) else if id m =? 0 then m0 else set_id (id m) m0).
  - unfold InternalSerialize. rewrite Hu, app_nil_r. eapply consumes_app.
    + by apply (consumes_int32 L _ _ 1 (id m) m0 (λ v, set_id v m0)); [solve_tag| |].
    + by apply (consumes_bool L _ _ 2 (success m) _ (λ v, set_success v _)); [solve_tag|].
  - unfold MergeImpl. rewrite Hu, response_unknown_nil. by destruct (success m).
Qed.

Lemma response_size m : Z.of_nat (length (InternalSerialize m)) = ByteSizeLong m.
Proof.
  unfold InternalSerialize, ByteSizeLong. rewrite !length_app, !Nat2Z.inj_add, length_if_nonzero.
  rewrite length_WriteInt32 by solve_tag.
  destruct (success m); [rewrite length_WriteBool by solve_tag|]; simpl; lia.
Qed.

Lemma response_merge_default m : wf m → MergeImpl default m = m.
Proof.
  destruct m as [i s u]. intros [Hi Hu]. simpl in *. subst u. unfold MergeImpl, default, add_unknown.
  simpl. destruct (Z.eqb_spec i 0) as [->|]; destruct s; simpl; try done;
    unfold set_id, set_success; simpl; by rewrite swrap_small.
Qed.

#[global] Instance message (L : ProtoLibrary) : Message L t := {
  default_instance := default;
  ProtoWire.Clear := Clear;
  ProtoWire.ByteSizeLong := ByteSizeLong;
  ProtoWire.InternalSerialize room m := InternalSerialize m;
  ParseInto := InternalParse L;
  ProtoWire.MergeImpl := MergeImpl;
  message_wf := wf;
}.

#[global] Instance laws (L : ProtoLibrary) `{!ProtoLibraryLaws L} : MessageLaws L t.
Proof.
  split.
  - intros room m0 m. apply response_parse_merge, _.
  - intros room m _. apply response_size.
  - done.
  - apply response_merge_default.
Qed.
End ResponseMessage.

Module RequestItems.

Record t := mk { message_type : bytes; host : bytes; unknown_fields : bytes }.
Definition default : t := mk [] [] [].

Definition set_message_type (v : bytes) (m : t) : t := mk v (host m) (unknown_fields m).
Definition clear_message_type (m : t) : t := mk [] (host m) (unknown_fields m).
Definition set_host (v : bytes) (m : t) : t := mk (message_type m) v (unknown_fields m).
Definition clear_host (m : t) : t := mk (message_type m) [] (unknown_fields m).
Definition add_unknown (raw : bytes) (m : t) : t := mk (message_type m) (host m) (unknown_fields m ++ raw).

Lemma request_unknown_nil m : add_unknown [] m = m.
Proof. destruct m. unfold add_unknown. simpl. by rewrite app_nil_r. Qed.

Definition Clear (m : t) : t := mk [] [] [].

Definition parse_field (L : ProtoLibrary) (tag : Z) (m : t) (p : bytes) : parsed t :=
  match Z.shiftr tag 3 with
  | 1 => case_tag tag 10 (then_next (ReadString L p) (λ s, set_message_type s m))
  | 2 => case_tag tag 18 (then_next (ReadString L p) (λ s, set_host s m))
  | _ => Unusual
  end.
Definition InternalParse (L : ProtoLibrary) (m : t) (p : bytes) : option t :=
  InternalParse L (parse_field L) add_unknown m p.

Definition InternalSerialize (L : ProtoLibrary) (room : Z → bool) (m : t) : bytes :=
  if_nonempty (message_type m) (WriteStringMaybeAliased L (room 1) 1 (message_type m)) ++
  if_nonempty (host m) (WriteStringMaybeAliased L (room 2) 2 (host m)) ++
  unknown_fields m.

Definition ByteSizeLong (m : t) : Z :=
  (if decide (message_type m = []) then 0 else 1 + StringSize (message_type m)) +
  (if decide (host m = []) then 0 else 1 + StringSize (host m)) +
  Z.of_nat (length (unknown_fields m)).

Definition MergeImpl (_this from : t) : t :=
  let _this := if decide (message_type from = []) then _this
               else set_message_type (message_type from) _this in
  let _this := if decide (host from = []) then _this else set_host (host from) _this in
  add_unknown (unknown_fields from) _this.

Definition InternalSwap (m other : t) : t * t := (other, m).

Definition wf (L : ProtoLibrary) (m : t) : Prop :=
  string_wf L (message_type m) ∧ string_wf L (host m) ∧ unknown_fields m = [].


Section laws.
Context (L : ProtoLibrary) `{!ProtoLibraryLaws L}.

Lemma request_parse_merge room m0 m :
  wf L m → InternalParse L m0 (InternalSerialize L room m) = Some (MergeImpl m0 m).
Proof.
  intros (Ht & Hh & Hu). apply (ends_InternalParse L), (consumes_end L).
  set (m1 := if decide (message_type m = []) then m0 else set_message_type (message_type m) m0).
  replace (MergeImpl m0 m) with (if decide (host m = []) then m1 else set_host (host m) m1).
  - unfold InternalSerialize. rewrite Hu, app_nil_r. eapply consumes_app.
    + by apply (consumes_string_wf L _ _ (room 1) 1 _ m0 (λ s, set_message_type s m0)); [solve_tag| |].
    + by apply (consumes_string_wf L _ _ (room 2) 2 _ m1 (λ s, set_host s m1)); [solve_tag| |].
  - unfold MergeImpl. by rewrite Hu, request_unknown_nil.
Qed.

Lemma request_size room m : wf L m → Z.of_nat (length (InternalSerialize L room m)) = ByteSizeLong m.
Proof.
  intros ([Ht _] & [Hh _] & _). unfold InternalSerialize, ByteSizeLong.
  rewrite !length_app, !Nat2Z.inj_add, !length_if_nonempty.
  rewrite !(length_WriteString L) by (done || solve_tag). lia.
Qed.
End laws.

Lemma request_merge_default L m : wf L m → MergeImpl default m = m.
Proof.
  destruct m as [ty h u]. intros (_ & _ & Hu). simpl in Hu. subst u.
  unfold MergeImpl, default, add_unknown. simpl. repeat case_decide; by subst.
Qed.

#[global] Instance message (L : ProtoLibrary) : Message L t := {
  default_instance := default;
  ProtoWire.Clear := Clear;
  ProtoWire.ByteSizeLong := ByteSizeLong;
  ProtoWire.InternalSerialize room := InternalSerialize L (room 0%nat);
  ParseInto := InternalParse L;
  ProtoWire.MergeImpl := MergeImpl;
  message_wf := wf L;
}.

#[global] Instance laws (L : ProtoLibrary) `{!ProtoLibraryLaws L} : MessageLaws L t.
Proof.
  split.
  - intros room m0 m. apply request_parse_merge, _.
  - intros room m. apply request_size, _.
  - done.
  - intros m. apply request_merge_default.
Qed.
End RequestItems.

Module Item.

(** [CollectType]: an open enumeration, any [int] is kept. *)
Definition CollectType_IsValid (value : Z) : bool :=
  match value with 0 | 1 | 2 | 3 => true | _ => false end.

Record t := mk { name : bytes; data_type : bytes; collect_type : Z; unknown_fields : bytes }.
Definition default : t := mk [] [] 0 [].

Definition set_name (v : bytes) (m : t) : t := mk v (data_type m) (collect_type m) (unknown_fields m).
Definition clear_name (m : t) : t := mk [] (data_type m) (collect_type m) (unknown_fields m).
Definition set_data_type (v : bytes) (m : t) : t := mk (name m) v (collect_type m) (unknown_fields m).
Definition clear_data_type (m : t) : t := mk (name m) [] (collect_type m) (unknown_fields m).
Definition set_collect_type (v : Z) (m : t) : t := mk (name m) (data_type m) v (unknown_fields m).
Definition clear_collect_type (m : t) : t := mk (name m) (data_type m) 0 (unknown_fields m).
Definition add_unknown (raw : bytes) (m : t) : t :=
  mk (name m) (data_type m) (collect_type m) (unknown_fields m ++ raw).

Lemma item_unknown_nil m : add_unknown [] m = m.
Proof. destruct m. unfold add_unknown. simpl. by rewrite app_nil_r. Qed.

Definition Clear (m : t) : t := mk [] [] 0 [].

Definition parse_field (L : ProtoLibrary) (tag : Z) (m : t) (p : bytes) : parsed t :=
  match Z.shiftr tag 3 with
  | 1 => case_tag tag 10 (then_next (ReadString L p) (λ s, set_name s m))
  | 2 => case_tag tag 18 (then_next (ReadString L p) (λ s, set_data_type s m))
  | 3 => case_tag tag 24 (then_next (ReadVarint64 L p) (λ val, set_collect_type (i32 val) m))
  | _ => Unusual
  end.
Definition InternalParse (L : ProtoLibrary) (m : t) (p : bytes) : option t :=
  InternalParse L (parse_field L) add_unknown m p.

Definition InternalSerialize (L : ProtoLibrary) (room : Z → bool) (m : t) : bytes :=
  if_nonempty (name m) (WriteStringMaybeAliased L (room 1) 1 (name m)) ++
  if_nonempty (data_type m) (WriteStringMaybeAliased L (room 2) 2 (data_type m)) ++
  if_nonzero (collect_type m) (WriteEnumToArray 3 (collect_type m)) ++
  unknown_fields m.

Definition ByteSizeLong (m : t) : Z :=
  (if decide (name m = []) then 0 else 1 + StringSize (name m)) +
  (if decide (data_type m = []) then 0 else 1 + StringSize (data_type m)) +
  (if collect_type m =? 0 then 0 else 1 + EnumSize (collect_type m)) +
  Z.of_nat (length (unknown_fields m)).

Definition MergeImpl (_this from : t) : t :=
  let _this := if decide (name from = []) then _this else set_name (name from) _this in
  let _this := if decide (data_type from = []) then _this else set_data_type (data_type from) _this in
  let _this := if collect_type from =? 0 then _this else set_collect_type (collect_type from) _this in
  add_unknown (unknown_fields from) _this.

Definition InternalSwap (m other : t) : t * t := (other, m).

Definition wf (L : ProtoLibrary) (m : t) : Prop :=
  string_wf L (name m) ∧ string_wf L (data_type m) ∧ in_signed 32 (collect_type m) ∧ unknown_fields m = [].

Lemma item_advances L `{!ProtoLibraryProgress L} tag m p : parsed_advances (parse_field L tag m p) p.
Proof. unfold parse_field. solve_advances. Qed.

Section laws.
Context (L : ProtoLibrary) `{!ProtoLibraryLaws L}.

Lemma item_parse_merge room m0 m :
  wf L m → InternalParse L m0 (InternalSerialize L room m) = Some (MergeImpl m0 m).
Proof.
  intros (Hn & Hd & Hc & Hu). apply (ends_InternalParse L), (consumes_end L).
  set (m1 := if decide (name m = []) then m0 else set_name (name m) m0).
  set (m2 := if decide (data_type m = []) then m1 else set_data_type (data_type m) m1).
  replace (MergeImpl m0 m) with (if collect_type m =? 0 then m2 else set_collect_type (collect_type m) m2).
  - unfold InternalSerialize. rewrite Hu, app_nil_r. eapply consumes_app; [|eapply consumes_app].
    + by apply (consumes_string_wf L _ _ (room 1) 1 _ m0 (λ s, set_name s m0)); [solve_tag| |].
    + by apply (consumes_string_wf L _ _ (room 2) 2 _ m1 (λ s, set_data_type s m1)); [solve_tag| |].
    + by apply (consumes_enum L _ _ 3 _ m2 (λ v, set_collect_type v m2)); [solve_tag| |].
  - unfold MergeImpl. by rewrite Hu, item_unknown_nil.
Qed.

Lemma item_size room m : wf L m → Z.of_nat (length (InternalSerialize L room m)) = ByteSizeLong m.
Proof.
  intros ([Hn _] & [Hd _] & _ & _). unfold InternalSerialize, ByteSizeLong.
  rewrite !length_app, !Nat2Z.inj_add, !length_if_nonempty, length_if_nonzero.
  rewrite !(length_WriteString L), length_WriteEnum by (done || solve_tag). lia.
Qed.
End laws.

Lemma item_merge_default L m : wf L m → MergeImpl default m = m.
Proof.
  destruct m as [n d c u]. intros (_ & _ & _ & Hu). simpl in Hu. subst u.
  unfold MergeImpl, default, add_unknown. simpl.
  destruct (Z.eqb_spec c 0) as [->|]; repeat case_decide; by subst.
Qed.

#[global] Instance message (L : ProtoLibrary) : Message L t := {
  default_instance := default;
  ProtoWire.Clear := Clear;
  ProtoWire.ByteSizeLong := ByteSizeLong;
  ProtoWire.InternalSerialize room := InternalSerialize L (room 0%nat);
  ParseInto := InternalParse L;
  ProtoWire.MergeImpl := MergeImpl;
  message_wf := wf L;
}.

#[global] Instance laws (L : ProtoLibrary) `{!ProtoLibraryLaws L} : MessageLaws L t.
Proof.
  split.
  - intros room m0 m. apply item_parse_merge, _.
  - intros room m. apply item_size, _.
  - done.
  - intros m. apply item_merge_default.
Qed.
End Item.

Module MonitorData.

(** [oneof value]. *)
Inductive value_t := VALUE_NOT_SET | kStringValue (s : bytes) | kIntValue (v : Z) | kDoubleValue (bits : Z).

Record t := mk { id : Z; item : bytes; value : value_t; timestamp : Z; unknown_fields : bytes }.
Definition default : t := mk 0 [] VALUE_NOT_SET 0 [].

Definition value_case (m : t) : Z :=
  match value m with VALUE_NOT_SET => 0 | kStringValue _ => 4 | kIntValue _ => 5 | kDoubleValue _ => 6 end.
Definition set_value (v : value_t) (m : t) : t := mk (id m) (item m) v (timestamp m) (unknown_fields m).
Definition clear_value (m : t) : t := set_value VALUE_NOT_SET m.

Definition set_id (v : Z) (m : t) : t := mk v (item m) (value m) (timestamp m) (unknown_fields m).
Definition clear_id (m : t) : t := mk 0 (item m) (value m) (timestamp m) (unknown_fields m).
Definition set_item (v : bytes) (m : t) : t := mk (id m) v (value m) (timestamp m) (unknown_fields m).
Definition clear_item (m : t) : t := mk (id m) [] (value m) (timestamp m) (unknown_fields m).
Definition set_timestamp (v : Z) (m : t) : t := mk (id m) (item m) (value m) v (unknown_fields m).
Definition clear_timestamp (m : t) : t := mk (id m) (item m) (value m) 0 (unknown_fields m).
Definition add_unknown (raw : bytes) (m : t) : t :=
  mk (id m) (item m) (value m) (timestamp m) (unknown_fields m ++ raw).

(** A member of the union: reading another one gives its default. *)
Definition has_string_value (m : t) : bool := value_case m =? 4.
Definition string_value (m : t) : bytes := match value m with kStringValue s => s | _ => [] end.
Definition set_string_value (s : bytes) (m : t) : t :=
  set_value (kStringValue s) (if negb (has_string_value m) then clear_value m else m).
Definition clear_string_value (m : t) : t := if has_string_value m then clear_value m else m.
Definition has_int_value (m : t) : bool := value_case m =? 5.
Definition int_value (m : t) : Z := match value m with kIntValue v => v | _ => 0 end.
Definition set_int_value (v : Z) (m : t) : t :=
  set_value (kIntValue v) (if negb (has_int_value m) then clear_value m else m).
Definition clear_int_value (m : t) : t := if has_int_value m then clear_value m else m.
Definition has_double_value (m : t) : bool := value_case m =? 6.
Definition double_value (m : t) : Z := match value m with kDoubleValue v => v | _ => 0 end.
Definition set_double_value (v : Z) (m : t) : t :=
  set_value (kDoubleValue v) (if negb (has_double_value m) then clear_value m else m).
Definition clear_double_value (m : t) : t := if has_double_value m then clear_value m else m.

Definition Clear (m : t) : t := clear_value (mk 0 [] (value m) 0 []).

Definition parse_field (L : ProtoLibrary) (tag : Z) (m : t) (p : bytes) : parsed t :=
  match Z.shiftr tag 3 with
  | 1 => case_tag tag 8 (then_next (ReadVarint32 L p) (λ v, set_id (i32 v) m))
  | 3 => case_tag tag 26 (then_next (ReadString L p) (λ s, set_item s m))
  | 4 => case_tag tag 34 (then_next (ReadString L p) (λ s, set_string_value s m))
  | 5 => case_tag tag 40 (then_next (ReadVarint64 L p) (λ v, set_int_value (i64 v) m))
  | 6 => case_tag tag 49 (then_next (ReadDouble p) (λ v, set_double_value v m))
  | 7 => case_tag tag 56 (then_next (ReadVarint64 L p) (λ v, set_timestamp (i64 v) m))
  | _ => Unusual
  end.
Definition InternalParse (L : ProtoLibrary) (m : t) (p : bytes) : option t :=
  InternalParse L (parse_field L) add_unknown m p.

Definition InternalSerialize (L : ProtoLibrary) (room : Z → bool) (m : t) : bytes :=
  if_nonzero (id m) (WriteInt32ToArray 1 (id m)) ++
  if_nonempty (item m) (WriteStringMaybeAliased L (room 3) 3 (item m)) ++
  (if has_string_value m then WriteStringMaybeAliased L (room 4) 4 (string_value m) else []) ++
  (if has_int_value m then WriteInt64ToArray 5 (int_value m) else []) ++
  (if has_double_value m then WriteDoubleToArray 6 (double_value m) else []) ++
  if_nonzero (timestamp m) (WriteInt64ToArray 7 (timestamp m)) ++
  unknown_fields m.

Definition ByteSizeLong (m : t) : Z :=
  (if decide (item m = []) then 0 else 1 + StringSize (item m)) +
  (if timestamp m =? 0 then 0 else Int64SizePlusOne (timestamp m)) +
  (if id m =? 0 then 0 else Int32SizePlusOne (id m)) +
  match value m with
  | kStringValue s => 1 + StringSize s
  | kIntValue v => Int64SizePlusOne v
  | kDoubleValue _ => 1 + 8
  | VALUE_NOT_SET => 0
  end + Z.of_nat (length (unknown_fields m)).

Definition MergeImpl (_this from : t) : t :=
  let _this := if decide (item from = []) then _this else set_item (item from) _this in
  let _this := if timestamp from =? 0 then _this else set_timestamp (timestamp from) _this in
  let _this := if id from =? 0 then _this else set_id (id from) _this in
  let _this :=
    match value from with
    | kStringValue s => set_string_value s _this
    | kIntValue v => set_int_value v _this
    | kDoubleValue v => set_double_value v _this
    | VALUE_NOT_SET => _this
    end in
  add_unknown (unknown_fields from) _this.

Definition InternalSwap (m other : t) : t * t := (other, m).

Definition value_wf (L : ProtoLibrary) (v : value_t) : Prop :=
  match v with
  | VALUE_NOT_SET => True
  | kStringValue s => Z.of_nat (length s) ≤ max_length ∧ VerifyUTF8 L s = true
  | kIntValue v => in_signed 64 v
  | kDoubleValue bits => 0 ≤ bits < 2 ^ 64
  end.
Definition wf (L : ProtoLibrary) (m : t) : Prop :=
  in_signed 32 (id m) ∧ string_wf L (item m) ∧ value_wf L (value m) ∧ in_signed 64 (timestamp m) ∧
  unknown_fields m = [].

Lemma monitor_advances L `{!ProtoLibraryProgress L} tag m p : parsed_advances (parse_field L tag m p) p.
Proof. unfold parse_field. solve_advances. Qed.

Lemma monitor_unknown_nil m : add_unknown [] m = m.
Proof. destruct m. unfold add_unknown. simpl. by rewrite app_nil_r. Qed.

(** The member of the union as one field of the message. *)
Definition merge_value (v : value_t) (m : t) : t :=
  match v with
  | kStringValue s => set_string_value s m
  | kIntValue v => set_int_value v m
  | kDoubleValue v => set_double_value v m
  | VALUE_NOT_SET => m
  end.

Section laws.
Context (L : ProtoLibrary) `{!ProtoLibraryLaws L}.
Local Abbreviation consumes := (consumes L (parse_field L) add_unknown).

Lemma consumes_value room m m1 : value_wf L (value m) →
  consumes m1 ((if has_string_value m then WriteStringMaybeAliased L room 4 (string_value m) else []) ++
     (if has_int_value m then WriteInt64ToArray 5 (int_value m) else []) ++
     (if has_double_value m then WriteDoubleToArray 6 (double_value m) else []))
    (merge_value (value m) m1).
Proof.
  unfold has_string_value, has_int_value, has_double_value, string_value, int_value, double_value, value_case.
  destruct (value m) as [|s|v|bits]; simpl; intros Hv; rewrite ?app_nil_r.
  - apply consumes_nil.
  - by apply (consumes_string L _ _ room 4 s m1 (λ s, set_string_value s m1)); [solve_tag|apply Hv..|].
  - by apply (consumes_int64 L _ _ 5 v m1 (λ v, set_int_value v m1)); [solve_tag| |].
  - by apply (consumes_double L _ _ 6 bits m1 (λ v, set_double_value v m1)); [solve_tag| |].
Qed.

(** The order of the fields on the wire is not that of [MergeImpl]: the setters of
    different fields commute. *)
Lemma monitor_merge_order m0 m : unknown_fields m = [] →
  MergeImpl m0 m =
    let m1 := if id m =? 0 then m0 else set_id (id m) m0 in
    let m2 := if decide (item m = []) then m1 else set_item (item m) m1 in
    let m3 := merge_value (value m) m2 in
    if timestamp m =? 0 then m3 else set_timestamp (timestamp m) m3.
Proof.
  intros Hu. unfold MergeImpl. rewrite Hu, monitor_unknown_nil. cbv zeta. unfold merge_value.
  destruct m0 as [i0 n0 v0 t0 u0], m as [i n v t u]; simpl.
  by destruct (decide (n = [])), (t =? 0), (i =? 0), v, v0.
Qed.

Lemma monitor_parse_merge room m0 m :
  wf L m → InternalParse L m0 (InternalSerialize L room m) = Some (MergeImpl m0 m).
Proof.
  intros (Hi & Hn & Hv & Ht & Hu). apply (ends_InternalParse L), (consumes_end L).
  rewrite monitor_merge_order by done. cbv zeta.
  set (m1 := if id m =? 0 then m0 else set_id (id m) m0).
  set (m2 := if decide (item m = []) then m1 else set_item (item m) m1).
  set (m3 := merge_value (value m) m2).
  unfold InternalSerialize. rewrite Hu, app_nil_r. eapply consumes_app; [|eapply consumes_app].
  - by apply (consumes_int32 L _ _ 1 _ m0 (λ v, set_id v m0)); [solve_tag| |].
  - by apply (consumes_string_wf L _ _ (room 3) 3 _ m1 (λ s, set_item s m1)); [solve_tag| |].
  - rewrite !app_assoc, <- (app_assoc (if has_string_value m then _ else _)).
    eapply consumes_app; [by apply consumes_value|].
    by apply (consumes_int64_nonzero L _ _ 7 _ m3 (λ v, set_timestamp v m3)); [solve_tag| |].
Qed.

Lemma monitor_size room m : wf L m → Z.of_nat (length (InternalSerialize L room m)) = ByteSizeLong m.
Proof.
  intros (_ & [Hn _] & Hv & _ & _). unfold InternalSerialize, ByteSizeLong.
  rewrite !length_app, !Nat2Z.inj_add, !length_if_nonempty, !length_if_nonzero.
  rewrite (length_WriteString L _ 3), length_WriteInt32, (length_WriteInt64 7) by (done || solve_tag).
  unfold has_string_value, has_int_value, has_double_value, string_value, int_value, double_value, value_case.
  destruct (value m) as [|s|v|bits]; simpl in Hv;
    cbn [Z.eqb Pos.eqb]; change (Z.of_nat (length [])) with 0.
  - lia.
  - rewrite (length_WriteString L) by (apply Hv || solve_tag). lia.
  - rewrite length_WriteInt64 by solve_tag. lia.
  - rewrite length_WriteDouble by solve_tag. lia.
Qed.
End laws.

Lemma monitor_merge_default L m : wf L m → MergeImpl default m = m.
Proof.
  intros (_ & _ & _ & _ & Hu). rewrite monitor_merge_order by done.
  destruct m as [i n v t u]. simpl in *. subst u.
  destruct (Z.eqb_spec i 0) as [->|]; destruct (decide (n = [])) as [->|]; destruct (Z.eqb_spec t 0) as [->|];
    by destruct v.
Qed.

Lemma monitor_clear m : Clear m = default.
Proof. done. Qed.

#[global] Instance message (L : ProtoLibrary) : Message L t := {
  default_instance := default;
  ProtoWire.Clear := Clear;
  ProtoWire.ByteSizeLong := ByteSizeLong;
  ProtoWire.InternalSerialize room := InternalSerialize L (room 0%nat);
  ParseInto := InternalParse L;
  ProtoWire.MergeImpl := MergeImpl;
  message_wf := wf L;
}.

#[global] Instance laws (L : ProtoLibrary) `{!ProtoLibraryLaws L} : MessageLaws L t.
Proof.
  split.
  - intros room m0 m. apply monitor_parse_merge, _.
  - intros room m. apply monitor_size, _.
  - apply monitor_clear.
  - intros m. apply monitor_merge_default.
Qed.
End MonitorData.

Module ReportMessage.

Record t := mk { message_type : bytes; host : bytes; data : list MonitorData.t; unknown_fields : bytes }.
Definition default : t := mk [] [] [] [].

Definition set_message_type (v : bytes) (m : t) : t := mk v (host m) (data m) (unknown_fields m).
Definition clear_message_type (m : t) : t := mk [] (host m) (data m) (unknown_fields m).
Definition set_host (v : bytes) (m : t) : t := mk (message_type m) v (data m) (unknown_fields m).
Definition clear_host (m : t) : t := mk (message_type m) [] (data m) (unknown_fields m).
Definition data_size (m : t) : Z := Z.of_nat (length (data m)).
Definition clear_data (m : t) : t := mk (message_type m) (host m) [] (unknown_fields m).
(** [add_data()] and what the caller writes through the pointer it gives. *)
Definition add_data (x : MonitorData.t) (m : t) : t :=
  mk (message_type m) (host m) (data m ++ [x]) (unknown_fields m).
Definition add_unknown (raw : bytes) (m : t) : t :=
  mk (message_type m) (host m) (data m) (unknown_fields m ++ raw).

Definition Clear (m : t) : t := mk [] [] [] [].

Definition parse_field (L : ProtoLibrary) (tag : Z) (m : t) (p : bytes) : parsed t :=
  match Z.shiftr tag 3 with
  | 1 => case_tag tag 10 (then_next (ReadString L p) (λ s, set_message_type s m))
  | 2 => case_tag tag 18 (then_next (ReadString L p) (λ s, set_host s m))
  | 3 => case_tag tag 26
           (parse_repeated L (MonitorData.InternalParse L MonitorData.default) add_data (z2b 26)
              (S (length p)) m p)
  | _ => Unusual
  end.
Definition InternalParse (L : ProtoLibrary) (m : t) (p : bytes) : option t :=
  InternalParse L (parse_field L) add_unknown m p.

Definition InternalSerialize (L : ProtoLibrary) (room : nat → Z → bool) (m : t) : bytes :=
  if_nonempty (message_type m) (WriteStringMaybeAliased L (room 0%nat 1) 1 (message_type m)) ++
  if_nonempty (host m) (WriteStringMaybeAliased L (room 0%nat 2) 2 (host m)) ++
  write_elements L 3 (λ i x, MonitorData.InternalSerialize L (room (S i)) x) (data m) ++
  unknown_fields m.

Definition ByteSizeLong (m : t) : Z :=
  data_size m + foldr (λ msg n, LengthDelimitedSize (MonitorData.ByteSizeLong msg) + n) 0 (data m) +
  (if decide (message_type m = []) then 0 else 1 + StringSize (message_type m)) +
  (if decide (host m = []) then 0 else 1 + StringSize (host m)) +
  Z.of_nat (length (unknown_fields m)).

Definition MergeImpl (_this from : t) : t :=
  let _this := mk (message_type _this) (host _this) (data _this ++ data from) (unknown_fields _this) in
  let _this := if decide (message_type from = []) then _this
               else set_message_type (message_type from) _this in
  let _this := if decide (host from = []) then _this else set_host (host from) _this in
  add_unknown (unknown_fields from) _this.

Definition InternalSwap (m other : t) : t * t := (other, m).

Definition wf (L : ProtoLibrary) (m : t) : Prop :=
  string_wf L (message_type m) ∧ string_wf L (host m) ∧
  Forall (λ x, MonitorData.wf L x ∧ MonitorData.ByteSizeLong x ≤ max_length) (data m) ∧
  unknown_fields m = [].


Lemma report_unknown_nil m : add_unknown [] m = m.
Proof. destruct m. unfold add_unknown. simpl. by rewrite app_nil_r. Qed.

Lemma report_add_all xs : ∀ m, foldl (λ m x, add_data x m) m xs =
  mk (message_type m) (host m) (data m ++ xs) (unknown_fields m).
Proof.
  induction xs as [|x xs IH]; intros [ty h d u]; simpl; [by rewrite app_nil_r|].
  rewrite IH. simpl. by rewrite <- app_assoc.
Qed.

Section laws.
Context (L : ProtoLibrary) `{!ProtoLibraryLaws L}.

Lemma report_element room x : MonitorData.wf L x ∧ MonitorData.ByteSizeLong x ≤ max_length →
  ∀ i : nat, MonitorData.InternalParse L MonitorData.default
      (MonitorData.InternalSerialize L (room (S i)) x) = Some x ∧
    Z.of_nat (length (MonitorData.InternalSerialize L (room (S i)) x)) ≤ max_length.
Proof.
  intros [Hx Hsize] i. rewrite MonitorData.monitor_size by done. split; [|done].
  by rewrite MonitorData.monitor_parse_merge, (MonitorData.monitor_merge_default L).
Qed.

Lemma report_parse_merge room m0 m :
  wf L m → InternalParse L m0 (InternalSerialize L room m) = Some (MergeImpl m0 m).
Proof.
  intros (Ht & Hh & Hd & Hu). apply (ends_InternalParse L).
  set (m1 := if decide (message_type m = []) then m0 else set_message_type (message_type m) m0).
  set (m2 := if decide (host m = []) then m1 else set_host (host m) m1).
  replace (MergeImpl m0 m) with (foldl (λ m x, add_data x m) m2 (data m)).
  - unfold InternalSerialize. rewrite Hu, app_nil_r.
    eapply consumes_ends; [|eapply consumes_ends].
    + by apply (consumes_string_wf L _ _ (room 0%nat 1) 1 _ m0 (λ s, set_message_type s m0)); [solve_tag| |].
    + by apply (consumes_string_wf L _ _ (room 0%nat 2) 2 _ m1 (λ s, set_host s m1)); [solve_tag| |].
    + apply (ends_repeated L _ _ (MonitorData.InternalParse L MonitorData.default)); [solve_tag|done|].
      eapply Forall_impl; [exact Hd|]. intros x. apply report_element.
  - rewrite report_add_all. unfold MergeImpl. rewrite Hu, report_unknown_nil. subst m2 m1.
    by destruct (decide (message_type m = [])), (decide (host m = [])).
Qed.

Lemma report_size room m : wf L m → Z.of_nat (length (InternalSerialize L room m)) = ByteSizeLong m.
Proof.
  intros ([Ht _] & [Hh _] & Hd & _). unfold InternalSerialize, ByteSizeLong, data_size.
  rewrite !length_app, !Nat2Z.inj_add, !length_if_nonempty.
  rewrite !(length_WriteString L) by (done || solve_tag).
  rewrite (length_write_elements L 3 MonitorData.ByteSizeLong); [lia|solve_tag|].
  eapply Forall_impl; [exact Hd|]. intros x [Hx Hsize] i. split; [|done]. by apply MonitorData.monitor_size.
Qed.
End laws.

Lemma report_merge_default L m : wf L m → MergeImpl default m = m.
Proof.
  destruct m as [ty h d u]. intros (_ & _ & _ & Hu). simpl in Hu. subst u.
  unfold MergeImpl, default, add_unknown. simpl. repeat case_decide; by subst.
Qed.

#[global] Instance message (L : ProtoLibrary) : Message L t := {
  default_instance := default;
  ProtoWire.Clear := Clear;
  ProtoWire.ByteSizeLong := ByteSizeLong;
  ProtoWire.InternalSerialize := InternalSerialize L;
  ParseInto := InternalParse L;
  ProtoWire.MergeImpl := MergeImpl;
  message_wf := wf L;
}.

#[global] Instance laws (L : ProtoLibrary) `{!ProtoLibraryLaws L} : MessageLaws L t.
Proof.
  split.
  - intros room m0 m. apply report_parse_merge, _.
  - intros room m. apply report_size, _.
  - done.
  - intros m. apply report_merge_default.
Qed.
End ReportMessage.

Module ResponseItems.

Record t := mk { message_type : bytes; items : list Item.t; unknown_fields : bytes }.
Definition default : t := mk [] [] [].

Definition set_message_type (v : bytes) (m : t) : t := mk v (items m) (unknown_fields m).
Definition clear_message_type (m : t) : t := mk [] (items m) (unknown_fields m).
Definition items_size (m : t) : Z := Z.of_nat (length (items m)).
Definition clear_items (m : t) : t := mk (message_type m) [] (unknown_fields m).
(** [add_items()] and what the caller writes through the pointer it gives. *)
Definition add_items (x : Item.t) (m : t) : t := mk (message_type m) (items m ++ [x]) (unknown_fields m).
Definition add_unknown (raw : bytes) (m : t) : t := mk (message_type m) (items m) (unknown_fields m ++ raw).

Definition Clear (m : t) : t := mk [] [] [].

Definition parse_field (L : ProtoLibrary) (tag : Z) (m : t) (p : bytes) : parsed t :=
  match Z.shiftr tag 3 with
  | 1 => case_tag tag 10 (then_next (ReadString L p) (λ s, set_message_type s m))
  | 2 => case_tag tag 18
           (parse_repeated L (Item.InternalParse L Item.default) add_items (z2b 18) (S (length p)) m p)
  | _ => Unusual
  end.
Definition InternalParse (L : ProtoLibrary) (m : t) (p : bytes) : option t :=
  InternalParse L (parse_field L) add_unknown m p.

Definition InternalSerialize (L : ProtoLibrary) (room : nat → Z → bool) (m : t) : bytes :=
  if_nonempty (message_type m) (WriteStringMaybeAliased L (room 0%nat 1) 1 (message_type m)) ++
  write_elements L 2 (λ i x, Item.InternalSerialize L (room (S i)) x) (items m) ++
  unknown_fields m.

Definition ByteSizeLong (m : t) : Z :=
  items_size m + foldr (λ msg n, LengthDelimitedSize (Item.ByteSizeLong msg) + n) 0 (items m) +
  (if decide (message_type m = []) then 0 else 1 + StringSize (message_type m)) +
  Z.of_nat (length (unknown_fields m)).

Definition MergeImpl (_this from : t) : t :=
  let _this := mk (message_type _this) (items _this ++ items from) (unknown_fields _this) in
  let _this := if decide (message_type from = []) then _this
               else set_message_type (message_type from) _this in
  add_unknown (unknown_fields from) _this.

Definition InternalSwap (m other : t) : t * t := (other, m).

Definition wf (L : ProtoLibrary) (m : t) : Prop :=
  string_wf L (message_type m) ∧
  Forall (λ x, Item.wf L x ∧ Item.ByteSizeLong x ≤ max_length) (items m) ∧ unknown_fields m = [].


Lemma items_unknown_nil m : add_unknown [] m = m.
Proof. destruct m. unfold add_unknown. simpl. by rewrite app_nil_r. Qed.

Lemma items_add_all xs : ∀ m, foldl (λ m x, add_items x m) m xs =
  mk (message_type m) (items m ++ xs) (unknown_fields m).
Proof.
  induction xs as [|x xs IH]; intros [ty d u]; simpl; [by rewrite app_nil_r|].
  rewrite IH. simpl. by rewrite <- app_assoc.
Qed.

Section laws.
Context (L : ProtoLibrary) `{!ProtoLibraryLaws L}.

Lemma items_element room x : Item.wf L x ∧ Item.ByteSizeLong x ≤ max_length →
  ∀ i : nat, Item.InternalParse L Item.default (Item.InternalSerialize L (room (S i)) x) = Some x ∧
    Z.of_nat (length (Item.InternalSerialize L (room (S i)) x)) ≤ max_length.
Proof.
  intros [Hx Hsize] i. rewrite Item.item_size by done. split; [|done].
  by rewrite Item.item_parse_merge, (Item.item_merge_default L).
Qed.

Lemma items_parse_merge room m0 m :
  wf L m → InternalParse L m0 (InternalSerialize L room m) = Some (MergeImpl m0 m).
Proof.
  intros (Ht & Hd & Hu). apply (ends_InternalParse L).
  set (m1 := if decide (message_type m = []) then m0 else set_message_type (message_type m) m0).
  replace (MergeImpl m0 m) with (foldl (λ m x, add_items x m) m1 (items m)).
  - unfold InternalSerialize. rewrite Hu, app_nil_r. eapply consumes_ends.
    + by apply (consumes_string_wf L _ _ (room 0%nat 1) 1 _ m0 (λ s, set_message_type s m0)); [solve_tag| |].
    + apply (ends_repeated L _ _ (Item.InternalParse L Item.default)); [solve_tag|done|].
      eapply Forall_impl; [exact Hd|]. intros x. apply items_element.
  - rewrite items_add_all. unfold MergeImpl. rewrite Hu, items_unknown_nil. subst m1.
    by destruct (decide (message_type m = [])).
Qed.

Lemma response_items_size room m : wf L m → Z.of_nat (length (InternalSerialize L room m)) = ByteSizeLong m.
Proof.
  intros ([Ht _] & Hd & _). unfold InternalSerialize, ByteSizeLong, items_size.
  rewrite !length_app, !Nat2Z.inj_add, !length_if_nonempty.
  rewrite !(length_WriteString L) by (done || solve_tag).
  rewrite (length_write_elements L 2 Item.ByteSizeLong); [lia|solve_tag|].
  eapply Forall_impl; [exact Hd|]. intros x [Hx Hsize] i. split; [|done]. by apply Item.item_size.
Qed.
End laws.

Lemma items_merge_default L m : wf L m → MergeImpl default m = m.
Proof.
  destruct m as [ty d u]. intros (_ & _ & Hu). simpl in Hu. subst u.
  unfold MergeImpl, default, add_unknown. simpl. repeat case_decide; by subst.
Qed.

#[global] Instance message (L : ProtoLibrary) : Message L t := {
  default_instance := default;
  ProtoWire.Clear := Clear;
  ProtoWire.ByteSizeLong := ByteSizeLong;
  ProtoWire.InternalSerialize := InternalSerialize L;
  ParseInto := InternalParse L;
  ProtoWire.MergeImpl := MergeImpl;
  message_wf := wf L;
}.

#[global] Instance laws (L : ProtoLibrary) `{!ProtoLibraryLaws L} : MessageLaws L t.
Proof.
  split.
  - intros room m0 m. apply items_parse_merge, _.
  - intros room m. apply response_items_size, _.
  - done.
  - intros m. apply items_merge_default.
Qed.
End ResponseItems.

(** ** A library that meets the contract

    Plain varints of at most ten bytes; nothing is an unknown field. *)
Module Reference.

Fixpoint read_varint (n : nat) (p : bytes) : option (Z * bytes) :=
  match n, p with
  | S n, b :: p =>
      if b2z b <? 128 then Some (b2z b, p)
      else '(v, p) ← read_varint n p; Some (b2z b - 128 + 128 * v, p)
  | _, _ => None
  end.
Definition read_varint64 (p : bytes) : option (Z * bytes) :=
  '(v, p) ← read_varint 10 p; Some (u64 v, p).
Definition read_varint32 (p : bytes) : option (Z * bytes) :=
  '(v, p) ← read_varint 10 p; Some (u32 v, p).
Definition read_delimited (p : bytes) : option (bytes * bytes) :=
  '(n, p) ← read_varint 10 p;
  if decide (n ≤ Z.of_nat (length p)) then Some (take (Z.to_nat n) p, drop (Z.to_nat n) p) else None.
Definition write_delimited (num : Z) (s : bytes) : bytes :=
  UnsafeVarint (MakeTag num 2) ++ UnsafeVarint (Z.of_nat (length s)) ++ s.

Definition library : ProtoLibrary := {|
  VarintParseSlow32 := read_varint32;
  VarintParseSlow64 := read_varint64;
  ReadTagFallback := read_varint32;
  InlineGreedyStringParser := read_delimited;
  ReadSizeAndPushLimit := read_delimited;
  UnknownFieldParse _ _ := None;
  VerifyUTF8 _ := true;
  WriteStringMaybeAliasedOutline := write_delimited;
  InternalWriteMessage num _ body := write_delimited num body;
|}.

Lemma read_write_varint n : ∀ v rest, (0 < n)%nat → 0 ≤ v < 2 ^ (7 * Z.of_nat n) →
  read_varint n (write_varint n v ++ rest) = Some (v, rest).
Proof.
  induction n as [|n IH]; intros v rest Hn Hv; [lia|]. cbn [write_varint].
  destruct (Z.ltb_spec v 128) as [H|H]; cbn [app read_varint].
  - rewrite b2z_z2b. change (2 ^ 8) with 256. rewrite Z.mod_small by lia. by rewrite (proj2 (Z.ltb_lt v 128)).
  - rewrite varint_head by done. pose proof (Z.mod_pos_bound v 128 eq_refl).
    rewrite (proj2 (Z.ltb_ge _ 128)) by lia. destruct n as [|n]; [simpl in Hv; lia|].
    rewrite shiftr7, IH; [|lia|].
    + simpl. f_equal. f_equal. zarith.
    + split; [apply Z.div_pos; lia|]. apply Z.div_lt_upper_bound; [lia|].
      replace (7 * Z.of_nat (S (S n))) with (7 + 7 * Z.of_nat (S n)) in Hv by lia.
      rewrite Z.pow_add_r in Hv by lia. lia.
Qed.

Lemma read_UnsafeVarint v rest : 0 ≤ v < 2 ^ 64 →
  read_varint 10 (UnsafeVarint v ++ rest) = Some (v, rest).
Proof. intros H. apply read_write_varint; [lia|]. lia. Qed.

Lemma read_delimited_spec s rest : Z.of_nat (length s) ≤ max_length →
  read_delimited (UnsafeVarint (Z.of_nat (length s)) ++ s ++ rest) = Some (s, rest).
Proof.
  unfold max_length. intros H. unfold read_delimited. rewrite read_UnsafeVarint by lia. simpl.
  rewrite decide_True by (rewrite length_app; lia). rewrite Nat2Z.id.
  by rewrite take_app_length, drop_app_length.
Qed.

#[global] Instance library_laws : ProtoLibraryLaws library.
Proof.
  split; try done; simpl; intros.
  - unfold read_varint32. by rewrite read_UnsafeVarint by lia.
  - unfold read_varint64. rewrite read_UnsafeVarint by lia. simpl.
    by rewrite wrap_small by (unfold in_unsigned; lia).
  - by apply read_delimited_spec.
  - by apply read_delimited_spec.
Qed.
End Reference.

(** ** The four messages *)




Lemma read_varint_shorter n : ∀ p v p',
  Reference.read_varint n p = Some (v, p') → (length p' < length p)%nat.
Proof.
  induction n as [|n IH]; intros p v p'; [by destruct p|]. destruct p as [|b p]; [done|].
  cbn [Reference.read_varint]. case_match; [intros [= <- <-]; simpl; lia|].
  destruct (Reference.read_varint n p) as [[v1 p1]|] eqn:E; [|done]. simpl. intros [= <- <-].
  pose proof (IH p v1 p1 E). lia.
Qed.

Lemma read_delimited_shorter : advances Reference.read_delimited.
Proof.
  intros p a p'. unfold Reference.read_delimited.
  destruct (Reference.read_varint 10 p) as [[v p1]|] eqn:E; [|done].
  pose proof (read_varint_shorter 10 p v p1 E).
  simpl. case_decide; [|done]. intros [= <- <-]. rewrite length_drop. lia.
Qed.

Lemma read_wrapped_shorter w p v p' :
  ('(v, p) ← Reference.read_varint 10 p; Some (wrap w v, p)) = Some (v, p') → (length p' < length p)%nat.
Proof.
  destruct (Reference.read_varint 10 p) as [[v1 p1]|] eqn:E; [|done].
  intros [= <- <-]. by apply (read_varint_shorter 10 p v1 p1).
Qed.

#[global] Instance reference_progress : ProtoLibraryProgress Reference.library.
Proof.
  split; try apply read_delimited_shorter; try done.
  - intros p v p' H. apply (read_wrapped_shorter 32) in H. lia.
  - intros p v p' H. apply (read_wrapped_shorter 64) in H. lia.
  - intros p v p' H. by apply (read_wrapped_shorter 32) in H.
Qed.



